(* ===== verification/_CoqProject ===== *)
-Q . S2P
Prelude.v
Float.v
Spec.v
IR.v
ProgramStats.v
WireFraming.v
WireTags.v
WireExpr.v
WireNode.v
WireProgram.v
RefValue.v
RefMemory.v
RefEval.v
DivMagic.v
StrengthReduce.v
StrengthReduceSound.v
Rewrite.v
RewriteSound.v
ConstEval.v
ConstFold.v
ConstFoldSound.v
Collectives.v
ProgramFacts.v
ValidateExpr.v
Validate.v
ValidateSound.v
Scoping.v
RefHash.v
RefSched.v
RefSchedSound.v
RefWorkgroup.v
RefDispatch.v
RefDispatchSound.v
ScopingSound.v
ConstFoldGaps.v
RefGraph.v
DeadCode.v
DeadCodeSim.v
DeadCodeSound.v
Cse.v
CseKeys.v
CseSound.v
CseLockstep.v
CseCorrect.v
Cleanup.v
CleanupSim.v
CleanupSound.v
CleanupCorrect.v
Canonical.v
ExprMap.v
CanonicalSound.v
