(* ===== verification/Prelude.v ===== *)
(** A verification of the core of vyre, a GPU compute intermediate representation with
    its serial format, reference interpreter and optimizer.

    * The program

    vyre describes a kernel as a [Program]: buffer declarations, a workgroup size and a
    tree of statements over expressions.  [vyre-spec] fixes the operators and data types;
    [vyre-foundation] holds the IR, the binary wire format that stores and ships programs,
    and the optimizer that rewrites them; [vyre-reference] executes them on the CPU and is
    the oracle the GPU backends are compared with.  A program is built, possibly decoded
    from bytes, rewritten by passes that plug rules into a shared rewrite engine, matched
    with what a backend supports, validated, and executed: the dispatch normalises it,
    refuses what the validator rejects, binds the inputs to buffers, sizes a grid and runs
    each workgroup by a scheduler that steps the invocations in rounds over bounds-checked
    buffers.  The theorems follow that path: what is decoded is what was encoded,
    rewriting keeps the value of an expression, the gate asks for what the program
    contains, a validated program finds every name it uses, and a dispatch ends, without a
    panic under stated limits, with the declared outputs.

    * The files

    - [Prelude]: results, machine-width integers, bytes, little-endian encodings, the
      tactics and lemmas the components share.
    - [Float]: IEEE binary32 and binary64 as bit patterns, exact arithmetic with one
      rounding; the canonical form of the interpreter (one NaN, no subnormals).
    - [Spec] (vyre-spec/src): operators, data types, tag tables, sizes, packing.
    - [IR] (vyre-foundation/src/ir_inner, runtime/memory_model.rs): [Expr], [Node],
      [BufferDecl], [Program], their representation invariants and induction principles.
    - [ProgramStats] (vyre-foundation/src/ir_inner/model/program/stats.rs): the one-pass
      statistics other components consult, with their declarative meaning.
    - [WireFraming], [WireTags], [WireExpr], [WireNode], [WireProgram]
      (vyre-foundation/src/serial): the [Reader] cursor, fixed-width and LEB128 integers
      and strings; operator and data-type tags; expressions (explicit-stack encoder,
      guarded recursive decoder); statements; the program envelope with metadata, memory
      regions, output set and digest.
    - [RefValue], [RefMemory], [RefEval] (vyre-reference/src: value.rs, oob.rs,
      atomics.rs, execution/typed_ops, execution/expr.rs, execution/call.rs): values and
      operators; buffers, atomics and access rules; the frame machine that evaluates
      expressions and the recursion it computes.
    - [RefHash], [RefSched] (vyre-reference/src/execution/hashmap, subgroup.rs,
      execution/node_tree.rs): the workgroup interpreter: memory and its reset, scoped
      locals, subgroup collectives, expressions; statements, the frame stack of an
      invocation, asynchronous transfers, rounds, barriers, the uniformity check.
      [RefSchedSound] has the safety contract, the invariant of an invocation and the
      measure; [RefWorkgroup] the theorems about a workgroup.
    - [DivMagic], [StrengthReduce], [StrengthReduceSound]
      (vyre-foundation/src/optimizer/passes/algebraic/strength_reduce): magic numbers for
      division by constants, the whole rewrite table, and its soundness.
    - [Rewrite], [RewriteSound] (vyre-foundation/src/optimizer/rewrite.rs): the
      copy-on-write rewrite engine over expressions, statements and programs; the class
      [SoundTransform], what a rule owes the engine, and its instance for strength
      reduction.
    - [ConstEval] (vyre-foundation/src/runtime/ir_eval.rs): literal evaluation and its
      agreement with the interpreter.
    - [ConstFold], [ConstFoldSound], [ConstFoldGaps]
      (vyre-foundation/src/optimizer/passes/algebraic/const_fold,
      optimizer/algebraic_rules.rs): the rule tables of constant folding, the look-behind
      over statements and the pass; its instance of [SoundTransform]; the programs it
      changes.
    - [Collectives] (vyre-foundation/src/transform/collectives.rs,
      runtime/program_caps.rs): the transport plan, the lowering of single-rank
      collectives, the capability scan and the gate of a backend.
    - [ProgramFacts] (vyre-foundation/src/optimizer/program_soa.rs): the columnar facts
      the analyses query, with their declarative meaning.
    - [ValidateExpr], [Validate], [ValidateSound] (vyre-foundation/src/validate,
      visit/traits.rs, algebra/composition.rs): the validator.  Expression rules, type
      inference, uniformity and buffer accesses over explicit stacks; the statement
      traversal with its scopes, undo logs, alias sets and limits; the checks of a whole
      program; the recursion the traversal computes.
    - [Scoping], [ScopingSound]: the scope rule the validator promises ([scope_node]), that
      an accepted program satisfies it, and that it is enough for every lookup of the
      interpreter ([named] is the contract of a step, [inv_scoped] the invariant of an
      invocation).
    - [RefDispatch], [RefDispatchSound] (vyre-reference/src/execution/mod.rs,
      execution/hashmap/mod.rs): [reference_eval] from the submitted program to its
      outputs, over the workgroup interpreter; its theorems.
    - [DeadCode], [DeadCodeSim], [DeadCodeSound]
      (vyre-foundation/src/optimizer/passes/fusion_cse/dce, cse/expr_has_effect.rs):
      dead-code elimination.  The liveness walk, the unfolding of literal conditionals and
      the pass; any order of steps of a workgroup ([lane_step]), the class
      [LaneSimulation] of an invocation-wise simulation, the class [Trims] of what a pass
      may leave of a list of statements and the simulation it gives; the instances of the
      two walks, scoping of their results, and the programs the pass breaks.
    - [Cse], [CseKeys], [CseSound], [CseLockstep], [CseCorrect]
      (vyre-foundation/src/optimizer/passes/fusion_cse/cse): common-subexpression
      elimination.  The context with its scopes, undo log and epochs, the table of keys
      and the walk; what an id stands for ([repr]); contexts whose visible bindings hold
      the values they stand for ([sound]) and what a nested list does to them ([extends]);
      source and target in lockstep ([stack_rel], [twin]); a dispatch of the result.
    - [Cleanup], [CleanupSim], [CleanupSound], [CleanupCorrect]
      (vyre-foundation/src/visit/node_map.rs, optimizer/passes/cleanup,
      optimizer/passes/loops/loop_trip_zero_eliminate.rs,
      optimizer/passes/sync/barrier_coalesce.rs): six structural passes with their gates
      and change flags; what they may leave of a list of statements ([tidies]) and the
      [LaneSimulation] it gives; the scans behind gates and flags; the passes side by side.
    - [ExprMap], [Canonical], [CanonicalSound]
      (vyre-foundation/src/optimizer/passes/algebraic/canonicalize_engine.rs,
      canonicalize.rs): the class [ExprPass] of passes that rewrite expressions one by one
      and a dispatch after such a pass; canonicalisation of operand order, its normal
      form, and the conditions under which it is an [ExprPass] ([orderly]).
    - [RefGraph] (vyre-foundation/src/ir_inner/model/node_kind.rs,
      vyre-reference/src/execution/mod.rs): storage graphs and their memoising
      interpreter.

    * What the theorems show

    - Wire format: programs, statements, expressions, data types and integers round trip
      inside the documented limits; decoding accepts only well-formed programs
      within the limits and only under an intact envelope, and ends on every byte string
      given a stack frame per byte for nested data types, whose recursion has no guard; the
      explicit-stack encoder is the recursive one.  Four theorems show where encoder,
      decoder and documentation disagree.
    - Reference interpreter: the frame machine is the recursive semantics; evaluation
      keeps values in their widths and memory well formed and, where the zero of every
      element type can be allocated, never panics; loads,
      stores and atomics touch what they address and nothing else; floats stay canonical;
      a workgroup always runs to an end, barriers separate and never deadlock, workgroups
      do not see each other's memory, and invocations are numbered in row-major order.
      One theorem shows what the uniformity check rejects and misses.
    - Dispatch: [reference_eval] answers on every well-formed program with literal transfer
      sizes and allocatable lengths and zeros; inputs reach their buffers under both calling
      conventions, and the outputs are the bytes the final storage holds under the names of
      the output declarations, in order.  One theorem shows a zero that panics.  A storage graph evaluates to its
      recursive meaning, with the operators of the statement interpreter.
    - Validator: its traversal ends and is a recursion over the tree; where an operator
      registry is installed, an accepted program never fails on a name in the interpreter;
      an expression it takes for uniform has one
      value in a workgroup.  Theorems show programs that pass and cannot run.
    - Program facts: statistics and columns are what a declarative reading of the tree says; the
      lowering of collectives and the transport plan agree, and its index names are distinct
      but may clash with those of the program (one theorem shows a clash); the gate accepts exactly the
      programs whose content the backend supports.
    - Optimizer: the division sequence is exact for every divisor and dividend; Horner
      form and every rule of the table in its exact range keep the value; the rewrite
      engine computes the bottom-up rewrite and reports changes exactly; composed, the
      pass simulates the original expression.  Literal folding agrees with the interpreter
      on all four literal types, constant folding simulates the original expression on
      operands that are evidently unsigned or boolean and keeps everything of a program but
      its statements.  Two theorems show the rules outside their exact range.
    - Dead-code elimination: every order of steps of a kernel has its like in the trimmed
      kernel, with the same memory at the end; names still resolve when bindings have
      different names.  One theorem shows what happens outside these conditions.
    - Common-subexpression elimination: a dispatch of the rewritten program returns what
      the original returns, when workgroups have one invocation or bindings read no
      memory; expressions with one id have one value; nested lists give back the tables
      they found.  One theorem shows a race that is changed and types that share a key.
    - Cleanup passes: any sequence of the five that tidy keeps every order of steps of a
      program without subgroup operations (one theorem shows why the condition is there);
      a pass reports a change exactly when its gate opens, the gate is exact, and
      repeating a pass closes it; coalesced barriers give what the run gave.
    - Canonicalisation: a dispatch of the canonical form returns what the original returns
      when reordered operands do not interfere; the form is stable, and the same for both
      spellings of an operation with one literal or with operands that are sorted.  One theorem shows a NaN, an atomic and a pair of loads
      outside these conditions.

    * Conventions

    A [w]-bit integer is a [Z] in range with its reduction written out; arithmetic is
    that of a release build on a 64-bit host, where [usize] additions wrap unless the
    source checks them and slices out of range panic.  Fallible code returns [result];
    [Panic] is an explicit error value, so its absence is a theorem; an allocation within
    the limits of the platform is taken to succeed, and the call stack to be deep enough.  Error messages are
    shortened.  Loops that are not structural take fuel: the encoder and both stack
    machines take the size of the tree, which is proved to be enough; the decoder takes
    the depth budget of the source and the length of the input; the magic-number
    and signed-digit loops take 33 rounds; the scheduler takes any fuel from
    [workgroup_fuel] on, twice the work of the invocations plus one, with [2^32]
    iterations for a loop, and more fuel does not change its result; a dispatch takes any
    fuel from [reference_fuel] on, that of one workgroup of the normalised program; the
    stack walk of the transport plan takes the size of the statements; type inference
    takes two steps per expression node and one more, the other stack walks of the
    validator the size of the expression, its traversal [frames_fuel], sixteen steps per
    statement and sixteen more; common-subexpression elimination recurses over the tree,
    and its theorems ask that [nodes_cost], a bound on the keys and epochs it can use, is
    at most [2^32], so that ids and epochs do not wrap; the graph
    interpreter takes one more than the number of nodes, which its visiting set bounds.

    * Parameters

    Code outside the repository is an argument: the blake3 digest, the hash of identifiers,
    the [libm] functions
    ([FloatEnv], with [FloatEnvOk] their ranges), the registered deserialisers of opaque
    extensions, the operator registry ([dialect]) and the power function of the platform
    ([powf], of which nothing is assumed); each theorem that assumes
    something of them has a witness that instantiates them.  A backend is, for the
    validator, the answers of its capability methods.

    * Not modelled

    The per-invocation call cache (a lookup in a registry that does not change); the
    caches of [Program]; the second statement executor over slot-indexed locals; the
    validation walkers compiled only for tests; VAST serialisation; the other optimizer
    passes, the e-graph and pass scheduling; execution planning; lowering, emitters, drivers, runtime, front ends,
    libraries of kernels and tooling.  The operands of asynchronous transfers are not
    visited by the rewrite engine of the source.  The slot executor duplicates the workgroup
    interpreter over resolved names; a refinement between the two is the natural next step. *)

From Stdlib Require Export ZArith Lia.
From Stdlib Require Import Ascii.
From stdpp Require Export base tactics list strings gmap.

#[global] Open Scope Z_scope.

(** ** Results: Rust's [Result<T, E>] *)

Inductive result (E A : Type) : Type :=
| Ok (a : A)
| Err (e : E).
Arguments Ok {E A} a.
Arguments Err {E A} e.

#[export] Instance result_ret {E} : MRet (result E) := fun A x => Ok x.
#[export] Instance result_bind {E} : MBind (result E) := fun A B f m =>
  match m with Ok x => f x | Err e => Err e end.
#[export] Instance result_fmap {E} : FMap (result E) := fun A B f m =>
  match m with Ok x => Ok (f x) | Err e => Err e end.

(** Rust's [Option::ok_or]. *)
Definition ok_or {E A} (o : option A) (e : E) : result E A :=
  match o with Some x => Ok x | None => Err e end.

(** An early return: [if bad { return Err(e) }]. *)
Definition reject_if {E} (bad : bool) (e : E) : result E unit :=
  if bad then Err e else Ok tt.

Definition is_ok {E A} (r : result E A) : bool :=
  match r with Ok _ => true | Err _ => false end.

(** A [for] loop whose body may fail, threading an accumulator. *)
Fixpoint try_fold {E A S} (f : S -> A -> result E S) (s : S) (l : list A) : result E S :=
  match l with
  | [] => Ok s
  | x :: l => s' ← f s x; try_fold f s' l
  end.

Lemma bind_Ok {E A B} (m : result E A) (f : A -> result E B) b :
  (x ← m; f x) = Ok b <-> exists a, m = Ok a /\ f a = Ok b.
Proof.
  destruct m as [a|e]; cbn; split.
  - eauto.
  - intros (? & [= ->] & ?). done.
  - done.
  - intros (? & ? & ?). done.
Qed.

Lemma reject_if_Ok {E} b (e : E) u : reject_if b e = Ok u <-> b = false.
Proof. destruct b, u; cbn; naive_solver. Qed.

(** ** Machine-width integers

    A [w]-bit unsigned integer is a [Z] in [0, 2^w); a signed one is a [Z] in
    [-2^(w-1), 2^(w-1)).  The wrapping operations of Rust are the exact
    operation followed by the reduction below. *)

Definition wrapu (w x : Z) : Z := x mod 2 ^ w.
Definition wraps (w x : Z) : Z := (x + 2 ^ (w - 1)) mod 2 ^ w - 2 ^ (w - 1).

Definition inu (w x : Z) : Prop := 0 <= x < 2 ^ w.
Definition ins (w x : Z) : Prop := - 2 ^ (w - 1) <= x < 2 ^ (w - 1).

Abbreviation U8_MAX := 255.
Abbreviation U16_MAX := 65535.
Abbreviation U32_MAX := 4294967295.
Abbreviation U64_MAX := 18446744073709551615.
Abbreviation I32_MIN := (-2147483648).
Abbreviation I32_MAX := 2147483647.

Lemma wrapu_range w x : 0 <= w -> inu w (wrapu w x).
Proof. intros. unfold inu, wrapu. apply Z.mod_pos_bound. lia. Qed.

Lemma wrapu_id w x : inu w x -> wrapu w x = x.
Proof. intros. unfold wrapu. apply Z.mod_small. exact H. Qed.

Lemma pow2_split w : 0 < w -> 2 ^ w = 2 * 2 ^ (w - 1).
Proof. intros. replace w with (1 + (w - 1)) at 1 by lia. rewrite Z.pow_add_r by lia. reflexivity. Qed.

Lemma wraps_range w x : 0 < w -> ins w (wraps w x).
Proof.
  intros Hw. unfold ins, wraps.
  pose proof (Z.mod_pos_bound (x + 2 ^ (w - 1)) (2 ^ w)) as Hb.
  pose proof (pow2_split w Hw). lia.
Qed.

Lemma wraps_id w x : 0 < w -> ins w x -> wraps w x = x.
Proof.
  intros Hw Hx. unfold ins, wraps in *. pose proof (pow2_split w Hw).
  rewrite Z.mod_small; lia.
Qed.

(** Reinterpreting the bits of a signed integer and back ([as u32] then
    [as i32]) is the identity. *)
Lemma wraps_wrapu w x : 0 < w -> wraps w (wrapu w x) = wraps w x.
Proof.
  intros Hw. unfold wraps, wrapu. f_equal.
  rewrite Z.add_mod_idemp_l; [reflexivity|]. lia.
Qed.

Lemma wrapu_wraps w x : 0 < w -> wrapu w (wraps w x) = wrapu w x.
Proof.
  intros Hw. unfold wraps, wrapu. rewrite Zminus_mod_idemp_l. f_equal. lia.
Qed.

#[global] Instance inu_dec w x : Decision (inu w x).
Proof. unfold inu. apply _. Defined.
#[global] Instance ins_dec w x : Decision (ins w x).
Proof. unfold ins. apply _. Defined.

(** Goals about widths: the powers of two are literals by then. *)
Ltac width_lia := unfold inu, ins in *; lia.

(** *** Bit-level facts *)

(** Bit fields that do not overlap: [|] is [+]. *)
Lemma lor_shiftl_disjoint a b s :
  0 <= s -> 0 <= a < 2 ^ s -> Z.lor a (Z.shiftl b s) = a + b * 2 ^ s.
Proof.
  intros Hs Ha. rewrite <- Z.shiftl_mul_pow2 by done.
  symmetry. rewrite <- Z.lxor_lor; [apply Z.add_nocarry_lxor|];
    apply Z.bits_inj'; intros n Hn; rewrite Z.land_spec, Z.bits_0;
    (destruct (Z.lt_ge_cases n s);
      [rewrite (Z.shiftl_spec_low b s n) by done; by rewrite andb_false_r|]);
    rewrite (Z.testbit_eqb a) by done;
    rewrite Z.div_small by (split; [lia|]; pose proof (Z.pow_le_mono_r 2 s n); lia); done.
Qed.

Lemma land_mask w x : 0 <= w -> Z.land x (2 ^ w - 1) = x mod 2 ^ w.
Proof. intros. rewrite <- Z.land_ones by done. by rewrite Z.ones_equiv, <- Z.sub_1_r. Qed.

(** A property of a finite range, by enumeration. *)
Lemma range_forall (P : Z -> bool) n :
  forallb P (seqZ 0 n) = true -> forall b, 0 <= b < n -> P b = true.
Proof.
  intros HP b Hb. rewrite forallb_forall in HP. apply HP.
  apply list_elem_of_In, elem_of_seqZ. lia.
Qed.
Lemma byte_forall (P : Z -> bool) :
  forallb P (seqZ 0 256) = true -> forall b, inu 8 b -> P b = true.
Proof. intros HP b Hb. by apply (range_forall P 256). Qed.

Lemma Forall_of_forallb {A} (P : A -> Prop) (f : A -> bool) l :
  (forall x, f x = true -> P x) -> forallb f l = true -> Forall P l.
Proof. intros Hf Hl. rewrite forallb_forall in Hl. apply Forall_forall.
  intros x Hx%list_elem_of_In. auto. Qed.

(** Closed side conditions on concrete data, as the witnesses have them. *)
Ltac concrete :=
  repeat match goal with
  | |- Forall _ (_ :: _) => apply Forall_cons_2; cbn
  | |- Forall _ [] => apply Forall_nil_2
  | |- _ /\ _ => split; cbn
  | |- True => exact I
  | |- inu _ _ => unfold inu; lia
  | |- ins _ _ => unfold ins; lia
  | |- _ = _ => reflexivity
  | |- _ <= _ => vm_compute; discriminate
  | |- _ <> _ => discriminate
  end.

(** ** Little-endian bytes: [to_le_bytes] / [from_le_bytes] *)

Abbreviation bytes := (list Z).

Fixpoint le_bytes (n : nat) (x : Z) : bytes :=
  match n with
  | O => []
  | S n => x mod 256 :: le_bytes n (x / 256)
  end.

Fixpoint of_le_bytes (l : bytes) : Z :=
  match l with
  | [] => 0
  | b :: l => b + 256 * of_le_bytes l
  end.

Lemma length_le_bytes n x : length (le_bytes n x) = n.
Proof. revert x; induction n; intros; simpl; auto. Qed.

Lemma of_le_bytes_le_bytes n x : of_le_bytes (le_bytes n x) = x mod 256 ^ Z.of_nat n.
Proof.
  revert x; induction n as [|n IH]; intros x.
  - cbn. rewrite Z.mod_1_r. reflexivity.
  - cbn [le_bytes of_le_bytes]. rewrite IH.
    rewrite Nat2Z.inj_succ, Z.pow_succ_r by lia.
    rewrite Z.rem_mul_r; lia.
Qed.

Lemma le_bytes_range n x : Forall (inu 8) (le_bytes n x).
Proof.
  revert x; induction n as [|n IH]; intros x; constructor; auto.
  unfold inu. apply Z.mod_pos_bound. lia.
Qed.

Lemma of_le_bytes_bound l : Forall (inu 8) l -> 0 <= of_le_bytes l < 256 ^ Z.of_nat (length l).
Proof.
  induction 1 as [|b l Hb Hl IH]; [cbn; lia|].
  cbn [of_le_bytes length]. rewrite Nat2Z.inj_succ, Z.pow_succ_r by lia.
  width_lia.
Qed.

Lemma le_bytes_of_le_bytes l : Forall (inu 8) l -> le_bytes (length l) (of_le_bytes l) = l.
Proof.
  induction 1 as [|b l Hb Hl IH]; [done|].
  cbn [of_le_bytes length le_bytes]. unfold inu in Hb.
  rewrite (Z.mul_comm 256), Z.mod_add, Z.mod_small by lia.
  rewrite Z.div_add, Z.div_small, Z.add_0_l, IH by lia. done.
Qed.

(** ** Strings: Rust's UTF-8 [str] as a byte string *)

Definition byte_of_ascii (c : ascii) : Z := Z.of_N (N_of_ascii c).
Definition ascii_of_byte (b : Z) : ascii := ascii_of_N (Z.to_N b).

(** [str::as_bytes] and its inverse on bytes. *)
Fixpoint str_bytes (s : string) : bytes :=
  match s with
  | EmptyString => []
  | String c s => byte_of_ascii c :: str_bytes s
  end.
Fixpoint bytes_str (l : bytes) : string :=
  match l with
  | [] => EmptyString
  | b :: l => String (ascii_of_byte b) (bytes_str l)
  end.

Lemma ascii_of_byte_of_ascii c : ascii_of_byte (byte_of_ascii c) = c.
Proof. unfold ascii_of_byte, byte_of_ascii. rewrite N2Z.id. apply ascii_N_embedding. Qed.

Lemma byte_of_ascii_range c : inu 8 (byte_of_ascii c).
Proof. unfold byte_of_ascii. pose proof (N_ascii_bounded c). width_lia. Qed.

Lemma bytes_str_str_bytes s : bytes_str (str_bytes s) = s.
Proof. induction s; simpl; [done|]. by rewrite ascii_of_byte_of_ascii, IHs. Qed.

Lemma str_bytes_range s : Forall (inu 8) (str_bytes s).
Proof. induction s; simpl; constructor; auto using byte_of_ascii_range. Qed.

Lemma str_bytes_bytes_str l : Forall (inu 8) l -> str_bytes (bytes_str l) = l.
Proof.
  induction 1 as [|b l Hb Hl IH]; simpl; [done|]. rewrite IH. f_equal.
  unfold byte_of_ascii, ascii_of_byte. unfold inu in Hb.
  rewrite N_ascii_embedding by lia. lia.
Qed.

(** The check of [std::str::from_utf8]: well-formed UTF-8 (no overlong forms,
    no surrogates, nothing above U+10FFFF). *)
Definition utf8_cont (b : Z) : bool := (0x80 <=? b) && (b <=? 0xBF).
Definition utf8_second (b0 b1 : Z) : bool :=
  if b0 =? 0xE0 then (0xA0 <=? b1) && (b1 <=? 0xBF)
  else if b0 =? 0xED then (0x80 <=? b1) && (b1 <=? 0x9F)
  else if b0 =? 0xF0 then (0x90 <=? b1) && (b1 <=? 0xBF)
  else if b0 =? 0xF4 then (0x80 <=? b1) && (b1 <=? 0x8F)
  else utf8_cont b1.
Fixpoint utf8_valid (l : bytes) : bool :=
  match l with
  | [] => true
  | b0 :: l0 =>
      if (0 <=? b0) && (b0 <=? 0x7F) then utf8_valid l0
      else if (0xC2 <=? b0) && (b0 <=? 0xDF) then
        match l0 with b1 :: l1 => utf8_cont b1 && utf8_valid l1 | [] => false end
      else if (0xE0 <=? b0) && (b0 <=? 0xEF) then
        match l0 with
        | b1 :: b2 :: l2 => utf8_second b0 b1 && utf8_cont b2 && utf8_valid l2
        | _ => false
        end
      else if (0xF0 <=? b0) && (b0 <=? 0xF4) then
        match l0 with
        | b1 :: b2 :: b3 :: l3 =>
            utf8_second b0 b1 && utf8_cont b2 && utf8_cont b3 && utf8_valid l3
        | _ => false
        end
      else false
  end.

(** A [&str]'s invariant. *)
Definition str_ok (s : string) : bool := utf8_valid (str_bytes s).

(** ** Lists and options *)

Lemma take_app_exact {A} (l1 l2 : list A) : take (length l1) (l1 ++ l2) = l1.
Proof. apply take_app_length. Qed.
Lemma drop_app_exact {A} (l1 l2 : list A) : drop (length l1) (l1 ++ l2) = l2.
Proof. apply drop_app_length. Qed.

(** [slice.len()] as an integer. *)
Definition blen {A} (l : list A) : Z := Z.of_nat (length l).

Lemma blen_nonneg {A} (l : list A) : 0 <= blen l.
Proof. unfold blen. lia. Qed.
Lemma blen_app {A} (l k : list A) : blen (l ++ k) = blen l + blen k.
Proof. unfold blen. rewrite length_app. lia. Qed.
Lemma blen_le_bytes n x : blen (le_bytes n x) = Z.of_nat n.
Proof. unfold blen. by rewrite length_le_bytes. Qed.

(** [Forall] as a fixpoint, for predicates on nested data. *)
Definition Forall_list {A} (P : A -> Prop) : list A -> Prop :=
  fix go l := match l with [] => True | x :: l => P x /\ go l end.

Lemma Forall_list_Forall {A} (P : A -> Prop) l : Forall_list P l <-> Forall P l.
Proof. induction l; cbn; rewrite ?Forall_nil, ?Forall_cons; tauto. Qed.
