(* ===== verification/Float.v ===== *)
(** IEEE-754 arithmetic as Rust's [f32] and [f64] have it, on bit patterns.

    A float is the integer of its bits ([to_bits]).  An operation unpacks its
    operands to sign, mantissa and exponent, computes the exact result in [Z],
    and rounds it once to nearest, ties to even.  [canonical_f32] is the
    canonicalisation of the reference interpreter
    (vyre-reference/src/execution/typed_ops/float_ops.rs). *)

From S2P Require Import Prelude.

(** A binary format: precision in bits and width of the exponent field. *)
Record format := mkFormat { prec : Z; ew : Z }.
Definition binary32 : format := mkFormat 24 8.
Definition binary64 : format := mkFormat 53 11.

Definition bias (f : format) : Z := 2 ^ (ew f - 1) - 1.
(** Exponent of the last mantissa bit of subnormals, and of the largest binade. *)
Definition emin (f : format) : Z := 2 - bias f - prec f.
Definition emax (f : format) : Z := bias f + 1 - prec f.
Definition sign_bit (f : format) : Z := prec f - 1 + ew f.

(** [Fin s m e] is [(-1)^s * m * 2^e]; zeros have [m = 0]. *)
Inductive fp :=
| NaN
| Inf (s : bool)
| Fin (s : bool) (m e : Z).

Definition unpack (f : format) (bits : Z) : fp :=
  let s := Z.testbit bits (sign_bit f) in
  let ex := Z.shiftr bits (prec f - 1) mod 2 ^ ew f in
  let frac := bits mod 2 ^ (prec f - 1) in
  if ex =? 0 then Fin s frac (emin f)
  else if ex =? 2 ^ ew f - 1 then if frac =? 0 then Inf s else NaN
  else Fin s (2 ^ (prec f - 1) + frac) (ex - 1 + emin f).

Definition signed (f : format) (s : bool) (x : Z) : Z :=
  (if s then 2 ^ sign_bit f else 0) + x.
Definition inf_bits (f : format) : Z := (2 ^ ew f - 1) * 2 ^ (prec f - 1).
(** The quiet NaN with an empty payload. *)
Definition nan_bits (f : format) : Z := inf_bits f + 2 ^ (prec f - 2).

(** The bits of [m * 2^e] when [m] is below the precision and, unless it is
    subnormal, has its leading bit at [prec - 1]. *)
Definition pack_fin (f : format) (s : bool) (m e : Z) : Z :=
  if m <? 2 ^ (prec f - 1) then signed f s m
  else signed f s ((e - emin f + 1) * 2 ^ (prec f - 1) + (m - 2 ^ (prec f - 1))).

Definition half_even (q r half : Z) : Z :=
  if (half <? r) || ((half =? r) && Z.odd q) then q + 1 else q.

(** The value [m * 2^e], [m >= 0], rounded to the format. *)
Definition round_bits (f : format) (s : bool) (m e : Z) : Z :=
  if m =? 0 then signed f s 0 else
  let d := Z.max (Z.log2 m + 1 - prec f + e) (emin f) - e in
  let m' := if d <=? 0 then m * 2 ^ (- d)
            else half_even (m / 2 ^ d) (m mod 2 ^ d) (2 ^ (d - 1)) in
  let '(m1, e1) := if m' =? 2 ^ prec f then (2 ^ (prec f - 1), e + d + 1) else (m', e + d) in
  if emax f <? e1 then signed f s (inf_bits f) else pack_fin f s m1 e1.

Definition to_bits (f : format) (x : fp) : Z :=
  match x with
  | NaN => nan_bits f
  | Inf s => signed f s (inf_bits f)
  | Fin s m e => round_bits f s m e
  end.

Definition sm (s : bool) (m : Z) : Z := if s then - m else m.

(** The exact sum, at the smaller exponent.  A zero sum is negative only when both
    operands are. *)
Definition fp_add (x y : fp) : fp :=
  match x, y with
  | NaN, _ | _, NaN => NaN
  | Inf s, Inf t => if Bool.eqb s t then Inf s else NaN
  | Inf s, _ => Inf s
  | _, Inf t => Inf t
  | Fin s m e, Fin t n g =>
      let e0 := Z.min e g in
      let v := sm s m * 2 ^ (e - e0) + sm t n * 2 ^ (g - e0) in
      if v =? 0 then Fin (s && t) 0 0 else Fin (v <? 0) (Z.abs v) e0
  end.
Definition fp_neg (x : fp) : fp :=
  match x with NaN => NaN | Inf s => Inf (negb s) | Fin s m e => Fin (negb s) m e end.
Definition fp_abs (x : fp) : fp :=
  match x with NaN => NaN | Inf _ => Inf false | Fin _ m e => Fin false m e end.
Definition fp_mul (x y : fp) : fp :=
  match x, y with
  | NaN, _ | _, NaN => NaN
  | Inf s, Inf t => Inf (xorb s t)
  | Inf s, Fin t n _ | Fin s n _, Inf t => if n =? 0 then NaN else Inf (xorb s t)
  | Fin s m e, Fin t n g => Fin (xorb s t) (m * n) (e + g)
  end.
(** The quotient to two bits beyond the precision, with a sticky bit. *)
Definition fp_div (f : format) (x y : fp) : fp :=
  match x, y with
  | NaN, _ | _, NaN => NaN
  | Inf _, Inf _ => NaN
  | Inf s, Fin t _ _ => Inf (xorb s t)
  | Fin s _ _, Inf t => Fin (xorb s t) 0 0
  | Fin s m e, Fin t n g =>
      if n =? 0 then if m =? 0 then NaN else Inf (xorb s t)
      else
        let k := Z.max 0 (prec f + 2 + Z.log2 n - Z.log2 m) in
        let q := (m * 2 ^ k) / n in
        let sticky := if (m * 2 ^ k) mod n =? 0 then 0 else 1 in
        Fin (xorb s t) (2 * q + sticky) (e - g - k - 1)
  end.
(** One rounding of [x * y + z]: [f32::mul_add]. *)
Definition fp_fma (x y z : fp) : fp := fp_add (fp_mul x y) z.

Definition fp_compare (x y : fp) : option comparison :=
  match x, y with
  | NaN, _ | _, NaN => None
  | Inf s, Inf t => Some (if Bool.eqb s t then Eq else if s then Lt else Gt)
  | Inf s, _ => Some (if s then Lt else Gt)
  | _, Inf t => Some (if t then Gt else Lt)
  | Fin s m e, Fin t n g =>
      let e0 := Z.min e g in Some (sm s m * 2 ^ (e - e0) ?= sm t n * 2 ^ (g - e0))
  end.
Definition is_cmp (c : comparison) (o : option comparison) : bool :=
  match o, c with Some Eq, Eq | Some Lt, Lt | Some Gt, Gt => true | _, _ => false end.
Definition fp_eq x y : bool := is_cmp Eq (fp_compare x y).
Definition fp_lt x y : bool := is_cmp Lt (fp_compare x y).
Definition fp_gt x y : bool := is_cmp Gt (fp_compare x y).
Definition fp_le x y : bool := fp_lt x y || fp_eq x y.
Definition fp_ge x y : bool := fp_gt x y || fp_eq x y.

(** The integer part of a magnitude and whether something was cut off. *)
Definition int_part (m e : Z) : Z * bool :=
  if 0 <=? e then (m * 2 ^ e, false) else (m / 2 ^ (- e), negb (m mod 2 ^ (- e) =? 0)).
Definition fp_trunc (x : fp) : fp :=
  match x with Fin s m e => Fin s (fst (int_part m e)) 0 | _ => x end.
Definition fp_floor (x : fp) : fp :=
  match x with
  | Fin s m e => let '(q, cut) := int_part m e in Fin s (if s && cut then q + 1 else q) 0
  | _ => x
  end.
Definition fp_ceil (x : fp) : fp :=
  match x with
  | Fin s m e => let '(q, cut) := int_part m e in Fin s (if negb s && cut then q + 1 else q) 0
  | _ => x
  end.
(** [f32::round]: halves go away from zero. *)
Definition fp_round (x : fp) : fp :=
  match x with
  | Fin s m e => Fin s (if 0 <=? e then m * 2 ^ e else (2 * m + 2 ^ (- e)) / 2 ^ (1 - e)) 0
  | _ => x
  end.

(** A float cast to an integer type truncates and saturates; NaN is 0. *)
Definition fp_to_int (lo hi : Z) (x : fp) : Z :=
  match x with
  | NaN => 0
  | Inf s => if s then lo else hi
  | Fin s m e => Z.max lo (Z.min hi (sm s (fst (int_part m e))))
  end.

(** ** [f32] and [f64] on bits *)

Definition f32_of (x : fp) : Z := to_bits binary32 x.
Definition f32_val (bits : Z) : fp := unpack binary32 bits.
Definition f64_of (x : fp) : Z := to_bits binary64 x.
Definition f64_val (bits : Z) : fp := unpack binary64 bits.

(** [f64::from(f32)], [f64 as f32], and [u32 as f32] and the like. *)
Definition f64_from_f32 (bits : Z) : Z := f64_of (f32_val bits).
Definition f64_as_f32 (bits : Z) : Z := f32_of (f64_val bits).
Definition int_as_f32 (x : Z) : Z := f32_of (Fin (x <? 0) (Z.abs x) 0).

Definition F32_ONE : Z := 0x3F800000.
Definition F64_ONE : Z := 0x3FF0000000000000.

(** [is_nan] and [is_subnormal] look at the bits below the sign. *)
Definition f32_magnitude (bits : Z) : Z := Z.land bits 0x7FFFFFFF.
Definition f32_is_nan (bits : Z) : bool := 0x7F800000 <? f32_magnitude bits.
Definition f32_is_subnormal (bits : Z) : bool :=
  (0 <? f32_magnitude bits) && (f32_magnitude bits <? 0x00800000).

(** Collapses NaN payloads and flushes subnormals to a zero of the same sign. *)
Definition canonical_f32 (bits : Z) : Z :=
  if f32_is_nan bits then 0x7FC00000
  else if f32_is_subnormal bits then Z.land bits 0x80000000
  else bits.

Definition f32_canonical (bits : Z) : Prop :=
  inu 32 bits /\ f32_is_subnormal bits = false /\ (f32_is_nan bits = true -> bits = 0x7FC00000).

Example f32_sum : f32_of (fp_add (f32_val 0x3FC00000) (f32_val 0x40200000)) = 0x40800000.
Proof. reflexivity. Qed.
Example f32_third : f32_of (fp_div binary32 (f32_val F32_ONE) (f32_val 0x40400000)) = 0x3EAAAAAB.
Proof. reflexivity. Qed.
Example f32_from_big : int_as_f32 16777217 = 0x4B800000.
Proof. reflexivity. Qed.
Example f32_overflow : f32_of (fp_mul (f32_val 0x7F7FFFFF) (f32_val 0x40000000)) = 0x7F800000.
Proof. reflexivity. Qed.
Example f32_round_half : f32_of (fp_round (f32_val 0xC0200000)) = 0xC0400000.
Proof. reflexivity. Qed.
Example f32_widen : f64_from_f32 0x00000001 = 0x36A0000000000000.
Proof. reflexivity. Qed.

(** ** Ranges *)

Definition fmt_ok (f : format) : Prop := 2 <= prec f /\ 2 <= ew f.
Definition fp_wf (x : fp) : Prop := match x with Fin _ m _ => 0 <= m | _ => True end.

Lemma binary32_ok : fmt_ok binary32.
Proof. split; cbn; lia. Qed.
Lemma binary64_ok : fmt_ok binary64.
Proof. split; cbn; lia. Qed.

Section Ranges.
Context (f : format) (Hf : fmt_ok f).

Lemma bias_twice : 2 * bias f = 2 ^ ew f - 2.
Proof. unfold bias. destruct Hf. rewrite (pow2_split (ew f)); lia. Qed.

Lemma signed_range s x :
  0 <= x < 2 ^ sign_bit f -> inu (sign_bit f + 1) (signed f s x).
Proof.
  intros Hx. unfold inu, signed. destruct Hf. unfold sign_bit in *.
  rewrite Z.add_1_r, Z.pow_succ_r by lia. destruct s; lia.
Qed.

Lemma inf_bits_range : 0 <= inf_bits f < 2 ^ sign_bit f.
Proof.
  unfold inf_bits, sign_bit. destruct Hf.
  assert (0 < 2 ^ (prec f - 1)) by lia. assert (4 <= 2 ^ ew f).
  { change 4 with (2 ^ 2). apply Z.pow_le_mono_r; lia. }
  rewrite Z.pow_add_r by lia. nia.
Qed.

Lemma pack_fin_range s m e :
  0 <= m < 2 ^ prec f -> emin f <= e <= emax f -> inu (sign_bit f + 1) (pack_fin f s m e).
Proof.
  intros Hm He. unfold pack_fin. destruct Hf. pose proof bias_twice.
  rewrite (pow2_split (prec f)) in Hm by lia.
  assert (1 <= 2 ^ (ew f - 1)) by lia. assert (2 ^ ew f = 2 * 2 ^ (ew f - 1)) by (apply pow2_split; lia).
  destruct (Z.ltb_spec m (2 ^ (prec f - 1))); apply signed_range;
    unfold sign_bit; rewrite Z.pow_add_r by lia; [nia|].
  set (M := 2 ^ (prec f - 1)) in *. set (E := 2 ^ ew f) in *.
  assert (1 <= e - emin f + 1 <= E - 2) by (unfold emin, emax in *; lia). nia.
Qed.

(** What rounding drops, and the mantissa that is left. *)
Lemma half_even_bounds q r half : q <= half_even q r half <= q + 1.
Proof. unfold half_even. case_match; lia. Qed.

Lemma round_mantissa m e :
  0 < m ->
  let d := Z.max (Z.log2 m + 1 - prec f + e) (emin f) - e in
  0 <= (if d <=? 0 then m * 2 ^ (- d) else half_even (m / 2 ^ d) (m mod 2 ^ d) (2 ^ (d - 1)))
    <= 2 ^ prec f.
Proof.
  intros Hm d. destruct Hf as [Hp _]. destruct (Z.log2_spec m Hm) as [Hl Hu].
  pose proof (Z.log2_nonneg m).
  destruct (Z.leb_spec d 0).
  - assert (2 ^ Z.succ (Z.log2 m) * 2 ^ (- d) <= 2 ^ prec f).
    { rewrite <- Z.pow_add_r by lia. apply Z.pow_le_mono_r; lia. }
    assert (0 < 2 ^ (- d)) by lia. nia.
  - pose proof (half_even_bounds (m / 2 ^ d) (m mod 2 ^ d) (2 ^ (d - 1))).
    assert (0 < 2 ^ d) by lia.
    assert (0 <= m / 2 ^ d) by (apply Z.div_pos; lia).
    assert (m / 2 ^ d < 2 ^ prec f); [|lia].
    apply Z.div_lt_upper_bound; [done|]. rewrite <- Z.pow_add_r by lia.
    assert (2 ^ Z.succ (Z.log2 m) <= 2 ^ (d + prec f)) by (apply Z.pow_le_mono_r; lia). lia.
Qed.

Lemma round_bits_range s m e : 0 <= m -> inu (sign_bit f + 1) (round_bits f s m e).
Proof.
  intros Hm. pose proof inf_bits_range. unfold round_bits.
  destruct (Z.eqb_spec m 0); [apply signed_range; destruct Hf; unfold sign_bit; lia|].
  pose proof (round_mantissa m e ltac:(lia)) as Hr. cbv zeta in *.
  set (d := Z.max _ _ - e) in *. set (m' := if d <=? 0 then _ else _) in *.
  assert (emin f <= e + d) by lia. destruct Hf as [Hp _].
  assert (0 < 2 ^ (prec f - 1) < 2 ^ prec f) by (split; [lia|apply Z.pow_lt_mono_r; lia]).
  destruct (Z.eqb_spec m' (2 ^ prec f)) as [|Hne];
    [set (e1 := e + d + 1)|set (e1 := e + d)]; (destruct (Z.ltb_spec (emax f) e1);
    [by apply signed_range|apply pack_fin_range; lia]).
Qed.

Lemma nan_bits_range : inu (sign_bit f + 1) (nan_bits f).
Proof.
  unfold nan_bits, inf_bits, inu, sign_bit. destruct Hf.
  assert (0 < 2 ^ (prec f - 2)) by lia.
  assert (2 ^ (prec f - 1) = 2 * 2 ^ (prec f - 2)) as Hs.
  { replace (prec f - 2) with (prec f - 1 - 1) by lia. apply pow2_split. lia. }
  assert (4 <= 2 ^ ew f) by (change 4 with (2 ^ 2); apply Z.pow_le_mono_r; lia).
  rewrite !Z.pow_add_r by lia. rewrite Hs. nia.
Qed.

Lemma to_bits_range x : fp_wf x -> inu (sign_bit f + 1) (to_bits f x).
Proof.
  destruct x; intros Hx.
  - apply nan_bits_range.
  - apply signed_range, inf_bits_range.
  - by apply round_bits_range.
Qed.

Lemma unpack_wf bits : fp_wf (unpack f bits).
Proof.
  unfold unpack. destruct Hf. repeat case_match; try exact I; cbn.
  - apply Z.mod_pos_bound. lia.
  - pose proof (Z.mod_pos_bound bits (2 ^ (prec f - 1))). lia.
Qed.
End Ranges.

(** ** Widening is exact, and narrowing undoes it *)

(** A mantissa in the normal form of a format. *)
Definition normal_in (f : format) (m e : Z) : Prop :=
  emin f <= e <= emax f /\ 0 <= m < 2 ^ prec f /\ (m < 2 ^ (prec f - 1) -> e = emin f).

Section Fields.
Context (f : format) (Hf : fmt_ok f).

(** The bits with sign [s], exponent field [x] and fraction field [r]. *)
Definition fields (s : bool) (x r : Z) : Z := signed f s (x * 2 ^ (prec f - 1) + r).

Lemma fields_div s x r : 0 <= x < 2 ^ ew f -> 0 <= r < 2 ^ (prec f - 1) ->
  fields s x r / 2 ^ (prec f - 1) = (if s then 2 ^ ew f else 0) + x
  /\ fields s x r mod 2 ^ (prec f - 1) = r.
Proof.
  intros Hx Hr. destruct Hf. unfold fields, signed, sign_bit.
  assert (0 < 2 ^ (prec f - 1)) by lia. rewrite Z.pow_add_r by lia.
  replace ((if s then _ else 0) + _)
    with (r + ((if s then 2 ^ ew f else 0) + x) * 2 ^ (prec f - 1)) by (destruct s; lia).
  rewrite Z.div_add, Z.div_small, Z.mod_add, Z.mod_small by lia. lia.
Qed.

Lemma fields_sign s x r : 0 <= x < 2 ^ ew f -> 0 <= r < 2 ^ (prec f - 1) ->
  Z.testbit (fields s x r) (sign_bit f) = s.
Proof.
  intros Hx Hr. destruct Hf. rewrite Z.testbit_odd, Z.shiftr_div_pow2 by (unfold sign_bit; lia).
  assert (fields s x r / 2 ^ sign_bit f = if s then 1 else 0) as ->; [|by destruct s].
  unfold fields, signed. assert (0 <= x * 2 ^ (prec f - 1) + r < 2 ^ sign_bit f).
  { unfold sign_bit. rewrite Z.pow_add_r by lia. nia. }
  destruct s; [|by rewrite Z.add_0_l, Z.div_small].
  rewrite <- (Z.mul_1_l (2 ^ sign_bit f)) at 1. rewrite Z.add_comm, Z.div_add, Z.div_small by lia. lia.
Qed.

Lemma unpack_fields s x r : 0 <= x < 2 ^ ew f -> 0 <= r < 2 ^ (prec f - 1) ->
  unpack f (fields s x r) =
    if x =? 0 then Fin s r (emin f)
    else if x =? 2 ^ ew f - 1 then if r =? 0 then Inf s else NaN
    else Fin s (2 ^ (prec f - 1) + r) (x - 1 + emin f).
Proof.
  intros Hx Hr. destruct (fields_div s x r Hx Hr) as [Hd Hm]. destruct Hf.
  unfold unpack. rewrite fields_sign, Z.shiftr_div_pow2, Hd, Hm by lia.
  replace (((if s then 2 ^ ew f else 0) + x) mod 2 ^ ew f) with x; [done|].
  destruct s; [|by rewrite Z.add_0_l, Z.mod_small].
  rewrite <- (Z.mul_1_l (2 ^ ew f)) at 1. rewrite Z.add_comm, Z.mod_add, Z.mod_small; lia.
Qed.

Lemma fields_surj bits : inu (sign_bit f + 1) bits ->
  exists s x r, 0 <= x < 2 ^ ew f /\ 0 <= r < 2 ^ (prec f - 1) /\ bits = fields s x r.
Proof.
  unfold inu. intros Hb. destruct Hf. set (M := 2 ^ (prec f - 1)). set (E := 2 ^ ew f).
  assert (0 < M /\ 0 < E) as [] by (unfold M, E; lia).
  exists (E <=? bits / M), ((bits / M) mod E), (bits mod M).
  split; [by apply Z.mod_pos_bound|]. split; [by apply Z.mod_pos_bound|].
  pose proof (Z.div_mod bits M ltac:(lia)). pose proof (Z.mod_pos_bound bits M ltac:(lia)).
  unfold fields, signed. rewrite Z.add_1_r, Z.pow_succ_r in Hb by (unfold sign_bit; lia).
  assert (2 ^ sign_bit f = M * E) as HME by (unfold sign_bit, M, E; by rewrite Z.pow_add_r by lia).
  rewrite HME in *. fold M.
  assert (0 <= bits / M < 2 * E) by (split; [apply Z.div_pos|apply Z.div_lt_upper_bound]; nia).
  destruct (Z.leb_spec E (bits / M)) as [HE|HE].
  - assert ((bits / M) mod E = bits / M - E) as ->; [|nia].
    symmetry. apply Z.mod_unique with 1; lia.
  - rewrite Z.mod_small by lia. nia.
Qed.

Lemma exp_field : 4 <= 2 ^ ew f /\ emax f - emin f = 2 ^ ew f - 3.
Proof.
  pose proof (bias_twice f Hf). destruct Hf. unfold emin, emax. split; [|lia].
  change 4 with (2 ^ 2). apply Z.pow_le_mono_r; lia.
Qed.

Lemma unpack_normal bits s m e :
  inu (sign_bit f + 1) bits -> unpack f bits = Fin s m e ->
  normal_in f m e /\ pack_fin f s m e = bits.
Proof.
  intros (t & x & r & Hx & Hr & ->)%fields_surj. rewrite unpack_fields by done.
  destruct exp_field. destruct Hf. assert (2 ^ prec f = 2 * 2 ^ (prec f - 1)) by (apply pow2_split; lia).
  unfold normal_in, pack_fin, fields.
  repeat case_match; intros [= <- <- <-]; (split; [lia|]); repeat case_match;
    try lia; f_equal; try lia.
Qed.

Lemma pack_normal s m e :
  normal_in f m e -> inu (sign_bit f + 1) (pack_fin f s m e) /\ unpack f (pack_fin f s m e) = Fin s m e.
Proof.
  intros (He & Hm & Hs). split; [by apply pack_fin_range|].
  destruct exp_field. destruct Hf. assert (2 ^ prec f = 2 * 2 ^ (prec f - 1)) by (apply pow2_split; lia).
  unfold pack_fin. destruct (Z.ltb_spec m (2 ^ (prec f - 1))).
  - change (signed f s m) with (fields s 0 m). rewrite unpack_fields, Hs by lia. done.
  - change (signed f s _) with (fields s (e - emin f + 1) (m - 2 ^ (prec f - 1))).
    rewrite unpack_fields by lia. repeat case_match; try lia. f_equal; lia.
Qed.

(** Rounding changes nothing when the value is already in the format. *)
Lemma round_exact s m e k :
  normal_in f m e -> 0 < m -> 0 <= k -> round_bits f s (m * 2 ^ k) (e - k) = pack_fin f s m e.
Proof.
  intros (He & Hm & Hs) Hpos Hk. destruct Hf.
  assert (0 < 2 ^ k) by lia. unfold round_bits.
  rewrite (proj2 (Z.eqb_neq _ _)) by nia. rewrite Z.log2_mul_pow2 by lia.
  destruct (Z.log2_spec m Hpos) as [Hl Hu].
  assert (Z.log2 m < prec f) by (apply Z.log2_lt_pow2; lia).
  assert (Z.max (k + Z.log2 m + 1 - prec f + (e - k)) (emin f) - (e - k) = k) as ->.
  { destruct (Z.ltb_spec m (2 ^ (prec f - 1))); [lia|].
    assert (prec f - 1 <= Z.log2 m) by (apply Z.log2_le_pow2; lia). lia. }
  assert ((if k <=? 0 then m * 2 ^ k * 2 ^ (- k)
    else half_even (m * 2 ^ k / 2 ^ k) ((m * 2 ^ k) mod 2 ^ k) (2 ^ (k - 1))) = m) as ->.
  { destruct (Z.leb_spec k 0); [replace k with 0 by lia; cbn; lia|].
    rewrite Z.div_mul, Z.mod_mul by lia. unfold half_even.
    assert (0 < 2 ^ (k - 1)) by lia. repeat case_match; lia. }
  rewrite (proj2 (Z.eqb_neq _ _)) by lia. rewrite (proj2 (Z.ltb_ge _ _)) by lia.
  f_equal. lia.
Qed.
End Fields.

(** Every [f32] is an [f64]: widening loses nothing, so narrowing it back
    returns the same bits; NaNs come back as the canonical NaN. *)
Lemma f64_widen s m e :
  normal_in binary32 m e -> 0 < m ->
  exists j, 0 <= j /\ f64_val (f64_of (Fin s m e)) = Fin s (m * 2 ^ j) (e - j).
Proof.
  intros (He & Hm & _) Hpos. cbn [prec binary32] in *. change (emin binary32) with (-149) in He.
  change (emax binary32) with 104 in He.
  destruct (Z.log2_spec m Hpos) as [Hl Hu].
  assert (Z.log2 m < 24) by (apply Z.log2_lt_pow2; lia). pose proof (Z.log2_nonneg m).
  exists (52 - Z.log2 m). split; [lia|].
  set (j := 52 - Z.log2 m). assert (0 < 2 ^ j) by (unfold j; lia).
  assert (2 ^ 52 <= m * 2 ^ j < 2 ^ 53) as Hn.
  { assert (2 ^ Z.log2 m * 2 ^ j = 2 ^ 52) by (unfold j; rewrite <- Z.pow_add_r by lia; f_equal; lia).
    rewrite Z.pow_succ_r in Hu by lia. change (2 ^ 53) with (2 * 2 ^ 52). nia. }
  assert (normal_in binary64 (m * 2 ^ j) (e - j)) as Hnorm.
  { unfold normal_in. change (emin binary64) with (-1074). change (emax binary64) with 971.
    cbn [prec binary64]. change (2 ^ (53 - 1)) with (2 ^ 52). unfold j in *. lia. }
  assert (f64_of (Fin s m e) = pack_fin binary64 s (m * 2 ^ j) (e - j)) as ->.
  { rewrite <- (round_exact binary64 binary64_ok s (m * 2 ^ j) (e - j) 0) by (done || lia).
    cbn [f64_of to_bits]. rewrite Z.mul_1_r, Z.sub_0_r. unfold round_bits.
    rewrite !(proj2 (Z.eqb_neq _ _)) by lia.
    assert (Z.log2 (m * 2 ^ j) = 52) as -> by (apply Z.log2_unique; lia).
    cbn [prec binary64]. change (emin binary64) with (-1074).
    replace (Z.max (Z.log2 m + 1 - 53 + e) (-1074) - e) with (- j) by lia.
    replace (Z.max (52 + 1 - 53 + (e - j)) (-1074) - (e - j)) with 0 by lia.
    rewrite (proj2 (Z.leb_le (- j) 0)) by (unfold j; lia). cbn [Z.leb]. rewrite Z.opp_involutive.
    replace (e + - j) with (e - j) by lia. change (0 <=? 0) with true. cbv iota.
    rewrite (proj2 (Z.eqb_neq (m * 2 ^ j) 0)) by lia.
    change (2 ^ (- 0)) with 1. by rewrite Z.mul_1_r, Z.add_0_r. }
  by apply pack_normal.
Qed.

Lemma f64_roundtrip_f32 bits :
  inu 32 bits -> f64_as_f32 (f64_from_f32 bits) = match f32_val bits with NaN => 0x7FC00000 | _ => bits end.
Proof.
  intros Hb. unfold f64_as_f32, f64_from_f32, f32_val.
  destruct (unpack binary32 bits) as [|s|s m e] eqn:Hu.
  - reflexivity.
  - destruct (fields_surj binary32 binary32_ok bits Hb) as (t & x & r & Hx & Hr & ->).
    rewrite (unpack_fields binary32 binary32_ok) in Hu by done.
    destruct (Z.eqb_spec x 0); [done|]. destruct (Z.eqb_spec x (2 ^ ew binary32 - 1)) as [->|]; [|done].
    destruct (Z.eqb_spec r 0) as [->|]; [|done]. injection Hu as <-. by destruct t.
  - destruct (unpack_normal binary32 binary32_ok bits s m e Hb Hu) as [Hn <-].
    destruct (decide (m = 0)) as [->|].
    { destruct Hn as (_ & _ & ->); [|cbn; lia]. by destruct s. }
    assert (0 < m) by (destruct Hn; lia).
    destruct (f64_widen s m e Hn) as (j & Hj & ->); [done|].
    by apply (round_exact binary32 binary32_ok).
Qed.

(** ** Canonical floats *)

Lemma magnitude_mod bits : f32_magnitude bits = bits mod 2 ^ 31.
Proof. unfold f32_magnitude. by apply (land_mask 31). Qed.

Ltac canonical_const := split; [width_lia|split; [reflexivity|by intros]].

Lemma canonical_f32_canonical bits : inu 32 bits -> f32_canonical (canonical_f32 bits).
Proof.
  intros Hb. unfold canonical_f32.
  destruct (f32_is_nan bits) eqn:Hn; [canonical_const|].
  destruct (f32_is_subnormal bits) eqn:Hs; [|split; [done|]; split; [done|congruence]].
  assert (Z.land bits 0x80000000 = 0 \/ Z.land bits 0x80000000 = 0x80000000) as [-> | ->];
    [|canonical_const|canonical_const].
  change 0x80000000 with (2 ^ 31). destruct (Z.testbit bits 31) eqn:Ht; [right|left];
    apply Z.bits_inj'; intros n Hn0; rewrite Z.land_spec, ?Z.bits_0;
    (destruct (decide (n = 31)) as [->|]; [by rewrite Ht|]); rewrite Z.pow2_bits_false by lia;
    by rewrite andb_false_r.
Qed.

Lemma canonical_f32_id bits : f32_canonical bits -> canonical_f32 bits = bits.
Proof.
  intros (_ & Hs & Hn). unfold canonical_f32. rewrite Hs.
  destruct (f32_is_nan bits); [symmetry; auto|done].
Qed.

Lemma f32_val_nan bits : inu 32 bits -> (f32_val bits = NaN <-> f32_is_nan bits = true).
Proof.
  intros Hb. destruct (fields_surj binary32 binary32_ok bits Hb) as (s & x & r & Hx & Hr & ->).
  unfold f32_val, f32_is_nan. rewrite (unpack_fields binary32 binary32_ok) by done.
  rewrite magnitude_mod. cbn [prec ew binary32] in *.
  assert (fields binary32 s x r mod 2 ^ 31 = x * 2 ^ 23 + r) as ->.
  { unfold fields, signed. change (sign_bit binary32) with 31. cbn [prec binary32].
    change (24 - 1) with 23 in *.
    destruct s; [rewrite <- (Z.mul_1_l (2 ^ 31)) at 1; rewrite Z.add_comm, Z.mod_add by lia
                |rewrite Z.add_0_l]; apply Z.mod_small; lia. }
  change (24 - 1) with 23 in *. change (2 ^ 8 - 1) with 255. rewrite Z.ltb_lt.
  repeat case_match; split; intros; try discriminate; try done; lia.
Qed.

(** A canonical [f32] survives the trip through the [f64] of a [Value]. *)
Lemma f64_roundtrip_canonical bits : f32_canonical bits -> f64_as_f32 (f64_from_f32 bits) = bits.
Proof.
  intros (Hb & _ & Hn). rewrite f64_roundtrip_f32 by done.
  destruct (f32_val bits) eqn:Hv; [|done..]. symmetry. apply Hn. by apply f32_val_nan.
Qed.
