(* ===== verification/Spec.v ===== *)
(** Frozen data contracts of [vyre-spec]: the operator, access and data-type
    enumerations with their wire tags, and the size and packing rules of
    [DataType].  Each Rust enum [E] is an inductive type [E] inside a module
    [E], so a variant keeps its source spelling [E.Variant]. *)

From S2P Require Import Prelude.

(** [usize] is 64 bits wide: every supported host target is 64-bit. *)
Abbreviation USIZE_MAX := U64_MAX.

Definition usize_checked_mul (a b : Z) : option Z :=
  if a * b <=? USIZE_MAX then Some (a * b) else None.
Definition usize_saturating_mul (a b : Z) : Z := Z.min (a * b) USIZE_MAX.
Definition usize_checked_add (a b : Z) : option Z :=
  if a + b <=? USIZE_MAX then Some (a + b) else None.

(** ** Operators *)

Module BinOp.
Inductive BinOp :=
| Add | Sub | Mul | Div | Mod | WrappingAdd | WrappingSub
| BitAnd | BitOr | BitXor | Shl | Shr
| Eq | Ne | Lt | Gt | Le | Ge | And | Or
| AbsDiff | Min | Max | SaturatingAdd | SaturatingSub | SaturatingMul
| Shuffle | Ballot | WaveReduce | WaveBroadcast
| RotateLeft | RotateRight | MulHigh
| Opaque (id : Z).

#[export] Instance BinOp_eq_dec : EqDecision BinOp.
Proof. solve_decision. Defined.

(** The tag table of [impl_builtin_wire_tag!(BinOp, ...)]. *)
Definition bin_op_builtin_wire_tag (op : BinOp) : option Z :=
  match op with
  | Add => Some 0x01 | Sub => Some 0x02 | Mul => Some 0x03 | Div => Some 0x04
  | Mod => Some 0x05 | BitAnd => Some 0x06 | BitOr => Some 0x07 | BitXor => Some 0x08
  | Shl => Some 0x09 | Shr => Some 0x0A | Eq => Some 0x0B | Ne => Some 0x0C
  | Lt => Some 0x0D | Gt => Some 0x0E | AbsDiff => Some 0x0F | Le => Some 0x10
  | Ge => Some 0x11 | And => Some 0x12 | Or => Some 0x13 | Min => Some 0x14
  | Max => Some 0x15 | SaturatingAdd => Some 0x16 | SaturatingSub => Some 0x17
  | SaturatingMul => Some 0x18 | Shuffle => Some 0x19 | Ballot => Some 0x1A
  | WaveReduce => Some 0x1B | WaveBroadcast => Some 0x1C | RotateLeft => Some 0x1D
  | RotateRight => Some 0x1E | WrappingAdd => Some 0x1F | WrappingSub => Some 0x20
  | MulHigh => Some 0x21
  | Opaque _ => None
  end.
End BinOp.
Abbreviation BinOp := BinOp.BinOp.
Export (hints) BinOp.

Module UnOp.
Inductive UnOp :=
| Negate | BitNot | LogicalNot | Popcount | Clz | Ctz | ReverseBits
| Cos | Sin | Abs | Sqrt | Floor | Ceil | Round | Trunc | Sign
| IsNan | IsInf | IsFinite | Exp | Log | Log2 | Exp2 | Tan
| Acos | Asin | Atan | Tanh | Sinh | Cosh | InverseSqrt
| Unpack4Low | Unpack4High | Unpack8Low | Unpack8High | Reciprocal
| Opaque (id : Z).

#[export] Instance UnOp_eq_dec : EqDecision UnOp.
Proof. solve_decision. Defined.

Definition un_op_builtin_wire_tag (op : UnOp) : option Z :=
  match op with
  | Negate => Some 0x01 | BitNot => Some 0x02 | LogicalNot => Some 0x03
  | Popcount => Some 0x04 | Clz => Some 0x05 | Ctz => Some 0x06
  | ReverseBits => Some 0x07 | Cos => Some 0x08 | Sin => Some 0x09 | Abs => Some 0x0A
  | Sqrt => Some 0x0B | Floor => Some 0x0C | Ceil => Some 0x0D | Round => Some 0x0E
  | Trunc => Some 0x0F | Sign => Some 0x10 | IsNan => Some 0x11 | IsInf => Some 0x12
  | IsFinite => Some 0x13 | Exp => Some 0x14 | Log => Some 0x15 | Log2 => Some 0x16
  | Exp2 => Some 0x17 | Tan => Some 0x18 | Acos => Some 0x19 | Asin => Some 0x1A
  | Atan => Some 0x1B | Tanh => Some 0x1C | Sinh => Some 0x1D | Cosh => Some 0x1E
  | InverseSqrt => Some 0x1F | Unpack4Low => Some 0x20 | Unpack4High => Some 0x21
  | Unpack8Low => Some 0x22 | Unpack8High => Some 0x23 | Reciprocal => Some 0x24
  | Opaque _ => None
  end.
End UnOp.
Abbreviation UnOp := UnOp.UnOp.
Export (hints) UnOp.

Module AtomicOp.
Inductive AtomicOp :=
| Add | Or | And | Xor | Min | Max | Exchange
| CompareExchange | CompareExchangeWeak | FetchNand | LruUpdate
| Opaque (id : Z).

#[export] Instance AtomicOp_eq_dec : EqDecision AtomicOp.
Proof. solve_decision. Defined.

Definition atomic_op_builtin_wire_tag (op : AtomicOp) : option Z :=
  match op with
  | Add => Some 0x01 | Or => Some 0x02 | And => Some 0x03 | Xor => Some 0x04
  | Min => Some 0x05 | Max => Some 0x06 | Exchange => Some 0x07
  | CompareExchange => Some 0x08 | CompareExchangeWeak => Some 0x09
  | FetchNand => Some 0x0A | LruUpdate => Some 0x0B
  | Opaque _ => None
  end.
End AtomicOp.
Abbreviation AtomicOp := AtomicOp.AtomicOp.
Export (hints) AtomicOp.

Module CollectiveOp.
Inductive CollectiveOp := Sum | Min | Max | BitAnd | BitOr | BitXor.

#[export] Instance CollectiveOp_eq_dec : EqDecision CollectiveOp.
Proof. solve_decision. Defined.

Definition collective_wire_tag (op : CollectiveOp) : Z :=
  match op with
  | Sum => 0x01 | Min => 0x02 | Max => 0x03
  | BitAnd => 0x04 | BitOr => 0x05 | BitXor => 0x06
  end.

Definition collective_from_wire_tag (tag : Z) : option CollectiveOp :=
  match tag with
  | 0x01 => Some Sum | 0x02 => Some Min | 0x03 => Some Max
  | 0x04 => Some BitAnd | 0x05 => Some BitOr | 0x06 => Some BitXor
  | _ => None
  end.

Lemma collective_tag_roundtrip op : collective_from_wire_tag (collective_wire_tag op) = Some op.
Proof. by destruct op. Qed.

Lemma collective_tag_range op : inu 8 (collective_wire_tag op).
Proof. destruct op; cbn; width_lia. Qed.
End CollectiveOp.
Abbreviation CollectiveOp := CollectiveOp.CollectiveOp.
Export (hints) CollectiveOp.

Module BufferAccess.
Inductive BufferAccess := ReadOnly | ReadWrite | Uniform | WriteOnly | Workgroup.

#[export] Instance BufferAccess_eq_dec : EqDecision BufferAccess.
Proof. solve_decision. Defined.
End BufferAccess.
Abbreviation BufferAccess := BufferAccess.BufferAccess.
Export (hints) BufferAccess.

(** ** Data types *)

Module QuantizationScale.
Inductive QuantizationScale :=
| PerTensor
| PerChannel (axis : Z)
| PerGroup (group_size : Z).
#[export] Instance QuantizationScale_eq_dec : EqDecision QuantizationScale.
Proof. solve_decision. Defined.
End QuantizationScale.
Abbreviation QuantizationScale := QuantizationScale.QuantizationScale.
Export (hints) QuantizationScale.

Module QuantizationZeroPoint.
Inductive QuantizationZeroPoint :=
| Absent
| PerTensor
| PerChannel (axis : Z)
| PerGroup (group_size : Z).
#[export] Instance QuantizationZeroPoint_eq_dec : EqDecision QuantizationZeroPoint.
Proof. solve_decision. Defined.
End QuantizationZeroPoint.
Abbreviation QuantizationZeroPoint := QuantizationZeroPoint.QuantizationZeroPoint.
Export (hints) QuantizationZeroPoint.

Module DataType.
Inductive DataType :=
| U8 | U16 | U32 | I8 | I16 | I32 | I64 | U64
| Vec2U32 | Vec4U32 | Bool | Bytes
| Array (element_size : Z)
| F16 | BF16 | F32 | F64 | Tensor
| Handle (id : Z)
| Vec (element : DataType) (count : Z)
| TensorShaped (element : DataType) (shape : list Z)
| SparseCsr (element : DataType)
| SparseCoo (element : DataType)
| SparseBsr (element : DataType) (block_rows block_cols : Z)
| F8E4M3 | F8E5M2 | I4 | FP4 | NF4
| DeviceMesh (axes : list Z)
| Quantized (storage : DataType) (scale : QuantizationScale) (zero_point : QuantizationZeroPoint)
| Opaque (id : Z).

#[export] Instance DataType_eq_dec : EqDecision DataType.
Proof. solve_decision. Defined.

Definition is_quantized_storage (t : DataType) : bool :=
  match t with
  | I4 | I8 | I16 | U8 | U16 | F8E4M3 | F8E5M2 | FP4 | NF4 => true
  | _ => false
  end.

Fixpoint is_float_family (t : DataType) : bool :=
  match t with
  | F16 | BF16 | F32 | F64 => true
  | F8E4M3 | F8E5M2 | FP4 | NF4 => true
  | Vec element _ | TensorShaped element _ | SparseCsr element
  | SparseCoo element | SparseBsr element _ _ => is_float_family element
  | _ => false
  end.

Fixpoint is_quantized (t : DataType) : bool :=
  match t with
  | Quantized _ _ _ => true
  | Vec element _ | TensorShaped element _ | SparseCsr element
  | SparseCoo element | SparseBsr element _ _ => is_quantized element
  | _ => false
  end.

Definition data_type_builtin_wire_tag (t : DataType) : option Z :=
  match t with
  | U32 => Some 0x01 | I32 => Some 0x02 | U64 => Some 0x03 | Vec2U32 => Some 0x04
  | Vec4U32 => Some 0x05 | Bool => Some 0x06 | Bytes => Some 0x07 | Array _ => Some 0x08
  | F16 => Some 0x09 | BF16 => Some 0x0A | F32 => Some 0x0B | F64 => Some 0x0C
  | Tensor => Some 0x0D | U8 => Some 0x0E | U16 => Some 0x0F | I8 => Some 0x10
  | I16 => Some 0x11 | I64 => Some 0x12 | Handle _ => Some 0x13 | Vec _ _ => Some 0x14
  | TensorShaped _ _ => Some 0x15 | SparseCsr _ => Some 0x16 | SparseCoo _ => Some 0x17
  | SparseBsr _ _ _ => Some 0x18 | F8E4M3 => Some 0x19 | F8E5M2 => Some 0x1A
  | I4 => Some 0x1B | FP4 => Some 0x1C | NF4 => Some 0x1D | DeviceMesh _ => Some 0x1E
  | Quantized _ _ _ => Some 0x1F
  | Opaque _ => None
  end.

(** *** [data_type/layout.rs] *)

Fixpoint min_bytes (t : DataType) : Z :=
  match t with
  | U16 | I16 | F16 | BF16 => 2
  | Bool | U32 | I32 | F32 | Handle _ => 4
  | I64 | U64 | Vec2U32 | F64 => 8
  | Vec4U32 => 16
  | Vec element count => usize_saturating_mul (min_bytes element) count
  | Bytes | Array _ | Tensor | TensorShaped _ _ => 0
  | U8 | I8 | F8E4M3 | F8E5M2 | I4 | FP4 | NF4 => 1
  | SparseCsr _ | SparseCoo _ | SparseBsr _ _ _ => 0
  | DeviceMesh _ => 0
  | Quantized storage _ _ => min_bytes storage
  | Opaque _ => 0
  end.

Fixpoint size_bytes (t : DataType) : option Z :=
  match t with
  | U8 | I8 => Some 1
  | U16 | I16 | F16 | BF16 => Some 2
  | Bool | U32 | I32 | F32 => Some 4
  | I64 | U64 | Vec2U32 | F64 => Some 8
  | Vec4U32 => Some 16
  | Handle _ => Some 4
  | Bytes => Some 1
  | Array element_size => Some element_size
  | Vec element count =>
      match size_bytes element with
      | Some b => usize_checked_mul b count
      | None => None
      end
  | Tensor | TensorShaped _ _ => None
  | F8E4M3 | F8E5M2 => Some 1
  | I4 | FP4 | NF4 => Some 1
  | SparseCsr _ | SparseCoo _ | SparseBsr _ _ _ => None
  | DeviceMesh _ => Some 4
  | Quantized storage _ _ => size_bytes storage
  | Opaque _ => None
  end.

Fixpoint bit_width (t : DataType) : option Z :=
  match t with
  | I4 | FP4 | NF4 => Some 4
  | F8E4M3 | F8E5M2 | U8 | I8 => Some 8
  | U16 | I16 | F16 | BF16 => Some 16
  | Bool | U32 | I32 | F32 | Handle _ => Some 32
  | I64 | U64 | F64 | Vec2U32 => Some 64
  | Vec4U32 => Some 128
  | DeviceMesh _ => Some 32
  | Quantized storage _ _ => bit_width storage
  | Bytes => Some 8
  | Vec element count =>
      match bit_width element with
      | Some bits => usize_checked_mul bits count
      | None => None
      end
  | Array _ | Tensor | TensorShaped _ _ | SparseCsr _ | SparseCoo _
  | SparseBsr _ _ _ | Opaque _ => None
  end.

(** The five overflow diagnostics of the packed-size computation. *)
Inductive PackError := NestedBits | NestedBytes | TotalBits | RoundingBits | TotalBytes.

Fixpoint checked_bit_width_for_packed_size (t : DataType) : result PackError (option Z) :=
  match t with
  | I4 | FP4 | NF4 => Ok (Some 4)
  | F8E4M3 | F8E5M2 | U8 | I8 => Ok (Some 8)
  | U16 | I16 | F16 | BF16 => Ok (Some 16)
  | Bool | U32 | I32 | F32 | Handle _ => Ok (Some 32)
  | I64 | U64 | F64 | Vec2U32 => Ok (Some 64)
  | Vec4U32 => Ok (Some 128)
  | DeviceMesh _ => Ok (Some 32)
  | Quantized storage _ _ => checked_bit_width_for_packed_size storage
  | Bytes => Ok (Some 8)
  | Vec element count =>
      o ← checked_bit_width_for_packed_size element;
      match o with
      | None => Ok None
      | Some bits => Some <$> ok_or (usize_checked_mul bits count) NestedBits
      end
  | Array _ | Tensor | TensorShaped _ _ | SparseCsr _ | SparseCoo _
  | SparseBsr _ _ _ | Opaque _ => Ok None
  end.

Fixpoint checked_size_bytes_for_packed_size (t : DataType) : result PackError (option Z) :=
  match t with
  | U8 | I8 => Ok (Some 1)
  | U16 | I16 | F16 | BF16 => Ok (Some 2)
  | Bool | U32 | I32 | F32 => Ok (Some 4)
  | I64 | U64 | Vec2U32 | F64 => Ok (Some 8)
  | Vec4U32 => Ok (Some 16)
  | Handle _ => Ok (Some 4)
  | Bytes => Ok (Some 1)
  | Array element_size => Ok (Some element_size)
  | Vec element count =>
      o ← checked_size_bytes_for_packed_size element;
      match o with
      | None => Ok None
      | Some b => Some <$> ok_or (usize_checked_mul b count) NestedBytes
      end
  | Tensor | TensorShaped _ _ => Ok None
  | F8E4M3 | F8E5M2 => Ok (Some 1)
  | I4 | FP4 | NF4 => Ok (Some 1)
  | SparseCsr _ | SparseCoo _ | SparseBsr _ _ _ => Ok None
  | DeviceMesh _ => Ok (Some 4)
  | Quantized storage _ _ => checked_size_bytes_for_packed_size storage
  | Opaque _ => Ok None
  end.

Definition packed_size_bytes (t : DataType) (element_count : Z) : result PackError (option Z) :=
  obits ← checked_bit_width_for_packed_size t;
  match obits with
  | Some bits =>
      total_bits ← ok_or (usize_checked_mul bits element_count) TotalBits;
      rounded ← ok_or (usize_checked_add total_bits 7) RoundingBits;
      Ok (Some (rounded / 8))
  | None =>
      obytes ← checked_size_bytes_for_packed_size t;
      match obytes with
      | Some b => Some <$> ok_or (usize_checked_mul b element_count) TotalBytes
      | None => Ok None
      end
  end.
End DataType.
Abbreviation DataType := DataType.DataType.
Export (hints) DataType.

(** ** Extension ids ([extension.rs]) *)

Definition fnv1a_step (hash b : Z) : Z := wrapu 32 (Z.lxor hash b * 0x01000193).

(** [fnv1a_with_high_bit]: FNV-1a over the name, forced into the extension
    range by the high bit. *)
Definition fnv1a_with_high_bit (name : string) : Z :=
  Z.lor (fold_left fnv1a_step (str_bytes name) 0x811c9dc5) 0x80000000.

Definition is_extension (id : Z) : bool := negb (Z.land id 0x80000000 =? 0).

(** ** Representation invariant: every field fits its Rust integer type *)

Definition scale_repr (s : QuantizationScale) : Prop :=
  match s with
  | QuantizationScale.PerTensor => True
  | QuantizationScale.PerChannel axis => inu 32 axis
  | QuantizationScale.PerGroup g => inu 32 g
  end.
Definition zero_point_repr (z : QuantizationZeroPoint) : Prop :=
  match z with
  | QuantizationZeroPoint.Absent | QuantizationZeroPoint.PerTensor => True
  | QuantizationZeroPoint.PerChannel axis => inu 32 axis
  | QuantizationZeroPoint.PerGroup g => inu 32 g
  end.
Fixpoint data_type_repr (t : DataType) : Prop :=
  match t with
  | DataType.Array n => inu 64 n
  | DataType.Handle id | DataType.Opaque id => inu 32 id
  | DataType.Vec e c => data_type_repr e /\ inu 8 c
  | DataType.TensorShaped e shape => data_type_repr e /\ Forall (inu 32) shape
  | DataType.SparseCsr e | DataType.SparseCoo e => data_type_repr e
  | DataType.SparseBsr e r c => data_type_repr e /\ inu 32 r /\ inu 32 c
  | DataType.DeviceMesh axes => Forall (inu 32) axes
  | DataType.Quantized s sc z => data_type_repr s /\ scale_repr sc /\ zero_point_repr z
  | _ => True
  end.

(** ** Sizes *)

Module Layout.
Import DataType.

Lemma bit_width_nonneg t bits :
  data_type_repr t -> bit_width t = Some bits -> 0 <= bits.
Proof.
  revert bits; induction t; cbn; intros bits Hr Hb; simplify_eq; try lia; auto; try tauto.
  - destruct Hr as [Hr Hc]. destruct (bit_width t) as [b|]; [|done].
    specialize (IHt b Hr eq_refl). unfold usize_checked_mul in Hb.
    case_match; simplify_eq. unfold inu in Hc. nia.
  - destruct Hr as [Hr _]. auto.
Qed.

(** A packed element never needs more bits than its conservative byte size. *)
Lemma bit_width_le_size_bytes t bits s :
  data_type_repr t -> bit_width t = Some bits -> size_bytes t = Some s -> bits <= 8 * s.
Proof.
  revert bits s; induction t; cbn; intros bits s Hr Hb Hs; simplify_eq; try lia; auto.
  - destruct Hr as [Hr Hc].
    destruct (bit_width t) as [b|]; [|done]. destruct (size_bytes t) as [n|]; [|done].
    specialize (IHt b n Hr eq_refl eq_refl). unfold usize_checked_mul in *.
    repeat case_match; simplify_eq. unfold inu in Hc. nia.
  - destruct Hr as [Hr _]. auto.
Qed.

Lemma checked_bit_width_agrees t bits :
  bit_width t = Some bits -> checked_bit_width_for_packed_size t = Ok (Some bits).
Proof.
  revert bits; induction t; cbn; intros bits Hb; simplify_eq; auto.
  destruct (bit_width t) as [b|]; [|done]. rewrite (IHt b eq_refl). cbn.
  by rewrite Hb.
Qed.

(** For a type of known bit width, the packed size of [n] elements is the
    exact ceiling of [n * bits / 8], never above the conservative
    [n * size_bytes], and an overflow of the host [usize] is an error rather
    than a wrapped size. *)
Theorem packed_size_bytes_exact (t : DataType) (n bits : Z)
  (Hrepr : data_type_repr t) (Hn : 0 <= n) (Hbits : bit_width t = Some bits) :
  (n * bits + 7 <= USIZE_MAX ->
     exists k, packed_size_bytes t n = Ok (Some k)
            /\ n * bits <= 8 * k < n * bits + 8
            /\ (forall s, size_bytes t = Some s -> k <= n * s))
  /\ (USIZE_MAX < n * bits + 7 ->
     packed_size_bytes t n = Err TotalBits \/ packed_size_bytes t n = Err RoundingBits).
Proof.
  pose proof (bit_width_nonneg _ _ Hrepr Hbits) as Hb0.
  unfold packed_size_bytes. rewrite (checked_bit_width_agrees _ _ Hbits). cbn.
  unfold usize_checked_mul, usize_checked_add. rewrite (Z.mul_comm bits n). split; intros Hov.
  - rewrite (proj2 (Z.leb_le _ _)) by nia. cbn. rewrite (proj2 (Z.leb_le _ _)) by lia.
    cbn. eexists; split; [done|]. split.
    + pose proof (Z.div_mod (n * bits + 7) 8) as Hdm.
      pose proof (Z.mod_pos_bound (n * bits + 7) 8). lia.
    + intros s Hs. pose proof (bit_width_le_size_bytes _ _ _ Hrepr Hbits Hs) as Hle.
      apply Z.lt_succ_r, Z.div_lt_upper_bound; nia.
  - destruct (Z.leb_spec (n * bits) USIZE_MAX); cbn; [|by left].
    rewrite (proj2 (Z.leb_gt _ _)) by lia. by right.
Qed.

Lemma packed_size_bytes_exact_witness :
  packed_size_bytes I4 3 = Ok (Some 2) /\ bit_width I4 = Some 4 /\
  exists k, packed_size_bytes I4 3 = Ok (Some k) /\ 3 * 4 <= 8 * k < 3 * 4 + 8
    /\ (forall s, size_bytes I4 = Some s -> k <= 3 * s).
Proof.
  split; [reflexivity|]. split; [reflexivity|].
  apply (packed_size_bytes_exact I4 3 4 I); [lia|reflexivity|lia].
Defined.
End Layout.

(** ** Extension ids *)

Lemma lor_high_bit x : 0 <= x -> Z.land (Z.lor x 0x80000000) 0x80000000 <> 0.
Proof.
  intros Hx H. apply (f_equal (fun z => Z.testbit z 31)) in H.
  rewrite Z.land_spec, Z.lor_spec in H.
  change (Z.testbit 0x80000000 31) with true in H.
  rewrite orb_true_r in H. done.
Qed.

Lemma fnv1a_fold_nonneg l h : 0 <= h -> 0 <= fold_left fnv1a_step l h.
Proof.
  revert h; induction l as [|b l IH]; intros h Hh; cbn; [done|].
  apply IH. apply (wrapu_range 32). lia.
Qed.

Lemma from_name_is_extension name : is_extension (fnv1a_with_high_bit name) = true.
Proof.
  unfold is_extension, fnv1a_with_high_bit.
  apply negb_true_iff, Z.eqb_neq, lor_high_bit, fnv1a_fold_nonneg. lia.
Qed.
