(* ===== verification/IR.v ===== *)
(** The statement IR of [vyre-foundation]: [Expr], [Node], [BufferDecl] and
    [Program] ([ir_inner/model]), memory orderings ([runtime/memory_model.rs]),
    their representation invariants (every field fits its Rust type and every
    string is UTF-8), and the induction principles of the nested types. *)

From S2P Require Import Prelude Spec.

(** ** Memory orderings *)

Module MemoryOrdering.
Inductive MemoryOrdering := Relaxed | Acquire | Release | AcqRel | SeqCst | GridSync.

#[export] Instance MemoryOrdering_eq_dec : EqDecision MemoryOrdering.
Proof. solve_decision. Defined.

Definition ordering_wire_tag (o : MemoryOrdering) : Z :=
  match o with
  | Relaxed => 0 | Acquire => 1 | Release => 2 | AcqRel => 3 | SeqCst => 4 | GridSync => 5
  end.

Definition ordering_from_wire_tag (tag : Z) : option MemoryOrdering :=
  match tag with
  | 0 => Some Relaxed | 1 => Some Acquire | 2 => Some Release
  | 3 => Some AcqRel | 4 => Some SeqCst | 5 => Some GridSync
  | _ => None
  end.

Definition is_valid_for_atomic_rmw (o : MemoryOrdering) : bool :=
  match o with Relaxed | Acquire | Release | AcqRel | SeqCst => true | GridSync => false end.

Definition is_valid_for_barrier (o : MemoryOrdering) : bool :=
  match o with Acquire | Release | AcqRel | SeqCst | GridSync => true | Relaxed => false end.

Lemma ordering_tag_roundtrip o : ordering_from_wire_tag (ordering_wire_tag o) = Some o.
Proof. by destruct o. Qed.

Lemma ordering_tag_range o : inu 8 (ordering_wire_tag o).
Proof. destruct o; cbn; width_lia. Qed.
End MemoryOrdering.
Abbreviation MemoryOrdering := MemoryOrdering.MemoryOrdering.
Export (hints) MemoryOrdering.

(** ** Extension payloads

    A [dyn ExprNode] or [dyn NodeExtension] is code of a downstream crate; the
    IR only ever calls its methods, so the model is the record of what the
    methods return. *)

Record ExprNode := mkExprNode {
  en_extension_kind : string;
  en_debug_identity : string;
  en_result_type : option DataType;
  en_cse_safe : bool;
  en_stable_fingerprint : bytes;
  en_valid : bool;
  en_wire_payload : bytes;
}.

Record NodeExtension := mkNodeExtension {
  ne_extension_kind : string;
  ne_debug_identity : string;
  ne_stable_fingerprint : bytes;
  ne_valid : bool;
  ne_wire_payload : bytes;
}.

(** ** Expressions

    [LitF32] carries the IEEE-754 bit pattern of the literal. *)

Module Expr.
Inductive Expr :=
| LitU32 (value : Z)
| LitI32 (value : Z)
| LitF32 (value : Z)
| LitBool (value : bool)
| Var (name : string)
| Load (buffer : string) (index : Expr)
| BufLen (buffer : string)
| InvocationId (axis : Z)
| WorkgroupId (axis : Z)
| LocalId (axis : Z)
| BinOp (op : BinOp) (left right : Expr)
| UnOp (op : UnOp) (operand : Expr)
| Call (op_id : string) (args : list Expr)
| Select (cond true_val false_val : Expr)
| Cast (target : DataType) (value : Expr)
| Fma (a b c : Expr)
| Atomic (op : AtomicOp) (buffer : string) (index : Expr) (expected : option Expr)
         (value : Expr) (ordering : MemoryOrdering)
| SubgroupBallot (cond : Expr)
| SubgroupShuffle (value lane : Expr)
| SubgroupAdd (value : Expr)
| SubgroupLocalId
| SubgroupSize
| Opaque (ext : ExprNode).
End Expr.
Abbreviation Expr := Expr.Expr.

Definition Forall_opt {A} (P : A -> Prop) (o : option A) : Prop :=
  match o with Some x => P x | None => True end.

Section ExprInd.
Variable P : Expr -> Prop.
Hypothesis HLitU32 : forall v, P (Expr.LitU32 v).
Hypothesis HLitI32 : forall v, P (Expr.LitI32 v).
Hypothesis HLitF32 : forall v, P (Expr.LitF32 v).
Hypothesis HLitBool : forall v, P (Expr.LitBool v).
Hypothesis HVar : forall n, P (Expr.Var n).
Hypothesis HLoad : forall b i, P i -> P (Expr.Load b i).
Hypothesis HBufLen : forall b, P (Expr.BufLen b).
Hypothesis HInv : forall a, P (Expr.InvocationId a).
Hypothesis HWg : forall a, P (Expr.WorkgroupId a).
Hypothesis HLoc : forall a, P (Expr.LocalId a).
Hypothesis HBin : forall op l r, P l -> P r -> P (Expr.BinOp op l r).
Hypothesis HUn : forall op e, P e -> P (Expr.UnOp op e).
Hypothesis HCall : forall op args, Forall P args -> P (Expr.Call op args).
Hypothesis HSelect : forall c t f, P c -> P t -> P f -> P (Expr.Select c t f).
Hypothesis HCast : forall t e, P e -> P (Expr.Cast t e).
Hypothesis HFma : forall a b c, P a -> P b -> P c -> P (Expr.Fma a b c).
Hypothesis HAtomic : forall op b i e v o,
  P i -> Forall_opt P e -> P v -> P (Expr.Atomic op b i e v o).
Hypothesis HBallot : forall c, P c -> P (Expr.SubgroupBallot c).
Hypothesis HShuffle : forall v l, P v -> P l -> P (Expr.SubgroupShuffle v l).
Hypothesis HSgAdd : forall v, P v -> P (Expr.SubgroupAdd v).
Hypothesis HSgId : P Expr.SubgroupLocalId.
Hypothesis HSgSize : P Expr.SubgroupSize.
Hypothesis HOpaque : forall x, P (Expr.Opaque x).

Fixpoint Expr_ind' (e : Expr) : P e :=
  match e with
  | Expr.LitU32 v => HLitU32 v
  | Expr.LitI32 v => HLitI32 v
  | Expr.LitF32 v => HLitF32 v
  | Expr.LitBool v => HLitBool v
  | Expr.Var n => HVar n
  | Expr.Load b i => HLoad b i (Expr_ind' i)
  | Expr.BufLen b => HBufLen b
  | Expr.InvocationId a => HInv a
  | Expr.WorkgroupId a => HWg a
  | Expr.LocalId a => HLoc a
  | Expr.BinOp op l r => HBin op l r (Expr_ind' l) (Expr_ind' r)
  | Expr.UnOp op e => HUn op e (Expr_ind' e)
  | Expr.Call op args =>
      HCall op args ((fix go l : Forall P l :=
        match l with
        | [] => @List.Forall_nil _ P
        | x :: l => @List.Forall_cons _ P x l (Expr_ind' x) (go l)
        end) args)
  | Expr.Select c t f => HSelect c t f (Expr_ind' c) (Expr_ind' t) (Expr_ind' f)
  | Expr.Cast t e => HCast t e (Expr_ind' e)
  | Expr.Fma a b c => HFma a b c (Expr_ind' a) (Expr_ind' b) (Expr_ind' c)
  | Expr.Atomic op b i x v o =>
      HAtomic op b i x v o (Expr_ind' i)
        (match x return Forall_opt P x with Some y => Expr_ind' y | None => I end)
        (Expr_ind' v)
  | Expr.SubgroupBallot c => HBallot c (Expr_ind' c)
  | Expr.SubgroupShuffle v l => HShuffle v l (Expr_ind' v) (Expr_ind' l)
  | Expr.SubgroupAdd v => HSgAdd v (Expr_ind' v)
  | Expr.SubgroupLocalId => HSgId
  | Expr.SubgroupSize => HSgSize
  | Expr.Opaque x => HOpaque x
  end.
End ExprInd.

(** ** Statements *)

Module Node.
Inductive Node :=
| Let (name : string) (value : Expr)
| Assign (name : string) (value : Expr)
| Store (buffer : string) (index value : Expr)
| If (cond : Expr) (thn otherwise : list Node)
| Loop (var : string) (from to : Expr) (body : list Node)
| IndirectDispatch (count_buffer : string) (count_offset : Z)
| AsyncLoad (source destination : string) (offset size : Expr) (tag : string)
| AsyncStore (source destination : string) (offset size : Expr) (tag : string)
| AsyncWait (tag : string)
| Trap (address : Expr) (tag : string)
| Resume (tag : string)
| AllReduce (buffer : string) (op : CollectiveOp) (group : Z)
| AllGather (input output : string) (group : Z)
| ReduceScatter (input output : string) (op : CollectiveOp) (group : Z)
| Broadcast (buffer : string) (root group : Z)
| Return
| Barrier (ordering : MemoryOrdering)
| Block (body : list Node)
| Region (generator : string) (source_region : option string) (body : list Node)
| Opaque (ext : NodeExtension).
End Node.
Abbreviation Node := Node.Node.

Section NodeInd.
Variable P : Node -> Prop.
Hypothesis HLet : forall n e, P (Node.Let n e).
Hypothesis HAssign : forall n e, P (Node.Assign n e).
Hypothesis HStore : forall b i v, P (Node.Store b i v).
Hypothesis HIf : forall c t o, Forall P t -> Forall P o -> P (Node.If c t o).
Hypothesis HLoop : forall v f t b, Forall P b -> P (Node.Loop v f t b).
Hypothesis HIndirect : forall b o, P (Node.IndirectDispatch b o).
Hypothesis HAsyncLoad : forall s d o z t, P (Node.AsyncLoad s d o z t).
Hypothesis HAsyncStore : forall s d o z t, P (Node.AsyncStore s d o z t).
Hypothesis HAsyncWait : forall t, P (Node.AsyncWait t).
Hypothesis HTrap : forall a t, P (Node.Trap a t).
Hypothesis HResume : forall t, P (Node.Resume t).
Hypothesis HAllReduce : forall b o g, P (Node.AllReduce b o g).
Hypothesis HAllGather : forall i o g, P (Node.AllGather i o g).
Hypothesis HReduceScatter : forall i o op g, P (Node.ReduceScatter i o op g).
Hypothesis HBroadcast : forall b r g, P (Node.Broadcast b r g).
Hypothesis HReturn : P Node.Return.
Hypothesis HBarrier : forall o, P (Node.Barrier o).
Hypothesis HBlock : forall b, Forall P b -> P (Node.Block b).
Hypothesis HRegion : forall g s b, Forall P b -> P (Node.Region g s b).
Hypothesis HOpaque : forall x, P (Node.Opaque x).

Fixpoint Node_ind' (n : Node) : P n :=
  let all := fix go l : Forall P l :=
    match l with
    | [] => @List.Forall_nil _ P
    | x :: l => @List.Forall_cons _ P x l (Node_ind' x) (go l)
    end in
  match n with
  | Node.Let n e => HLet n e
  | Node.Assign n e => HAssign n e
  | Node.Store b i v => HStore b i v
  | Node.If c t o => HIf c t o (all t) (all o)
  | Node.Loop v f t b => HLoop v f t b (all b)
  | Node.IndirectDispatch b o => HIndirect b o
  | Node.AsyncLoad s d o z t => HAsyncLoad s d o z t
  | Node.AsyncStore s d o z t => HAsyncStore s d o z t
  | Node.AsyncWait t => HAsyncWait t
  | Node.Trap a t => HTrap a t
  | Node.Resume t => HResume t
  | Node.AllReduce b o g => HAllReduce b o g
  | Node.AllGather i o g => HAllGather i o g
  | Node.ReduceScatter i o op g => HReduceScatter i o op g
  | Node.Broadcast b r g => HBroadcast b r g
  | Node.Return => HReturn
  | Node.Barrier o => HBarrier o
  | Node.Block b => HBlock b (all b)
  | Node.Region g s b => HRegion g s b (all b)
  | Node.Opaque x => HOpaque x
  end.
End NodeInd.

(** [node_op_id]: the stable operation id of a statement. *)
Definition node_op_id (n : Node) : string :=
  match n with
  | Node.Let _ _ => "vyre.node.let"
  | Node.Assign _ _ => "vyre.node.assign"
  | Node.Store _ _ _ => "vyre.node.store"
  | Node.If _ _ _ => "vyre.node.if"
  | Node.Loop _ _ _ _ => "vyre.node.loop"
  | Node.Return => "vyre.node.return"
  | Node.Block _ => "vyre.node.block"
  | Node.Barrier _ => "vyre.node.barrier"
  | Node.Region _ _ _ => "vyre.node.region"
  | Node.IndirectDispatch _ _ => "vyre.node.indirect_dispatch"
  | Node.AsyncLoad _ _ _ _ _ => "vyre.node.async_load"
  | Node.AsyncStore _ _ _ _ _ => "vyre.node.async_store"
  | Node.AsyncWait _ => "vyre.node.async_wait"
  | Node.Trap _ _ => "vyre.node.trap"
  | Node.Resume _ => "vyre.node.resume"
  | Node.AllReduce _ _ _ => "vyre.node.all_reduce"
  | Node.AllGather _ _ _ => "vyre.node.all_gather"
  | Node.ReduceScatter _ _ _ _ => "vyre.node.reduce_scatter"
  | Node.Broadcast _ _ _ => "vyre.node.broadcast"
  | Node.Opaque x => ne_extension_kind x
  end.

(** ** Buffers and programs *)

Module MemoryKind.
Inductive MemoryKind := Global | Shared | Uniform | Local | Readonly | Persistent | Push.
#[export] Instance MemoryKind_eq_dec : EqDecision MemoryKind.
Proof. solve_decision. Defined.
End MemoryKind.
Abbreviation MemoryKind := MemoryKind.MemoryKind.
Export (hints) MemoryKind.

Module CacheLocality.
Inductive CacheLocality := Streaming | Temporal | Random.
#[export] Instance CacheLocality_eq_dec : EqDecision CacheLocality.
Proof. solve_decision. Defined.
End CacheLocality.
Abbreviation CacheLocality := CacheLocality.CacheLocality.
Export (hints) CacheLocality.

Module LinearType.
Inductive LinearType := Linear | Affine | Relevant | Unrestricted.
#[export] Instance LinearType_eq_dec : EqDecision LinearType.
Proof. solve_decision. Defined.
End LinearType.
Abbreviation LinearType := LinearType.LinearType.
Export (hints) LinearType.

Module ShapePredicate.
Inductive ShapePredicate :=
| AtLeast (n : Z)
| AtMost (n : Z)
| Exactly (n : Z)
| MultipleOf (n : Z)
| ModEquals (modulus remainder : Z)
| AffineRange (scale offset min max : Z)
| And (a b : ShapePredicate)
| Or (a b : ShapePredicate)
| Not (inner : ShapePredicate).

(** [holds]: the affine arm is evaluated in [i128], wide enough for every
    [u32 * i64 + i64], so it is the exact integer value. *)
Fixpoint shape_holds (p : ShapePredicate) (count : Z) : bool :=
  match p with
  | AtLeast n => n <=? count
  | AtMost n => count <=? n
  | Exactly n => count =? n
  | MultipleOf n => negb (n =? 0) && (count mod n =? 0)
  | ModEquals modulus remainder =>
      negb (modulus =? 0) && (remainder <? modulus) && (count mod modulus =? remainder)
  | AffineRange scale offset min max =>
      (min <=? count * scale + offset) && (count * scale + offset <=? max)
  | And a b => shape_holds a count && shape_holds b count
  | Or a b => shape_holds a count || shape_holds b count
  | Not inner => negb (shape_holds inner count)
  end.
End ShapePredicate.
Abbreviation ShapePredicate := ShapePredicate.ShapePredicate.

Record MemoryHints := mkMemoryHints {
  coalesce_axis : option Z;
  preferred_alignment : Z;
  cache_locality : CacheLocality;
}.

Record BufferDecl := mkBufferDecl {
  bd_name : string;
  bd_binding : Z;
  bd_access : BufferAccess;
  bd_kind : MemoryKind;
  bd_element : DataType;
  bd_count : Z;
  bd_is_output : bool;
  bd_pipeline_live_out : bool;
  bd_output_byte_range : option (Z * Z);
  bd_hints : MemoryHints;
  bd_bytes_extraction : bool;
  bd_linear_type : LinearType;
  bd_shape_predicate : option ShapePredicate;
}.

(** [Program], without the caches ([OnceLock] fields) that are recomputed from
    these fields on demand. *)
Record Program := mkProgram {
  entry_op_id : option string;
  buffers : list BufferDecl;
  workgroup_size : Z * Z * Z;
  entry : list Node;
  non_composable_with_self : bool;
}.

(** ** Representation invariants *)

Definition bin_op_repr (op : BinOp) : Prop :=
  match op with BinOp.Opaque id => inu 32 id | _ => True end.
Definition un_op_repr (op : UnOp) : Prop :=
  match op with UnOp.Opaque id => inu 32 id | _ => True end.
Definition atomic_op_repr (op : AtomicOp) : Prop :=
  match op with AtomicOp.Opaque id => inu 32 id | _ => True end.

Fixpoint expr_repr (e : Expr) : Prop :=
  match e with
  | Expr.LitU32 v | Expr.LitF32 v => inu 32 v
  | Expr.LitI32 v => ins 32 v
  | Expr.LitBool _ => True
  | Expr.Var n | Expr.BufLen n => str_ok n = true
  | Expr.Load b i => str_ok b = true /\ expr_repr i
  | Expr.InvocationId a | Expr.WorkgroupId a | Expr.LocalId a => inu 8 a
  | Expr.BinOp op l r => bin_op_repr op /\ expr_repr l /\ expr_repr r
  | Expr.UnOp op e => un_op_repr op /\ expr_repr e
  | Expr.Call op args => str_ok op = true /\ Forall_list expr_repr args
  | Expr.Select c t f => expr_repr c /\ expr_repr t /\ expr_repr f
  | Expr.Cast t e => data_type_repr t /\ expr_repr e
  | Expr.Fma a b c => expr_repr a /\ expr_repr b /\ expr_repr c
  | Expr.Atomic op b i x v _ =>
      atomic_op_repr op /\ str_ok b = true /\ expr_repr i
      /\ match x with Some y => expr_repr y | None => True end /\ expr_repr v
  | Expr.SubgroupBallot e | Expr.SubgroupAdd e => expr_repr e
  | Expr.SubgroupShuffle v l => expr_repr v /\ expr_repr l
  | Expr.SubgroupLocalId | Expr.SubgroupSize => True
  | Expr.Opaque x => str_ok (en_extension_kind x) = true /\ Forall (inu 8) (en_wire_payload x)
  end.

Fixpoint node_repr (n : Node) : Prop :=
  match n with
  | Node.Let n e | Node.Assign n e => str_ok n = true /\ expr_repr e
  | Node.Store b i v => str_ok b = true /\ expr_repr i /\ expr_repr v
  | Node.If c t o => expr_repr c /\ Forall_list node_repr t /\ Forall_list node_repr o
  | Node.Loop v f t b =>
      str_ok v = true /\ expr_repr f /\ expr_repr t /\ Forall_list node_repr b
  | Node.IndirectDispatch b o => str_ok b = true /\ inu 64 o
  | Node.AsyncLoad s d o z t | Node.AsyncStore s d o z t =>
      str_ok s = true /\ str_ok d = true /\ expr_repr o /\ expr_repr z /\ str_ok t = true
  | Node.AsyncWait t | Node.Resume t => str_ok t = true
  | Node.Trap a t => expr_repr a /\ str_ok t = true
  | Node.AllReduce b _ g => str_ok b = true /\ inu 32 g
  | Node.AllGather i o g => str_ok i = true /\ str_ok o = true /\ inu 32 g
  | Node.ReduceScatter i o _ g => str_ok i = true /\ str_ok o = true /\ inu 32 g
  | Node.Broadcast b r g => str_ok b = true /\ inu 32 r /\ inu 32 g
  | Node.Return | Node.Barrier _ => True
  | Node.Block b => Forall_list node_repr b
  | Node.Region g s b =>
      str_ok g = true /\ match s with Some n => str_ok n = true | None => True end
      /\ Forall_list node_repr b
  | Node.Opaque x => str_ok (ne_extension_kind x) = true /\ Forall (inu 8) (ne_wire_payload x)
  end.

Definition hints_repr (h : MemoryHints) : Prop :=
  match coalesce_axis h with Some a => inu 8 a | None => True end
  /\ inu 32 (preferred_alignment h).

Definition buffer_repr (b : BufferDecl) : Prop :=
  str_ok (bd_name b) = true /\ inu 32 (bd_binding b) /\ data_type_repr (bd_element b)
  /\ inu 32 (bd_count b)
  /\ match bd_output_byte_range b with Some (s, e) => inu 64 s /\ inu 64 e | None => True end
  /\ hints_repr (bd_hints b).

Definition program_repr (p : Program) : Prop :=
  match entry_op_id p with Some s => str_ok s = true | None => True end
  /\ Forall buffer_repr (buffers p)
  /\ (let '(x, y, z) := workgroup_size p in inu 32 x /\ inu 32 y /\ inu 32 z)
  /\ Forall node_repr (entry p).

(** ** Sizes and nesting depth *)

Definition list_max (l : list nat) : nat := fold_right Nat.max 0%nat l.
Definition list_sum_nat (l : list nat) : nat := fold_right Nat.add 0%nat l.

(** Number of constructors, the work left on an explicit-stack traversal. *)
Fixpoint expr_size (e : Expr) : nat :=
  S (match e with
  | Expr.Load _ i => expr_size i
  | Expr.BinOp _ l r => expr_size l + expr_size r
  | Expr.UnOp _ e => expr_size e
  | Expr.Call _ args => list_sum_nat (map expr_size args)
  | Expr.Select c t f => expr_size c + expr_size t + expr_size f
  | Expr.Cast _ e => expr_size e
  | Expr.Fma a b c => expr_size a + expr_size b + expr_size c
  | Expr.Atomic _ _ i x v _ =>
      expr_size i + match x with Some y => expr_size y | None => 0 end + expr_size v
  | Expr.SubgroupBallot e | Expr.SubgroupAdd e => expr_size e
  | Expr.SubgroupShuffle v l => expr_size v + expr_size l
  | _ => 0
  end)%nat.

Fixpoint expr_depth (e : Expr) : nat :=
  S (match e with
  | Expr.Load _ i => expr_depth i
  | Expr.BinOp _ l r => Nat.max (expr_depth l) (expr_depth r)
  | Expr.UnOp _ e => expr_depth e
  | Expr.Call _ args => list_max (map expr_depth args)
  | Expr.Select c t f => Nat.max (expr_depth c) (Nat.max (expr_depth t) (expr_depth f))
  | Expr.Cast _ e => expr_depth e
  | Expr.Fma a b c => Nat.max (expr_depth a) (Nat.max (expr_depth b) (expr_depth c))
  | Expr.Atomic _ _ i x v _ =>
      Nat.max (expr_depth i)
        (Nat.max match x with Some y => expr_depth y | None => 0 end (expr_depth v))
  | Expr.SubgroupBallot e | Expr.SubgroupAdd e => expr_depth e
  | Expr.SubgroupShuffle v l => Nat.max (expr_depth v) (expr_depth l)
  | _ => 0
  end)%nat.

Fixpoint node_depth (n : Node) : nat :=
  S (match n with
  | Node.Let _ e | Node.Assign _ e => expr_depth e
  | Node.Store _ i v => Nat.max (expr_depth i) (expr_depth v)
  | Node.If c t o =>
      Nat.max (expr_depth c) (Nat.max (list_max (map node_depth t)) (list_max (map node_depth o)))
  | Node.Loop _ f t b =>
      Nat.max (expr_depth f) (Nat.max (expr_depth t) (list_max (map node_depth b)))
  | Node.AsyncLoad _ _ o z _ | Node.AsyncStore _ _ o z _ =>
      Nat.max (expr_depth o) (expr_depth z)
  | Node.Trap a _ => expr_depth a
  | Node.Block b | Node.Region _ _ b => list_max (map node_depth b)
  | _ => 0
  end)%nat.

Lemma list_max_le l n : (list_max l <= n)%nat <-> Forall (fun x => x <= n)%nat l.
Proof.
  induction l; cbn; rewrite ?Forall_nil, ?Forall_cons.
  - split; [done|lia].
  - unfold list_max in *. cbn. rewrite Nat.max_lub_iff. tauto.
Qed.
