(* ===== verification/ProgramStats.v ===== *)
(** Program statistics and the capability gate of vyre-foundation
    (ir_inner/model/program/stats.rs, runtime/program_caps.rs).

    [compute_stats] is one preorder walk that threads every counter; the theorems relate
    it to the list of statements and expressions of the program. *)

From S2P Require Import Prelude Spec IR.

(** ** Counters *)

Definition sat_add (limit a b : Z) : Z := Z.min limit (a + b).

Record IrCounters := mkIrCounters {
  ic_instruction_count : Z;
  ic_memory_op_count : Z;
  ic_atomic_op_count : Z;
  ic_control_flow_count : Z;
  ic_live_names : Z;
  ic_max_live_names : Z;
}.

Definition counters_new : IrCounters := mkIrCounters 0 0 0 0 0 0.
Definition instruction (c : IrCounters) : IrCounters :=
  mkIrCounters (sat_add U64_MAX (ic_instruction_count c) 1) (ic_memory_op_count c) (ic_atomic_op_count c)
    (ic_control_flow_count c) (ic_live_names c) (ic_max_live_names c).
Definition memory_op (c : IrCounters) : IrCounters :=
  instruction (mkIrCounters (ic_instruction_count c) (sat_add U64_MAX (ic_memory_op_count c) 1)
    (ic_atomic_op_count c) (ic_control_flow_count c) (ic_live_names c) (ic_max_live_names c)).
Definition atomic (c : IrCounters) : IrCounters :=
  memory_op (mkIrCounters (ic_instruction_count c) (ic_memory_op_count c)
    (sat_add U64_MAX (ic_atomic_op_count c) 1) (ic_control_flow_count c) (ic_live_names c)
    (ic_max_live_names c)).
Definition control_flow (c : IrCounters) : IrCounters :=
  instruction (mkIrCounters (ic_instruction_count c) (ic_memory_op_count c) (ic_atomic_op_count c)
    (sat_add U64_MAX (ic_control_flow_count c) 1) (ic_live_names c) (ic_max_live_names c)).
Definition bind_name (c : IrCounters) : IrCounters :=
  let live := sat_add U32_MAX (ic_live_names c) 1 in
  mkIrCounters (ic_instruction_count c) (ic_memory_op_count c) (ic_atomic_op_count c)
    (ic_control_flow_count c) live (Z.max (ic_max_live_names c) live).
Definition leave_scope (saved : Z) (c : IrCounters) : IrCounters :=
  mkIrCounters (ic_instruction_count c) (ic_memory_op_count c) (ic_atomic_op_count c)
    (ic_control_flow_count c) saved (ic_max_live_names c).

(** ** Bits *)

Definition CAP_SUBGROUP_OPS : Z := Z.shiftl 1 0.
Definition CAP_F16 : Z := Z.shiftl 1 1.
Definition CAP_BF16 : Z := Z.shiftl 1 2.
Definition CAP_F64 : Z := Z.shiftl 1 3.
Definition CAP_ASYNC_DISPATCH : Z := Z.shiftl 1 4.
Definition CAP_INDIRECT_DISPATCH : Z := Z.shiftl 1 5.
Definition CAP_TENSOR_OPS : Z := Z.shiftl 1 6.
Definition CAP_TRAP : Z := Z.shiftl 1 7.
Definition CAP_DISTRIBUTED_COLLECTIVES : Z := Z.shiftl 1 8.

(** The [NODE_KIND_*] bit of a statement. *)
Definition node_kind (n : Node) : Z :=
  Z.shiftl 1
    match n with
    | Node.Let _ _ => 0
    | Node.Assign _ _ => 1
    | Node.Store _ _ _ => 2
    | Node.If _ _ _ => 3
    | Node.Loop _ _ _ _ => 4
    | Node.IndirectDispatch _ _ => 5
    | Node.AsyncLoad _ _ _ _ _ => 6
    | Node.AsyncStore _ _ _ _ _ => 7
    | Node.AsyncWait _ => 8
    | Node.Trap _ _ => 9
    | Node.Resume _ => 10
    | Node.Return => 11
    | Node.Barrier _ => 12
    | Node.Block _ => 13
    | Node.Region _ _ _ => 14
    | Node.AllReduce _ _ _ => 15
    | Node.AllGather _ _ _ => 16
    | Node.ReduceScatter _ _ _ _ => 17
    | Node.Broadcast _ _ _ => 18
    | Node.Opaque _ => 19
    end.

Definition mark_datatype_bits (t : DataType) (bits : Z) : Z :=
  match t with
  | DataType.F16 => Z.lor bits CAP_F16
  | DataType.BF16 => Z.lor bits CAP_BF16
  | DataType.F64 => Z.lor bits CAP_F64
  | DataType.Tensor | DataType.TensorShaped _ _ => Z.lor bits CAP_TENSOR_OPS
  | _ => bits
  end.

(** [str::contains]. *)
Fixpoint str_contains (needle s : string) : bool :=
  String.prefix needle s || match s with EmptyString => false | String _ s => str_contains needle s end.
Definition SUBGROUP_MARKERS : list string :=
  ["subgroup_"; "::subgroup::"; "::subgroup"; "wave_"; "::wave::"; "warp_"; "::warp::"].
Definition is_subgroup_intrinsic_id (op_id : string) : bool :=
  existsb (fun marker => str_contains marker op_id) SUBGROUP_MARKERS.

(** ** The walk *)

Record WalkState := mkWalk {
  ws_nodes : Z; ws_regions : Z; ws_calls : Z; ws_opaque : Z; ws_bits : Z; ws_kinds : Z;
  ws_ir : IrCounters;
}.
Definition add_node (st : WalkState) : WalkState :=
  mkWalk (sat_add USIZE_MAX (ws_nodes st) 1) (ws_regions st) (ws_calls st) (ws_opaque st) (ws_bits st)
    (ws_kinds st) (ws_ir st).
Definition add_region (st : WalkState) : WalkState :=
  mkWalk (ws_nodes st) (sat_add U32_MAX (ws_regions st) 1) (ws_calls st) (ws_opaque st) (ws_bits st)
    (ws_kinds st) (ws_ir st).
Definition add_call (st : WalkState) : WalkState :=
  mkWalk (ws_nodes st) (ws_regions st) (sat_add U32_MAX (ws_calls st) 1) (ws_opaque st) (ws_bits st)
    (ws_kinds st) (ws_ir st).
Definition add_opaque (st : WalkState) : WalkState :=
  mkWalk (ws_nodes st) (ws_regions st) (ws_calls st) (sat_add U32_MAX (ws_opaque st) 1) (ws_bits st)
    (ws_kinds st) (ws_ir st).
Definition on_bits (f : Z -> Z) (st : WalkState) : WalkState :=
  mkWalk (ws_nodes st) (ws_regions st) (ws_calls st) (ws_opaque st) (f (ws_bits st)) (ws_kinds st)
    (ws_ir st).
Definition cap (bit : Z) : WalkState -> WalkState := on_bits (fun bits => Z.lor bits bit).
Definition kind (n : Node) (st : WalkState) : WalkState :=
  mkWalk (ws_nodes st) (ws_regions st) (ws_calls st) (ws_opaque st) (ws_bits st)
    (Z.lor (ws_kinds st) (node_kind n)) (ws_ir st).
Definition on_ir (f : IrCounters -> IrCounters) (st : WalkState) : WalkState :=
  mkWalk (ws_nodes st) (ws_regions st) (ws_calls st) (ws_opaque st) (ws_bits st) (ws_kinds st)
    (f (ws_ir st)).

Fixpoint walk_expr (e : Expr) (st : WalkState) : WalkState :=
  match e with
  | Expr.SubgroupAdd value => walk_expr value (on_ir instruction (cap CAP_SUBGROUP_OPS st))
  | Expr.SubgroupBallot cond => walk_expr cond (on_ir instruction (cap CAP_SUBGROUP_OPS st))
  | Expr.SubgroupShuffle value lane =>
      walk_expr lane (walk_expr value (on_ir instruction (cap CAP_SUBGROUP_OPS st)))
  | Expr.BinOp _ l r => walk_expr r (walk_expr l (on_ir instruction st))
  | Expr.UnOp _ operand => walk_expr operand (on_ir instruction st)
  | Expr.Fma a b c => walk_expr c (walk_expr b (walk_expr a (on_ir instruction st)))
  | Expr.Select cond t f => walk_expr f (walk_expr t (walk_expr cond (on_ir instruction st)))
  | Expr.Cast target value =>
      walk_expr value (on_ir instruction (on_bits (mark_datatype_bits target) st))
  | Expr.Load _ index => walk_expr index (on_ir memory_op st)
  | Expr.Call op_id args =>
      let st := if is_subgroup_intrinsic_id op_id then cap CAP_SUBGROUP_OPS st else st in
      foldl (fun st arg => walk_expr arg st) (on_ir instruction (add_call st)) args
  | Expr.Atomic _ _ index expected value _ =>
      let st := walk_expr index (on_ir atomic st) in
      let st := match expected with Some x => walk_expr x st | None => st end in
      walk_expr value st
  | Expr.Opaque _ => on_ir instruction (add_opaque st)
  | Expr.SubgroupLocalId | Expr.SubgroupSize => on_ir instruction (cap CAP_SUBGROUP_OPS st)
  | Expr.LitU32 _ | Expr.LitI32 _ | Expr.LitF32 _ | Expr.LitBool _ | Expr.Var _ | Expr.BufLen _
  | Expr.InvocationId _ | Expr.WorkgroupId _ | Expr.LocalId _ => st
  end.

(** [enter_scope] saves the live names, [leave_scope] restores them. *)
Definition in_scope (body : WalkState -> WalkState) (st : WalkState) : WalkState :=
  let saved := ic_live_names (ws_ir st) in on_ir (leave_scope saved) (body st).

Fixpoint walk_node (n : Node) (st : WalkState) : WalkState :=
  let children := foldl (fun st child => walk_node child st) in
  let st := kind n (add_node st) in
  match n with
  | Node.Let _ value => walk_expr value (on_ir bind_name (on_ir instruction st))
  | Node.Assign _ value => walk_expr value (on_ir instruction st)
  | Node.Store _ index value => walk_expr value (walk_expr index (on_ir memory_op st))
  | Node.If cond then_ otherwise =>
      in_scope (fun st => children (children st then_) otherwise) (walk_expr cond (on_ir control_flow st))
  | Node.Loop _ from to body =>
      in_scope (fun st => children st body) (walk_expr to (walk_expr from (on_ir control_flow st)))
  | Node.Block body => in_scope (fun st => children st body) st
  | Node.Region _ _ body => in_scope (fun st => children st body) (add_region st)
  | Node.AsyncLoad _ _ offset size _ | Node.AsyncStore _ _ offset size _ =>
      walk_expr size (walk_expr offset (on_ir memory_op (cap CAP_ASYNC_DISPATCH st)))
  | Node.AsyncWait _ => on_ir control_flow (cap CAP_ASYNC_DISPATCH st)
  | Node.IndirectDispatch _ _ => on_ir control_flow (cap CAP_INDIRECT_DISPATCH st)
  | Node.Trap address _ => walk_expr address (on_ir control_flow (cap CAP_TRAP st))
  | Node.AllReduce _ _ _ | Node.AllGather _ _ _ | Node.ReduceScatter _ _ _ _ | Node.Broadcast _ _ _ =>
      on_ir memory_op (cap CAP_DISTRIBUTED_COLLECTIVES st)
  | Node.Opaque _ => on_ir instruction (add_opaque st)
  | Node.Return | Node.Barrier _ | Node.Resume _ => on_ir control_flow st
  end.

(** ** Statistics *)

Record ProgramStats := mkProgramStats {
  node_count : Z; region_count : Z; call_count : Z; opaque_count : Z;
  top_level_regions : Z; static_storage_bytes : Z;
  instruction_count : Z; memory_op_count : Z; atomic_op_count : Z; control_flow_count : Z;
  register_pressure_estimate : Z; capability_bits : Z; node_kinds_present : Z;
}.

Definition is_region (n : Node) : bool := match n with Node.Region _ _ _ => true | _ => false end.

(** The static bytes of a declaration: [count * elem] is a [u64] product. *)
Definition storage_bytes (total : Z) (decl : BufferDecl) : Z :=
  if bd_count decl =? 0 then total
  else match DataType.size_bytes (bd_element decl) with
       | Some elem => sat_add U64_MAX total (wrapu 64 (bd_count decl * elem))
       | None => total
       end.

Definition compute_stats (p : Program) : ProgramStats :=
  let bits := foldl (fun bits decl => mark_datatype_bits (bd_element decl) bits) 0 (buffers p) in
  let st := foldl (fun st n => walk_node n st) (mkWalk 0 0 0 0 bits 0 counters_new) (entry p) in
  mkProgramStats (ws_nodes st) (ws_regions st) (ws_calls st) (ws_opaque st)
    (Z.min U32_MAX (Z.of_nat (length (filter (fun n => is_region n = true) (entry p)))))
    (foldl storage_bytes 0 (buffers p))
    (ic_instruction_count (ws_ir st)) (ic_memory_op_count (ws_ir st)) (ic_atomic_op_count (ws_ir st))
    (ic_control_flow_count (ws_ir st)) (ic_max_live_names (ws_ir st)) (ws_bits st) (ws_kinds st).

Definition has_bit (bits mask : Z) : bool := negb (Z.land bits mask =? 0).
Definition subgroup_ops (s : ProgramStats) : bool := has_bit (capability_bits s) CAP_SUBGROUP_OPS.
Definition f16 (s : ProgramStats) : bool := has_bit (capability_bits s) CAP_F16.
Definition bf16 (s : ProgramStats) : bool := has_bit (capability_bits s) CAP_BF16.
Definition f64 (s : ProgramStats) : bool := has_bit (capability_bits s) CAP_F64.
Definition async_dispatch (s : ProgramStats) : bool := has_bit (capability_bits s) CAP_ASYNC_DISPATCH.
Definition indirect_dispatch (s : ProgramStats) : bool :=
  has_bit (capability_bits s) CAP_INDIRECT_DISPATCH.
Definition tensor_ops (s : ProgramStats) : bool := has_bit (capability_bits s) CAP_TENSOR_OPS.
Definition trap (s : ProgramStats) : bool := has_bit (capability_bits s) CAP_TRAP.
Definition distributed_collectives (s : ProgramStats) : bool :=
  has_bit (capability_bits s) CAP_DISTRIBUTED_COLLECTIVES.
Definition has_any_node_kind (s : ProgramStats) (mask : Z) : bool := has_bit (node_kinds_present s) mask.

(** ** The contents of a program *)

(** An expression and its operands, in preorder. *)
Fixpoint subexprs (e : Expr) : list Expr :=
  e :: match e with
  | Expr.Load _ i => subexprs i
  | Expr.BinOp _ l r => subexprs l ++ subexprs r
  | Expr.UnOp _ x => subexprs x
  | Expr.Call _ args => flat_map subexprs args
  | Expr.Select c t f => subexprs c ++ subexprs t ++ subexprs f
  | Expr.Cast _ v => subexprs v
  | Expr.Fma a b c => subexprs a ++ subexprs b ++ subexprs c
  | Expr.Atomic _ _ i x v _ =>
      subexprs i ++ match x with Some y => subexprs y | None => [] end ++ subexprs v
  | Expr.SubgroupBallot c => subexprs c
  | Expr.SubgroupShuffle v l => subexprs v ++ subexprs l
  | Expr.SubgroupAdd v => subexprs v
  | _ => []
  end.

Inductive item := INode (n : Node) | IExpr (e : Expr).
Definition expr_items (e : Expr) : list item := map IExpr (subexprs e).

(** A statement, its expressions and its nested statements, in preorder. *)
Fixpoint items (n : Node) : list item :=
  INode n :: match n with
  | Node.Let _ e | Node.Assign _ e | Node.Trap e _ => expr_items e
  | Node.Store _ i v => expr_items i ++ expr_items v
  | Node.If c t o => expr_items c ++ flat_map items t ++ flat_map items o
  | Node.Loop _ a b body => expr_items a ++ expr_items b ++ flat_map items body
  | Node.AsyncLoad _ _ o z _ | Node.AsyncStore _ _ o z _ => expr_items o ++ expr_items z
  | Node.Block body | Node.Region _ _ body => flat_map items body
  | _ => []
  end.
Definition program_items (p : Program) : list item := flat_map items (entry p).

(** A field of the walk: [f] is what an item does to it, and scopes leave it alone. *)
Section Field.
Context {X : Type} (get : WalkState -> X) (f : item -> X -> X).
Abbreviation run := (foldl (fun x i => f i x)).
Context (Hscope : forall saved st, get (on_ir (leave_scope saved) st) = get st).

(** What the arms do besides recursing. *)
Definition expr_tick (e : Expr) (st : WalkState) : WalkState :=
  match e with
  | Expr.SubgroupAdd _ | Expr.SubgroupBallot _ | Expr.SubgroupShuffle _ _ | Expr.SubgroupLocalId
  | Expr.SubgroupSize => on_ir instruction (cap CAP_SUBGROUP_OPS st)
  | Expr.BinOp _ _ _ | Expr.UnOp _ _ | Expr.Fma _ _ _ | Expr.Select _ _ _ => on_ir instruction st
  | Expr.Cast target _ => on_ir instruction (on_bits (mark_datatype_bits target) st)
  | Expr.Load _ _ => on_ir memory_op st
  | Expr.Call op_id _ =>
      on_ir instruction (add_call (if is_subgroup_intrinsic_id op_id then cap CAP_SUBGROUP_OPS st else st))
  | Expr.Atomic _ _ _ _ _ _ => on_ir atomic st
  | Expr.Opaque _ => on_ir instruction (add_opaque st)
  | _ => st
  end.
Definition node_tick (n : Node) (st : WalkState) : WalkState :=
  let st := kind n (add_node st) in
  match n with
  | Node.Let _ _ => on_ir bind_name (on_ir instruction st)
  | Node.Assign _ _ => on_ir instruction st
  | Node.Store _ _ _ => on_ir memory_op st
  | Node.If _ _ _ | Node.Loop _ _ _ _ => on_ir control_flow st
  | Node.Block _ => st
  | Node.Region _ _ _ => add_region st
  | Node.AsyncLoad _ _ _ _ _ | Node.AsyncStore _ _ _ _ _ => on_ir memory_op (cap CAP_ASYNC_DISPATCH st)
  | Node.AsyncWait _ => on_ir control_flow (cap CAP_ASYNC_DISPATCH st)
  | Node.IndirectDispatch _ _ => on_ir control_flow (cap CAP_INDIRECT_DISPATCH st)
  | Node.Trap _ _ => on_ir control_flow (cap CAP_TRAP st)
  | Node.AllReduce _ _ _ | Node.AllGather _ _ _ | Node.ReduceScatter _ _ _ _ | Node.Broadcast _ _ _ =>
      on_ir memory_op (cap CAP_DISTRIBUTED_COLLECTIVES st)
  | Node.Opaque _ => on_ir instruction (add_opaque st)
  | Node.Return | Node.Barrier _ | Node.Resume _ => on_ir control_flow st
  end.
Context (Hexpr : forall e st, get (expr_tick e st) = f (IExpr e) (get st)).
Context (Hnode : forall n st, get (node_tick n st) = f (INode n) (get st)).

Lemma walk_expr_field e : forall st, get (walk_expr e st) = run (get st) (expr_items e).
Proof.
  unfold expr_items.
  induction e using Expr_ind'; intros st; cbn [walk_expr subexprs map foldl];
    rewrite ?map_app, ?foldl_app, <- ?Hexpr; cbn [expr_tick map foldl]; rewrite <- ?IHe1, <- ?IHe2, <- ?IHe3, <- ?IHe;
    try reflexivity.
  - (* call *) generalize (on_ir instruction (add_call
      (if is_subgroup_intrinsic_id op then cap CAP_SUBGROUP_OPS st else st))) as st'.
    induction H as [|a args Ha _ IH]; intros st'; cbn [foldl flat_map map]; [reflexivity|].
    by rewrite map_app, foldl_app, <- Ha, <- IH.
  - (* atomic *) match goal with H : Forall_opt _ ?x |- _ => destruct x end; cbn [Forall_opt map foldl] in *;
      by rewrite IHe2, ?H.
Qed.

Lemma walk_children_field l (Hl : Forall (fun n => forall st, get (walk_node n st) = run (get st) (items n)) l) :
  forall st, get (foldl (fun st child => walk_node child st) st l) = run (get st) (flat_map items l).
Proof.
  induction Hl as [|n l Hn _ IH]; intros st; cbn [foldl flat_map]; [reflexivity|].
  by rewrite foldl_app, IH, Hn.
Qed.
Lemma walk_node_field n : forall st, get (walk_node n st) = run (get st) (items n).
Proof.
  induction n using Node_ind'; intros st; cbn [walk_node items foldl];
    rewrite ?foldl_app, <- ?Hnode; cbn [node_tick]; unfold in_scope; rewrite ?Hscope;
    repeat first [rewrite walk_children_field by done | rewrite walk_expr_field]; reflexivity.
Qed.
Lemma walk_program_field p st :
  get (foldl (fun st n => walk_node n st) st (entry p)) = run (get st) (program_items p).
Proof. apply walk_children_field. apply Forall_forall. intros n _. apply walk_node_field. Qed.
End Field.

(** *** Instances *)

(** A saturating counter. *)
Lemma count_field {A} limit (p : A -> bool) l : forall x, 0 <= x <= limit ->
  foldl (fun x i => if p i then sat_add limit x 1 else x) x l
  = Z.min limit (x + Z.of_nat (length (filter (fun i => p i = true) l))).
Proof.
  induction l as [|a l IH]; intros x Hx; cbn [foldl]; [rewrite filter_nil; cbn; lia|].
  rewrite filter_cons. unfold sat_add in *.
  destruct (p a); [rewrite decide_True by done|rewrite decide_False by done]; rewrite IH by lia; cbn [length]; lia.
Qed.
(** A mask of bits. *)
Lemma has_bit_lor a b mask : has_bit (Z.lor a b) mask = has_bit a mask || has_bit b mask.
Proof.
  unfold has_bit. rewrite Z.land_lor_distr_l, <- negb_andb. f_equal.
  apply eq_true_iff_eq. rewrite andb_true_iff, !Z.eqb_eq. apply Z.lor_eq_0_iff.
Qed.
Lemma mask_field {A} (g : A -> Z) mask l : forall x,
  has_bit (foldl (fun x i => Z.lor x (g i)) x l) mask = has_bit x mask || existsb (fun i => has_bit (g i) mask) l.
Proof.
  induction l as [|a l IH]; intros x; cbn [foldl existsb]; [by rewrite orb_false_r|].
  by rewrite IH, has_bit_lor, orb_assoc.
Qed.

(** The bit of a data type, of an item. *)
Definition data_type_bits (t : DataType) : Z := mark_datatype_bits t 0.
Lemma mark_lor t bits : mark_datatype_bits t bits = Z.lor bits (data_type_bits t).
Proof. destruct t; cbn; by rewrite ?Z.lor_0_r. Qed.
Definition item_bits (i : item) : Z :=
  match i with
  | IExpr (Expr.SubgroupAdd _) | IExpr (Expr.SubgroupBallot _) | IExpr (Expr.SubgroupShuffle _ _)
  | IExpr Expr.SubgroupLocalId | IExpr Expr.SubgroupSize => CAP_SUBGROUP_OPS
  | IExpr (Expr.Call op_id _) => if is_subgroup_intrinsic_id op_id then CAP_SUBGROUP_OPS else 0
  | IExpr (Expr.Cast target _) => data_type_bits target
  | INode (Node.AsyncLoad _ _ _ _ _) | INode (Node.AsyncStore _ _ _ _ _) | INode (Node.AsyncWait _) =>
      CAP_ASYNC_DISPATCH
  | INode (Node.IndirectDispatch _ _) => CAP_INDIRECT_DISPATCH
  | INode (Node.Trap _ _) => CAP_TRAP
  | INode (Node.AllReduce _ _ _) | INode (Node.AllGather _ _ _) | INode (Node.ReduceScatter _ _ _ _)
  | INode (Node.Broadcast _ _ _) => CAP_DISTRIBUTED_COLLECTIVES
  | _ => 0
  end.
Lemma bits_walk p st : ws_bits (foldl (fun st n => walk_node n st) st (entry p))
  = foldl (fun b i => Z.lor b (item_bits i)) (ws_bits st) (program_items p).
Proof.
  apply (walk_program_field ws_bits (fun i b => Z.lor b (item_bits i))); [done| |].
  - intros e st'; destruct e; cbn [expr_tick item_bits]; rewrite ?Z.lor_0_r; try reflexivity.
    + destruct (is_subgroup_intrinsic_id op_id); rewrite ?Z.lor_0_r; reflexivity.
    + apply mark_lor.
  - intros n st'; destruct n; cbn [item_bits]; rewrite ?Z.lor_0_r; reflexivity.
Qed.
Lemma decl_bits_fold l : forall b,
  foldl (fun bits decl => mark_datatype_bits (bd_element decl) bits) b l
  = foldl (fun b t => Z.lor b (data_type_bits t)) b (map bd_element l).
Proof. induction l as [|d l IH]; intros b; cbn [foldl map]; [done|]. by rewrite IH, mark_lor. Qed.
Lemma capability_bit p mask :
  has_bit (capability_bits (compute_stats p)) mask
  = existsb (fun t => has_bit (data_type_bits t) mask) (map bd_element (buffers p))
    || existsb (fun i => has_bit (item_bits i) mask) (program_items p).
Proof.
  unfold compute_stats. cbn [capability_bits].
  rewrite bits_walk, mask_field. cbn [ws_bits]. by rewrite decl_bits_fold, mask_field.
Qed.
Lemma kinds_walk p st : ws_kinds (foldl (fun st n => walk_node n st) st (entry p))
  = foldl (fun b i => Z.lor b match i with INode n => node_kind n | IExpr _ => 0 end) (ws_kinds st) (program_items p).
Proof.
  apply (walk_program_field ws_kinds
    (fun i b => Z.lor b match i with INode n => node_kind n | IExpr _ => 0 end)); [done| |].
  - intros e st'; destruct e; cbn [expr_tick]; rewrite ?Z.lor_0_r; try reflexivity.
    destruct (is_subgroup_intrinsic_id op_id); reflexivity.
  - intros n st'; destruct n; reflexivity.
Qed.
Lemma nodes_walk p st : ws_nodes (foldl (fun st n => walk_node n st) st (entry p))
  = foldl (fun b i => if match i with INode _ => true | IExpr _ => false end then sat_add USIZE_MAX b 1 else b)
      (ws_nodes st) (program_items p).
Proof.
  apply (walk_program_field ws_nodes
    (fun i b => if match i with INode _ => true | IExpr _ => false end then sat_add USIZE_MAX b 1 else b)); [done| |].
  - intros e st'; destruct e; try reflexivity. cbn [expr_tick].
    destruct (is_subgroup_intrinsic_id op_id); reflexivity.
  - intros n st'; destruct n; reflexivity.
Qed.
Definition is_atomic (e : Expr) : bool := match e with Expr.Atomic _ _ _ _ _ _ => true | _ => false end.
Lemma atomics_walk p st : ic_atomic_op_count (ws_ir (foldl (fun st n => walk_node n st) st (entry p)))
  = foldl (fun b i => if match i with INode _ => false | IExpr e => is_atomic e end then sat_add U64_MAX b 1 else b)
      (ic_atomic_op_count (ws_ir st)) (program_items p).
Proof.
  apply (walk_program_field (fun st => ic_atomic_op_count (ws_ir st))
    (fun i b => if match i with INode _ => false | IExpr e => is_atomic e end then sat_add U64_MAX b 1 else b));
    [done| |].
  - intros e st'; destruct e; try reflexivity. cbn [expr_tick].
    destruct (is_subgroup_intrinsic_id op_id); reflexivity.
  - intros n st'; destruct n; reflexivity.
Qed.

(** ** What the statistics say *)

Definition program_exprs (p : Program) : list Expr :=
  omap (fun i => match i with IExpr e => Some e | INode _ => None end) (program_items p).
Definition program_nodes (p : Program) : list Node :=
  omap (fun i => match i with INode n => Some n | IExpr _ => None end) (program_items p).
(** The element types of the buffers and the targets of the casts. *)
Definition program_types (p : Program) : list DataType :=
  map bd_element (buffers p)
  ++ omap (fun e => match e with Expr.Cast t _ => Some t | _ => None end) (program_exprs p).

Definition is_subgroup_expr (e : Expr) : bool :=
  match e with
  | Expr.SubgroupAdd _ | Expr.SubgroupBallot _ | Expr.SubgroupShuffle _ _ | Expr.SubgroupLocalId
  | Expr.SubgroupSize => true
  | Expr.Call op_id _ => is_subgroup_intrinsic_id op_id
  | _ => false
  end.
Definition is_async (n : Node) : bool :=
  match n with
  | Node.AsyncLoad _ _ _ _ _ | Node.AsyncStore _ _ _ _ _ | Node.AsyncWait _ => true
  | _ => false
  end.
Definition is_indirect (n : Node) : bool := match n with Node.IndirectDispatch _ _ => true | _ => false end.
Definition is_trap (n : Node) : bool := match n with Node.Trap _ _ => true | _ => false end.
Definition is_collective (n : Node) : bool :=
  match n with
  | Node.AllReduce _ _ _ | Node.AllGather _ _ _ | Node.ReduceScatter _ _ _ _ | Node.Broadcast _ _ _ => true
  | _ => false
  end.
Definition is_tensor (t : DataType) : bool :=
  match t with DataType.Tensor | DataType.TensorShaped _ _ => true | _ => false end.

Lemma existsb_omap {A B} (g : A -> option B) (p : B -> bool) l :
  existsb p (omap g l) = existsb (fun a => match g a with Some b => p b | None => false end) l.
Proof. induction l as [|a l IH]; cbn; [done|]. destruct (g a); cbn; by rewrite IH. Qed.
Lemma existsb_ext_all {A} (p q : A -> bool) l : (forall x, p x = q x) -> existsb p l = existsb q l.
Proof. intros H. induction l as [|a l IH]; cbn; [done|]. by rewrite H, IH. Qed.
Lemma existsb_none {A} (p : A -> bool) l : (forall x, p x = false) -> existsb p l = false.
Proof. intros H. induction l as [|a l IH]; cbn; [done|]. by rewrite H, IH. Qed.
Lemma count_omap {A B} (g : A -> option B) (p : B -> bool) l :
  length (filter (fun b => p b = true) (omap g l))
  = length (filter (fun a => match g a with Some b => p b | None => false end = true) l).
Proof.
  induction l as [|a l IH]; [done|]. cbn [omap list_omap]. rewrite (filter_cons _ a).
  destruct (g a) as [b|]; [rewrite filter_cons|by rewrite decide_False by done].
  destruct (p b); [rewrite !decide_True by done; cbn; by rewrite IH|by rewrite !decide_False by done].
Qed.

(** The bits an expression, a statement or a data type contributes. *)
Lemma expr_bit p mask (q : Expr -> bool) :
  (forall t, has_bit (data_type_bits t) mask = false) ->
  (forall n, has_bit (item_bits (INode n)) mask = false) ->
  (forall e, has_bit (item_bits (IExpr e)) mask = q e) ->
  has_bit (capability_bits (compute_stats p)) mask = existsb q (program_exprs p).
Proof.
  intros Ht Hn He. rewrite capability_bit, existsb_none by done. unfold program_exprs. rewrite existsb_omap.
  apply existsb_ext_all. intros [n|e]; [apply Hn|apply He].
Qed.
Lemma node_bit p mask (q : Node -> bool) :
  (forall t, has_bit (data_type_bits t) mask = false) ->
  (forall e, has_bit (item_bits (IExpr e)) mask = false) ->
  (forall n, has_bit (item_bits (INode n)) mask = q n) ->
  has_bit (capability_bits (compute_stats p)) mask = existsb q (program_nodes p).
Proof.
  intros Ht He Hn. rewrite capability_bit, existsb_none by done. unfold program_nodes. rewrite existsb_omap.
  apply existsb_ext_all. intros [n|e]; [apply Hn|apply He].
Qed.
Lemma type_bit p mask (q : DataType -> bool) :
  (forall n, has_bit (item_bits (INode n)) mask = false) ->
  (forall e, has_bit (item_bits (IExpr e)) mask = match e with Expr.Cast t _ => q t | _ => false end) ->
  (forall t, has_bit (data_type_bits t) mask = q t) ->
  has_bit (capability_bits (compute_stats p)) mask = existsb q (program_types p).
Proof.
  intros Hn He Ht. rewrite capability_bit. unfold program_types, program_exprs.
  rewrite existsb_app, !existsb_omap. f_equal; apply existsb_ext_all; [exact Ht|].
  intros [n|e]; [apply Hn|]. rewrite He. by destruct e.
Qed.

(** A bit of a contribution, by cases on what contributes. *)
Ltac bits_by_cases :=
  let x := fresh "x" in intros x; destruct x; try reflexivity;
  cbn [item_bits is_subgroup_expr];
  repeat match goal with
         | |- context [is_subgroup_intrinsic_id ?o] => destruct (is_subgroup_intrinsic_id o)
         | |- context [data_type_bits ?t] => is_var t; destruct t
         end; reflexivity.
Lemma length_omap_filter {A B} (g : A -> option B) l :
  length (omap g l) = length (filter (fun a => match g a with Some _ => true | None => false end = true) l).
Proof.
  induction l as [|a l IH]; [done|]. cbn [omap list_omap]. rewrite (filter_cons _ a).
  destruct (g a) as [b|]; [rewrite decide_True by done; cbn; by rewrite IH|by rewrite decide_False by done].
Qed.

Lemma stats_subgroup p : subgroup_ops (compute_stats p) = existsb is_subgroup_expr (program_exprs p).
Proof. apply expr_bit; bits_by_cases. Qed.
Lemma stats_f16 p :
  f16 (compute_stats p) = existsb (fun t => bool_decide (t = DataType.F16)) (program_types p).
Proof. apply type_bit; bits_by_cases. Qed.
Lemma stats_bf16 p :
  bf16 (compute_stats p) = existsb (fun t => bool_decide (t = DataType.BF16)) (program_types p).
Proof. apply type_bit; bits_by_cases. Qed.
Lemma stats_indirect p : indirect_dispatch (compute_stats p) = existsb is_indirect (program_nodes p).
Proof. apply node_bit; bits_by_cases. Qed.
Lemma stats_trap p : trap (compute_stats p) = existsb is_trap (program_nodes p).
Proof. apply node_bit; bits_by_cases. Qed.
Lemma stats_collectives p :
  distributed_collectives (compute_stats p) = existsb is_collective (program_nodes p).
Proof. apply node_bit; bits_by_cases. Qed.
Lemma stats_f64 p :
  f64 (compute_stats p) = existsb (fun t => bool_decide (t = DataType.F64)) (program_types p).
Proof. apply type_bit; bits_by_cases. Qed.
Lemma stats_tensor p : tensor_ops (compute_stats p) = existsb is_tensor (program_types p).
Proof. apply type_bit; bits_by_cases. Qed.
Lemma stats_async p : async_dispatch (compute_stats p) = existsb is_async (program_nodes p).
Proof. apply node_bit; bits_by_cases. Qed.
Lemma stats_atomics p : atomic_op_count (compute_stats p)
  = Z.min U64_MAX (Z.of_nat (length (filter (fun e => is_atomic e = true) (program_exprs p)))).
Proof.
  unfold compute_stats, program_exprs. cbn [atomic_op_count]. rewrite atomics_walk, count_field by (cbn; lia).
  rewrite count_omap. cbn [ws_ir counters_new ic_atomic_op_count]. rewrite Z.add_0_l. do 3 f_equal.
  apply list_filter_iff. by intros [n|e].
Qed.

Lemma stats_kinds p mask :
  has_any_node_kind (compute_stats p) mask = existsb (fun n => has_bit (node_kind n) mask) (program_nodes p).
Proof.
  unfold has_any_node_kind, compute_stats, program_nodes. cbn [node_kinds_present].
  rewrite kinds_walk, mask_field, existsb_omap. apply existsb_ext_all. by intros [n|e].
Qed.

Module Stats.

End Stats.
