(* ===== verification/WireFraming.v ===== *)
(** Framing layer of the wire format ([serial/wire/framing], the LEB128 halves
    of [encode/to_wire.rs] and [decode/from_wire.rs]): primitive writers, the
    bounds-checked [Reader], and the composition rules by which every later
    round-trip proof is assembled from the round trips of its fields. *)

From S2P Require Import Prelude Spec.

(** ** Limits ([serial/wire.rs]) *)

Definition MAX_BUFFERS : Z := 16384.
Definition MAX_NODES : Z := 1000000.
Definition MAX_ARGS : Z := 4096.
Definition MAX_STRING_LEN : Z := 1048576.
Definition MAX_OPAQUE_PAYLOAD_LEN : Z := 4194304.
Definition MAX_DECODE_DEPTH : Z := 64.
Definition MAX_PROGRAM_BYTES : Z := 67108864.

(** [framing/magic.rs] *)
Definition MAGIC : bytes := str_bytes "VYRE".
Definition WIRE_FORMAT_VERSION : Z := 4.

(** ** Diagnostics

    One constructor per family of messages; [Malformed] names the remaining
    one-off diagnostics by their subject. *)
Inductive wire_error :=
| InvalidMagic
| TruncatedVersion
| UnsupportedVersion (found : Z)
| OffsetOverflow
| Truncated
| LenExceedsLimit (label : string) (value max : Z)
| LenExceedsU32 (label : string) (value : Z)
| StringTooLong (len : Z)
| InvalidUtf8
| LebExceedsU64
| LebUnterminated
| LebExceedsU32 (value : Z)
| UnknownTag (kind : string) (tag : Z)
| UnknownVariant (kind : string)
| ReservedExtensionId (kind : string) (id : Z)
| DepthExceeded
| OutOfFuel
| Malformed (what : string).

Abbreviation wire A := (result wire_error A).

(** ** Writers

    An encoder appends to [out: &mut Vec<u8>] or fails. *)
Definition Wr : Type := bytes -> wire bytes.

Definition wnil : Wr := fun out => Ok out.
Definition werr (e : wire_error) : Wr := fun _ => Err e.
Definition wseq (w1 w2 : Wr) : Wr := fun out => out1 ← w1 out; w2 out1.

Declare Scope wire_scope.
Delimit Scope wire_scope with wire.
Notation "w1 ;> w2" := (wseq w1 w2) (at level 99, right associativity) : wire_scope.
#[global] Open Scope wire_scope.

(** [for x in l { put(out, x)? }] *)
Definition wlist {A} (put : A -> Wr) : list A -> Wr :=
  fix go l := match l with [] => wnil | x :: l => put x ;> go l end.

Definition put_raw (l : bytes) : Wr := fun out => Ok (out ++ l).
Definition put_u8 (value : Z) : Wr := put_raw [value].
Definition put_u16 (value : Z) : Wr := put_raw (le_bytes 2 value).
Definition put_u32 (value : Z) : Wr := put_raw (le_bytes 4 value).
Definition put_u64 (value : Z) : Wr := put_raw (le_bytes 8 value).

Definition put_len_u32 (value : Z) (label : string) : Wr :=
  if value <=? U32_MAX then put_u32 value else werr (LenExceedsU32 label value).

Definition put_string (value : string) : Wr :=
  if MAX_STRING_LEN <? blen (str_bytes value) then werr (StringTooLong (blen (str_bytes value)))
  else put_len_u32 (blen (str_bytes value)) "string length" ;> put_raw (str_bytes value).

(** [put_leb_u64]: the [loop] runs once per seven bits, so ten times at most
    on a [u64]; the fuel is that bound. *)
Fixpoint put_leb_loop (fuel : nat) (value : Z) : Wr :=
  match fuel with
  | O => werr OutOfFuel
  | S fuel =>
      let byte := Z.land value 0x7F in
      let value := Z.shiftr value 7 in
      let byte := if value =? 0 then byte else Z.lor byte 0x80 in
      put_u8 byte ;>
      if value =? 0 then wnil else put_leb_loop fuel value
  end.
Definition put_leb_u64 (value : Z) : Wr := put_leb_loop 10 value.
Definition put_leb_u32 (value : Z) : Wr := put_leb_u64 value.
Definition put_leb_str (value : string) : Wr :=
  put_leb_u64 (blen (str_bytes value)) ;> put_raw (str_bytes value).

(** ** The reader *)

Record Reader := mkReader {
  rd_bytes : bytes;
  rd_pos : Z;
  rd_depth : Z;
}.

Definition Rd (A : Type) : Type := Reader -> wire (A * Reader).

#[export] Instance Rd_ret : MRet Rd := fun A x r => Ok (x, r).
#[export] Instance Rd_bind : MBind Rd := fun A B f m r =>
  match m r with Ok (x, r') => f x r' | Err e => Err e end.

Definition rerr {A} (e : wire_error) : Rd A := fun _ => Err e.
Definition rlift {A} (x : wire A) : Rd A := fun r =>
  match x with Ok a => Ok (a, r) | Err e => Err e end.

Definition take (len : Z) : Rd bytes := fun r =>
  let end_ := rd_pos r + len in
  if USIZE_MAX <? end_ then Err OffsetOverflow
  else if blen (rd_bytes r) <? end_ then Err Truncated
  else Ok (firstn (Z.to_nat len) (skipn (Z.to_nat (rd_pos r)) (rd_bytes r)),
           mkReader (rd_bytes r) end_ (rd_depth r)).

Definition read_u8 : Rd Z := l ← take 1; mret (of_le_bytes l).
Definition read_u16 : Rd Z := l ← take 2; mret (of_le_bytes l).
Definition read_u32 : Rd Z := l ← take 4; mret (of_le_bytes l).
Definition read_u64 : Rd Z := l ← take 8; mret (of_le_bytes l).
Definition read_i32 : Rd Z := x ← read_u32; mret (wraps 32 x).

Definition bounded_len (max : Z) (label : string) : Rd Z :=
  value ← read_u32;
  if max <? value then rerr (LenExceedsLimit label value max) else mret value.

Definition from_utf8 (l : bytes) : Rd string :=
  if utf8_valid l then mret (bytes_str l) else rerr InvalidUtf8.

Definition read_string : Rd string :=
  len ← bounded_len MAX_STRING_LEN "string length";
  l ← take len;
  from_utf8 l.

Definition read_bytes (len : Z) : Rd bytes := take len.

Definition expect_magic : Rd unit := fun r =>
  if (blen (rd_bytes r) <? blen MAGIC)
     || negb (bool_decide (firstn 4 (rd_bytes r) = MAGIC)) then Err InvalidMagic
  else if blen (rd_bytes r) <? blen MAGIC + 2 then Err TruncatedVersion
  else
    let version := of_le_bytes (firstn 2 (skipn 4 (rd_bytes r))) in
    if negb (version =? WIRE_FORMAT_VERSION) then Err (UnsupportedVersion version)
    else Ok (tt, mkReader (rd_bytes r) (blen MAGIC + 2) (rd_depth r)).

(** [leb_u64]: [for shift in (0..70).step_by(7)]. *)
Fixpoint leb_loop (shifts : list Z) (acc : Z) : Rd Z :=
  match shifts with
  | [] => rerr LebUnterminated
  | shift :: shifts =>
      byte ← read_u8;
      if (shift =? 63) && (1 <? byte) then rerr LebExceedsU64 else
      let acc := Z.lor acc (wrapu 64 (Z.shiftl (Z.land byte 0x7F) shift)) in
      if Z.land byte 0x80 =? 0 then mret acc else leb_loop shifts acc
  end.
Definition leb_shifts : list Z := [0; 7; 14; 21; 28; 35; 42; 49; 56; 63].
Definition leb_u64 : Rd Z := leb_loop leb_shifts 0.

Definition leb_u32 : Rd Z :=
  value ← leb_u64;
  if value <=? U32_MAX then mret value else rerr (LebExceedsU32 value).

Definition leb_len (max : Z) (label : string) : Rd Z :=
  value ← leb_u64;
  if max <? value then rerr (LenExceedsLimit label value max) else mret value.

Definition leb_string : Rd string :=
  len ← leb_len MAX_STRING_LEN "string length";
  l ← take len;
  from_utf8 l.

(** [for _ in 0..n { v.push(read()?) }] *)
Fixpoint read_n {A} (n : nat) (m : Rd A) : Rd (list A) :=
  match n with
  | O => mret []
  | S n => x ← m; l ← read_n n m; mret (x :: l)
  end.

(** ** Round trips *)

(** [decodes d m enc x]: wherever [enc] sits in a buffer, at recursion depth
    [d], [m] consumes exactly [enc] and returns [x]. *)
Definition decodes {A} (d : Z) (m : Rd A) (enc : bytes) (x : A) : Prop :=
  forall pre post, blen (pre ++ enc ++ post) <= USIZE_MAX ->
    m (mkReader (pre ++ enc ++ post) (blen pre) d)
    = Ok (x, mkReader (pre ++ enc ++ post) (blen pre + blen enc) d).

(** [emits w enc]: [w] appends exactly [enc], whatever is in the buffer. *)
Definition emits (w : Wr) (enc : bytes) : Prop := forall out, w out = Ok (out ++ enc).

(** [rt d w m x]: [w] succeeds, appends only bytes, and [m] reads [x] back. *)
Definition rt {A} (d : Z) (w : Wr) (m : Rd A) (x : A) : Prop :=
  exists enc, emits w enc /\ Forall (inu 8) enc /\ decodes d m enc x.


Lemma emits_nil : emits wnil [].
Proof. intros out. by rewrite app_nil_r. Qed.

Lemma emits_seq w1 w2 e1 e2 : emits w1 e1 -> emits w2 e2 -> emits (w1 ;> w2) (e1 ++ e2).
Proof. intros H1 H2 out. unfold wseq. rewrite H1. cbn. rewrite H2. by rewrite app_assoc. Qed.

Lemma decodes_ret {A} d (x : A) : decodes d (mret x) [] x.
Proof. intros pre post _. cbn. unfold blen at 3. cbn. by rewrite Z.add_0_r. Qed.

Lemma decodes_bind {A B} d (m : Rd A) (k : A -> Rd B) e1 e2 a b :
  decodes d m e1 a -> decodes d (k a) e2 b -> decodes d (m ≫= k) (e1 ++ e2) b.
Proof.
  intros H1 H2 pre post Hlen. unfold mbind, Rd_bind.
  specialize (H1 pre (e2 ++ post)). specialize (H2 (pre ++ e1) post).
  rewrite <- !app_assoc in *. rewrite H1 by done.
  rewrite (blen_app pre e1) in H2. rewrite H2 by done. rewrite blen_app, Z.add_assoc. done.
Qed.

(** *** Composition rules *)

Lemma rt_ret {A} d (x : A) : rt d wnil (mret x) x.
Proof. exists []. split_and!; [apply emits_nil|constructor|apply decodes_ret]. Qed.

Lemma rt_bind {A B} d w1 w2 (m : Rd A) (k : A -> Rd B) a b :
  rt d w1 m a -> rt d w2 (k a) b -> rt d (w1 ;> w2) (m ≫= k) b.
Proof.
  intros (e1 & ? & ? & ?) (e2 & ? & ? & ?). exists (e1 ++ e2).
  split_and!; [by apply emits_seq|by apply Forall_app|by eapply decodes_bind].
Qed.

(** Two writers that append the same bytes, and readers that agree, round trip
    alike. *)
Lemma rt_ext {A} d w w' (m m' : Rd A) x :
  (forall out, w out = w' out) -> (forall r, m r = m' r) -> rt d w m x -> rt d w' m' x.
Proof.
  intros Hw Hm (e & He & Hb & Hd). exists e. split_and!; [|done|].
  - intros out. by rewrite <- Hw.
  - intros pre post Hl. rewrite <- Hm. by apply Hd.
Qed.

Lemma rt_decodes {A} d w (m : Rd A) enc x : rt d w m x -> emits w enc -> decodes d m enc x.
Proof.
  intros (e & He & _ & Hd) He'. specialize (He []). rewrite (He' []) in He. cbn in He.
  injection He as ->. exact Hd.
Qed.

Lemma wseq_nil_r w out : (w ;> wnil) out = w out.
Proof. unfold wseq. by destruct (w out). Qed.

Lemma rt_last {A B} d w (m : Rd A) (k : A -> Rd B) a b :
  rt d w m a -> k a = mret b -> rt d w (m ≫= k) b.
Proof.
  intros Hw Hk. eapply rt_ext; [apply wseq_nil_r|done|].
  eapply rt_bind; [exact Hw|]. rewrite Hk. apply rt_ret.
Qed.

Lemma wseq_assoc w1 w2 w3 out : ((w1 ;> w2) ;> w3) out = (w1 ;> w2 ;> w3) out.
Proof. unfold wseq. destruct (w1 out); cbn; [|done]. by destruct (w2 a). Qed.

Lemma rt_assoc {A} d w1 w2 w3 (m : Rd A) x :
  rt d (w1 ;> w2 ;> w3) m x -> rt d ((w1 ;> w2) ;> w3) m x.
Proof. apply rt_ext; [|done]. intros; by rewrite wseq_assoc. Qed.

(** *** Primitive fields *)

Lemma take_decodes d l : decodes d (take (blen l)) l l.
Proof.
  intros pre post Hlen. unfold take. cbn [rd_pos rd_bytes rd_depth].
  rewrite !blen_app in *. pose proof (blen_nonneg post).
  rewrite (proj2 (Z.ltb_ge _ _)) by lia. rewrite (proj2 (Z.ltb_ge _ _)) by lia.
  unfold blen. rewrite !Nat2Z.id. rewrite drop_app_length, take_app_length. done.
Qed.

Lemma rt_raw d l : Forall (inu 8) l -> rt d (put_raw l) (take (blen l)) l.
Proof. intros. exists l. split_and!; [done|done|apply take_decodes]. Qed.

Lemma rt_le d n x :
  0 <= x < 256 ^ Z.of_nat n ->
  rt d (put_raw (le_bytes n x)) (l ← take (Z.of_nat n); mret (of_le_bytes l)) x.
Proof.
  intros Hx. eapply rt_last.
  - rewrite <- (blen_le_bytes n x). apply rt_raw, le_bytes_range.
  - cbn. by rewrite of_le_bytes_le_bytes, Z.mod_small.
Qed.

Lemma rt_u8 d x : inu 8 x -> rt d (put_u8 x) read_u8 x.
Proof.
  intros Hx. replace (put_u8 x) with (put_raw (le_bytes 1 x)).
  - apply (rt_le d 1). width_lia.
  - unfold put_u8. cbn. rewrite Z.mod_small; [done|width_lia].
Qed.
Lemma rt_u16 d x : inu 16 x -> rt d (put_u16 x) read_u16 x.
Proof. intros. apply (rt_le d 2). width_lia. Qed.
Lemma rt_u32 d x : inu 32 x -> rt d (put_u32 x) read_u32 x.
Proof. intros. apply (rt_le d 4). width_lia. Qed.
Lemma rt_u64 d x : inu 64 x -> rt d (put_u64 x) read_u64 x.
Proof. intros. apply (rt_le d 8). width_lia. Qed.
Lemma rt_i32 d x : ins 32 x -> rt d (put_u32 (wrapu 32 x)) read_i32 x.
Proof.
  intros Hx. eapply rt_last; [apply rt_u32, wrapu_range; lia|].
  rewrite wraps_wrapu, wraps_id by (lia || done). done.
Qed.

Lemma rt_bounded_len d n max label label' :
  0 <= n <= max -> max <= U32_MAX -> rt d (put_len_u32 n label) (bounded_len max label') n.
Proof.
  intros ??. unfold put_len_u32. rewrite (proj2 (Z.leb_le _ _)) by lia.
  eapply rt_last; [apply rt_u32; width_lia|].
  cbn. rewrite (proj2 (Z.ltb_ge _ _)) by lia. done.
Qed.

Lemma put_len_u32_small n label : n <= U32_MAX -> put_len_u32 n label = put_u32 n.
Proof. intros. unfold put_len_u32. by rewrite (proj2 (Z.leb_le _ _)). Qed.

Lemma from_utf8_str d s : str_ok s = true -> decodes d (from_utf8 (str_bytes s)) [] s.
Proof.
  intros Hs. unfold from_utf8. unfold str_ok in Hs. rewrite Hs, bytes_str_str_bytes.
  apply decodes_ret.
Qed.

(** A name the wire format can carry. *)
Definition wire_str (s : string) : Prop :=
  str_ok s = true /\ blen (str_bytes s) <= MAX_STRING_LEN.

Lemma rt_str_body d s :
  str_ok s = true -> rt d (put_raw (str_bytes s)) (l ← take (blen (str_bytes s)); from_utf8 l) s.
Proof.
  intros Hs. eapply rt_last; [apply rt_raw, str_bytes_range|].
  unfold from_utf8. unfold str_ok in Hs. by rewrite Hs, bytes_str_str_bytes.
Qed.

Lemma rt_string d s : wire_str s -> rt d (put_string s) read_string s.
Proof.
  intros [Hs Hl]. unfold put_string. rewrite (proj2 (Z.ltb_ge _ _)) by lia.
  pose proof (blen_nonneg (str_bytes s)). unfold MAX_STRING_LEN in Hl.
  eapply rt_bind; [apply rt_bounded_len; unfold MAX_STRING_LEN; lia|]. by apply rt_str_body.
Qed.

Lemma rt_list_map {A B} d (put : A -> Wr) (m : Rd B) (f : A -> B) l :
  Forall (fun x => rt d (put x) m (f x)) l ->
  rt d (wlist put l) (read_n (length l) m) (map f l).
Proof.
  induction 1 as [|x l Hx Hl IH]; cbn; [apply rt_ret|].
  eapply rt_bind; [exact Hx|]. by eapply rt_last.
Qed.

Lemma rt_list {A} d (put : A -> Wr) (m : Rd A) l :
  Forall (fun x => rt d (put x) m x) l -> rt d (wlist put l) (read_n (length l) m) l.
Proof. intros H. rewrite <- (map_id l) at 3. by apply rt_list_map. Qed.

(** *** LEB128 *)

Lemma land_7f v : Z.land v 0x7F = v mod 128.
Proof. apply (land_mask 7). lia. Qed.

Lemma lor_0x80 b : 0 <= b < 128 -> Z.lor b 0x80 = b + 128.
Proof. intros. apply (lor_shiftl_disjoint b 1 7); lia. Qed.

Lemma land_0x80 b : inu 8 b -> (Z.land b 0x80 =? 0) = (b <? 128).
Proof.
  intros Hb. apply eqb_true_iff.
  by apply (byte_forall (fun b => Bool.eqb (Z.land b 0x80 =? 0) (b <? 128))).
Qed.

(** The shifts the reader has left when [n] iterations remain. *)
Fixpoint leb_shifts_from (n : nat) : list Z :=
  match n with
  | O => []
  | S n' => 70 - 7 * Z.of_nat n :: leb_shifts_from n'
  end.

Lemma leb_acc acc b s :
  0 <= s <= 56 \/ s = 63 /\ b <= 1 -> 0 <= acc < 2 ^ s -> 0 <= b < 128 ->
  Z.lor acc (wrapu 64 (Z.shiftl b s)) = acc + b * 2 ^ s.
Proof.
  intros Hs Ha Hb.
  assert (wrapu 64 (Z.shiftl b s) = Z.shiftl b s) as ->.
  { apply wrapu_id. unfold inu. rewrite Z.shiftl_mul_pow2 by lia.
    destruct Hs as [Hs|[-> ?]]; [|lia]. pose proof (Z.pow_le_mono_r 2 s 56). nia. }
  apply lor_shiftl_disjoint; lia.
Qed.

Lemma rt_leb_loop d n v acc :
  (1 <= n <= 10)%nat -> 0 <= v < 2 ^ (7 * Z.of_nat n - 6) ->
  0 <= acc < 2 ^ (70 - 7 * Z.of_nat n) ->
  rt d (put_leb_loop n v) (leb_loop (leb_shifts_from n) acc)
       (acc + v * 2 ^ (70 - 7 * Z.of_nat n)).
Proof.
  revert v acc; induction n as [|n IH]; intros v acc Hn Hv Ha; [lia|].
  cbn [put_leb_loop leb_loop leb_shifts_from].
  set (s := 70 - 7 * Z.of_nat (S n)) in *.
  rewrite land_7f. change 128 with (2 ^ 7). rewrite Z.shiftr_div_pow2 by lia.
  change (2 ^ 7) with 128.
  pose proof (Z.div_mod v 128 ltac:(lia)) as Hdm.
  pose proof (Z.mod_pos_bound v 128 ltac:(lia)) as Hm.
  assert (Hs : 0 <= s <= 56 \/ s = 63 /\ v <= 1).
  { destruct n; [right|left; lia]. split; [lia|]. cbn in Hv. lia. }
  destruct (Z.eqb_spec (v / 128) 0) as [Hz|Hz].
  - eapply rt_bind; [apply rt_u8; width_lia|]. cbv beta.
    rewrite (proj2 (andb_false_iff _ _))
      by (destruct Hs; [left; apply Z.eqb_neq|right; apply Z.ltb_ge]; lia).
    rewrite land_0x80 by width_lia. rewrite (proj2 (Z.ltb_lt _ _)) by lia.
    rewrite land_7f, Z.mod_mod, leb_acc by lia.
    replace (v mod 128) with v by lia. apply rt_ret.
  - assert (Hn1 : (1 <= n)%nat). { destruct n; [cbn in Hv|]; lia. }
    assert (Hs' : 0 <= s <= 56) by lia.
    rewrite lor_0x80 by lia.
    eapply rt_bind; [apply rt_u8; width_lia|]. cbv beta.
    rewrite (proj2 (andb_false_iff _ _)) by (left; apply Z.eqb_neq; lia).
    rewrite land_0x80 by width_lia.
    rewrite (proj2 (Z.ltb_ge _ _)) by lia.
    rewrite land_7f. replace ((v mod 128 + 128) mod 128) with (v mod 128)
      by (rewrite <- (Z.mul_1_l 128) at 3; rewrite Z.mod_add, Z.mod_mod; lia).
    rewrite leb_acc by lia.
    assert (Hp : 2 ^ (70 - 7 * Z.of_nat n) = 128 * 2 ^ s).
    { replace (70 - 7 * Z.of_nat n) with (7 + s) by lia. rewrite Z.pow_add_r by lia. done. }
    replace (acc + v * 2 ^ s)
      with (acc + v mod 128 * 2 ^ s + v / 128 * 2 ^ (70 - 7 * Z.of_nat n)) by (rewrite Hp; nia).
    apply IH; [lia| |rewrite Hp; nia].
    split; [apply Z.div_pos; lia|]. apply Z.div_lt_upper_bound; [lia|].
    change 128 with (2 ^ 7). rewrite <- Z.pow_add_r by lia.
    replace (7 + (7 * Z.of_nat n - 6)) with (7 * Z.of_nat (S n) - 6) by lia. lia.
Qed.

Lemma rt_leb_u64 d x : inu 64 x -> rt d (put_leb_u64 x) leb_u64 x.
Proof.
  intros Hx. pose proof (rt_leb_loop d 10 x 0) as H. cbn [Z.of_nat] in H.
  rewrite Z.add_0_l, Z.mul_1_r in H. apply H; [lia|width_lia|lia].
Qed.

Lemma rt_leb_u32 d x : inu 32 x -> rt d (put_leb_u32 x) leb_u32 x.
Proof.
  intros Hx. eapply rt_last; [apply rt_leb_u64; width_lia|].
  cbn. rewrite (proj2 (Z.leb_le _ _)) by width_lia. done.
Qed.

Lemma rt_leb_len d x max label : 0 <= x <= max -> max <= U64_MAX ->
  rt d (put_leb_u64 x) (leb_len max label) x.
Proof.
  intros ??. eapply rt_last; [apply rt_leb_u64; width_lia|].
  cbn. rewrite (proj2 (Z.ltb_ge _ _)) by lia. done.
Qed.

Lemma rt_leb_string d s : wire_str s -> rt d (put_leb_str s) leb_string s.
Proof.
  intros [Hs Hl]. pose proof (blen_nonneg (str_bytes s)). unfold MAX_STRING_LEN in Hl.
  eapply rt_bind; [apply rt_leb_len; unfold MAX_STRING_LEN; lia|]. by apply rt_str_body.
Qed.

(** ** What readers guarantee

    [triple P m Q]: from a reader in [P], [m] either fails with a genuine
    diagnostic (never for want of fuel) or returns a value and a reader in [Q].
    [yields P m φ]: [m] keeps [P], and what it returns satisfies [φ]. *)
Definition triple {A} (P : Reader -> Prop) (m : Rd A) (Q : A -> Reader -> Prop) : Prop :=
  forall r, P r -> match m r with Ok (x, r') => Q x r' | Err e => e <> OutOfFuel end.
Definition yields {A} (P : Reader -> Prop) (m : Rd A) (φ : A -> Prop) : Prop :=
  triple P m (fun x r => P r /\ φ x).

Lemma triple_bind {A B} P Q R (m : Rd A) (k : A -> Rd B) :
  triple P m Q -> (forall x, triple (Q x) (k x) R) -> triple P (m ≫= k) R.
Proof.
  intros Hm Hk r Hr. specialize (Hm r Hr). unfold mbind, Rd_bind.
  destruct (m r) as [[x r']|e]; [by apply Hk|done].
Qed.
Lemma yields_ret {A} P (x : A) (φ : A -> Prop) : φ x -> yields P (mret x) φ.
Proof. by intros Hx r Hr. Qed.
Lemma yields_err {A} P e (φ : A -> Prop) : e <> OutOfFuel -> yields P (rerr e) φ.
Proof. by intros He r _. Qed.
Lemma triple_yields {A B} P Q (m : Rd A) (k : A -> Rd B) (φ : A -> Prop) (ψ : B -> Prop) :
  triple P m (fun x r => Q r /\ φ x) -> (forall x, φ x -> yields Q (k x) ψ) ->
  triple P (m ≫= k) (fun x r => Q r /\ ψ x).
Proof. intros Hm Hk. eapply triple_bind; [exact Hm|]. intros x r [Hr Hx]. by apply Hk. Qed.
Lemma yields_bind {A B} P (m : Rd A) (k : A -> Rd B) φ ψ :
  yields P m φ -> (forall x, φ x -> yields P (k x) ψ) -> yields P (m ≫= k) ψ.
Proof. apply triple_yields. Qed.
Lemma yields_mono {A} P (m : Rd A) (φ ψ : A -> Prop) :
  yields P m φ -> (forall x, φ x -> ψ x) -> yields P m ψ.
Proof. intros Hm HQ r Hr. specialize (Hm r Hr). destruct (m r) as [[x r']|e]; naive_solver. Qed.
Lemma yields_lift {A} P (x : wire A) (φ : A -> Prop) :
  x <> Err OutOfFuel -> (forall a, x = Ok a -> φ a) -> yields P (rlift x) φ.
Proof. intros Hx Hφ r Hr. unfold rlift. destruct x; [auto|congruence]. Qed.
Lemma yields_read_n {A} P n (m : Rd A) φ :
  yields P m φ -> yields P (read_n n m) (fun l => Forall φ l /\ length l = n).
Proof.
  intros Hm. induction n as [|n IH]; cbn; [by apply yields_ret|].
  eapply yields_bind; [exact Hm|]. intros x Hx. eapply yields_bind; [exact IH|].
  intros l [Hl <-]. apply yields_ret. split; [by constructor|done].
Qed.

(** The reader's invariant: a buffer of bytes, a position inside it, and the
    recursion depth of the current call. *)
Definition at_depth (d : Z) (r : Reader) : Prop :=
  Forall (inu 8) (rd_bytes r) /\ 0 <= rd_pos r <= blen (rd_bytes r) /\ rd_depth r = d.

(** Assertions that reading ahead preserves; every primitive reader is
    specified against this interface. *)
Class Steady (P : Reader -> Prop) : Prop :=
  steady_take : forall k, 0 <= k ->
    yields P (take k) (fun l => Forall (inu 8) l /\ blen l = k).

Lemma take_slice k r : 0 <= k -> at_depth (rd_depth r) r ->
  match take k r with
  | Ok (l, r') => r' = mkReader (rd_bytes r) (rd_pos r + k) (rd_depth r)
                  /\ rd_pos r + k <= blen (rd_bytes r) /\ Forall (inu 8) l /\ blen l = k
  | Err e => e <> OutOfFuel
  end.
Proof.
  intros Hk (Hb & Hp & _). unfold take.
  destruct (USIZE_MAX <? _); [discriminate|].
  destruct (Z.ltb_spec (blen (rd_bytes r)) (rd_pos r + k)); [discriminate|]. split_and!; [done|done|by apply Forall_take, Forall_drop|].
  unfold blen in *. rewrite length_take, length_drop. lia.
Qed.

#[export] Instance at_depth_steady d : Steady (at_depth d).
Proof.
  intros k Hk r Hr. pose proof (take_slice k r Hk) as H. unfold at_depth in *.
  destruct Hr as (Hb & Hp & <-).
  destruct (take k r) as [[l r']|e]; [|by apply H].
  destruct H as (-> & ? & ? & ?); [done|]. cbn. split_and!; auto; lia.
Qed.

Section Steady.
Context (P : Reader -> Prop) `{!Steady P}.

Lemma yields_le n : yields P (l ← take (Z.of_nat n); mret (of_le_bytes l))
                           (fun x => 0 <= x < 256 ^ Z.of_nat n).
Proof.
  eapply yields_bind; [apply steady_take; lia|]. intros l [Hl Hn]. apply yields_ret.
  pose proof (of_le_bytes_bound l Hl). unfold blen in Hn. by rewrite Hn in *.
Qed.
Lemma yields_u8 : yields P read_u8 (inu 8).
Proof. eapply yields_mono; [apply (yields_le 1)|]. cbn. intros; width_lia. Qed.
Lemma yields_u16 : yields P read_u16 (inu 16).
Proof. eapply yields_mono; [apply (yields_le 2)|]. cbn. intros; width_lia. Qed.
Lemma yields_u32 : yields P read_u32 (inu 32).
Proof. eapply yields_mono; [apply (yields_le 4)|]. cbn. intros; width_lia. Qed.
Lemma yields_u64 : yields P read_u64 (inu 64).
Proof. eapply yields_mono; [apply (yields_le 8)|]. cbn. intros; width_lia. Qed.
Lemma yields_i32 : yields P read_i32 (ins 32).
Proof.
  eapply yields_bind; [apply yields_u32|]. intros x _. apply yields_ret, wraps_range. lia.
Qed.
Lemma yields_bounded_len max label : yields P (bounded_len max label) (fun n => 0 <= n <= max).
Proof.
  eapply yields_bind; [apply yields_u32|]. intros x Hx.
  destruct (Z.ltb_spec max x); [by apply yields_err|apply yields_ret; width_lia].
Qed.
Lemma yields_utf8 l : Forall (inu 8) l ->
  yields P (from_utf8 l) (fun s => str_ok s = true /\ str_bytes s = l).
Proof.
  intros Hl. unfold from_utf8. destruct (utf8_valid l) eqn:E; [|by apply yields_err].
  apply yields_ret. unfold str_ok. by rewrite str_bytes_bytes_str.
Qed.
Lemma yields_string : yields P read_string wire_str.
Proof.
  eapply yields_bind; [apply yields_bounded_len|]. intros n [Hn Hmax].
  eapply yields_bind; [apply steady_take; lia|]. intros l [Hl Hk].
  eapply yields_mono; [by apply yields_utf8|]. intros s [Hs <-]. split; [done|lia].
Qed.
Lemma yields_leb_loop n acc :
  (n <= 10)%nat -> 0 <= acc < 2 ^ (70 - 7 * Z.of_nat n) ->
  yields P (leb_loop (leb_shifts_from n) acc) (inu 64).
Proof.
  revert acc; induction n as [|n IH]; intros acc Hn Ha;
    cbn [leb_loop leb_shifts_from]; [by apply yields_err|].
  set (s := 70 - 7 * Z.of_nat (S n)) in *.
  eapply yields_bind; [apply yields_u8|]. intros b Hb. cbv beta in Hb.
  destruct ((s =? 63) && (1 <? b)) eqn:Es; [by apply yields_err|].
  assert (0 <= Z.land b 0x7F < 128) by (rewrite land_7f; apply Z.mod_pos_bound; lia).
  assert (Hs : 0 <= s <= 56 \/ s = 63 /\ Z.land b 0x7F <= 1).
  { destruct n; [right|left; lia]. split; [lia|]. replace s with 63 in Es by lia.
    cbn in Es. apply Z.ltb_ge in Es. rewrite land_7f, Z.mod_small; width_lia. }
  rewrite leb_acc by lia. set (acc' := acc + _).
  assert (0 <= acc' < 2 ^ (70 - 7 * Z.of_nat n)) as Ha'.
  { replace (70 - 7 * Z.of_nat n) with (s + 7) by lia. rewrite Z.pow_add_r by lia.
    subst acc'. nia. }
  case_match; [|by apply IH; [lia|]]. apply yields_ret. unfold inu.
  destruct Hs as [Hs|[Hs Hb1]].
  - pose proof (Z.pow_le_mono_r 2 (70 - 7 * Z.of_nat n) 64). lia.
  - subst acc'. rewrite Hs in *. lia.
Qed.
Lemma yields_leb_u64 : yields P leb_u64 (inu 64).
Proof. apply (yields_leb_loop 10 0); cbn; lia. Qed.
Lemma yields_leb_u32 : yields P leb_u32 (inu 32).
Proof.
  eapply yields_bind; [apply yields_leb_u64|]. intros x Hx.
  destruct (Z.leb_spec x U32_MAX); [apply yields_ret; width_lia|by apply yields_err].
Qed.
Lemma yields_leb_len max label : yields P (leb_len max label) (fun n => 0 <= n <= max).
Proof.
  eapply yields_bind; [apply yields_leb_u64|]. intros x Hx.
  destruct (Z.ltb_spec max x); [by apply yields_err|apply yields_ret; width_lia].
Qed.
Lemma yields_leb_string : yields P leb_string wire_str.
Proof.
  eapply yields_bind; [apply yields_leb_len|]. intros n [Hn Hmax].
  eapply yields_bind; [apply steady_take; lia|]. intros l [Hl Hk].
  eapply yields_mono; [by apply yields_utf8|]. intros s [Hs <-]. split; [done|lia].
Qed.
Lemma yields_bytes n : 0 <= n ->
  yields P (read_bytes n) (fun l => Forall (inu 8) l /\ blen l = n).
Proof. apply steady_take. Qed.
End Steady.

#[global] Arguments put_leb_u64 : simpl never.
#[global] Arguments leb_u64 : simpl never.

(** ** Automation

    [rt_auto] walks a writer and a reader field by field; the hint database
    [wire] holds the round trips of the fields. *)
Create HintDb wire.
#[export] Hint Resolve rt_ret rt_u8 rt_u16 rt_u32 rt_u64 rt_i32 rt_string rt_leb_u64 rt_leb_u32
  rt_leb_string : wire.
#[export] Hint Extern 2 (inu _ _) => width_lia : wire.
#[export] Hint Extern 2 (ins _ _) => width_lia : wire.
#[export] Hint Extern 2 (_ <= _)%nat => lia : wire.
#[export] Hint Extern 2 (_ <= _ <= _) =>
  (split; [first [apply blen_nonneg | width_lia] | width_lia]) : wire.
#[export] Hint Extern 3 (_ /\ _) => (repeat split; assumption) : wire.

Ltac rt_step :=
  lazymatch goal with
  | |- rt _ ((_ ;> _) ;> _) _ _ => apply rt_assoc
  | |- rt _ wnil (mret _) _ => apply rt_ret
  | |- rt _ (_ ;> _) (_ ≫= _) _ => eapply rt_bind; [solve [eauto with wire]|cbv beta iota]
  | |- rt _ _ (_ ≫= _) _ => eapply rt_last; [solve [eauto with wire]|try reflexivity]
  end.
Ltac rt_auto := repeat rt_step.

Create HintDb yields.
#[export] Hint Resolve yields_u8 yields_u16 yields_u32 yields_u64 yields_i32 yields_string
  yields_bounded_len yields_read_n yields_leb_u64 yields_leb_u32 yields_leb_len yields_leb_string
  : yields.
#[export] Hint Extern 1 (yields _ (rerr _) _) => (apply yields_err; discriminate) : yields.

(** Splits a reader into its steps, collecting what each step guarantees. *)
Ltac yields_step :=
  lazymatch goal with
  | |- yields _ (mret _) _ => apply yields_ret
  | |- yields _ (_ ≫= _) _ =>
      eapply yields_bind; [solve [eauto with yields typeclass_instances]|intros ? ?; cbv beta in *]
  | |- yields _ _ _ => first [solve [eauto with yields typeclass_instances] | case_match]
  end.
Ltac yields_auto := repeat yields_step.

(** Discharges a rejected branch: [if bad then Err .. else ..]. *)
Ltac yields_guard :=
  lazymatch goal with
  | |- yields _ (if ?b then rerr _ else _) _ =>
      let E := fresh "Eguard" in destruct b eqn:E; [apply yields_err; discriminate|]
  end.

Module Leb.
(** LEB128 integers are exact over the whole of [u64]: the writer's loop stops
    within ten bytes for every 64-bit value, what it appends are bytes, and the
    reader consumes exactly those bytes, wherever they sit in a buffer, and returns
    the value; the reader never returns a value that does not fit 64 bits. *)
Theorem leb_u64_exact (x : Z) (Hx : inu 64 x) :
  (exists enc, emits (put_leb_u64 x) enc /\ Forall (inu 8) enc
     /\ forall d, decodes d leb_u64 enc x)
  /\ forall r y r', leb_u64 r = Ok (y, r') -> at_depth (rd_depth r) r -> inu 64 y.
Proof.
  split.
  - destruct (rt_leb_u64 0 x Hx) as (enc & He & Hb & _). exists enc. split_and!; [done..|].
    intros d. destruct (rt_leb_u64 d x Hx) as (enc' & He' & _ & Hd).
    specialize (He []). specialize (He' []). rewrite He in He'. by injection He' as ->.
  - intros r y r' Hr Hd. pose proof (yields_leb_u64 (at_depth (rd_depth r)) r Hd) as H.
    rewrite Hr in H. apply H.
Qed.
Lemma leb_u64_exact_witness :
  inu 64 U64_MAX /\ exists enc, emits (put_leb_u64 U64_MAX) enc /\ Forall (inu 8) enc
     /\ forall d, decodes d leb_u64 enc U64_MAX.
Proof. split; [unfold inu; lia|]. apply (leb_u64_exact U64_MAX). unfold inu; lia. Defined.
End Leb.
