(* ===== verification/WireTags.v ===== *)
(** Tag tables and data-type payloads of the wire format
    ([serial/wire/tags], [Reader::data_type] and the quantization readers of
    [decode/impl_reader.rs]). *)

From S2P Require Import Prelude Spec IR WireFraming.

(** ** Operator tags ([tags/op_tag_decode.rs]) *)

Definition ATOMIC_OP_TAGS : list (Z * AtomicOp) :=
  [ (0x01, AtomicOp.Add); (0x02, AtomicOp.Or); (0x03, AtomicOp.And); (0x04, AtomicOp.Xor);
    (0x05, AtomicOp.Min); (0x06, AtomicOp.Max); (0x07, AtomicOp.Exchange);
    (0x08, AtomicOp.CompareExchange); (0x09, AtomicOp.CompareExchangeWeak);
    (0x0A, AtomicOp.FetchNand); (0x0B, AtomicOp.LruUpdate) ].

Definition BIN_OP_TAGS : list (Z * BinOp) :=
  [ (0x01, BinOp.Add); (0x02, BinOp.Sub); (0x03, BinOp.Mul); (0x04, BinOp.Div);
    (0x05, BinOp.Mod); (0x06, BinOp.BitAnd); (0x07, BinOp.BitOr); (0x08, BinOp.BitXor);
    (0x09, BinOp.Shl); (0x0A, BinOp.Shr); (0x0B, BinOp.Eq); (0x0C, BinOp.Ne);
    (0x0D, BinOp.Lt); (0x0E, BinOp.Gt); (0x0F, BinOp.Le); (0x10, BinOp.Ge);
    (0x11, BinOp.And); (0x12, BinOp.Or); (0x13, BinOp.AbsDiff); (0x14, BinOp.Min);
    (0x15, BinOp.Max); (0x16, BinOp.SaturatingAdd); (0x17, BinOp.SaturatingSub);
    (0x18, BinOp.SaturatingMul); (0x19, BinOp.Shuffle); (0x1A, BinOp.Ballot);
    (0x1B, BinOp.WaveReduce); (0x1C, BinOp.WaveBroadcast); (0x1D, BinOp.RotateLeft);
    (0x1E, BinOp.RotateRight); (0x1F, BinOp.WrappingAdd); (0x20, BinOp.WrappingSub);
    (0x21, BinOp.MulHigh) ].

Definition UN_OP_TAGS : list (Z * UnOp) :=
  [ (0x01, UnOp.Negate); (0x02, UnOp.BitNot); (0x03, UnOp.LogicalNot); (0x04, UnOp.Popcount);
    (0x05, UnOp.Clz); (0x06, UnOp.Ctz); (0x07, UnOp.ReverseBits); (0x08, UnOp.Cos);
    (0x09, UnOp.Sin); (0x0A, UnOp.Abs); (0x0B, UnOp.Sqrt); (0x0C, UnOp.Floor);
    (0x0D, UnOp.Ceil); (0x0E, UnOp.Round); (0x0F, UnOp.Trunc); (0x10, UnOp.Sign);
    (0x11, UnOp.IsNan); (0x12, UnOp.IsInf); (0x13, UnOp.IsFinite); (0x14, UnOp.Exp);
    (0x15, UnOp.Log); (0x16, UnOp.Log2); (0x17, UnOp.Exp2); (0x18, UnOp.Tan);
    (0x19, UnOp.Acos); (0x1A, UnOp.Asin); (0x1B, UnOp.Atan); (0x1C, UnOp.Tanh);
    (0x1D, UnOp.Sinh); (0x1E, UnOp.Cosh); (0x1F, UnOp.InverseSqrt); (0x20, UnOp.Unpack4Low);
    (0x21, UnOp.Unpack4High); (0x22, UnOp.Unpack8Low); (0x23, UnOp.Unpack8High);
    (0x24, UnOp.Reciprocal) ].

(** [find_tag]: first entry whose operator equals [value]. *)
Fixpoint find_tag {T} `{EqDecision T} (value : T) (table : list (Z * T)) : option Z :=
  match table with
  | [] => None
  | (tag, candidate) :: table =>
      if decide (candidate = value) then Some tag else find_tag value table
  end.

Definition encode_tag {T} `{EqDecision T} (value : T) (table : list (Z * T)) (kind : string)
  : wire Z := ok_or (find_tag value table) (UnknownVariant kind).

Fixpoint find_value {T} (tag : Z) (table : list (Z * T)) : option T :=
  match table with
  | [] => None
  | (candidate, value) :: table => if candidate =? tag then Some value else find_value tag table
  end.

Definition decode_tag {T} (tag : Z) (table : list (Z * T)) (kind : string) : wire T :=
  ok_or (find_value tag table) (UnknownTag kind tag).

Definition bin_op_tag (op : BinOp) : wire Z := encode_tag op BIN_OP_TAGS "BinOp".
Definition un_op_tag (op : UnOp) : wire Z := encode_tag op UN_OP_TAGS "UnOp".
Definition atomic_op_tag (op : AtomicOp) : wire Z := encode_tag op ATOMIC_OP_TAGS "AtomicOp".
Definition bin_op_from_tag (tag : Z) : wire BinOp := decode_tag tag BIN_OP_TAGS "binary".
Definition un_op_from_tag (tag : Z) : wire UnOp := decode_tag tag UN_OP_TAGS "unary".
Definition atomic_op_from_tag (tag : Z) : wire AtomicOp := decode_tag tag ATOMIC_OP_TAGS "atomic".

(** ** Buffer access tags *)

Definition access_tag (a : BufferAccess) : Z :=
  match a with
  | BufferAccess.ReadOnly => 0
  | BufferAccess.ReadWrite => 1
  | BufferAccess.Uniform => 2
  | BufferAccess.Workgroup => 3
  | BufferAccess.WriteOnly => 4
  end.

Definition access_from_tag (tag : Z) : wire BufferAccess :=
  match tag with
  | 0 => Ok BufferAccess.ReadOnly
  | 1 => Ok BufferAccess.ReadWrite
  | 2 => Ok BufferAccess.Uniform
  | 3 => Ok BufferAccess.Workgroup
  | 4 => Ok BufferAccess.WriteOnly
  | _ => Err (UnknownTag "buffer access" tag)
  end.

(** ** Data types *)

Definition DATA_TYPE_TAG_OPAQUE : Z := 0x80.

Definition data_type_tag (t : DataType) : Z :=
  match t with
  | DataType.U32 => 0x01 | DataType.I32 => 0x02 | DataType.U64 => 0x03
  | DataType.Vec2U32 => 0x04 | DataType.Vec4U32 => 0x05 | DataType.Bool => 0x06
  | DataType.Bytes => 0x07 | DataType.Array _ => 0x08 | DataType.F16 => 0x09
  | DataType.BF16 => 0x0A | DataType.F32 => 0x0B | DataType.F64 => 0x0C
  | DataType.Tensor => 0x0D | DataType.U8 => 0x0E | DataType.U16 => 0x0F
  | DataType.I8 => 0x10 | DataType.I16 => 0x11 | DataType.I64 => 0x12
  | DataType.Handle _ => 0x13 | DataType.Vec _ _ => 0x14 | DataType.TensorShaped _ _ => 0x15
  | DataType.SparseCsr _ => 0x16 | DataType.SparseCoo _ => 0x17
  | DataType.SparseBsr _ _ _ => 0x18 | DataType.F8E4M3 => 0x19 | DataType.F8E5M2 => 0x1A
  | DataType.I4 => 0x1B | DataType.FP4 => 0x1C | DataType.NF4 => 0x1D
  | DataType.DeviceMesh _ => 0x1E | DataType.Quantized _ _ _ => 0x1F
  | DataType.Opaque _ => DATA_TYPE_TAG_OPAQUE
  end.

Definition put_quantization_scale (scale : QuantizationScale) : Wr :=
  match scale with
  | QuantizationScale.PerTensor => put_u8 0 ;> put_u32 0
  | QuantizationScale.PerChannel axis => put_u8 1 ;> put_u32 axis
  | QuantizationScale.PerGroup group_size =>
      if group_size =? 0 then werr (Malformed "PerGroup scale group_size")
      else put_u8 2 ;> put_u32 group_size
  end.

Definition put_quantization_zero_point (zero_point : QuantizationZeroPoint) : Wr :=
  match zero_point with
  | QuantizationZeroPoint.Absent => put_u8 0 ;> put_u32 0
  | QuantizationZeroPoint.PerTensor => put_u8 1 ;> put_u32 0
  | QuantizationZeroPoint.PerChannel axis => put_u8 2 ;> put_u32 axis
  | QuantizationZeroPoint.PerGroup group_size =>
      if group_size =? 0 then werr (Malformed "PerGroup zero-point group_size")
      else put_u8 3 ;> put_u32 group_size
  end.

Fixpoint put_data_type (value : DataType) : Wr :=
  put_u8 (data_type_tag value) ;>
  match value with
  | DataType.Array element_size => put_len_u32 element_size "array element_size"
  | DataType.Opaque id => put_u32 id
  | DataType.Handle id => put_u32 id
  | DataType.Vec element count => put_data_type element ;> put_u8 count
  | DataType.TensorShaped element shape =>
      put_data_type element ;> put_len_u32 (blen shape) "tensor shape rank" ;>
      wlist put_u32 shape
  | DataType.SparseCsr element | DataType.SparseCoo element => put_data_type element
  | DataType.SparseBsr element block_rows block_cols =>
      put_data_type element ;> put_u32 block_rows ;> put_u32 block_cols
  | DataType.DeviceMesh axes =>
      put_len_u32 (blen axes) "device-mesh axes count" ;> wlist put_u32 axes
  | DataType.Quantized storage scale zero_point =>
      if negb (DataType.is_quantized_storage storage) then werr (Malformed "Quantized storage")
      else put_data_type storage ;> put_quantization_scale scale ;>
           put_quantization_zero_point zero_point
  | _ => wnil
  end.

Definition data_type_from_tag (tag : Z) : wire DataType :=
  match tag with
  | 0x01 => Ok DataType.U32 | 0x02 => Ok DataType.I32 | 0x03 => Ok DataType.U64
  | 0x04 => Ok DataType.Vec2U32 | 0x05 => Ok DataType.Vec4U32 | 0x06 => Ok DataType.Bool
  | 0x07 => Ok DataType.Bytes
  | 0x08 => Err (Malformed "array tag requires payload")
  | 0x09 => Ok DataType.F16 | 0x0A => Ok DataType.BF16 | 0x0B => Ok DataType.F32
  | 0x0C => Ok DataType.F64 | 0x0D => Ok DataType.Tensor | 0x0E => Ok DataType.U8
  | 0x0F => Ok DataType.U16 | 0x10 => Ok DataType.I8 | 0x11 => Ok DataType.I16
  | 0x12 => Ok DataType.I64
  | 0x13 => Err (Malformed "handle tag requires payload")
  | 0x14 => Err (Malformed "vector tag requires payload")
  | 0x15 => Err (Malformed "shaped tensor tag requires payload")
  | 0x16 => Err (Malformed "sparse-CSR tag requires payload")
  | 0x17 => Err (Malformed "sparse-COO tag requires payload")
  | 0x18 => Err (Malformed "sparse-BSR tag requires payload")
  | 0x19 => Ok DataType.F8E4M3 | 0x1A => Ok DataType.F8E5M2 | 0x1B => Ok DataType.I4
  | 0x1C => Ok DataType.FP4 | 0x1D => Ok DataType.NF4
  | 0x1E => Err (Malformed "device-mesh tag requires payload")
  | 0x1F => Err (Malformed "quantized tag requires payload")
  | 0x80 => Err (Malformed "opaque data type tag requires payload")
  | _ => Err (UnknownTag "data type" tag)
  end.

(** [reject_reserved_extension_id] *)
Definition reject_reserved_extension_id (raw : Z) (surface : string) : wire Z :=
  if Z.land raw 0x80000000 =? 0 then Err (ReservedExtensionId surface raw) else Ok raw.

Definition read_quantization_scale : Rd QuantizationScale :=
  tag ← read_u8;
  param ← read_u32;
  match tag with
  | 0 => if negb (param =? 0) then rerr (Malformed "PerTensor scale payload")
         else mret QuantizationScale.PerTensor
  | 1 => mret (QuantizationScale.PerChannel param)
  | 2 => if param =? 0 then rerr (Malformed "PerGroup scale group_size")
         else mret (QuantizationScale.PerGroup param)
  | other => rerr (UnknownTag "quantization scale" other)
  end.

Definition read_quantization_zero_point : Rd QuantizationZeroPoint :=
  tag ← read_u8;
  param ← read_u32;
  match tag with
  | 0 => if negb (param =? 0) then rerr (Malformed "absent zero-point payload")
         else mret QuantizationZeroPoint.Absent
  | 1 => if negb (param =? 0) then rerr (Malformed "PerTensor zero-point payload")
         else mret QuantizationZeroPoint.PerTensor
  | 2 => mret (QuantizationZeroPoint.PerChannel param)
  | 3 => if param =? 0 then rerr (Malformed "PerGroup zero-point group_size")
         else mret (QuantizationZeroPoint.PerGroup param)
  | other => rerr (UnknownTag "quantization zero-point" other)
  end.

(** The body of [Reader::data_type], with its recursive call as [rec]. *)
Definition data_type_body (rec : Rd DataType) : Rd DataType :=
  tag ← read_u8;
  if tag =? 0x08 then (n ← read_u32; mret (DataType.Array n)) else
  if tag =? 0x13 then (id ← read_u32; mret (DataType.Handle id)) else
  if tag =? 0x14 then (element ← rec; count ← read_u8; mret (DataType.Vec element count)) else
  if tag =? 0x15 then
    (element ← rec; len ← read_u32; shape ← read_n (Z.to_nat len) read_u32;
     mret (DataType.TensorShaped element shape)) else
  if tag =? 0x16 then (element ← rec; mret (DataType.SparseCsr element)) else
  if tag =? 0x17 then (element ← rec; mret (DataType.SparseCoo element)) else
  if tag =? 0x18 then
    (element ← rec; block_rows ← read_u32; block_cols ← read_u32;
     mret (DataType.SparseBsr element block_rows block_cols)) else
  if tag =? 0x1E then
    (len ← read_u32; axes ← read_n (Z.to_nat len) read_u32; mret (DataType.DeviceMesh axes)) else
  if tag =? 0x1F then
    (storage ← rec;
     if negb (DataType.is_quantized_storage storage) then rerr (Malformed "Quantized storage") else
     scale ← read_quantization_scale;
     zero_point ← read_quantization_zero_point;
     mret (DataType.Quantized storage scale zero_point)) else
  if tag =? 0x80 then
    (raw ← read_u32; id ← rlift (reject_reserved_extension_id raw "DataType");
     mret (DataType.Opaque id)) else
  rlift (data_type_from_tag tag).

Fixpoint data_type_fuel (fuel : nat) : Rd DataType :=
  match fuel with
  | O => rerr OutOfFuel
  | S fuel => data_type_body (data_type_fuel fuel)
  end.

(** [Reader::data_type]: every level of nesting consumes a tag byte, so one
    level per remaining byte, and one more for the read that fails, is enough. *)
Definition read_data_type : Rd DataType := fun r =>
  data_type_fuel (S (Z.to_nat (blen (rd_bytes r) - rd_pos r))) r.

(** The data types the wire format can carry. *)
Definition scale_wire_ok (s : QuantizationScale) : Prop :=
  match s with QuantizationScale.PerGroup g => g <> 0 | _ => True end.
Definition zero_point_wire_ok (z : QuantizationZeroPoint) : Prop :=
  match z with QuantizationZeroPoint.PerGroup g => g <> 0 | _ => True end.
Fixpoint data_type_wire_ok (t : DataType) : Prop :=
  match t with
  | DataType.Array n => n <= U32_MAX
  | DataType.Opaque id => is_extension id = true
  | DataType.Vec e _ | DataType.SparseCsr e | DataType.SparseCoo e
  | DataType.SparseBsr e _ _ => data_type_wire_ok e
  | DataType.TensorShaped e shape => data_type_wire_ok e /\ blen shape <= U32_MAX
  | DataType.DeviceMesh axes => blen axes <= U32_MAX
  | DataType.Quantized s sc z =>
      DataType.is_quantized_storage s = true /\ data_type_wire_ok s
      /\ scale_wire_ok sc /\ zero_point_wire_ok z
  | _ => True
  end.

(** ** Tag tables are bijections *)

(** A table with distinct tags and distinct operators. *)
Definition table_ok {T} `{EqDecision T} (table : list (Z * T)) : bool :=
  forallb (fun '(tag, v) => bool_decide (0 <= tag < 0x80)
             && bool_decide (find_tag v table = Some tag)
             && match find_value tag table with Some v' => bool_decide (v' = v) | None => false end)
          table.

Lemma find_tag_In {T} `{EqDecision T} (v : T) table tag :
  find_tag v table = Some tag -> In (tag, v) table.
Proof.
  induction table as [|[t c] table IH]; cbn; [done|].
  case_decide; intros; simplify_eq; auto.
Qed.

Lemma find_value_In {T} (v : T) table tag : find_value tag table = Some v -> In (tag, v) table.
Proof.
  induction table as [|[t c] table IH]; cbn; [done|].
  destruct (Z.eqb_spec t tag); intros; simplify_eq; auto.
Qed.

Lemma table_ok_bij {T} `{EqDecision T} (table : list (Z * T)) :
  table_ok table = true ->
  forall v tag, find_tag v table = Some tag <-> find_value tag table = Some v.
Proof.
  intros Hok v tag. unfold table_ok in Hok. rewrite forallb_forall in Hok.
  split; intros Hf.
  - apply find_tag_In, Hok in Hf. case_match; rewrite !andb_true_iff, !bool_decide_eq_true in Hf;
      naive_solver.
  - apply find_value_In, Hok in Hf. rewrite !andb_true_iff, !bool_decide_eq_true in Hf. tauto.
Qed.

Lemma table_ok_range {T} `{EqDecision T} (table : list (Z * T)) v tag :
  table_ok table = true -> find_tag v table = Some tag -> 0 <= tag < 0x80.
Proof.
  intros Hok Hf. unfold table_ok in Hok. rewrite forallb_forall in Hok.
  apply find_tag_In, Hok in Hf. rewrite !andb_true_iff, !bool_decide_eq_true in Hf. tauto.
Qed.

(** What the readers need of an operator table: it encodes to a byte below the
    opaque tag and decodes back. *)
Class TagTable (T : Type) `{EqDecision T} (table : list (Z * T)) : Prop := {
  tag_table_ok : table_ok table = true;
}.
#[export] Instance atomic_tags_ok : TagTable AtomicOp ATOMIC_OP_TAGS.
Proof. constructor. vm_compute. reflexivity. Qed.
#[export] Instance bin_tags_ok : TagTable BinOp BIN_OP_TAGS.
Proof. constructor. vm_compute. reflexivity. Qed.
#[export] Instance un_tags_ok : TagTable UnOp UN_OP_TAGS.
Proof. constructor. vm_compute. reflexivity. Qed.

Section Tables.
Context {T : Type} `{EqDecision T} (table : list (Z * T)) `{!TagTable T table}.

Lemma decode_encode_tag v tag k k' :
  encode_tag v table k = Ok tag -> decode_tag tag table k' = Ok v /\ 0 <= tag < 0x80.
Proof.
  unfold encode_tag, decode_tag. destruct (find_tag v table) as [t|] eqn:E; [|done].
  cbn. intros [= ->]. split; [|exact (table_ok_range _ _ _ tag_table_ok E)].
  apply (table_ok_bij _ tag_table_ok) in E. by rewrite E.
Qed.

Lemma encode_decode_tag v tag k k' :
  decode_tag tag table k = Ok v -> encode_tag v table k' = Ok tag.
Proof.
  unfold encode_tag, decode_tag. destruct (find_value tag table) as [t|] eqn:E; [|done].
  cbn. intros [= ->]. apply (table_ok_bij _ tag_table_ok) in E. by rewrite E.
Qed.
End Tables.

(** ** Properties of the operator tables *)

Module OpTags.

(** The three operator tables of the wire format are bijections: an operator
    has tag [t] exactly when [t] decodes to it, so no two operators share a tag,
    and every tag is below the escape value 0x80 of opaque operators. *)
Theorem op_tags_bijective :
  (forall op tag, bin_op_tag op = Ok tag <-> bin_op_from_tag tag = Ok op)
  /\ (forall op tag, un_op_tag op = Ok tag <-> un_op_from_tag tag = Ok op)
  /\ (forall op tag, atomic_op_tag op = Ok tag <-> atomic_op_from_tag tag = Ok op)
  /\ (forall op tag, bin_op_tag op = Ok tag -> 0 <= tag < 0x80)
  /\ (forall op tag, un_op_tag op = Ok tag -> 0 <= tag < 0x80)
  /\ (forall op tag, atomic_op_tag op = Ok tag -> 0 <= tag < 0x80).
Proof.
  unfold bin_op_tag, un_op_tag, atomic_op_tag, bin_op_from_tag, un_op_from_tag, atomic_op_from_tag.
  split_and!; intros op tag; lazymatch goal with
    | |- _ <-> _ => split | _ => idtac end; intros H;
    first [ by eapply encode_decode_tag
          | exact (proj1 (decode_encode_tag _ _ _ _ _ H))
          | exact (proj2 (decode_encode_tag _ _ _ _ "op"%string H)) ].
Qed.

(** The wire table of binary operators disagrees with the frozen table of
    [vyre-spec]: exactly [Le], [Ge], [And], [Or] and [AbsDiff] are written to the
    wire under another tag than [builtin_wire_tag] promises; the unary and
    atomic tables agree with theirs everywhere. *)
Theorem bin_op_tables_disagree :
  (forall op, match bin_op_tag op, BinOp.bin_op_builtin_wire_tag op with
              | Ok t, Some t' => t <> t' <-> op = BinOp.Le \/ op = BinOp.Ge \/ op = BinOp.And
                                             \/ op = BinOp.Or \/ op = BinOp.AbsDiff
              | Err _, None => exists id, op = BinOp.Opaque id
              | _, _ => False
              end)
  /\ (forall op tag, un_op_tag op = Ok tag <-> UnOp.un_op_builtin_wire_tag op = Some tag)
  /\ (forall op tag, atomic_op_tag op = Ok tag <-> AtomicOp.atomic_op_builtin_wire_tag op = Some tag).
Proof.
  split_and!.
  - intros []; vm_compute; try (eexists; reflexivity);
      (split; [intros H; first [by exfalso; apply H | tauto]|intros H; destruct_or! H; discriminate]).
  - intros [] tag; split; intros H; vm_compute in H |- *; congruence.
  - intros [] tag; split; intros H; vm_compute in H |- *; congruence.
Qed.
End OpTags.

(** ** Data-type round trip *)

Module DataTypeWire.

Lemma rt_scale d s : scale_repr s -> scale_wire_ok s ->
  rt d (put_quantization_scale s) read_quantization_scale s.
Proof.
  unfold read_quantization_scale. destruct s as [| |g]; cbn [put_quantization_scale scale_repr scale_wire_ok]; intros;
    rewrite ?(proj2 (Z.eqb_neq g 0)) by done; rt_auto; cbn.
  by rewrite (proj2 (Z.eqb_neq g 0)).
Qed.

Lemma rt_zero_point d z : zero_point_repr z -> zero_point_wire_ok z ->
  rt d (put_quantization_zero_point z) read_quantization_zero_point z.
Proof.
  unfold read_quantization_zero_point. destruct z as [| | |g]; cbn [put_quantization_zero_point zero_point_repr zero_point_wire_ok];
    intros; rewrite ?(proj2 (Z.eqb_neq g 0)) by done; rt_auto; cbn.
  by rewrite (proj2 (Z.eqb_neq g 0)).
Qed.
#[export] Hint Resolve rt_scale rt_zero_point : wire.

Lemma rt_u32_list d l : Forall (inu 32) l ->
  rt d (wlist put_u32 l) (read_n (Z.to_nat (blen l)) read_u32) l.
Proof.
  intros Hl. unfold blen. rewrite Nat2Z.id. apply rt_list.
  eapply Forall_impl; [exact Hl|]. intros; by apply rt_u32.
Qed.

Lemma rt_len_u32 d n label : 0 <= n <= U32_MAX -> rt d (put_len_u32 n label) read_u32 n.
Proof. intros. rewrite put_len_u32_small by lia. apply rt_u32. width_lia. Qed.

#[export] Hint Resolve rt_u32_list rt_len_u32 : wire.

Lemma reserved_ok id k : is_extension id = true ->
  rlift (reject_reserved_extension_id id k) = (mret id : Rd Z).
Proof.
  unfold is_extension, reject_reserved_extension_id. intros H%negb_true_iff. by rewrite H.
Qed.

(** Nesting depth of a data type. *)
Fixpoint data_type_depth (t : DataType) : nat :=
  S (match t with
     | DataType.Vec e _ | DataType.TensorShaped e _ | DataType.SparseCsr e
     | DataType.SparseCoo e | DataType.SparseBsr e _ _ | DataType.Quantized e _ _ =>
         data_type_depth e
     | _ => 0%nat
     end).

Lemma rt_data_type_fuel d t n :
  data_type_repr t -> data_type_wire_ok t -> (data_type_depth t <= n)%nat ->
  rt d (put_data_type t) (data_type_fuel n) t.
Proof.
  revert n; induction t; intros n Hr Hok Hn; (destruct n as [|n]; [cbn in Hn; lia|]);
    cbn [data_type_fuel put_data_type data_type_repr data_type_wire_ok data_type_depth] in *;
    unfold data_type_body;
    (eapply rt_bind; [apply rt_u8; vm_compute; split; congruence|]);
    try exact (rt_ret _ _); cbn; destruct_and?; try solve [rt_auto].
  - match goal with Hq : DataType.is_quantized_storage _ = true |- _ => rewrite Hq end. cbn.
    eapply rt_bind; [by apply IHt; [| |lia]|].
    match goal with Hq : DataType.is_quantized_storage _ = true |- _ => rewrite Hq end. cbn.
    rt_auto.
  - eapply rt_last; [by apply rt_u32|]. rewrite reserved_ok by done. reflexivity.
Qed.

(** Encoded data types are at least as long as they are deep. *)
Definition grows (w : Wr) (k : Z) : Prop :=
  forall out out', w out = Ok out' -> blen out + k <= blen out'.

Lemma grows_seq w1 w2 k1 k2 : grows w1 k1 -> grows w2 k2 -> grows (w1 ;> w2) (k1 + k2).
Proof.
  intros H1 H2 out out' (o & Ho & Ho')%bind_Ok. apply H1 in Ho. apply H2 in Ho'. lia.
Qed.
Lemma grows_raw l : grows (put_raw l) (blen l).
Proof. intros out out' [= <-]. rewrite blen_app. lia. Qed.
Lemma emits_grows w enc k : emits w enc -> grows w k -> k <= blen enc.
Proof. intros He Hg. specialize (Hg [] _ (He [])). cbn in Hg. unfold blen in *. lia. Qed.

Lemma grows_weaken w j k : grows w k -> j <= k -> grows w j.
Proof. intros Hg Hj out out' H%Hg. lia. Qed.
Lemma grows_err e k : grows (werr e) k.
Proof. done. Qed.
Lemma grows_nil : grows wnil 0.
Proof. intros out out' [= <-]. lia. Qed.
Lemma grows_raw0 l : grows (put_raw l) 0.
Proof. eapply grows_weaken; [apply grows_raw|apply blen_nonneg]. Qed.
Lemma grows_seq_l w1 w2 k : grows w1 k -> grows w2 0 -> grows (w1 ;> w2) k.
Proof. intros. rewrite <- (Z.add_0_r k). by apply grows_seq. Qed.
Lemma grows_wlist {A} (put : A -> Wr) l : (forall x, grows (put x) 0) -> grows (wlist put l) 0.
Proof. intros H. induction l; cbn; [apply grows_nil|by apply grows_seq_l]. Qed.
Lemma grows_len n label : grows (put_len_u32 n label) 0.
Proof. unfold put_len_u32. case_match; [apply grows_raw0|apply grows_err]. Qed.
Lemma grows_scale s : grows (put_quantization_scale s) 0.
Proof.
  destruct s; cbn; [| |case_match; [apply grows_err|]]; by apply grows_seq_l; apply grows_raw0.
Qed.
Lemma grows_zero_point z : grows (put_quantization_zero_point z) 0.
Proof.
  destruct z; cbn; [| | |case_match; [apply grows_err|]]; by apply grows_seq_l; apply grows_raw0.
Qed.
#[local] Create HintDb grows.
#[local] Hint Resolve grows_err grows_nil grows_raw0 grows_seq_l grows_wlist grows_len grows_scale
  grows_zero_point : grows.

Lemma data_type_depth_grows t : grows (put_data_type t) (Z.of_nat (data_type_depth t)).
Proof.
  assert (Hu8 : forall x, grows (put_u8 x) 1) by (intros; apply (grows_raw [_])).
  assert (Hu32 : forall x, grows (put_u32 x) 0) by (intros; apply grows_raw0).
  assert (Hu8' : forall x, grows (put_u8 x) 0) by (intros; apply grows_raw0).
  induction t; cbn [put_data_type data_type_depth]; rewrite Nat2Z.inj_succ, <- Z.add_1_l;
    (apply grows_seq; [apply Hu8|]); try case_match; eauto with grows.
Qed.

Lemma rt_data_type d t : data_type_repr t -> data_type_wire_ok t ->
  rt d (put_data_type t) read_data_type t.
Proof.
  intros Hr Hok.
  destruct (rt_data_type_fuel d t (data_type_depth t) Hr Hok) as (enc & He & Hb & _); [lia|].
  exists enc. split_and!; [done|done|]. intros pre post Hlen.
  pose proof (emits_grows _ _ _ He (data_type_depth_grows _)) as Hge.
  unfold read_data_type. cbn [rd_bytes rd_pos].
  eapply rt_decodes; [apply rt_data_type_fuel|exact He|done]; [done|done|].
  rewrite !blen_app. pose proof (blen_nonneg post). lia.
Qed.

(** *** Termination of the reader *)

(** The reader's invariant with fewer than [n] bytes left. *)
Definition room (n d : Z) (r : Reader) : Prop :=
  at_depth d r /\ blen (rd_bytes r) - rd_pos r < n.

Lemma room_take n d k : 0 <= k ->
  triple (room n d) (take k) (fun l r => room (n - k) d r /\ Forall (inu 8) l /\ blen l = k).
Proof.
  intros Hk r [Hr Hn]. pose proof Hr as (Hb & Hp & <-). pose proof (take_slice k r Hk Hr) as H.
  destruct (take k r) as [[l r']|e]; [|done]. destruct H as (-> & ? & ? & ?).
  unfold room, at_depth. cbn. split_and!; auto; lia.
Qed.
Lemma room_mono n n' d r : n <= n' -> room n d r -> room n' d r.
Proof. unfold room. intros ? []; split; [done|lia]. Qed.
#[export] Instance room_steady n d : Steady (room n d).
Proof.
  intros k Hk r Hr. pose proof (room_take n d k Hk r Hr) as H.
  destruct (take k r) as [[l r']|e]; [|done]. destruct H as [H ?]. split; [|done].
  eapply room_mono; [|exact H]. lia.
Qed.
Lemma room_u8_strict n d : triple (room (n + 1) d) read_u8 (fun x r => room n d r /\ inu 8 x).
Proof.
  eapply triple_bind; [apply (room_take _ _ 1); lia|]. intros l r (Hr & Hl & Hn).
  cbn. rewrite Z.add_simpl_r in Hr. split; [done|].
  pose proof (of_le_bytes_bound l Hl) as Hb. unfold blen in Hn. rewrite Hn in Hb. width_lia.
Qed.

Lemma yields_scale P `{!Steady P} :
  yields P read_quantization_scale (fun s => scale_repr s /\ scale_wire_ok s).
Proof.
  unfold read_quantization_scale. yields_auto; cbn; try done.
  split; [done|]. by apply Z.eqb_neq.
Qed.
Lemma yields_zero_point P `{!Steady P} :
  yields P read_quantization_zero_point (fun z => zero_point_repr z /\ zero_point_wire_ok z).
Proof.
  unfold read_quantization_zero_point. yields_auto; cbn; try done.
  split; [done|]. by apply Z.eqb_neq.
Qed.
#[local] Hint Resolve yields_scale yields_zero_point : yields.

Lemma yields_from_tag P tag :
  yields P (rlift (data_type_from_tag tag)) (fun t => data_type_repr t /\ data_type_wire_ok t).
Proof.
  apply yields_lift; unfold data_type_from_tag; repeat case_match; try discriminate;
    intros ? [= <-]; done.
Qed.

Lemma yields_reserved P raw k : inu 32 raw ->
  yields P (rlift (reject_reserved_extension_id raw k))
           (fun id => inu 32 id /\ is_extension id = true).
Proof.
  intros Hr. unfold reject_reserved_extension_id, is_extension. apply yields_lift; [by case_match|].
  intros a. case_match; [done|]. intros [= <-]. by rewrite H.
Qed.
#[export] Hint Resolve yields_from_tag yields_reserved : yields.

(** The data types a decoder may return. *)
Definition data_type_decoded (t : DataType) : Prop := data_type_repr t /\ data_type_wire_ok t.

Lemma data_type_body_room n d rec :
  yields (room n d) rec data_type_decoded ->
  triple (room (n + 1) d) (data_type_body rec) (fun t r => room n d r /\ data_type_decoded t).
Proof.
  intros Hrec. unfold data_type_body. eapply triple_yields; [apply room_u8_strict|].
  intros tag Htag. unfold data_type_decoded in *. yields_auto.
  all: cbn; destruct_and?; split_and?; auto; unfold blen; try width_lia.
  by apply negb_false_iff.
Qed.

Lemma data_type_fuel_room n d :
  yields (room (Z.of_nat n) d) (data_type_fuel n) data_type_decoded.
Proof.
  induction n as [|n IH]; cbn [data_type_fuel].
  - intros r [(_ & Hr & _) Hn]. lia.
  - rewrite Nat2Z.inj_succ, <- Z.add_1_r. intros r Hr.
    pose proof (data_type_body_room _ _ _ IH r Hr) as H.
    destruct (data_type_body _ r) as [[t r']|e]; [|done]. destruct H as [H ?].
    split; [|done]. eapply room_mono; [|exact H]. lia.
Qed.

Lemma yields_data_type d : yields (at_depth d) read_data_type data_type_decoded.
Proof.
  intros r Hr. unfold read_data_type.
  pose proof (data_type_fuel_room (S (Z.to_nat (blen (rd_bytes r) - rd_pos r))) d r) as H.
  destruct (data_type_fuel _ r) as [[x r']|e].
  - destruct H as [[H _] ?]; [|done]. split; [done|]. pose proof Hr as (_ & ? & _). lia.
  - apply H. split; [done|]. pose proof Hr as (_ & ? & _). lia.
Qed.

(** [Reader::data_type] terminates on every input and returns only well-formed
    types: one unit of fuel per remaining byte (and one more) is never
    exhausted; the result is one of the decoder's diagnostics, or a type whose
    fields fit their Rust types and which the encoder accepts, with the reader
    still inside its buffer at the same recursion depth. *)
Theorem read_data_type_total r (Hr : at_depth (rd_depth r) r) :
  (exists t r', read_data_type r = Ok (t, r') /\ at_depth (rd_depth r) r'
     /\ data_type_repr t /\ data_type_wire_ok t)
  \/ (exists e, read_data_type r = Err e /\ e <> OutOfFuel).
Proof.
  pose proof (yields_data_type (rd_depth r) r Hr) as H.
  destruct (read_data_type r) as [[t r']|e]; [left|right]; [|eauto].
  exists t, r'. destruct H as [? [? ?]]. done.
Qed.

Lemma read_data_type_total_witness :
  (exists t r', read_data_type (mkReader [0x16; 0x16; 0x01] 0 0) = Ok (t, r') /\ at_depth 0 r'
     /\ data_type_repr t /\ data_type_wire_ok t)
  \/ (exists e, read_data_type (mkReader [0x16; 0x16; 0x01] 0 0) = Err e /\ e <> OutOfFuel).
Proof.
  apply (read_data_type_total (mkReader [0x16; 0x16; 0x01] 0 0)).
  split_and!; cbn; [repeat constructor; width_lia|lia|unfold blen; cbn; lia|done].
Defined.

(** Every data type inside the documented limits round trips: [put_data_type]
    appends bytes, and [Reader::data_type] reads exactly those bytes back to the
    same type, at any position and any recursion depth. *)
Theorem data_type_roundtrip d t (Hrepr : data_type_repr t) (Hok : data_type_wire_ok t) :
  rt d (put_data_type t) read_data_type t.
Proof. by apply rt_data_type. Qed.

Lemma data_type_roundtrip_witness :
  let t := DataType.Quantized DataType.I4 (QuantizationScale.PerGroup 128)
             (QuantizationZeroPoint.PerChannel 3) in
  rt 0 (put_data_type t) read_data_type t
  /\ put_data_type t [] = Ok [0x1F; 0x1B; 2; 128; 0; 0; 0; 2; 3; 0; 0; 0].
Proof.
  cbv zeta. split; [|reflexivity].
  apply (data_type_roundtrip 0); cbn; unfold inu; repeat split; lia.
Defined.

(** A sparse-of-sparse tower [n] levels high. *)
Fixpoint nest (n : nat) : DataType :=
  match n with O => DataType.U32 | S n => DataType.SparseCsr (nest n) end.

Lemma nest_ok n : data_type_repr (nest n) /\ data_type_wire_ok (nest n)
  /\ data_type_depth (nest n) = S n.
Proof. induction n; cbn; naive_solver. Qed.

Lemma nest_bytes n out : put_data_type (nest n) out = Ok (out ++ repeat 0x16 n ++ [0x01]).
Proof.
  revert out. induction n as [|n IH]; intros out; cbn; [done|].
  unfold wseq. cbn. rewrite IH, <- app_assoc. done.
Qed.

(** The data-type decoder has no recursion guard: for every depth there is a
    wire blob of that many bytes which it accepts by recursing that deep. *)
Theorem data_type_depth_unbounded (n : nat) :
  exists enc t, data_type_depth t = S n /\ length enc = S n
    /\ decodes 0 read_data_type enc t.
Proof.
  pose proof (nest_ok n) as (Hr & Hok & Hd).
  destruct (rt_data_type 0 _ Hr Hok) as (enc & He & _ & Hdec).
  exists enc, (nest n). split_and!; [done| |done].
  pose proof (nest_bytes n []) as Hp. rewrite He in Hp.
  simplify_eq/=. rewrite length_app, repeat_length. cbn. lia.
Qed.
End DataTypeWire.
