(* ===== verification/WireExpr.v ===== *)
(** The expression codec: the explicit-stack encoder [put_expr]
    ([encode/put_expr.rs]), [Reader::expr] with its shared recursion guard
    ([decode/impl_reader.rs]) and the opaque-extension registry lookup
    ([dispatch/extension.rs]). *)

From S2P Require Import Prelude Float Spec IR WireFraming WireTags.

(** ** Opaque resolvers

    The tables are filled by downstream crates at link time; freezing fails on
    duplicate kinds. *)
Record OpaqueRegistry := mkOpaqueRegistry {
  opaque_exprs : option (gmap string (bytes -> option ExprNode));
  opaque_nodes : option (gmap string (bytes -> option NodeExtension));
}.

Definition resolve_opaque {X} (table : option (gmap string (bytes -> option X)))
    (kind : string) (payload : bytes) : wire X :=
  registry ← ok_or table (Malformed "duplicate opaque resolver");
  match registry !! kind with
  | Some deserialize => ok_or (deserialize payload) (Malformed "opaque payload")
  | None => Err (UnknownVariant kind)
  end.

Definition decode_opaque_expr (reg : OpaqueRegistry) (kind : string) (payload : bytes) : wire Expr :=
  Expr.Opaque <$> resolve_opaque (opaque_exprs reg) kind payload.
Definition decode_opaque_node (reg : OpaqueRegistry) (kind : string) (payload : bytes) : wire Node :=
  Node.Opaque <$> resolve_opaque (opaque_nodes reg) kind payload.

(** ** Encoder *)

(** NaNs to one NaN, subnormals and the negative zero to zero. *)
Definition canonical_f32_bits (bits : Z) : Z :=
  if f32_is_nan bits then 0x7FC00000
  else if f32_is_subnormal bits then 0
  else if bits =? 0x80000000 then 0 else bits.

Definition put_tag (tag : wire Z) : Wr :=
  match tag with Ok t => put_u8 t | Err e => werr e end.

Definition put_bin_op (op : BinOp) : Wr :=
  match op with
  | BinOp.Opaque id => put_u8 0x80 ;> put_u32 id
  | _ => put_tag (bin_op_tag op)
  end.
Definition put_un_op (op : UnOp) : Wr :=
  match op with
  | UnOp.Opaque id => put_u8 0x80 ;> put_u32 id
  | _ => put_tag (un_op_tag op)
  end.
Definition put_atomic_op (op : AtomicOp) : Wr :=
  match op with
  | AtomicOp.Opaque id => put_u8 0x80 ;> put_u32 id
  | _ => put_tag (atomic_op_tag op)
  end.

Definition put_opaque_payload (kind : string) (payload : bytes) (what : string) : Wr :=
  put_string kind ;>
  if MAX_OPAQUE_PAYLOAD_LEN <? blen payload then werr (LenExceedsLimit what (blen payload) MAX_OPAQUE_PAYLOAD_LEN)
  else put_len_u32 (blen payload) what ;> put_raw payload.

Inductive Step :=
| Encode (e : Expr)
| WriteByte (b : Z).

(** One [Step::Encode] iteration: the bytes written at once, and the steps
    pushed for the children, in the order they will pop. *)
Definition encode_header (e : Expr) : Wr :=
  match e with
  | Expr.LitU32 value => put_u8 0 ;> put_u32 value
  | Expr.LitI32 value => put_u8 1 ;> put_u32 (wrapu 32 value)
  | Expr.LitBool value => put_u8 2 ;> put_u8 (if value then 1 else 0)
  | Expr.LitF32 value => put_u8 15 ;> put_u32 (canonical_f32_bits value)
  | Expr.Var name => put_u8 3 ;> put_string name
  | Expr.Load buffer _ => put_u8 4 ;> put_string buffer
  | Expr.BufLen buffer => put_u8 5 ;> put_string buffer
  | Expr.InvocationId axis => put_u8 6 ;> put_u8 axis
  | Expr.WorkgroupId axis => put_u8 7 ;> put_u8 axis
  | Expr.LocalId axis => put_u8 8 ;> put_u8 axis
  | Expr.BinOp op _ _ => put_u8 9 ;> put_bin_op op
  | Expr.UnOp op _ => put_u8 10 ;> put_un_op op
  | Expr.Call op_id args =>
      put_u8 11 ;> put_string op_id ;> put_len_u32 (blen args) "call argument count"
  | Expr.Select _ _ _ => put_u8 12
  | Expr.Cast target _ => put_u8 13 ;> put_data_type target
  | Expr.Fma _ _ _ => put_u8 16
  | Expr.Atomic op buffer _ _ _ ordering =>
      put_u8 14 ;> put_atomic_op op ;> put_u8 (MemoryOrdering.ordering_wire_tag ordering) ;>
      put_string buffer
  | Expr.SubgroupAdd _ => put_u8 17
  | Expr.SubgroupShuffle _ _ => put_u8 18
  | Expr.SubgroupBallot _ => put_u8 19
  | Expr.SubgroupLocalId => put_u8 20
  | Expr.SubgroupSize => put_u8 21
  | Expr.Opaque x =>
      put_u8 0x80 ;>
      put_opaque_payload (en_extension_kind x) (en_wire_payload x) "opaque expression payload"
  end.

Definition encode_children (e : Expr) : list Step :=
  match e with
  | Expr.Load _ index => [Encode index]
  | Expr.BinOp _ l r => [Encode l; Encode r]
  | Expr.UnOp _ operand => [Encode operand]
  | Expr.Call _ args => map Encode args
  | Expr.Select cond true_val false_val => [Encode cond; Encode true_val; Encode false_val]
  | Expr.Cast _ value => [Encode value]
  | Expr.Fma a b c => [Encode a; Encode b; Encode c]
  | Expr.Atomic _ _ index expected value _ =>
      Encode index ::
      match expected with
      | Some x => [WriteByte 1; Encode x]
      | None => [WriteByte 0]
      end ++ [Encode value]
  | Expr.SubgroupAdd value => [Encode value]
  | Expr.SubgroupShuffle value lane => [Encode value; Encode lane]
  | Expr.SubgroupBallot cond => [Encode cond]
  | _ => []
  end.

(** [while let Some(step) = stack.pop()] *)
Fixpoint put_expr_loop (fuel : nat) (stack : list Step) : Wr :=
  match fuel with
  | O => werr OutOfFuel
  | S fuel =>
      match stack with
      | [] => wnil
      | WriteByte b :: stack => put_u8 b ;> put_expr_loop fuel stack
      | Encode e :: stack => encode_header e ;> put_expr_loop fuel (encode_children e ++ stack)
      end
  end.

(** Each constructor costs one iteration, an [Atomic] one more for its
    presence byte, and the empty stack a last one. *)
Definition put_expr (e : Expr) : Wr := put_expr_loop (S (2 * expr_size e)) [Encode e].

(** Reference encoder: the same layout, by recursion on the tree. *)
Fixpoint put_expr_rec (e : Expr) : Wr :=
  encode_header e ;>
  match e with
  | Expr.Load _ index => put_expr_rec index
  | Expr.BinOp _ l r => put_expr_rec l ;> put_expr_rec r
  | Expr.UnOp _ operand => put_expr_rec operand
  | Expr.Call _ args => wlist put_expr_rec args
  | Expr.Select c t f => put_expr_rec c ;> put_expr_rec t ;> put_expr_rec f
  | Expr.Cast _ value => put_expr_rec value
  | Expr.Fma a b c => put_expr_rec a ;> put_expr_rec b ;> put_expr_rec c
  | Expr.Atomic _ _ index expected value _ =>
      put_expr_rec index ;>
      match expected with Some x => put_u8 1 ;> put_expr_rec x | None => put_u8 0 end ;>
      put_expr_rec value
  | Expr.SubgroupAdd value => put_expr_rec value
  | Expr.SubgroupShuffle value lane => put_expr_rec value ;> put_expr_rec lane
  | Expr.SubgroupBallot cond => put_expr_rec cond
  | _ => wnil
  end.

(** ** Decoder *)

(** The guard [Reader::node] and [Reader::expr] share. *)
Definition with_depth {A} (m : Rd A) : Rd A := fun r =>
  if MAX_DECODE_DEPTH <=? rd_depth r then Err DepthExceeded
  else match m (mkReader (rd_bytes r) (rd_pos r) (rd_depth r + 1)) with
       | Ok (x, r') => Ok (x, mkReader (rd_bytes r') (rd_pos r') (rd_depth r' - 1))
       | Err e => Err e
       end.

Definition read_op {T} (from_tag : Z -> wire T) (opaque : Z -> T) (surface : string) : Rd T :=
  tag ← read_u8;
  if tag =? 0x80 then
    raw ← read_u32;
    id ← rlift (reject_reserved_extension_id raw surface);
    mret (opaque id)
  else rlift (from_tag tag).

Definition read_ordering : Rd MemoryOrdering :=
  tag ← read_u8;
  rlift (ok_or (MemoryOrdering.ordering_from_wire_tag tag) (UnknownTag "memory ordering" tag)).

Definition read_opaque {X} (decode : string -> bytes -> wire X) (what : string) : Rd X :=
  kind ← read_string;
  payload_len ← bounded_len (MAX_ARGS * 1024) what;
  payload ← read_bytes payload_len;
  rlift (decode kind payload).

Section Decoder.
Context (reg : OpaqueRegistry).

(** [expr_inner], with the recursive [self.expr()] as [rec]. *)
Definition expr_inner (rec : Rd Expr) : Rd Expr :=
  tag ← read_u8;
  match tag with
  | 0 => v ← read_u32; mret (Expr.LitU32 v)
  | 1 => v ← read_i32; mret (Expr.LitI32 v)
  | 2 => v ← read_u8; mret (Expr.LitBool (negb (v =? 0)))
  | 15 => v ← read_u32; mret (Expr.LitF32 v)
  | 3 => name ← read_string; mret (Expr.Var name)
  | 4 => buffer ← read_string; index ← rec; mret (Expr.Load buffer index)
  | 5 => buffer ← read_string; mret (Expr.BufLen buffer)
  | 6 => axis ← read_u8; mret (Expr.InvocationId axis)
  | 7 => axis ← read_u8; mret (Expr.WorkgroupId axis)
  | 8 => axis ← read_u8; mret (Expr.LocalId axis)
  | 9 => op ← read_op bin_op_from_tag BinOp.Opaque "BinOp";
         l ← rec; r ← rec; mret (Expr.BinOp op l r)
  | 10 => op ← read_op un_op_from_tag UnOp.Opaque "UnOp";
          operand ← rec; mret (Expr.UnOp op operand)
  | 11 => op_id ← read_string;
          count ← bounded_len MAX_ARGS "call argument count";
          args ← read_n (Z.to_nat count) rec;
          mret (Expr.Call op_id args)
  | 12 => c ← rec; t ← rec; f ← rec; mret (Expr.Select c t f)
  | 13 => target ← read_data_type; value ← rec; mret (Expr.Cast target value)
  | 14 => op ← read_op atomic_op_from_tag AtomicOp.Opaque "AtomicOp";
          ordering ← read_ordering;
          buffer ← read_string;
          index ← rec;
          present ← read_u8;
          expected ← (if present =? 0 then mret None else x ← rec; mret (Some x));
          value ← rec;
          mret (Expr.Atomic op buffer index expected value ordering)
  | 16 => a ← rec; b ← rec; c ← rec; mret (Expr.Fma a b c)
  | 17 => value ← rec; mret (Expr.SubgroupAdd value)
  | 18 => value ← rec; lane ← rec; mret (Expr.SubgroupShuffle value lane)
  | 19 => cond ← rec; mret (Expr.SubgroupBallot cond)
  | 20 => mret Expr.SubgroupLocalId
  | 21 => mret Expr.SubgroupSize
  | 0x80 => read_opaque (decode_opaque_expr reg) "opaque expression payload"
  | tag => rerr (UnknownTag "IR expression" tag)
  end.

Fixpoint read_expr_fuel (fuel : nat) : Rd Expr :=
  match fuel with
  | O => rerr OutOfFuel
  | S fuel => with_depth (expr_inner (read_expr_fuel fuel))
  end.

(** [Reader::expr]: the guard stops the recursion at [MAX_DECODE_DEPTH]; the
    fuel is the depth budget left and one for the level that is rejected. *)
Definition read_expr : Rd Expr := fun r =>
  read_expr_fuel (S (Z.to_nat (MAX_DECODE_DEPTH - rd_depth r))) r.
End Decoder.

(** ** The encoder is the recursive layout *)

Definition step_rec (s : Step) : Wr :=
  match s with Encode e => put_expr_rec e | WriteByte b => put_u8 b end.

Definition step_work (s : Step) : nat :=
  match s with Encode e => 2 * expr_size e | WriteByte _ => 1 end.

Lemma wlist_app {A} (put : A -> Wr) l k out :
  wlist put (l ++ k) out = (wlist put l ;> wlist put k) out.
Proof.
  revert out; induction l as [|x l IH]; intros out; cbn; [done|].
  unfold wseq in *. destruct (put x out) as [o|]; cbn; [|done]. apply IH.
Qed.

Lemma wseq_ext w1 w2 w2' out :
  (forall o, w2 o = w2' o) -> (w1 ;> w2) out = (w1 ;> w2') out.
Proof. intros H. unfold wseq. destruct (w1 out); cbn; auto. Qed.

Lemma wlist_map {A B} (f : A -> B) (put : B -> Wr) l out :
  wlist put (map f l) out = wlist (fun x => put (f x)) l out.
Proof.
  revert out; induction l as [|x l IH]; intros out; cbn; [done|]. by apply wseq_ext.
Qed.

Lemma put_expr_rec_children e out :
  put_expr_rec e out = (encode_header e ;> wlist step_rec (encode_children e)) out.
Proof.
  destruct e; cbn [put_expr_rec encode_children wlist step_rec app]; try done;
    apply wseq_ext; intros o; rewrite ?wlist_map; try done;
    try (symmetry; first [apply wseq_nil_r | apply wseq_ext; intros; apply wseq_nil_r]).
  all: try (apply wseq_ext; intros; apply wseq_ext; intros; symmetry; apply wseq_nil_r).
  destruct expected; cbn [wlist step_rec app]; apply wseq_ext; intros o1;
    rewrite ?wseq_assoc; repeat (apply wseq_ext; intros ?); symmetry; apply wseq_nil_r.
Qed.

Lemma children_work e :
  (S (list_sum_nat (map step_work (encode_children e))) < step_work (Encode e) + 1)%nat.
Proof.
  unfold list_sum_nat.
  destruct e; cbn [encode_children step_work expr_size map fold_right app]; try lia.
  - unfold list_sum_nat.
    enough (fold_right Nat.add 0 (map step_work (map Encode args))
            = 2 * fold_right Nat.add 0 (map expr_size args))%nat by lia.
    induction args as [|a args IH]; cbn -[Nat.mul] in *; lia.
  - destruct expected; cbn -[Nat.mul]; lia.
Qed.

Lemma list_sum_nat_app l k : list_sum_nat (l ++ k) = (list_sum_nat l + list_sum_nat k)%nat.
Proof. unfold list_sum_nat. induction l; cbn in *; lia. Qed.

Lemma put_expr_loop_rec fuel stack out :
  (list_sum_nat (map step_work stack) < fuel)%nat ->
  put_expr_loop fuel stack out = wlist step_rec stack out.
Proof.
  revert stack out; induction fuel as [|fuel IH]; intros stack out Hf; [lia|].
  destruct stack as [|[e|b] stack]; cbn [put_expr_loop wlist step_rec]; [done| |].
  - rewrite wseq_ext with (w2' := wlist step_rec (encode_children e ++ stack)).
    + rewrite (wseq_ext _ _ (wlist step_rec (encode_children e) ;> wlist step_rec stack))
        by (intros; apply wlist_app).
      rewrite <- wseq_assoc. unfold wseq at 1 3. by rewrite put_expr_rec_children.
    + intros o. apply IH. rewrite map_app, list_sum_nat_app.
      pose proof (children_work e). cbn [map list_sum_nat fold_right] in Hf.
      unfold list_sum_nat in *. lia.
  - apply wseq_ext. intros o. apply IH. cbn in Hf. unfold list_sum_nat in *. lia.
Qed.

Lemma put_expr_eq_rec e out : put_expr e out = put_expr_rec e out.
Proof.
  unfold put_expr. rewrite put_expr_loop_rec; [apply wseq_nil_r|].
  cbn -[Nat.mul]. lia.
Qed.

(** The iterative explicit-stack encoder [put_expr] terminates within its
    fuel and writes, for every expression and every starting buffer, exactly
    what the recursive pre-order layout writes, errors included. *)
Theorem put_expr_refines_recursive (e : Expr) (out : bytes) (extra : nat) :
  put_expr_loop (S (2 * expr_size e) + extra) [Encode e] out = put_expr_rec e out.
Proof.
  rewrite put_expr_loop_rec; [apply wseq_nil_r|]. cbn -[Nat.mul]. lia.
Qed.

(** ** Expression round trip *)

(** What the encoder normalises: float literals are canonicalised. *)
Fixpoint canonical_expr (e : Expr) : Expr :=
  match e with
  | Expr.LitF32 v => Expr.LitF32 (canonical_f32_bits v)
  | Expr.Load b i => Expr.Load b (canonical_expr i)
  | Expr.BinOp op l r => Expr.BinOp op (canonical_expr l) (canonical_expr r)
  | Expr.UnOp op x => Expr.UnOp op (canonical_expr x)
  | Expr.Call op args => Expr.Call op (map canonical_expr args)
  | Expr.Select c t f => Expr.Select (canonical_expr c) (canonical_expr t) (canonical_expr f)
  | Expr.Cast t x => Expr.Cast t (canonical_expr x)
  | Expr.Fma a b c => Expr.Fma (canonical_expr a) (canonical_expr b) (canonical_expr c)
  | Expr.Atomic op b i x v o =>
      Expr.Atomic op b (canonical_expr i)
        (match x with Some y => Some (canonical_expr y) | None => None end) (canonical_expr v) o
  | Expr.SubgroupBallot x => Expr.SubgroupBallot (canonical_expr x)
  | Expr.SubgroupShuffle v l => Expr.SubgroupShuffle (canonical_expr v) (canonical_expr l)
  | Expr.SubgroupAdd v => Expr.SubgroupAdd (canonical_expr v)
  | _ => e
  end.

Definition bin_op_wire_ok (op : BinOp) : Prop :=
  match op with BinOp.Opaque id => is_extension id = true | _ => True end.
Definition un_op_wire_ok (op : UnOp) : Prop :=
  match op with UnOp.Opaque id => is_extension id = true | _ => True end.
Definition atomic_op_wire_ok (op : AtomicOp) : Prop :=
  match op with AtomicOp.Opaque id => is_extension id = true | _ => True end.

Definition name_ok (s : string) : Prop := blen (str_bytes s) <= MAX_STRING_LEN.

Section ExprRoundtrip.
Context (reg : OpaqueRegistry).

(** The limits an expression must meet to survive the wire: names and call
    arity within the decoder's bounds, extension ids in the extension range,
    opaque payloads bounded and their resolver registered. *)
Fixpoint expr_wire_ok (e : Expr) : Prop :=
  match e with
  | Expr.LitU32 _ | Expr.LitI32 _ | Expr.LitF32 _ | Expr.LitBool _ => True
  | Expr.Var n | Expr.BufLen n => name_ok n
  | Expr.Load b i => name_ok b /\ expr_wire_ok i
  | Expr.InvocationId _ | Expr.WorkgroupId _ | Expr.LocalId _ => True
  | Expr.BinOp op l r => bin_op_wire_ok op /\ expr_wire_ok l /\ expr_wire_ok r
  | Expr.UnOp op x => un_op_wire_ok op /\ expr_wire_ok x
  | Expr.Call op args =>
      name_ok op /\ blen args <= MAX_ARGS /\ Forall_list expr_wire_ok args
  | Expr.Select c t f => expr_wire_ok c /\ expr_wire_ok t /\ expr_wire_ok f
  | Expr.Cast t x => data_type_wire_ok t /\ expr_wire_ok x
  | Expr.Fma a b c => expr_wire_ok a /\ expr_wire_ok b /\ expr_wire_ok c
  | Expr.Atomic op b i x v _ =>
      atomic_op_wire_ok op /\ name_ok b /\ expr_wire_ok i
      /\ match x with Some y => expr_wire_ok y | None => True end /\ expr_wire_ok v
  | Expr.SubgroupBallot x | Expr.SubgroupAdd x => expr_wire_ok x
  | Expr.SubgroupShuffle v l => expr_wire_ok v /\ expr_wire_ok l
  | Expr.SubgroupLocalId | Expr.SubgroupSize => True
  | Expr.Opaque x =>
      name_ok (en_extension_kind x) /\ blen (en_wire_payload x) <= MAX_OPAQUE_PAYLOAD_LEN
      /\ decode_opaque_expr reg (en_extension_kind x) (en_wire_payload x) = Ok (Expr.Opaque x)
  end.

Lemma rt_with_depth {A} d w (m : Rd A) x :
  d < MAX_DECODE_DEPTH -> rt (d + 1) w m x -> rt d w (with_depth m) x.
Proof.
  intros Hd (enc & He & Hb & Hdec). exists enc. split_and!; [done|done|].
  intros pre post Hlen. unfold with_depth. cbn. rewrite (proj2 (Z.leb_gt _ _)) by done.
  rewrite Hdec by done. cbn. by rewrite Z.add_simpl_r.
Qed.

Lemma rt_name d s : str_ok s = true -> name_ok s -> rt d (put_string s) read_string s.
Proof. intros. by apply rt_string. Qed.

Lemma rt_op {T} `{EqDecision T} (table : list (Z * T)) `{!TagTable T table} d op k k' opaque s :
  is_ok (encode_tag op table k) = true ->
  rt d (put_tag (encode_tag op table k)) (read_op (fun t => decode_tag t table k') opaque s) op.
Proof.
  intros Hok. destruct (encode_tag op table k) as [tag|] eqn:E; [|done].
  destruct (decode_encode_tag table op tag k k' E) as [Hd Hr].
  eapply rt_last; [apply rt_u8; width_lia|]. cbv beta.
  rewrite (proj2 (Z.eqb_neq _ _)) by lia. unfold rlift. by rewrite Hd.
Qed.

Lemma rt_opaque_op {T} d id from_tag (opaque : Z -> T) s : inu 32 id -> is_extension id = true ->
  rt d (put_u8 0x80 ;> put_u32 id) (read_op from_tag opaque s) (opaque id).
Proof.
  intros ??. eapply rt_bind; [apply rt_u8; width_lia|]. cbn.
  eapply rt_last; [by apply rt_u32|]. rewrite DataTypeWire.reserved_ok by done. reflexivity.
Qed.

Lemma rt_bin_op d op : bin_op_repr op -> bin_op_wire_ok op ->
  rt d (put_bin_op op) (read_op bin_op_from_tag BinOp.Opaque "BinOp") op.
Proof.
  intros Hr Hok. destruct op; try (by apply (rt_op BIN_OP_TAGS)). by apply rt_opaque_op.
Qed.
Lemma rt_un_op d op : un_op_repr op -> un_op_wire_ok op ->
  rt d (put_un_op op) (read_op un_op_from_tag UnOp.Opaque "UnOp") op.
Proof.
  intros Hr Hok. destruct op; try (by apply (rt_op UN_OP_TAGS)). by apply rt_opaque_op.
Qed.
Lemma rt_atomic_op d op : atomic_op_repr op -> atomic_op_wire_ok op ->
  rt d (put_atomic_op op) (read_op atomic_op_from_tag AtomicOp.Opaque "AtomicOp") op.
Proof.
  intros Hr Hok. destruct op; try (by apply (rt_op ATOMIC_OP_TAGS)). by apply rt_opaque_op.
Qed.

Lemma rt_ordering d o :
  rt d (put_u8 (MemoryOrdering.ordering_wire_tag o)) read_ordering o.
Proof.
  eapply rt_last; [apply rt_u8, MemoryOrdering.ordering_tag_range|]. cbv beta.
  by rewrite MemoryOrdering.ordering_tag_roundtrip.
Qed.

Lemma rt_opaque_payload {X} d kind payload what what' (decode : string -> bytes -> wire X) x :
  str_ok kind = true -> Forall (inu 8) payload -> name_ok kind ->
  blen payload <= MAX_OPAQUE_PAYLOAD_LEN -> decode kind payload = Ok x ->
  rt d (put_opaque_payload kind payload what) (read_opaque decode what') x.
Proof.
  intros Hk Hp Hn Hl Hd. unfold put_opaque_payload, read_opaque.
  rewrite (proj2 (Z.ltb_ge _ _)) by done.
  eapply rt_bind; [by apply rt_name|].
  eapply rt_bind; [apply rt_bounded_len; unfold MAX_OPAQUE_PAYLOAD_LEN, MAX_ARGS in *;
                   pose proof (blen_nonneg payload); lia|].
  eapply rt_last; [by apply rt_raw|]. cbv beta. unfold rlift. by rewrite Hd.
Qed.

#[local] Hint Resolve rt_name rt_bin_op rt_un_op rt_atomic_op rt_ordering
  DataTypeWire.rt_data_type : wire.
#[local] Hint Extern 2 (_ <= _) => lia : wire.

Lemma canonical_f32_bits_range v : inu 32 v -> inu 32 (canonical_f32_bits v).
Proof. unfold canonical_f32_bits. repeat case_match; width_lia. Qed.
#[local] Hint Resolve canonical_f32_bits_range : wire.

(** The property [rt_expr_rec] proves of one expression. *)
Definition expr_rt (e : Expr) : Prop := forall d fuel,
  expr_repr e -> expr_wire_ok e -> d + Z.of_nat (expr_depth e) <= MAX_DECODE_DEPTH ->
  (expr_depth e <= fuel)%nat ->
  rt d (put_expr_rec e) (read_expr_fuel reg fuel) (canonical_expr e).

Lemma rt_args d fuel args :
  Forall expr_rt args -> Forall_list expr_repr args -> Forall_list expr_wire_ok args ->
  d + Z.of_nat (list_max (map expr_depth args)) <= MAX_DECODE_DEPTH ->
  (list_max (map expr_depth args) <= fuel)%nat ->
  rt d (wlist put_expr_rec args) (read_n (Z.to_nat (blen args)) (read_expr_fuel reg fuel))
    (map canonical_expr args).
Proof.
  rewrite !Forall_list_Forall. intros IH Hr Hok Hd Hf.
  unfold blen. rewrite Nat2Z.id. apply rt_list_map.
  pose proof (proj1 (list_max_le _ _) (Nat.le_refl (list_max (map expr_depth args)))) as Hm.
  rewrite Forall_map in Hm. rewrite !Forall_forall in *.
  intros x Hx. specialize (Hm x Hx). cbn in Hm. apply IH; auto; lia.
Qed.

Lemma rt_ret_bind {A B} d w (a : A) (k : A -> Rd B) b : rt d w (k a) b -> rt d w (mret a ≫= k) b.
Proof. done. Qed.

Lemma rt_nil_r {A} d w (m : Rd A) x : rt d w m x -> rt d (w ;> wnil) m x.
Proof. apply rt_ext; [|done]. intros. by rewrite wseq_nil_r. Qed.

Lemma rt_expr_rec e d fuel :
  expr_repr e -> expr_wire_ok e -> d + Z.of_nat (expr_depth e) <= MAX_DECODE_DEPTH ->
  (expr_depth e <= fuel)%nat ->
  rt d (put_expr_rec e) (read_expr_fuel reg fuel) (canonical_expr e).
Proof.
  revert d fuel; induction e using Expr_ind'; intros d fuel Hr Hok Hd Hn;
    (destruct fuel as [|fuel]; [cbn in Hn; lia|]);
    cbn [expr_repr expr_wire_ok expr_depth put_expr_rec canonical_expr read_expr_fuel
         encode_header] in *;
    destruct_and?; (apply rt_with_depth; [lia|]); unfold expr_inner;
    try solve [rt_auto].
  - destruct v; rt_auto.
  - rt_auto.
    eapply rt_bind; [apply rt_bounded_len; [|unfold MAX_ARGS; lia]; auto with wire|]. cbv beta.
    eapply rt_last; [apply rt_args; eauto; lia|]. reflexivity.
  - destruct e2 as [x|]; rt_auto.
    + eapply rt_bind; [eapply (rt_last _ _ (read_expr_fuel reg fuel)); [by apply H; auto; lia|];
                       reflexivity|]. rt_auto.
    + apply rt_ret_bind. rt_auto.
  - apply rt_assoc. eapply rt_bind; [apply rt_u8; width_lia|]. cbv iota beta.
    apply rt_nil_r. by apply rt_opaque_payload.
Qed.

Lemma rt_expr e d :
  expr_repr e -> expr_wire_ok e -> d + Z.of_nat (expr_depth e) <= MAX_DECODE_DEPTH ->
  rt d (put_expr e) (read_expr reg) (canonical_expr e).
Proof.
  intros Hr Hok Hd.
  destruct (rt_expr_rec e d (S (Z.to_nat (MAX_DECODE_DEPTH - d))) Hr Hok Hd)
    as (enc & He & Hb & Hdec); [lia|].
  exists enc. split_and!; [|done|].
  - intros out. by rewrite put_expr_eq_rec.
  - intros pre post Hl. unfold read_expr. cbn [rd_depth]. by apply Hdec.
Qed.

(** ** What the decoder returns *)

(** The contract of a registered resolver: it deserializes under its own kind,
    and what it returns serializes to a bounded payload it accepts again. *)
Definition resolver_lawful {X} (kind_of : X -> string) (payload_of : X -> bytes)
    (table : option (gmap string (bytes -> option X))) : Prop :=
  forall t kind f p x, table = Some t -> t !! kind = Some f -> f p = Some x ->
    kind_of x = kind /\ Forall (inu 8) (payload_of x)
    /\ blen (payload_of x) <= MAX_OPAQUE_PAYLOAD_LEN /\ f (payload_of x) = Some x.

Class LawfulRegistry : Prop := {
  lawful_exprs : resolver_lawful en_extension_kind en_wire_payload (opaque_exprs reg);
  lawful_nodes : resolver_lawful ne_extension_kind ne_wire_payload (opaque_nodes reg);
}.

Lemma resolve_opaque_fuel {X} (table : option (gmap string (bytes -> option X))) kind p :
  resolve_opaque table kind p <> Err OutOfFuel.
Proof.
  unfold resolve_opaque, ok_or. destruct table as [t|]; cbn; [|discriminate].
  destruct (t !! kind) as [f|]; [|discriminate]. by destruct (f p).
Qed.

Lemma resolve_opaque_lawful {X} (kind_of : X -> string) payload_of table kind p x :
  resolver_lawful kind_of payload_of table -> resolve_opaque table kind p = Ok x ->
  kind_of x = kind /\ Forall (inu 8) (payload_of x)
  /\ blen (payload_of x) <= MAX_OPAQUE_PAYLOAD_LEN
  /\ resolve_opaque table kind (payload_of x) = Ok x.
Proof.
  intros Hlaw. unfold resolve_opaque, ok_or. destruct table as [t|]; cbn; [|done].
  destruct (t !! kind) as [f|] eqn:Hf; [|done]. destruct (f p) as [y|] eqn:Hp; intros [= ->].
  destruct (Hlaw t kind f p x eq_refl Hf Hp) as (? & ? & ? & E). by rewrite E.
Qed.

Lemma yields_opaque {X Y} P `{!Steady P} (kind_of : X -> string) payload_of table what
    (wrap : X -> Y) (φ : Y -> Prop) :
  resolver_lawful kind_of payload_of table ->
  (forall x, wire_str (kind_of x) -> Forall (inu 8) (payload_of x) ->
     blen (payload_of x) <= MAX_OPAQUE_PAYLOAD_LEN ->
     resolve_opaque table (kind_of x) (payload_of x) = Ok x -> φ (wrap x)) ->
  yields P (read_opaque (fun k p => wrap <$> resolve_opaque table k p) what) φ.
Proof.
  intros Hlaw Hφ. unfold read_opaque. eapply yields_bind; [by apply yields_string|]. intros k Hk.
  eapply yields_bind; [by apply yields_bounded_len|]. intros n [Hn _].
  eapply yields_bind; [by apply yields_bytes|]. intros l _.
  pose proof (resolve_opaque_fuel table k l) as Hfuel.
  pose proof (fun x => resolve_opaque_lawful _ _ _ k l x Hlaw) as Hl.
  destruct (resolve_opaque table k l) as [x|e] eqn:E; cbn; apply yields_lift; try done.
  - intros ? [= <-]. destruct (Hl x eq_refl) as (<- & ? & ? & ?). by apply Hφ.
  - intros [= ->]. done.
Qed.

Lemma yields_with_depth {A} d (m : Rd A) φ :
  yields (at_depth (d + 1)) m φ ->
  yields (at_depth d) (with_depth m) (fun x => φ x /\ d < MAX_DECODE_DEPTH).
Proof.
  intros Hm r (Hb & Hp & <-). unfold with_depth.
  destruct (Z.leb_spec MAX_DECODE_DEPTH (rd_depth r)); [discriminate|].
  specialize (Hm (mkReader (rd_bytes r) (rd_pos r) (rd_depth r + 1))).
  destruct (m _) as [[x r']|e]; [|by apply Hm].
  destruct Hm as [(? & ? & Hd) ?]; [done|]. unfold at_depth. cbn.
  split_and!; try tauto. lia.
Qed.

Lemma yields_op {T} `{EqDecision T} P `{!Steady P} (table : list (Z * T)) k opaque s (φ : T -> Prop) :
  (forall op tag, In (tag, op) table -> φ op) ->
  (forall id, inu 32 id -> is_extension id = true -> φ (opaque id)) ->
  yields P (read_op (fun t => decode_tag t table k) opaque s) φ.
Proof.
  intros Ht Ho. unfold read_op. eapply yields_bind; [by apply yields_u8|]. intros tag Htag.
  case_match.
  - eapply yields_bind; [by apply yields_u32|]. intros raw Hraw.
    eapply yields_bind; [by apply DataTypeWire.yields_reserved|]. intros id [? ?].
    apply yields_ret. auto.
  - unfold decode_tag. destruct (find_value tag table) as [op|] eqn:E; cbn.
    + apply yields_ret. by eapply Ht, find_value_In.
    + apply yields_err. discriminate.
Qed.

(** Every builtin operator meets the wire limits. *)
Lemma yields_bin_op P `{!Steady P} :
  yields P (read_op bin_op_from_tag BinOp.Opaque "BinOp")
    (fun op => bin_op_repr op /\ bin_op_wire_ok op).
Proof. apply yields_op; [done| |done]. intros op tag Hin. cbn in Hin. naive_solver. Qed.
Lemma yields_un_op P `{!Steady P} :
  yields P (read_op un_op_from_tag UnOp.Opaque "UnOp")
    (fun op => un_op_repr op /\ un_op_wire_ok op).
Proof. apply yields_op; [done| |done]. intros op tag Hin. cbn in Hin. naive_solver. Qed.
Lemma yields_atomic_op P `{!Steady P} :
  yields P (read_op atomic_op_from_tag AtomicOp.Opaque "AtomicOp")
    (fun op => atomic_op_repr op /\ atomic_op_wire_ok op).
Proof. apply yields_op; [done| |done]. intros op tag Hin. cbn in Hin. naive_solver. Qed.

Lemma yields_ordering P `{!Steady P} : yields P read_ordering (fun _ => True).
Proof.
  eapply yields_bind; [by apply yields_u8|]. intros tag _. apply yields_lift; [|done].
  by destruct (MemoryOrdering.ordering_from_wire_tag tag).
Qed.
#[local] Hint Resolve yields_bin_op yields_un_op yields_atomic_op yields_ordering
  DataTypeWire.yields_data_type : yields.

(** The expressions a decoder at depth [d] may return. *)
Definition expr_decoded (d : Z) (e : Expr) : Prop :=
  expr_repr e /\ expr_wire_ok e /\ d + Z.of_nat (expr_depth e) <= MAX_DECODE_DEPTH.

Context `{!LawfulRegistry}.

Lemma yields_args d (rec : Rd Expr) n :
  yields (at_depth d) rec (expr_decoded d) ->
  yields (at_depth d) (read_n n rec)
    (fun l => Forall_list expr_repr l /\ Forall_list expr_wire_ok l /\ length l = n
       /\ Forall (fun e => (expr_depth e <= Z.to_nat (MAX_DECODE_DEPTH - d))%nat) l).
Proof.
  intros Hrec. eapply yields_mono; [by apply yields_read_n|]. intros l [Hl Hn].
  rewrite !Forall_list_Forall. unfold expr_decoded in Hl.
  split_and!; [| |done|]; (eapply Forall_impl; [exact Hl|]); intros e (?&?&?); auto; lia.
Qed.

Lemma yields_expected d (rec : Rd Expr) (present : Z) :
  yields (at_depth d) rec (expr_decoded d) ->
  yields (at_depth d) (if present =? 0 then mret None else x ← rec; mret (Some x))
    (Forall_opt (expr_decoded d)).
Proof.
  intros Hrec. case_match; [by apply yields_ret|].
  eapply yields_bind; [exact Hrec|]. intros x Hx. by apply yields_ret.
Qed.

Lemma yields_opaque_expr d :
  yields (at_depth d) (read_opaque (decode_opaque_expr reg) "opaque expression payload")
    (fun e => exists x, e = Expr.Opaque x /\ expr_repr e /\ expr_wire_ok e).
Proof.
  apply (yields_opaque _ en_extension_kind en_wire_payload); [apply lawful_exprs|].
  intros x [Hk Hn] Hp Hl Hx. exists x. cbn. unfold decode_opaque_expr. by rewrite Hx.
Qed.
#[local] Hint Resolve yields_args yields_expected yields_opaque_expr : yields.

Lemma expr_inner_yields d rec :
  d <= MAX_DECODE_DEPTH ->
  yields (at_depth d) rec (expr_decoded d) ->
  yields (at_depth d) (expr_inner reg rec)
    (fun e => expr_repr e /\ expr_wire_ok e
       /\ d + Z.of_nat (pred (expr_depth e)) <= MAX_DECODE_DEPTH).
Proof.
  intros Hd Hrec. unfold expr_inner. yields_auto.
  18: { eapply yields_mono; [apply yields_opaque_expr|]. intros ? (ext & -> & ? & ?). split_and!; [done|done|cbn; lia]. }
  all: unfold expr_decoded, DataTypeWire.data_type_decoded, wire_str in *; destruct_and?; cbn -[Z.of_nat]; split_and?; auto; try lia.
  - unfold blen. lia.
  - assert (list_max (map expr_depth x2) <= Z.to_nat (MAX_DECODE_DEPTH - d))%nat; [|lia].
    by apply list_max_le, Forall_map.
  - destruct x5; naive_solver.
  - destruct x5; naive_solver.
  - destruct x5; cbn in *; destruct_and?; lia.
Qed.

Lemma yields_too_deep {A} d (m : Rd A) φ :
  MAX_DECODE_DEPTH <= d -> yields (at_depth d) (with_depth m) φ.
Proof.
  intros Hd r (_ & _ & Hr). unfold with_depth.
  rewrite (proj2 (Z.leb_le _ _)) by lia. discriminate.
Qed.

Lemma yields_expr_fuel fuel d :
  (Z.to_nat (MAX_DECODE_DEPTH - d) < fuel)%nat ->
  yields (at_depth d) (read_expr_fuel reg fuel) (expr_decoded d).
Proof.
  revert d; induction fuel as [|fuel IH]; intros d Hf; cbn [read_expr_fuel]; [lia|].
  destruct (Z.lt_ge_cases d MAX_DECODE_DEPTH) as [Hd|Hd]; [|by apply yields_too_deep].
  eapply yields_mono.
  - apply yields_with_depth, expr_inner_yields; [lia|]. apply IH. lia.
  - unfold expr_decoded. intros e [(? & ? & ?) _]. split_and!; auto.
    destruct (expr_depth e) eqn:E; [by destruct e|]. cbn in *. lia.
Qed.

Lemma yields_expr d : yields (at_depth d) (read_expr reg) (expr_decoded d).
Proof.
  intros r Hr. unfold read_expr. pose proof Hr as (_ & _ & <-).
  apply yields_expr_fuel; [lia|done].
Qed.
End ExprRoundtrip.

(** *** Canonical forms *)

Lemma canonical_f32_idem v : canonical_f32_bits (canonical_f32_bits v) = canonical_f32_bits v.
Proof.
  unfold canonical_f32_bits at 2 3. destruct (f32_is_nan v) eqn:En; [done|].
  destruct (f32_is_subnormal v) eqn:Es; [done|]. destruct (v =? 0x80000000) eqn:Ez; [done|].
  unfold canonical_f32_bits. by rewrite En, Es, Ez.
Qed.

Lemma encode_header_canonical e : encode_header (canonical_expr e) = encode_header e.
Proof.
  destruct e; try done; cbn.
  - by rewrite canonical_f32_idem.
  - unfold blen. by rewrite length_map.
Qed.

Lemma wlist_ext {A} (p q : A -> Wr) l out :
  Forall (fun x => forall o, p x o = q x o) l -> wlist p l out = wlist q l out.
Proof.
  intros H; revert out; induction H as [|x l Hx Hl IH]; intros out; cbn; [done|].
  unfold wseq. rewrite Hx. destruct (q x out); cbn; auto.
Qed.

Lemma wseq_ext2 w1 w2 w1' w2' out :
  (forall o, w1 o = w1' o) -> (forall o, w2 o = w2' o) -> (w1 ;> w2) out = (w1' ;> w2') out.
Proof. intros H1 H2. unfold wseq. rewrite H1. destruct (w1' out); cbn; auto. Qed.

Lemma put_expr_rec_canonical e out : put_expr_rec (canonical_expr e) out = put_expr_rec e out.
Proof.
  revert out; induction e using Expr_ind'; intros out; try done;
    cbn [put_expr_rec canonical_expr];
    try (match goal with |- (encode_header ?a ;> _) _ = (encode_header ?b ;> _) _ =>
           change a with (canonical_expr b) end; rewrite encode_header_canonical);
    repeat (apply wseq_ext2; intros; auto).
  - rewrite wlist_map. by apply wlist_ext.
  - destruct e2; cbn in *; [apply H|done].
Qed.

(** ** Properties *)

Module ExprWire.

(** A registry with one resolver, which accepts any payload. *)
Definition echo_node (payload : bytes) : ExprNode :=
  mkExprNode "echo" "echo" None false [] true payload.
Definition echo_registry : OpaqueRegistry :=
  mkOpaqueRegistry
    (Some {[ "echo" := (fun p => if (length p <=? 16)%nat && forallb (fun b => (0 <=? b) && (b <? 256)) p
                                 then Some (echo_node p) else None) ]})
    (Some ∅).

#[global] Instance echo_lawful : LawfulRegistry echo_registry.
Proof.
  split; intros t kind f p x [= <-]; [|by rewrite lookup_empty].
  rewrite lookup_singleton_Some. intros [<- <-].
  destruct (_ && _) eqn:E; [|done]. intros [= <-]. cbn. rewrite E.
  apply andb_true_iff in E as [El Eb]. apply Nat.leb_le in El.
  split_and!; try done; [|unfold blen, MAX_OPAQUE_PAYLOAD_LEN; lia].
  rewrite forallb_forall in Eb. apply Forall_forall. intros b Hb%list_elem_of_In.
  apply Eb, andb_true_iff in Hb. width_lia.
Qed.

(** C20: every expression within the wire limits round trips through the explicit
    stack encoder and the recursive-descent decoder, up to canonicalisation of
    float literals, wherever it is embedded in the buffer and at whatever
    recursion depth leaves room for its nesting. *)
Theorem expr_roundtrip reg d e
  (Hrepr : expr_repr e) (Hok : expr_wire_ok reg e)
  (Hdepth : d + Z.of_nat (expr_depth e) <= MAX_DECODE_DEPTH) :
  rt d (put_expr e) (read_expr reg) (canonical_expr e).
Proof. by apply rt_expr. Qed.

Lemma expr_roundtrip_witness :
  let e := Expr.Call "f" [Expr.Opaque (echo_node [1; 2; 3]);
             Expr.Atomic AtomicOp.CompareExchange "buf" (Expr.LitI32 (-1)) (Some (Expr.LitF32 1))
               (Expr.BinOp (BinOp.Opaque 0x80000001) (Expr.Var "x") (Expr.LitBool true))
               MemoryOrdering.AcqRel] in
  rt 60 (put_expr e) (read_expr echo_registry) (canonical_expr e).
Proof.
  cbv zeta. apply expr_roundtrip.
  - cbn. unfold inu, ins. repeat split; try reflexivity; try lia.
    repeat constructor; unfold inu; lia.
  - cbn -[Z.le]. unfold name_ok, blen, MAX_STRING_LEN, MAX_OPAQUE_PAYLOAD_LEN, MAX_ARGS. cbn.
    repeat split; try reflexivity; try lia.
  - cbn. unfold MAX_DECODE_DEPTH. lia.
Defined.

(** What the encoder normalises is a canonical form: canonicalising twice is
    canonicalising once, and an expression and its canonical form have the same
    wire bytes, so re-encoding a decoded expression reproduces its bytes. *)
Theorem canonical_expr_stable e out :
  put_expr (canonical_expr e) out = put_expr e out
  /\ forall v, canonical_f32_bits (canonical_f32_bits v) = canonical_f32_bits v.
Proof.
  split; [|apply canonical_f32_idem].
  by rewrite !put_expr_eq_rec, put_expr_rec_canonical.
Qed.

(** [Reader::expr] terminates on every input: the recursion guard is reached
    before the model's fuel, so the result is a diagnostic or an expression
    whose fields fit their types, which is within the wire limits, and whose
    nesting fits in the depth budget left at the call. *)
Theorem read_expr_total reg `{!LawfulRegistry reg} r (Hr : at_depth (rd_depth r) r) :
  (exists e r', read_expr reg r = Ok (e, r') /\ at_depth (rd_depth r) r'
     /\ expr_repr e /\ expr_wire_ok reg e
     /\ rd_depth r + Z.of_nat (expr_depth e) <= MAX_DECODE_DEPTH)
  \/ (exists err, read_expr reg r = Err err /\ err <> OutOfFuel).
Proof.
  pose proof (yields_expr reg (rd_depth r) r Hr) as H.
  destruct (read_expr reg r) as [[e r']|err]; [left|right]; [|eauto].
  destruct H as [? (? & ? & ?)]. eauto 10.
Qed.

Lemma read_expr_total_witness :
  let r := mkReader [10; 2; 10; 2; 0; 7; 0; 0; 0] 0 62 in
  (exists e r', read_expr echo_registry r = Ok (e, r') /\ at_depth 62 r'
     /\ expr_repr e /\ expr_wire_ok echo_registry e
     /\ 62 + Z.of_nat (expr_depth e) <= MAX_DECODE_DEPTH)
  \/ (exists err, read_expr echo_registry r = Err err /\ err <> OutOfFuel).
Proof.
  cbv zeta. apply (read_expr_total echo_registry (mkReader [10; 2; 10; 2; 0; 7; 0; 0; 0] 0 62)).
  split_and!; cbn; [repeat constructor; width_lia|lia|unfold blen; cbn; lia|done].
Defined.
End ExprWire.
