(* ===== verification/WireNode.v ===== *)
(** The statement codec: [put_node] and [put_nodes] ([encode/]), and
    [Reader::node] / [Reader::nodes] ([decode/impl_reader.rs]), which share the
    expression decoder's recursion budget. *)

From S2P Require Import Prelude Spec IR WireFraming WireTags WireExpr.

(** ** Encoder *)

(** [put_nodes], with the statement encoder as [put]. *)
Definition put_nodes_with (put : Node -> Wr) (nodes : list Node) : Wr :=
  put_len_u32 (blen nodes) "node count" ;> wlist put nodes.

Fixpoint put_node (n : Node) : Wr :=
  match n with
  | Node.Let name value => put_u8 0 ;> put_string name ;> put_expr value
  | Node.Assign name value => put_u8 1 ;> put_string name ;> put_expr value
  | Node.Store buffer index value =>
      put_u8 2 ;> put_string buffer ;> put_expr index ;> put_expr value
  | Node.If cond thn otherwise =>
      put_u8 3 ;> put_expr cond ;> put_nodes_with put_node thn ;> put_nodes_with put_node otherwise
  | Node.Loop var from to body =>
      put_u8 4 ;> put_string var ;> put_expr from ;> put_expr to ;> put_nodes_with put_node body
  | Node.Return => put_u8 5
  | Node.Block nodes => put_u8 6 ;> put_nodes_with put_node nodes
  | Node.Barrier ordering => put_u8 7 ;> put_u8 (MemoryOrdering.ordering_wire_tag ordering)
  | Node.IndirectDispatch count_buffer count_offset =>
      put_u8 8 ;> put_string count_buffer ;> put_u64 count_offset
  | Node.AsyncLoad source destination offset size tag =>
      put_u8 9 ;> put_string source ;> put_string destination ;> put_expr offset ;>
      put_expr size ;> put_string tag
  | Node.AsyncStore source destination offset size tag =>
      put_u8 12 ;> put_string source ;> put_string destination ;> put_expr offset ;>
      put_expr size ;> put_string tag
  | Node.Trap address tag => put_u8 13 ;> put_expr address ;> put_string tag
  | Node.Resume tag => put_u8 14 ;> put_string tag
  | Node.AllReduce buffer op group =>
      put_u8 15 ;> put_string buffer ;> put_u8 (CollectiveOp.collective_wire_tag op) ;>
      put_u32 group
  | Node.AllGather input output group =>
      put_u8 16 ;> put_string input ;> put_string output ;> put_u32 group
  | Node.ReduceScatter input output op group =>
      put_u8 17 ;> put_string input ;> put_string output ;>
      put_u8 (CollectiveOp.collective_wire_tag op) ;> put_u32 group
  | Node.Broadcast buffer root group =>
      put_u8 18 ;> put_string buffer ;> put_u32 root ;> put_u32 group
  | Node.AsyncWait tag => put_u8 10 ;> put_string tag
  | Node.Region generator source_region body =>
      put_u8 11 ;> put_string generator ;>
      match source_region with
      | Some name => put_u8 1 ;> put_string name
      | None => put_u8 0
      end ;>
      put_nodes_with put_node body
  | Node.Opaque x =>
      put_u8 0x80 ;>
      put_opaque_payload (ne_extension_kind x) (ne_wire_payload x) "opaque node payload"
  end.

Definition put_nodes (nodes : list Node) : Wr := put_nodes_with put_node nodes.

(** ** Decoder *)

Definition read_collective : Rd CollectiveOp :=
  tag ← read_u8;
  rlift (ok_or (CollectiveOp.collective_from_wire_tag tag) (UnknownTag "collective" tag)).

(** [Reader::nodes], with [self.node()] as [rec]. *)
Definition read_nodes_with (rec : Rd Node) : Rd (list Node) :=
  count ← bounded_len MAX_NODES "node count";
  read_n (Z.to_nat count) rec.

(** The optional [source_region] of a [Region]. *)
Definition read_source_region : Rd (option string) :=
  presence ← read_u8;
  match presence with
  | 0 => mret None
  | 1 => name ← read_string; mret (Some name)
  | _ => rerr (Malformed "Region source_region presence byte")
  end.

Section NodeDecoder.
Context (reg : OpaqueRegistry).

Definition node_inner (rec : Rd Node) : Rd Node :=
  let expr := read_expr reg in
  tag ← read_u8;
  match tag with
  | 0 => name ← read_string; value ← expr; mret (Node.Let name value)
  | 1 => name ← read_string; value ← expr; mret (Node.Assign name value)
  | 2 => buffer ← read_string; index ← expr; value ← expr; mret (Node.Store buffer index value)
  | 3 => cond ← expr; thn ← read_nodes_with rec; otherwise ← read_nodes_with rec;
         mret (Node.If cond thn otherwise)
  | 4 => var ← read_string; from ← expr; to ← expr; body ← read_nodes_with rec;
         mret (Node.Loop var from to body)
  | 5 => mret Node.Return
  | 6 => body ← read_nodes_with rec; mret (Node.Block body)
  | 7 => ordering ← read_ordering; mret (Node.Barrier ordering)
  | 8 => count_buffer ← read_string; count_offset ← read_u64;
         mret (Node.IndirectDispatch count_buffer count_offset)
  | 9 => source ← read_string; destination ← read_string; offset ← expr; size ← expr;
         tag ← read_string; mret (Node.AsyncLoad source destination offset size tag)
  | 10 => tag ← read_string; mret (Node.AsyncWait tag)
  | 12 => source ← read_string; destination ← read_string; offset ← expr; size ← expr;
          tag ← read_string; mret (Node.AsyncStore source destination offset size tag)
  | 13 => address ← expr; tag ← read_string; mret (Node.Trap address tag)
  | 14 => tag ← read_string; mret (Node.Resume tag)
  | 15 => buffer ← read_string; op ← read_collective; group ← read_u32;
          mret (Node.AllReduce buffer op group)
  | 16 => input ← read_string; output ← read_string; group ← read_u32;
          mret (Node.AllGather input output group)
  | 17 => input ← read_string; output ← read_string; op ← read_collective; group ← read_u32;
          mret (Node.ReduceScatter input output op group)
  | 18 => buffer ← read_string; root ← read_u32; group ← read_u32;
          mret (Node.Broadcast buffer root group)
  | 11 => generator ← read_string; source_region ← read_source_region;
          body ← read_nodes_with rec; mret (Node.Region generator source_region body)
  | 0x80 => read_opaque (decode_opaque_node reg) "opaque node payload"
  | tag => rerr (UnknownTag "IR node" tag)
  end.

Fixpoint read_node_fuel (fuel : nat) : Rd Node :=
  match fuel with
  | O => rerr OutOfFuel
  | S fuel => with_depth (node_inner (read_node_fuel fuel))
  end.

Definition read_node : Rd Node := fun r =>
  read_node_fuel (S (Z.to_nat (MAX_DECODE_DEPTH - rd_depth r))) r.

Definition read_nodes : Rd (list Node) := read_nodes_with read_node.
End NodeDecoder.

(** ** Statement round trip *)

Fixpoint canonical_node (n : Node) : Node :=
  match n with
  | Node.Let x e => Node.Let x (canonical_expr e)
  | Node.Assign x e => Node.Assign x (canonical_expr e)
  | Node.Store b i v => Node.Store b (canonical_expr i) (canonical_expr v)
  | Node.If c t o => Node.If (canonical_expr c) (map canonical_node t) (map canonical_node o)
  | Node.Loop v f t b =>
      Node.Loop v (canonical_expr f) (canonical_expr t) (map canonical_node b)
  | Node.AsyncLoad s d o z t => Node.AsyncLoad s d (canonical_expr o) (canonical_expr z) t
  | Node.AsyncStore s d o z t => Node.AsyncStore s d (canonical_expr o) (canonical_expr z) t
  | Node.Trap a t => Node.Trap (canonical_expr a) t
  | Node.Block b => Node.Block (map canonical_node b)
  | Node.Region g s b => Node.Region g s (map canonical_node b)
  | _ => n
  end.

Section NodeRoundtrip.
Context (reg : OpaqueRegistry).

Fixpoint node_wire_ok (n : Node) : Prop :=
  match n with
  | Node.Let x e | Node.Assign x e => name_ok x /\ expr_wire_ok reg e
  | Node.Store b i v => name_ok b /\ expr_wire_ok reg i /\ expr_wire_ok reg v
  | Node.If c t o =>
      expr_wire_ok reg c /\ (blen t <= MAX_NODES /\ Forall_list node_wire_ok t)
      /\ (blen o <= MAX_NODES /\ Forall_list node_wire_ok o)
  | Node.Loop v f t b =>
      name_ok v /\ expr_wire_ok reg f /\ expr_wire_ok reg t
      /\ (blen b <= MAX_NODES /\ Forall_list node_wire_ok b)
  | Node.IndirectDispatch b _ => name_ok b
  | Node.AsyncLoad s d o z t | Node.AsyncStore s d o z t =>
      name_ok s /\ name_ok d /\ expr_wire_ok reg o /\ expr_wire_ok reg z /\ name_ok t
  | Node.AsyncWait t | Node.Resume t => name_ok t
  | Node.Trap a t => expr_wire_ok reg a /\ name_ok t
  | Node.AllReduce b _ _ | Node.Broadcast b _ _ => name_ok b
  | Node.AllGather i o _ | Node.ReduceScatter i o _ _ => name_ok i /\ name_ok o
  | Node.Return | Node.Barrier _ => True
  | Node.Block b => blen b <= MAX_NODES /\ Forall_list node_wire_ok b
  | Node.Region g s b =>
      name_ok g /\ match s with Some x => name_ok x | None => True end
      /\ (blen b <= MAX_NODES /\ Forall_list node_wire_ok b)
  | Node.Opaque x =>
      name_ok (ne_extension_kind x) /\ blen (ne_wire_payload x) <= MAX_OPAQUE_PAYLOAD_LEN
      /\ decode_opaque_node reg (ne_extension_kind x) (ne_wire_payload x) = Ok (Node.Opaque x)
  end.

Lemma rt_collective d op :
  rt d (put_u8 (CollectiveOp.collective_wire_tag op)) read_collective op.
Proof.
  eapply rt_last; [apply rt_u8, CollectiveOp.collective_tag_range|]. cbv beta.
  by rewrite CollectiveOp.collective_tag_roundtrip.
Qed.

(** A source region is one field on the wire. *)
Definition source_region_ok (s : option string) : Prop :=
  match s with Some x => str_ok x = true /\ name_ok x | None => True end.

Lemma rt_source_region d s : source_region_ok s ->
  rt d (match s with Some name => put_u8 1 ;> put_string name | None => put_u8 0 end)
       read_source_region s.
Proof.
  unfold read_source_region. destruct s as [x|]; intros Hs.
  - eapply rt_bind; [apply rt_u8; width_lia|]. cbv beta iota.
    eapply rt_last; [by apply rt_name; apply Hs|]. done.
  - eapply rt_last; [apply rt_u8; width_lia|]. done.
Qed.

Definition node_rt (n : Node) : Prop := forall d fuel,
  node_repr n -> node_wire_ok n -> d + Z.of_nat (node_depth n) <= MAX_DECODE_DEPTH ->
  (node_depth n <= fuel)%nat ->
  rt d (put_node n) (read_node_fuel reg fuel) (canonical_node n).

Lemma rt_nodes_with d fuel l :
  Forall node_rt l -> Forall_list node_repr l ->
  blen l <= MAX_NODES /\ Forall_list node_wire_ok l ->
  d + Z.of_nat (list_max (map node_depth l)) <= MAX_DECODE_DEPTH ->
  (list_max (map node_depth l) <= fuel)%nat ->
  rt d (put_nodes_with put_node l) (read_nodes_with (read_node_fuel reg fuel))
    (map canonical_node l).
Proof.
  rewrite !Forall_list_Forall. intros IH Hr [Hl Hok] Hd Hf. unfold read_nodes_with.
  eapply rt_bind; [apply rt_bounded_len; unfold MAX_NODES in *; pose proof (blen_nonneg l); lia|].
  cbv beta. unfold blen. rewrite Nat2Z.id. apply rt_list_map.
  pose proof (proj1 (list_max_le _ _) (Nat.le_refl (list_max (map node_depth l)))) as Hm.
  rewrite Forall_map in Hm. rewrite !Forall_forall in *.
  intros x Hx. specialize (Hm x Hx). cbn in Hm. apply IH; auto; lia.
Qed.

#[local] Hint Resolve rt_name rt_expr rt_ordering rt_collective rt_nodes_with rt_source_region : wire.
#[local] Hint Extern 2 (_ <= _) => lia : wire.

Lemma rt_node_fuel n : node_rt n.
Proof.
  unfold node_rt. induction n using Node_ind'; intros k fuel Hr Hok Hd Hf;
    (destruct fuel as [|fuel]; [cbn in Hf; lia|]);
    cbn [node_repr node_wire_ok node_depth put_node canonical_node read_node_fuel] in *;
    (apply rt_with_depth; [lia|]); unfold node_inner; cbv zeta;
    repeat match goal with
    | H : ?A /\ ?B |- _ =>
        lazymatch B with Forall_list node_wire_ok _ => fail | _ => destruct H end
    end.
  all: try solve [rt_auto].
  - assert (source_region_ok s) by (destruct s; cbn; auto). rt_auto.
  - eapply rt_bind; [apply rt_u8; width_lia|]. cbv beta iota. by apply rt_opaque_payload.
Qed.

Lemma rt_node n d :
  node_repr n -> node_wire_ok n -> d + Z.of_nat (node_depth n) <= MAX_DECODE_DEPTH ->
  rt d (put_node n) (read_node reg) (canonical_node n).
Proof.
  intros Hr Hok Hd.
  destruct (rt_node_fuel n d (S (Z.to_nat (MAX_DECODE_DEPTH - d))) Hr Hok Hd)
    as (enc & He & Hb & Hdec); [lia|].
  exists enc. split_and!; [done|done|].
  intros pre post Hl. unfold read_node. cbn [rd_depth]. by apply Hdec.
Qed.

(** ** What the decoder returns *)

Lemma yields_collective P `{!Steady P} : yields P read_collective (fun _ => True).
Proof.
  eapply yields_bind; [by apply yields_u8|]. intros tag _. apply yields_lift; [|done].
  by destruct (CollectiveOp.collective_from_wire_tag tag).
Qed.

Lemma yields_source_region P `{!Steady P} : yields P read_source_region source_region_ok.
Proof. unfold read_source_region. yields_auto; done. Qed.

Definition node_decoded (d : Z) (n : Node) : Prop :=
  node_repr n /\ node_wire_ok n /\ d + Z.of_nat (node_depth n) <= MAX_DECODE_DEPTH.

Lemma yields_nodes_with d (rec : Rd Node) :
  yields (at_depth d) rec (node_decoded d) ->
  yields (at_depth d) (read_nodes_with rec)
    (fun l => Forall_list node_repr l /\ blen l <= MAX_NODES /\ Forall_list node_wire_ok l
       /\ (list_max (map node_depth l) <= Z.to_nat (MAX_DECODE_DEPTH - d))%nat).
Proof.
  intros Hrec. unfold read_nodes_with.
  eapply yields_bind; [apply yields_bounded_len; apply _|]. intros n [Hn Hmax].
  eapply yields_mono; [by apply yields_read_n|]. intros l [Hl Hlen]. cbv beta in Hl.
  rewrite list_max_le, Forall_map, !Forall_list_Forall. unfold node_decoded in Hl.
  split_and!; [|unfold blen; lia| |]; (eapply Forall_impl; [exact Hl|]);
    intros e (? & ? & ?); cbn; auto; lia.
Qed.

Context `{!LawfulRegistry reg}.

Lemma yields_opaque_node d :
  yields (at_depth d) (read_opaque (decode_opaque_node reg) "opaque node payload")
    (fun n => exists x, n = Node.Opaque x /\ node_repr n /\ node_wire_ok n).
Proof.
  apply (yields_opaque _ ne_extension_kind ne_wire_payload); [apply (lawful_nodes reg)|].
  intros x [Hk Hn] Hp Hl Hx. exists x. cbn. unfold decode_opaque_node. by rewrite Hx.
Qed.
#[local] Hint Resolve yields_collective yields_source_region yields_nodes_with yields_opaque_node
  yields_expr yields_ordering : yields.

Lemma node_inner_yields d rec :
  d <= MAX_DECODE_DEPTH ->
  yields (at_depth d) rec (node_decoded d) ->
  yields (at_depth d) (node_inner reg rec)
    (fun n => node_repr n /\ node_wire_ok n
       /\ d + Z.of_nat (pred (node_depth n)) <= MAX_DECODE_DEPTH).
Proof.
  intros Hd Hrec. unfold node_inner. cbv zeta. yields_auto.
  15: { eapply yields_mono; [apply yields_opaque_node|]. intros ? (ext & -> & ? & ?).
        split_and!; [done|done|cbn; lia]. }
  all: unfold expr_decoded, wire_str, source_region_ok, name_ok in *; destruct_and?;
    cbn -[Z.of_nat]; split_and?; auto; try lia.
  all: match goal with H : match ?s with Some _ => _ | None => _ end |- _ => destruct s; tauto end.
Qed.

Lemma yields_node_fuel fuel d :
  (Z.to_nat (MAX_DECODE_DEPTH - d) < fuel)%nat ->
  yields (at_depth d) (read_node_fuel reg fuel) (node_decoded d).
Proof.
  revert d; induction fuel as [|fuel IH]; intros d Hf; cbn [read_node_fuel]; [lia|].
  destruct (Z.lt_ge_cases d MAX_DECODE_DEPTH) as [Hd|Hd]; [|by apply yields_too_deep].
  eapply yields_mono.
  - apply yields_with_depth, node_inner_yields; [lia|]. apply IH. lia.
  - unfold node_decoded. intros n [(? & ? & ?) _]. split_and!; auto.
    destruct (node_depth n) eqn:E; [by destruct n|]. cbn in *. lia.
Qed.

Lemma yields_node d : yields (at_depth d) (read_node reg) (node_decoded d).
Proof.
  intros r Hr. unfold read_node. pose proof Hr as (_ & _ & <-).
  apply yields_node_fuel; [lia|done].
Qed.
End NodeRoundtrip.

(** ** Properties *)

Module NodeWire.

(** C21: every statement tree within the wire limits round trips through
    [put_node] and [Reader::node], up to float canonicalisation in its
    expressions; statements and expressions draw on one depth budget. *)
Theorem node_roundtrip reg d n
  (Hrepr : node_repr n) (Hok : node_wire_ok reg n)
  (Hdepth : d + Z.of_nat (node_depth n) <= MAX_DECODE_DEPTH) :
  rt d (put_node n) (read_node reg) (canonical_node n).
Proof. by apply rt_node. Qed.

(** A kernel body used by the witnesses. *)
Definition sample_node : Node :=
  Node.Region "gen" (Some "src")
    [Node.Loop "i" (Expr.LitU32 0) (Expr.BufLen "in")
       [Node.If (Expr.BinOp BinOp.Lt (Expr.Var "i") (Expr.LitU32 9))
          [Node.Store "out" (Expr.Var "i") (Expr.Load "in" (Expr.Var "i"))]
          [Node.AllReduce "out" CollectiveOp.BitXor 3; Node.Barrier MemoryOrdering.SeqCst];
        Node.Trap (Expr.LitI32 (-7)) "oops"];
     Node.Return].

Lemma node_roundtrip_witness :
  rt 0 (put_node sample_node) (read_node ExprWire.echo_registry) (canonical_node sample_node).
Proof.
  apply node_roundtrip.
  - cbn. unfold inu, ins. repeat split; try reflexivity; try lia.
  - cbn -[Z.le]. unfold name_ok, blen, MAX_STRING_LEN, MAX_NODES. cbn.
    repeat split; try reflexivity; try lia.
  - cbn. unfold MAX_DECODE_DEPTH. lia.
Defined.

(** C34: [Reader::node] terminates on every input and is type safe: the shared
    recursion guard fires before the model's fuel; what it returns fits the IR's
    types, meets the wire limits, and is nested no deeper than the budget left,
    so a decoded statement can always be encoded again. *)
Theorem read_node_total reg `{!LawfulRegistry reg} r (Hr : at_depth (rd_depth r) r) :
  (exists n r', read_node reg r = Ok (n, r') /\ at_depth (rd_depth r) r'
     /\ node_repr n /\ node_wire_ok reg n
     /\ rd_depth r + Z.of_nat (node_depth n) <= MAX_DECODE_DEPTH
     /\ rt (rd_depth r) (put_node n) (read_node reg) (canonical_node n))
  \/ (exists err, read_node reg r = Err err /\ err <> OutOfFuel).
Proof.
  pose proof (yields_node reg (rd_depth r) r Hr) as H.
  destruct (read_node reg r) as [[n r']|err]; [left|right]; [|eauto].
  destruct H as [? (? & ? & ?)]. exists n, r'. split_and!; auto. by apply rt_node.
Qed.

Lemma read_node_total_witness :
  let r := mkReader [6; 1; 0; 0; 0; 6; 0; 0; 0; 0] 0 0 in
  (exists n r', read_node ExprWire.echo_registry r = Ok (n, r') /\ at_depth 0 r'
     /\ node_repr n /\ node_wire_ok ExprWire.echo_registry n
     /\ 0 + Z.of_nat (node_depth n) <= MAX_DECODE_DEPTH
     /\ rt 0 (put_node n) (read_node ExprWire.echo_registry) (canonical_node n))
  \/ (exists err, read_node ExprWire.echo_registry r = Err err /\ err <> OutOfFuel).
Proof.
  cbv zeta. apply (read_node_total ExprWire.echo_registry (mkReader [6; 1; 0; 0; 0; 6; 0; 0; 0; 0] 0 0)).
  split_and!; cbn; [repeat constructor; width_lia|lia|unfold blen; cbn; lia|done].
Defined.

(** A tower of [n] nested blocks. *)
Fixpoint blocks (n : nat) : Node :=
  match n with O => Node.Return | S n => Node.Block [blocks n] end.
Definition blocks_bytes (n : nat) : bytes := concat (repeat [6; 1; 0; 0; 0] n) ++ [5].

Lemma put_blocks n : emits (put_node (blocks n)) (blocks_bytes n).
Proof.
  induction n as [|n IH]; [done|].
  assert (blocks_bytes (S n) = [6] ++ [1; 0; 0; 0] ++ blocks_bytes n ++ []) as ->
    by (rewrite app_nil_r; done).
  change (put_node (blocks (S n)))
    with (put_u8 6 ;> put_len_u32 1 "node count" ;> put_node (blocks n) ;> wnil).
  repeat apply emits_seq; [done|done|done|apply emits_nil].
Qed.

Lemma bind_decodes {A B} d (m : Rd A) (k : A -> Rd B) e a pre post :
  decodes d m e a -> blen (pre ++ e ++ post) <= USIZE_MAX ->
  (m ≫= k) (mkReader (pre ++ e ++ post) (blen pre) d)
  = k a (mkReader ((pre ++ e) ++ post) (blen (pre ++ e)) d).
Proof.
  intros Hd Hl. unfold mbind, Rd_bind. rewrite Hd by done. by rewrite <- app_assoc, blen_app.
Qed.

Lemma bind_err {A B} (m : Rd A) (k : A -> Rd B) r e : m r = Err e -> (m ≫= k) r = Err e.
Proof. intros E. unfold mbind, Rd_bind. by rewrite E. Qed.

Lemma read_blocks reg fuel n d pre post :
  MAX_DECODE_DEPTH <= d + Z.of_nat n -> MAX_DECODE_DEPTH - d < Z.of_nat fuel ->
  (0 < fuel)%nat -> blen (pre ++ blocks_bytes n ++ post) <= USIZE_MAX ->
  read_node_fuel reg fuel (mkReader (pre ++ blocks_bytes n ++ post) (blen pre) d)
  = Err DepthExceeded.
Proof.
  revert n d pre; induction fuel as [|fuel IH]; intros n d pre Hd Hf H0 Hl; [lia|].
  cbn [read_node_fuel]. unfold with_depth. cbn [rd_depth rd_bytes rd_pos].
  destruct (Z.leb_spec MAX_DECODE_DEPTH d); [done|].
  destruct n as [|n]; [lia|].
  assert (Hb : blocks_bytes (S n) ++ post = [6] ++ [1; 0; 0; 0] ++ blocks_bytes n ++ post) by done.
  rewrite Hb in *. unfold node_inner. cbv zeta.
  assert (decodes (d + 1) read_u8 [6] 6) as D6
    by (eapply rt_decodes; [apply rt_u8; width_lia|done]).
  assert (decodes (d + 1) (bounded_len MAX_NODES "node count") [1; 0; 0; 0] 1) as D1
    by (eapply rt_decodes; [apply (rt_bounded_len _ _ _ "node count"); unfold MAX_NODES; lia|done]).
  rewrite (bind_decodes _ _ _ _ _ _ _ D6) by done. cbv beta iota.
  erewrite bind_err; [done|]. unfold read_nodes_with.
  rewrite (bind_decodes _ _ _ _ _ _ _ D1) by (by rewrite <- app_assoc).
  change (Z.to_nat 1) with 1%nat. cbn [read_n]. apply bind_err.
  apply IH; [lia|lia|lia|by rewrite <- !app_assoc].
Qed.

(** The encoder accepts nesting the decoder refuses: a tower of 64 or more
    nested blocks is encoded without error, and [Reader::node] rejects the very
    bytes it produced with the depth diagnostic. *)
Theorem too_deep_not_decodable reg n (Hn : MAX_DECODE_DEPTH <= Z.of_nat n)
  (Hlen : blen (blocks_bytes n) <= USIZE_MAX) :
  put_node (blocks n) [] = Ok (blocks_bytes n)
  /\ read_node reg (mkReader (blocks_bytes n) 0 0) = Err DepthExceeded.
Proof.
  split; [apply (put_blocks n [])|].
  pose proof (read_blocks reg 65 n 0 [] []) as H. rewrite app_nil_r in H.
  apply H; unfold MAX_DECODE_DEPTH in *; try lia; done.
Qed.

Lemma too_deep_not_decodable_witness :
  put_node (blocks 64) [] = Ok (blocks_bytes 64)
  /\ read_node ExprWire.echo_registry (mkReader (blocks_bytes 64) 0 0) = Err DepthExceeded.
Proof.
  apply (too_deep_not_decodable ExprWire.echo_registry 64);
    [unfold MAX_DECODE_DEPTH; lia|vm_compute; discriminate].
Defined.
End NodeWire.
