(* ===== verification/WireProgram.v ===== *)
(** The program envelope: [encode/to_wire.rs], [decode/from_wire.rs] with its
    [payload] and [invariants] helpers, [serial/output_set.rs], and the public
    entry points of [serial/wire.rs].  The BLAKE3 digest is a parameter. *)

From S2P Require Import Prelude Spec IR WireFraming WireTags WireExpr WireNode.

Definition FLAG_COMPRESSED : Z := 1.
Definition FLAG_SEALED : Z := 2.
Definition FLAG_OPAQUE_ENDIAN_FIXED : Z := 4.
Definition METADATA_OP_ID : string := "vyre.program.metadata".
Definition HEADER_LEN : Z := 40.
Definition META_MARKER : bytes := str_bytes "VYRE-META".

(** ** Sub-payloads

    A payload is encoded into its own scratch vector, and decoded by a fresh
    [Reader] that must consume it exactly. *)
Definition wsub (w : Wr) (k : bytes -> Wr) : Wr := fun out =>
  match w [] with Ok l => k l out | Err e => Err e end.

Definition run_sub {A} (m : Rd A) (payload : bytes) (trailing : wire_error) : wire A :=
  match m (mkReader payload 0 0) with
  | Ok (x, r) => if rd_pos r =? blen (rd_bytes r) then Ok x else Err trailing
  | Err e => Err e
  end.

(** A short length-prefixed sub-payload of a memory region. *)
Definition read_sub {A} (what : string) (m : Rd A) : Rd A :=
  len ← leb_len 64 what;
  payload ← take len;
  rlift (run_sub m payload (Malformed (what +:+ " has trailing bytes"))).

(** ** Output set ([output_set.rs]) *)

Definition is_output_access (a : BufferAccess) : bool :=
  match a with BufferAccess.ReadWrite | BufferAccess.WriteOnly => true | _ => false end.

(** [canonical_output_indices]: positions of the writable buffers, from [i]. *)
Fixpoint canonical_output_indices (i : Z) (accs : list BufferAccess) : list Z :=
  match accs with
  | [] => []
  | a :: accs =>
      if is_output_access a then i :: canonical_output_indices (i + 1) accs
      else canonical_output_indices (i + 1) accs
  end.

(** The second loop of [encode_from_buffers_into]. *)
Fixpoint put_output_indices (i : Z) (accs : list BufferAccess) : Wr :=
  match accs with
  | [] => wnil
  | a :: accs =>
      if negb (is_output_access a) then put_output_indices (i + 1) accs
      else (if i <=? U32_MAX then put_leb_u32 i else werr (LenExceedsU32 "output-set index" i)) ;>
           put_output_indices (i + 1) accs
  end.

Definition encode_from_buffers_into (accs : list BufferAccess) : Wr :=
  put_leb_u64 (blen (List.filter is_output_access accs)) ;> put_output_indices 0 accs.

(** [matches_canonical_output_indices]: walks the buffers and the decoded
    indices in step. *)
Fixpoint matches_canonical_output_indices (actual : list Z) (i : Z) (accs : list BufferAccess)
  : bool :=
  match accs with
  | [] => match actual with [] => true | _ => false end
  | a :: accs =>
      if negb (is_output_access a) then matches_canonical_output_indices actual (i + 1) accs
      else match actual with
           | x :: actual => (x =? i) && matches_canonical_output_indices actual (i + 1) accs
           | [] => false
           end
  end.

(** The decode loop: bounds, writability and strict order of each index. *)
Fixpoint read_output_indices (n : nat) (accs : list BufferAccess) (prev : option Z)
  : Rd (list Z) :=
  match n with
  | O => mret []
  | S n =>
      index ← leb_u32;
      match accs !! Z.to_nat index with
      | None => rerr (Malformed "output-set index out of bounds")
      | Some a =>
          if negb (is_output_access a) then rerr (Malformed "output-set index names non-writable")
          else if match prev with Some p => index <=? p | None => false end
          then rerr (Malformed "output-set order")
          else rest ← read_output_indices n accs (Some index); mret (index :: rest)
      end
  end.

Definition decode_output_set (accs : list BufferAccess) : Rd (list Z) :=
  count ← leb_len MAX_BUFFERS "output set count";
  indices ← read_output_indices (Z.to_nat count) accs None;
  if matches_canonical_output_indices indices 0 accs then mret indices
  else rerr (Malformed "output-set mismatch").

(** ** Memory-region payloads *)

Definition memory_kind_tag (k : MemoryKind) : Z :=
  match k with
  | MemoryKind.Global => 0 | MemoryKind.Shared => 1 | MemoryKind.Uniform => 2
  | MemoryKind.Local => 3 | MemoryKind.Readonly => 4 | MemoryKind.Push => 5
  | MemoryKind.Persistent => 6
  end.

Definition memory_kind_from_tag (tag : Z) : wire MemoryKind :=
  match tag with
  | 0 => Ok MemoryKind.Global | 1 => Ok MemoryKind.Shared | 2 => Ok MemoryKind.Uniform
  | 3 => Ok MemoryKind.Local | 4 => Ok MemoryKind.Readonly | 5 => Ok MemoryKind.Push
  | 6 => Ok MemoryKind.Persistent
  | _ => Err (UnknownTag "memory kind" tag)
  end.

Definition cache_locality_tag (c : CacheLocality) : Z :=
  match c with
  | CacheLocality.Streaming => 0 | CacheLocality.Temporal => 1 | CacheLocality.Random => 2
  end.

Definition put_hints_payload (h : MemoryHints) : Wr :=
  match coalesce_axis h with
  | Some axis => put_u8 1 ;> put_u8 axis
  | None => put_u8 0
  end ;>
  put_u32 (preferred_alignment h) ;>
  put_u8 (cache_locality_tag (cache_locality h)).

Definition read_coalesce_axis : Rd (option Z) :=
  tag ← read_u8;
  match tag with
  | 0 => mret None
  | 1 => axis ← read_u8; mret (Some axis)
  | value => rerr (UnknownTag "coalesce_axis" value)
  end.

Definition read_cache_locality : Rd CacheLocality :=
  tag ← read_u8;
  match tag with
  | 0 => mret CacheLocality.Streaming
  | 1 => mret CacheLocality.Temporal
  | 2 => mret CacheLocality.Random
  | value => rerr (UnknownTag "cache_locality" value)
  end.

Definition read_hints : Rd MemoryHints :=
  axis ← read_coalesce_axis;
  alignment ← read_u32;
  locality ← read_cache_locality;
  mret (mkMemoryHints axis alignment locality).

(** [to_wire.rs] keeps its own tag table for buffer elements. *)
Definition dense_data_type_tag (t : DataType) : wire Z :=
  match t with
  | DataType.U32 => Ok 0x01 | DataType.I32 => Ok 0x02 | DataType.U64 => Ok 0x03
  | DataType.Vec2U32 => Ok 0x04 | DataType.Vec4U32 => Ok 0x05 | DataType.Bool => Ok 0x06
  | DataType.Bytes => Ok 0x07 | DataType.Array _ => Ok 0x08 | DataType.F16 => Ok 0x09
  | DataType.BF16 => Ok 0x0A | DataType.F32 => Ok 0x0B | DataType.F64 => Ok 0x0C
  | DataType.Tensor => Ok 0x0D | DataType.U8 => Ok 0x0E | DataType.U16 => Ok 0x0F
  | DataType.I8 => Ok 0x10 | DataType.I16 => Ok 0x11 | DataType.I64 => Ok 0x12
  | DataType.Handle _ => Ok 0x13 | DataType.Vec _ _ => Ok 0x14
  | DataType.TensorShaped _ _ => Ok 0x15 | DataType.F8E4M3 => Ok 0x19
  | DataType.F8E5M2 => Ok 0x1A | DataType.I4 => Ok 0x1B | DataType.FP4 => Ok 0x1C
  | DataType.NF4 => Ok 0x1D | DataType.Quantized _ _ _ => Ok 0x1F | DataType.Opaque _ => Ok 0x80
  | DataType.SparseCsr _ | DataType.SparseCoo _ | DataType.SparseBsr _ _ _
  | DataType.DeviceMesh _ => Err (UnknownVariant "dense DataType")
  end.

Definition dense_data_type_from_tag (tag : Z) : wire DataType :=
  match tag with
  | 0x01 => Ok DataType.U32 | 0x02 => Ok DataType.I32 | 0x03 => Ok DataType.U64
  | 0x04 => Ok DataType.Vec2U32 | 0x05 => Ok DataType.Vec4U32 | 0x06 => Ok DataType.Bool
  | 0x07 => Ok DataType.Bytes
  | 0x08 => Err (Malformed "Array element tag requires shape payload")
  | 0x09 => Ok DataType.F16 | 0x0A => Ok DataType.BF16 | 0x0B => Ok DataType.F32
  | 0x0C => Ok DataType.F64 | 0x0D => Ok DataType.Tensor | 0x0E => Ok DataType.U8
  | 0x0F => Ok DataType.U16 | 0x10 => Ok DataType.I8 | 0x11 => Ok DataType.I16
  | 0x12 => Ok DataType.I64
  | 0x13 => Err (Malformed "Handle element tag requires shape payload")
  | 0x14 => Err (Malformed "Vec element tag is not valid for a Dense memory element")
  | 0x15 => Err (Malformed "TensorShaped element tag is not valid for a Dense memory element")
  | 0x19 => Ok DataType.F8E4M3 | 0x1A => Ok DataType.F8E5M2 | 0x1B => Ok DataType.I4
  | 0x1C => Ok DataType.FP4 | 0x1D => Ok DataType.NF4
  | value => Err (UnknownTag "dense element" value)
  end.

Definition put_dense_quantization_scale (scale : QuantizationScale) : Wr :=
  match scale with
  | QuantizationScale.PerTensor => put_leb_u64 0 ;> put_leb_u64 0
  | QuantizationScale.PerChannel axis => put_leb_u64 1 ;> put_leb_u64 axis
  | QuantizationScale.PerGroup group_size =>
      if group_size =? 0 then werr (Malformed "PerGroup scale group_size")
      else put_leb_u64 2 ;> put_leb_u64 group_size
  end.

Definition put_dense_quantization_zero_point (zero_point : QuantizationZeroPoint) : Wr :=
  match zero_point with
  | QuantizationZeroPoint.Absent => put_leb_u64 0 ;> put_leb_u64 0
  | QuantizationZeroPoint.PerTensor => put_leb_u64 1 ;> put_leb_u64 0
  | QuantizationZeroPoint.PerChannel axis => put_leb_u64 2 ;> put_leb_u64 axis
  | QuantizationZeroPoint.PerGroup group_size =>
      if group_size =? 0 then werr (Malformed "PerGroup zero-point group_size")
      else put_leb_u64 3 ;> put_leb_u64 group_size
  end.

(** [u32::try_from(reader.leb_u64()?)] *)
Definition leb_u32_param (what : string) : Rd Z :=
  value ← leb_u64;
  if value <=? U32_MAX then mret value else rerr (LenExceedsU32 what value).

Definition read_dense_quantization_scale : Rd QuantizationScale :=
  tag ← leb_u64;
  param ← leb_u32_param "quantization scale parameter";
  match tag with
  | 0 => if negb (param =? 0) then rerr (Malformed "PerTensor scale parameter")
         else mret QuantizationScale.PerTensor
  | 1 => mret (QuantizationScale.PerChannel param)
  | 2 => if param =? 0 then rerr (Malformed "PerGroup scale group_size")
         else mret (QuantizationScale.PerGroup param)
  | other => rerr (UnknownTag "quantization scale" other)
  end.

Definition read_dense_quantization_zero_point : Rd QuantizationZeroPoint :=
  tag ← leb_u64;
  param ← leb_u32_param "quantization zero-point parameter";
  match tag with
  | 0 => if negb (param =? 0) then rerr (Malformed "absent zero-point parameter")
         else mret QuantizationZeroPoint.Absent
  | 1 => if negb (param =? 0) then rerr (Malformed "PerTensor zero-point parameter")
         else mret QuantizationZeroPoint.PerTensor
  | 2 => mret (QuantizationZeroPoint.PerChannel param)
  | 3 => if param =? 0 then rerr (Malformed "PerGroup zero-point group_size")
         else mret (QuantizationZeroPoint.PerGroup param)
  | other => rerr (UnknownTag "quantization zero-point" other)
  end.

Definition put_dense_shape (count : Z) (element : DataType) : Wr :=
  put_leb_u64 count ;>
  match element with
  | DataType.Array element_size => put_leb_u64 element_size
  | DataType.Handle id => put_leb_u64 id
  | DataType.Opaque id => put_leb_u64 id
  | DataType.Quantized storage scale zero_point =>
      if negb (DataType.is_quantized_storage storage) then werr (Malformed "quantized storage")
      else match dense_data_type_tag storage with
           | Ok tag => put_leb_u64 tag ;> put_dense_quantization_scale scale ;>
                       put_dense_quantization_zero_point zero_point
           | Err e => werr e
           end
  | _ => wnil
  end.

Definition read_dense_element (element_tag : Z) : Rd DataType :=
  if element_tag =? 0x08 then (n ← leb_u64; mret (DataType.Array n)) else
  if element_tag =? 0x13 then
    (id ← leb_u32_param "handle DataType id"; mret (DataType.Handle id)) else
  if element_tag =? 0x80 then
    (raw ← leb_u32_param "opaque DataType id";
     id ← rlift (reject_reserved_extension_id raw "DataType"); mret (DataType.Opaque id)) else
  if element_tag =? 0x1F then
    (storage_tag ← leb_u64;
     if U8_MAX <? storage_tag then rerr (Malformed "quantized storage tag") else
     storage ← rlift (dense_data_type_from_tag storage_tag);
     if negb (DataType.is_quantized_storage storage) then rerr (Malformed "quantized storage") else
     scale ← read_dense_quantization_scale;
     zero_point ← read_dense_quantization_zero_point;
     mret (DataType.Quantized storage scale zero_point)) else
  rlift (dense_data_type_from_tag element_tag).

Definition read_dense_shape (element_tag : Z) : Rd (Z * DataType) :=
  count ← leb_u32_param "dense shape count";
  element ← read_dense_element element_tag;
  mret (count, element).

(** ** Encoder ([to_wire.rs]) *)

Definition flag_byte (b : bool) : Z := if b then 1 else 0.

(** [reject_non_roundtrippable_shapes], per buffer. *)
Definition reject_buffer_shape (b : BufferDecl) : wire unit :=
  _ ← reject_if ((bd_count b =? 0) && bool_decide (bd_access b = BufferAccess.Workgroup))
        (Malformed "workgroup buffer has count 0");
  _ ← reject_if ((bd_count b =? 0) && bd_pipeline_live_out b)
        (Malformed "live-out buffer has count 0");
  match bd_output_byte_range b with
  | None => Ok tt
  | Some (start, end_) =>
      full_size ←
        (if bd_count b =? 0 then Ok U64_MAX
         else elem_size ← ok_or (DataType.size_bytes (bd_element b))
                            (Malformed "static output buffer runtime-sized element");
              ok_or (usize_checked_mul (bd_count b) elem_size)
                (Malformed "output buffer byte size overflows"));
      _ ← reject_if (end_ <? start) (Malformed "output byte range start > end");
      reject_if ((full_size <? end_) && negb (full_size =? U64_MAX))
        (Malformed "output byte range end exceeds full size")
  end.

Definition reject_non_roundtrippable_shapes (p : Program) (bufs : list BufferDecl) : wire unit :=
  let '(x, y, z) := workgroup_size p in
  _ ← reject_if ((x =? 0) || (y =? 0) || (z =? 0)) (Malformed "workgroup_size is 0");
  try_fold (fun _ b => reject_buffer_shape b) tt bufs.

Definition put_node_record (op_id : string) (payload : bytes) (operands : list Z) : Wr :=
  put_leb_str op_id ;>
  put_leb_u64 (blen payload) ;> put_raw payload ;>
  put_leb_u64 (blen operands) ;> wlist put_leb_u32 operands.

Definition put_optional_name (o : option string) : Wr :=
  match o with Some s => put_u8 1 ;> put_string s | None => put_u8 0 end.

Definition put_output_range (o : option (Z * Z)) : Wr :=
  match o with
  | Some (start, end_) => put_u8 1 ;> put_leb_u64 start ;> put_leb_u64 end_
  | None => put_u8 0
  end.

Definition put_metadata_buffer (b : BufferDecl) : Wr :=
  put_string (bd_name b) ;> put_u32 (bd_binding b) ;> put_u32 (bd_count b) ;>
  put_u8 (flag_byte (bd_is_output b)) ;> put_u8 (flag_byte (bd_pipeline_live_out b)) ;>
  put_output_range (bd_output_byte_range b) ;> put_hints_payload (bd_hints b).

Definition put_metadata_payload (p : Program) (bufs : list BufferDecl) : Wr :=
  let '(x, y, z) := workgroup_size p in
  put_raw META_MARKER ;>
  put_optional_name (entry_op_id p) ;>
  put_u32 x ;> put_u32 y ;> put_u32 z ;>
  put_u8 (flag_byte (non_composable_with_self p)) ;>
  put_leb_u64 (blen bufs) ;> wlist put_metadata_buffer bufs.

Definition put_entry_record (n : Node) : Wr :=
  wsub (put_node n) (fun payload => put_node_record (node_op_id n) payload []).

Definition put_nodes_section (p : Program) (bufs : list BufferDecl) : Wr :=
  put_leb_u64 (blen (entry p) + 1) ;>
  wsub (put_metadata_payload p bufs) (fun payload => put_node_record METADATA_OP_ID payload []) ;>
  wlist put_entry_record (entry p).

Definition put_sub (w : Wr) : Wr := wsub w (fun l => put_leb_u64 (blen l) ;> put_raw l).

Definition put_memory_region (index : Z) (b : BufferDecl) : Wr :=
  (if index <=? U32_MAX then put_leb_u32 index else werr (LenExceedsU32 "memory-region id" index)) ;>
  put_u8 (memory_kind_tag (bd_kind b)) ;>
  put_u8 (access_tag (bd_access b)) ;>
  put_tag (dense_data_type_tag (bd_element b)) ;>
  put_u8 0 ;>
  put_sub (put_dense_shape (bd_count b) (bd_element b)) ;>
  put_sub (put_hints_payload (bd_hints b)).

Fixpoint put_regions_from (index : Z) (bufs : list BufferDecl) : Wr :=
  match bufs with
  | [] => wnil
  | b :: bufs => put_memory_region index b ;> put_regions_from (index + 1) bufs
  end.

Definition put_memory_regions (bufs : list BufferDecl) : Wr :=
  put_leb_u64 (blen bufs) ;> put_regions_from 0 bufs.

Definition put_body (p : Program) (bufs : list BufferDecl) : Wr :=
  put_nodes_section p bufs ;> put_memory_regions bufs ;>
  encode_from_buffers_into (map bd_access bufs).

(** ** Decoder ([from_wire.rs]) *)

Record DecodedBuffer := mkDecodedBuffer {
  db_name : string;
  db_binding : Z;
  db_access : BufferAccess;
  db_kind : MemoryKind;
  db_element : DataType;
  db_count : Z;
  db_is_output : bool;
  db_pipeline_live_out : bool;
  db_output_byte_range : option (Z * Z);
  db_hints : MemoryHints;
  db_bytes_extraction : bool;
}.

Record DecodedMetadata := mkDecodedMetadata {
  dm_entry_op_id : option string;
  dm_workgroup_size : Z * Z * Z;
  dm_entry : list Node;
  dm_buffers : list DecodedBuffer;
  dm_non_composable : bool;
}.

(** The operand loop of [read_node_record]: only prior nodes may be named. *)
Fixpoint read_operands (n : nat) (node_index : Z) : Rd (list Z) :=
  match n with
  | O => mret []
  | S n =>
      operand ← leb_u32;
      if node_index <=? operand then rerr (Malformed "operand is not a prior node")
      else rest ← read_operands n node_index; mret (operand :: rest)
  end.

Definition read_node_record (node_index : Z) : Rd (string * bytes * list Z) :=
  op_id ← leb_string;
  payload_len ← leb_len USIZE_MAX "node payload length";
  payload ← take payload_len;
  operand_count ← leb_len MAX_NODES "operand count";
  operands ← read_operands (Z.to_nat operand_count) node_index;
  mret (op_id, payload, operands).

Definition read_optional_name : Rd (option string) :=
  tag ← read_u8;
  match tag with
  | 0 => mret None
  | 1 => s ← read_string; mret (Some s)
  | value => rerr (UnknownTag "entry_op_id" value)
  end.

Definition validate_workgroup_size (x y z : Z) : wire unit :=
  reject_if ((x =? 0) || (y =? 0) || (z =? 0)) (Malformed "workgroup_size is 0").

Definition validate_output_range_order (start end_ : Z) : wire unit :=
  reject_if (end_ <? start) (Malformed "output range start exceeds end").

Definition read_flag : Rd bool :=
  tag ← read_u8;
  match tag with
  | 0 => mret false
  | 1 => mret true
  | value => rerr (UnknownTag "non_composable_with_self" value)
  end.

Definition read_output_range : Rd (option (Z * Z)) :=
  tag ← read_u8;
  match tag with
  | 0 => mret None
  | 1 => start ← leb_u64; end_ ← leb_u64;
         _ ← rlift (validate_output_range_order start end_);
         mret (Some (start, end_))
  | value => rerr (UnknownTag "output range" value)
  end.

Definition read_metadata_buffer : Rd DecodedBuffer :=
  name ← read_string;
  binding ← read_u32;
  count ← read_u32;
  is_output ← read_u8;
  live_out ← read_u8;
  if (count =? 0) && negb (is_output =? 0) then rerr (Malformed "output buffer has count 0") else
  if (count =? 0) && negb (live_out =? 0) then rerr (Malformed "live-out buffer has count 0") else
  range ← read_output_range;
  hints ← read_hints;
  mret (mkDecodedBuffer name binding BufferAccess.ReadOnly MemoryKind.Readonly DataType.U32 count
          (negb (is_output =? 0)) (negb (live_out =? 0)) range hints false).

Definition read_metadata_body : Rd DecodedMetadata :=
  marker ← take 9;
  if negb (bool_decide (marker = META_MARKER)) then rerr (Malformed "metadata payload marker") else
  op_id ← read_optional_name;
  x ← read_u32; y ← read_u32; z ← read_u32;
  _ ← rlift (validate_workgroup_size x y z);
  non_composable ← read_flag;
  buffer_count ← leb_len MAX_BUFFERS "metadata buffer count";
  bufs ← read_n (Z.to_nat buffer_count) read_metadata_buffer;
  mret (mkDecodedMetadata op_id (x, y, z) [] bufs non_composable).

Definition read_metadata (payload : bytes) : wire DecodedMetadata :=
  run_sub read_metadata_body payload (Malformed "metadata payload has trailing bytes").

Definition validate_output_range_fits (b : DecodedBuffer) (element : DataType) (count : Z)
  : wire unit :=
  match db_output_byte_range b with
  | None => Ok tt
  | Some (_, end_) =>
      element_size ← ok_or (DataType.size_bytes element)
        (Malformed "output range on variable-width element");
      full_size ← ok_or (usize_checked_mul count element_size)
        (Malformed "output range full byte size overflows");
      reject_if (full_size <? end_) (Malformed "output range end exceeds buffer")
  end.

(** One iteration of [read_memory_regions], for metadata buffer [b]. *)
Definition read_memory_region (index : Z) (b : DecodedBuffer) : Rd DecodedBuffer :=
  id ← leb_u32;
  if negb (id =? index) then rerr (Malformed "memory-region id out of order") else
  kind_tag ← read_u8;
  kind ← rlift (memory_kind_from_tag kind_tag);
  acc_tag ← read_u8;
  access ← rlift (access_from_tag acc_tag);
  element_tag ← read_u8;
  shape_tag ← read_u8;
  if negb (shape_tag =? 0) then rerr (UnknownTag "shape_tag" shape_tag) else
  shape ← read_sub "shape payload" (read_dense_shape element_tag);
  let '(count, element) := shape in
  hints ← read_sub "hints payload" read_hints;
  if negb (db_count b =? count) then rerr (Malformed "memory-region count mismatch") else
  if (count =? 0) && bool_decide (access = BufferAccess.Workgroup)
  then rerr (Malformed "workgroup buffer has count 0") else
  if (count =? 0) && db_is_output b then rerr (Malformed "output buffer has count 0") else
  if (count =? 0) && db_pipeline_live_out b then rerr (Malformed "live-out buffer has count 0") else
  _ ← rlift (validate_output_range_fits b element count);
  mret (mkDecodedBuffer (db_name b) (db_binding b) access kind element count (db_is_output b)
          (db_pipeline_live_out b) (db_output_byte_range b) hints (db_bytes_extraction b)).

Fixpoint read_regions_from (index : Z) (bufs : list DecodedBuffer) : Rd (list DecodedBuffer) :=
  match bufs with
  | [] => mret []
  | b :: bufs =>
      b' ← read_memory_region index b;
      rest ← read_regions_from (index + 1) bufs;
      mret (b' :: rest)
  end.

Definition read_memory_regions (bufs : list DecodedBuffer) : Rd (list DecodedBuffer) :=
  count ← leb_len MAX_BUFFERS "memory-region count";
  if negb (count =? blen bufs) then rerr (Malformed "memory-region count mismatch")
  else read_regions_from 0 bufs.

Definition buffer_decl_of (b : DecodedBuffer) : BufferDecl :=
  mkBufferDecl (db_name b) (db_binding b) (db_access b) (db_kind b) (db_element b) (db_count b)
    (db_is_output b) (db_pipeline_live_out b) (db_output_byte_range b) (db_hints b)
    (db_bytes_extraction b) LinearType.Unrestricted None.

Section ProgramCodec.
Context (blake3 : bytes -> bytes) (reg : OpaqueRegistry).

(** One iteration of the entry loop of [read_nodes]. *)
Definition read_entry_record (node_index : Z) : Rd Node :=
  record ← read_node_record node_index;
  let '(op_id, payload, operands) := record in
  if negb (bool_decide (operands = [])) then rerr (Malformed "node carries operand ids") else
  node ← rlift (run_sub (read_node reg) payload (Malformed "node payload has trailing bytes"));
  if negb (bool_decide (node_op_id node = op_id)) then rerr (Malformed "op_id does not match payload")
  else mret node.

Fixpoint read_entries (n : nat) (node_index : Z) : Rd (list Node) :=
  match n with
  | O => mret []
  | S n =>
      node ← read_entry_record node_index;
      rest ← read_entries n (node_index + 1);
      mret (node :: rest)
  end.

Definition read_nodes_section : Rd DecodedMetadata :=
  count ← leb_len MAX_NODES "node count";
  if count =? 0 then rerr (Malformed "missing metadata node") else
  record ← read_node_record 0;
  let '(op_id, payload, operands) := record in
  if negb (bool_decide (op_id = METADATA_OP_ID)) then rerr (UnknownVariant op_id) else
  if negb (bool_decide (operands = [])) then rerr (Malformed "metadata node has operands") else
  metadata ← rlift (read_metadata payload);
  nodes ← read_entries (Z.to_nat (count - 1)) 1;
  mret (mkDecodedMetadata (dm_entry_op_id metadata) (dm_workgroup_size metadata) nodes
          (dm_buffers metadata) (dm_non_composable metadata)).

(** The body after the header; the output set is also returned, as the decoded
    program caches it. *)
Definition read_body : Rd (Program * list Z) :=
  metadata ← read_nodes_section;
  bufs ← read_memory_regions (dm_buffers metadata);
  output_set ← decode_output_set (map db_access bufs);
  mret (mkProgram (dm_entry_op_id metadata) (map buffer_decl_of bufs)
          (dm_workgroup_size metadata) (dm_entry metadata) (dm_non_composable metadata),
        output_set).

(** [from_wire]; its repeats of the magic and version checks that
    [expect_magic] has just made cannot fail and are not repeated here. *)
Definition from_wire (blob : bytes) : wire (Program * list Z) :=
  if MAX_PROGRAM_BYTES <? blen blob then Err (LenExceedsLimit "wire blob" (blen blob) MAX_PROGRAM_BYTES)
  else
    _ ← expect_magic (mkReader blob 0 0);
    if blen blob <? HEADER_LEN then Err Truncated else
    let flags := of_le_bytes (firstn 2 (skipn 6 blob)) in
    let reserved := Z.land flags
      (Z.lxor 0xFFFF (Z.lor FLAG_COMPRESSED (Z.lor FLAG_SEALED FLAG_OPAQUE_ENDIAN_FIXED))) in
    if negb (reserved =? 0) || negb (Z.land flags (Z.lor FLAG_COMPRESSED FLAG_SEALED) =? 0)
    then Err (UnknownTag "flags" flags) else
    if Z.land flags FLAG_OPAQUE_ENDIAN_FIXED =? 0 then Err (Malformed "missing OPAQUE_ENDIAN_FIXED")
    else
    let expected := firstn 32 (skipn 8 blob) in
    let body := skipn 40 blob in
    if negb (bool_decide (blake3 body = expected)) then Err (Malformed "IntegrityMismatch") else
    run_sub read_body body (Malformed "trailing bytes after OutputSet").

(** [to_wire_with_buffer_order_into], which [to_wire] and [to_wire_into] call
    with the program's own buffers. *)
Definition to_wire_with_buffer_order_into (p : Program) (bufs : list BufferDecl) : Wr := fun dst =>
  _ ← reject_non_roundtrippable_shapes p bufs;
  body ← put_body p bufs [];
  (put_raw MAGIC ;> put_u16 WIRE_FORMAT_VERSION ;> put_u16 FLAG_OPAQUE_ENDIAN_FIXED ;>
   put_raw (blake3 body) ;> put_raw body) dst.

Definition to_wire_into (p : Program) : Wr := to_wire_with_buffer_order_into p (buffers p).
Definition to_wire (p : Program) : wire bytes := to_wire_into p [].

(** ** Public entry points ([serial/wire.rs]) *)

Inductive Error :=
| VersionMismatch (expected found : Z)
| WireFormatValidation (e : wire_error).

Definition Program_from_wire (blob : bytes) : result Error (Program * list Z) :=
  if MAX_PROGRAM_BYTES <? blen blob
  then Err (WireFormatValidation (LenExceedsLimit "wire blob" (blen blob) MAX_PROGRAM_BYTES))
  else
    let version := of_le_bytes (firstn 2 (skipn 4 blob)) in
    if (blen MAGIC + 2 <=? blen blob) && bool_decide (firstn 4 blob = MAGIC)
       && negb (version =? WIRE_FORMAT_VERSION)
    then Err (VersionMismatch WIRE_FORMAT_VERSION version)
    else match from_wire blob with
         | Ok p => Ok p
         | Err e => Err (WireFormatValidation e)
         end.

Definition Program_to_bytes (p : Program) : bytes :=
  match to_wire p with Ok l => l | Err _ => [] end.
End ProgramCodec.

(** ** Round trip *)

(** What the wire does not carry: the encoder canonicalises float literals, and
    decoded buffers get the default linear type, no shape predicate and no
    byte-extraction mark. *)
Definition canonical_buffer (b : BufferDecl) : BufferDecl :=
  mkBufferDecl (bd_name b) (bd_binding b) (bd_access b) (bd_kind b) (bd_element b) (bd_count b)
    (bd_is_output b) (bd_pipeline_live_out b) (bd_output_byte_range b) (bd_hints b)
    false LinearType.Unrestricted None.

Definition canonical_program (p : Program) : Program :=
  mkProgram (entry_op_id p) (map canonical_buffer (buffers p)) (workgroup_size p)
    (map canonical_node (entry p)) (non_composable_with_self p).

(** Element types of a dense memory region. *)
Definition dense_element_ok (t : DataType) : Prop :=
  match t with
  | DataType.Vec _ _ | DataType.TensorShaped _ _ | DataType.SparseCsr _ | DataType.SparseCoo _
  | DataType.SparseBsr _ _ _ | DataType.DeviceMesh _ => False
  | DataType.Opaque id => is_extension id = true
  | DataType.Quantized s sc z =>
      DataType.is_quantized_storage s = true /\ scale_wire_ok sc /\ zero_point_wire_ok z
  | _ => True
  end.

Definition output_range_ok (b : BufferDecl) : Prop :=
  match bd_output_byte_range b with
  | None => True
  | Some (start, end_) =>
      start <= end_ /\
      match DataType.size_bytes (bd_element b) with
      | Some n => bd_count b * n <= USIZE_MAX /\ end_ <= bd_count b * n
      | None => False
      end
  end.

Definition buffer_wire_ok (b : BufferDecl) : Prop :=
  name_ok (bd_name b) /\ dense_element_ok (bd_element b) /\ output_range_ok b
  /\ (bd_count b = 0 ->
        bd_is_output b = false /\ bd_pipeline_live_out b = false
        /\ bd_access b <> BufferAccess.Workgroup).

(** A payload is a [Vec<u8>], so its length is a [usize]. *)
Definition fits (w : Wr) : Prop := forall l, emits w l -> blen l <= USIZE_MAX.

(** The limits of the format: what the decoder enforces on every blob. *)
Definition program_wire_ok (reg : OpaqueRegistry) (p : Program) : Prop :=
  match entry_op_id p with Some s => name_ok s | None => True end
  /\ (let '(x, y, z) := workgroup_size p in x <> 0 /\ y <> 0 /\ z <> 0)
  /\ blen (buffers p) <= MAX_BUFFERS /\ blen (entry p) + 1 <= MAX_NODES
  /\ Forall buffer_wire_ok (buffers p)
  /\ Forall (fun n => node_wire_ok reg n /\ Z.of_nat (node_depth n) <= MAX_DECODE_DEPTH) (entry p).

Definition program_fits (p : Program) : Prop :=
  Forall (fun n => fits (put_node n)) (entry p) /\ fits (put_metadata_payload p (buffers p)).

(** *** Sub-payloads *)

Lemma run_sub_ok {A} w (m : Rd A) enc x e :
  rt 0 w m x -> emits w enc -> blen enc <= USIZE_MAX -> run_sub m enc e = Ok x.
Proof.
  intros Hrt He Hl. pose proof (rt_decodes _ _ _ _ _ Hrt He [] []) as Hd.
  rewrite app_nil_r in Hd. cbn [app] in Hd. unfold run_sub.
  change (mkReader enc 0 0) with (mkReader enc (blen (@nil Z)) 0). rewrite Hd by done.
  cbn. by rewrite Z.eqb_refl.
Qed.

Lemma rt_wsub {A} d w k (m : Rd A) enc x :
  emits w enc -> rt d (k enc) m x -> rt d (wsub w k) m x.
Proof.
  intros He. apply rt_ext; [|done]. intros out. unfold wsub. by rewrite (He []).
Qed.

Lemma rt_sub {A} d w (m : Rd A) x what :
  rt 0 w m x -> (forall enc, emits w enc -> blen enc <= 64) ->
  rt d (put_sub w) (read_sub what m) x.
Proof.
  intros Hrt Hlen. pose proof Hrt as (enc & He & Hb & _). specialize (Hlen enc He).
  eapply rt_wsub; [exact He|]. unfold read_sub. pose proof (blen_nonneg enc).
  eapply rt_bind; [apply rt_leb_len; lia|]. eapply rt_last; [by apply rt_raw|].
  unfold rlift. rewrite (run_sub_ok w m enc x _ Hrt He) by lia. done.
Qed.

(** *** Length bounds *)

Definition at_most (w : Wr) (k : Z) : Prop :=
  forall out out', w out = Ok out' -> blen out' <= blen out + k.

Lemma at_most_seq w1 w2 k1 k2 : at_most w1 k1 -> at_most w2 k2 -> at_most (w1 ;> w2) (k1 + k2).
Proof. intros H1 H2 out out' (o & Ho%H1 & Ho'%H2)%bind_Ok. lia. Qed.
Lemma at_most_raw l : at_most (put_raw l) (blen l).
Proof. intros out out' [= <-]. rewrite blen_app. lia. Qed.
Lemma at_most_mono w j k : at_most w j -> j <= k -> at_most w k.
Proof. intros H Hj out out' E%H. lia. Qed.
Lemma at_most_err e k : at_most (werr e) k.
Proof. done. Qed.
Lemma at_most_nil : at_most wnil 0.
Proof. intros out out' [= <-]. lia. Qed.
Lemma emits_at_most w enc k : emits w enc -> at_most w k -> blen enc <= k.
Proof. intros He Hk. specialize (Hk [] enc (He [])). unfold blen in *. cbn in Hk. lia. Qed.

Lemma at_most_leb_loop n v : at_most (put_leb_loop n v) (Z.of_nat n).
Proof.
  revert v; induction n as [|n IH]; intros v; cbn [put_leb_loop]; [apply at_most_err|].
  rewrite Nat2Z.inj_succ, <- Z.add_1_l. apply at_most_seq; [apply (at_most_raw [_])|].
  case_match; [|apply IH]. eapply at_most_mono; [apply at_most_nil|lia].
Qed.
Lemma at_most_leb v : at_most (put_leb_u64 v) 10.
Proof. apply (at_most_leb_loop 10). Qed.

Lemma at_most_dense_shape count t : at_most (put_dense_shape count t) 60.
Proof.
  unfold put_dense_shape. apply (at_most_seq _ _ 10 50); [apply at_most_leb|].
  assert (at_most wnil 50) by (eapply at_most_mono; [apply at_most_nil|lia]).
  assert (forall v, at_most (put_leb_u64 v) 50)
    by (intros; eapply at_most_mono; [apply at_most_leb|lia]).
  assert (forall u v, at_most (put_leb_u64 u ;> put_leb_u64 v) 20)
    by (intros; apply (at_most_seq _ _ 10 10); apply at_most_leb).
  destruct t; auto. case_match; [apply at_most_err|]. case_match; [|apply at_most_err].
  apply (at_most_seq _ _ 10 40); [apply at_most_leb|]. apply (at_most_seq _ _ 20 20).
  - unfold put_dense_quantization_scale. repeat case_match; auto using at_most_err.
  - unfold put_dense_quantization_zero_point. repeat case_match; auto using at_most_err.
Qed.

Lemma at_most_hints h : at_most (put_hints_payload h) 64.
Proof.
  unfold put_hints_payload. apply (at_most_seq _ _ 2 62).
  - destruct (coalesce_axis h).
    + apply (at_most_seq _ _ 1 1); apply (at_most_raw [_]).
    + eapply at_most_mono; [apply (at_most_raw [_])|done].
  - apply (at_most_seq _ _ 4 58); [|eapply at_most_mono; [apply (at_most_raw [_])|done]].
    eapply at_most_mono; [apply at_most_raw|]. by rewrite blen_le_bytes.
Qed.

(** *** Fields *)

Lemma rt_hints d h : hints_repr h -> rt d (put_hints_payload h) read_hints h.
Proof.
  intros [Ha Hp]. unfold put_hints_payload, read_hints.
  assert (rt d (match coalesce_axis h with Some a => put_u8 1 ;> put_u8 a | None => put_u8 0 end)
            read_coalesce_axis (coalesce_axis h)).
  { unfold read_coalesce_axis. destruct (coalesce_axis h); rt_auto. }
  assert (rt d (put_u8 (cache_locality_tag (cache_locality h))) read_cache_locality
            (cache_locality h)).
  { unfold read_cache_locality. destruct (cache_locality h); cbn; rt_auto. }
  rt_auto. by destruct h.
Qed.

Lemma rt_leb_param d x what : inu 32 x -> rt d (put_leb_u64 x) (leb_u32_param what) x.
Proof.
  intros Hx. eapply rt_last; [apply rt_leb_u64; width_lia|]. cbv beta.
  rewrite (proj2 (Z.leb_le _ _)) by width_lia. done.
Qed.
#[local] Hint Resolve rt_leb_param : wire.

Lemma rt_dense_scale d s : scale_repr s -> scale_wire_ok s ->
  rt d (put_dense_quantization_scale s) read_dense_quantization_scale s.
Proof.
  unfold read_dense_quantization_scale.
  destruct s as [| |g]; cbn [put_dense_quantization_scale scale_repr scale_wire_ok]; intros;
    rewrite ?(proj2 (Z.eqb_neq g 0)) by done; rt_auto; cbn.
  by rewrite (proj2 (Z.eqb_neq g 0)).
Qed.

Lemma rt_dense_zero_point d z : zero_point_repr z -> zero_point_wire_ok z ->
  rt d (put_dense_quantization_zero_point z) read_dense_quantization_zero_point z.
Proof.
  unfold read_dense_quantization_zero_point.
  destruct z as [| | |g];
    cbn [put_dense_quantization_zero_point zero_point_repr zero_point_wire_ok]; intros;
    rewrite ?(proj2 (Z.eqb_neq g 0)) by done; rt_auto; cbn.
  by rewrite (proj2 (Z.eqb_neq g 0)).
Qed.
#[local] Hint Resolve rt_dense_scale rt_dense_zero_point rt_hints : wire.

Lemma quantized_storage_tag t : DataType.is_quantized_storage t = true ->
  exists tag, dense_data_type_tag t = Ok tag /\ dense_data_type_from_tag tag = Ok t
    /\ 0 <= tag <= U8_MAX.
Proof. destruct t; try done; intros _; eexists; (split; [done|]); (split; [done|lia]). Qed.

Lemma rt_dense_shape d count t tag :
  inu 32 count -> data_type_repr t -> dense_element_ok t -> dense_data_type_tag t = Ok tag ->
  rt d (put_dense_shape count t) (read_dense_shape tag) (count, t).
Proof.
  intros Hc Hr Hok Htag. unfold put_dense_shape, read_dense_shape.
  eapply rt_bind; [by apply rt_leb_param|]. eapply rt_last; [|reflexivity].
  destruct t; cbn in *; try done; simplify_eq; try exact (rt_ret _ _); unfold read_dense_element;
    cbn; destruct_and?; try solve [rt_auto].
  - match goal with Hq : DataType.is_quantized_storage _ = true |- _ =>
      rewrite Hq; destruct (quantized_storage_tag _ Hq) as (tag & -> & Hf & ?); cbn end.
    eapply rt_bind; [apply rt_leb_u64; width_lia|]. cbv beta.
    rewrite (proj2 (Z.ltb_ge _ _)), Hf by lia. apply rt_ret_bind.
    match goal with Hq : DataType.is_quantized_storage _ = true |- _ => rewrite Hq end. cbn.
    rt_auto.
  - eapply rt_last; [by apply rt_leb_param|]. rewrite DataTypeWire.reserved_ok by done. done.
Qed.

Lemma rt_optional_name d o :
  match o with Some s => str_ok s = true /\ name_ok s | None => True end ->
  rt d (put_optional_name o) read_optional_name o.
Proof.
  unfold read_optional_name. destruct o as [s|]; cbn; intros Ho.
  - eapply rt_bind; [apply rt_u8; width_lia|]. eapply rt_last; [by apply rt_name; apply Ho|]. done.
  - eapply rt_last; [apply rt_u8; width_lia|]. done.
Qed.

Lemma rt_output_range d o :
  match o with Some (s, e) => inu 64 s /\ inu 64 e /\ s <= e | None => True end ->
  rt d (put_output_range o) read_output_range o.
Proof.
  unfold read_output_range. destruct o as [[s e]|]; cbn; intros Ho; [|rt_auto].
  destruct Ho as (? & ? & ?). rt_auto. unfold validate_output_range_order.
  rewrite (proj2 (Z.ltb_ge _ _)) by lia. done.
Qed.

Lemma rt_flag d b : rt d (put_u8 (flag_byte b)) read_flag b.
Proof. unfold read_flag. destruct b; cbn; rt_auto. Qed.

(** The metadata half of a buffer declaration. *)
Definition metadata_buffer_of (b : BufferDecl) : DecodedBuffer :=
  mkDecodedBuffer (bd_name b) (bd_binding b) BufferAccess.ReadOnly MemoryKind.Readonly DataType.U32
    (bd_count b) (bd_is_output b) (bd_pipeline_live_out b) (bd_output_byte_range b) (bd_hints b)
    false.

#[local] Hint Resolve rt_name rt_optional_name rt_output_range rt_flag : wire.

Lemma flag_byte_range b : inu 8 (flag_byte b).
Proof. destruct b; cbn; width_lia. Qed.
Lemma flag_byte_bool b : negb (flag_byte b =? 0) = b.
Proof. by destruct b. Qed.

Lemma rt_metadata_buffer d b : buffer_repr b -> buffer_wire_ok b ->
  rt d (put_metadata_buffer b) read_metadata_buffer (metadata_buffer_of b).
Proof.
  intros (Hn & Hb & He & Hc & Hrange & Hh) (Hname & _ & Hro & Hz).
  unfold put_metadata_buffer, read_metadata_buffer. do 3 rt_step.
  do 2 (eapply rt_bind; [apply rt_u8, flag_byte_range|]; cbv beta).
  rewrite !flag_byte_bool.
  assert ((bd_count b =? 0) && bd_is_output b = false
          /\ (bd_count b =? 0) && bd_pipeline_live_out b = false) as [-> ->].
  { destruct (Z.eqb_spec (bd_count b) 0) as [E|]; [|done].
    destruct (Hz E) as (-> & -> & _). done. }
  eapply rt_bind; [apply rt_output_range|rt_auto].
  unfold output_range_ok in Hro. destruct (bd_output_byte_range b) as [[s e]|]; [|done]. tauto.
Qed.

Lemma rt_metadata d p :
  program_repr p -> Forall buffer_wire_ok (buffers p) -> blen (buffers p) <= MAX_BUFFERS ->
  match entry_op_id p with Some s => name_ok s | None => True end ->
  (let '(x, y, z) := workgroup_size p in x <> 0 /\ y <> 0 /\ z <> 0) ->
  rt d (put_metadata_payload p (buffers p)) read_metadata_body
    (mkDecodedMetadata (entry_op_id p) (workgroup_size p) []
       (map metadata_buffer_of (buffers p)) (non_composable_with_self p)).
Proof.
  intros (Hop & Hb & Hwg & _) Hok Hlen Hname Hnz.
  unfold put_metadata_payload, read_metadata_body.
  destruct (workgroup_size p) as [[x y] z]. destruct Hwg as (? & ? & ?), Hnz as (? & ? & ?).
  eapply rt_bind; [apply (rt_raw _ META_MARKER), str_bytes_range|]. cbv beta.
  rewrite bool_decide_true by done. cbn [negb].
  eapply rt_bind; [apply rt_optional_name; destruct (entry_op_id p); auto|]. cbv beta.
  do 3 rt_step. unfold validate_workgroup_size.
  rewrite !(proj2 (Z.eqb_neq _ _)) by done. apply rt_ret_bind.
  eapply rt_bind; [apply rt_flag|]. cbv beta.
  eapply rt_bind; [apply rt_leb_len; unfold MAX_BUFFERS in *; pose proof (blen_nonneg (buffers p)); lia|].
  cbv beta. eapply rt_last; [|reflexivity].
  unfold blen. rewrite Nat2Z.id. apply rt_list_map.
  rewrite Forall_forall in *. intros b Hin. apply rt_metadata_buffer; auto.
Qed.

(** *** Memory regions *)

Definition decoded_buffer_of (b : BufferDecl) : DecodedBuffer :=
  mkDecodedBuffer (bd_name b) (bd_binding b) (bd_access b) (bd_kind b) (bd_element b)
    (bd_count b) (bd_is_output b) (bd_pipeline_live_out b) (bd_output_byte_range b) (bd_hints b)
    false.

Lemma dense_tag_ok t : dense_element_ok t ->
  exists tag, dense_data_type_tag t = Ok tag /\ inu 8 tag.
Proof. destruct t; try done; intros _; eexists; (split; [done|width_lia]). Qed.

Lemma rt_lift {A B} d w (x : wire A) a (k : A -> Rd B) b :
  x = Ok a -> rt d w (k a) b -> rt d w (rlift x ≫= k) b.
Proof. intros ->. done. Qed.

Lemma access_tag_ok a : access_from_tag (access_tag a) = Ok a /\ inu 8 (access_tag a).
Proof. destruct a; split; try done; cbn; width_lia. Qed.
Lemma memory_kind_tag_ok k : memory_kind_from_tag (memory_kind_tag k) = Ok k /\ inu 8 (memory_kind_tag k).
Proof. destruct k; split; try done; cbn; width_lia. Qed.

Lemma range_fits_ok b : output_range_ok b ->
  validate_output_range_fits (metadata_buffer_of b) (bd_element b) (bd_count b) = Ok tt.
Proof.
  unfold output_range_ok, validate_output_range_fits. cbn.
  destruct (bd_output_byte_range b) as [[s e]|]; [|done]. intros [_ H].
  destruct (DataType.size_bytes (bd_element b)) as [n|]; [|done]. destruct H as [H1 H2].
  cbn. unfold usize_checked_mul. rewrite (proj2 (Z.leb_le _ _)) by done. cbn.
  by rewrite (proj2 (Z.ltb_ge _ _)).
Qed.

Lemma count_zero_ok b : buffer_wire_ok b ->
  (bd_count b =? 0) && bool_decide (bd_access b = BufferAccess.Workgroup) = false
  /\ (bd_count b =? 0) && bd_is_output b = false
  /\ (bd_count b =? 0) && bd_pipeline_live_out b = false.
Proof.
  intros (_ & _ & _ & Hz). destruct (Z.eqb_spec (bd_count b) 0) as [E|]; [|done].
  destruct (Hz E) as (-> & -> & ?). by rewrite bool_decide_false.
Qed.

Lemma rt_memory_region d index b :
  buffer_repr b -> buffer_wire_ok b -> 0 <= index <= U32_MAX ->
  rt d (put_memory_region index b) (read_memory_region index (metadata_buffer_of b))
    (decoded_buffer_of b).
Proof.
  intros Hr Hok Hi. pose proof (count_zero_ok b Hok) as (Z1 & Z2 & Z3).
  destruct Hr as (_ & _ & He & Hc & _ & Hh). destruct Hok as (_ & Hd & Hro & _).
  destruct (dense_tag_ok _ Hd) as (tag & Htag & Htr).
  destruct (access_tag_ok (bd_access b)) as [Ha Har].
  destruct (memory_kind_tag_ok (bd_kind b)) as [Hk Hkr].
  unfold put_memory_region, read_memory_region. rewrite Htag. cbn [put_tag].
  rewrite (proj2 (Z.leb_le _ _)) by lia.
  eapply rt_bind; [apply rt_leb_u32; width_lia|]. cbv beta. rewrite Z.eqb_refl. cbn [negb].
  eapply rt_bind; [by apply rt_u8|]. eapply rt_lift; [exact Hk|].
  eapply rt_bind; [by apply rt_u8|]. eapply rt_lift; [exact Ha|].
  eapply rt_bind; [by apply rt_u8|]. cbv beta.
  eapply rt_bind; [apply rt_u8; width_lia|]. cbv beta. change (negb (0 =? 0)) with false. cbv iota.
  eapply rt_bind.
  { apply rt_sub; [by apply rt_dense_shape|]. intros enc E.
    pose proof (emits_at_most _ _ _ E (at_most_dense_shape _ _)). lia. }
  cbv beta iota. eapply rt_last.
  { apply rt_sub; [by apply rt_hints|]. intros enc E.
    exact (emits_at_most _ _ _ E (at_most_hints _)). }
  cbn [metadata_buffer_of db_count db_is_output db_pipeline_live_out].
  rewrite Z.eqb_refl. cbn [negb]. rewrite Z1, Z2, Z3. rewrite range_fits_ok by done. done.
Qed.

Lemma rt_regions_from d index bufs :
  Forall buffer_repr bufs -> Forall buffer_wire_ok bufs ->
  0 <= index -> index + blen bufs <= U32_MAX ->
  rt d (put_regions_from index bufs) (read_regions_from index (map metadata_buffer_of bufs))
    (map decoded_buffer_of bufs).
Proof.
  revert index; induction bufs as [|b bufs IH]; intros index Hr Hok Hi Hl; cbn; [apply rt_ret|].
  inversion_clear Hr; inversion_clear Hok. unfold blen in *. cbn [length] in Hl.
  eapply rt_bind; [apply rt_memory_region; auto; lia|]. cbv beta.
  eapply rt_last; [apply IH; auto; lia|]. done.
Qed.

Lemma rt_memory_regions d bufs :
  Forall buffer_repr bufs -> Forall buffer_wire_ok bufs -> blen bufs <= MAX_BUFFERS ->
  rt d (put_memory_regions bufs) (read_memory_regions (map metadata_buffer_of bufs))
    (map decoded_buffer_of bufs).
Proof.
  intros Hr Hok Hl. unfold put_memory_regions, read_memory_regions, MAX_BUFFERS in *.
  pose proof (blen_nonneg bufs).
  eapply rt_bind; [apply rt_leb_len; lia|]. cbv beta.
  replace (blen (map metadata_buffer_of bufs)) with (blen bufs)
    by (unfold blen; by rewrite length_map).
  rewrite Z.eqb_refl. cbn [negb]. apply rt_regions_from; auto; lia.
Qed.

(** *** Output set *)

Lemma matches_canonical_iff actual i accs :
  matches_canonical_output_indices actual i accs = true
  <-> actual = canonical_output_indices i accs.
Proof.
  revert actual i; induction accs as [|a accs IH]; intros actual i; cbn.
  - destruct actual; split; done.
  - destruct (is_output_access a); cbn; [|apply IH].
    destruct actual as [|x actual]; [split; done|].
    rewrite andb_true_iff, Z.eqb_eq, IH. naive_solver.
Qed.

Lemma canonical_length i accs :
  blen (canonical_output_indices i accs) = blen (List.filter is_output_access accs).
Proof.
  revert i; induction accs as [|a accs IH]; intros i; cbn; [done|].
  specialize (IH (i + 1)). unfold blen in *. destruct (is_output_access a); cbn [length]; lia.
Qed.

Lemma filter_length {A} (f : A -> bool) l : blen (List.filter f l) <= blen l.
Proof.
  induction l as [|x l IH]; cbn; [done|]. unfold blen in *.
  destruct (f x); cbn [length]; lia.
Qed.

Lemma rt_output_indices d pre suf prev :
  blen (pre ++ suf) <= MAX_BUFFERS ->
  match prev with Some p => p < blen pre | None => True end ->
  rt d (put_output_indices (blen pre) suf)
    (read_output_indices (length (canonical_output_indices (blen pre) suf)) (pre ++ suf) prev)
    (canonical_output_indices (blen pre) suf).
Proof.
  revert pre prev; induction suf as [|a suf IH]; intros pre prev Hl Hp; cbn; [apply rt_ret|].
  assert (Hpre : blen (pre ++ [a]) = blen pre + 1) by (rewrite blen_app; done).
  specialize (IH (pre ++ [a])). rewrite <- app_assoc, Hpre in IH. cbn [app] in IH.
  destruct (is_output_access a) eqn:Ea; cbn.
  - rewrite blen_app in Hl. unfold MAX_BUFFERS in *. pose proof (blen_nonneg pre).
    pose proof (blen_nonneg (a :: suf)).
    rewrite (proj2 (Z.leb_le _ _)) by lia.
    eapply rt_bind; [apply rt_leb_u32; width_lia|]. cbv beta.
    unfold blen at 2. rewrite Nat2Z.id, list_lookup_middle by done. rewrite Ea. cbn [negb].
    replace (match prev with Some p => blen pre <=? p | None => false end) with false
      by (destruct prev; [symmetry; apply Z.leb_gt; lia|done]).
    eapply rt_last; [apply IH; [rewrite blen_app; lia|lia]|]. done.
  - apply IH; [done|]. destruct prev; [lia|done].
Qed.

Lemma rt_output_set d accs : blen accs <= MAX_BUFFERS ->
  rt d (encode_from_buffers_into accs) (decode_output_set accs)
    (canonical_output_indices 0 accs).
Proof.
  intros Hl. unfold encode_from_buffers_into, decode_output_set.
  pose proof (filter_length is_output_access accs).
  pose proof (blen_nonneg (List.filter is_output_access accs)). unfold MAX_BUFFERS in *.
  eapply rt_bind; [apply rt_leb_len; lia|]. cbv beta.
  rewrite <- (canonical_length 0). unfold blen at 1. rewrite Nat2Z.id.
  eapply rt_last; [exact (rt_output_indices d [] accs None Hl I)|]. cbv beta.
  by rewrite (proj2 (matches_canonical_iff _ _ _)).
Qed.

(** *** Node records *)

Lemma rt_node_record d op_id payload i :
  wire_str op_id -> Forall (inu 8) payload -> blen payload <= USIZE_MAX ->
  rt d (put_node_record op_id payload []) (read_node_record i) (op_id, payload, []).
Proof.
  intros Hop Hb Hl. unfold put_node_record, read_node_record. pose proof (blen_nonneg payload).
  eapply rt_bind; [by apply rt_leb_string|]. cbv beta.
  eapply rt_bind; [apply rt_leb_len; lia|]. cbv beta.
  eapply rt_bind; [by apply rt_raw|]. cbv beta.
  eapply rt_bind; [apply rt_leb_len; unfold blen, MAX_NODES; cbn; lia|].
  exact (rt_ret _ _).
Qed.

Section ProgramRoundtrip.
Context (blake3 : bytes -> bytes) (reg : OpaqueRegistry).

(** Names of operations are short ASCII constants, or an extension's kind. *)
Lemma node_op_id_wire_str n : node_repr n -> node_wire_ok reg n -> wire_str (node_op_id n).
Proof.
  destruct n; cbn; try (intros _ _; split; [done|vm_compute; discriminate]).
  intros [? _] [? _]. done.
Qed.

Lemma node_op_id_canonical n : node_op_id (canonical_node n) = node_op_id n.
Proof. by destruct n. Qed.

Lemma rt_entry_record d n i :
  node_repr n -> node_wire_ok reg n -> Z.of_nat (node_depth n) <= MAX_DECODE_DEPTH ->
  fits (put_node n) ->
  rt d (put_entry_record n) (read_entry_record reg i) (canonical_node n).
Proof.
  intros Hr Hok Hd Hfits. pose proof (rt_node reg n 0 Hr Hok Hd) as Hrt.
  pose proof Hrt as (enc & He & Hb & _). specialize (Hfits enc He).
  eapply rt_wsub; [exact He|]. unfold read_entry_record.
  eapply rt_last; [apply rt_node_record; auto using node_op_id_wire_str|]. cbv beta iota.
  rewrite bool_decide_true by done. cbn [negb].
  rewrite (run_sub_ok _ _ _ _ _ Hrt He Hfits).
  change (rlift (Ok ?a) ≫= ?k) with (k a) at 1. cbv beta.
  rewrite bool_decide_true by apply node_op_id_canonical. done.
Qed.

Definition entry_ok (n : Node) : Prop :=
  node_repr n /\ node_wire_ok reg n /\ Z.of_nat (node_depth n) <= MAX_DECODE_DEPTH
  /\ fits (put_node n).

Lemma rt_entries d l i : Forall entry_ok l ->
  rt d (wlist put_entry_record l) (read_entries reg (length l) i) (map canonical_node l).
Proof.
  intros H; revert i; induction H as [|n l Hn Hl IH]; intros i; cbn; [apply rt_ret|].
  destruct Hn as (? & ? & ? & ?).
  eapply rt_bind; [by apply rt_entry_record|]. cbv beta. by eapply rt_last.
Qed.

Lemma rt_nodes_section d p :
  program_repr p -> program_wire_ok reg p -> program_fits p ->
  rt d (put_nodes_section p (buffers p)) (read_nodes_section reg)
    (mkDecodedMetadata (entry_op_id p) (workgroup_size p) (map canonical_node (entry p))
       (map metadata_buffer_of (buffers p)) (non_composable_with_self p)).
Proof.
  intros Hr (Hname & Hwg & Hnb & Hnn & Hbufs & Hent) [Hnf Hfits].
  pose proof (rt_metadata 0 p Hr Hbufs Hnb Hname Hwg) as Hmeta.
  pose proof Hmeta as (enc & He & Hb & _). specialize (Hfits enc He).
  unfold put_nodes_section, read_nodes_section. pose proof (blen_nonneg (entry p)).
  unfold MAX_NODES in *.
  eapply rt_bind; [apply rt_leb_len; lia|]. cbv beta.
  rewrite (proj2 (Z.eqb_neq _ _)) by lia.
  eapply rt_bind; [eapply rt_wsub; [exact He|]; apply rt_node_record; auto|].
  { split; [done|vm_compute; discriminate]. }
  cbv beta iota. do 2 (rewrite bool_decide_true by done; cbn [negb]).
  unfold read_metadata. rewrite (run_sub_ok _ _ _ _ _ Hmeta He Hfits).
  apply rt_ret_bind. eapply rt_last; [|reflexivity].
  unfold blen. rewrite Z.add_simpl_r, Nat2Z.id. apply rt_entries.
  destruct Hr as (_ & _ & _ & Hn). rewrite Forall_forall in *. intros n Hin.
  specialize (Hent n Hin). specialize (Hn n Hin). specialize (Hnf n Hin).
  unfold entry_ok. tauto.
Qed.

Lemma map_buffer_decl_of bufs :
  map buffer_decl_of (map decoded_buffer_of bufs) = map canonical_buffer bufs.
Proof. rewrite map_map. done. Qed.

Lemma rt_body d p : program_repr p -> program_wire_ok reg p -> program_fits p ->
  rt d (put_body p (buffers p)) (read_body reg)
    (canonical_program p, canonical_output_indices 0 (map bd_access (buffers p))).
Proof.
  intros Hr Hok Hfits. pose proof Hok as (_ & _ & Hnb & _ & Hbufs & _).
  pose proof Hr as (_ & Hbr & _ & _). unfold put_body, read_body.
  eapply rt_bind; [by apply rt_nodes_section|]. cbv beta. cbn [dm_buffers].
  eapply rt_bind; [by apply rt_memory_regions|]. cbv beta.
  assert (map db_access (map decoded_buffer_of (buffers p)) = map bd_access (buffers p)) as ->
    by (rewrite map_map; done).
  eapply rt_last.
  - apply rt_output_set. unfold blen in *. by rewrite length_map.
  - cbv beta. cbn. by rewrite map_buffer_decl_of.
Qed.

(** The encoder's own guards accept what [program_wire_ok] admits. *)
Lemma reject_buffer_shape_ok b : buffer_repr b -> buffer_wire_ok b -> reject_buffer_shape b = Ok tt.
Proof.
  intros Hr Hok. destruct (count_zero_ok b Hok) as (Z1 & _ & Z3).
  unfold reject_buffer_shape. rewrite Z1, Z3. cbn.
  destruct Hok as (_ & _ & Hro & _). unfold output_range_ok in Hro.
  destruct (bd_output_byte_range b) as [[s e]|] eqn:E; [|done].
  destruct Hro as [Hse Hsz]. destruct (DataType.size_bytes (bd_element b)) as [n|]; [|done].
  destruct Hsz as [Hm He].
  destruct (Z.eqb_spec (bd_count b) 0); cbn;
    [|unfold usize_checked_mul; rewrite (proj2 (Z.leb_le _ _)) by done; cbn];
    rewrite (proj2 (Z.ltb_ge e s)) by done; cbn [reject_if mbind result_bind].
  - by rewrite andb_false_r.
  - by rewrite (proj2 (Z.ltb_ge _ _)).
Qed.

Lemma reject_shapes_ok p : program_repr p -> program_wire_ok reg p ->
  reject_non_roundtrippable_shapes p (buffers p) = Ok tt.
Proof.
  intros (_ & Hbr & _ & _) (_ & Hwg & _ & _ & Hbufs & _).
  unfold reject_non_roundtrippable_shapes. destruct (workgroup_size p) as [[x y] z].
  destruct Hwg as (? & ? & ?). rewrite !(proj2 (Z.eqb_neq _ _)) by done. cbn.
  induction Hbufs as [|b bufs Hb _ IH]; cbn; [done|]. inversion_clear Hbr.
  rewrite reject_buffer_shape_ok by done. cbn. auto.
Qed.

(** The digest is 32 bytes. *)
Class Digest : Prop := {
  digest_length l : length (blake3 l) = 32%nat;
  digest_bytes l : Forall (inu 8) (blake3 l);
}.

Definition header (body : bytes) : bytes :=
  MAGIC ++ le_bytes 2 WIRE_FORMAT_VERSION ++ le_bytes 2 FLAG_OPAQUE_ENDIAN_FIXED ++ blake3 body.

Lemma to_wire_into_body p body dst :
  reject_non_roundtrippable_shapes p (buffers p) = Ok tt -> put_body p (buffers p) [] = Ok body ->
  to_wire_into blake3 p dst = Ok (dst ++ header body ++ body).
Proof.
  intros Hs Hb. unfold to_wire_into, to_wire_with_buffer_order_into. rewrite Hs. cbn [mbind result_bind].
  rewrite Hb. cbn [mbind result_bind].
  assert (emits (put_raw MAGIC ;> put_u16 WIRE_FORMAT_VERSION ;> put_u16 FLAG_OPAQUE_ENDIAN_FIXED ;>
                 put_raw (blake3 body) ;> put_raw body) (header body ++ body)) as He; [|apply He].
  unfold header. rewrite <- !app_assoc. repeat apply emits_seq; done.
Qed.

Context `{!Digest}.

Lemma from_wire_header body :
  blen (header body ++ body) <= MAX_PROGRAM_BYTES ->
  from_wire blake3 reg (header body ++ body)
  = run_sub (read_body reg) body (Malformed "trailing bytes after OutputSet").
Proof.
  intros Hl. unfold from_wire. rewrite (proj2 (Z.ltb_ge _ _)) by done.
  assert (Hh : length (header body) = 40%nat).
  { unfold header. cbn. by rewrite digest_length. }
  assert (Hlen : 40 <= blen (header body ++ body)) by (rewrite blen_app; unfold blen; lia).
  assert (expect_magic (mkReader (header body ++ body) 0 0)
          = Ok (tt, mkReader (header body ++ body) 6 0)) as ->.
  { unfold expect_magic. cbn [rd_bytes rd_depth]. change (blen MAGIC) with 4.
    rewrite !(proj2 (Z.ltb_ge _ _)) by lia. done. }
  cbn [mbind result_bind]. rewrite (proj2 (Z.ltb_ge _ _)) by (unfold HEADER_LEN; lia).
  assert (skipn 40 (header body ++ body) = body) as -> by (rewrite <- Hh; apply drop_app_length).
  assert (firstn 32 (skipn 8 (header body ++ body)) = blake3 body) as ->.
  { unfold header. cbn. rewrite <- (digest_length body). apply take_app_length. }
  cbn -[run_sub read_body MAX_PROGRAM_BYTES]. by rewrite bool_decide_true.
Qed.

Lemma program_roundtrip_aux p :
  program_repr p -> program_wire_ok reg p -> program_fits p ->
  exists body, to_wire blake3 p = Ok (header body ++ body) /\ Forall (inu 8) (header body ++ body)
    /\ (blen (header body ++ body) <= MAX_PROGRAM_BYTES ->
        from_wire blake3 reg (header body ++ body)
        = Ok (canonical_program p, canonical_output_indices 0 (map bd_access (buffers p)))).
Proof.
  intros Hr Hok Hfits. pose proof (rt_body 0 p Hr Hok Hfits) as Hrt. pose proof Hrt as (body & He & Hb & _).
  exists body. split_and!.
  - unfold to_wire. rewrite (to_wire_into_body p body []); [done|by apply reject_shapes_ok|].
    apply (He []).
  - unfold header. rewrite !Forall_app. split_and!; auto using digest_bytes, le_bytes_range.
    apply str_bytes_range.
  - intros Hl. rewrite from_wire_header by done. apply (run_sub_ok _ _ _ _ _ Hrt He).
    rewrite blen_app in Hl. pose proof (blen_nonneg (header body)).
    unfold MAX_PROGRAM_BYTES in Hl. lia.
Qed.
End ProgramRoundtrip.

(** ** What the decoder returns *)

Section Yields.
Context (P : Reader -> Prop) `{!Steady P}.

Lemma yields_sub {A} (m : Rd A) (φ : A -> Prop) payload e :
  yields (at_depth 0) m φ -> Forall (inu 8) payload -> e <> OutOfFuel ->
  yields P (rlift (run_sub m payload e)) φ.
Proof.
  intros Hm Hb He. unfold run_sub.
  assert (Hr : at_depth 0 (mkReader payload 0 0))
    by (split_and!; cbn; auto; [lia|apply blen_nonneg]).
  specialize (Hm _ Hr). destruct (m _) as [[x r]|e']; apply yields_lift;
    try case_match; try congruence; intros ? [= <-]; apply Hm.
Qed.

Lemma yields_read_sub {A} what (m : Rd A) (φ : A -> Prop) :
  yields (at_depth 0) m φ -> yields P (read_sub what m) φ.
Proof.
  intros Hm. unfold read_sub. eapply yields_bind; [by apply yields_leb_len|]. intros n [Hn _].
  eapply yields_bind; [by apply steady_take|]. intros l [Hl _]. by apply yields_sub.
Qed.

Lemma yields_hints : yields P read_hints hints_repr.
Proof.
  unfold read_hints, read_coalesce_axis, read_cache_locality.
  apply (yields_bind _ _ _ (fun o => match o with Some a => inu 8 a | None => True end));
    [yields_auto; done|]. intros o Ho.
  eapply yields_bind; [by apply yields_u32|]. intros al Hal.
  apply (yields_bind _ _ _ (fun _ => True)); [yields_auto; done|]. intros c _.
  by apply yields_ret.
Qed.

Lemma yields_leb_param what : yields P (leb_u32_param what) (inu 32).
Proof.
  eapply yields_bind; [by apply yields_leb_u64|]. intros x Hx.
  destruct (Z.leb_spec x U32_MAX); [apply yields_ret; width_lia|by apply yields_err].
Qed.
#[local] Hint Resolve yields_leb_param yields_hints : yields.

Lemma yields_dense_scale :
  yields P read_dense_quantization_scale (fun s => scale_repr s /\ scale_wire_ok s).
Proof.
  unfold read_dense_quantization_scale. yields_auto; cbn; try done.
  split; [done|]. by apply Z.eqb_neq.
Qed.
Lemma yields_dense_zero_point :
  yields P read_dense_quantization_zero_point (fun z => zero_point_repr z /\ zero_point_wire_ok z).
Proof.
  unfold read_dense_quantization_zero_point. yields_auto; cbn; try done.
  split; [done|]. by apply Z.eqb_neq.
Qed.

Lemma yields_dense_tag tag :
  yields P (rlift (dense_data_type_from_tag tag)) (fun t => data_type_repr t /\ dense_element_ok t).
Proof.
  apply yields_lift; unfold dense_data_type_from_tag; repeat case_match; try discriminate;
    intros ? [= <-]; done.
Qed.
#[local] Hint Resolve yields_dense_scale yields_dense_zero_point yields_dense_tag
  DataTypeWire.yields_reserved : yields.

Lemma yields_dense_element tag :
  yields P (read_dense_element tag) (fun t => data_type_repr t /\ dense_element_ok t).
Proof.
  unfold read_dense_element. yields_auto; cbn; destruct_and?; split_and?; auto.
  by apply negb_false_iff.
Qed.
#[local] Hint Resolve yields_dense_element : yields.

Lemma yields_dense_shape tag :
  yields P (read_dense_shape tag)
    (fun '(c, t) => inu 32 c /\ data_type_repr t /\ dense_element_ok t).
Proof. unfold read_dense_shape. yields_auto. done. Qed.

Lemma yields_output_range :
  yields P read_output_range
    (fun o => match o with Some (s, e) => inu 64 s /\ inu 64 e /\ s <= e | None => True end).
Proof.
  unfold read_output_range. yields_auto; try done.
  unfold validate_output_range_order. destruct (Z.ltb_spec x1 x0); cbn; [by apply yields_err|].
  by apply yields_ret.
Qed.
#[local] Hint Resolve yields_output_range : yields.

(** What [read_metadata] guarantees of a buffer before its region is read. *)
Definition metadata_buffer_ok (b : DecodedBuffer) : Prop :=
  wire_str (db_name b) /\ inu 32 (db_binding b) /\ inu 32 (db_count b)
  /\ match db_output_byte_range b with
     | Some (s, e) => inu 64 s /\ inu 64 e /\ s <= e | None => True end
  /\ hints_repr (db_hints b) /\ db_bytes_extraction b = false.

Lemma yields_metadata_buffer : yields P read_metadata_buffer metadata_buffer_ok.
Proof. unfold read_metadata_buffer. yields_auto. done. Qed.
#[local] Hint Resolve yields_metadata_buffer : yields.

Definition metadata_ok (m : DecodedMetadata) : Prop :=
  match dm_entry_op_id m with Some s => wire_str s | None => True end
  /\ (let '(x, y, z) := dm_workgroup_size m in
      (inu 32 x /\ inu 32 y /\ inu 32 z) /\ x <> 0 /\ y <> 0 /\ z <> 0)
  /\ Forall metadata_buffer_ok (dm_buffers m) /\ blen (dm_buffers m) <= MAX_BUFFERS.

Lemma yields_metadata_body : yields P read_metadata_body metadata_ok.
Proof.
  unfold read_metadata_body.
  eapply yields_bind; [apply steady_take; lia|]. intros marker _.
  case_match; [by apply yields_err|].
  apply (yields_bind _ _ _ (fun o => match o with Some s => wire_str s | None => True end)).
  { unfold read_optional_name. yields_auto; done. }
  intros o Ho. do 3 yields_step. unfold validate_workgroup_size.
  destruct (Z.eqb_spec x 0); [by apply yields_err|].
  destruct (Z.eqb_spec x0 0); [by apply yields_err|].
  destruct (Z.eqb_spec x1 0); [by apply yields_err|]. cbn [orb reject_if].
  apply (yields_bind _ _ _ (fun _ => True)); [by apply yields_ret|]. intros _ _.
  apply (yields_bind _ _ _ (fun _ => True)); [unfold read_flag; yields_auto; done|]. intros f _.
  yields_auto. destruct_and?. unfold metadata_ok. cbn. split_and!; auto. unfold blen. lia.
Qed.
End Yields.

Section YieldsProgram.
Context (reg : OpaqueRegistry) `{!LawfulRegistry reg}.

Definition decoded_buffer_ok (b : DecodedBuffer) : Prop :=
  buffer_repr (buffer_decl_of b) /\ buffer_wire_ok (buffer_decl_of b).

Lemma access_from_tag_fuel t : access_from_tag t <> Err OutOfFuel.
Proof. unfold access_from_tag. repeat case_match; discriminate. Qed.
Lemma memory_kind_from_tag_fuel t : memory_kind_from_tag t <> Err OutOfFuel.
Proof. unfold memory_kind_from_tag. repeat case_match; discriminate. Qed.

Lemma range_fits_inv b t c u :
  validate_output_range_fits b t c = Ok u ->
  match db_output_byte_range b with
  | None => True
  | Some (_, e) => exists n, DataType.size_bytes t = Some n /\ c * n <= USIZE_MAX /\ e <= c * n
  end.
Proof.
  unfold validate_output_range_fits. destruct (db_output_byte_range b) as [[s e]|]; [|done].
  destruct (DataType.size_bytes t) as [n|]; cbn; [|done]. unfold usize_checked_mul.
  destruct (Z.leb_spec (c * n) USIZE_MAX); cbn; [|done].
  intros H'%reject_if_Ok%Z.ltb_ge. eauto.
Qed.
Lemma range_fits_fuel b t c : validate_output_range_fits b t c <> Err OutOfFuel.
Proof.
  unfold validate_output_range_fits, ok_or, reject_if. repeat (case_match || cbn); discriminate.
Qed.

Lemma yields_memory_region d index b : metadata_buffer_ok b ->
  yields (at_depth d) (read_memory_region index b) decoded_buffer_ok.
Proof.
  intros (Hn & Hbind & Hc & Hrange & Hh & Hbe). unfold read_memory_region.
  yields_step. yields_guard. yields_step.
  eapply yields_bind; [apply (yields_lift _ _ (fun _ => True)); [apply memory_kind_from_tag_fuel|done]|].
  intros kind _. yields_step.
  eapply yields_bind; [apply (yields_lift _ _ (fun _ => True)); [apply access_from_tag_fuel|done]|].
  intros access _. do 2 yields_step. yields_guard.
  eapply yields_bind; [apply yields_read_sub; [apply _|]; apply yields_dense_shape; apply _|].
  intros [count element] (Hcount & Htr & Htok).
  eapply yields_bind; [apply yields_read_sub; [apply _|]; apply yields_hints; apply _|].
  intros hints Hhints.
  destruct (Z.eqb_spec (db_count b) count) as [Hcb|]; cbn [negb]; [|by apply yields_err].
  destruct ((count =? 0) && bool_decide (access = BufferAccess.Workgroup)) eqn:E1;
    [by apply yields_err|].
  destruct ((count =? 0) && db_is_output b) eqn:E2; [by apply yields_err|].
  destruct ((count =? 0) && db_pipeline_live_out b) eqn:E3; [by apply yields_err|].
  eapply yields_bind;
    [apply (yields_lift _ _ (fun _ => exists u, validate_output_range_fits b element count = Ok u));
       [apply range_fits_fuel|eauto]|].
  intros _ [u Hu%range_fits_inv]. apply yields_ret.
  unfold decoded_buffer_ok, buffer_repr, buffer_wire_ok, output_range_ok. cbn.
  destruct Hn as [Hs Hnl]. split_and!; auto.
  - destruct (db_output_byte_range b) as [[s e]|]; [tauto|done].
  - destruct (db_output_byte_range b) as [[s e]|]; [|done].
    destruct Hu as (n & -> & ?). tauto.
  - intros ->. cbn in *. apply bool_decide_eq_false in E1. auto.
Qed.

Lemma yields_regions_from d index bufs : Forall metadata_buffer_ok bufs ->
  yields (at_depth d) (read_regions_from index bufs)
    (fun l => Forall decoded_buffer_ok l /\ length l = length bufs).
Proof.
  intros H; revert index; induction H as [|b bufs Hb Hbs IH]; intros index; cbn;
    [by apply yields_ret|].
  eapply yields_bind; [by apply yields_memory_region|]. intros b' Hb'.
  eapply yields_bind; [apply IH|]. intros l [Hl <-]. apply yields_ret. split; [by constructor|done].
Qed.

Lemma yields_memory_regions d bufs : Forall metadata_buffer_ok bufs -> blen bufs <= MAX_BUFFERS ->
  yields (at_depth d) (read_memory_regions bufs)
    (fun l => Forall decoded_buffer_ok l /\ blen l <= MAX_BUFFERS).
Proof.
  intros Hb Hl. unfold read_memory_regions. yields_step. yields_guard.
  eapply yields_mono; [by apply yields_regions_from|]. intros l [? E]. split; [done|].
  unfold blen in *. by rewrite E.
Qed.

Lemma yields_output_indices d n accs prev :
  yields (at_depth d) (read_output_indices n accs prev) (fun _ => True).
Proof.
  revert prev; induction n as [|n IH]; intros prev; cbn; [by apply yields_ret|].
  yields_step. repeat (case_match; try by apply yields_err);
    (eapply yields_bind; [apply IH|]; intros; by apply yields_ret).
Qed.

Lemma yields_output_set d accs :
  yields (at_depth d) (decode_output_set accs) (fun l => l = canonical_output_indices 0 accs).
Proof.
  unfold decode_output_set. yields_step.
  eapply yields_bind; [apply yields_output_indices|]. intros l _.
  destruct (matches_canonical_output_indices l 0 accs) eqn:E; [|by apply yields_err].
  by apply yields_ret, matches_canonical_iff.
Qed.

Lemma yields_operands d n i : yields (at_depth d) (read_operands n i) (fun _ => True).
Proof.
  induction n as [|n IH]; cbn; [by apply yields_ret|]. yields_step.
  yields_guard. eapply yields_bind; [exact IH|]. intros; by apply yields_ret.
Qed.

Lemma yields_node_record d i :
  yields (at_depth d) (read_node_record i)
    (fun '(op, payload, _) => wire_str op /\ Forall (inu 8) payload).
Proof.
  unfold read_node_record. yields_step. yields_step.
  eapply yields_bind; [apply steady_take; lia|]. intros l [Hl _]. yields_step.
  eapply yields_bind; [apply yields_operands|]. intros; by apply yields_ret.
Qed.

(** What a decoded entry statement satisfies. *)
Definition entry_decoded (n : Node) : Prop :=
  node_repr n /\ node_wire_ok reg n /\ Z.of_nat (node_depth n) <= MAX_DECODE_DEPTH.

Lemma yields_entry_record d i : yields (at_depth d) (read_entry_record reg i) entry_decoded.
Proof.
  unfold read_entry_record. eapply yields_bind; [apply yields_node_record|].
  intros [[op payload] operands] [Hop Hb]. yields_guard.
  eapply yields_bind; [apply yields_sub; [apply (yields_node reg 0)|done|discriminate]|].
  intros n Hn. yields_guard. by apply yields_ret.
Qed.

Lemma yields_entries d n i :
  yields (at_depth d) (read_entries reg n i)
    (fun l => Forall entry_decoded l /\ length l = n).
Proof.
  revert i; induction n as [|n IH]; intros i; cbn; [by apply yields_ret|].
  eapply yields_bind; [apply yields_entry_record|]. intros x Hx.
  eapply yields_bind; [apply IH|]. intros l [Hl <-]. apply yields_ret. split; [by constructor|done].
Qed.

Lemma yields_nodes_section d :
  yields (at_depth d) (read_nodes_section reg)
    (fun m => metadata_ok m /\ Forall entry_decoded (dm_entry m) /\ blen (dm_entry m) + 1 <= MAX_NODES).
Proof.
  unfold read_nodes_section. yields_step. destruct (Z.eqb_spec x 0); [by apply yields_err|].
  eapply yields_bind; [apply yields_node_record|]. intros [[op payload] operands] [Hop Hb].
  do 2 yields_guard. unfold read_metadata.
  eapply yields_bind;
    [apply yields_sub; [apply yields_metadata_body; apply _|done|discriminate]|].
  intros m Hm. eapply yields_bind; [apply yields_entries|]. intros l [Hl Hlen].
  apply yields_ret. split_and!; [exact Hm|done|]. cbn. unfold blen. lia.
Qed.

(** Decoded programs are within the limits of the format. *)
Definition program_decoded (p : Program) : Prop := program_repr p /\ program_wire_ok reg p.

Lemma yields_body d :
  yields (at_depth d) (read_body reg)
    (fun '(p, outs) => program_decoded p
       /\ outs = canonical_output_indices 0 (map bd_access (buffers p))).
Proof.
  unfold read_body. eapply yields_bind; [apply yields_nodes_section|].
  intros m ((Hop & Hwg & Hbufs & Hnb) & Hent & Hnn).
  eapply yields_bind; [by apply yields_memory_regions|]. intros bufs [Hb Hlen].
  eapply yields_bind; [apply yields_output_set|]. intros outs ->. apply yields_ret.
  unfold program_decoded, program_repr, program_wire_ok. cbn. rewrite map_map.
  unfold blen in *. rewrite length_map. destruct (dm_workgroup_size m) as [[x y] z].
  split; [|done]. split; split_and!; auto; try tauto.
  - destruct (dm_entry_op_id m); [apply Hop|done].
  - apply Forall_map. eapply Forall_impl; [exact Hb|]. by intros b [? ?].
  - eapply Forall_impl; [exact Hent|]. by intros n (? & ? & ?).
  - destruct (dm_entry_op_id m); [apply Hop|done].
  - apply Forall_map. eapply Forall_impl; [exact Hb|]. by intros b [? ?].
  - eapply Forall_impl; [exact Hent|]. by intros n (? & ? & ?).
Qed.

Lemma run_body_sound body e : Forall (inu 8) body -> e <> OutOfFuel ->
  match run_sub (read_body reg) body e with
  | Ok (p, outs) => program_decoded p
                    /\ outs = canonical_output_indices 0 (map bd_access (buffers p))
  | Err e' => e' <> OutOfFuel
  end.
Proof.
  intros Hb He.
  assert (Hr : at_depth 0 (mkReader body 0 0))
    by (split_and!; cbn; auto; [lia|apply blen_nonneg]).
  pose proof (yields_body 0 _ Hr) as H. unfold run_sub.
  destruct (read_body reg _) as [[[p outs] r]|e']; [|done].
  destruct (rd_pos r =? blen (rd_bytes r)); [apply H|done].
Qed.
End YieldsProgram.

(** The header's flag checks leave one value. *)
Lemma flags_exact f :
  0 <= f < 256 ^ Z.of_nat 2 ->
  Z.land f (Z.lxor 0xFFFF (Z.lor FLAG_COMPRESSED (Z.lor FLAG_SEALED FLAG_OPAQUE_ENDIAN_FIXED))) = 0 ->
  Z.land f (Z.lor FLAG_COMPRESSED FLAG_SEALED) = 0 ->
  Z.land f FLAG_OPAQUE_ENDIAN_FIXED <> 0 -> f = FLAG_OPAQUE_ENDIAN_FIXED.
Proof.
  intros Hf H1 H2 H3.
  change (Z.land f 0xFFF8 = 0) in H1. change (Z.land f 3 = 0) in H2. change (Z.land f 4 <> 0) in H3.
  change (f = 4). assert (Hlow : f = f mod 8).
  { rewrite <- (land_mask 3) by lia. change (2 ^ 3 - 1) with 7.
    rewrite <- (Z.lor_0_l (Z.land f 7)), <- H1, <- Z.land_lor_distr_r.
    change (Z.lor 0xFFF8 7) with (2 ^ 16 - 1). rewrite land_mask by lia.
    symmetry. apply Z.mod_small. exact Hf. }
  pose proof (Z.mod_pos_bound f 8 ltac:(lia)). rewrite <- Hlow in *.
  assert (f = 0 \/ f = 1 \/ f = 2 \/ f = 3 \/ f = 4 \/ f = 5 \/ f = 6 \/ f = 7) as Hc by lia.
  destruct_or! Hc; subst; done.
Qed.

(** ** Properties *)

Module ProgramWire.

(** A digest for the witnesses: 32 bytes computed from the length. *)
Definition toy_digest (l : bytes) : bytes := repeat (blen l mod 256) 32.
#[global] Instance toy_digest_ok : Digest toy_digest.
Proof.
  split; intros l; [done|]. apply Forall_forall. intros b Hb%list_elem_of_In%repeat_spec. subst.
  unfold inu. apply Z.mod_pos_bound. lia.
Qed.

Definition sample_buffer : BufferDecl :=
  mkBufferDecl "out" 1 BufferAccess.ReadWrite MemoryKind.Global
    (DataType.Quantized DataType.I8 (QuantizationScale.PerGroup 32) QuantizationZeroPoint.Absent)
    64 true false (Some (4, 32)) (mkMemoryHints (Some 0) 16 CacheLocality.Temporal)
    true LinearType.Linear (Some (ShapePredicate.AtLeast 4)).
Definition sample_program : Program :=
  mkProgram (Some "demo.kernel") [sample_buffer] (64, 1, 1)
    [NodeWire.sample_node; Node.Return] true.

(** C1: the program codec is lossless on everything the format carries: a program
    within the format's limits always encodes, to bytes only, and the public
    [Program::from_wire] reads that blob back to the program with float literals
    canonicalised and the three buffer attributes the format does not carry
    reset; the output set it caches is exactly the writable buffers. *)
Theorem program_roundtrip blake3 reg `{!Digest blake3} p
  (Hrepr : program_repr p) (Hok : program_wire_ok reg p) (Hfits : program_fits p) :
  exists blob, to_wire blake3 p = Ok blob /\ Forall (inu 8) blob
    /\ (blen blob <= MAX_PROGRAM_BYTES ->
        Program_from_wire blake3 reg blob
        = Ok (canonical_program p, canonical_output_indices 0 (map bd_access (buffers p)))).
Proof.
  destruct (program_roundtrip_aux blake3 reg p Hrepr Hok Hfits) as (body & He & Hb & Hd).
  exists (header blake3 body ++ body). split_and!; [done|done|]. intros Hl. specialize (Hd Hl).
  unfold Program_from_wire. rewrite (proj2 (Z.ltb_ge _ _)) by done.
  change (of_le_bytes (firstn 2 (skipn 4 (header blake3 body ++ body)))) with WIRE_FORMAT_VERSION.
  rewrite Z.eqb_refl, andb_false_r, Hd. done.
Qed.

Lemma sample_ok : program_repr sample_program /\ program_wire_ok ExprWire.echo_registry sample_program
  /\ program_fits sample_program.
Proof.
  split_and!.
  - unfold program_repr, buffer_repr, hints_repr. cbn. concrete.
  - unfold program_wire_ok, buffer_wire_ok, output_range_ok. cbn. concrete;
      first [discriminate | vm_compute; discriminate].
  - unfold program_fits. split.
    + repeat constructor; intros l Hl; specialize (Hl []); vm_compute in Hl; injection Hl as <-;
        vm_compute; discriminate.
    + intros l Hl; specialize (Hl []); vm_compute in Hl; injection Hl as <-;
        vm_compute; discriminate.
Qed.

Lemma program_roundtrip_witness :
  exists blob, to_wire toy_digest sample_program = Ok blob /\ Forall (inu 8) blob
    /\ (blen blob <= MAX_PROGRAM_BYTES ->
        Program_from_wire toy_digest ExprWire.echo_registry blob
        = Ok (canonical_program sample_program, [0])).
Proof.
  destruct sample_ok as (Hr & Hok & Hf).
  exact (program_roundtrip toy_digest ExprWire.echo_registry sample_program Hr Hok Hf).
Defined.

(** [from_wire] accepts nothing without its envelope: a blob that decodes is
    within the size cap, starts with the magic and the supported version,
    carries exactly the one supported flag, and its digest field is the digest
    of the rest. *)
Theorem from_wire_envelope blake3 reg blob p outs
  (Hbytes : Forall (inu 8) blob) (Hdec : from_wire blake3 reg blob = Ok (p, outs)) :
  blen blob <= MAX_PROGRAM_BYTES /\ HEADER_LEN <= blen blob
  /\ firstn 4 blob = MAGIC
  /\ of_le_bytes (firstn 2 (skipn 4 blob)) = WIRE_FORMAT_VERSION
  /\ of_le_bytes (firstn 2 (skipn 6 blob)) = FLAG_OPAQUE_ENDIAN_FIXED
  /\ firstn 32 (skipn 8 blob) = blake3 (skipn 40 blob).
Proof.
  unfold from_wire in Hdec.
  destruct (Z.ltb_spec MAX_PROGRAM_BYTES (blen blob)); [done|].
  apply bind_Ok in Hdec as ([[] r] & Hmagic & Hdec).
  destruct (Z.ltb_spec (blen blob) HEADER_LEN); [done|].
  destruct (_ || _) eqn:Hflags in Hdec; [done|]. apply orb_false_iff in Hflags as [Hres Hcs].
  apply negb_false_iff, Z.eqb_eq in Hres, Hcs.
  destruct (Z.eqb_spec (Z.land (of_le_bytes (firstn 2 (skipn 6 blob))) FLAG_OPAQUE_ENDIAN_FIXED) 0)
    as [|Hfix]; [done|].
  destruct (bool_decide (blake3 (skipn 40 blob) = firstn 32 (skipn 8 blob))) eqn:Hdig; [|done].
  apply bool_decide_eq_true in Hdig.
  unfold expect_magic in Hmagic. cbn [rd_bytes rd_depth] in Hmagic.
  destruct (_ || _) eqn:Hm in Hmagic; [done|]. apply orb_false_iff in Hm as [_ Hm].
  apply negb_false_iff, bool_decide_eq_true in Hm.
  destruct (Z.ltb _ _) in Hmagic; [done|].
  destruct (Z.eqb_spec (of_le_bytes (firstn 2 (skipn 4 blob))) WIRE_FORMAT_VERSION); [|done].
  split_and!; auto. apply flags_exact; auto.
  pose proof (of_le_bytes_bound (firstn 2 (skipn 6 blob))
                (Forall_take _ _ _ (Forall_drop _ _ _ Hbytes))) as Hb.
  assert (length (firstn 2 (skipn 6 blob)) = 2%nat) as Hl2.
  { rewrite length_take, length_drop. unfold blen, HEADER_LEN in *. lia. }
  rewrite Hl2 in Hb. exact Hb.
Qed.

Definition sample_blob : bytes := Program_to_bytes toy_digest sample_program.

Lemma from_wire_envelope_witness :
  from_wire toy_digest ExprWire.echo_registry sample_blob
    = Ok (canonical_program sample_program, [0])
  /\ firstn 32 (skipn 8 sample_blob) = toy_digest (skipn 40 sample_blob).
Proof.
  assert (from_wire toy_digest ExprWire.echo_registry sample_blob
          = Ok (canonical_program sample_program, [0])) as H by (vm_compute; reflexivity).
  split; [exact H|].
  refine (proj2 (proj2 (proj2 (proj2 (proj2
    (from_wire_envelope toy_digest ExprWire.echo_registry sample_blob _ _ _ H)))))).
  apply (Forall_of_forallb _ (fun b => bool_decide (inu 8 b)));
    [intros b Hb; by apply bool_decide_eq_true in Hb|vm_compute; reflexivity].
Defined.

(** C13: decoding is sound and ends: every program [from_wire] accepts has fields that fit
    their types, meets the format's limits (names, arities, buffer and node counts,
    nesting depth, non-zero workgroup, output ranges inside their buffers) and comes with
    the canonical output set; on every byte string decoding ends with such a program or a
    diagnostic, given a call stack that holds one frame of [Reader::data_type] per byte.
    Statements and expressions are decoded under a depth guard; the recursion of
    [Reader::data_type] has none ([data_type_depth_unbounded]), and its fuel here is the
    number of bytes left. *)
Theorem from_wire_sound blake3 reg `{!LawfulRegistry reg} blob (Hbytes : Forall (inu 8) blob) :
  match from_wire blake3 reg blob with
  | Ok (p, outs) => program_repr p /\ program_wire_ok reg p
                    /\ outs = canonical_output_indices 0 (map bd_access (buffers p))
  | Err e => e <> OutOfFuel
  end.
Proof.
  unfold from_wire. destruct (_ <? _); [discriminate|].
  destruct (expect_magic _) as [[u r]|e] eqn:Hm; cbn [mbind result_bind].
  2: { unfold expect_magic in Hm. intros ->. by repeat case_match. }
  destruct (_ <? _); [discriminate|]. destruct (_ || _); [discriminate|].
  destruct (_ =? 0); [discriminate|]. destruct (negb _); [discriminate|].
  pose proof (run_body_sound reg (skipn 40 blob) (Malformed "trailing bytes after OutputSet")
                (Forall_drop _ _ _ Hbytes) ltac:(discriminate)) as H.
  destruct (run_sub _ _ _) as [[p outs]|e]; [|done]. destruct H as [[? ?] ?]. done.
Qed.

Lemma from_wire_sound_witness :
  match from_wire toy_digest ExprWire.echo_registry (firstn 60 sample_blob) with
  | Ok (p, outs) => program_repr p /\ program_wire_ok ExprWire.echo_registry p
                    /\ outs = canonical_output_indices 0 (map bd_access (buffers p))
  | Err e => e <> OutOfFuel
  end.
Proof.
  apply (from_wire_sound toy_digest ExprWire.echo_registry (firstn 60 sample_blob)).
  apply (Forall_of_forallb _ (fun b => bool_decide (inu 8 b)));
    [intros b Hb; by apply bool_decide_eq_true in Hb|vm_compute; reflexivity].
Defined.

(** [to_wire_into] appends the blob [to_wire] returns and keeps what the
    destination already held; it fails exactly when [to_wire] fails, with the
    same diagnostic. *)
Theorem to_wire_into_appends blake3 p dst :
  to_wire_into blake3 p dst = (app dst <$> to_wire blake3 p).
Proof.
  destruct (reject_non_roundtrippable_shapes p (buffers p)) as [[]|e] eqn:Hs;
    [destruct (put_body p (buffers p) []) as [body|e] eqn:Hb|].
  - unfold to_wire. by rewrite !(to_wire_into_body blake3 p body).
  - unfold to_wire, to_wire_into, to_wire_with_buffer_order_into. by rewrite Hs; cbn; rewrite Hb.
  - unfold to_wire, to_wire_into, to_wire_with_buffer_order_into. by rewrite Hs.
Qed.

(** A program whose only output buffer is sized at run time. *)
Definition runtime_sized_output : Program :=
  mkProgram None
    [mkBufferDecl "out" 0 BufferAccess.ReadWrite MemoryKind.Global DataType.U32 0 true false None
       (mkMemoryHints None 0 CacheLocality.Temporal) false LinearType.Unrestricted None]
    (1, 1, 1) [] false.

(** The encoder accepts an output buffer of count 0 (a run-time sized output,
    as its comment allows) and the decoder rejects the blob it writes, whatever
    the digest function and the registry. *)
Theorem zero_count_output_not_decodable blake3 reg `{!Digest blake3} :
  exists blob, to_wire blake3 runtime_sized_output = Ok blob
    /\ from_wire blake3 reg blob = Err (Malformed "output buffer has count 0").
Proof.
  set (p := runtime_sized_output).
  assert (exists body, put_body p (buffers p) [] = Ok body
    /\ blen body <= 200
    /\ run_sub (read_body reg) body (Malformed "trailing bytes after OutputSet")
       = Err (Malformed "output buffer has count 0")) as (body & Hb & Hl & Hr).
  { eexists. split; [vm_compute; reflexivity|]. split; [vm_compute; discriminate|].
    vm_compute. reflexivity. }
  exists (header blake3 body ++ body). split.
  - by apply (to_wire_into_body blake3 p body []).
  - rewrite (from_wire_header blake3 reg body); [done|]. unfold header. rewrite !blen_app.
    assert (blen (blake3 body) = 32) as -> by (unfold blen; by rewrite digest_length).
    rewrite !blen_le_bytes. change (blen MAGIC) with 4. unfold MAX_PROGRAM_BYTES. lia.
Qed.
Lemma zero_count_output_not_decodable_witness :
  exists blob, to_wire toy_digest runtime_sized_output = Ok blob
    /\ from_wire toy_digest ExprWire.echo_registry blob = Err (Malformed "output buffer has count 0").
Proof. apply (zero_count_output_not_decodable toy_digest ExprWire.echo_registry). Defined.
End ProgramWire.
