(* ===== verification/RefValue.v ===== *)
(** Run-time values of the reference interpreter and its primitive operators
    (vyre-reference: value.rs, execution/typed_ops, execution/expr_cast.rs). *)

From S2P Require Import Prelude Float Spec.

(** [Error::Interp] with a short form of its message; [Panic] is an arithmetic
    overflow or a slice out of range, [OutOfFuel] belongs to the model only. *)
Inductive err :=
| Interp (what : string)
| Panic
| OutOfFuel.
Abbreviation interp A := (result err A).

(** The largest allocation: a [vec!] of more than [isize::MAX] bytes panics. *)
Definition ISIZE_MAX : Z := 9223372036854775807.
(** An [Arc<[u8]>] has a header of 16 bytes, and its size is rounded up to 8. *)
Definition ARC_BYTES_MAX : Z := ISIZE_MAX - 23.

Module Value.
(** [Float] carries the bits of an [f64]. *)
Inductive Value :=
| U32 (x : Z) | I32 (x : Z) | U64 (x : Z)
| Bool (b : bool)
| Bytes (l : bytes)
| Float (bits : Z)
| Array (l : list Value).

Fixpoint to_bytes (v : Value) : bytes :=
  match v with
  | U32 x => le_bytes 4 x
  | I32 x => le_bytes 4 (wrapu 32 x)
  | U64 x => le_bytes 8 x
  | Bool b => le_bytes 4 (if b then 1 else 0)
  | Bytes l => l
  | Float bits => le_bytes 8 bits
  | Array l => flat_map to_bytes l
  end.

(** [Vec::resize(n, 0)]. *)
Definition resize (n : nat) (l : bytes) : bytes := take n l ++ replicate (n - length l) 0.

Definition to_bytes_width (v : Value) (declared_width : nat) : bytes :=
  let l := to_bytes v in
  if (declared_width =? 0)%nat then l else take declared_width (resize declared_width l).

(** Writes a prefix of [src] at [cursor], as far as the target goes. *)
Definition copy_bytes_prefix (src : bytes) (st : bytes * nat) : bytes * nat :=
  let '(target, cursor) := st in
  if (length target <=? cursor)%nat then st
  else
    let len := Nat.min (length target - cursor) (length src) in
    (take cursor target ++ take len src ++ drop (cursor + len) target, (cursor + len)%nat).

Fixpoint copy_raw_bytes_prefix (v : Value) (st : bytes * nat) : bytes * nat :=
  match v with
  | Array l =>
      (fix go (l : list Value) (st : bytes * nat) : bytes * nat :=
         match l with
         | [] => st
         | v :: l => if (length st.1 <=? st.2)%nat then st else go l (copy_raw_bytes_prefix v st)
         end) l st
  | U32 x => copy_bytes_prefix (le_bytes 4 x) st
  | I32 x => copy_bytes_prefix (le_bytes 4 (wrapu 32 x)) st
  | U64 x => copy_bytes_prefix (le_bytes 8 x) st
  | Bool b => copy_bytes_prefix (le_bytes 4 (if b then 1 else 0)) st
  | Bytes l => copy_bytes_prefix l st
  | Float bits => copy_bytes_prefix (le_bytes 8 bits) st
  end.

(** Fills the slot of width [n] with zeros and copies over it. *)
Definition write_bytes_width_into (v : Value) (n : nat) : bytes :=
  (copy_raw_bytes_prefix v (replicate n 0, 0%nat)).1.

Definition extend_fixed_width (src : bytes) (declared_width : nat) (out : bytes) : bytes :=
  if (declared_width =? 0)%nat then out ++ src
  else
    let copied := Nat.min (length src) declared_width in
    out ++ take copied src ++ replicate (declared_width - copied) 0.

Fixpoint extend_bytes_width (v : Value) (declared_width : nat) (out : bytes) : interp bytes :=
  let start_len := length out in
  _ ← reject_if (negb (declared_width =? 0)%nat
                 && (USIZE_MAX <? Z.of_nat (start_len + declared_width)))
        (Interp "encoded value byte size overflows usize");
  match v with
  | Array l =>
      out' ← (fix go (l : list Value) (out : bytes) : interp bytes :=
                match l with
                | [] => Ok out
                | v :: l => o ← extend_bytes_width v 0 out; go l o
                end) l out;
      if (declared_width =? 0)%nat then Ok out'
      else
        let cut := take (start_len + Nat.min declared_width (length out' - start_len)) out' in
        Ok (resize (start_len + declared_width) cut)
  | _ => Ok (extend_fixed_width (to_bytes v) declared_width out)
  end.

Definition read_prefix (n : nat) (l : bytes) : Z := of_le_bytes (resize n l).

(** A finite float in range, truncated. *)
Definition f64_to_u32 (bits : Z) : option Z :=
  match f64_val bits with
  | Fin s m e as x =>
      if fp_ge x (Fin false 0 0) && fp_le x (Fin false U32_MAX 0)
      then Some (fp_to_int 0 U32_MAX x) else None
  | _ => None
  end.
Definition f64_to_u64 (bits : Z) : option Z :=
  match f64_val bits with
  | Fin s m e as x =>
      if fp_ge x (Fin false 0 0) && fp_lt x (Fin false (2 ^ 64) 0)
      then Some (fp_to_int 0 U64_MAX x) else None
  | _ => None
  end.

Definition try_as_u32 (v : Value) : option Z :=
  match v with
  | U32 x => Some x
  | I32 x => if 0 <=? x then Some x else None
  | U64 x => if x <=? U32_MAX then Some x else None
  | Bool b => Some (if b then 1 else 0)
  | Bytes l => if (length l <=? 4)%nat then Some (read_prefix 4 l) else None
  | Float bits => f64_to_u32 bits
  | Array _ => None
  end.
Definition try_as_u64 (v : Value) : option Z :=
  match v with
  | U32 x => Some x
  | I32 x => if 0 <=? x then Some x else None
  | U64 x => Some x
  | Bool b => Some (if b then 1 else 0)
  | Bytes l => if (length l <=? 8)%nat then Some (read_prefix 8 l) else None
  | Float bits => f64_to_u64 bits
  | Array _ => None
  end.
(** The bits of the [f32]. *)
Definition try_as_f32 (v : Value) : option Z :=
  match v with
  | Float bits => Some (f64_as_f32 bits)
  | U32 x => Some x
  | _ => None
  end.
Definition truthy (v : Value) : bool :=
  match v with
  | Array l => match l with [] => false | _ => true end
  | Float bits => negb (fp_eq (f64_val bits) (Fin false 0 0))
  | _ => match try_as_u32 v with Some x => negb (x =? 0) | None => true end
  end.

Fixpoint fixed_scalar_storage_width (t : DataType) : option Z :=
  match t with
  | DataType.U8 | DataType.I8 | DataType.F8E4M3 | DataType.F8E5M2
  | DataType.I4 | DataType.FP4 | DataType.NF4 => Some 1
  | DataType.U16 | DataType.I16 | DataType.F16 | DataType.BF16 => Some 2
  | DataType.Handle _ | DataType.DeviceMesh _ => Some 4
  | DataType.I64 => Some 8
  | DataType.Array element_size => Some element_size
  | DataType.Vec element count =>
      w ← fixed_scalar_storage_width element; usize_checked_mul w count
  | DataType.TensorShaped element shape =>
      w ← fixed_scalar_storage_width element;
      fold_left (fun acc dim => w ← acc; usize_checked_mul w dim) shape (Some w)
  | DataType.Quantized storage _ _ => fixed_scalar_storage_width storage
  | _ => None
  end.

Definition zeros (n : Z) : bytes := replicate (Z.to_nat n) 0.

(** [Arc::from(vec![0; width])] panics (capacity overflow) when the array does not fit. *)
Definition try_zero_for (t : DataType) : interp (option Value) :=
  match t with
  | DataType.U32 => Ok (Some (U32 0))
  | DataType.I32 => Ok (Some (I32 0))
  | DataType.U64 => Ok (Some (U64 0))
  | DataType.Bool => Ok (Some (Bool false))
  | DataType.Bytes => Ok (Some (Bytes []))
  | DataType.F32 | DataType.F64 => Ok (Some (Float 0))
  | DataType.Vec2U32 => Ok (Some (Bytes (zeros 8)))
  | DataType.Vec4U32 => Ok (Some (Bytes (zeros 16)))
  | _ =>
      match fixed_scalar_storage_width t with
      | Some width => if ARC_BYTES_MAX <? width then Err Panic else Ok (Some (Bytes (zeros width)))
      | None => Ok None
      end
  end.

(** [None] is the error of a slice that is too short. *)
Definition from_element_bytes (t : DataType) (l : bytes) : option Value :=
  let need (n : Z) (v : bytes -> Value) : option Value :=
    if Z.of_nat (length l) <? n then None else Some (v (take (Z.to_nat n) l)) in
  match t with
  | DataType.U32 => need 4 (fun l => U32 (of_le_bytes l))
  | DataType.I32 => need 4 (fun l => I32 (wraps 32 (of_le_bytes l)))
  | DataType.U64 => need 8 (fun l => U64 (of_le_bytes l))
  | DataType.Bool => need 4 (fun l => Bool (negb (of_le_bytes l =? 0)))
  | DataType.Vec2U32 => need 8 Bytes
  | DataType.Vec4U32 => need 16 Bytes
  | DataType.F32 => need 4 (fun l => Float (f64_from_f32 (canonical_f32 (of_le_bytes l))))
  | DataType.F64 => need 8 (fun l => Float (of_le_bytes l))
  | DataType.Bytes => Some (Bytes l)
  | _ => match fixed_scalar_storage_width t with
         | Some width => need width Bytes
         | None => Some (Bytes l)
         end
  end.
End Value.
Abbreviation Value := Value.Value.

(** ** Integer operators

    The macros [int_bin_helpers] and [int_un_helpers] of the source are
    instantiated at [u32], [i32] and [u64]; an instance is the record of what
    the macro takes. *)

Record IntTy := mkIntTy {
  it_bits : Z;                           (* width *)
  it_wrap : Z -> Z;                      (* reduction of the wrapping operations *)
  it_value : Z -> Value;
  it_shift : Z -> Z -> bool -> Z;
  it_div : Z -> Z -> interp Z;
  it_rem : Z -> Z -> interp Z;
}.

Definition div_u32 (left right : Z) : interp Z := Ok (if right =? 0 then U32_MAX else left / right).
Definition rem_u32 (left right : Z) : interp Z := Ok (if right =? 0 then 0 else left mod right).
Definition shift_u32 (left right : Z) (left_shift : bool) : Z :=
  let shift := Z.land right 31 in
  if left_shift then wrapu 32 (Z.shiftl left shift) else Z.shiftr left shift.

Definition div_i32 (left right : Z) : interp Z :=
  _ ← reject_if (right =? 0) (Interp "division");
  _ ← reject_if ((left =? I32_MIN) && (right =? -1)) (Interp "division overflow");
  Ok (Z.quot left right).
Definition rem_i32 (left right : Z) : interp Z :=
  _ ← reject_if (right =? 0) (Interp "remainder");
  _ ← reject_if ((left =? I32_MIN) && (right =? -1)) (Interp "remainder overflow");
  Ok (Z.rem left right).
Definition shift_i32 (left right : Z) (left_shift : bool) : Z :=
  let shift := Z.land (wrapu 32 right) 31 in
  if left_shift then wraps 32 (Z.shiftl left shift) else Z.shiftr left shift.

Definition div_u64 (left right : Z) : interp Z := Ok (if right =? 0 then U64_MAX else left / right).
Definition rem_u64 (left right : Z) : interp Z := Ok (if right =? 0 then 0 else left mod right).
Definition shift_u64 (left right : Z) (left_shift : bool) : Z :=
  let shift := Z.land right 63 in
  if left_shift then wrapu 64 (Z.shiftl left shift) else Z.shiftr left shift.

Definition u32_ty : IntTy := mkIntTy 32 (wrapu 32) Value.U32 shift_u32 div_u32 rem_u32.
Definition i32_ty : IntTy := mkIntTy 32 (wraps 32) Value.I32 shift_i32 div_i32 rem_i32.
Definition u64_ty : IntTy := mkIntTy 64 (wrapu 64) Value.U64 shift_u64 div_u64 rem_u64.

Definition unsupported {A} : interp A := Err (Interp "unsupported operator").

Definition binop_int (t : IntTy) (op : BinOp) (left right : Z) : interp Value :=
  let num x := Ok (it_value t x) in
  let bool b := Ok (Value.Bool b) in
  match op with
  | BinOp.Add => num (it_wrap t (left + right))
  | BinOp.Sub => num (it_wrap t (left - right))
  | BinOp.Mul => num (it_wrap t (left * right))
  | BinOp.Div => it_value t <$> it_div t left right
  | BinOp.Mod => it_value t <$> it_rem t left right
  | BinOp.BitAnd => num (Z.land left right)
  | BinOp.BitOr => num (Z.lor left right)
  | BinOp.BitXor => num (Z.lxor left right)
  | BinOp.Shl => num (it_shift t left right true)
  | BinOp.Shr => num (it_shift t left right false)
  | BinOp.Eq => bool (left =? right)
  | BinOp.Ne => bool (negb (left =? right))
  | BinOp.Lt => bool (left <? right)
  | BinOp.Gt => bool (right <? left)
  | BinOp.Le => bool (left <=? right)
  | BinOp.Ge => bool (right <=? left)
  | BinOp.And => bool (negb (left =? 0) && negb (right =? 0))
  | BinOp.Or => bool (negb (left =? 0) || negb (right =? 0))
  | _ => unsupported
  end.

Definition clamp (lo hi x : Z) : Z := Z.max lo (Z.min hi x).
Definition rotate_left_u32 (x k : Z) : Z :=
  wrapu 32 (Z.lor (Z.shiftl x k) (Z.shiftr x (32 - k))).
Definition rotate_right_u32 (x k : Z) : Z :=
  wrapu 32 (Z.lor (Z.shiftr x k) (Z.shiftl x (32 - k))).

Definition u32_shared_binop (op : BinOp) (left right : Z) : option Value :=
  let num x := Some (Value.U32 x) in
  match op with
  | BinOp.Min => num (Z.min left right)
  | BinOp.Max => num (Z.max left right)
  | BinOp.AbsDiff => num (Z.abs (left - right))
  | BinOp.RotateLeft => num (rotate_left_u32 left (Z.land right 31))
  | BinOp.RotateRight => num (rotate_right_u32 left (Z.land right 31))
  | BinOp.WrappingAdd => num (wrapu 32 (left + right))
  | BinOp.WrappingSub => num (wrapu 32 (left - right))
  | BinOp.SaturatingAdd => num (clamp 0 U32_MAX (left + right))
  | BinOp.SaturatingSub => num (clamp 0 U32_MAX (left - right))
  | BinOp.SaturatingMul => num (clamp 0 U32_MAX (left * right))
  | BinOp.MulHigh => num (Z.shiftr (left * right) 32)
  | _ => None
  end.
Definition i32_shared_binop (op : BinOp) (left right : Z) : option Value :=
  let num x := Some (Value.I32 x) in
  match op with
  | BinOp.Min => num (Z.min left right)
  | BinOp.Max => num (Z.max left right)
  | BinOp.AbsDiff => Some (Value.U32 (Z.abs (left - right)))
  | BinOp.WrappingAdd => num (wraps 32 (left + right))
  | BinOp.WrappingSub => num (wraps 32 (left - right))
  | BinOp.SaturatingAdd => num (clamp I32_MIN I32_MAX (left + right))
  | BinOp.SaturatingSub => num (clamp I32_MIN I32_MAX (left - right))
  | BinOp.SaturatingMul => num (clamp I32_MIN I32_MAX (left * right))
  | _ => None
  end.
Definition u64_shared_binop (op : BinOp) (left right : Z) : option Value :=
  let num x := Some (Value.U64 x) in
  match op with
  | BinOp.Min => num (Z.min left right)
  | BinOp.Max => num (Z.max left right)
  | BinOp.AbsDiff => num (Z.abs (left - right))
  | BinOp.WrappingAdd => num (wrapu 64 (left + right))
  | BinOp.WrappingSub => num (wrapu 64 (left - right))
  | BinOp.SaturatingAdd => num (clamp 0 U64_MAX (left + right))
  | BinOp.SaturatingSub => num (clamp 0 U64_MAX (left - right))
  | BinOp.SaturatingMul => num (clamp 0 U64_MAX (left * right))
  | BinOp.MulHigh => num (Z.shiftr (left * right) 64)
  | _ => None
  end.

(** Bit counting on the two's complement pattern of the width. *)
Definition bits_of (w x : Z) : list bool := (fun i => Z.testbit x (Z.of_nat i)) <$> seq 0 (Z.to_nat w).
Fixpoint leading (l : list bool) : Z :=
  match l with false :: l => 1 + leading l | _ => 0 end.
Fixpoint of_bits (l : list bool) : Z :=
  match l with [] => 0 | b :: l => (if b then 1 else 0) + 2 * of_bits l end.
Definition count_ones (w x : Z) : Z := Z.of_nat (count_occ Bool.bool_dec (bits_of w x) true).
Definition leading_zeros (w x : Z) : Z := leading (rev (bits_of w x)).
Definition trailing_zeros (w x : Z) : Z := leading (bits_of w x).
Definition reverse_bits (w x : Z) : Z := of_bits (rev (bits_of w x)).

Definition unop_int (t : IntTy) (op : UnOp) (value : Z) : interp Value :=
  let num x := Ok (it_value t x) in
  match op with
  | UnOp.Negate => num (it_wrap t (0 - value))
  | UnOp.BitNot => num (it_wrap t (Z.lnot value))
  | UnOp.LogicalNot => Ok (Value.Bool (value =? 0))
  | UnOp.Popcount => num (count_ones (it_bits t) value)
  | UnOp.Clz => num (leading_zeros (it_bits t) value)
  | UnOp.Ctz => num (trailing_zeros (it_bits t) value)
  | UnOp.ReverseBits => num (it_wrap t (reverse_bits (it_bits t) value))
  | _ => unsupported
  end.

Definition binop_bool (op : BinOp) (left right : bool) : interp Value :=
  match op with
  | BinOp.Eq => Ok (Value.Bool (Bool.eqb left right))
  | BinOp.Ne => Ok (Value.Bool (negb (Bool.eqb left right)))
  | BinOp.And => Ok (Value.Bool (left && right))
  | BinOp.Or => Ok (Value.Bool (left || right))
  | _ => Err (Interp "not defined for bool operands")
  end.
Definition unop_bool (op : UnOp) (value : bool) : interp Value :=
  match op with
  | UnOp.LogicalNot => Ok (Value.Bool (negb value))
  | _ => Err (Interp "not defined for bool operands")
  end.

(** ** Float operators *)

(** What the platform decides: the functions of the [libm] crate on [f32] bits, and
    which operand [f32::min] and [f32::max] return when they compare equal (the
    two zeros). *)
Record FloatEnv := mkFloatEnv {
  sinf : Z -> Z; cosf : Z -> Z; sqrtf : Z -> Z; expf : Z -> Z; exp2f : Z -> Z;
  logf : Z -> Z; log2f : Z -> Z; tanf : Z -> Z; acosf : Z -> Z; asinf : Z -> Z;
  atanf : Z -> Z; tanhf : Z -> Z; sinhf : Z -> Z; coshf : Z -> Z;
  min_tie : Z -> Z -> bool; max_tie : Z -> Z -> bool;
}.

(** Every result is an [f32] bit pattern: the documented type of the functions. *)
Class FloatEnvOk (fe : FloatEnv) : Prop := float_env_range : forall x, inu 32 x ->
  Forall (fun g => inu 32 (g x)) [sinf fe; cosf fe; sqrtf fe; expf fe; exp2f fe; logf fe; log2f fe;
    tanf fe; acosf fe; asinf fe; atanf fe; tanhf fe; sinhf fe; coshf fe].

Section FloatOps.
Context (fe : FloatEnv).

Definition wrap_f32 (bits : Z) : Value := Value.Float (f64_from_f32 (canonical_f32 bits)).
Definition f32_lift1 (g : fp -> fp) (x : Z) : Z := f32_of (g (f32_val x)).
Definition f32_lift2 (g : fp -> fp -> fp) (x y : Z) : Z := f32_of (g (f32_val x) (f32_val y)).
Definition f32_cmp (g : fp -> fp -> bool) (x y : Z) : bool := g (f32_val x) (f32_val y).

Definition f32_select (below tie : Z -> Z -> bool) (left right : Z) : Z :=
  if f32_is_nan left then right
  else if f32_is_nan right then left
  else if below left right then left
  else if below right left then right
  else if tie left right then left else right.

Definition binop_f32 (op : BinOp) (left right : Z) : interp Value :=
  let left := canonical_f32 left in
  let right := canonical_f32 right in
  let num x := Ok (wrap_f32 x) in
  let bool b := Ok (Value.Bool b) in
  match op with
  | BinOp.Add => num (f32_lift2 fp_add left right)
  | BinOp.Sub => num (f32_lift2 (fun x y => fp_add x (fp_neg y)) left right)
  | BinOp.Mul => num (f32_lift2 fp_mul left right)
  | BinOp.Div => num (f32_lift2 (fp_div binary32) left right)
  | BinOp.Min => num (f32_select (f32_cmp fp_lt) (min_tie fe) left right)
  | BinOp.Max => num (f32_select (f32_cmp fp_gt) (max_tie fe) left right)
  | BinOp.Eq => bool (f32_cmp fp_eq left right)
  | BinOp.Ne => bool (negb (f32_cmp fp_eq left right))
  | BinOp.Lt => bool (f32_cmp fp_lt left right)
  | BinOp.Gt => bool (f32_cmp fp_gt left right)
  | BinOp.Le => bool (f32_cmp fp_le left right)
  | BinOp.Ge => bool (f32_cmp fp_ge left right)
  | _ => Err (Interp "not defined for f32 operands")
  end.

Definition f32_sign (value : Z) : Z :=
  if f32_is_nan value then 0x7FC00000
  else if f32_cmp fp_gt value 0 then F32_ONE
  else if f32_cmp fp_lt value 0 then Z.lor 0x80000000 F32_ONE
  else 0.
Definition f32_recip (x : Z) : Z := f32_lift2 (fp_div binary32) F32_ONE x.
Definition canonical_reciprocal (x : Z) : Z := canonical_f32 (f32_recip (canonical_f32 x)).

Definition unop_f32 (op : UnOp) (value : Z) : interp Value :=
  let value := canonical_f32 value in
  let num x := Ok (wrap_f32 x) in
  let bool b := Ok (Value.Bool b) in
  match op with
  | UnOp.Negate => num (Z.lxor value 0x80000000)
  | UnOp.Abs => num (f32_magnitude value)
  | UnOp.Sqrt => num (sqrtf fe value)
  | UnOp.InverseSqrt => num (f32_recip (sqrtf fe value))
  | UnOp.Reciprocal => num (canonical_reciprocal value)
  | UnOp.Sin => num (sinf fe value)
  | UnOp.Cos => num (cosf fe value)
  | UnOp.Floor => num (f32_lift1 fp_floor value)
  | UnOp.Ceil => num (f32_lift1 fp_ceil value)
  | UnOp.Round => num (f32_lift1 fp_round value)
  | UnOp.Trunc => num (f32_lift1 fp_trunc value)
  | UnOp.Sign => num (f32_sign value)
  | UnOp.IsNan => bool (f32_is_nan value)
  | UnOp.IsInf => bool (f32_magnitude value =? 0x7F800000)
  | UnOp.IsFinite => bool (f32_magnitude value <? 0x7F800000)
  | UnOp.Exp => num (expf fe value)
  | UnOp.Log => num (logf fe value)
  | UnOp.Log2 => num (log2f fe value)
  | UnOp.Exp2 => num (exp2f fe value)
  | UnOp.Tan => num (tanf fe value)
  | UnOp.Acos => num (acosf fe value)
  | UnOp.Asin => num (asinf fe value)
  | UnOp.Atan => num (atanf fe value)
  | UnOp.Tanh => num (tanhf fe value)
  | UnOp.Sinh => num (sinhf fe value)
  | UnOp.Cosh => num (coshf fe value)
  | _ => Err (Interp "not defined for f32 operands")
  end.

(** ** Dispatch *)

Definition eval_binop (op : BinOp) (left right : Value) : interp Value :=
  let shared :=
    match left, right with
    | Value.U32 l, Value.U32 r => u32_shared_binop op l r
    | Value.I32 l, Value.I32 r => i32_shared_binop op l r
    | Value.U64 l, Value.U64 r => u64_shared_binop op l r
    | _, _ => None
    end in
  match shared with
  | Some v => Ok v
  | None =>
      match left, right with
      | Value.U32 l, Value.U32 r => binop_int u32_ty op l r
      | Value.I32 l, Value.I32 r => binop_int i32_ty op l r
      | Value.U64 l, Value.U64 r => binop_int u64_ty op l r
      | Value.Bool l, Value.Bool r => binop_bool op l r
      | Value.Float l, Value.Float r => binop_f32 op (f64_as_f32 l) (f64_as_f32 r)
      | _, _ => Err (Interp "mismatched operands")
      end
  end.

Definition eval_unop (op : UnOp) (operand : Value) : interp Value :=
  match operand with
  | Value.U32 value => unop_int u32_ty op value
  | Value.I32 value => unop_int i32_ty op value
  | Value.U64 value => unop_int u64_ty op value
  | Value.Bool value => unop_bool op value
  | Value.Float value => unop_f32 op (f64_as_f32 value)
  | _ => Err (Interp "non-primitive operand")
  end.

(** ** Casts *)

Definition invalid_cast {A} : interp A := Err (Interp "invalid cast").
Definition float_of_int (x : Z) : Value := Value.Float (f64_from_f32 (int_as_f32 x)).

Definition cast_value (target : DataType) (value : Value) : interp Value :=
  let as_u32 (k : Z -> Value) :=
    match Value.try_as_u32 value with Some x => Ok (k x) | None => invalid_cast end in
  match target with
  | DataType.U32 =>
      match value with
      | Value.I32 v => Ok (Value.U32 (wrapu 32 v))
      | Value.Float v => Ok (Value.U32 (fp_to_int 0 U32_MAX (f64_val v)))
      | _ => as_u32 Value.U32
      end
  | DataType.I32 =>
      match value with
      | Value.I32 v => Ok (Value.I32 v)
      | Value.Float v => Ok (Value.I32 (fp_to_int I32_MIN I32_MAX (f64_val v)))
      | _ => as_u32 (fun x => Value.I32 (wraps 32 x))
      end
  | DataType.U64 =>
      match Value.try_as_u64 value with Some x => Ok (Value.U64 x) | None => invalid_cast end
  | DataType.F32 =>
      match value with
      | Value.U32 v | Value.I32 v | Value.U64 v => Ok (float_of_int v)
      | Value.Float v => Ok (Value.Float v)
      | Value.Bool b => Ok (Value.Float (if b then F64_ONE else 0))
      | _ => as_u32 float_of_int
      end
  | DataType.Bool => Ok (Value.Bool (Value.truthy value))
  | DataType.Bytes => Ok (Value.Bytes (Value.to_bytes value))
  | DataType.Vec2U32 => Ok (Value.Bytes (Value.write_bytes_width_into value 8))
  | DataType.Vec4U32 => Ok (Value.Bytes (Value.write_bytes_width_into value 16))
  | _ => Ok (Value.Bytes (Value.to_bytes value))
  end.
End FloatOps.

(** ** Induction over nested values *)

Section ValueInd.
Variable P : Value -> Prop.
Hypothesis HU32 : forall x, P (Value.U32 x).
Hypothesis HI32 : forall x, P (Value.I32 x).
Hypothesis HU64 : forall x, P (Value.U64 x).
Hypothesis HBool : forall b, P (Value.Bool b).
Hypothesis HBytes : forall l, P (Value.Bytes l).
Hypothesis HFloat : forall x, P (Value.Float x).
Hypothesis HArray : forall l, Forall P l -> P (Value.Array l).

Fixpoint Value_ind' (v : Value) : P v :=
  match v with
  | Value.U32 x => HU32 x
  | Value.I32 x => HI32 x
  | Value.U64 x => HU64 x
  | Value.Bool b => HBool b
  | Value.Bytes l => HBytes l
  | Value.Float x => HFloat x
  | Value.Array l =>
      HArray l ((fix go l : Forall P l :=
        match l with
        | [] => @List.Forall_nil _ P
        | x :: l => @List.Forall_cons _ P x l (Value_ind' x) (go l)
        end) l)
  end.
End ValueInd.

(** ** The byte encoders agree *)

Import Value.

Lemma length_resize n l : length (resize n l) = n.
Proof. unfold resize. rewrite length_app, length_take, length_replicate. lia. Qed.

Lemma to_bytes_width_resize v n : n <> 0%nat -> to_bytes_width v n = resize n (to_bytes v).
Proof.
  intros Hn. unfold to_bytes_width. rewrite (proj2 (Nat.eqb_neq _ _) Hn).
  apply take_ge. by rewrite length_resize.
Qed.

(** [copied st l st']: the cursor moved over as much of [l] as fits, and the slot
    now holds it, everything else unchanged. *)
Definition copied (st : bytes * nat) (l : bytes) : bytes * nat :=
  let '(target, cursor) := st in
  let len := Nat.min (length target - cursor) (length l) in
  (take cursor target ++ take len l ++ drop (cursor + len) target, (cursor + len)%nat).

Lemma copied_length st l : (st.2 <= length st.1)%nat ->
  length (copied st l).1 = length st.1 /\ ((copied st l).2 <= length st.1)%nat.
Proof.
  destruct st as [target cursor]; cbn. intros Hc.
  rewrite !length_app, !length_take, length_drop. lia.
Qed.

Lemma copied_full st l : (length st.1 <= st.2)%nat -> (st.2 <= length st.1)%nat -> copied st l = st.
Proof.
  destruct st as [target cursor]; cbn. intros H1 H2.
  replace (length target - cursor)%nat with 0%nat by lia. cbn.
  rewrite Nat.add_0_r, take_0, app_nil_l. by rewrite take_drop.
Qed.

Lemma copied_nil st : copied st [] = st.
Proof.
  destruct st as [target cursor]. unfold copied. cbn [length].
  by rewrite Nat.min_0_r, take_0, app_nil_l, Nat.add_0_r, take_drop.
Qed.

Lemma copied_app st l1 l2 : (st.2 <= length st.1)%nat ->
  copied (copied st l1) l2 = copied st (l1 ++ l2).
Proof.
  destruct st as [target cursor]. intros Hc. cbn in Hc. unfold copied.
  set (n1 := Nat.min (length target - cursor) (length l1)).
  assert (length (take cursor target ++ take n1 l1) = cursor + n1)%nat as Hlen.
  { rewrite length_app, !length_take. lia. }
  rewrite !length_app, !length_take, length_drop.
  replace (cursor `min` length target + (n1 `min` length l1 + (length target - (cursor + n1)))
           - (cursor + n1))%nat with (length target - (cursor + n1))%nat by lia.
  set (n2 := Nat.min (length target - (cursor + n1)) (length l2)).
  replace (Nat.min (length target - cursor) (length l1 + length l2)) with (n1 + n2)%nat by lia.
  f_equal; [|lia]. rewrite (app_assoc (take cursor target)).
  rewrite take_app_le by lia. rewrite (take_ge (_ ++ _)) by lia.
  rewrite drop_app_ge by lia. rewrite Hlen.
  replace (cursor + n1 + n2 - (cursor + n1))%nat with n2 by lia.
  rewrite drop_drop, Nat.add_assoc. rewrite <- app_assoc. f_equal.
  rewrite app_assoc. f_equal.
  destruct (decide (length l1 <= length target - cursor)%nat).
  - rewrite (take_ge l1) by lia. rewrite take_app_ge by lia. by replace (n1 + n2 - length l1)%nat with n2 by lia.
  - assert (n2 = 0)%nat as -> by lia. rewrite Nat.add_0_r, take_0, app_nil_r. rewrite take_app_le by lia. done.
Qed.

Lemma copy_bytes_prefix_copied l st : (st.2 <= length st.1)%nat -> copy_bytes_prefix l st = copied st l.
Proof.
  intros Hc. unfold copy_bytes_prefix. destruct st as [target cursor] eqn:Hst.
  destruct (Nat.leb_spec (length target) cursor); [|done].
  symmetry. by apply copied_full.
Qed.

Lemma copy_raw_copied v : forall st, (st.2 <= length st.1)%nat ->
  copy_raw_bytes_prefix v st = copied st (to_bytes v).
Proof.
  induction v as [| | | | | |l IH] using Value_ind'; intros st Hst;
    cbn [copy_raw_bytes_prefix to_bytes]; try by apply copy_bytes_prefix_copied.
  revert st Hst. induction IH as [|v l Hv _ IHl]; intros st Hst; cbn [flat_map].
  - by rewrite copied_nil.
  - destruct (Nat.leb_spec (length st.1) st.2); [by rewrite copied_full|].
    rewrite Hv by done. destruct (copied_length st (to_bytes v) Hst) as [Hl Hc].
    rewrite IHl by lia. by apply copied_app.
Qed.

Lemma write_bytes_width_into_resize v n : write_bytes_width_into v n = resize n (to_bytes v).
Proof.
  unfold write_bytes_width_into. rewrite copy_raw_copied by (cbn; lia). unfold copied, resize.
  rewrite length_replicate, take_0, app_nil_l, Nat.sub_0_r, drop_replicate, Nat.add_0_l.
  cbn [fst]. destruct (decide (n <= length (to_bytes v))%nat).
  - rewrite Nat.min_l by lia. do 2 f_equal; lia.
  - rewrite Nat.min_r by lia. rewrite (take_ge _ n), take_ge by lia. done.
Qed.

Lemma extend_fixed_width_resize l n out :
  extend_fixed_width l n out = out ++ (if (n =? 0)%nat then l else resize n l).
Proof.
  unfold extend_fixed_width, resize. destruct (n =? 0)%nat; [done|]. f_equal.
  destruct (decide (n <= length l)%nat).
  - rewrite Nat.min_r by lia. do 2 f_equal; lia.
  - rewrite Nat.min_l by lia. rewrite (take_ge _ n), take_ge by lia. done.
Qed.

Lemma resize_app_cut n out l :
  resize (length out + n) (take (length out + Nat.min n (length (out ++ l) - length out)) (out ++ l))
  = out ++ resize n l.
Proof.
  rewrite length_app. replace (length out + length l - length out)%nat with (length l) by lia.
  rewrite take_app_add. unfold resize. rewrite take_app_add, take_take, <- app_assoc, length_app, length_take.
  f_equal. destruct (decide (n <= length l)%nat); [f_equal; f_equal; lia|].
  rewrite !(take_ge l) by lia. do 2 f_equal. lia.
Qed.

(** Appending at a declared width is appending [to_bytes_width]. *)
Lemma extend_bytes_width_spec v : forall n out,
  extend_bytes_width v n out =
    if negb (n =? 0)%nat && (USIZE_MAX <? Z.of_nat (length out + n))
    then Err (Interp "encoded value byte size overflows usize")
    else Ok (out ++ to_bytes_width v n).
Proof.
  assert (forall v n out, extend_fixed_width (to_bytes v) n out = out ++ to_bytes_width v n) as Hfix.
  { intros w n out. rewrite extend_fixed_width_resize. destruct (Nat.eqb_spec n 0) as [->|Hn]; [done|].
    by rewrite to_bytes_width_resize. }
  induction v as [| | | | | |l IH] using Value_ind'; intros n out; cbn [extend_bytes_width];
    (destruct (_ && _) eqn:Hof; [done|]); cbn [reject_if mbind result_bind];
    try by rewrite Hfix.
  assert (forall out, (fix go (l : list Value) (out : bytes) : interp bytes :=
      match l with
      | [] => Ok out
      | v :: l => o ← extend_bytes_width v 0 out; go l o
      end) l out = Ok (out ++ flat_map to_bytes l)) as Hgo.
  { clear -IH. induction IH as [|v l Hv _ IHl]; intros out; cbn [flat_map].
    - by rewrite app_nil_r.
    - rewrite Hv. cbn [Nat.eqb negb andb mbind result_bind]. rewrite IHl.
      by rewrite <- app_assoc. }
  rewrite Hgo. cbn [mbind result_bind]. destruct (Nat.eqb_spec n 0) as [->|Hn]; [done|].
  rewrite resize_app_cut. by rewrite to_bytes_width_resize.
Qed.

(** ** Well-formed values: every field is inside its width *)

Fixpoint value_wf (v : Value) : Prop :=
  match v with
  | U32 x => inu 32 x
  | I32 x => ins 32 x
  | U64 x => inu 64 x
  | Bool _ => True
  | Bytes l => Forall (inu 8) l
  | Float bits => inu 64 bits
  | Array l => Forall_list value_wf l
  end.

Lemma inu_shiftr w x : 0 <= w -> inu w x <-> Z.shiftr x w = 0.
Proof.
  intros Hw. unfold inu. rewrite Z.shiftr_div_pow2, Z.div_small_iff by lia. lia.
Qed.
Lemma ins_shiftr w x : 0 < w -> ins w x <-> Z.shiftr x (w - 1) = 0 \/ Z.shiftr x (w - 1) = -1.
Proof.
  intros Hw. unfold ins. rewrite Z.shiftr_div_pow2 by lia.
  set (B := 2 ^ (w - 1)). assert (0 < B) by (unfold B; lia).
  pose proof (Z.div_mod x B ltac:(lia)). pose proof (Z.mod_pos_bound x B ltac:(lia)).
  split; [|nia]. intros. assert (x / B = 0 \/ x / B = -1); [|done]. nia.
Qed.

Section Bitwise.
Variable op : Z -> Z -> Z.
Hypothesis op_shiftr : forall a b n, Z.shiftr (op a b) n = op (Z.shiftr a n) (Z.shiftr b n).
Hypothesis op_sign : forall a b, (a = 0 \/ a = -1) -> (b = 0 \/ b = -1) -> op a b = 0 \/ op a b = -1.
Hypothesis op_zero : op 0 0 = 0.

Lemma bitwise_inu w a b : 0 <= w -> inu w a -> inu w b -> inu w (op a b).
Proof. intros Hw. rewrite !inu_shiftr by done. intros Ha Hb. by rewrite op_shiftr, Ha, Hb. Qed.
Lemma bitwise_ins w a b : 0 < w -> ins w a -> ins w b -> ins w (op a b).
Proof. intros Hw. rewrite !ins_shiftr by done. rewrite op_shiftr. apply op_sign. Qed.
End Bitwise.

Definition land_inu := bitwise_inu Z.land Z.shiftr_land eq_refl.
Definition lor_inu := bitwise_inu Z.lor Z.shiftr_lor eq_refl.
Definition lxor_inu := bitwise_inu Z.lxor Z.shiftr_lxor eq_refl.
Definition land_ins := bitwise_ins Z.land Z.shiftr_land ltac:(intros a b [-> | ->] [-> | ->]; cbn; auto).
Definition lor_ins := bitwise_ins Z.lor Z.shiftr_lor ltac:(intros a b [-> | ->] [-> | ->]; cbn; auto).
Definition lxor_ins := bitwise_ins Z.lxor Z.shiftr_lxor ltac:(intros a b [-> | ->] [-> | ->]; cbn; auto).

Lemma shiftr_inu w x k : 0 <= w -> 0 <= k -> inu w x -> inu w (Z.shiftr x k).
Proof.
  intros Hw Hk [Hx Hlt]. unfold inu. rewrite Z.shiftr_div_pow2 by done.
  assert (0 < 2 ^ k) by lia. split; [apply Z.div_pos; lia|].
  apply Z.le_lt_trans with x; [|done]. apply Z.div_le_upper_bound; nia.
Qed.
Lemma shiftr_ins w x k : 0 < w -> 0 <= k -> ins w x -> ins w (Z.shiftr x k).
Proof.
  intros Hw Hk. unfold ins. rewrite Z.shiftr_div_pow2 by done. intros [Hlo Hhi].
  assert (0 < 2 ^ k) by lia. assert (0 < 2 ^ (w - 1)) by lia.
  split; [apply Z.div_le_lower_bound; nia|apply Z.div_lt_upper_bound; nia].
Qed.

(** Masked shift amounts. *)
Lemma land_31 x : Z.land x 31 = x mod 32.
Proof. by apply (land_mask 5). Qed.
Lemma land_63 x : Z.land x 63 = x mod 64.
Proof. by apply (land_mask 6). Qed.
Lemma land_31_range x : 0 <= Z.land x 31 < 32.
Proof. rewrite land_31. apply Z.mod_pos_bound. lia. Qed.
Lemma land_63_range x : 0 <= Z.land x 63 < 64.
Proof. rewrite land_63. apply Z.mod_pos_bound. lia. Qed.

Lemma count_ones_bound w x : 0 <= count_ones w x <= Z.max 0 w.
Proof.
  unfold count_ones. pose proof (count_occ_bound Bool.bool_dec true (bits_of w x)) as H.
  unfold bits_of in H at 2. rewrite length_fmap, length_seq in H. lia.
Qed.
Lemma leading_bound l : 0 <= leading l <= Z.of_nat (length l).
Proof. induction l as [|[] l IH]; cbn [leading length]; lia. Qed.
Lemma length_bits_of w x : length (bits_of w x) = Z.to_nat w.
Proof. unfold bits_of. by rewrite length_fmap, length_seq. Qed.

Lemma of_bits_range l : 0 <= of_bits l < 2 ^ Z.of_nat (length l).
Proof.
  induction l as [|b l IH]; [cbn; lia|]. cbn [of_bits length]. rewrite Nat2Z.inj_succ, Z.pow_succ_r by lia.
  destruct b; lia.
Qed.
Lemma reverse_bits_range w x : 0 <= w -> inu w (reverse_bits w x).
Proof.
  intros Hw. unfold reverse_bits, inu. pose proof (of_bits_range (rev (bits_of w x))) as H.
  rewrite length_rev, length_bits_of, Z2Nat.id in H by done. exact H.
Qed.

(** An integer type's range is closed under its operators. *)
Class IntTyOk (t : IntTy) (dom : Z -> Prop) : Prop := {
  int_small : forall x, 0 <= x <= 64 -> dom x;
  int_value : forall x, dom x -> value_wf (it_value t x);
  int_wrap : forall x, dom (it_wrap t x);
  int_land : forall x y, dom x -> dom y -> dom (Z.land x y);
  int_lor : forall x y, dom x -> dom y -> dom (Z.lor x y);
  int_lxor : forall x y, dom x -> dom y -> dom (Z.lxor x y);
  int_shift : forall x y b, dom x -> dom y -> dom (it_shift t x y b);
  int_div : forall x y q, dom x -> dom y -> it_div t x y = Ok q -> dom q;
  int_rem : forall x y q, dom x -> dom y -> it_rem t x y = Ok q -> dom q;
  int_bits : 0 <= it_bits t <= 64;
}.

Lemma div_mod_range m x y :
  0 < y -> 0 <= x < m -> 0 <= x / y < m /\ 0 <= x mod y < m.
Proof.
  intros Hy Hx. pose proof (Z.mod_pos_bound x y Hy). pose proof (Z.mod_le x y).
  assert (x / y <= x) by (apply Z.div_le_upper_bound; nia).
  assert (0 <= x / y) by (apply Z.div_pos; lia). lia.
Qed.

Ltac int_ty_bitwise := intros;
  first [apply land_inu|apply lor_inu|apply lxor_inu|apply land_ins|apply lor_ins|apply lxor_ins];
  done || lia.

#[export] Instance u32_ok : IntTyOk u32_ty (inu 32).
Proof.
  split; cbn; try int_ty_bitwise.
  - intros; width_lia.
  - done.
  - intros; by apply wrapu_range.
  - intros x y [] Hx Hy; unfold shift_u32; [by apply wrapu_range|].
    apply shiftr_inu; [lia| |done]. apply land_31_range.
  - intros x y q Hx Hy [= <-]. destruct (Z.eqb_spec y 0); [width_lia|].
    unfold inu in *. apply div_mod_range; lia.
  - intros x y q Hx Hy [= <-]. destruct (Z.eqb_spec y 0); [width_lia|].
    unfold inu in *. apply (div_mod_range _ x y); lia.
  - lia.
Qed.
#[export] Instance u64_ok : IntTyOk u64_ty (inu 64).
Proof.
  split; cbn; try int_ty_bitwise.
  - intros; width_lia.
  - done.
  - intros; by apply wrapu_range.
  - intros x y [] Hx Hy; unfold shift_u64; [by apply wrapu_range|].
    apply shiftr_inu; [lia| |done]. apply land_63_range.
  - intros x y q Hx Hy [= <-]. destruct (Z.eqb_spec y 0); [width_lia|].
    unfold inu in *. apply div_mod_range; lia.
  - intros x y q Hx Hy [= <-]. destruct (Z.eqb_spec y 0); [width_lia|].
    unfold inu in *. apply (div_mod_range _ x y); lia.
  - lia.
Qed.

#[export] Instance i32_ok : IntTyOk i32_ty (ins 32).
Proof.
  split; cbn; try int_ty_bitwise.
  - intros; width_lia.
  - done.
  - intros; by apply wraps_range.
  - intros x y [] Hx Hy; unfold shift_i32; [by apply wraps_range|].
    apply shiftr_ins; [lia|apply land_31_range|done].
  - intros x y q Hx Hy. unfold div_i32. rewrite bind_Ok. intros ([] & H0%reject_if_Ok & Hq).
    apply bind_Ok in Hq as ([] & H1%reject_if_Ok & [= <-]). apply Z.eqb_neq in H0.
    unfold ins in *. pose proof (Z.quot_rem' x y). pose proof (Z.rem_bound_abs x y H0).
    assert (~ (x = I32_MIN /\ y = -1)) by (intros [-> ->]; done).
    change (2 ^ (32 - 1)) with 2147483648 in *.
    assert (Z.abs (x ÷ y) <= Z.abs x) by (rewrite <- Z.quot_abs by done; apply Z.quot_le_upper_bound; nia).
    destruct (decide (y = -1)) as [->|]; [nia|].
    destruct (decide (x = I32_MIN)); [|lia].
    destruct (decide (x ÷ y = 2147483648)) as [E|]; [|lia].
    rewrite E in *. nia.
  - intros x y q Hx Hy. unfold rem_i32. rewrite bind_Ok. intros ([] & H0%reject_if_Ok & Hq).
    apply bind_Ok in Hq as ([] & _ & [= <-]). apply Z.eqb_neq in H0.
    unfold ins in *. pose proof (Z.rem_bound_abs x y H0). lia.
  - lia.
Qed.

(** The result of an integer operator is in range by the laws of its type. *)
Ltac int_closed :=
  apply int_value;
  first [apply int_wrap | apply int_land | apply int_lor | apply int_lxor | apply int_shift];
  assumption.

Lemma fmap_Ok {E A B} (f : A -> B) (m : result E A) b :
  f <$> m = Ok b <-> exists a, m = Ok a /\ b = f a.
Proof. destruct m; cbn; naive_solver. Qed.

Section Closure.
Context (t : IntTy) (dom : Z -> Prop) `{!IntTyOk t dom}.

Lemma binop_int_wf op l r v : dom l -> dom r -> binop_int t op l r = Ok v -> value_wf v.
Proof.
  intros Hl Hr. destruct op; cbn [binop_int]; try discriminate;
    try (intros [= <-]; solve [int_closed | exact I]).
  - intros (q & Hq & ->)%fmap_Ok. apply int_value. exact (int_div _ _ _ Hl Hr Hq).
  - intros (q & Hq & ->)%fmap_Ok. apply int_value. exact (int_rem _ _ _ Hl Hr Hq).
Qed.

Lemma unop_int_wf op x v : dom x -> unop_int t op x = Ok v -> value_wf v.
Proof.
  intros Hx. pose proof (int_bits (t := t)) as Hb.
  destruct op; cbn [unop_int]; try discriminate; intros [= <-]; cbn;
    try solve [int_closed | exact I]; apply int_value, int_small.
  - pose proof (count_ones_bound (it_bits t) x). lia.
  - pose proof (leading_bound (rev (bits_of (it_bits t) x))) as H.
    rewrite length_rev, length_bits_of in H. unfold leading_zeros. lia.
  - pose proof (leading_bound (bits_of (it_bits t) x)) as H.
    rewrite length_bits_of in H. unfold trailing_zeros. lia.
Qed.
End Closure.

Lemma clamp_range lo hi x : lo <= hi -> lo <= clamp lo hi x <= hi.
Proof. unfold clamp. lia. Qed.
Lemma mul_high_range w a b : 0 <= w -> inu w a -> inu w b -> inu w (Z.shiftr (a * b) w).
Proof.
  unfold inu. intros Hw Ha Hb. rewrite Z.shiftr_div_pow2 by done.
  split; [apply Z.div_pos; nia|apply Z.div_lt_upper_bound; nia].
Qed.

Lemma shared_binop_wf op v :
  (forall l r, inu 32 l -> inu 32 r -> u32_shared_binop op l r = Some v -> value_wf v)
  /\ (forall l r, ins 32 l -> ins 32 r -> i32_shared_binop op l r = Some v -> value_wf v)
  /\ (forall l r, inu 64 l -> inu 64 r -> u64_shared_binop op l r = Some v -> value_wf v).
Proof.
  split_and!; intros l r Hl Hr; destruct op; cbn; try discriminate; intros [= <-]; cbn;
    try (by apply wrapu_range); try (by apply wraps_range); try (by apply mul_high_range);
    try (unfold inu, ins in *; apply (clamp_range _ _ (_)); lia);
    try (unfold clamp; width_lia).
Qed.

Lemma f64_of_wf x : fp_wf x -> inu 64 (f64_of x).
Proof. apply (to_bits_range binary64 binary64_ok). Qed.
Lemma f32_of_wf x : fp_wf x -> inu 32 (f32_of x).
Proof. apply (to_bits_range binary32 binary32_ok). Qed.
Lemma f32_val_wf x : fp_wf (f32_val x).
Proof. apply (unpack_wf binary32 binary32_ok). Qed.
Lemma f64_val_wf x : fp_wf (f64_val x).
Proof. apply (unpack_wf binary64 binary64_ok). Qed.
Lemma f64_from_f32_wf x : inu 64 (f64_from_f32 x).
Proof. apply f64_of_wf, f32_val_wf. Qed.
Lemma f64_as_f32_wf x : inu 32 (f64_as_f32 x).
Proof. apply f32_of_wf, f64_val_wf. Qed.

Lemma wrap_f32_wf x : value_wf (wrap_f32 x).
Proof. apply f64_from_f32_wf. Qed.

(** Elimination without computing on the value. *)
Lemma ok_elim {E A} (P : A -> Prop) a v : P a -> Ok (E := E) a = Ok v -> P v.
Proof. by intros Ha [= <-]. Qed.

Lemma binop_f32_wf fe op a b v : binop_f32 fe op a b = Ok v -> value_wf v.
Proof.
  destruct op; unfold binop_f32; cbv zeta; try discriminate;
    apply ok_elim; first [exact I | apply wrap_f32_wf].
Qed.
Lemma unop_f32_wf fe op a v : unop_f32 fe op a = Ok v -> value_wf v.
Proof.
  destruct op; unfold unop_f32; cbv zeta; try discriminate;
    apply ok_elim; first [exact I | apply wrap_f32_wf].
Qed.

Lemma fp_to_int_range lo hi x : lo <= 0 <= hi -> lo <= fp_to_int lo hi x <= hi.
Proof. intros. destruct x as [|[]|]; cbn; lia. Qed.

Lemma eval_binop_wf fe op a b v :
  value_wf a -> value_wf b -> eval_binop fe op a b = Ok v -> value_wf v.
Proof.
  intros Ha Hb. destruct (shared_binop_wf op v) as (H1 & H2 & H3).
  unfold eval_binop. destruct a as [x|x|x|x|x|x|x], b as [y|y|y|y|y|y|y]; cbn in Ha, Hb;
    try discriminate.
  - destruct (u32_shared_binop op x y) eqn:Hs; [intros [= ->]; eauto|eapply binop_int_wf; eauto with typeclass_instances].
  - destruct (i32_shared_binop op x y) eqn:Hs; [intros [= ->]; eauto|eapply binop_int_wf; eauto with typeclass_instances].
  - destruct (u64_shared_binop op x y) eqn:Hs; [intros [= ->]; eauto|eapply binop_int_wf; eauto with typeclass_instances].
  - destruct op; cbn; try discriminate; by intros [= <-].
  - apply binop_f32_wf.
Qed.

Lemma eval_unop_wf fe op a v : value_wf a -> eval_unop fe op a = Ok v -> value_wf v.
Proof.
  intros Ha. destruct a; cbn [eval_unop]; cbn [value_wf] in Ha; try discriminate;
    try (eapply unop_int_wf; eauto with typeclass_instances).
  - destruct op; cbn; try discriminate; by intros [= <-].
  - apply unop_f32_wf.
Qed.

Lemma resize_bytes n l : Forall (inu 8) l -> Forall (inu 8) (resize n l).
Proof.
  intros Hl. unfold resize. apply Forall_app; split; [by apply Forall_take|].
  apply Forall_replicate. width_lia.
Qed.
Lemma read_prefix_range n l : Forall (inu 8) l -> 0 <= read_prefix n l < 256 ^ Z.of_nat n.
Proof.
  intros Hl. unfold read_prefix. pose proof (of_le_bytes_bound (resize n l) (resize_bytes n l Hl)) as H.
  by rewrite length_resize in H.
Qed.

Lemma try_as_u32_range v x : value_wf v -> try_as_u32 v = Some x -> inu 32 x.
Proof.
  intros Hv. destruct v; cbn in *; try discriminate.
  - by intros [= <-].
  - case_match; intros [= <-]. width_lia.
  - case_match; intros [= <-]. width_lia.
  - intros [= <-]. case_match; width_lia.
  - case_match; intros [= <-]. by apply read_prefix_range.
  - unfold f64_to_u32. destruct (f64_val bits); try discriminate. case_match; [|discriminate].
    intros [= <-]. pose proof (fp_to_int_range 0 U32_MAX (Fin s m e) ltac:(lia)). width_lia.
Qed.
Lemma try_as_u64_range v x : value_wf v -> try_as_u64 v = Some x -> inu 64 x.
Proof.
  intros Hv. destruct v; cbn in *; try discriminate.
  - intros [= <-]. width_lia.
  - case_match; intros [= <-]. width_lia.
  - by intros [= <-].
  - intros [= <-]. case_match; width_lia.
  - case_match; intros [= <-]. by apply read_prefix_range.
  - unfold f64_to_u64. destruct (f64_val bits); try discriminate. case_match; [|discriminate].
    intros [= <-]. pose proof (fp_to_int_range 0 U64_MAX (Fin s m e) ltac:(lia)). width_lia.
Qed.

Lemma to_bytes_wf v : value_wf v -> Forall (inu 8) (to_bytes v).
Proof.
  induction v as [| | | | | |l IH] using Value_ind'; cbn [value_wf to_bytes]; intros Hv;
    try apply le_bytes_range; [done|].
  apply Forall_list_Forall in Hv. induction IH as [|v l Hv' _ IHl]; cbn; [done|].
  inversion Hv; subst. apply Forall_app; auto.
Qed.

Lemma as_u32_wf a (k : Z -> Value) v :
  value_wf a -> (forall x, inu 32 x -> value_wf (k x)) ->
  match try_as_u32 a with Some x => Ok (k x) | None => invalid_cast end = Ok v -> value_wf v.
Proof.
  intros Ha Hk. destruct (try_as_u32 a) as [x|] eqn:Hx; [|discriminate].
  apply ok_elim, Hk. by eapply try_as_u32_range.
Qed.

Lemma cast_value_wf t a v : value_wf a -> cast_value t a = Ok v -> value_wf v.
Proof.
  intros Ha. pose proof (to_bytes_wf a Ha) as Hb. unfold cast_value.
  destruct t; try (apply ok_elim; exact Hb);
    try (apply ok_elim; cbn [value_wf]; rewrite write_bytes_width_into_resize; by apply resize_bytes).
  - destruct a; try (by apply as_u32_wf); apply ok_elim; [by apply wrapu_range|].
    pose proof (fp_to_int_range 0 U32_MAX (f64_val bits) ltac:(lia)). cbn [value_wf]. width_lia.
  - destruct a; try (apply as_u32_wf; [done|]; intros; by apply wraps_range); apply ok_elim; [done|].
    pose proof (fp_to_int_range I32_MIN I32_MAX (f64_val bits) ltac:(lia)). cbn [value_wf]. width_lia.
  - destruct (try_as_u64 a) as [x|] eqn:Hx; [|discriminate].
    apply ok_elim. by eapply try_as_u64_range.
  - by apply ok_elim.
  - destruct a; try (apply as_u32_wf; [done|]; intros; apply f64_from_f32_wf); apply ok_elim;
      try apply f64_from_f32_wf; [|done]. unfold F64_ONE. destruct b; cbn; width_lia.
Qed.

(** ** Float results *)

(** A float value that holds a canonical [f32]. *)
Definition float_canonical (v : Value) : Prop :=
  match v with
  | Float bits => f32_canonical (f64_as_f32 bits) /\ bits = f64_from_f32 (f64_as_f32 bits)
  | _ => True
  end.

Lemma wrap_f32_canonical x : inu 32 x -> float_canonical (wrap_f32 x).
Proof.
  intros Hx. pose proof (canonical_f32_canonical x Hx) as Hc. unfold wrap_f32, float_canonical.
  by rewrite (f64_roundtrip_canonical _ Hc).
Qed.

Lemma canonical_f32_range x : inu 32 x -> inu 32 (canonical_f32 x).
Proof. intros Hx. by apply (canonical_f32_canonical x Hx). Qed.

Lemma fp_add_wf x y : fp_wf x -> fp_wf y -> fp_wf (fp_add x y).
Proof. intros Hx Hy. destruct x, y; cbn; try done; repeat case_match; cbn; lia. Qed.
Lemma fp_mul_wf x y : fp_wf x -> fp_wf y -> fp_wf (fp_mul x y).
Proof. intros Hx Hy. destruct x, y; cbn in *; try done; repeat case_match; cbn; try done; nia. Qed.
Lemma fp_neg_wf x : fp_wf x -> fp_wf (fp_neg x).
Proof. by destruct x. Qed.
Lemma fp_div_wf f x y : fp_wf x -> fp_wf y -> fp_wf (fp_div f x y).
Proof.
  intros Hx Hy. destruct x, y; cbn in *; try done. case_match; [by case_match|]. cbn.
  assert (0 <= (m * 2 ^ Z.max 0 (prec f + 2 + Z.log2 m0 - Z.log2 m)) / m0) by
    (apply Z.div_pos; [apply Z.mul_nonneg_nonneg; lia|lia]).
  case_match; lia.
Qed.
Lemma int_part_nonneg m e : 0 <= m -> 0 <= (int_part m e).1.
Proof.
  intros Hm. unfold int_part. case_match; cbn; [apply Z.mul_nonneg_nonneg; lia|].
  apply Z.div_pos; [done|]. lia.
Qed.
Lemma fp_rounding_wf x : fp_wf x ->
  fp_wf (fp_floor x) /\ fp_wf (fp_ceil x) /\ fp_wf (fp_round x) /\ fp_wf (fp_trunc x).
Proof.
  intros Hx. destruct x as [| |s m e]; try done. cbn in Hx. pose proof (int_part_nonneg m e Hx) as Hi.
  unfold fp_floor, fp_ceil, fp_round, fp_trunc. destruct (int_part m e) as [q cut]; cbn in *.
  split_and!; try done; repeat case_match;
    first [lia | apply Z.mul_nonneg_nonneg; lia | apply Z.div_pos; lia].
Qed.

Lemma f32_lift1_range g x : (forall y, fp_wf y -> fp_wf (g y)) -> inu 32 (f32_lift1 g x).
Proof. intros Hg. apply f32_of_wf, Hg, f32_val_wf. Qed.
Lemma f32_lift2_range g x y :
  (forall a b, fp_wf a -> fp_wf b -> fp_wf (g a b)) -> inu 32 (f32_lift2 g x y).
Proof. intros Hg. apply f32_of_wf, Hg; apply f32_val_wf. Qed.
Lemma f32_select_range below tie x y : inu 32 x -> inu 32 y -> inu 32 (f32_select below tie x y).
Proof. intros. unfold f32_select. repeat case_match; done. Qed.
Lemma f32_recip_range x : inu 32 (f32_recip x).
Proof. apply f32_lift2_range. intros; by apply fp_div_wf. Qed.

Lemma binop_f32_canonical fe op a b v :
  inu 32 a -> inu 32 b -> binop_f32 fe op a b = Ok v -> float_canonical v.
Proof.
  intros Ha%canonical_f32_range Hb%canonical_f32_range.
  destruct op; unfold binop_f32; cbv zeta; try discriminate; apply ok_elim; try exact I;
    apply wrap_f32_canonical.
  all: try (by apply f32_select_range); apply f32_lift2_range; intros;
    auto using fp_add_wf, fp_mul_wf, fp_neg_wf, fp_div_wf.
Qed.

Lemma unop_f32_canonical fe op a v `{!FloatEnvOk fe} :
  inu 32 a -> unop_f32 fe op a = Ok v -> float_canonical v.
Proof.
  intros Ha%canonical_f32_range. pose proof (float_env_range _ Ha) as Hl.
  repeat rewrite Forall_cons in Hl. destruct_and? Hl.
  destruct op; unfold unop_f32; cbv zeta; try discriminate; apply ok_elim; try exact I;
    apply wrap_f32_canonical; try assumption;
    first [ apply f32_recip_range
          | apply canonical_f32_range, f32_recip_range
          | apply f32_lift1_range; intros; by apply fp_rounding_wf
          | apply lxor_inu; [lia|done|width_lia]
          | apply land_inu; [lia|done|width_lia]
          | idtac ].
  unfold f32_sign. repeat case_match; vm_compute; split; congruence.
Qed.

(** ** Where the integer operators are defined *)

Definition subgroup_op (op : BinOp) : bool :=
  match op with
  | BinOp.Shuffle | BinOp.Ballot | BinOp.WaveReduce | BinOp.WaveBroadcast | BinOp.Opaque _ => true
  | _ => false
  end.
Definition rotate_op (op : BinOp) : bool :=
  match op with BinOp.RotateLeft | BinOp.RotateRight => true | _ => false end.
Definition division_op (op : BinOp) : bool :=
  match op with BinOp.Div | BinOp.Mod => true | _ => false end.
Definition i32_division_undefined (a b : Z) : bool :=
  (b =? 0) || ((a =? I32_MIN) && (b =? -1)).

Module TypedOps.
(** The three encoders of a value agree: writing into a fixed-width slot, without
    a temporary vector, stores exactly [to_bytes_width] (nothing into an empty slot),
    and appending at a declared width appends exactly [to_bytes_width] or reports
    that the length overflows. *)
Theorem byte_encoders_agree v n out :
  write_bytes_width_into v n = (if (n =? 0)%nat then [] else to_bytes_width v n)
  /\ length (write_bytes_width_into v n) = n
  /\ extend_bytes_width v n out =
       (if negb (n =? 0)%nat && (USIZE_MAX <? Z.of_nat (length out + n))
        then Err (Interp "encoded value byte size overflows usize")
        else Ok (out ++ to_bytes_width v n)).
Proof.
  rewrite write_bytes_width_into_resize. split_and!.
  - destruct (Nat.eqb_spec n 0) as [->|Hn]; [done|]. by rewrite to_bytes_width_resize.
  - apply length_resize.
  - apply extend_bytes_width_spec.
Qed.

(** The operators are type safe: on values inside their widths every binary
    operator, unary operator and cast that returns returns a value inside its width,
    whatever the platform's float functions. *)
Theorem primitive_ops_typed fe (a b : Value) (Ha : value_wf a) (Hb : value_wf b) :
  (forall op v, eval_binop fe op a b = Ok v -> value_wf v)
  /\ (forall op v, eval_unop fe op a = Ok v -> value_wf v)
  /\ (forall t v, cast_value t a = Ok v -> value_wf v).
Proof.
  split_and!; intros.
  - by apply (eval_binop_wf fe op a b).
  - by apply (eval_unop_wf fe op a).
  - by apply (cast_value_wf t a).
Qed.

(** A platform whose functions return zero. *)
Definition zero_env : FloatEnv :=
  let z (_ : Z) := 0 in
  mkFloatEnv z z z z z z z z z z z z z z (fun _ _ => true) (fun _ _ => true).
#[global] Instance zero_env_ok : FloatEnvOk zero_env.
Proof. intros x _. repeat first [apply Forall_nil_2 | apply Forall_cons_2; [cbn; width_lia|]]. Qed.

Lemma primitive_ops_typed_witness :
  eval_binop zero_env BinOp.Mul (U32 65536) (U32 65537) = Ok (U32 65536) /\ value_wf (U32 65536).
Proof.
  split; [reflexivity|].
  refine (proj1 (primitive_ops_typed zero_env (U32 65536) (U32 65537) _ _) BinOp.Mul _ eq_refl);
    cbn; unfold inu; lia.
Defined.

(** The integer operators fail exactly where they are undefined: on [u32] only the
    subgroup and extension operators, on [u64] these and the rotates, on [i32] these,
    the rotates, the high product, and division and remainder by zero or of the
    smallest value by -1. *)
Theorem integer_ops_defined fe op a b :
  is_ok (eval_binop fe op (U32 a) (U32 b)) = negb (subgroup_op op)
  /\ is_ok (eval_binop fe op (U64 a) (U64 b)) = negb (subgroup_op op || rotate_op op)
  /\ is_ok (eval_binop fe op (I32 a) (I32 b)) =
       negb (subgroup_op op || rotate_op op || bool_decide (op = BinOp.MulHigh)
             || division_op op && i32_division_undefined a b).
Proof.
  unfold i32_division_undefined.
  destruct op; split_and!; try reflexivity; cbn; unfold div_i32, rem_i32;
    destruct (b =? 0); try reflexivity; by destruct ((a =? I32_MIN) && (b =? -1)).
Qed.

(** Division and remainder belong together: on [u32] a zero divisor gives
    [u32::MAX] and 0, any other divisor the quotient and the remainder below it; on
    [i32], where both are defined, the quotient truncates towards zero and the
    remainder has the sign of the dividend. *)
Theorem division_remainder fe a b q r (Ha : inu 32 a) (Hb : inu 32 b)
    (s t : Z) (Hq : eval_binop fe BinOp.Div (I32 s) (I32 t) = Ok (I32 q))
    (Hr : eval_binop fe BinOp.Mod (I32 s) (I32 t) = Ok (I32 r)) :
  (exists q r, eval_binop fe BinOp.Div (U32 a) (U32 b) = Ok (U32 q)
     /\ eval_binop fe BinOp.Mod (U32 a) (U32 b) = Ok (U32 r)
     /\ (b = 0 -> q = U32_MAX /\ r = 0) /\ (b <> 0 -> a = b * q + r /\ 0 <= r < b))
  /\ s = t * q + r /\ Z.abs r < Z.abs t /\ 0 <= r * s.
Proof.
  split.
  - eexists _, _. split; [reflexivity|]. split; [reflexivity|].
    destruct (Z.eqb_spec b 0) as [->|Hn]; [lia|]. unfold inu in *.
    pose proof (Z.div_mod a b Hn). pose proof (Z.mod_pos_bound a b). lia.
  - cbn in Hq, Hr. unfold div_i32, rem_i32 in *. destruct (Z.eqb_spec t 0); [done|].
    destruct ((s =? I32_MIN) && (t =? -1)); [done|]. injection Hq as <-. injection Hr as <-.
    pose proof (Z.quot_rem' s t). pose proof (Z.rem_bound_abs s t). pose proof (Z.rem_sign_mul s t). lia.
Qed.
Lemma division_remainder_witness :
  eval_binop zero_env BinOp.Div (I32 (-7)) (I32 2) = Ok (I32 (-3))
  /\ -7 = 2 * -3 + -1 /\ Z.abs (-1) < Z.abs 2 /\ 0 <= -1 * -7.
Proof.
  split; [reflexivity|].
  apply (division_remainder zero_env 7 2 (-3) (-1)); try reflexivity; unfold inu; lia.
Defined.

(** Every float result is canonical: a binary or unary operator on floats that
    returns a float returns a widened [f32] that is no subnormal and, if it is a
    NaN, the canonical one. *)
Theorem float_results_canonical fe (Hfe : FloatEnvOk fe) a b v :
  (forall op, eval_binop fe op (Float a) (Float b) = Ok v -> float_canonical v)
  /\ (forall op, eval_unop fe op (Float a) = Ok v -> float_canonical v).
Proof.
  split; intros op; [apply binop_f32_canonical|apply (unop_f32_canonical fe)];
    auto using f64_as_f32_wf.
Qed.
Lemma float_results_canonical_witness :
  eval_binop zero_env BinOp.Add (Float F64_ONE) (Float 1) = Ok (Float F64_ONE)
  /\ float_canonical (Float F64_ONE).
Proof.
  split; [reflexivity|].
  exact (proj1 (float_results_canonical zero_env zero_env_ok F64_ONE 1 (Float F64_ONE)) BinOp.Add eq_refl).
Defined.
End TypedOps.
