(* ===== verification/RefMemory.v ===== *)
(** Bounds-guarded buffers, atomics and the buffer tables of the reference
    interpreter (vyre-reference: oob.rs, atomics.rs, workgroup.rs).

    Arithmetic is that of a release build: [usize] additions wrap, and slicing out
    of range panics. *)

From S2P Require Import Prelude Float Spec IR RefValue.
Import DataType (min_bytes, size_bytes, bit_width).

(** ** Buffers *)

Record Buffer := mkBuffer {
  buf_bytes : bytes;
  buf_element : DataType;
}.

(** [&bytes[start..end]]. *)
Definition slice (l : bytes) (start end_ : Z) : interp bytes :=
  if (end_ <? start) || (blen l <? end_) then Err Panic
  else Ok (take (Z.to_nat (end_ - start)) (drop (Z.to_nat start) l)).
(** [bytes[start..start + new.len()].copy_from_slice(new)], in range. *)
Definition splice (l : bytes) (start : Z) (new : bytes) : bytes :=
  take (Z.to_nat start) l ++ new ++ drop (Z.to_nat start + length new) l.

Definition Buffer_len (b : Buffer) : interp Z :=
  let n := blen (buf_bytes b) in
  count ← match bit_width (buf_element b) with
          | Some bits =>
              match usize_checked_mul n 8 with
              | Some total_bits => if bits =? 0 then Err Panic else Ok (total_bits / bits)
              | None => Ok USIZE_MAX
              end
          | None =>
              match size_bytes (buf_element b) with
              | Some stride => Ok (if stride =? 0 then n else n / stride)
              | None => Ok n
              end
          end;
  Ok (if count <=? U32_MAX then count else U32_MAX).

Definition byte_offset (index stride : Z) : option Z := usize_checked_mul index stride.

Definition ir_to_conform_type (t : DataType) : DataType :=
  match t with DataType.Bool => DataType.U32 | _ => t end.

(** [Value::try_zero_for(ty).unwrap_or_else(|| Value::from(Vec::new()))]. *)
Definition zero_or_empty (t : DataType) : interp Value :=
  o ← Value.try_zero_for t; Ok (default (Value.Bytes []) o).

Definition is_bytes (t : DataType) : bool := match t with DataType.Bytes => true | _ => false end.

(** The byte range of element [index], or [None] when it is outside the buffer. *)
Definition element_range (b : Buffer) (index stride : Z) : option (Z * Z) :=
  match byte_offset index stride with
  | None => None
  | Some offset =>
      let end_ := wrapu 64 (offset + stride) in
      if (stride =? 0) || (blen (buf_bytes b) <? end_) then None else Some (offset, end_)
  end.

Definition load (b : Buffer) (index : Z) : interp Value :=
  let ty := ir_to_conform_type (buf_element b) in
  if is_bytes (buf_element b) then
    if blen (buf_bytes b) <? index then Ok (Value.Bytes [])
    else Value.Bytes <$> slice (buf_bytes b) index (blen (buf_bytes b))
  else
    match element_range b index (min_bytes (buf_element b)) with
    | None => zero_or_empty ty
    | Some (start, end_) =>
        l ← slice (buf_bytes b) start end_;
        match Value.from_element_bytes ty l with Some v => Ok v | None => zero_or_empty ty end
    end.

(** What a store writes into a slot of [n] bytes. *)
Definition write_element (t : DataType) (n : nat) (value : Value) : bytes :=
  match t with
  | DataType.F32 =>
      let v := match value with
               | Value.Float bits => f64_as_f32 bits
               | Value.U32 x => x
               | _ => 0
               end in
      le_bytes 4 (canonical_f32 v)
  | _ => Value.write_bytes_width_into value n
  end.

Definition with_bytes (b : Buffer) (l : bytes) : Buffer := mkBuffer l (buf_element b).

Definition store (b : Buffer) (index : Z) (value : Value) : interp Buffer :=
  let n := blen (buf_bytes b) in
  if is_bytes (buf_element b) then
    if n <=? index then Ok b
    else
      let l := Value.to_bytes value in
      let write_len := Nat.min (length l) (Z.to_nat (n - index)) in
      Ok (with_bytes b (splice (buf_bytes b) index (take write_len l)))
  else
    match element_range b index (min_bytes (buf_element b)) with
    | None => Ok b
    | Some (start, end_) =>
        old ← slice (buf_bytes b) start end_;
        Ok (with_bytes b (splice (buf_bytes b) start (write_element (buf_element b) (length old) value)))
    end.

(** ** Atomics *)

(** The range of the word an atomic addresses. *)
Definition atomic_range (b : Buffer) (index : Z) : option (Z * Z) :=
  let stride := Z.max (min_bytes (buf_element b)) 4 in
  match byte_offset index stride with
  | None => None
  | Some offset =>
      let end_ := wrapu 64 (offset + 4) in
      if blen (buf_bytes b) <? end_ then None else Some (offset, end_)
  end.

Definition atomic_load (b : Buffer) (index : Z) : interp (option Z) :=
  match atomic_range b index with
  | None => Ok None
  | Some (start, end_) => l ← slice (buf_bytes b) start end_; Ok (Some (of_le_bytes l))
  end.

Definition atomic_store (b : Buffer) (index value : Z) : interp Buffer :=
  match atomic_range b index with
  | None => Ok b
  | Some (start, end_) =>
      _ ← slice (buf_bytes b) start end_;
      Ok (with_bytes b (splice (buf_bytes b) start (le_bytes 4 value)))
  end.

Definition atomic_compare_exchange (old : Z) (expected : option Z) (value : Z) : interp (Z * Z) :=
  match expected with
  | None => Err (Interp "compare-exchange atomic is missing expected value")
  | Some expected => Ok (old, if old =? expected then value else old)
  end.

(** The old value returned and the new value stored. *)
Definition apply_atomic (op : AtomicOp) (old : Z) (expected : option Z) (value : Z) : interp (Z * Z) :=
  match op with
  | AtomicOp.Add => Ok (old, wrapu 32 (old + value))
  | AtomicOp.Or => Ok (old, Z.lor old value)
  | AtomicOp.And => Ok (old, Z.land old value)
  | AtomicOp.Xor => Ok (old, Z.lxor old value)
  | AtomicOp.Min => Ok (old, Z.min old value)
  | AtomicOp.Max => Ok (old, Z.max old value)
  | AtomicOp.Exchange => Ok (old, value)
  | AtomicOp.CompareExchange => atomic_compare_exchange old expected value
  | AtomicOp.LruUpdate => Ok (old, Z.max old value)
  | _ => Err (Interp "unsupported atomic op")
  end.

(** ** Buffer tables: association lists in insertion order *)

Definition BufferMap : Type := list (string * Buffer).

Fixpoint map_get (m : BufferMap) (name : string) : option Buffer :=
  match m with
  | [] => None
  | (key, b) :: m => if decide (key = name) then Some b else map_get m name
  end.
(** Writing through [get_mut]: replaces the first entry of that name. *)
Fixpoint map_set (m : BufferMap) (name : string) (b : Buffer) : BufferMap :=
  match m with
  | [] => []
  | (key, old) :: m => if decide (key = name) then (key, b) :: m else (key, old) :: map_set m name b
  end.
Definition map_insert (m : BufferMap) (name : string) (b : Buffer) : BufferMap * option Buffer :=
  match map_get m name with
  | Some old => (map_set m name b, Some old)
  | None => (m ++ [(name, b)], None)
  end.

Record Memory := mkMemory {
  storage : BufferMap;
  workgroup : BufferMap;
}.

(** [Program::buffer]: the index keeps the first declaration of a name. *)
Definition program_buffer (p : Program) (name : string) : option BufferDecl :=
  list_find (fun b => bd_name b = name) (buffers p) ≫= fun r => Some r.2.

Definition buffer_decl (p : Program) (name : string) : interp BufferDecl :=
  ok_or (program_buffer p name) (Interp "unknown buffer").

(** Which table a declaration lives in. *)
Definition table (m : Memory) (decl : BufferDecl) : BufferMap :=
  if decide (bd_access decl = BufferAccess.Workgroup) then workgroup m else storage m.
Definition with_table (m : Memory) (decl : BufferDecl) (t : BufferMap) : Memory :=
  if decide (bd_access decl = BufferAccess.Workgroup) then mkMemory (storage m) t
  else mkMemory t (workgroup m).

Definition resolve_buffer (m : Memory) (p : Program) (name : string) : interp Buffer :=
  decl ← buffer_decl p name;
  ok_or (map_get (table m decl) name) (Interp "missing buffer").

(** Mutable access: the buffer, with the declaration that says where it lives. *)
Definition resolve_buffer_mut (m : Memory) (decl : BufferDecl) : interp (BufferDecl * Buffer) :=
  b ← ok_or (map_get (table m decl) (bd_name decl)) (Interp "missing buffer");
  Ok (decl, b).

Definition buffer_mut (m : Memory) (p : Program) (name : string) : interp (BufferDecl * Buffer) :=
  decl ← buffer_decl p name;
  match bd_access decl with
  | BufferAccess.ReadWrite | BufferAccess.WriteOnly | BufferAccess.Workgroup =>
      resolve_buffer_mut m decl
  | BufferAccess.ReadOnly | BufferAccess.Uniform => Err (Interp "store target is not writable")
  end.

Definition atomic_buffer_mut (m : Memory) (p : Program) (name : string)
  : interp (BufferDecl * Buffer) :=
  decl ← buffer_decl p name;
  match bd_access decl with
  | BufferAccess.ReadWrite => resolve_buffer_mut m decl
  | BufferAccess.Workgroup => Err (Interp "atomic target is workgroup memory")
  | BufferAccess.ReadOnly | BufferAccess.Uniform => Err (Interp "atomic target is not writable")
  | BufferAccess.WriteOnly => Err (Interp "atomic target uses an unsupported access mode")
  end.

(** Writing a buffer back where [buffer_mut] found it. *)
Definition write_back (m : Memory) (decl : BufferDecl) (b : Buffer) : Memory :=
  with_table m decl (map_set (table m decl) (bd_name decl) b).

(** ** Slices *)

Definition cut (l : bytes) (s n : nat) : bytes := take n (drop s l).

Lemma slice_cut l s e : 0 <= s -> s <= e -> e <= blen l ->
  slice l s e = Ok (cut l (Z.to_nat s) (Z.to_nat (e - s))).
Proof.
  intros. unfold slice. rewrite !(proj2 (Z.ltb_ge _ _)) by lia. done.
Qed.
Lemma length_cut l s n : (s + n <= length l)%nat -> length (cut l s n) = n.
Proof. intros. unfold cut. rewrite length_take, length_drop. lia. Qed.

Lemma splice_length l s new : 0 <= s -> (Z.to_nat s + length new <= length l)%nat ->
  length (splice l s new) = length l.
Proof. intros. unfold splice. rewrite !length_app, length_take, length_drop. lia. Qed.

Lemma cut_splice_same l s new : 0 <= s -> (Z.to_nat s + length new <= length l)%nat ->
  cut (splice l s new) (Z.to_nat s) (length new) = new.
Proof.
  intros Hs Hl. unfold cut, splice. rewrite drop_app_length'.
  - apply take_app_length.
  - rewrite length_take. lia.
Qed.

Lemma cut_splice_other l s new t n :
  0 <= s -> (Z.to_nat s + length new <= length l)%nat -> (t + n <= length l)%nat ->
  (t + n <= Z.to_nat s \/ Z.to_nat s + length new <= t)%nat ->
  cut (splice l s new) t n = cut l t n.
Proof.
  intros Hs Hl Ht Hd. apply list_eq. intros i. unfold cut, splice.
  destruct (decide (i < n)%nat); [|rewrite !lookup_take_ge by lia; done].
  rewrite !lookup_take_lt, !lookup_drop by lia. destruct Hd.
  - rewrite lookup_app_l by (rewrite length_take; lia). by rewrite lookup_take_lt by lia.
  - rewrite lookup_app_r by (rewrite length_take; lia).
    rewrite lookup_app_r by (rewrite length_take; lia).
    rewrite lookup_drop, length_take. f_equal. lia.
Qed.

Lemma splice_bytes l s new :
  Forall (inu 8) l -> Forall (inu 8) new -> Forall (inu 8) (splice l s new).
Proof.
  intros. unfold splice. apply Forall_app; split; [by apply Forall_take|].
  apply Forall_app; split; [done|by apply Forall_drop].
Qed.

(** ** Bounds guard *)

Definition buffer_wf (b : Buffer) : Prop :=
  Forall (inu 8) (buf_bytes b) /\ blen (buf_bytes b) <= USIZE_MAX.

(** Element [i] lies inside the buffer. *)
Definition in_bounds (b : Buffer) (i stride : Z) : Prop :=
  0 <= i /\ 0 < stride /\ (i + 1) * stride <= blen (buf_bytes b).

Lemma element_range_in b i stride : buffer_wf b -> in_bounds b i stride ->
  element_range b i stride = Some (i * stride, i * stride + stride).
Proof.
  intros [_ Hl] (Hi & Hs & Hb). unfold element_range, byte_offset, usize_checked_mul.
  assert (0 <= i * stride) by nia. assert (i * stride + stride = (i + 1) * stride) by lia.
  rewrite (proj2 (Z.leb_le _ _)) by lia.
  rewrite (wrapu_id 64) by width_lia.
  rewrite (proj2 (Z.eqb_neq _ _)), (proj2 (Z.ltb_ge _ _)) by lia. done.
Qed.

Lemma element_range_out b i stride :
  0 <= i -> 0 <= stride -> (i + 1) * stride <= USIZE_MAX -> ~ in_bounds b i stride ->
  element_range b i stride = None.
Proof.
  intros Hi Hs Hm Hb. unfold element_range, byte_offset, usize_checked_mul.
  destruct (Z.leb_spec (i * stride) USIZE_MAX); [|done]. assert (0 <= i * stride) by nia.
  rewrite (wrapu_id 64) by width_lia. destruct (Z.eqb_spec stride 0); [done|].
  destruct (Z.ltb_spec (blen (buf_bytes b)) (i * stride + stride)); [done|].
  destruct Hb. unfold in_bounds. lia.
Qed.

Lemma slice_element b i stride : buffer_wf b -> in_bounds b i stride ->
  slice (buf_bytes b) (i * stride) (i * stride + stride)
  = Ok (cut (buf_bytes b) (Z.to_nat (i * stride)) (Z.to_nat stride)).
Proof.
  intros [_ Hl] (Hi & Hs & Hb). rewrite slice_cut by nia. do 2 f_equal. lia.
Qed.

(** The element types whose slots are typed scalars. *)
Definition readback (t : DataType) (v : Value) : option Value :=
  match t, v with
  | DataType.U32, Value.U32 x => Some (Value.U32 x)
  | DataType.I32, Value.I32 x => Some (Value.I32 x)
  | DataType.U64, Value.U64 x => Some (Value.U64 x)
  | DataType.Bool, Value.Bool x => Some (Value.U32 (if x then 1 else 0))
  | DataType.F32, Value.Float x => Some (wrap_f32 (f64_as_f32 x))
  | DataType.F64, Value.Float x => Some (Value.Float x)
  | _, _ => None
  end.

Lemma write_element_length t v : min_bytes t <> 0 -> t <> DataType.Bytes ->
  length (write_element t (Z.to_nat (min_bytes t)) v) = Z.to_nat (min_bytes t).
Proof.
  intros Hm Ht. unfold write_element.
  destruct t; try (by rewrite write_bytes_width_into_resize, length_resize).
  by rewrite length_le_bytes.
Qed.

Lemma write_element_bytes t n v : value_wf v -> Forall (inu 8) (write_element t n v).
Proof.
  intros Hv. unfold write_element.
  destruct t; try (rewrite write_bytes_width_into_resize; by apply resize_bytes, to_bytes_wf).
  apply le_bytes_range.
Qed.

Lemma resize_le_bytes n x : Value.resize n (le_bytes n x) = le_bytes n x.
Proof.
  unfold Value.resize. rewrite length_le_bytes, Nat.sub_diag, take_ge; [apply app_nil_r|].
  by rewrite length_le_bytes.
Qed.
Lemma of_take_le_bytes n w x : inu w x -> 2 ^ w = 256 ^ Z.of_nat n ->
  of_le_bytes (take n (le_bytes n x)) = x.
Proof.
  intros Hx Hw. rewrite take_ge by (by rewrite length_le_bytes).
  rewrite of_le_bytes_le_bytes, <- Hw. by apply Z.mod_small.
Qed.

(** Decoding the encoding of a scalar, per element type. *)
Lemma from_u32 x : inu 32 x -> Value.from_element_bytes DataType.U32 (le_bytes 4 x) = Some (Value.U32 x).
Proof.
  intros. unfold Value.from_element_bytes. rewrite length_le_bytes.
  change (Z.of_nat 4 <? 4) with false. cbv iota. by rewrite (of_take_le_bytes 4 32).
Qed.
Lemma from_i32 x : ins 32 x ->
  Value.from_element_bytes DataType.I32 (le_bytes 4 (wrapu 32 x)) = Some (Value.I32 x).
Proof.
  intros. unfold Value.from_element_bytes. rewrite length_le_bytes.
  change (Z.of_nat 4 <? 4) with false. cbv iota.
  rewrite (of_take_le_bytes 4 32) by (done || by apply wrapu_range).
  by rewrite wraps_wrapu, wraps_id.
Qed.
Lemma from_u64 x : inu 64 x -> Value.from_element_bytes DataType.U64 (le_bytes 8 x) = Some (Value.U64 x).
Proof.
  intros. unfold Value.from_element_bytes. rewrite length_le_bytes.
  change (Z.of_nat 8 <? 8) with false. cbv iota. by rewrite (of_take_le_bytes 8 64).
Qed.
Lemma from_f32 x : inu 32 x ->
  Value.from_element_bytes DataType.F32 (le_bytes 4 x) = Some (wrap_f32 x).
Proof.
  intros. unfold Value.from_element_bytes, wrap_f32. rewrite length_le_bytes.
  change (Z.of_nat 4 <? 4) with false. cbv iota. by rewrite (of_take_le_bytes 4 32).
Qed.
Lemma from_f64 x : inu 64 x -> Value.from_element_bytes DataType.F64 (le_bytes 8 x) = Some (Value.Float x).
Proof.
  intros. unfold Value.from_element_bytes. rewrite length_le_bytes.
  change (Z.of_nat 8 <? 8) with false. cbv iota. by rewrite (of_take_le_bytes 8 64).
Qed.

Lemma wrap_canonical x : inu 32 x -> wrap_f32 (canonical_f32 x) = wrap_f32 x.
Proof. intros. unfold wrap_f32. by rewrite (canonical_f32_id (canonical_f32 x)) by by apply canonical_f32_canonical. Qed.

(** Encoding a scalar into its slot and decoding it. *)
Lemma readback_element t v w : value_wf v -> readback t v = Some w ->
  Value.from_element_bytes (ir_to_conform_type t) (write_element t (Z.to_nat (min_bytes t)) v) = Some w.
Proof.
  intros Hv Hw. rewrite <- Hw.
  destruct t; try discriminate Hw; destruct v; try discriminate Hw; unfold write_element, readback;
    cbn [ir_to_conform_type min_bytes value_wf] in *; rewrite ?write_bytes_width_into_resize;
    cbn [Value.to_bytes]; rewrite ?(resize_le_bytes 4), ?(resize_le_bytes 8).
  - by apply from_u32.
  - by apply from_i32.
  - by apply from_u64.
  - apply from_u32. case_match; width_lia.
  - rewrite from_f32 by apply canonical_f32_range, f64_as_f32_wf.
    by rewrite wrap_canonical by apply f64_as_f32_wf.
  - by apply from_f64.
Qed.

Lemma readback_scalar t v w : readback t v = Some w ->
  is_bytes t = false /\ 0 < min_bytes t /\ t <> DataType.Bytes.
Proof. destruct t, v; try discriminate; intros _; done. Qed.

(** ** Elements *)

Lemma load_in b i : buffer_wf b -> is_bytes (buf_element b) = false ->
  in_bounds b i (min_bytes (buf_element b)) ->
  load b i = match Value.from_element_bytes (ir_to_conform_type (buf_element b))
                     (cut (buf_bytes b) (Z.to_nat (i * min_bytes (buf_element b)))
                          (Z.to_nat (min_bytes (buf_element b)))) with
             | Some v => Ok v
             | None => zero_or_empty (ir_to_conform_type (buf_element b))
             end.
Proof.
  intros Hb Ht Hi. unfold load. rewrite Ht, element_range_in by done. by rewrite slice_element.
Qed.

Lemma store_in b i v : buffer_wf b -> is_bytes (buf_element b) = false ->
  in_bounds b i (min_bytes (buf_element b)) ->
  store b i v = Ok (with_bytes b (splice (buf_bytes b) (i * min_bytes (buf_element b))
    (write_element (buf_element b) (Z.to_nat (min_bytes (buf_element b))) v))).
Proof.
  intros Hb Ht Hi. unfold store. rewrite Ht, element_range_in, slice_element by done.
  cbn. rewrite length_cut; [done|]. destruct Hi as (? & ? & ?). unfold blen in *. nia.
Qed.

Lemma load_out b i : is_bytes (buf_element b) = false -> 0 <= i -> 0 <= min_bytes (buf_element b) ->
  (i + 1) * min_bytes (buf_element b) <= USIZE_MAX -> ~ in_bounds b i (min_bytes (buf_element b)) ->
  load b i = zero_or_empty (ir_to_conform_type (buf_element b)) /\ forall v, store b i v = Ok b.
Proof.
  intros Ht Hi Hm Hu Hb. unfold load, store. rewrite Ht, element_range_out by done. done.
Qed.

(** Loaded values are well formed. *)
Lemma from_element_bytes_wf t l v :
  Forall (inu 8) l -> Value.from_element_bytes t l = Some v -> value_wf v.
Proof.
  intros Hl. assert (forall n, Forall (inu 8) (take n l)) as Ht by (intros; by apply Forall_take).
  assert (forall n, 0 <= of_le_bytes (take n l) < 256 ^ Z.of_nat n) as Hn.
  { intros n. pose proof (of_le_bytes_bound _ (Ht n)) as H. rewrite length_take in H.
    assert (256 ^ Z.of_nat (n `min` length l) <= 256 ^ Z.of_nat n) by (apply Z.pow_le_mono_r; lia). lia. }
  unfold Value.from_element_bytes.
  destruct t; try (by intros [= <-]); try destruct (Value.fixed_scalar_storage_width _);
    try (case_match; [discriminate|]); intros [= <-]; cbn [value_wf]; try done;
    try (by apply (Hn 4%nat)); try (by apply (Hn 8%nat)); try (by apply wraps_range).
  apply f64_from_f32_wf.
Qed.
Lemma zero_or_empty_wf t v : zero_or_empty t = Ok v -> value_wf v.
Proof.
  unfold zero_or_empty, Value.try_zero_for.
  assert (forall n, Forall (inu 8) (Value.zeros n)) by (intros; apply Forall_replicate; width_lia).
  destruct t; cbn [mbind result_bind default from_option]; try (intros [= <-]; cbn [value_wf]; first [done | width_lia]);
    (destruct (Value.fixed_scalar_storage_width _); [destruct (_ <? _)|]); cbn [mbind result_bind default from_option]; try discriminate; intros [= <-]; cbn [value_wf]; done.
Qed.
(** The zero of an element type can be allocated. *)
Definition zero_fits (t : DataType) : Prop := forall w, Value.fixed_scalar_storage_width t = Some w -> w <= ARC_BYTES_MAX.
Lemma zero_or_empty_ok t : zero_fits t -> exists v, zero_or_empty (ir_to_conform_type t) = Ok v.
Proof.
  intros Hz. unfold zero_or_empty, Value.try_zero_for, zero_fits in *.
  destruct t; cbn [ir_to_conform_type mbind result_bind]; try (by eexists);
    (destruct (Value.fixed_scalar_storage_width _) as [w|]; [rewrite (proj2 (Z.ltb_ge ARC_BYTES_MAX w)) by auto|]); by eexists.
Qed.
Lemma slice_bytes l s e k : Forall (inu 8) l -> slice l s e = Ok k -> Forall (inu 8) k.
Proof.
  intros Hl. unfold slice. case_match; [discriminate|]. intros [= <-].
  by apply Forall_take, Forall_drop.
Qed.
Lemma load_wf b i v : buffer_wf b -> load b i = Ok v -> value_wf v.
Proof.
  intros [Hb _]. unfold load. destruct (is_bytes (buf_element b)).
  - case_match; [intros [= <-]; apply Forall_nil_2|]. intros (l & Hl & ->)%fmap_Ok. by eapply slice_bytes.
  - destruct (element_range b i _) as [[s e]|]; [|apply zero_or_empty_wf].
    intros (l & Hl & Hv)%bind_Ok. apply slice_bytes in Hl; [|done].
    destruct (Value.from_element_bytes _ l) eqn:E; [injection Hv as <-; by eapply from_element_bytes_wf|].
    by eapply zero_or_empty_wf.
Qed.

(** ** Atomic words *)

Definition atomic_stride (b : Buffer) : Z := Z.max (min_bytes (buf_element b)) 4.
Definition word_in_bounds (b : Buffer) (i : Z) : Prop :=
  0 <= i /\ i * atomic_stride b + 4 <= blen (buf_bytes b).

Lemma atomic_range_in b i : buffer_wf b -> word_in_bounds b i ->
  atomic_range b i = Some (i * atomic_stride b, i * atomic_stride b + 4).
Proof.
  intros [_ Hl] [Hi Hw]. unfold atomic_range, byte_offset, usize_checked_mul. fold (atomic_stride b).
  assert (4 <= atomic_stride b) by (unfold atomic_stride; lia). assert (0 <= i * atomic_stride b) by nia.
  rewrite (proj2 (Z.leb_le _ _)), (wrapu_id 64), (proj2 (Z.ltb_ge _ _)) by width_lia. done.
Qed.

Lemma atomic_range_out b i : 0 <= i -> i * atomic_stride b + 4 <= USIZE_MAX -> ~ word_in_bounds b i ->
  atomic_range b i = None.
Proof.
  intros Hi Hu Hw. unfold atomic_range, byte_offset, usize_checked_mul. fold (atomic_stride b).
  assert (4 <= atomic_stride b) by (unfold atomic_stride; lia). assert (0 <= i * atomic_stride b) by nia.
  rewrite (proj2 (Z.leb_le _ _)), (wrapu_id 64) by width_lia.
  destruct (Z.ltb_spec (blen (buf_bytes b)) (i * atomic_stride b + 4)); [done|].
  destruct Hw. unfold word_in_bounds. lia.
Qed.

Lemma slice_word b i : buffer_wf b -> word_in_bounds b i ->
  slice (buf_bytes b) (i * atomic_stride b) (i * atomic_stride b + 4)
  = Ok (cut (buf_bytes b) (Z.to_nat (i * atomic_stride b)) 4).
Proof.
  intros _ [Hi Hw]. assert (0 <= i * atomic_stride b) by (unfold atomic_stride in *; nia).
  rewrite slice_cut by lia. do 2 f_equal. lia.
Qed.

(** The word an atomic addresses. *)
Definition word (b : Buffer) (i : Z) : Z :=
  of_le_bytes (cut (buf_bytes b) (Z.to_nat (i * atomic_stride b)) 4).

Lemma cut_bytes l s n : Forall (inu 8) l -> Forall (inu 8) (cut l s n).
Proof. intros. apply Forall_take, Forall_drop; done. Qed.

Lemma word_fits b i : word_in_bounds b i ->
  0 <= i * atomic_stride b /\ (Z.to_nat (i * atomic_stride b) + 4 <= length (buf_bytes b))%nat.
Proof.
  intros [Hi Hw]. assert (0 <= i * atomic_stride b) by (unfold atomic_stride in *; nia).
  unfold blen in *. lia.
Qed.

Lemma word_range b i : buffer_wf b -> word_in_bounds b i -> inu 32 (word b i).
Proof.
  intros [Hb _] Hw. destruct (word_fits b i Hw) as [_ Hl].
  pose proof (of_le_bytes_bound _ (cut_bytes (buf_bytes b) (Z.to_nat (i * atomic_stride b)) 4 Hb)) as H.
  by rewrite length_cut in H by lia.
Qed.

Lemma atomic_load_in b i : buffer_wf b -> word_in_bounds b i -> atomic_load b i = Ok (Some (word b i)).
Proof.
  intros Hb Hw. unfold atomic_load. rewrite atomic_range_in by done. by rewrite slice_word.
Qed.

Definition set_word (b : Buffer) (i x : Z) : Buffer :=
  with_bytes b (splice (buf_bytes b) (i * atomic_stride b) (le_bytes 4 x)).

Lemma atomic_store_in b i x : buffer_wf b -> word_in_bounds b i ->
  atomic_store b i x = Ok (set_word b i x).
Proof.
  intros Hb Hw. unfold atomic_store. rewrite atomic_range_in by done. by rewrite slice_word.
Qed.

Lemma with_bytes_wf b l :
  buffer_wf b -> Forall (inu 8) l -> length l = length (buf_bytes b) -> buffer_wf (with_bytes b l).
Proof. intros [_ Hl] Hb Hlen. split; [done|]. unfold blen in *. cbn. lia. Qed.

Lemma set_word_wf b i x : buffer_wf b -> word_in_bounds b i -> buffer_wf (set_word b i x).
Proof.
  intros Hb Hw. destruct (word_fits b i Hw). apply with_bytes_wf; [done| |].
  - apply splice_bytes; [by destruct Hb|apply le_bytes_range].
  - by rewrite splice_length by (rewrite ?length_le_bytes; lia).
Qed.

Lemma set_word_blen b i x : word_in_bounds b i ->
  blen (buf_bytes (set_word b i x)) = blen (buf_bytes b).
Proof.
  intros Hw. destruct (word_fits b i Hw). unfold set_word, with_bytes, blen. cbn [buf_bytes].
  by rewrite splice_length by (rewrite ?length_le_bytes; lia).
Qed.

Lemma set_word_bounds b i x j : word_in_bounds b i -> word_in_bounds (set_word b i x) j <-> word_in_bounds b j.
Proof.
  intros Hw. unfold word_in_bounds. by rewrite set_word_blen.
Qed.

Lemma word_set b i x : word_in_bounds b i -> inu 32 x -> word (set_word b i x) i = x.
Proof.
  intros Hw Hx. destruct (word_fits b i Hw). unfold word, set_word, with_bytes. cbn [buf_bytes].
  change (atomic_stride (mkBuffer _ (buf_element b))) with (atomic_stride b).
  replace 4%nat with (length (le_bytes 4 x)) at 1 by apply length_le_bytes.
  rewrite cut_splice_same by (rewrite ?length_le_bytes; lia).
  rewrite of_le_bytes_le_bytes. by apply Z.mod_small.
Qed.

Lemma word_set_other b i x j : word_in_bounds b i -> word_in_bounds b j -> i <> j ->
  word (set_word b i x) j = word b j.
Proof.
  intros Hi Hj Hne. destruct (word_fits b i Hi), (word_fits b j Hj). unfold word, set_word, with_bytes. cbn [buf_bytes].
  change (atomic_stride (mkBuffer _ (buf_element b))) with (atomic_stride b).
  rewrite cut_splice_other; [done|done|by rewrite length_le_bytes|done|].
  rewrite length_le_bytes. assert (4 <= atomic_stride b) by (unfold atomic_stride; lia).
  set (st := atomic_stride b) in *.
  assert (j * st + st <= i * st \/ i * st + st <= j * st); [|lia].
  destruct (Z.lt_total i j) as [|[|]]; [right|done|left]; nia.
Qed.

(** What an operator stores over [old]. *)
Lemma apply_atomic_range op old expected value r :
  inu 32 old -> inu 32 value -> apply_atomic op old expected value = Ok r ->
  r.1 = old /\ inu 32 r.2.
Proof.
  intros Ho Hv. destruct op; cbn; try discriminate;
    try (intros [= <-]; cbn; split; [done|];
      first [by apply wrapu_range | by apply lor_inu | by apply land_inu | by apply lxor_inu | width_lia]).
  unfold atomic_compare_exchange. destruct expected; [|discriminate]. intros [= <-].
  cbn. split; [done|]. by case_match.
Qed.

Definition commutative_rmw (op : AtomicOp) : bool :=
  match op with
  | AtomicOp.Add | AtomicOp.Or | AtomicOp.And | AtomicOp.Xor
  | AtomicOp.Min | AtomicOp.Max | AtomicOp.LruUpdate => true
  | _ => false
  end.

(** ** Buffer tables *)

(** What the interpreter never changes: the names, element types and lengths. *)
Definition shape (t : BufferMap) : list (string * DataType * nat) :=
  (fun kb => (kb.1, buf_element kb.2, length (buf_bytes kb.2))) <$> t.

Lemma map_get_Forall (P : Buffer -> Prop) t name b :
  Forall (fun kb => P kb.2) t -> map_get t name = Some b -> P b.
Proof.
  induction 1 as [|[key c] t Hc _ IH]; cbn; [done|]. destruct (decide (key = name)); [|done].
  by intros [= <-].
Qed.
Lemma map_set_Forall (P : Buffer -> Prop) t name b :
  Forall (fun kb => P kb.2) t -> P b -> Forall (fun kb => P kb.2) (map_set t name b).
Proof.
  intros Ht Hb. induction Ht as [|[key c] t Hc Ht IH]; cbn; [done|].
  destruct (decide (key = name)); by constructor.
Qed.
Lemma map_set_shape t name b c : map_get t name = Some b ->
  buf_element c = buf_element b -> length (buf_bytes c) = length (buf_bytes b) ->
  shape (map_set t name c) = shape t.
Proof.
  intros Hg He Hl. induction t as [|[key d] t IH]; [done|]. cbn in Hg |- *.
  unfold shape in *. destruct (decide (key = name)); rewrite !fmap_cons; cbn [fst snd].
  - injection Hg as ->. by rewrite He, Hl.
  - by rewrite IH.
Qed.
(** Writing through [get_mut] is seen by [get], and only under that name. *)
Lemma map_get_set t name b other : map_get (map_set t name b) other =
  if decide (name = other) then (fun _ => b) <$> map_get t name else map_get t other.
Proof.
  induction t as [|[key c] t IH]; cbn; [by case_decide|].
  repeat (case_decide; subst; cbn; try done); rewrite IH; repeat case_decide; congruence || done.
Qed.

Module Oob.
Lemma store_shape b i v : buffer_wf b -> inu 32 i -> 0 <= min_bytes (buf_element b) <= 2 ^ 31 ->
  exists b', store b i v = Ok b' /\ buf_element b' = buf_element b
    /\ blen (buf_bytes b') = blen (buf_bytes b) /\ (value_wf v -> buffer_wf b').
Proof.
  intros Hb Hi Hm. destruct (is_bytes (buf_element b)) eqn:Ht.
  - unfold store. rewrite Ht. destruct (Z.leb_spec (blen (buf_bytes b)) i) as [|Hl]; [by exists b|].
    eexists. split; [done|]. split; [done|]. unfold blen in *. cbn [with_bytes buf_bytes].
    rewrite splice_length; [|unfold inu in Hi; lia|rewrite length_take; unfold inu in Hi; lia].
    split; [done|]. intros Hv. apply with_bytes_wf; [done| |].
    + apply splice_bytes; [by destruct Hb|]. apply Forall_take. by apply to_bytes_wf.
    + rewrite splice_length; [done|unfold inu in Hi; lia|rewrite length_take; unfold inu in Hi; lia].
  - destruct (decide (min_bytes (buf_element b) = 0)) as [H0|H0].
    { exists b. split; [|done]. apply load_out; [done|width_lia|lia|rewrite H0; lia|].
      rewrite H0. unfold in_bounds. lia. }
    destruct (decide ((i + 1) * min_bytes (buf_element b) <= blen (buf_bytes b))) as [Hl|Hl].
    2: { exists b. split; [|done]. apply load_out; [done|width_lia|lia|unfold inu in Hi; nia|].
         unfold in_bounds. lia. }
    assert (in_bounds b i (min_bytes (buf_element b))) as Hin by (unfold in_bounds, inu in *; lia).
    rewrite store_in by done. eexists. split; [done|]. split; [done|].
    assert (buf_element b <> DataType.Bytes) as Hnb by (intros E; by rewrite E in Ht).
    pose proof (write_element_length (buf_element b) v H0 Hnb) as Hwl.
    assert (length (splice (buf_bytes b) (i * min_bytes (buf_element b))
      (write_element (buf_element b) (Z.to_nat (min_bytes (buf_element b))) v))
      = length (buf_bytes b)) as Hsl.
    { apply splice_length; [unfold inu in Hi; nia|]. rewrite Hwl. unfold blen, inu in *. nia. }
    split; [unfold blen; cbn [with_bytes buf_bytes]; by rewrite Hsl|].
    intros Hv. apply with_bytes_wf; [done| |done]. apply splice_bytes; [by destruct Hb|].
    by apply write_element_bytes.
Qed.

(** C38: what is stored is what is loaded, and nothing else moves: for a scalar element
    type, a well-formed value of that type and an in-bounds index, a store succeeds, keeps
    the length and the element type, a load of that element returns the value (floats
    through the canonical [f32], booleans as words), and every other element reads as
    before. *)
Theorem store_then_load b i v w
    (Hb : buffer_wf b) (Hi : in_bounds b i (min_bytes (buf_element b)))
    (Hv : value_wf v) (Hw : readback (buf_element b) v = Some w) :
  exists b', store b i v = Ok b' /\ buffer_wf b' /\ buf_element b' = buf_element b
    /\ blen (buf_bytes b') = blen (buf_bytes b)
    /\ load b' i = Ok w /\ (forall j, inu 32 j -> j <> i -> load b' j = load b j).
Proof.
  destruct (readback_scalar _ _ _ Hw) as (Ht & Hm & Hnb).
  assert (min_bytes (buf_element b) <= 8) as Hm8 by (destruct (buf_element b), v; try discriminate; cbn; lia).
  pose proof (store_in b i v Hb Ht Hi) as Hst. set (m := min_bytes (buf_element b)) in *.
  pose proof (write_element_length (buf_element b) v ltac:(fold m; lia) Hnb) as Hwl. fold m in Hwl.
  set (new := write_element (buf_element b) (Z.to_nat m) v) in *.
  destruct Hi as (Hi0 & _ & Hil). destruct Hb as [Hbb Hbl].
  assert (0 <= i * m) by nia. assert (Z.to_nat (i * m) + length new <= length (buf_bytes b))%nat.
  { rewrite Hwl. unfold blen in Hil. nia. }
  assert (length (splice (buf_bytes b) (i * m) new) = length (buf_bytes b)) as Hsl by (by apply splice_length).
  eexists. split; [exact Hst|].
  assert (Forall (inu 8) new) as Hnew by by apply write_element_bytes.
  assert (buffer_wf (with_bytes b (splice (buf_bytes b) (i * m) new))) as Hwf'.
  { apply with_bytes_wf; [done|by apply splice_bytes|done]. }
  assert (blen (splice (buf_bytes b) (i * m) new) = blen (buf_bytes b)) as Hbl' by (unfold blen; by rewrite Hsl).
  split; [done|]. split; [done|]. split; [done|]. split.
  - rewrite load_in; [|done|done|unfold in_bounds; cbn [with_bytes buf_bytes buf_element]; fold m; lia].
    cbn [with_bytes buf_bytes buf_element]. fold m. rewrite <- Hwl. rewrite cut_splice_same by done.
    pose proof (readback_element _ v w Hv Hw) as Hre. fold m new in Hre. by rewrite Hre.
  - intros j Hj Hne. destruct (decide ((j + 1) * m <= blen (buf_bytes b))) as [Hin|Hout].
    + rewrite !load_in; try done; unfold in_bounds; cbn [with_bytes buf_bytes buf_element]; fold m;
        [|unfold inu in *; lia..].
      rewrite cut_splice_other; [done|done|done| |].
      * unfold blen, inu in *. nia.
      * rewrite Hwl. assert (j * m + m <= i * m \/ i * m + m <= j * m); [|unfold inu in *; lia].
        destruct (Z.lt_total i j) as [|[|]]; [right|done|left]; nia.
    + assert (forall c, buf_element c = buf_element b -> blen (buf_bytes c) = blen (buf_bytes b) ->
        load c j = zero_or_empty (ir_to_conform_type (buf_element b))) as Hz.
      { intros c Hc Hcl. rewrite <- Hc. apply load_out; rewrite ?Hc; fold m; try done;
          unfold inu, in_bounds in *; nia. }
      by rewrite !Hz.
Qed.
Lemma store_then_load_witness :
  exists b', store (mkBuffer (replicate 8 0) DataType.U32) 1 (Value.U32 258) = Ok b'
    /\ load b' 1 = Ok (Value.U32 258).
Proof.
  destruct (store_then_load (mkBuffer (replicate 8 0) DataType.U32) 1 (Value.U32 258) (Value.U32 258))
    as (b' & Hs & _ & _ & _ & Hl & _).
  - split; [apply Forall_replicate; unfold inu; lia|by vm_compute].
  - by vm_compute.
  - cbn; unfold inu; lia.
  - reflexivity.
  - by exists b'.
Defined.

Lemma load_ok b i : buffer_wf b -> inu 32 i -> 0 <= min_bytes (buf_element b) <= 2 ^ 31 -> zero_fits (buf_element b) ->
  exists v, load b i = Ok v.
Proof.
  intros Hb Hi Hm Hz. pose proof (zero_or_empty_ok _ Hz) as Hzero. unfold load. destruct (is_bytes (buf_element b)) eqn:Ht.
  - destruct (Z.ltb_spec (blen (buf_bytes b)) i); [by eexists|].
    rewrite slice_cut by (unfold inu in Hi; lia). by eexists.
  - destruct (decide (0 < min_bytes (buf_element b) /\ (i + 1) * min_bytes (buf_element b) <= blen (buf_bytes b))).
    + rewrite element_range_in, slice_element by (done || (unfold in_bounds, inu in *; lia)).
      cbn [mbind result_bind]. destruct (Value.from_element_bytes _ _); [by eexists|done].
    + rewrite element_range_out; [done|unfold inu in Hi; lia|lia|unfold inu in Hi; nia|].
      unfold in_bounds, inu in *. lia.
Qed.

(** C40: the bounds guard is total: every load and store with a [u32] index and an
    element stride up to 2^31 bytes, of a type whose zero can be allocated, returns
    without panicking; a store never changes the length or the element type and keeps
    the bytes well formed; outside the bounds, for element types other than raw bytes, a
    load returns the zero of the element type and a store changes nothing. *)
Theorem accesses_guarded b i v
    (Hb : buffer_wf b) (Hi : inu 32 i) (Hm : 0 <= min_bytes (buf_element b) <= 2 ^ 31) (Hz : zero_fits (buf_element b)) :
  is_ok (load b i) = true
  /\ (exists b', store b i v = Ok b' /\ buf_element b' = buf_element b
        /\ blen (buf_bytes b') = blen (buf_bytes b) /\ (value_wf v -> buffer_wf b'))
  /\ (is_bytes (buf_element b) = false -> ~ in_bounds b i (min_bytes (buf_element b)) ->
        load b i = zero_or_empty (ir_to_conform_type (buf_element b)) /\ store b i v = Ok b).
Proof.
  split_and!.
  - destruct (load_ok b i) as [x ->]; done.
  - by apply store_shape.
  - intros Ht Hin. destruct (load_out b i Ht) as [Hl Hs]; unfold inu in *; [lia|lia|nia|done|]. by rewrite Hs.
Qed.
Lemma accesses_guarded_witness :
  load (mkBuffer (replicate 8 0) DataType.I32) 2 = Ok (Value.I32 0)
  /\ store (mkBuffer (replicate 8 0) DataType.I32) 2 (Value.I32 5)
     = Ok (mkBuffer (replicate 8 0) DataType.I32).
Proof.
  apply (accesses_guarded (mkBuffer (replicate 8 0) DataType.I32) 2 (Value.I32 5)).
  - split; [apply Forall_replicate; unfold inu; lia|by vm_compute].
  - unfold inu; lia.
  - cbn; lia.
  - intros w; discriminate.
  - reflexivity.
  - intros (_ & _ & H). by apply H.
Defined.

(** A read-modify-write is atomic on its word: for every defined operator it
    returns the old word, the stored word is the operator's result, no other word
    of the buffer changes, and compare-exchange stores only when the old word is the
    expected one. *)
Theorem atomic_rmw b i op expected value r
    (Hb : buffer_wf b) (Hi : word_in_bounds b i) (Hv : inu 32 value)
    (Hr : apply_atomic op (word b i) expected value = Ok r) :
  atomic_load b i = Ok (Some (word b i)) /\ r.1 = word b i
  /\ exists b', atomic_store b i r.2 = Ok b' /\ buffer_wf b' /\ atomic_load b' i = Ok (Some r.2)
     /\ (forall j, word_in_bounds b j -> j <> i -> atomic_load b' j = atomic_load b j)
     /\ (op = AtomicOp.CompareExchange ->
           (expected = Some (word b i) -> r.2 = value) /\ (expected <> Some (word b i) -> b' = set_word b i (word b i))).
Proof.
  destruct (apply_atomic_range op (word b i) expected value r) as [H1 H2];
    [by apply word_range|done..|].
  split; [by apply atomic_load_in|]. split; [done|]. exists (set_word b i r.2).
  split; [by apply atomic_store_in|]. split; [by apply set_word_wf|]. split_and!.
  - rewrite atomic_load_in, word_set; [done|done|done|by apply set_word_wf|by apply set_word_bounds].
  - intros j Hj Hne. rewrite !atomic_load_in by (done || by apply set_word_wf || by apply set_word_bounds).
    by rewrite word_set_other.
  - intros ->. cbn in Hr. unfold atomic_compare_exchange in Hr.
    destruct expected as [x|]; [|done]. injection Hr as <-. cbn [snd].
    destruct (Z.eqb_spec (word b i) x) as [->|Hne]; split; intros; congruence.
Qed.
Lemma atomic_rmw_witness :
  exists b', atomic_store (mkBuffer (le_bytes 4 7) DataType.U32) 0 12 = Ok b'
    /\ atomic_load b' 0 = Ok (Some 12).
Proof.
  destruct (atomic_rmw (mkBuffer (le_bytes 4 7) DataType.U32) 0 AtomicOp.Add None 5 (7, 12))
    as (_ & _ & b' & Hs & _ & Hl & _).
  - split; [apply le_bytes_range|by vm_compute].
  - by vm_compute.
  - unfold inu; lia.
  - reflexivity.
  - by exists b'.
Defined.

(** Concurrent updates of one word do not depend on their order: for the
    commutative operators, applying two updates in either order leaves the same
    word. *)
Theorem atomic_order_irrelevant op old v1 v2 (Hc : commutative_rmw op = true) :
  (r ← apply_atomic op old None v1; apply_atomic op r.2 None v2) ≫= (fun r => Ok r.2)
  = (r ← apply_atomic op old None v2; apply_atomic op r.2 None v1) ≫= (fun r => Ok r.2).
Proof.
  destruct op; try discriminate; cbn; f_equal.
  - unfold wrapu. rewrite !Zplus_mod_idemp_l. f_equal. lia.
  - rewrite <- !Z.lor_assoc. f_equal. apply Z.lor_comm.
  - rewrite <- !Z.land_assoc. f_equal. apply Z.land_comm.
  - rewrite !Z.lxor_assoc. f_equal. apply Z.lxor_comm.
  - lia.
  - lia.
  - lia.
Qed.
Lemma atomic_order_irrelevant_witness :
  commutative_rmw AtomicOp.Add = true
  /\ (r ← apply_atomic AtomicOp.Add U32_MAX None 2; apply_atomic AtomicOp.Add r.2 None 3) ≫= (fun r => Ok r.2)
     = (r ← apply_atomic AtomicOp.Add U32_MAX None 3; apply_atomic AtomicOp.Add r.2 None 2) ≫= (fun r => Ok r.2).
Proof. split; [reflexivity|]. by apply atomic_order_irrelevant. Defined.
End Oob.
