(* ===== verification/RefEval.v ===== *)
(** The expression evaluator of the reference interpreter
    (vyre-reference: execution/expr.rs, execution/call.rs).

    [eval_frame_oracle] is the explicit-stack machine of the source: a stack of
    continuation frames and a stack of values.  [eval_rec] is the direct
    recursive semantics it is meant to compute. *)

From S2P Require Import Prelude Float Spec IR RefValue RefMemory.

(** Evaluation threads the memory: atomics write it. *)
Definition M (A : Type) : Type := Memory -> interp (A * Memory).
#[export] Instance M_ret : MRet M := fun A x m => Ok (x, m).
#[export] Instance M_bind : MBind M := fun A B f x m =>
  match x m with Ok (a, m') => f a m' | Err e => Err e end.
Definition fail {A} (e : err) : M A := fun _ => Err e.
Definition lift {A} (x : interp A) : M A := fun m =>
  match x with Ok a => Ok (a, m) | Err e => Err e end.
Definition get_memory : M Memory := fun m => Ok (m, m).
Definition put_memory (m : Memory) : M unit := fun _ => Ok (tt, m).

(** ** What an expression reads of its invocation *)

Record InvocationIds := mkInvocationIds {
  global_id : Z * Z * Z;
  workgroup_id : Z * Z * Z;
  local_id : Z * Z * Z;
}.

(** Local variables live in the slot the layout gave their name. *)
Record Invocation := mkInvocation {
  ids : InvocationIds;
  slots : gmap string nat;
  locals : list (option Value);
}.

Definition local (inv : Invocation) (name : string) : option Value :=
  slot ← slots inv !! name; v ← locals inv !! slot; v.

Definition eval_var (inv : Invocation) (name : string) : interp Value :=
  ok_or (local inv name) (Interp "reference to undeclared variable").

Definition axis_value (values : Z * Z * Z) (axis : Z) : interp Value :=
  let '(x, y, z) := values in
  if axis =? 0 then Ok (Value.U32 x)
  else if axis =? 1 then Ok (Value.U32 y)
  else if axis =? 2 then Ok (Value.U32 z)
  else Err (Interp "axis out of range").

(** ** Calls into the operator registry *)

(** What a registered operator publishes: its signature and its CPU reference,
    [None] when that panics.  The registry is code of the driver. *)
Record OpDef := mkOpDef {
  op_inputs : list string;
  op_outputs : list string;
  cpu_ref : bytes -> option bytes;
}.

Definition MAX_CALL_INPUT_BYTES : Z := 67108864.

Definition param_width (ty : string) : nat :=
  if bool_decide (ty ∈ ["u32"; "i32"; "f32"; "vec-count"]%string) then 4%nat
  else if bool_decide (ty ∈ ["u64"; "i64"; "f64"]%string) then 8%nat
  else 1%nat.

Definition validate_arity (actual expected : nat) : interp unit :=
  reject_if (negb (actual =? expected)%nat) (Interp "wrong number of call arguments").

(** The loop of [encode_inputs] over the zipped arguments and parameters. *)
Fixpoint encode_inputs (eval : Expr -> M Value) (args : list Expr) (inputs : list string)
    (input : bytes) : M bytes :=
  match args, inputs with
  | arg :: args, ty :: inputs =>
      let next_len := blen input + Z.of_nat (param_width ty) in
      _ ← lift (reject_if (USIZE_MAX <? next_len) (Interp "call input byte size overflows usize"));
      _ ← lift (reject_if (MAX_CALL_INPUT_BYTES <? next_len) (Interp "call input too large"));
      value ← eval arg;
      input ← lift (Value.extend_bytes_width value (param_width ty) input);
      encode_inputs eval args inputs input
  | _, _ => mret input
  end.

Definition invoke_cpu_ref (def : OpDef) (input : bytes) : interp bytes :=
  ok_or (cpu_ref def input) (Interp "CPU reference panicked").

Definition spec_output_value (ty : option string) (l : bytes) : Value :=
  match ty with
  | Some t =>
      if decide (t = "u32") then Value.U32 (Value.read_prefix 4 l)
      else if decide (t = "i32") then Value.I32 (wraps 32 (Value.read_prefix 4 l))
      else if decide (t = "f32") then Value.Float (f64_from_f32 (Value.read_prefix 4 l))
      else Value.Bytes l
  | None => Value.Bytes l
  end.

Section Eval.
Context (fe : FloatEnv) (dialect : option (string -> option OpDef)).
Context (inv : Invocation) (p : Program).

Definition resolve_call (op_id : string) : interp OpDef :=
  lookup ← ok_or dialect (Interp "no DialectLookup is installed");
  ok_or (lookup op_id) (Interp "unsupported call").

Definition eval_call (eval : Expr -> M Value) (op_id : string) (args : list Expr) : M Value :=
  def ← lift (resolve_call op_id);
  _ ← lift (validate_arity (length args) (length (op_inputs def)));
  input ← encode_inputs eval args (op_inputs def) [];
  output ← lift (invoke_cpu_ref def input);
  mret (spec_output_value (head (op_outputs def)) output).

(** ** What a frame does with its operands *)

Definition eval_load (buffer : string) (index : Value) : M Value :=
  idx ← lift (ok_or (Value.try_as_u32 index) (Interp "load index"));
  m ← get_memory;
  b ← lift (resolve_buffer m p buffer);
  lift (load b idx).

Definition eval_buf_len (buffer : string) : M Value :=
  m ← get_memory;
  b ← lift (resolve_buffer m p buffer);
  n ← lift (Buffer_len b);
  mret (Value.U32 n).

Definition eval_fma (a b c : Value) : interp Value :=
  let f32_of_value v what := ok_or (Value.try_as_f32 v) (Interp what) in
  c ← f32_of_value c "fma operand c";
  b ← f32_of_value b "fma operand b";
  a ← f32_of_value a "fma operand a";
  Ok (wrap_f32 (f32_of (fp_fma (f32_val (canonical_f32 a)) (f32_val (canonical_f32 b))
                          (f32_val (canonical_f32 c))))).

Definition eval_atomic (op : AtomicOp) (buffer : string) (index : Z) (expected : option Z)
    (value : Value) : M Value :=
  value ← lift (ok_or (Value.try_as_u32 value) (Interp "atomic value"));
  m ← get_memory;
  target ← lift (atomic_buffer_mut m p buffer);
  old ← lift (atomic_load target.2 index);
  match old with
  | None => mret (Value.U32 0)
  | Some old =>
      r ← lift (apply_atomic op old expected value);
      b ← lift (atomic_store target.2 index r.2);
      _ ← put_memory (write_back m target.1 b);
      mret (Value.U32 r.1)
  end.

Definition check_expected (op : AtomicOp) (expected : option Expr) : interp unit :=
  match op, expected with
  | AtomicOp.CompareExchange, None => Err (Interp "compare-exchange atomic is missing expected value")
  | AtomicOp.CompareExchange, Some _ => Ok tt
  | _, Some _ => Err (Interp "non-compare-exchange atomic includes an expected value")
  | _, None => Ok tt
  end.

(** ** The frame machine *)

Inductive Frame :=
| FExpr (e : Expr)
| FBinOp (op : BinOp)
| FUnOp (op : UnOp)
| FSelect
| FCast (target : DataType)
| FFma
| FLoad (buffer : string)
| FAtomicIndex (op : AtomicOp) (buffer : string) (expected : option Expr) (value : Expr)
| FAtomicExpected (op : AtomicOp) (buffer : string) (index : Z) (value : Expr)
| FAtomicValue (op : AtomicOp) (buffer : string) (expected : option Z) (index : Z).

Definition underflow {A} : M A := fail (Interp "internal evaluator error").

(** One iteration of the loop: the frames pushed and the new value stack. *)
Definition exec_frame (eval : Expr -> M Value) (f : Frame) (values : list Value)
    : M (list Frame * list Value) :=
  let push (v : Value) : list Frame * list Value := ([], v :: values) in
  match f with
  | FExpr e =>
      match e with
      | Expr.LitU32 v => mret (push (Value.U32 v))
      | Expr.LitI32 v => mret (push (Value.I32 v))
      | Expr.LitF32 v => mret (push (wrap_f32 v))
      | Expr.LitBool v => mret (push (Value.Bool v))
      | Expr.Var name => v ← lift (eval_var inv name); mret (push v)
      | Expr.BufLen buffer => v ← eval_buf_len buffer; mret (push v)
      | Expr.InvocationId axis => v ← lift (axis_value (global_id (ids inv)) axis); mret (push v)
      | Expr.WorkgroupId axis => v ← lift (axis_value (workgroup_id (ids inv)) axis); mret (push v)
      | Expr.LocalId axis => v ← lift (axis_value (local_id (ids inv)) axis); mret (push v)
      | Expr.Load buffer index => mret ([FExpr index; FLoad buffer], values)
      | Expr.BinOp op l r => mret ([FExpr l; FExpr r; FBinOp op], values)
      | Expr.UnOp op operand => mret ([FExpr operand; FUnOp op], values)
      | Expr.Select c t o => mret ([FExpr c; FExpr t; FExpr o; FSelect], values)
      | Expr.Cast target v => mret ([FExpr v; FCast target], values)
      | Expr.Fma a b c => mret ([FExpr a; FExpr b; FExpr c; FFma], values)
      | Expr.Atomic op buffer index expected value _ =>
          _ ← lift (check_expected op expected);
          mret ([FExpr index; FAtomicIndex op buffer expected value], values)
      | Expr.Call op_id args => v ← eval_call eval op_id args; mret (push v)
      | Expr.Opaque _ => fail (Interp "opaque expression extension")
      | _ => fail (Interp "unknown expression variant")
      end
  | FBinOp op =>
      match values with
      | r :: l :: values => v ← lift (eval_binop fe op l r); mret ([], v :: values)
      | _ => underflow
      end
  | FUnOp op =>
      match values with
      | o :: values => v ← lift (eval_unop fe op o); mret ([], v :: values)
      | _ => underflow
      end
  | FSelect =>
      match values with
      | o :: t :: c :: values => mret ([], (if Value.truthy c then t else o) :: values)
      | _ => underflow
      end
  | FCast target =>
      match values with
      | v :: values => v ← lift (cast_value target v); mret ([], v :: values)
      | _ => underflow
      end
  | FFma =>
      match values with
      | c :: b :: a :: values => v ← lift (eval_fma a b c); mret ([], v :: values)
      | _ => underflow
      end
  | FLoad buffer =>
      match values with
      | i :: values => v ← eval_load buffer i; mret ([], v :: values)
      | _ => underflow
      end
  | FAtomicIndex op buffer expected value =>
      match values with
      | i :: values =>
          idx ← lift (ok_or (Value.try_as_u32 i) (Interp "atomic index"));
          match expected with
          | Some e => mret ([FExpr e; FAtomicExpected op buffer idx value], values)
          | None => mret ([FExpr value; FAtomicValue op buffer None idx], values)
          end
      | _ => underflow
      end
  | FAtomicExpected op buffer index value =>
      match values with
      | e :: values =>
          x ← lift (ok_or (Value.try_as_u32 e) (Interp "atomic expected value"));
          mret ([FExpr value; FAtomicValue op buffer (Some x) index], values)
      | _ => underflow
      end
  | FAtomicValue op buffer expected index =>
      match values with
      | v :: values => v ← eval_atomic op buffer index expected v; mret ([], v :: values)
      | _ => underflow
      end
  end.

(** The [while let Some(frame) = frames.pop()] loop. *)
Fixpoint run_frames (eval : Expr -> M Value) (fuel : nat) (frames : list Frame)
    (values : list Value) : M Value :=
  match frames with
  | [] => match values with v :: _ => mret v | [] => fail (Interp "produced no value") end
  | f :: frames =>
      match fuel with
      | O => fail OutOfFuel
      | S fuel =>
          r ← exec_frame eval f values;
          run_frames eval fuel (r.1 ++ frames) r.2
      end
  end.

(** Frames one evaluation goes through. *)
Fixpoint frame_work (e : Expr) : nat :=
  match e with
  | Expr.Load _ i => 2 + frame_work i
  | Expr.BinOp _ l r => 2 + frame_work l + frame_work r
  | Expr.UnOp _ e | Expr.Cast _ e => 2 + frame_work e
  | Expr.Select a b c | Expr.Fma a b c => 2 + frame_work a + frame_work b + frame_work c
  | Expr.Atomic _ _ i (Some x) v _ => 4 + frame_work i + frame_work x + frame_work v
  | Expr.Atomic _ _ i None v _ => 3 + frame_work i + frame_work v
  | _ => 1
  end%nat.

(** A call evaluates its arguments on a stack of their own; [depth] bounds the
    nesting of calls. *)
Fixpoint eval_depth (depth : nat) (e : Expr) : M Value :=
  match depth with
  | O => fail OutOfFuel
  | S depth => run_frames (eval_depth depth) (frame_work e) [FExpr e] []
  end.

Definition eval_frame_oracle (e : Expr) : M Value := eval_depth (expr_depth e) e.

(** ** The recursive semantics *)

Fixpoint eval_rec (e : Expr) : M Value :=
  match e with
  | Expr.LitU32 v => mret (Value.U32 v)
  | Expr.LitI32 v => mret (Value.I32 v)
  | Expr.LitF32 v => mret (wrap_f32 v)
  | Expr.LitBool v => mret (Value.Bool v)
  | Expr.Var name => lift (eval_var inv name)
  | Expr.BufLen buffer => eval_buf_len buffer
  | Expr.InvocationId axis => lift (axis_value (global_id (ids inv)) axis)
  | Expr.WorkgroupId axis => lift (axis_value (workgroup_id (ids inv)) axis)
  | Expr.LocalId axis => lift (axis_value (local_id (ids inv)) axis)
  | Expr.Load buffer index => i ← eval_rec index; eval_load buffer i
  | Expr.BinOp op l r => a ← eval_rec l; b ← eval_rec r; lift (eval_binop fe op a b)
  | Expr.UnOp op o => a ← eval_rec o; lift (eval_unop fe op a)
  | Expr.Select c t o =>
      a ← eval_rec c; b ← eval_rec t; d ← eval_rec o;
      mret (if Value.truthy a then b else d)
  | Expr.Cast target v => a ← eval_rec v; lift (cast_value target a)
  | Expr.Fma a b c => x ← eval_rec a; y ← eval_rec b; z ← eval_rec c; lift (eval_fma x y z)
  | Expr.Atomic op buffer index expected value _ =>
      _ ← lift (check_expected op expected);
      i ← eval_rec index;
      idx ← lift (ok_or (Value.try_as_u32 i) (Interp "atomic index"));
      x ← match expected with
          | Some e =>
              a ← eval_rec e;
              x ← lift (ok_or (Value.try_as_u32 a) (Interp "atomic expected value"));
              mret (Some x)
          | None => mret None
          end;
      v ← eval_rec value;
      eval_atomic op buffer idx x v
  | Expr.Call op_id args => eval_call eval_rec op_id args
  | Expr.Opaque _ => fail (Interp "opaque expression extension")
  | _ => fail (Interp "unknown expression variant")
  end.
End Eval.

(** ** The machine computes the recursive semantics *)

(** Computations that agree on every memory. *)
Record meq {A} (x y : M A) : Prop := { meq_at : forall m, x m = y m }.
Infix "≡ₘ" := meq (at level 70).

#[export] Instance meq_equiv {A} : Equivalence (@meq A).
Proof.
  split; [done|by intros x y [H]|].
  intros x y z [H1] [H2]. split. intros m. by rewrite H1, H2.
Qed.
#[export] Instance bind_proper {A B} :
  Proper (pointwise_relation A (@meq B) ==> @meq A ==> @meq B) mbind.
Proof.
  intros f g Hf x y [Hx]. split. intros m. unfold mbind, M_bind. rewrite Hx.
  destruct (y m) as [[a m']|e]; [apply Hf|done].
Qed.
Lemma bind_assoc {A B C} (x : M A) (f : A -> M B) (g : B -> M C) :
  (x ≫= f) ≫= g ≡ₘ (x ≫= fun a => f a ≫= g).
Proof. split. intros m. unfold mbind, M_bind. by destruct (x m) as [[a m']|e]. Qed.
Lemma ret_bind {A B} (a : A) (f : A -> M B) : mret a ≫= f ≡ₘ f a.
Proof. done. Qed.
Lemma fail_bind {A B} e (f : A -> M B) : fail e ≫= f ≡ₘ fail e.
Proof. done. Qed.

(** Descends through binds whose heads agree. *)
Ltac mcong := repeat (apply bind_proper; [intros ?|first [reflexivity|assumption]]).

Section Refinement.
Context (fe : FloatEnv) (dialect : option (string -> option OpDef)).
Context (inv : Invocation) (p : Program).

Abbreviation rec := (eval_rec fe dialect inv p).
Abbreviation run := (run_frames fe dialect inv p).

Lemma encode_inputs_ext ev1 ev2 args inputs input :
  Forall (fun a => ev1 a ≡ₘ ev2 a) args ->
  encode_inputs ev1 args inputs input ≡ₘ encode_inputs ev2 args inputs input.
Proof.
  intros H. revert inputs input.
  induction H as [|a args Ha _ IH]; intros [|ty inputs] input; [done..|].
  cbn [encode_inputs]. mcong. apply IH.
Qed.
Lemma eval_call_ext ev1 ev2 op args :
  Forall (fun a => ev1 a ≡ₘ ev2 a) args ->
  eval_call dialect ev1 op args ≡ₘ eval_call dialect ev2 op args.
Proof.
  intros H. unfold eval_call. mcong. apply bind_proper; [intros ?|by apply encode_inputs_ext].
  mcong. reflexivity.
Qed.

(** One step of the loop. *)
Lemma run_step ev n f fs vs : (0 < n)%nat ->
  run ev n (f :: fs) vs
  ≡ₘ (exec_frame fe dialect inv p ev f vs ≫= fun r => run ev (n - 1) (r.1 ++ fs) r.2).
Proof. destruct n as [|n]; [lia|]. by rewrite Nat.sub_1_r. Qed.

(** Drives both sides: reassociates, strips equal heads, runs the next frame. *)
Local Ltac drive :=
  repeat first
    [ rewrite bind_assoc | rewrite ret_bind | rewrite fail_bind
    | progress cbn [fst snd app]
    | match goal with
      | IH : _ -> forall n, _ -> forall fs vs, run _ n (FExpr ?e :: fs) vs ≡ₘ _
        |- run _ _ (FExpr ?e :: _) _ ≡ₘ _ => rewrite IH by lia
      | |- run _ _ (_ :: _) _ ≡ₘ _ => rewrite run_step by lia; cbn [exec_frame]
      | |- (_ ≫= _) ≡ₘ (_ ≫= _) => apply bind_proper; [intros ?|reflexivity]
      end ];
  try (match goal with |- run _ ?n _ _ ≡ₘ run _ ?k _ _ => replace n with k by lia end; reflexivity);
  try reflexivity.

Lemma run_expr d ev :
  (forall a, (expr_depth a < d)%nat -> ev a ≡ₘ rec a) ->
  forall e, (expr_depth e <= d)%nat -> forall n, (frame_work e <= n)%nat -> forall fs vs,
    run ev n (FExpr e :: fs) vs
    ≡ₘ (rec e ≫= fun v => run ev (n - frame_work e) fs (v :: vs)).
Proof.
  intros Hev e.
  induction e using Expr_ind'; intros Hd k Hk fs vs; cbn [expr_depth] in Hd;
    try match goal with x : option Expr |- _ => destruct x; cbn [Forall_opt] in * end;
    cbn [frame_work] in Hk; cbn [eval_rec frame_work]; rewrite run_step by lia; cbn [exec_frame].
  all: try solve [drive].
  rewrite bind_assoc. apply bind_proper; [intros v; drive|].
  apply eval_call_ext, Forall_forall. intros a Ha. apply Hev.
  apply (Nat.le_lt_trans _ (list_max (map expr_depth args))); [|lia].
  pose proof (proj1 (list_max_le (map expr_depth args) _) (Nat.le_refl _)) as Hmax.
  rewrite Forall_map, Forall_forall in Hmax. by apply Hmax.
Qed.

Lemma eval_depth_rec d e :
  (expr_depth e <= d)%nat -> eval_depth fe dialect inv p d e ≡ₘ rec e.
Proof.
  revert e. induction d as [|d IH]; intros e He; [destruct e; cbn in He; lia|].
  cbn [eval_depth]. rewrite (run_expr (S d)); [|intros; apply IH; lia|done..].
  rewrite Nat.sub_diag. cbn [run_frames]. split. intros m. unfold mbind, M_bind.
  by destruct (rec e m) as [[v m']|x].
Qed.

Lemma oracle_rec e m : eval_frame_oracle fe dialect inv p e m = rec e m.
Proof. unfold eval_frame_oracle. by apply eval_depth_rec. Qed.
End Refinement.

(** ** Safety *)

(** Buffers the interpreter can address without a panic: bytes, a stride the [u32]
    index arithmetic cannot overflow, and elements of at least one bit. *)
Definition buffer_ok (b : Buffer) : Prop :=
  buffer_wf b /\ 0 <= DataType.min_bytes (buf_element b) <= 2 ^ 31
  /\ (forall w, DataType.bit_width (buf_element b) = Some w -> 0 < w)
  /\ (forall n, DataType.size_bytes (buf_element b) = Some n -> 0 <= n).
Definition table_ok (t : BufferMap) : Prop := Forall (fun kb => buffer_ok kb.2) t.
Definition memory_ok (m : Memory) : Prop := table_ok (storage m) /\ table_ok (workgroup m).

(** What evaluating an expression may change: the bytes of storage buffers. *)
Definition evolves (m m' : Memory) : Prop :=
  shape (storage m') = shape (storage m) /\ workgroup m' = workgroup m.

(** Memories whose out-of-bounds loads return: the zero of every element type can be
    allocated. *)
Definition zeroable (m : Memory) : Prop :=
  Forall (fun s => zero_fits s.1.2) (shape (storage m)) /\ Forall (fun s => zero_fits s.1.2) (shape (workgroup m)).
Lemma zeroable_evolves m m' : evolves m m' -> zeroable m -> zeroable m'.
Proof. intros [Hs Hw] [H1 H2]. unfold zeroable. by rewrite Hs, Hw. Qed.
Lemma zeroable_get t name b : Forall (fun s => zero_fits s.1.2) (shape t) -> map_get t name = Some b ->
  zero_fits (buf_element b).
Proof.
  unfold shape. rewrite Forall_fmap. intros Ht. apply (map_get_Forall (fun b => zero_fits (buf_element b))).
  exact Ht.
Qed.

(** [safe Q x]: from a good memory [x] returns a value satisfying [Q] and a good memory
    of the same shape, or fails; where the zero of every element type can be allocated
    it fails only with an interpreter error: no panic, no lack of fuel. *)
Definition safe {A} (Q : A -> Prop) (x : M A) : Prop := forall m, memory_ok m ->
  match x m with
  | Ok (a, m') => Q a /\ memory_ok m' /\ evolves m m'
  | Err e => zeroable m -> exists w, e = Interp w
  end.

Lemma safe_ret {A} (Q : A -> Prop) a : Q a -> safe Q (mret a).
Proof. by intros Ha m Hm. Qed.
Lemma safe_fail {A} (Q : A -> Prop) w : safe Q (fail (Interp w)).
Proof. intros m Hm _. by exists w. Qed.
Lemma safe_bind {A B} (P : A -> Prop) (Q : B -> Prop) (x : M A) (f : A -> M B) :
  safe P x -> (forall a, P a -> safe Q (f a)) -> safe Q (x ≫= f).
Proof.
  intros Hx Hf m Hm. specialize (Hx m Hm). unfold mbind, M_bind.
  destruct (x m) as [[a m']|e]; [|done]. destruct Hx as (Ha & Hm' & Hs & Hw).
  specialize (Hf a Ha m' Hm'). destruct (f a m') as [[b m'']|e];
    [|intros Hz; by apply Hf, (zeroable_evolves m)].
  destruct Hf as (? & ? & Hs' & Hw'). split; [done|]. split; [done|].
  split; [by rewrite Hs'|by rewrite Hw'].
Qed.
Lemma safe_lift {A} (Q : A -> Prop) (x : interp A) :
  (forall a, x = Ok a -> Q a) -> (forall e, x = Err e -> exists w, e = Interp w) -> safe Q (lift x).
Proof.
  intros HQ He m Hm. unfold lift. destruct x as [a|e].
  - split; [by apply HQ|by split].
  - intros _. by apply He.
Qed.
Lemma safe_ok_or {A} (Q : A -> Prop) (o : option A) w :
  (forall a, o = Some a -> Q a) -> safe Q (lift (ok_or o (Interp w))).
Proof.
  intros HQ. apply safe_lift; destruct o; cbn; intros ? [= <-]; [by apply HQ|by eexists].
Qed.
Lemma safe_reject b w : safe (fun _ => b = false) (lift (reject_if b (Interp w))).
Proof. apply safe_lift; destruct b; cbn; intros ? [= <-]; [done|by eexists]. Qed.
Lemma safe_get_memory : safe memory_ok get_memory.
Proof. by intros m Hm. Qed.
Lemma safe_mono {A} (P Q : A -> Prop) (x : M A) : (forall a, P a -> Q a) -> safe P x -> safe Q x.
Proof. intros H Hx m Hm. specialize (Hx m Hm). destruct (x m) as [[a m']|e]; naive_solver. Qed.

(** Errors of the primitive operators. *)
Lemma reject_errs b w e : reject_if b (Interp w) = Err e -> exists w, e = Interp w.
Proof. destruct b; cbn; [|done]. intros [= <-]. by eexists. Qed.
Lemma binop_int_errs t op a b e :
  (forall e, it_div t a b = Err e -> exists w, e = Interp w) ->
  (forall e, it_rem t a b = Err e -> exists w, e = Interp w) ->
  binop_int t op a b = Err e -> exists w, e = Interp w.
Proof.
  intros Hd Hr. destruct op; cbn; try discriminate; try (intros [= <-]; by eexists);
    [destruct (it_div t a b) eqn:E|destruct (it_rem t a b) eqn:E]; cbn; try discriminate;
    intros [= <-]; eauto.
Qed.
Lemma div_i32_errs a b e : div_i32 a b = Err e \/ rem_i32 a b = Err e -> exists w, e = Interp w.
Proof.
  unfold div_i32, rem_i32. destruct (b =? 0), ((a =? I32_MIN) && (b =? -1)); cbn;
    intros [H|H]; try discriminate; injection H as <-; by eexists.
Qed.
Lemma eval_binop_errs fe op a b e : eval_binop fe op a b = Err e -> exists w, e = Interp w.
Proof.
  unfold eval_binop. destruct (match a, b with
    | Value.U32 l, Value.U32 r => u32_shared_binop op l r
    | Value.I32 l, Value.I32 r => i32_shared_binop op l r
    | Value.U64 l, Value.U64 r => u64_shared_binop op l r
    | _, _ => None end); [discriminate|].
  destruct a, b; try (intros [= <-]; by eexists); try (apply binop_int_errs; discriminate).
  - apply binop_int_errs; cbn; eauto using div_i32_errs.
  - destruct op; cbn; try discriminate; intros [= <-]; by eexists.
  - destruct op; unfold binop_f32; try discriminate; intros [= <-]; by eexists.
Qed.
Lemma eval_unop_errs fe op a e : eval_unop fe op a = Err e -> exists w, e = Interp w.
Proof.
  destruct a; cbn [eval_unop]; try (intros [= <-]; by eexists);
    destruct op; unfold unop_f32, unop_int, unop_bool; try discriminate; intros [= <-]; by eexists.
Qed.
Lemma cast_value_errs t a e : cast_value t a = Err e -> exists w, e = Interp w.
Proof.
  unfold cast_value. destruct t; try discriminate; destruct a; try discriminate;
    (destruct (Value.try_as_u32 _) || destruct (Value.try_as_u64 _)); try discriminate;
    intros [= <-]; by eexists.
Qed.

(** Every literal is inside its width. *)
Fixpoint in_width (e : Expr) : bool :=
  match e with
  | Expr.LitU32 v | Expr.LitF32 v => bool_decide (inu 32 v)
  | Expr.LitI32 v => bool_decide (ins 32 v)
  | Expr.Load _ x | Expr.UnOp _ x | Expr.Cast _ x
  | Expr.SubgroupAdd x | Expr.SubgroupBallot x => in_width x
  | Expr.BinOp _ l r | Expr.SubgroupShuffle l r => in_width l && in_width r
  | Expr.Call _ args => forallb in_width args
  | Expr.Select a b c | Expr.Fma a b c => in_width a && in_width b && in_width c
  | Expr.Atomic _ _ i x v _ =>
      in_width i && match x with Some y => in_width y | None => true end && in_width v
  | _ => true
  end.
Lemma expr_repr_in_width e : expr_repr e -> in_width e = true.
Proof.
  induction e using Expr_ind'; cbn [expr_repr in_width]; intros Hr; destruct_and?;
    rewrite ?andb_true_iff, ?bool_decide_eq_true; auto.
  - rewrite forallb_forall. intros x Hx%list_elem_of_In. apply Forall_list_Forall in H1.
    rewrite Forall_forall in *. auto.
  - destruct e2; cbn in *; auto.
Qed.

Section Safety.
Context (fe : FloatEnv) (dialect : option (string -> option OpDef)).
Context (inv : Invocation) (p : Program).

Lemma table_memory_ok m decl : memory_ok m -> table_ok (table m decl).
Proof. intros [Hs Hw]. unfold table. by destruct (decide _). Qed.

Lemma resolve_buffer_safe m name : memory_ok m -> safe buffer_ok (lift (resolve_buffer m p name)).
Proof.
  intros Hm. unfold resolve_buffer, buffer_decl. apply safe_lift.
  - intros b (decl & _ & Hb)%bind_Ok.
    destruct (map_get (table m decl) name) as [c|] eqn:E; [|done]. injection Hb as <-.
    apply (map_get_Forall buffer_ok _ name _ (table_memory_ok m decl Hm) E).
  - intros e. destruct (program_buffer p name) as [decl|]; cbn; [|intros [= <-]; by eexists].
    destruct (map_get _ name); cbn; [done|]. intros [= <-]. by eexists.
Qed.

Lemma resolve_zero_fits m name b : zeroable m -> resolve_buffer m p name = Ok b -> zero_fits (buf_element b).
Proof.
  intros [Hs Hw] (decl & _ & Hb)%bind_Ok.
  destruct (map_get (table m decl) name) as [c|] eqn:E; [|done]. injection Hb as <-.
  revert E. unfold table. destruct (decide _); by apply zeroable_get.
Qed.
Lemma eval_load_safe buffer i : value_wf i -> safe value_wf (eval_load p buffer i).
Proof.
  intros Hi. unfold eval_load.
  eapply safe_bind; [apply safe_ok_or; intros x; by apply try_as_u32_range|]. intros idx Hidx.
  intros m Hm. unfold mbind, M_bind, get_memory.
  pose proof (resolve_buffer_safe m buffer Hm m Hm) as Hr. unfold lift in *.
  destruct (resolve_buffer m p buffer) as [b|e] eqn:Eb; [|done]. destruct Hr as ((Hb & Hs & _) & _).
  destruct (load b idx) as [v|e] eqn:E; [split; [by apply (load_wf b idx)|done]|].
  intros Hz. destruct (Oob.load_ok b idx) as [v Hv]; [done..| |congruence].
  by apply (resolve_zero_fits m buffer).
Qed.

Lemma Buffer_len_range b : buffer_ok b -> exists n, Buffer_len b = Ok n /\ inu 32 n.
Proof.
  intros (Hb & _ & Hw & Hsz). pose proof (blen_nonneg (buf_bytes b)).
  assert (forall c, 0 <= c -> exists n, Ok (E := err) (if c <=? U32_MAX then c else U32_MAX) = Ok n /\ inu 32 n) as H1.
  { intros c Hc. eexists. split; [done|]. destruct (Z.leb_spec c U32_MAX); width_lia. }
  unfold Buffer_len, usize_checked_mul.
  destruct (DataType.bit_width (buf_element b)) as [w|].
  - specialize (Hw w eq_refl). destruct (Z.leb_spec (blen (buf_bytes b) * 8) USIZE_MAX).
    + rewrite (proj2 (Z.eqb_neq w 0)) by lia. apply H1. apply Z.div_pos; lia.
    + by apply H1.
  - destruct (DataType.size_bytes (buf_element b)) as [n|]; [|by apply H1].
    specialize (Hsz n eq_refl). destruct (Z.eqb_spec n 0); apply H1; [done|]. apply Z.div_pos; lia.
Qed.

Lemma eval_buf_len_safe buffer : safe value_wf (eval_buf_len p buffer).
Proof.
  unfold eval_buf_len. eapply safe_bind; [apply safe_get_memory|]. intros m Hm.
  eapply safe_bind; [by apply resolve_buffer_safe|]. intros b Hb.
  destruct (Buffer_len_range b Hb) as (n & -> & Hn).
  eapply safe_bind; [apply (safe_lift (inu 32)); naive_solver|]. intros k Hk. by apply safe_ret.
Qed.

Lemma eval_fma_safe a b c : safe value_wf (lift (eval_fma a b c)).
Proof.
  unfold eval_fma.
  destruct (Value.try_as_f32 c); cbn [ok_or mbind result_bind]; [|apply safe_fail].
  destruct (Value.try_as_f32 b); cbn [ok_or mbind result_bind]; [|apply safe_fail].
  destruct (Value.try_as_f32 a); cbn [ok_or mbind result_bind]; [|apply safe_fail].
  apply (safe_ret value_wf), wrap_f32_wf.
Qed.

Lemma atomic_target_safe m name : memory_ok m ->
  safe (fun t => bd_access t.1 = BufferAccess.ReadWrite /\ buffer_ok t.2
                 /\ map_get (storage m) (bd_name t.1) = Some t.2)
    (lift (atomic_buffer_mut m p name)).
Proof.
  intros [Hs _]. unfold atomic_buffer_mut, buffer_decl, resolve_buffer_mut, table.
  destruct (program_buffer p name) as [decl|]; [cbn [ok_or mbind result_bind]|apply safe_fail].
  destruct (bd_access decl) eqn:Ha; try apply safe_fail.
  rewrite decide_False by done.
  destruct (map_get (storage m) (bd_name decl)) as [b|] eqn:Hg; [|apply safe_fail].
  apply (safe_ret (A := BufferDecl * Buffer)). split; [done|]. split; [|done].
  by apply (map_get_Forall buffer_ok (storage m) (bd_name decl)).
Qed.

Lemma eval_atomic_safe op buffer i expected v : inu 32 i -> value_wf v ->
  safe value_wf (eval_atomic p op buffer i expected v).
Proof.
  intros Hi Hv. unfold eval_atomic.
  eapply safe_bind; [apply safe_ok_or; intros x; by apply try_as_u32_range|]. intros x Hx.
  intros m Hm. unfold mbind at 1, M_bind at 1, get_memory.
  pose proof (atomic_target_safe m buffer Hm m Hm) as Ht. unfold mbind at 1, M_bind at 1.
  unfold lift at 1 in Ht. unfold lift at 1.
  destruct (atomic_buffer_mut m p buffer) as [[decl b]|e]; [|done].
  destruct Ht as ((Ha & (Hb & Hst & Hbw & Hsz) & Hg) & _). cbn [fst snd] in *.
  destruct (decide (i * atomic_stride b + 4 <= blen (buf_bytes b))) as [Hin|Hout].
  - assert (word_in_bounds b i) as Hw by (unfold word_in_bounds, inu in *; lia).
    unfold mbind at 1, M_bind at 1. unfold lift at 1. rewrite atomic_load_in by done.
    unfold mbind at 1, M_bind at 1. unfold lift at 1.
    destruct (apply_atomic op (word b i) expected x) as [r|e] eqn:Hr.
    2: { destruct op; cbn in Hr; try discriminate; try (injection Hr as <-; by eexists).
         destruct expected; [discriminate|]. injection Hr as <-. by eexists. }
    destruct (apply_atomic_range op (word b i) expected x r) as [H1 H2]; [by apply word_range|done..|].
    unfold mbind at 1, M_bind at 1. unfold lift at 1. rewrite atomic_store_in by done.
    cbn [mbind M_bind put_memory mret M_ret]. unfold mbind, M_bind, put_memory, mret, M_ret.
    assert (buffer_ok (set_word b i r.2)) as Hok by (split; [by apply set_word_wf|done]).
    unfold write_back, with_table, table. rewrite Ha, !decide_False by done.
    destruct Hm as [Hs Hwg]. split; [cbn; rewrite H1; by apply word_range|].
    split; [split; [by apply map_set_Forall|done]|]. split; [|done]. cbn [storage].
    apply (map_set_shape _ _ b); [done|done|].
    pose proof (set_word_blen b i r.2 Hw) as Hbl. unfold blen in Hbl. lia.
  - unfold mbind at 1, M_bind at 1. unfold lift at 1. unfold atomic_load. rewrite atomic_range_out.
    + split; [cbn; unfold inu; lia|]. by split.
    + unfold inu in Hi. lia.
    + unfold atomic_stride, inu in *. nia.
    + unfold word_in_bounds. lia.
Qed.

(** What an expression reads of its surroundings: the invocation identifiers, the
    locals, and the bytes registered operators return. *)
Definition dims_ok (d : Z * Z * Z) : Prop := let '(x, y, z) := d in inu 32 x /\ inu 32 y /\ inu 32 z.
Definition invocation_ok : Prop :=
  dims_ok (global_id (ids inv)) /\ dims_ok (workgroup_id (ids inv)) /\ dims_ok (local_id (ids inv))
  /\ Forall (fun o => match o with Some v => value_wf v | None => True end) (locals inv).
Definition dialect_ok : Prop := forall lookup op def input out,
  dialect = Some lookup -> lookup op = Some def -> cpu_ref def input = Some out -> Forall (inu 8) out.

Lemma axis_value_safe d axis : dims_ok d -> safe value_wf (lift (axis_value d axis)).
Proof.
  destruct d as [[x y] z]. intros (Hx & Hy & Hz). unfold axis_value.
  destruct (axis =? 0); [by apply (safe_ret value_wf)|].
  destruct (axis =? 1); [by apply (safe_ret value_wf)|].
  destruct (axis =? 2); [by apply (safe_ret value_wf)|apply safe_fail].
Qed.
Lemma eval_var_safe name : invocation_ok -> safe value_wf (lift (eval_var inv name)).
Proof.
  intros (_ & _ & _ & Hl). apply safe_ok_or. intros v. unfold local.
  destruct (slots inv !! name) as [slot|]; cbn; [|done].
  destruct (locals inv !! slot) as [o|] eqn:E; cbn; [|done]. intros ->.
  by apply (Forall_lookup_1 _ _ _ _ Hl) in E.
Qed.

Lemma encode_inputs_safe ev args : Forall (fun a => safe value_wf (ev a)) args ->
  forall inputs input, safe (fun _ => True) (encode_inputs ev args inputs input).
Proof.
  induction 1 as [|a args Ha _ IH]; intros [|ty inputs] input; try by apply safe_ret.
  cbn [encode_inputs]. do 2 (eapply safe_bind; [apply safe_reject|]; intros ? _).
  eapply safe_bind; [done|]. intros v _.
  apply (safe_bind (fun _ => True)); [|intros ? _; apply IH]. apply safe_lift; [done|]. intros e.
  rewrite extend_bytes_width_spec. destruct (_ && _); intros [= <-]; by eexists.
Qed.

Lemma spec_output_value_wf ty l : Forall (inu 8) l -> value_wf (spec_output_value ty l).
Proof.
  intros Hl. unfold spec_output_value. destruct ty as [t|]; [|done].
  pose proof (read_prefix_range 4 l Hl).
  destruct (decide (t = "u32")); [done|].
  destruct (decide (t = "i32")); [by apply wraps_range|].
  destruct (decide (t = "f32")); [apply f64_of_wf, f32_val_wf|done].
Qed.

Lemma eval_call_safe ev op args : dialect_ok -> Forall (fun a => safe value_wf (ev a)) args ->
  safe value_wf (eval_call dialect ev op args).
Proof.
  intros Hd Ha. unfold eval_call.
  eapply (safe_bind (fun def => forall i o, cpu_ref def i = Some o -> Forall (inu 8) o)).
  { unfold resolve_call. destruct dialect as [lookup|] eqn:E; [|apply safe_fail].
    apply safe_ok_or. intros def Hdef i o. by apply (Hd lookup op). }
  intros def Hdef. eapply safe_bind; [apply safe_reject|]. intros _ _.
  eapply safe_bind; [by apply encode_inputs_safe|]. intros input _.
  eapply safe_bind; [apply safe_ok_or; intros out; apply Hdef|]. intros out Hout.
  by apply safe_ret, spec_output_value_wf.
Qed.

Lemma binop_safe op a b : value_wf a -> value_wf b -> safe value_wf (lift (eval_binop fe op a b)).
Proof. intros Ha Hb. apply safe_lift; [intros v; by apply eval_binop_wf|apply eval_binop_errs]. Qed.
Lemma unop_safe op a : value_wf a -> safe value_wf (lift (eval_unop fe op a)).
Proof. intros Ha. apply safe_lift; [intros v; by apply eval_unop_wf|apply eval_unop_errs]. Qed.
Lemma cast_safe t a : value_wf a -> safe value_wf (lift (cast_value t a)).
Proof. intros Ha. apply safe_lift; [intros v; by apply cast_value_wf|apply cast_value_errs]. Qed.

Lemma check_expected_safe op x : safe (fun _ => True) (lift (check_expected op x)).
Proof. destruct op, x; cbn; first [by apply (safe_ret (A := unit))|apply safe_fail]. Qed.

(** Steps through the binds of an expression whose operands are safe. *)
Local Ltac operands :=
  repeat (eapply safe_bind; [eauto; fail|intros ? ?]).

Lemma eval_in_width e : invocation_ok -> dialect_ok -> in_width e = true ->
  safe value_wf (eval_rec fe dialect inv p e).
Proof.
  intros Hinv Hd. induction e using Expr_ind'; cbn [in_width eval_rec]; intros Hr;
    rewrite ?andb_true_iff, ?bool_decide_eq_true in Hr; destruct_and?; try apply safe_fail;
    try (apply safe_ret; first [done | apply wrap_f32_wf]);
    try (apply axis_value_safe; apply Hinv).
  - by apply eval_var_safe.
  - operands. by apply eval_load_safe.
  - apply eval_buf_len_safe.
  - operands. by apply binop_safe.
  - operands. by apply unop_safe.
  - apply eval_call_safe; [done|]. rewrite forallb_forall in Hr. rewrite Forall_forall in *.
    intros x Hx. apply H, Hr; [done|]. by apply list_elem_of_In.
  - operands. apply safe_ret. by destruct (Value.truthy _).
  - operands. by apply cast_safe.
  - operands. apply eval_fma_safe.
  - eapply safe_bind; [apply check_expected_safe|]. intros _ _. operands.
    eapply safe_bind; [apply safe_ok_or; intros x; by apply try_as_u32_range|]. intros idx Hidx.
    apply (safe_bind (fun _ => True)).
    + destruct e2 as [y|]; [|by apply safe_ret]. operands.
      apply (safe_bind (fun _ => True)); [by apply safe_ok_or|]. intros ? _. by apply safe_ret.
    + intros expected _. operands. by apply eval_atomic_safe.
Qed.
Lemma eval_rec_safe e : invocation_ok -> dialect_ok -> expr_repr e ->
  safe value_wf (eval_rec fe dialect inv p e).
Proof. intros ? ? ?. apply eval_in_width; [done..|]. by apply expr_repr_in_width. Qed.
End Safety.

Module Evaluator.
(** C5: the explicit-stack evaluator is the recursive semantics: on every expression,
    invocation, program, memory, float environment and operator registry the
    frame machine terminates within its work bound and returns the value and the
    memory, or the error, of the direct left-to-right recursive evaluation. *)
Theorem eval_frame_refines_recursive fe dialect inv p e m :
  eval_frame_oracle fe dialect inv p e m = eval_rec fe dialect inv p e m.
Proof. apply oracle_rec. Qed.

(** C18: evaluation is safe: from well-formed locals, identifiers and operator results,
    and a memory whose buffers have element strides of at most 2^31 bytes, elements of
    at least one bit and element types whose zero value takes at most
    [ARC_BYTES_MAX] bytes, every representable expression evaluates to an in-width value or a
    structured interpreter error; it never panics (no slice out of range, no
    overflowing index, no oversized allocation) and never runs out of fuel, keeps every
    buffer well-formed and of the same length and element type, and leaves workgroup
    memory untouched. *)
Theorem eval_safe fe dialect inv p e m
    (Hinv : invocation_ok inv) (Hd : dialect_ok dialect) (He : expr_repr e) (Hm : memory_ok m)
    (Hz : zeroable m) :
  match eval_frame_oracle fe dialect inv p e m with
  | Ok (v, m') => value_wf v /\ memory_ok m' /\ evolves m m'
  | Err x => exists what, x = Interp what
  end.
Proof.
  rewrite oracle_rec. pose proof (eval_rec_safe fe dialect inv p e Hinv Hd He m Hm) as H.
  destruct (eval_rec fe dialect inv p e m) as [[v m']|x]; [done|by apply H].
Qed.

(** An accumulator program: [atomic_add(acc, 0, 5) + acc[0]]. *)
Definition acc_decl : BufferDecl :=
  mkBufferDecl "acc" 0 BufferAccess.ReadWrite MemoryKind.Global DataType.U32 1 false false None
    (mkMemoryHints None 0 CacheLocality.Temporal) false LinearType.Unrestricted None.
Definition acc_program : Program := mkProgram None [acc_decl] (1, 1, 1) [] false.
Definition acc_memory (x : Z) : Memory := mkMemory [("acc", mkBuffer (le_bytes 4 x) DataType.U32)] [].
Definition acc_inv : Invocation :=
  mkInvocation (mkInvocationIds (0, 0, 0) (0, 0, 0) (0, 0, 0)) ∅ [].
Definition acc_expr : Expr :=
  Expr.BinOp BinOp.Add
    (Expr.Atomic AtomicOp.Add "acc" (Expr.LitU32 0) None (Expr.LitU32 5) MemoryOrdering.SeqCst)
    (Expr.Load "acc" (Expr.LitU32 0)).

Lemma eval_safe_witness :
  eval_frame_oracle TypedOps.zero_env None acc_inv acc_program acc_expr (acc_memory 7)
    = Ok (Value.U32 19, acc_memory 12)
  /\ memory_ok (acc_memory 12).
Proof.
  assert (eval_frame_oracle TypedOps.zero_env None acc_inv acc_program acc_expr (acc_memory 7)
    = Ok (Value.U32 19, acc_memory 12)) as E by (vm_compute; reflexivity).
  split; [exact E|].
  pose proof (eval_safe TypedOps.zero_env None acc_inv acc_program acc_expr (acc_memory 7)) as H.
  rewrite E in H. apply H.
  - repeat split; try constructor; lia.
  - by intros ?.
  - cbn. repeat split; unfold inu; lia.
  - split; [|constructor]. constructor; [|constructor].
    split; [split; [apply le_bytes_range|by vm_compute]|]. cbn. split; [lia|].
    split; intros ? [= <-]; lia.
  - split; [|constructor]. constructor; [|constructor]. by intros ?.
Defined.
End Evaluator.
