(* ===== verification/DivMagic.v ===== *)
(** Magic numbers for division by a constant
    (vyre-foundation: optimizer/passes/algebraic/strength_reduce/arithmetic.rs).

    [compute_div_magic] is the loop of the source at [u32] width;
    [compute_div_magic_spec] shows that it terminates and that its multiplier
    divides every [u32] exactly. *)

From S2P Require Import Prelude RefValue.

(** ** u32 helpers of the standard library *)

Definition is_power_of_two (v : Z) : bool := (0 <? v) && (Z.land v (v - 1) =? 0).
Definition trailing_zeros_u32 (v : Z) : Z := trailing_zeros 32 v.
Definition wrapping_add (a b : Z) : Z := wrapu 32 (a + b).
Definition wrapping_sub (a b : Z) : Z := wrapu 32 (a - b).
Definition wrapping_shl (a k : Z) : Z := wrapu 32 (Z.shiftl a (Z.land k 31)).
Definition wrapping_neg (a : Z) : Z := wrapu 32 (- a).
Definition saturating_sub (a b : Z) : Z := Z.max 0 (a - b).
Definition saturating_add (a b : Z) : Z := Z.min U32_MAX (a + b).

(** ** Division by a constant: magic numbers *)

Record DivMagic := mkDivMagic { magic : Z; shift : Z; needs_fixup : bool }.

(** The loop variables of [compute_div_magic]. *)
Record magic_state := mkMagicState {
  ms_fixup : bool; ms_p : Z; ms_q1 : Z; ms_r1 : Z; ms_q2 : Z; ms_r2 : Z;
}.

Definition magic_step (d nc : Z) (s : magic_state) : magic_state :=
  let '(q1, r1) :=
    if nc - ms_r1 s <=? ms_r1 s
    then (wrapping_add (wrapping_shl (ms_q1 s) 1) 1, wrapping_sub (wrapping_shl (ms_r1 s) 1) nc)
    else (wrapping_shl (ms_q1 s) 1, wrapping_shl (ms_r1 s) 1) in
  let '(fixup, q2, r2) :=
    if wrapping_sub d (ms_r2 s) <=? wrapping_add (ms_r2 s) 1
    then (ms_fixup s || (0x7FFFFFFF <=? ms_q2 s),
          wrapping_add (wrapping_shl (ms_q2 s) 1) 1,
          wrapping_sub (wrapping_add (wrapping_shl (ms_r2 s) 1) 1) d)
    else (ms_fixup s || (0x80000000 <=? ms_q2 s),
          wrapping_shl (ms_q2 s) 1,
          wrapping_add (wrapping_shl (ms_r2 s) 1) 1) in
  mkMagicState fixup (ms_p s + 1) q1 r1 q2 r2.

Definition magic_continue (d : Z) (s : magic_state) : bool :=
  let delta := wrapping_sub (wrapping_sub d 1) (ms_r2 s) in
  (ms_p s <? 64) && ((ms_q1 s <? delta) || ((ms_q1 s =? delta) && (ms_r1 s =? 0))).

(** The [loop]: [p] goes from 31 to at most 64, so 33 iterations are enough
    ([magic_loop_exact]). *)
Fixpoint magic_loop (fuel : nat) (d nc : Z) (s : magic_state) : option magic_state :=
  match fuel with
  | O => None
  | S fuel =>
      let s := magic_step d nc s in
      if magic_continue d s then magic_loop fuel d nc s else Some s
  end.

Definition compute_div_magic (d : Z) : option DivMagic :=
  let nc := U32_MAX - wrapping_neg d mod d in
  let q1 := 0x80000000 / nc in
  let r1 := 0x80000000 - q1 * nc in
  let q2 := 0x7FFFFFFF / d in
  let r2 := 0x7FFFFFFF - q2 * d in
  s ← magic_loop 33 d nc (mkMagicState false 31 q1 r1 q2 r2);
  Some (mkDivMagic (wrapping_add (ms_q2 s) 1) (ms_p s - 32) (ms_fixup s)).
Example magic_7 : compute_div_magic 7 = Some (mkDivMagic 0x24924925 3 true).
Proof. reflexivity. Qed.
Example magic_10 : compute_div_magic 10 = Some (mkDivMagic 0xCCCCCCCD 3 false).
Proof. reflexivity. Qed.
Example magic_far : compute_div_magic 0x80000001 = Some (mkDivMagic 0xFFFFFFFD 32 true).
Proof. vm_compute. reflexivity. Qed.

(** ** Magic numbers: the loop *)

Lemma wrapping_shl_1 x : wrapping_shl x 1 = wrapu 32 (2 * x).
Proof. unfold wrapping_shl. change (Z.land 1 31) with 1. rewrite Z.shiftl_mul_pow2 by done. f_equal. lia. Qed.

(** Wrapping operations only look at their operands modulo [2^w]. *)
Lemma wrapu_2mul q : wrapu 32 (2 * (q mod 2 ^ 32)) = (2 * q) mod 2 ^ 32.
Proof. apply Zmult_mod_idemp_r. Qed.
Lemma wrapu_2mul_add q c : wrapu 32 (wrapu 32 (2 * (q mod 2 ^ 32)) + c) = (2 * q + c) mod 2 ^ 32.
Proof. rewrite wrapu_2mul. apply Zplus_mod_idemp_l. Qed.

(** One more bit of a quotient and a remainder. *)
Lemma double_divmod a b c : 0 < b -> 0 <= c <= 1 ->
  (2 * a + c) / b = 2 * (a / b) + (if b <=? 2 * (a mod b) + c then 1 else 0)
  /\ (2 * a + c) mod b = 2 * (a mod b) + c - (if b <=? 2 * (a mod b) + c then b else 0).
Proof.
  intros Hb Hc. pose proof (Z.div_mod a b). pose proof (Z.mod_pos_bound a b Hb).
  destruct (Z.leb_spec b (2 * (a mod b) + c)).
  - split; symmetry; [apply (Z.div_unique_pos _ _ _ (2 * (a mod b) + c - b))
      |apply (Z.mod_unique_pos _ _ (2 * (a / b) + 1))]; nia.
  - split; symmetry; [apply (Z.div_unique_pos _ _ _ (2 * (a mod b) + c))
      |apply (Z.mod_unique_pos _ _ (2 * (a / b)))]; nia.
Qed.

Section Magic.
Context (d : Z) (Hd : 2 < d <= U32_MAX).
Let nc : Z := U32_MAX - wrapping_neg d mod d.

(** [nc] is the largest dividend below [2^32] with remainder [d - 1]. *)
Lemma nc_spec : nc = U32_MAX - 2 ^ 32 mod d.
Proof.
  unfold nc, wrapping_neg, wrapu. f_equal.
  replace ((- d) mod 2 ^ 32) with (2 ^ 32 + (-1) * d); [apply Z_mod_plus_full|].
  apply (Z.mod_unique_pos _ _ (-1)); lia.
Qed.
Lemma nc_range : 2 ^ 31 <= nc <= U32_MAX.
Proof.
  rewrite nc_spec. pose proof (Z.div_mod (2 ^ 32) d). pose proof (Z.mod_pos_bound (2 ^ 32) d).
  assert (1 <= 2 ^ 32 / d) by (apply Z.div_le_lower_bound; lia). nia.
Qed.

(** The loop invariant: quotient and remainder of [2^p] by [nc] and of [2^p - 1] by
    [d], the quotients modulo [2^32]; the flag records that the second one left the
    word. *)
Record magic_inv (s : magic_state) : Prop := mkMagicInv {
  mi_p : 31 <= ms_p s;
  mi_q1 : ms_q1 s = (2 ^ ms_p s / nc) mod 2 ^ 32;
  mi_r1 : ms_r1 s = 2 ^ ms_p s mod nc;
  mi_q2 : ms_q2 s = ((2 ^ ms_p s - 1) / d) mod 2 ^ 32;
  mi_r2 : ms_r2 s = (2 ^ ms_p s - 1) mod d;
  mi_fixup : ms_fixup s = (2 ^ 32 - 1 <=? (2 ^ ms_p s - 1) / d);
}.

Lemma magic_init :
  magic_inv (mkMagicState false 31 (0x80000000 / nc) (0x80000000 - 0x80000000 / nc * nc)
               (0x7FFFFFFF / d) (0x7FFFFFFF - 0x7FFFFFFF / d * d)).
Proof.
  pose proof nc_range. change 0x80000000 with (2 ^ 31). change 0x7FFFFFFF with (2 ^ 31 - 1).
  split; cbn [ms_p ms_q1 ms_r1 ms_q2 ms_r2 ms_fixup]; [done|..].
  - rewrite Z.mod_small; [done|]. split; [apply Z.div_pos; lia|]. apply Z.div_lt_upper_bound; lia.
  - rewrite Z.mod_eq by lia. lia.
  - rewrite Z.mod_small; [done|]. split; [apply Z.div_pos; lia|]. apply Z.div_lt_upper_bound; lia.
  - rewrite Z.mod_eq by lia. lia.
  - symmetry. apply Z.leb_gt. apply Z.div_lt_upper_bound; lia.
Qed.

(** The two halves of a step, on the exact quotients. *)
Lemma step_nc x r1 : 0 <= x -> r1 = x mod nc ->
  (if nc - r1 <=? r1
   then (wrapping_add (wrapping_shl ((x / nc) mod 2 ^ 32) 1) 1, wrapping_sub (wrapping_shl r1 1) nc)
   else (wrapping_shl ((x / nc) mod 2 ^ 32) 1, wrapping_shl r1 1))
  = ((2 * x / nc) mod 2 ^ 32, (2 * x) mod nc).
Proof.
  intros Hx ->. pose proof nc_range as Hnc. pose proof (Z.mod_pos_bound x nc ltac:(lia)) as Hb.
  destruct (double_divmod x nc 0) as [Eq Er]; [lia..|]. rewrite !Z.add_0_r in Eq, Er.
  rewrite Eq, Er, !wrapping_shl_1. unfold wrapping_add, wrapping_sub.
  destruct (Z.leb_spec (nc - x mod nc) (x mod nc)), (Z.leb_spec nc (2 * (x mod nc))); try lia.
  - rewrite wrapu_2mul_add. f_equal. unfold wrapu. rewrite Zminus_mod_idemp_l. apply Z.mod_small. lia.
  - rewrite wrapu_2mul. rewrite Z.add_0_r. f_equal. rewrite wrapu_id; [lia|]. width_lia.
Qed.
Lemma step_d x r2 (fixup : bool) : 0 <= x -> r2 = x mod d -> fixup = (2 ^ 32 - 1 <=? x / d) ->
  (if wrapping_sub d r2 <=? wrapping_add r2 1
   then (fixup || (0x7FFFFFFF <=? (x / d) mod 2 ^ 32),
         wrapping_add (wrapping_shl ((x / d) mod 2 ^ 32) 1) 1,
         wrapping_sub (wrapping_add (wrapping_shl r2 1) 1) d)
   else (fixup || (0x80000000 <=? (x / d) mod 2 ^ 32),
         wrapping_shl ((x / d) mod 2 ^ 32) 1, wrapping_add (wrapping_shl r2 1) 1))
  = (2 ^ 32 - 1 <=? (2 * x + 1) / d, ((2 * x + 1) / d) mod 2 ^ 32, (2 * x + 1) mod d).
Proof.
  intros Hx -> ->. pose proof (Z.mod_pos_bound x d ltac:(lia)) as Hb.
  assert (0 <= x / d) as Hq by (apply Z.div_pos; lia).
  destruct (double_divmod x d 1) as [Eq Er]; [lia..|].
  rewrite Eq, Er, !wrapping_shl_1. unfold wrapping_add at 1 4, wrapping_sub at 1 2.
  rewrite (wrapu_id 32 (d - x mod d)), (wrapu_id 32 (x mod d + 1)) by width_lia.
  assert (forall k, k <= 2 ^ 32 - 1 ->
     (2 ^ 32 - 1 <=? x / d) || (k <=? (x / d) mod 2 ^ 32) = (k <=? x / d)) as Hfix.
  { intros k Hk. destruct (Z.leb_spec (2 ^ 32 - 1) (x / d)); cbn [orb].
    - symmetry. apply Z.leb_le. lia.
    - by rewrite Z.mod_small by lia. }
  rewrite !Hfix by lia.
  destruct (Z.leb_spec (d - x mod d) (x mod d + 1)), (Z.leb_spec d (2 * (x mod d) + 1)); try lia.
  - unfold wrapping_add, wrapping_sub. rewrite wrapu_2mul_add. f_equal; [f_equal|].
    + apply Bool.eq_true_iff_eq; rewrite !Z.leb_le. lia.
    + unfold wrapu. rewrite Zplus_mod_idemp_l, Zminus_mod_idemp_l. apply Z.mod_small. lia.
  - unfold wrapping_add. rewrite wrapu_2mul, Z.add_0_r. f_equal; [f_equal|].
    + apply Bool.eq_true_iff_eq; rewrite !Z.leb_le. lia.
    + rewrite (wrapu_id 32 (2 * (x mod d))) by width_lia. rewrite wrapu_id by width_lia. lia.
Qed.

Lemma magic_step_inv s : magic_inv s -> magic_inv (magic_step d nc s).
Proof.
  intros [Hp Hq1 Hr1 Hq2 Hr2 Hf].
  pose proof (Z.pow_pos_nonneg 2 (ms_p s) ltac:(lia) ltac:(lia)).
  assert (2 ^ (ms_p s + 1) = 2 * 2 ^ ms_p s) as E1 by (rewrite Z.pow_add_r by lia; lia).
  unfold magic_step. rewrite Hq1, (step_nc (2 ^ ms_p s)) by (done || lia).
  rewrite Hq2, (step_d (2 ^ ms_p s - 1)) by (done || lia).
  replace (2 * (2 ^ ms_p s - 1) + 1) with (2 ^ (ms_p s + 1) - 1) by lia. rewrite <- E1.
  by split; cbn [ms_p ms_q1 ms_r1 ms_q2 ms_r2 ms_fixup]; [lia|..].
Qed.

(** The error of the magic number at exponent [p]. *)
Definition delta (p : Z) : Z := d - 1 - (2 ^ p - 1) mod d.
Lemma delta_range p : 0 <= delta p < d.
Proof. unfold delta. pose proof (Z.mod_pos_bound (2 ^ p - 1) d). lia. Qed.

(** Leaving the loop means the error is small enough for every dividend. *)
Lemma magic_stop s : magic_inv s -> ms_p s <= 64 -> magic_continue d s = false ->
  nc * delta (ms_p s) < 2 ^ ms_p s.
Proof.
  intros [Hp Hq1 Hr1 Hq2 Hr2 Hf] Hp'. pose proof nc_range as Hnc.
  pose proof (delta_range (ms_p s)) as Hdl.
  unfold magic_continue, wrapping_sub. rewrite (wrapu_id 32 (d - 1)) by width_lia.
  rewrite Hr2. fold (delta (ms_p s)). rewrite wrapu_id by width_lia.
  intros [Hlt|Hexit]%andb_false_iff.
  - apply Z.ltb_ge in Hlt. replace (ms_p s) with 64 in * by lia. nia.
  - apply orb_false_iff in Hexit as [Hge Hne]. apply Z.ltb_ge in Hge.
    pose proof (Z.div_mod (2 ^ ms_p s) nc ltac:(lia)).
    pose proof (Z.mod_pos_bound (2 ^ ms_p s) nc ltac:(lia)).
    assert (ms_q1 s <= 2 ^ ms_p s / nc) by (rewrite Hq1; apply Z.mod_le; [apply Z.div_pos|]; lia).
    apply andb_false_iff in Hne as [Hne|Hne]; apply Z.eqb_neq in Hne; nia.
Qed.

Context (Hd31 : d <> 2 ^ 31).

(** The loop stops once [2^(p - 32)] reaches the divisor, at [p = 64] at the latest. *)
Lemma magic_continue_bound s : magic_inv s -> 32 <= ms_p s -> magic_continue d s = true ->
  ms_p s < 64 /\ 2 ^ (ms_p s - 32) < d.
Proof.
  intros [Hp Hq1 Hr1 Hq2 Hr2 Hf] Hp32. pose proof nc_range as Hnc.
  pose proof (delta_range (ms_p s)) as Hdl.
  unfold magic_continue, wrapping_sub. rewrite (wrapu_id 32 (d - 1)) by width_lia.
  rewrite Hr2. fold (delta (ms_p s)). rewrite wrapu_id by width_lia.
  intros [Hlt Hcont]%andb_true_iff. apply Z.ltb_lt in Hlt. split; [done|].
  apply Z.nle_gt. intros Hle.
  assert (2 ^ (ms_p s - 32) <= 2 ^ 31) by (apply Z.pow_le_mono_r; lia).
  assert (2 ^ ms_p s = 2 ^ 32 * 2 ^ (ms_p s - 32)) as E by (rewrite <- Z.pow_add_r by lia; f_equal; lia).
  assert (2 ^ 31 < nc) as Hnc'.
  { rewrite nc_spec. pose proof (Z.mod_pos_bound (2 ^ 32) d). lia. }
  rewrite (Z.mod_small (2 ^ ms_p s / nc)) in Hq1.
  2: { split; [apply Z.div_pos; lia|]. apply Z.div_lt_upper_bound; nia. }
  pose proof (Z.div_mod (2 ^ ms_p s) nc ltac:(lia)).
  pose proof (Z.mod_pos_bound (2 ^ ms_p s) nc ltac:(lia)).
  apply orb_true_iff in Hcont as [Hq|Hq]; [apply Z.ltb_lt in Hq|apply andb_true_iff in Hq as [Hq Hr]];
    [nia|]. apply Z.eqb_eq in Hq, Hr. nia.
Qed.

Lemma magic_loop_exact fuel s :
  magic_inv s -> ms_p s <= 63 -> 64 - ms_p s <= Z.of_nat fuel ->
  ms_p s = 31 \/ 2 ^ (ms_p s - 32) < d ->
  exists s', magic_loop fuel d nc s = Some s' /\ magic_inv s' /\ 32 <= ms_p s' <= 64
    /\ (ms_p s' = 32 \/ 2 ^ (ms_p s' - 33) < d) /\ nc * delta (ms_p s') < 2 ^ ms_p s'.
Proof.
  revert s. induction fuel as [|fuel IH]; intros s Hs Hp Hf Hb; [lia|].
  pose proof (mi_p _ Hs) as Hp31. pose proof (magic_step_inv s Hs) as Hs'.
  assert (ms_p (magic_step d nc s) = ms_p s + 1) as Hp'.
  { unfold magic_step. do 2 destruct (_ <=? _); done. }
  cbn [magic_loop]. set (s1 := magic_step d nc s) in *.
  destruct (magic_continue d s1) eqn:Hc.
  - destruct (magic_continue_bound s1) as [? ?]; [done|lia|done|]. apply IH; [done|lia|lia|by right].
  - exists s1. split; [done|]. split; [done|]. split; [lia|].
    split; [|apply magic_stop; [done|lia|done]].
    rewrite Hp'. destruct Hb as [->|Hb]; [by left|right]. by replace (ms_p s + 1 - 33) with (ms_p s - 32) by lia.
Qed.
End Magic.

(** ** Magic numbers: the multiplication *)

(** [M] is a multiplier for the divisor [d] at exponent [p]. *)
Lemma magic_mul_exact d p M dl n :
  2 < d <= U32_MAX -> 32 <= p -> M * d = 2 ^ p + dl -> 0 <= dl ->
  (U32_MAX - 2 ^ 32 mod d) * dl < 2 ^ p -> inu 32 n ->
  n * M / 2 ^ p = n / d.
Proof.
  intros Hd Hp HM Hdl Hnc Hn. unfold inu in Hn.
  set (nc := U32_MAX - 2 ^ 32 mod d) in *.
  assert (2 ^ 31 <= nc) as Hnc'.
  { pose proof (nc_range d Hd) as H. rewrite (nc_spec d Hd) in H. unfold nc. lia. }
  pose proof (Z.div_mod n d ltac:(lia)). pose proof (Z.mod_pos_bound n d ltac:(lia)).
  assert (n * dl < (d - n mod d) * 2 ^ p) as Hkey.
  { destruct (Z.le_gt_cases n nc); [nia|].
    assert (n mod d <= d - 2); [|nia].
    pose proof (Z.div_mod (2 ^ 32) d ltac:(lia)). pose proof (Z.mod_pos_bound (2 ^ 32) d ltac:(lia)).
    unfold nc in *.
    assert (n mod d = n - d * (2 ^ 32 / d)); [|lia].
    symmetry. apply (Z.mod_unique_pos _ _ (2 ^ 32 / d)); lia. }
  symmetry. apply (Z.div_unique_pos _ _ _ (n * M - 2 ^ p * (n / d))); nia.
Qed.

(** Dividing with the multiplier [2^32 + M - 2^32]: the halved sum of the fixup
    sequence does not lose the carry. *)
Lemma fixup_exact n M s : inu 32 n -> 2 ^ 32 <= M < 2 ^ 33 -> 1 <= s ->
  let t := n * (M - 2 ^ 32) / 2 ^ 32 in
  0 <= t <= n /\ (t + (n - t) / 2) / 2 ^ (s - 1) = n * M / 2 ^ (32 + s).
Proof.
  intros Hn HM Hs t. unfold inu in Hn.
  assert (0 <= t <= n) as Ht.
  { split; [apply Z.div_pos; nia|]. apply Z.div_le_upper_bound; nia. }
  split; [done|].
  replace (t + (n - t) / 2) with ((n + t) / 2).
  2: { replace (n + t) with (n - t + t * 2) by lia. rewrite Z.div_add by lia. lia. }
  rewrite Z.div_div by lia. replace (2 * 2 ^ (s - 1)) with (2 ^ s).
  2: { rewrite <- Z.pow_succ_r by lia. f_equal. lia. }
  replace (n + t) with (n * M / 2 ^ 32).
  2: { unfold t. replace (n * M) with (n * (M - 2 ^ 32) + n * 2 ^ 32) by lia.
       rewrite Z.div_add by lia. lia. }
  by rewrite Z.div_div, Z.pow_add_r by lia.
Qed.

(** The magic number of every divisor that is not a power of two. *)
Lemma compute_div_magic_spec d : 2 < d <= U32_MAX -> d <> 2 ^ 31 ->
  exists m, compute_div_magic d = Some m /\ inu 32 (magic m)
    /\ forall n, inu 32 n ->
       if needs_fixup m then
         1 <= shift m <= 32
         /\ 0 <= n * magic m / 2 ^ 32 <= n
         /\ (n * magic m / 2 ^ 32 + (n - n * magic m / 2 ^ 32) / 2) / 2 ^ (shift m - 1) = n / d
       else 0 <= shift m <= 31 /\ n * magic m / 2 ^ 32 / 2 ^ shift m = n / d.
Proof.
  intros Hd Hd31. unfold compute_div_magic.
  destruct (magic_loop_exact d Hd Hd31 33 _ (magic_init d Hd)) as (s & -> & Hs & Hp & Hpd & Hnc);
    [done|done|by left|].
  destruct Hs as [_ _ _ Hq2 _ Hf]. cbn [mbind option_bind]. eexists. split; [done|].
  cbn [magic needs_fixup shift]. unfold wrapping_add, wrapu. rewrite Hq2, Zplus_mod_idemp_l.
  set (M := (2 ^ ms_p s - 1) / d + 1). assert ((2 ^ ms_p s - 1) / d = M - 1) as EM by lia.
  split; [by apply (wrapu_range 32)|].
  pose proof (delta_range d Hd (ms_p s)) as Hdl.
  assert (M * d = 2 ^ ms_p s + delta d (ms_p s)) as HM.
  { unfold M, delta. pose proof (Z.div_mod (2 ^ ms_p s - 1) d). lia. }
  rewrite (nc_spec d Hd) in Hnc. clear Hq2.
  assert (0 < M < 2 ^ 33) as HMr.
  { split; [nia|]. destruct Hpd as [Hpd|Hpd]; [rewrite Hpd in *; nia|].
    destruct (Z.eq_dec (ms_p s) 32) as [Hpe|]; [rewrite Hpe in *; nia|].
    replace (2 ^ ms_p s) with (2 ^ 33 * 2 ^ (ms_p s - 33)) in HM; [nia|].
    rewrite <- Z.pow_add_r by lia. f_equal. lia. }
  intros n Hn. pose proof (magic_mul_exact d (ms_p s) M _ n Hd ltac:(lia) HM ltac:(lia) Hnc Hn) as Hdiv.
  rewrite Hf, EM. clear EM Hf. clearbody M. destruct (Z.leb_spec (2 ^ 32 - 1) (M - 1)) as [Hbig|Hsmall].
  - assert (33 <= ms_p s).
    { destruct (Z.eq_dec (ms_p s) 32) as [Hpe|]; [|lia]. rewrite Hpe in *. nia. }
    replace (M mod 2 ^ 32) with (M - 2 ^ 32) by (apply (Z.mod_unique_pos _ _ 1); lia).
    destruct (fixup_exact n M (ms_p s - 32)) as [Ht E]; [done|lia|lia|].
    split; [lia|]. split; [done|]. rewrite E, <- Hdiv. do 2 f_equal. lia.
  - assert (ms_p s <= 63).
    { apply Z.nlt_ge. intros Hlt. replace (ms_p s) with 64 in * by lia. nia. }
    rewrite (Z.mod_small M) by lia. split; [lia|]. rewrite <- Hdiv, Z.div_div by lia.
    rewrite <- Z.pow_add_r by lia. do 2 f_equal. lia.
Qed.
