(* ===== verification/StrengthReduce.v ===== *)
(** The strength-reduction table of the optimizer
    (vyre-foundation: optimizer/passes/algebraic/strength_reduce).

    [reduce_expr] is the rewrite table, with the helpers of arithmetic.rs it is made
    of: the division sequence, the shift-add chains, Horner form and the float
    rules. *)

From stdpp Require Import sorting.
From S2P Require Import Prelude Float Spec IR RefValue DivMagic.

Definition granlund_montgomery_div (dividend : Expr) (d : Z) : option Expr :=
  if (d <=? 1) || is_power_of_two d then None
  else
    m ← compute_div_magic d;
    let n := dividend in
    if needs_fixup m then
      let t := Expr.BinOp BinOp.MulHigh n (Expr.LitU32 (magic m)) in
      let n_minus_t := Expr.BinOp BinOp.Sub n t in
      let half := Expr.BinOp BinOp.Shr n_minus_t (Expr.LitU32 1) in
      let sum := Expr.BinOp BinOp.Add t half in
      let k := saturating_sub (shift m) 1 in
      if k =? 0 then Some sum else Some (Expr.BinOp BinOp.Shr sum (Expr.LitU32 k))
    else
      let hi := Expr.BinOp BinOp.MulHigh n (Expr.LitU32 (magic m)) in
      if shift m =? 0 then Some hi else Some (Expr.BinOp BinOp.Shr hi (Expr.LitU32 (shift m))).

(** ** Expression builders and tests *)

Abbreviation lit := Expr.LitU32.
Abbreviation add := (Expr.BinOp BinOp.Add).
Abbreviation sub := (Expr.BinOp BinOp.Sub).
Abbreviation mul := (Expr.BinOp BinOp.Mul).
Abbreviation shl := (Expr.BinOp BinOp.Shl).
Abbreviation shr := (Expr.BinOp BinOp.Shr).
Abbreviation negate := (Expr.UnOp UnOp.Negate).

Definition F32_HALF : Z := 0x3F000000.
Definition F32_TWO : Z := 0x40000000.

(** [==] on [f32]: the zeros are equal, NaN is not equal to itself. *)
Definition f32_eq (a b : Z) : bool :=
  negb (f32_is_nan a) && negb (f32_is_nan b)
  && ((a =? b) || ((f32_magnitude a =? 0) && (f32_magnitude b =? 0))).
Definition f32_is_finite (v : Z) : bool := f32_magnitude v <? 0x7F800000.
Definition lit_f32_eq (value expected : Z) : bool := value =? expected.
Definition f32_nonzero (v : Z) : bool := negb (Z.land v 0x7FFFFFFF =? 0).
(** [matches!(e, Expr::LitU32(v))] and the like. *)
Definition is_u32 (v : Z) (e : Expr) : bool :=
  match e with Expr.LitU32 w => w =? v | _ => false end.
Definition is_f32 (v : Z) (e : Expr) : bool :=
  match e with Expr.LitF32 w => lit_f32_eq w v | _ => false end.
Definition is_f32_zero (e : Expr) : bool :=
  match e with Expr.LitF32 w => f32_eq w 0 | _ => false end.

(** The [PartialEq] the expression macro generates: fields in order, literals by
    [f32] equality, extensions by kind and fingerprint. *)
Fixpoint expr_eq (a b : Expr) : bool :=
  match a, b with
  | Expr.LitU32 x, Expr.LitU32 y => x =? y
  | Expr.LitI32 x, Expr.LitI32 y => x =? y
  | Expr.LitF32 x, Expr.LitF32 y => f32_eq x y
  | Expr.LitBool x, Expr.LitBool y => Bool.eqb x y
  | Expr.Var x, Expr.Var y | Expr.BufLen x, Expr.BufLen y => bool_decide (x = y)
  | Expr.Load x i, Expr.Load y j => bool_decide (x = y) && expr_eq i j
  | Expr.InvocationId x, Expr.InvocationId y
  | Expr.WorkgroupId x, Expr.WorkgroupId y
  | Expr.LocalId x, Expr.LocalId y => x =? y
  | Expr.BinOp o l r, Expr.BinOp o' l' r' => bool_decide (o = o') && expr_eq l l' && expr_eq r r'
  | Expr.UnOp o x, Expr.UnOp o' y => bool_decide (o = o') && expr_eq x y
  | Expr.Call o xs, Expr.Call o' ys =>
      bool_decide (o = o')
      && (fix go (xs ys : list Expr) : bool :=
            match xs, ys with
            | [], [] => true
            | x :: xs, y :: ys => expr_eq x y && go xs ys
            | _, _ => false
            end) xs ys
  | Expr.Select x y z, Expr.Select x' y' z' | Expr.Fma x y z, Expr.Fma x' y' z' =>
      expr_eq x x' && expr_eq y y' && expr_eq z z'
  | Expr.Cast t x, Expr.Cast t' y => bool_decide (t = t') && expr_eq x y
  | Expr.Atomic o n i x v m, Expr.Atomic o' n' i' x' v' m' =>
      bool_decide (o = o') && bool_decide (n = n') && expr_eq i i'
      && match x, x' with
         | Some y, Some y' => expr_eq y y'
         | None, None => true
         | _, _ => false
         end
      && expr_eq v v' && bool_decide (m = m')
  | Expr.SubgroupBallot x, Expr.SubgroupBallot y => expr_eq x y
  | Expr.SubgroupShuffle x y, Expr.SubgroupShuffle x' y' => expr_eq x x' && expr_eq y y'
  | Expr.SubgroupAdd x, Expr.SubgroupAdd y => expr_eq x y
  | Expr.SubgroupLocalId, Expr.SubgroupLocalId | Expr.SubgroupSize, Expr.SubgroupSize => true
  | Expr.Opaque x, Expr.Opaque y =>
      bool_decide (en_extension_kind x = en_extension_kind y)
      && bool_decide (en_stable_fingerprint x = en_stable_fingerprint y)
  | _, _ => false
  end.

(** [is_float_expr] of the constant folder. *)
Fixpoint is_float_expr (e : Expr) : bool :=
  match e with
  | Expr.LitF32 _ | Expr.Fma _ _ _ => true
  | Expr.BinOp _ l r => is_float_expr l || is_float_expr r
  | Expr.UnOp _ x => is_float_expr x
  | Expr.Cast target _ => bool_decide (target ∈ [DataType.F32; DataType.F64])
  | _ => false
  end.

(** ** Shift-add decomposition *)

Definition MAX_SHIFT_ADD_CHAIN_COST : Z := 4.

Record SignedShiftTerm := mkTerm { term_shift : Z; term_sign : Z }.

(** [naf_terms]: [n] halves at least every other iteration, 33 iterations empty it
    ([naf_terms_total]). *)
Fixpoint naf_loop (fuel : nat) (n shift : Z) (terms : list SignedShiftTerm)
    : option (list SignedShiftTerm) :=
  if n <=? 0 then Some terms
  else
    match fuel with
    | O => None
    | S fuel =>
        if Z.land n 1 =? 0 then naf_loop fuel (Z.shiftr n 1) (shift + 1) terms
        else
          let sign := if (Z.land n 3 =? 1) || (n =? 1) then 1 else -1 in
          let n := if 0 <? sign then n - 1 else wrapping_add n 1 in
          naf_loop fuel (Z.shiftr n 1) (shift + 1) (terms ++ [mkTerm shift sign])
    end.
Definition naf_terms (n : Z) : option (list SignedShiftTerm) := naf_loop 33 n 0 [].

Definition shift_add_cost (terms : list SignedShiftTerm) : Z :=
  let shifts := Z.of_nat (length (filter (fun t => term_shift t <> 0) terms)) in
  let combines := Z.of_nat (length terms - 1) in
  shifts + combines.

Definition shifted_term (x : Expr) (shift : Z) : Expr :=
  if shift =? 0 then x else shl x (lit shift).

Definition operand_duplication_cost (e : Expr) : Z :=
  match e with
  | Expr.LitU32 _ | Expr.LitI32 _ | Expr.LitF32 _ | Expr.LitBool _ | Expr.Var _
  | Expr.InvocationId _ | Expr.WorkgroupId _ | Expr.LocalId _
  | Expr.SubgroupLocalId | Expr.SubgroupSize => 0
  | Expr.Load _ _ | Expr.BufLen _ => 1
  | _ => 2
  end.

(** Descending shift. *)
Definition shift_ge (a b : SignedShiftTerm) : Prop := term_shift b <= term_shift a.
#[export] Instance shift_ge_dec : RelDecision shift_ge.
Proof. intros a b. unfold shift_ge. apply _. Defined.

Definition chain_step (x acc : Expr) (t : SignedShiftTerm) : Expr :=
  let rhs := shifted_term x (term_shift t) in
  if 0 <? term_sign t then add acc rhs else sub acc rhs.

Definition shift_add_chain (x : Expr) (c : Z) : option Expr :=
  if (c <=? 1) || is_power_of_two c || (1 <? operand_duplication_cost x) then None
  else
    terms ← naf_terms c;
    if (length terms <? 2)%nat then None
    else if MAX_SHIFT_ADD_CHAIN_COST <? shift_add_cost terms then None
    else
      match merge_sort shift_ge terms with
      | [] => None
      | first :: rest =>
          let acc := if 0 <? term_sign first then shifted_term x (term_shift first)
                     else sub (lit 0) (shifted_term x (term_shift first)) in
          Some (foldl (chain_step x) acc rest)
      end.

Definition positive_u32_constant (e : Expr) : option Z :=
  match e with
  | Expr.LitU32 v => Some v
  | Expr.LitI32 v => if 0 <? v then Some v else None
  | _ => None
  end.

(** The searches for [c = 2^hi + 2^lo] and [c = 2^hi - 2^lo]. *)
Fixpoint find_sum (x : Expr) (c : Z) (his : list Z) : option Expr :=
  match his with
  | [] => None
  | hi :: his =>
      let high := 2 ^ hi in
      let remainder := c - high in
      if (c <? high) || (remainder =? 0) || negb (is_power_of_two remainder) then find_sum x c his
      else Some (add (shl x (lit hi)) (shifted_term x (trailing_zeros_u32 remainder)))
  end.
Fixpoint find_difference (x : Expr) (c : Z) (his : list Z) : option Expr :=
  match his with
  | [] => None
  | hi :: his =>
      let high := 2 ^ hi in
      let deficit := high - c in
      if (high <=? c) || negb (is_power_of_two deficit && (deficit <? high))
      then find_difference x c his
      else Some (sub (shl x (lit hi)) (shifted_term x (trailing_zeros_u32 deficit)))
  end.

(** [(lo..=16).rev()]. *)
Definition exponents_from (lo : Z) : list Z := rev (seqZ lo (17 - lo)).

Reserved Infix "<|>" (at level 60, right associativity).
Definition or_else {A} (a b : option A) : option A := match a with Some x => Some x | None => b end.
Infix "<|>" := or_else.

Definition shift_add_decompose (x constant : Expr) : option Expr :=
  c ← positive_u32_constant constant;
  if (c <=? 1) || is_power_of_two c then None
  else
    shift_add_chain x c
    <|> find_sum x c (exponents_from 1)
    <|> find_difference x c (exponents_from 2).

Definition power_of_two_shift (e : Expr) : option Z :=
  match e with
  | Expr.LitU32 v => if is_power_of_two v then Some (trailing_zeros_u32 v) else None
  | Expr.LitI32 v => if (0 <? v) && is_power_of_two v then Some (trailing_zeros_u32 v) else None
  | _ => None
  end.

(** ** Horner form *)

Definition MAX_HORNER_DEGREE : Z := 16.

Inductive IntKind := KU32 | KI32.
#[export] Instance IntKind_eq_dec : EqDecision IntKind.
Proof. solve_decision. Defined.

Definition kind_lit (k : IntKind) (bits : Z) : Expr :=
  match k with KU32 => Expr.LitU32 bits | KI32 => Expr.LitI32 (wraps 32 bits) end.

Fixpoint collect_add_terms (e : Expr) : list Expr :=
  match e with
  | Expr.BinOp BinOp.Add l r => collect_add_terms l ++ collect_add_terms r
  | _ => [e]
  end.
Fixpoint collect_mul_factors (e : Expr) : list Expr :=
  match e with
  | Expr.BinOp BinOp.Mul l r => collect_mul_factors l ++ collect_mul_factors r
  | _ => [e]
  end.

(** [match slot { Some(existing) if existing != x => return None, _ => slot = Some(x) }]. *)
Definition pin {A} `{EqDecision A} (slot : option A) (x : A) : option (option A) :=
  match slot with
  | Some existing => if decide (existing = x) then Some (Some x) else None
  | None => Some (Some x)
  end.

(** A monomial: coefficient bits, degree, variable and literal domain. *)
Record monomial := mkMonomial {
  mono_coeff : Z; mono_degree : Z; mono_var : option string; mono_kind : option IntKind;
}.

Definition mul_factor (acc : monomial) (factor : Expr) : option monomial :=
  match factor with
  | Expr.LitU32 v =>
      k ← pin (mono_kind acc) KU32;
      Some (mkMonomial (wrapu 32 (mono_coeff acc * v)) (mono_degree acc) (mono_var acc) k)
  | Expr.LitI32 v =>
      k ← pin (mono_kind acc) KI32;
      Some (mkMonomial (wrapu 32 (mono_coeff acc * wrapu 32 v)) (mono_degree acc) (mono_var acc) k)
  | Expr.Var name =>
      x ← pin (mono_var acc) name;
      Some (mkMonomial (mono_coeff acc) (mono_degree acc + 1) x (mono_kind acc))
  | _ => None
  end.
Fixpoint mul_factors (acc : monomial) (factors : list Expr) : option monomial :=
  match factors with
  | [] => Some acc
  | f :: factors => acc ← mul_factor acc f; mul_factors acc factors
  end.

Definition monomial_int_term (e : Expr) : option monomial :=
  match e with
  | Expr.LitU32 v => Some (mkMonomial v 0 None (Some KU32))
  | Expr.LitI32 v => Some (mkMonomial (wrapu 32 v) 0 None (Some KI32))
  | Expr.Var name => Some (mkMonomial 1 1 (Some name) None)
  | _ =>
      let factors := collect_mul_factors e in
      if (length factors <? 2)%nat then None
      else mul_factors (mkMonomial 1 0 None None) factors
  end.

Record polynomial := mkPolynomial {
  poly_coeffs : list (option Z); poly_var : option string; poly_kind : option IntKind;
}.

Definition pin_opt {A} `{EqDecision A} (slot x : option A) : option (option A) :=
  match x with Some x => pin slot x | None => Some slot end.

Definition add_term (acc : polynomial) (term : Expr) : option polynomial :=
  mono ← monomial_int_term term;
  if MAX_HORNER_DEGREE <? mono_degree mono then None
  else
    var ← pin_opt (poly_var acc) (mono_var mono);
    kind ← pin_opt (poly_kind acc) (mono_kind mono);
    let idx := Z.to_nat (mono_degree mono) in
    let coeffs := if (length (poly_coeffs acc) <=? idx)%nat
                  then poly_coeffs acc ++ replicate (idx + 1 - length (poly_coeffs acc)) None
                  else poly_coeffs acc in
    match coeffs !! idx with
    | Some None => Some (mkPolynomial (<[idx := Some (mono_coeff mono)]> coeffs) var kind)
    | _ => None
    end.
Fixpoint add_terms (acc : polynomial) (terms : list Expr) : option polynomial :=
  match terms with
  | [] => Some acc
  | t :: terms => acc ← add_term acc t; add_terms acc terms
  end.

(** The fold from the highest coefficient down; [rest] lists the lower ones, highest
    first. *)
Fixpoint horner_fold (k : IntKind) (x : Expr) (acc : Expr) (rest : list (option Z)) : Expr :=
  match rest with
  | [] => acc
  | c :: rest =>
      let acc := mul acc x in
      let coeff := default 0 c in
      horner_fold k x (if negb (coeff =? 0) then add acc (kind_lit k coeff) else acc) rest
  end.

Definition horner_polynomial_int (e : Expr) : option Expr :=
  let terms := collect_add_terms e in
  if (length terms <? 2)%nat then None
  else
    poly ← add_terms (mkPolynomial [] None None) terms;
    kind ← poly_kind poly;
    let max_degree := (length (poly_coeffs poly) - 1)%nat in
    if (max_degree <? 2)%nat then None
    else
      var ← poly_var poly;
      match rev (poly_coeffs poly) with
      | [] => None
      | top :: rest => Some (horner_fold kind (Expr.Var var) (kind_lit kind (default 0 top)) rest)
      end.

(** ** Float rules *)

Definition mul_terms (e : Expr) : option (Expr * Expr) :=
  match e with Expr.BinOp BinOp.Mul l r => Some (l, r) | _ => None end.
Definition negated_mul_terms (e : Expr) : option (Expr * Expr) :=
  match e with Expr.UnOp UnOp.Negate x => mul_terms x | _ => None end.

(** [if let Some((a, b)) = terms { if is_float_expr(other) { return Some(..) } }]. *)
Definition fma_when (terms : option (Expr * Expr)) (other : Expr) (k : Expr -> Expr -> Expr) : option Expr :=
  '(a, b) ← terms; if is_float_expr other then Some (k a b) else None.

Definition synthesize_fma_add (left right : Expr) : option Expr :=
  fma_when (mul_terms left) right (fun a b => Expr.Fma a b right)
  <|> fma_when (mul_terms right) left (fun a b => Expr.Fma a b left)
  <|> fma_when (negated_mul_terms left) right (fun a b => Expr.Fma (negate a) b right)
  <|> fma_when (negated_mul_terms right) left (fun a b => Expr.Fma (negate a) b left).
Definition synthesize_fma_sub (left right : Expr) : option Expr :=
  fma_when (mul_terms left) right (fun a b => Expr.Fma a b (negate right))
  <|> fma_when (mul_terms right) left (fun a b => Expr.Fma (negate a) b left).

Definition reciprocal_constant_fold (left right : Expr) : option Expr :=
  match left, right with
  | Expr.LitF32 one, Expr.LitF32 c =>
      if (one =? F32_ONE) && negb (Z.land c 0x7FFFFFFF =? 0) && f32_is_finite c
      then Some (Expr.LitF32 (f32_recip c)) else None
  | _, _ => None
  end.

(** ** The rewrite table *)

Definition when (b : bool) (e : Expr) : option Expr := if b then Some e else None.

Definition negative_i32 (c x : Expr) : option Expr :=
  match c with
  | Expr.LitI32 c => when ((c <? -1) && negb (c =? I32_MIN)) (negate (mul x (Expr.LitI32 (- c))))
  | _ => None
  end.

Definition reduce_mul (l r : Expr) : option Expr :=
  when (is_u32 0 r) (lit 0)
  <|> when (is_u32 0 l) (lit 0)
  <|> when (is_u32 1 r) l
  <|> when (is_u32 1 l) r
  <|> (k ← power_of_two_shift r; Some (shl l (lit k)))
  <|> (k ← power_of_two_shift l; Some (shl r (lit k)))
  <|> shift_add_decompose l r
  <|> shift_add_decompose r l
  <|> negative_i32 r l
  <|> negative_i32 l r
  <|> when (is_f32 F32_TWO r) (add l l)
  <|> when (is_f32 F32_TWO l) (add r r)
  <|> when (is_f32 F32_ONE r) l
  <|> when (is_f32 F32_ONE l) r.

Definition reduce_div (l r : Expr) : option Expr :=
  reciprocal_constant_fold l r
  <|> when (is_f32 F32_ONE l && negb (match r with Expr.LitF32 _ => true | _ => false end))
        (Expr.UnOp UnOp.Reciprocal r)
  <|> match r with
      | Expr.LitU32 d =>
          if d =? 1 then Some l
          else if is_power_of_two d then Some (shr l (lit (trailing_zeros_u32 d)))
          else if 1 <? d then granlund_montgomery_div l d
          else None
      | Expr.LitF32 v =>
          if lit_f32_eq v F32_TWO then Some (mul l (Expr.LitF32 F32_HALF))
          else if lit_f32_eq v F32_ONE then Some l
          else if f32_is_finite v && f32_nonzero v then Some (mul l (Expr.LitF32 (f32_recip v)))
          else None
      | _ => None
      end.

Definition reduce_mod (l r : Expr) : option Expr :=
  match r with
  | Expr.LitU32 d =>
      if d =? 1 then Some (lit 0)
      else if is_power_of_two d then Some (Expr.BinOp BinOp.BitAnd l (lit (d - 1)))
      else q ← granlund_montgomery_div l d; Some (sub l (mul q (lit d)))
  | _ => None
  end.

Definition reduce_add (l r : Expr) : option Expr :=
  synthesize_fma_add l r
  <|> when (is_f32_zero r) l
  <|> when (is_f32_zero l) r
  <|> when (is_u32 0 r) l
  <|> when (is_u32 0 l) r
  <|> match r with Expr.UnOp UnOp.Negate y => Some (sub l y) | _ => None end
  <|> match l with Expr.UnOp UnOp.Negate x => Some (sub r x) | _ => None end.

Definition reduce_sub (l r : Expr) : option Expr :=
  synthesize_fma_sub l r
  <|> when (is_f32_zero r) l
  <|> when (is_u32 0 r) l
  <|> match r with Expr.UnOp UnOp.Negate y => Some (add l y) | _ => None end.

Definition reduce_shift (op : BinOp) (l r : Expr) : option Expr :=
  when (match l with Expr.LitU32 v | Expr.LitI32 v => v =? 0 | _ => false end) l
  <|> when (is_u32 0 r) l
  <|> match l, r with
      | Expr.BinOp inner x (Expr.LitU32 a), Expr.LitU32 b =>
          when (bool_decide (inner = op)) (Expr.BinOp op x (lit (Z.min (saturating_add a b) 31)))
      | _, _ => None
      end.

(** [x op ~x] and [~x op x]. *)
Definition complement (l r : Expr) (result : Z) : option Expr :=
  match r with Expr.UnOp UnOp.BitNot x => when (expr_eq x l) (lit result) | _ => None end
  <|> match l with Expr.UnOp UnOp.BitNot x => when (expr_eq x r) (lit result) | _ => None end.

Definition reduce_expr (e : Expr) : option Expr :=
  horner_polynomial_int e
  <|> match e with
      | Expr.BinOp op l r =>
          match op with
          | BinOp.Mul => reduce_mul l r
          | BinOp.Div => reduce_div l r
          | BinOp.Mod => reduce_mod l r
          | BinOp.Add => reduce_add l r
          | BinOp.Sub => reduce_sub l r
          | BinOp.Shl | BinOp.Shr => reduce_shift op l r
          | BinOp.BitAnd => complement l r 0
          | BinOp.BitOr | BinOp.BitXor => complement l r U32_MAX
          | BinOp.RotateLeft | BinOp.RotateRight => when (is_u32 0 r || is_u32 32 r) l
          | BinOp.AbsDiff => when (expr_eq l r) (lit 0)
          | BinOp.Min =>
              when (is_u32 0 r || is_u32 0 l) (lit 0)
              <|> when (is_u32 U32_MAX r) l <|> when (is_u32 U32_MAX l) r
          | BinOp.Max =>
              when (is_u32 0 r) l <|> when (is_u32 0 l) r
              <|> when (is_u32 U32_MAX r || is_u32 U32_MAX l) (lit U32_MAX)
          | BinOp.Lt => when (is_u32 0 r) (Expr.LitBool false)
          | BinOp.Ge => when (is_u32 0 r) (Expr.LitBool true)
          | BinOp.Gt => when (is_u32 0 l) (Expr.LitBool false)
          | BinOp.Le => when (is_u32 0 l) (Expr.LitBool true)
          | _ => None
          end
      | _ => None
      end.
