(* ===== verification/StrengthReduceSound.v ===== *)
(** The integer rules of the strength-reduction table are sound.

    Rewritten expressions are compared with the originals in the evaluator of the
    reference interpreter ([RefEval]): the division sequence, the shift-add chains,
    Horner form, and every rule of the table on unsigned operands. *)

From stdpp Require Import sorting.
From S2P Require Import Prelude Float Spec IR RefValue RefMemory RefEval DivMagic StrengthReduce.

(** ** Powers of two *)

Lemma is_power_of_two_log2 v : is_power_of_two v = true -> v = 2 ^ Z.log2 v.
Proof.
  unfold is_power_of_two. intros [Hpos Hland]%andb_true_iff.
  apply Z.ltb_lt in Hpos. apply Z.eqb_eq in Hland.
  destruct (Z.log2_spec v Hpos) as [Hlo Hhi]. pose proof (Z.log2_nonneg v).
  destruct (Z.eq_dec v (2 ^ Z.log2 v)) as [|Hne]; [done|exfalso].
  assert (Z.log2 (v - 1) = Z.log2 v) as E by (apply Z.log2_unique; lia).
  pose proof (Z.bit_log2 v Hpos) as B1.
  pose proof (Z.bit_log2 (v - 1) ltac:(lia)) as B2. rewrite E in B2.
  assert (Z.testbit (Z.land v (v - 1)) (Z.log2 v) = true) as B by (rewrite Z.land_spec, B1, B2; done).
  by rewrite Hland, Z.bits_0 in B.
Qed.
Lemma trailing_zeros_pow2 k : 0 <= k < 32 -> trailing_zeros_u32 (2 ^ k) = k.
Proof.
  intros Hk. apply Z.eqb_eq.
  by apply (range_forall (fun k => trailing_zeros_u32 (2 ^ k) =? k) 32).
Qed.
Lemma power_of_two_spec v : inu 32 v -> is_power_of_two v = true ->
  0 <= trailing_zeros_u32 v < 32 /\ v = 2 ^ trailing_zeros_u32 v.
Proof.
  intros Hv H. pose proof (is_power_of_two_log2 v H) as E.
  assert (0 < v) by (unfold is_power_of_two in H; lia).
  assert (0 <= Z.log2 v < 32) as Hk.
  { split; [apply Z.log2_nonneg|]. apply Z.log2_lt_pow2; [done|]. apply Hv. }
  rewrite E at 1 2 4. by rewrite trailing_zeros_pow2.
Qed.

(** ** Reduction modulo [2^32] *)

Lemma wrapu_add_l a b : wrapu 32 (wrapu 32 a + b) = wrapu 32 (a + b).
Proof. apply Zplus_mod_idemp_l. Qed.
Lemma wrapu_add_r a b : wrapu 32 (a + wrapu 32 b) = wrapu 32 (a + b).
Proof. apply Zplus_mod_idemp_r. Qed.
Lemma wrapu_sub_l a b : wrapu 32 (wrapu 32 a - b) = wrapu 32 (a - b).
Proof. apply Zminus_mod_idemp_l. Qed.
Lemma wrapu_sub_r a b : wrapu 32 (a - wrapu 32 b) = wrapu 32 (a - b).
Proof. apply Zminus_mod_idemp_r. Qed.
Lemma wrapu_mul_l a b : wrapu 32 (wrapu 32 a * b) = wrapu 32 (a * b).
Proof. apply Zmult_mod_idemp_l. Qed.
Lemma wrapu_mul_r a b : wrapu 32 (a * wrapu 32 b) = wrapu 32 (a * b).
Proof. apply Zmult_mod_idemp_r. Qed.
Lemma wrapu_wrapu a : wrapu 32 (wrapu 32 a) = wrapu 32 a.
Proof. apply Zmod_mod. Qed.
Create Rewrite HintDb wrapu.
#[export] Hint Rewrite wrapu_add_l wrapu_add_r wrapu_sub_l wrapu_sub_r wrapu_mul_l wrapu_mul_r
  wrapu_wrapu : wrapu.
(** Equations between wrapped sums: drop the inner reductions. *)
Ltac wrapu_ring := autorewrite with wrapu; f_equal; ring.

(** ** Non-adjacent form *)

Definition term_value (t : SignedShiftTerm) : Z :=
  (if 0 <? term_sign t then 1 else -1) * 2 ^ term_shift t.
Definition terms_value (l : list SignedShiftTerm) : Z := foldr (fun t s => term_value t + s) 0 l.
Lemma terms_value_app l k : terms_value (l ++ k) = terms_value l + terms_value k.
Proof. unfold terms_value. induction l as [|t l IH]; cbn [app foldr]; lia. Qed.
#[local] Instance terms_value_perm : Proper (Permutation ==> eq) terms_value.
Proof. unfold terms_value. induction 1; cbn [foldr]; lia. Qed.

Lemma land_1 n : Z.land n 1 = n mod 2.
Proof. by apply (land_mask 1). Qed.

(** An odd [n] becomes an even number of the same value modulo [2^32], up to the digit. *)
Lemma naf_digit n (sign : Z) n' : 0 < n < 2 ^ 32 -> n mod 2 = 1 ->
  sign = (if (Z.land n 3 =? 1) || (n =? 1) then 1 else -1) ->
  n' = (if 0 <? sign then n - 1 else wrapping_add n 1) ->
  n' mod 2 = 0 /\ 0 <= n' <= n + 1 /\ n' < 2 ^ 32 /\ (n = 1 -> n' = 0)
  /\ wrapu 32 n' = wrapu 32 (n - (if 0 <? sign then 1 else -1)).
Proof.
  intros Hn Hodd -> ->. destruct ((Z.land n 3 =? 1) || (n =? 1)) eqn:E.
  - change (0 <? 1) with true. cbv iota. split; [Z.div_mod_to_equations; lia|]. repeat split; lia.
  - change (0 <? -1) with false. cbv iota. unfold wrapping_add.
    pose proof (wrapu_range 32 (n + 1) ltac:(lia)) as Hr. unfold inu in Hr.
    split; [unfold wrapu; clear Hr E; Z.div_mod_to_equations; lia|].
    split; [split; [lia|unfold wrapu; apply Z.mod_le; lia]|]. split; [lia|].
    split; [intros ->; discriminate E|]. by rewrite wrapu_wrapu.
Qed.
(** [naf_terms] terminates, and its digits add up to the constant. *)
Lemma naf_loop_spec fuel : forall n shift terms, 0 <= n < 2 ^ 32 -> n <= 2 ^ (Z.of_nat fuel - 1) ->
  0 <= shift -> Forall (fun t => 0 <= term_shift t) terms ->
  exists terms', naf_loop fuel n shift terms = Some terms'
    /\ Forall (fun t => 0 <= term_shift t) terms'
    /\ wrapu 32 (terms_value terms') = wrapu 32 (terms_value terms + n * 2 ^ shift).
Proof.
  induction fuel as [|fuel IH]; intros n shift terms Hn Hf Hs Ht; cbn [naf_loop];
    (destruct (Z.leb_spec n 0); [exists terms; split; [done|]; split; [done|]; f_equal; lia|]).
  - change (2 ^ (Z.of_nat 0 - 1)) with 0 in Hf. lia.
  - assert (forall n', n' mod 2 = 0 -> 0 <= n' <= n + 1 -> n' < 2 ^ 32 -> (n = 1 -> n' = 0) ->
      Z.shiftr n' 1 * 2 = n' /\ 0 <= Z.shiftr n' 1 < 2 ^ 32
      /\ Z.shiftr n' 1 <= 2 ^ (Z.of_nat fuel - 1)) as Hhalf.
    { intros n' He Hb Hlt H1. rewrite Z.shiftr_div_pow2 by done. change (2 ^ 1) with 2.
      assert (n' / 2 * 2 = n') as E by (Z.div_mod_to_equations; lia).
      split; [done|]. split; [lia|]. destruct fuel as [|fuel].
      { change (2 ^ (Z.of_nat 1 - 1)) with 1 in Hf. change (2 ^ (Z.of_nat 0 - 1)) with 0. lia. }
      replace (Z.of_nat (S (S fuel)) - 1) with (1 + (Z.of_nat (S fuel) - 1)) in Hf by lia.
      rewrite Z.pow_add_r in Hf by lia. change (2 ^ 1) with 2 in Hf. lia. }
    rewrite land_1. destruct (Z.eqb_spec (n mod 2) 0) as [He|Ho].
    + destruct (Hhalf n) as (E & Hr & Hb); [done|lia|lia|by intros ->|].
      destruct (IH (Z.shiftr n 1) (shift + 1) terms) as (terms' & -> & Ht' & Hv); [done..|lia|done|].
      exists terms'. split; [done|]. split; [done|]. rewrite Hv. f_equal.
      rewrite Z.pow_add_r by lia. lia.
    + set (sign := if _ || _ then 1 else -1). set (n' := if 0 <? sign then _ else _).
      destruct (naf_digit n sign n') as (He & Hb & Hlt & H1 & Hw);
        [lia|pose proof (Z.mod_pos_bound n 2); lia|done..|].
      destruct (Hhalf n') as (E & Hr & Hb'); [done..|].
      destruct (IH (Z.shiftr n' 1) (shift + 1) (terms ++ [mkTerm shift sign]))
        as (terms' & -> & Ht' & Hv); [done|done|lia| |].
      { apply Forall_app; split; [done|]. constructor; [done|constructor]. }
      exists terms'. split; [done|]. split; [done|]. rewrite Hv, terms_value_app.
      cbn [terms_value foldr]. unfold term_value. cbn [term_sign term_shift].
      replace (Z.shiftr n' 1 * 2 ^ (shift + 1)) with (n' * 2 ^ shift)
        by (rewrite Z.pow_add_r by lia; lia).
      rewrite <- wrapu_add_r, <- (wrapu_mul_l n'), Hw, wrapu_mul_l, wrapu_add_r. f_equal. ring.
Qed.
Lemma naf_terms_total c : 0 <= c < 2 ^ 32 ->
  exists terms, naf_terms c = Some terms /\ Forall (fun t => 0 <= term_shift t) terms
    /\ wrapu 32 (terms_value terms) = c.
Proof.
  intros Hc. destruct (naf_loop_spec 33 c 0 []) as (terms & E & Ht & Hv); [done|cbn; lia|done..|].
  exists terms. split; [done|]. split; [done|]. rewrite Hv. cbn [terms_value foldr].
  rewrite wrapu_id; [lia|]. width_lia.
Qed.

(** Every digit of the constant fits the word. *)
Definition naf_in_width (c : Z) : bool :=
  match naf_terms c with Some l => forallb (fun t => term_shift t <? 32) l | None => true end.

(** A word and its complement. *)
Lemma wrapu_lnot a : inu 32 a -> wrapu 32 (Z.lnot a) = U32_MAX - a.
Proof.
  intros Ha. unfold wrapu, Z.lnot. symmetry. apply (Z.mod_unique_pos _ _ (-1)); width_lia.
Qed.
Lemma complement_bits a i : inu 32 a -> 0 <= i ->
  Z.testbit (U32_MAX - a) i = (i <? 32) && negb (Z.testbit a i).
Proof.
  intros Ha Hi. rewrite <- wrapu_lnot by done. unfold wrapu.
  destruct (Z.ltb_spec i 32); cbn [andb].
  - by rewrite Z.mod_pow2_bits_low, Z.lnot_spec by lia.
  - by rewrite Z.mod_pow2_bits_high by lia.
Qed.
Lemma testbit_out a i : inu 32 a -> 32 <= i -> Z.testbit a i = false.
Proof. intros Ha Hi. rewrite <- (wrapu_id 32 a Ha). by apply Z.mod_pow2_bits_high. Qed.
Lemma complement_ops a : inu 32 a ->
  Z.land a (U32_MAX - a) = 0 /\ Z.lor a (U32_MAX - a) = U32_MAX /\ Z.lxor a (U32_MAX - a) = U32_MAX.
Proof.
  intros Ha. split_and!; apply Z.bits_inj'; intros i Hi;
    rewrite ?Z.land_spec, ?Z.lor_spec, ?Z.lxor_spec, complement_bits by done;
    change U32_MAX with (Z.ones 32); rewrite ?Z.bits_0, ?Z.testbit_ones_nonneg by lia;
    (destruct (Z.ltb_spec i 32); [by destruct (Z.testbit a i)|by rewrite testbit_out]).
Qed.

(** Expressions the generated [PartialEq] compares exactly: no float zero, no extension. *)
Fixpoint exact_eq (e : Expr) : bool :=
  match e with
  | Expr.LitF32 v => negb (f32_magnitude v =? 0)
  | Expr.Load _ i => exact_eq i
  | Expr.BinOp _ l r => exact_eq l && exact_eq r
  | Expr.UnOp _ x | Expr.Cast _ x | Expr.SubgroupBallot x | Expr.SubgroupAdd x => exact_eq x
  | Expr.Call _ args => forallb exact_eq args
  | Expr.Select a b c | Expr.Fma a b c => exact_eq a && exact_eq b && exact_eq c
  | Expr.Atomic _ _ i x v _ =>
      exact_eq i && match x with Some y => exact_eq y | None => true end && exact_eq v
  | Expr.SubgroupShuffle v l => exact_eq v && exact_eq l
  | Expr.Opaque _ => false
  | _ => true
  end.
Lemma expr_eq_exact a : forall b, exact_eq a = true -> expr_eq a b = true -> a = b.
Proof.
  induction a using Expr_ind'; intros b' Hx; destruct b'; cbn [expr_eq]; try discriminate;
    cbn [exact_eq] in Hx; try discriminate; rewrite ?andb_true_iff, ?bool_decide_eq_true in *;
    intros Heq; destruct_and?; subst; try (f_equal; auto; fail);
    try (f_equal; apply Z.eqb_eq; done).
  - unfold f32_eq in Heq. f_equal. lia.
  - f_equal. by apply Bool.eqb_prop.
  - f_equal. match goal with H : _ args _ = true |- _ => revert args0 H end.
    induction H as [|x xs Hx1 _ IH]; intros [|y ys]; try done. cbn [forallb] in Hx.
    apply andb_true_iff in Hx as [Hxa Hxb]. intros [H1 H2]%andb_true_iff. f_equal; auto.
  - f_equal; auto. destruct e, expected; cbn in *; try done. f_equal. auto.
Qed.

Lemma or_else_Some {A} (a b : option A) x : a <|> b = Some x -> a = Some x \/ b = Some x.
Proof. destruct a; cbn; auto. Qed.
Lemma when_Some b e x : when b e = Some x -> b = true /\ x = e.
Proof. destruct b; cbn; [|done]. by intros [= <-]. Qed.

(** ** Evaluation without effects *)

Section Sound.
Context (fe : FloatEnv) (dialect : option (string -> option OpDef)).
Context (inv : Invocation) (p : Program) (m : Memory).

Definition evals (e : Expr) (v : Value) : Prop := eval_rec fe dialect inv p e m = Ok (v, m).
Abbreviation u32 := Value.U32.

Lemma evals_u32_det e v w : evals e (u32 v) -> evals e (u32 w) -> v = w.
Proof. unfold evals. congruence. Qed.
Lemma evals_lit v : evals (lit v) (u32 v).
Proof. done. Qed.
Lemma eval_bin op l r a b : evals l a -> evals r b ->
  eval_rec fe dialect inv p (Expr.BinOp op l r) m
  = match eval_binop fe op a b with Ok v => Ok (v, m) | Err e => Err e end.
Proof.
  intros Hl Hr. unfold evals in *. cbn [eval_rec]. unfold mbind at 1, M_bind at 1. rewrite Hl.
  unfold mbind, M_bind. rewrite Hr. unfold lift. by destruct (eval_binop fe op a b).
Qed.
Lemma evals_bin op l r a b v : evals l a -> evals r b -> eval_binop fe op a b = Ok v ->
  evals (Expr.BinOp op l r) v.
Proof. intros Hl Hr Hv. unfold evals. by rewrite (eval_bin _ _ _ a b), Hv. Qed.

(** Shifts by less than the width. *)
Lemma shift_left_u32 a k : 0 <= k < 32 -> shift_u32 a k true = wrapu 32 (a * 2 ^ k).
Proof.
  intros Hk. unfold shift_u32. change 31 with (2 ^ 5 - 1).
  rewrite land_mask, Z.mod_small by lia. by rewrite Z.shiftl_mul_pow2 by lia.
Qed.
Lemma shift_right_u32 a k : 0 <= k < 32 -> shift_u32 a k false = a / 2 ^ k.
Proof.
  intros Hk. unfold shift_u32. change 31 with (2 ^ 5 - 1).
  rewrite land_mask, Z.mod_small by lia. by rewrite Z.shiftr_div_pow2 by lia.
Qed.

Lemma evals_add l r a b : evals l (u32 a) -> evals r (u32 b) ->
  evals (add l r) (u32 (wrapu 32 (a + b))).
Proof. intros. by eapply evals_bin. Qed.
Lemma evals_sub l r a b : evals l (u32 a) -> evals r (u32 b) ->
  evals (sub l r) (u32 (wrapu 32 (a - b))).
Proof. intros. by eapply evals_bin. Qed.
Lemma evals_mul l r a b : evals l (u32 a) -> evals r (u32 b) ->
  evals (mul l r) (u32 (wrapu 32 (a * b))).
Proof. intros. by eapply evals_bin. Qed.
Lemma evals_mulhi l r a b : evals l (u32 a) -> evals r (u32 b) ->
  evals (Expr.BinOp BinOp.MulHigh l r) (u32 (a * b / 2 ^ 32)).
Proof.
  intros. eapply evals_bin; [done..|]. cbn [eval_binop u32_shared_binop].
  by rewrite Z.shiftr_div_pow2.
Qed.
Lemma evals_shl x a k : evals x (u32 a) -> 0 <= k < 32 ->
  evals (shl x (lit k)) (u32 (wrapu 32 (a * 2 ^ k))).
Proof.
  intros Hx Hk. eapply evals_bin; [done|apply evals_lit|]. by rewrite <- shift_left_u32.
Qed.
Lemma evals_shr x a k : evals x (u32 a) -> 0 <= k < 32 ->
  evals (shr x (lit k)) (u32 (a / 2 ^ k)).
Proof.
  intros Hx Hk. eapply evals_bin; [done|apply evals_lit|]. by rewrite <- shift_right_u32.
Qed.

(** A shift by [k], left out when [k] is zero. *)
Lemma evals_shr_opt x a k : evals x (u32 a) -> 0 <= k < 32 ->
  exists e, (if k =? 0 then Some x else Some (shr x (lit k))) = Some e /\ evals e (u32 (a / 2 ^ k)).
Proof.
  intros Hx Hk. destruct (Z.eqb_spec k 0) as [->|]; eexists; (split; [done|]).
  - by rewrite Z.div_1_r.
  - by apply evals_shr.
Qed.

(** The emitted division sequence. *)
Lemma granlund_montgomery_sound x d n : 1 < d <= U32_MAX -> is_power_of_two d = false ->
  inu 32 n -> evals x (u32 n) ->
  exists e, granlund_montgomery_div x d = Some e /\ evals e (u32 (n / d)).
Proof.
  intros Hd Hp Hin Hx. unfold granlund_montgomery_div. rewrite Hp, (proj2 (Z.leb_gt d 1)) by lia.
  assert (d <> 2 ^ 31 /\ d <> 2) as [Hd31 Hd2] by (split; intros ->; discriminate).
  destruct (compute_div_magic_spec d) as (g & -> & Hg & Hn); [lia|done|].
  specialize (Hn n Hin). cbn [orb mbind option_bind]. set (t := n * magic g / 2 ^ 32) in *.
  assert (evals (Expr.BinOp BinOp.MulHigh x (lit (magic g))) (u32 t)) as Yt by by apply evals_mulhi.
  destruct (needs_fixup g).
  - destruct Hn as (Hs & Ht & <-). unfold saturating_sub. rewrite Z.max_r by lia.
    apply evals_shr_opt; [|lia]. unfold inu in Hin.
    replace (u32 (t + (n - t) / 2)) with (u32 (wrapu 32 (t + (n - t) / 2))).
    2: { f_equal. apply wrapu_id. pose proof (Z.div_pos (n - t) 2).
         pose proof (Z.div_le_upper_bound (n - t) 2 (n - t)). width_lia. }
    apply evals_add; [done|]. change 2 with (2 ^ 1) at 1. apply evals_shr; [|lia].
    replace (n - t) with (wrapu 32 (n - t)) by (apply wrapu_id; width_lia). by apply evals_sub.
  - destruct Hn as (Hs & <-). apply evals_shr_opt; [done|lia].
Qed.

(** Shift-add chains. *)
Lemma evals_shifted x a k : evals x (u32 a) -> inu 32 a -> 0 <= k < 32 ->
  evals (shifted_term x k) (u32 (wrapu 32 (a * 2 ^ k))).
Proof.
  intros Hx Ha Hk. unfold shifted_term. destruct (Z.eqb_spec k 0) as [->|].
  - by rewrite Z.mul_1_r, wrapu_id.
  - by apply evals_shl.
Qed.
Lemma chain_sound x a terms : evals x (u32 a) -> inu 32 a ->
  Forall (fun t => 0 <= term_shift t < 32) terms ->
  forall acc s, evals acc (u32 (wrapu 32 s)) ->
    evals (foldl (chain_step x) acc terms) (u32 (wrapu 32 (s + a * terms_value terms))).
Proof.
  intros Hx Ha. induction 1 as [|t terms Ht _ IH]; intros acc s Hacc.
  - cbn [foldl terms_value foldr]. by rewrite Z.mul_0_r, Z.add_0_r.
  - cbn [foldl terms_value foldr].
    replace (s + a * (term_value t + foldr (fun t s => term_value t + s) 0 terms))
      with (s + a * term_value t + a * terms_value terms) by (unfold terms_value; ring).
    apply IH. pose proof (evals_shifted x a (term_shift t) Hx Ha Ht) as Hrhs.
    unfold chain_step, term_value. destruct (0 <? term_sign t).
    + replace (wrapu 32 (s + a * (1 * 2 ^ term_shift t)))
        with (wrapu 32 (wrapu 32 s + wrapu 32 (a * 2 ^ term_shift t))) by wrapu_ring.
      by apply evals_add.
    + replace (wrapu 32 (s + a * (-1 * 2 ^ term_shift t)))
        with (wrapu 32 (wrapu 32 s - wrapu 32 (a * 2 ^ term_shift t))) by wrapu_ring.
      by apply evals_sub.
Qed.
Lemma shift_add_chain_sound x c a e : evals x (u32 a) -> inu 32 a -> 0 <= c < 2 ^ 32 ->
  naf_in_width c = true -> shift_add_chain x c = Some e -> evals e (u32 (wrapu 32 (a * c))).
Proof.
  intros Hx Ha Hc. destruct (naf_terms_total c Hc) as (terms & E & Ht & Hv).
  unfold naf_in_width, shift_add_chain. rewrite E. intros Hw.
  destruct (_ || _); [done|]. cbn [mbind option_bind].
  destruct (length terms <? 2)%nat; [done|]. destruct (_ <? _); [done|].
  assert (Forall (fun t => 0 <= term_shift t < 32) (merge_sort shift_ge terms)) as Hsorted.
  { rewrite merge_sort_Permutation. apply Forall_forall. intros t Hin.
    rewrite Forall_forall in Ht. rewrite forallb_forall in Hw.
    specialize (Ht t Hin). apply list_elem_of_In in Hin. specialize (Hw t Hin). lia. }
  rewrite <- (merge_sort_Permutation shift_ge terms) in Hv. revert Hsorted Hv.
  generalize (merge_sort shift_ge terms). intros [|first rest] Hsorted Hv [= <-].
  apply Forall_cons in Hsorted as [Hf Hrest].
  replace (wrapu 32 (a * c)) with (wrapu 32 (a * term_value first + a * terms_value rest)).
  2: { rewrite <- Hv, wrapu_mul_r. cbn [terms_value foldr]. unfold terms_value. f_equal. ring. }
  apply chain_sound; [done..|]. pose proof (evals_shifted x a (term_shift first) Hx Ha Hf).
  unfold term_value. destruct (0 <? term_sign first).
  - by rewrite Z.mul_1_l.
  - replace (wrapu 32 (a * (-1 * 2 ^ term_shift first)))
      with (wrapu 32 (0 - wrapu 32 (a * 2 ^ term_shift first))) by wrapu_ring.
    by apply evals_sub.
Qed.

Lemma find_sum_sound x c a his e : evals x (u32 a) -> inu 32 a -> 0 <= c < 2 ^ 32 ->
  Forall (fun h => 0 <= h <= 16) his ->
  find_sum x c his = Some e -> evals e (u32 (wrapu 32 (a * c))).
Proof.
  intros Hx Ha Hc. induction 1 as [|hi his Hhi _ IH]; cbn [find_sum]; [done|].
  destruct (_ || _) eqn:E; [done|]. intros [= <-].
  apply orb_false_iff in E as [E Hpow]. apply orb_false_iff in E as [E1 E2].
  apply negb_false_iff in Hpow. apply Z.ltb_ge in E1. assert (0 < 2 ^ hi) by lia.
  destruct (power_of_two_spec (c - 2 ^ hi)) as [Hk Hp]; [width_lia|done|].
  replace (wrapu 32 (a * c)) with (wrapu 32 (wrapu 32 (a * 2 ^ hi)
    + wrapu 32 (a * 2 ^ trailing_zeros_u32 (c - 2 ^ hi)))).
  2: { rewrite <- Hp. wrapu_ring. }
  apply evals_add; [apply evals_shl; [done|lia]|by apply evals_shifted].
Qed.
Lemma find_difference_sound x c a his e : evals x (u32 a) -> inu 32 a -> 0 <= c < 2 ^ 32 ->
  Forall (fun h => 0 <= h <= 16) his ->
  find_difference x c his = Some e -> evals e (u32 (wrapu 32 (a * c))).
Proof.
  intros Hx Ha Hc. induction 1 as [|hi his Hhi _ IH]; cbn [find_difference]; [done|].
  destruct (_ || _) eqn:E; [done|]. intros [= <-].
  apply orb_false_iff in E as [E1 E2]. apply negb_false_iff, andb_true_iff in E2 as [Hpow _].
  assert (2 ^ hi <= 2 ^ 16) by (apply Z.pow_le_mono_r; lia).
  destruct (power_of_two_spec (2 ^ hi - c)) as [Hk Hp]; [width_lia|done|].
  replace (wrapu 32 (a * c)) with (wrapu 32 (wrapu 32 (a * 2 ^ hi)
    - wrapu 32 (a * 2 ^ trailing_zeros_u32 (2 ^ hi - c)))).
  2: { rewrite <- Hp. wrapu_ring. }
  apply evals_sub; [apply evals_shl; [done|lia]|by apply evals_shifted].
Qed.
Lemma shift_add_decompose_sound x c a e : evals x (u32 a) -> inu 32 a -> inu 32 c ->
  naf_in_width c = true ->
  shift_add_decompose x (lit c) = Some e -> evals e (u32 (wrapu 32 (a * c))).
Proof.
  intros Hx Ha Hc Hw. unfold shift_add_decompose. cbn [positive_u32_constant mbind option_bind].
  destruct (_ || _); [done|].
  destruct (shift_add_chain x c) eqn:E1; cbn [or_else];
    [intros [= <-]; by eapply shift_add_chain_sound|].
  destruct (find_sum x c (exponents_from 1)) eqn:E2; cbn [or_else].
  - intros [= <-]. eapply find_sum_sound; [done..| |done].
    by apply (bool_decide_unpack _).
  - apply find_difference_sound; [done..|]. by apply (bool_decide_unpack _).
Qed.

(** ** Polynomials

    [denotes k v z]: the value [v] of kind [k] has the bits of [z] modulo [2^32]. *)
Definition denotes (k : IntKind) (v : Value) (z : Z) : Prop :=
  match k, v with
  | KU32, Value.U32 x => wrapu 32 x = wrapu 32 z
  | KI32, Value.I32 x => wrapu 32 x = wrapu 32 z
  | _, _ => False
  end.
Definition kval (k : IntKind) (z : Z) : Value :=
  match k with KU32 => Value.U32 (wrapu 32 z) | KI32 => Value.I32 (wraps 32 z) end.

Lemma kval_denotes k z : denotes k (kval k z) z.
Proof. destruct k; cbn; [apply wrapu_wrapu|by apply wrapu_wraps]. Qed.
Lemma kval_ext k a b : wrapu 32 a = wrapu 32 b -> kval k a = kval k b.
Proof.
  intros E. destruct k; cbn; f_equal; [done|].
  by rewrite <- (wraps_wrapu 32 a), E, wraps_wrapu by done.
Qed.
Lemma denotes_ext k v a b : wrapu 32 a = wrapu 32 b -> denotes k v a -> denotes k v b.
Proof. intros E. destruct k, v; cbn; congruence. Qed.
Lemma kind_lit_denotes k c : exists v, evals (kind_lit k c) v /\ denotes k v c.
Proof.
  destruct k; eexists; (split; [reflexivity|]); cbn [denotes]; [done|]. by apply wrapu_wraps.
Qed.

Definition arith_op (op : BinOp) (f : Z -> Z -> Z) : Prop :=
  (op = BinOp.Add /\ f = Z.add) \/ (op = BinOp.Mul /\ f = Z.mul).
Lemma arith_wrapu op f a b : arith_op op f ->
  wrapu 32 (f (wrapu 32 a) (wrapu 32 b)) = wrapu 32 (f a b).
Proof. intros [[-> ->]|[-> ->]]; by autorewrite with wrapu. Qed.

(** The arithmetic operators compute on bits, whatever the kind. *)
Lemma arith_denotes op f k a b za zb : arith_op op f -> denotes k a za -> denotes k b zb ->
  eval_binop fe op a b = Ok (kval k (f za zb)).
Proof.
  intros Hop Ha Hb.
  assert (exists x y, wrapu 32 x = wrapu 32 za /\ wrapu 32 y = wrapu 32 zb
    /\ eval_binop fe op a b = Ok (kval k (f x y))) as (x & y & Hx & Hy & ->).
  { destruct k, a as [x|x|x|x|x|x|x], b as [y|y|y|y|y|y|y]; try done; exists x, y;
      (split; [done|]); (split; [done|]); destruct Hop as [[-> ->]|[-> ->]]; done. }
  f_equal. apply kval_ext. rewrite <- (arith_wrapu op f x y Hop), Hx, Hy.
  by apply (arith_wrapu op f).
Qed.
Lemma arith_inv op f k a b v z : arith_op op f -> eval_binop fe op a b = Ok v -> denotes k v z ->
  exists za zb, denotes k a za /\ denotes k b zb /\ wrapu 32 z = wrapu 32 (f za zb).
Proof.
  intros Hop Hv Hz.
  assert (exists za zb, denotes k a za /\ denotes k b zb) as (za & zb & Ha & Hb).
  { destruct Hop as [[-> ->]|[-> ->]]; destruct a as [x|x|x|x|x|x|x], b as [y|y|y|y|y|y|y];
      try discriminate Hv; revert Hv Hz; unfold eval_binop, binop_f32;
      apply (ok_elim (fun v => denotes k v z -> _)); destruct k; try done; intros _; by exists x, y. }
  exists za, zb. split; [done|]. split; [done|].
  rewrite (arith_denotes op f k a b za zb) in Hv by done. injection Hv as <-.
  pose proof (kval_denotes k (f za zb)) as Hk. destruct k; cbn in *; congruence.
Qed.
Lemma eval_bin_inv op l r v m' : eval_rec fe dialect inv p (Expr.BinOp op l r) m = Ok (v, m') ->
  exists a m1 b, eval_rec fe dialect inv p l m = Ok (a, m1)
    /\ eval_rec fe dialect inv p r m1 = Ok (b, m') /\ eval_binop fe op a b = Ok v.
Proof.
  cbn [eval_rec]. unfold mbind, M_bind, lift.
  destruct (eval_rec fe dialect inv p l m) as [[a m1]|]; [|done].
  destruct (eval_rec fe dialect inv p r m1) as [[b m2]|] eqn:E; [|done].
  destruct (eval_binop fe op a b) as [w|] eqn:Ev; [|done]. intros [= <- <-]. eauto 10.
Qed.

(** The integer a variable holds. *)
Definition xval (o : option string) : Z :=
  match o ≫= local inv with Some (Value.U32 x) | Some (Value.I32 x) => x | _ => 0 end.
(** Every pinned variable holds a value of the kind, and every pinned kind is [k]. *)
Definition pinned (k : IntKind) (var : option string) (kind : option IntKind) : Prop :=
  (forall n, var = Some n -> exists v, evals (Expr.Var n) v /\ denotes k v (xval var))
  /\ (forall k', kind = Some k' -> k' = k).

Lemma var_denotes n v z k m' : eval_rec fe dialect inv p (Expr.Var n) m = Ok (v, m') ->
  denotes k v z ->
  m' = m /\ evals (Expr.Var n) v /\ denotes k v (xval (Some n))
  /\ wrapu 32 (xval (Some n)) = wrapu 32 z.
Proof.
  intros H Hz. assert (local inv n = Some v /\ m' = m) as [Hl ->].
  { revert H. cbn [eval_rec]. unfold lift, eval_var. destruct (local inv n); cbn; [|done].
    by intros [= -> ->]. }
  split; [done|]. split; [done|]. unfold xval. cbn [mbind option_bind]. rewrite Hl.
  destruct k, v; try done.
Qed.

Definition mono_value (o : monomial) : Z := mono_coeff o * xval (mono_var o) ^ mono_degree o.
Definition mono_inv (k : IntKind) (o : monomial) : Prop :=
  pinned k (mono_var o) (mono_kind o) /\ 0 <= mono_degree o
  /\ (mono_var o = None -> mono_degree o = 0).

Lemma pinned_kind k var kind kind' : pinned k var kind -> pin kind k = Some kind' -> pinned k var kind'.
Proof.
  intros [Hv Hk]. unfold pin. destruct kind as [k'|]; [destruct (decide (k' = k))|];
    intros [= <-]; (split; [done|]); by intros ? [= <-].
Qed.
Lemma pinned_var k var kind n var' v z m' : pinned k var kind -> pin var n = Some var' ->
  eval_rec fe dialect inv p (Expr.Var n) m = Ok (v, m') -> denotes k v z ->
  m' = m /\ pinned k var' kind /\ var' = Some n /\ (var = None \/ var = Some n)
  /\ wrapu 32 (xval var') = wrapu 32 z.
Proof.
  intros [Hv Hk] Hpin He Hz. destruct (var_denotes n v z k m' He Hz) as (-> & Hy & Hd & Hx).
  assert (var' = Some n /\ (var = None \/ var = Some n)) as [-> Hvar].
  { revert Hpin. unfold pin. destruct var as [n'|]; [destruct (decide (n' = n)) as [->|]|];
      intros [= <-]; auto. }
  split; [done|]. split; [|done]. split; [|done]. intros n' [= <-]. by exists v.
Qed.

Lemma wrapu_pow a b n : 0 <= n -> wrapu 32 a = wrapu 32 b -> wrapu 32 (a ^ n) = wrapu 32 (b ^ n).
Proof.
  intros Hn E. revert n Hn. apply natlike_ind; [done|]. intros n Hn IH.
  rewrite !Z.pow_succ_r by done. rewrite <- wrapu_mul_l, <- wrapu_mul_r, E, IH. by autorewrite with wrapu.
Qed.

Lemma mul_factor_sound k acc acc' f v z m' : mono_inv k acc -> mul_factor acc f = Some acc' ->
  eval_rec fe dialect inv p f m = Ok (v, m') -> denotes k v z ->
  m' = m /\ mono_inv k acc' /\ wrapu 32 (mono_value acc') = wrapu 32 (mono_value acc * z).
Proof.
  intros (Hp & Hd & Hn) Hf He Hz. destruct f; try discriminate Hf; cbn [mul_factor] in Hf.
  - apply bind_Some in Hf as (kind & Hpin & [= <-]). injection He as <- <-.
    destruct k; [|done]. cbn [denotes] in Hz.
    split; [done|]. split; [split; [by eapply pinned_kind|done]|].
    unfold mono_value. cbn [mono_coeff mono_var mono_degree]. rewrite wrapu_mul_l.
    rewrite <- (wrapu_mul_r _ z), <- Hz. autorewrite with wrapu. f_equal. ring.
  - apply bind_Some in Hf as (kind & Hpin & [= <-]). injection He as <- <-.
    destruct k; [done|]. cbn [denotes] in Hz.
    split; [done|]. split; [split; [by eapply pinned_kind|done]|].
    unfold mono_value. cbn [mono_coeff mono_var mono_degree].
    rewrite <- (wrapu_mul_r _ z), <- Hz. autorewrite with wrapu. f_equal. ring.
  - apply bind_Some in Hf as (var & Hpin & [= <-]).
    destruct (pinned_var k _ _ _ _ v z m' Hp Hpin He Hz) as (-> & Hp' & -> & Hvar & Hx).
    split; [done|]. split; [split; [done|]; cbn; split; [lia|done]|].
    unfold mono_value. cbn [mono_coeff mono_var mono_degree].
    rewrite Z.pow_add_r, Z.pow_1_r by lia. rewrite <- (wrapu_mul_r _ z), <- Hx.
    autorewrite with wrapu. f_equal.
    destruct Hvar as [E|E]; [rewrite E in *; rewrite Hn by done; cbn [Z.pow Z.pow_pos]|rewrite E]; ring.
Qed.

Lemma mul_factors_app acc l1 l2 :
  mul_factors acc (l1 ++ l2) = mul_factors acc l1 ≫= fun acc => mul_factors acc l2.
Proof.
  revert acc. induction l1 as [|f l1 IH]; intros acc; cbn [app mul_factors]; [done|].
  destruct (mul_factor acc f); cbn [mbind option_bind]; [apply IH|done].
Qed.

Lemma mul_tree_sound e : forall k acc acc' v z m', mono_inv k acc ->
  mul_factors acc (collect_mul_factors e) = Some acc' ->
  eval_rec fe dialect inv p e m = Ok (v, m') -> denotes k v z ->
  m' = m /\ mono_inv k acc' /\ wrapu 32 (mono_value acc') = wrapu 32 (mono_value acc * z).
Proof.
  assert (forall e k acc acc' v z m', mono_inv k acc -> mul_factors acc [e] = Some acc' ->
    eval_rec fe dialect inv p e m = Ok (v, m') -> denotes k v z ->
    m' = m /\ mono_inv k acc' /\ wrapu 32 (mono_value acc') = wrapu 32 (mono_value acc * z)) as Hone.
  { intros e0 k acc acc' v z m' Ha Hf. cbn [mul_factors] in Hf.
    apply bind_Some in Hf as (acc1 & Hf & [= <-]). by apply mul_factor_sound. }
  induction e using Expr_ind'; try exact (Hone _).
  destruct op; try exact (Hone _). cbn [collect_mul_factors].
  intros k acc acc' v z m' Ha Hf He Hz. rewrite mul_factors_app in Hf.
  apply bind_Some in Hf as (acc1 & Hf1 & Hf2).
  destruct (eval_bin_inv _ _ _ _ _ He) as (a & m1 & b & Hl & Hr & Hv).
  destruct (arith_inv BinOp.Mul Z.mul k a b v z) as (za & zb & Da & Db & Ez); [by right|done..|].
  destruct (IHe1 k acc acc1 a za m1) as (-> & Ha1 & E1); [done..|].
  destruct (IHe2 k acc1 acc' b zb m') as (-> & Ha2 & E2); [done..|].
  split; [done|]. split; [done|]. rewrite E2, <- wrapu_mul_l, E1, wrapu_mul_l.
  rewrite <- (wrapu_mul_r (mono_value acc) z), Ez, wrapu_mul_r. f_equal. ring.
Qed.

Lemma monomial_sound e k o v z m' : monomial_int_term e = Some o ->
  eval_rec fe dialect inv p e m = Ok (v, m') -> denotes k v z ->
  m' = m /\ mono_inv k o /\ wrapu 32 (mono_value o) = wrapu 32 z.
Proof.
  intros Ho He Hz.
  assert (mono_inv k (mkMonomial 1 0 None None)) as H0 by (repeat split; done).
  assert (mul_factors (mkMonomial 1 0 None None) (collect_mul_factors e) = Some o ->
    m' = m /\ mono_inv k o /\ wrapu 32 (mono_value o) = wrapu 32 z) as Htree.
  { intros Hf. destruct (mul_tree_sound e k _ o v z m' H0 Hf He Hz) as (? & ? & E).
    split; [done|]. split; [done|]. rewrite E. unfold mono_value. cbn [mono_coeff mono_var mono_degree].
    f_equal. rewrite Z.pow_0_r. ring. }
  destruct e; cbn [monomial_int_term] in Ho; try (destruct (_ <? _)%nat; [done|by apply Htree]).
  - injection Ho as <-. injection He as <- <-. destruct k; [|done].
    split; [done|]. split; [by repeat split; try intros ? [= <-]|]. unfold mono_value. cbn in *.
    by rewrite Z.mul_1_r.
  - injection Ho as <-. injection He as <- <-. destruct k; [done|].
    split; [done|]. split; [by repeat split; try intros ? [= <-]|]. unfold mono_value. cbn [mono_coeff mono_var mono_degree].
    rewrite Z.pow_0_r, Z.mul_1_r, wrapu_wrapu. done.
  - injection Ho as <-. destruct (var_denotes _ _ _ _ _ He Hz) as (-> & Hy & Hd & Hx).
    split; [done|]. split; [|unfold mono_value; cbn [mono_coeff mono_var mono_degree]; by rewrite Z.mul_1_l, Z.pow_1_r].
    split; [|by split]. split; [|done]. intros n [= <-]. by exists v.
Qed.

(** Coefficients, lowest degree first. *)
Definition peval (x : Z) (l : list (option Z)) : Z := foldr (fun c s => default 0 c + x * s) 0 l.
Lemma peval_app x l k : peval x (l ++ k) = peval x l + x ^ Z.of_nat (length l) * peval x k.
Proof.
  unfold peval. induction l as [|c l IH]; cbn [app foldr length]; [lia|].
  rewrite IH, Nat2Z.inj_succ, Z.pow_succ_r by lia. ring.
Qed.
Lemma peval_none x n : peval x (replicate n None) = 0.
Proof. unfold peval. induction n as [|n IH]; cbn [replicate foldr from_option]; [done|]. rewrite IH. ring. Qed.
Lemma peval_insert x l i c : l !! i = Some None ->
  peval x (<[i := Some c]> l) = peval x l + c * x ^ Z.of_nat i.
Proof.
  unfold peval. revert i. induction l as [|d l IH]; intros [|i]; cbn [lookup list_lookup]; try done.
  - intros [= ->]. cbn [insert list_insert foldr from_option id]. change (Z.of_nat 0) with 0.
    rewrite Z.pow_0_r. unfold id. ring.
  - intros Hi. change (<[S i := Some c]> (d :: l)) with (d :: <[i := Some c]> l). cbn [foldr].
    rewrite (IH i Hi), Nat2Z.inj_succ, Z.pow_succ_r by lia.
    ring.
Qed.
Lemma peval_short x y l : (length l <= 1)%nat -> peval x l = peval y l.
Proof. destruct l as [|c [|d l]]; cbn; intros; [done|ring|lia]. Qed.

Definition poly_value (o : polynomial) : Z := peval (xval (poly_var o)) (poly_coeffs o).
Definition poly_inv (k : IntKind) (o : polynomial) : Prop :=
  pinned k (poly_var o) (poly_kind o) /\ (poly_var o = None -> length (poly_coeffs o) <= 1)%nat.

(** Merging the variable of a term: the polynomial so far is constant or uses it too. *)
Lemma pin_opt_var k var kind mvar mkind var' kind' :
  pinned k var kind -> pinned k mvar mkind ->
  pin_opt var mvar = Some var' -> pin_opt kind mkind = Some kind' ->
  pinned k var' kind' /\ (mvar = None \/ var' = mvar) /\ (var = None \/ var' = var).
Proof.
  intros [Hv Hk] [Hv' Hk'] Hpin Hpin'.
  assert (forall A `{EqDecision A} (s x s' : option A), pin_opt s x = Some s' ->
    (s' = s \/ s' = x) /\ (x = None \/ s' = x) /\ (s = None \/ s' = s)) as Hcase.
  { intros A ? s x s'. unfold pin_opt, pin. destruct x as [x|], s as [y|]; try (intros [= <-]; auto).
    destruct (decide (y = x)) as [->|]; intros [= <-]; auto. }
  destruct (Hcase _ _ _ _ _ Hpin) as ([->| ->] & H1 & H2);
    destruct (Hcase _ _ _ _ _ Hpin') as ([->| ->] & _ & _); done.
Qed.

Lemma add_term_sound k acc acc' t v z m' : poly_inv k acc -> add_term acc t = Some acc' ->
  eval_rec fe dialect inv p t m = Ok (v, m') -> denotes k v z ->
  m' = m /\ poly_inv k acc' /\ wrapu 32 (poly_value acc') = wrapu 32 (poly_value acc + z).
Proof.
  intros [Hp Hlen] Ht He Hz. unfold add_term in Ht.
  apply bind_Some in Ht as (mono & Hm & Ht).
  destruct (monomial_sound t k mono v z m' Hm He Hz) as (-> & (Hmp & Hdeg & Hmn) & Hval).
  destruct (_ <? mono_degree mono); [done|].
  apply bind_Some in Ht as (var & Hvar & Ht). apply bind_Some in Ht as (kind & Hkind & Ht).
  destruct (pin_opt_var k _ _ _ _ _ _ Hp Hmp Hvar Hkind) as (Hp' & Hmv & Hpv).
  set (idx := Z.to_nat (mono_degree mono)) in *.
  set (coeffs := if (_ <=? _)%nat then _ else _) in Ht.
  destruct (coeffs !! idx) as [[?|]|] eqn:Hi; try discriminate Ht. injection Ht as <-.
  assert (forall x, peval x coeffs = peval x (poly_coeffs acc)) as Hpad.
  { intros x. unfold coeffs. destruct (_ <=? _)%nat; [|done]. rewrite peval_app, peval_none. ring. }
  split; [done|]. split.
  - split; [done|]. cbn [poly_var poly_coeffs]. intros ->. rewrite length_insert.
    assert (mono_var mono = None) as Hmv' by (destruct Hmv; congruence).
    assert (poly_var acc = None) as Hpv' by (destruct Hpv; congruence).
    specialize (Hlen Hpv'). specialize (Hmn Hmv'). unfold coeffs, idx. rewrite Hmn.
    destruct (Nat.leb_spec (length (poly_coeffs acc)) (Z.to_nat 0)); [|lia].
    rewrite length_app, length_replicate. cbn in *. lia.
  - unfold poly_value. cbn [poly_var poly_coeffs]. rewrite (peval_insert _ _ _ _ Hi), Hpad.
    replace (peval (xval (poly_var acc)) (poly_coeffs acc))
      with (peval (xval var) (poly_coeffs acc)).
    2: { destruct Hpv as [Hpv| ->]; [|done]. by apply peval_short, Hlen. }
    rewrite <- (wrapu_add_r _ z), <- Hval, wrapu_add_r. do 2 f_equal. unfold mono_value, idx.
    rewrite Z2Nat.id by done. destruct Hmv as [Hmv| ->]; [|done]. by rewrite Hmn.
Qed.

Lemma add_terms_app acc l1 l2 :
  add_terms acc (l1 ++ l2) = add_terms acc l1 ≫= fun acc => add_terms acc l2.
Proof.
  revert acc. induction l1 as [|f l1 IH]; intros acc; cbn [app add_terms]; [done|].
  destruct (add_term acc f); cbn [mbind option_bind]; [apply IH|done].
Qed.
Lemma add_tree_sound e : forall k acc acc' v z m', poly_inv k acc ->
  add_terms acc (collect_add_terms e) = Some acc' ->
  eval_rec fe dialect inv p e m = Ok (v, m') -> denotes k v z ->
  m' = m /\ poly_inv k acc' /\ wrapu 32 (poly_value acc') = wrapu 32 (poly_value acc + z).
Proof.
  assert (forall e k acc acc' v z m', poly_inv k acc -> add_terms acc [e] = Some acc' ->
    eval_rec fe dialect inv p e m = Ok (v, m') -> denotes k v z ->
    m' = m /\ poly_inv k acc' /\ wrapu 32 (poly_value acc') = wrapu 32 (poly_value acc + z)) as Hone.
  { intros e0 k acc acc' v z m' Ha Hf. cbn [add_terms] in Hf.
    apply bind_Some in Hf as (acc1 & Hf & [= <-]). by apply add_term_sound. }
  induction e using Expr_ind'; try exact (Hone _).
  destruct op; try exact (Hone _). cbn [collect_add_terms].
  intros k acc acc' v z m' Ha Hf He Hz. rewrite add_terms_app in Hf.
  apply bind_Some in Hf as (acc1 & Hf1 & Hf2).
  destruct (eval_bin_inv _ _ _ _ _ He) as (a & m1 & b & Hl & Hr & Hv).
  destruct (arith_inv BinOp.Add Z.add k a b v z) as (za & zb & Da & Db & Ez); [by left|done..|].
  destruct (IHe1 k acc acc1 a za m1) as (-> & Ha1 & E1); [done..|].
  destruct (IHe2 k acc1 acc' b zb m') as (-> & Ha2 & E2); [done..|].
  split; [done|]. split; [done|]. rewrite E2, <- wrapu_add_l, E1, wrapu_add_l.
  rewrite <- (wrapu_add_r (poly_value acc) z), Ez, wrapu_add_r. f_equal. ring.
Qed.

(** The Horner chain. *)
Lemma evals_arith op f k l r a b za zb : arith_op op f -> evals l a -> evals r b ->
  denotes k a za -> denotes k b zb -> evals (Expr.BinOp op l r) (kval k (f za zb)).
Proof. intros Hop Hl Hr Ha Hb. eapply evals_bin; [done..|]. by apply arith_denotes. Qed.

Lemma horner_step_sound k x vx X acc va s c : evals x vx -> denotes k vx X ->
  evals acc va -> denotes k va s ->
  evals (if negb (c =? 0) then add (mul acc x) (kind_lit k c) else mul acc x) (kval k (s * X + c)).
Proof.
  intros Hx HX Hacc Hs.
  assert (evals (mul acc x) (kval k (s * X))) as Hmul.
  { apply (evals_arith _ Z.mul _ _ _ va vx); [by right|done..]. }
  destruct (Z.eqb_spec c 0) as [->|]; cbn [negb]; [by rewrite Z.add_0_r|].
  destruct (kind_lit_denotes k c) as (vc & Hc & Dc).
  apply (evals_arith _ Z.add _ _ _ (kval k (s * X)) vc); [by left|done|done|apply kval_denotes|done].
Qed.
Lemma horner_fold_sound k x vx X rest : evals x vx -> denotes k vx X ->
  forall acc s, evals acc (kval k s) ->
  evals (horner_fold k x acc rest) (kval k (s * X ^ Z.of_nat (length rest) + peval X (rev rest))).
Proof.
  intros Hx HX. induction rest as [|c rest IH]; intros acc s Hacc; cbn [horner_fold].
  - cbn [length rev peval foldr]. change (Z.of_nat 0) with 0. rewrite Z.pow_0_r.
    by replace (s * 1 + 0) with s by ring.
  - replace (s * X ^ Z.of_nat (length (c :: rest)) + peval X (rev (c :: rest)))
      with ((s * X + default 0 c) * X ^ Z.of_nat (length rest) + peval X (rev rest)).
    + apply IH. apply (horner_step_sound _ _ vx _ _ (kval k s)); [done..|apply kval_denotes].
    + cbn [rev length]. rewrite peval_app, length_rev, Nat2Z.inj_succ, Z.pow_succ_r by lia.
      cbn [peval foldr]. ring.
Qed.

Lemma eval_arith_kval op f k l r v z m' : arith_op op f ->
  eval_rec fe dialect inv p (Expr.BinOp op l r) m = Ok (v, m') -> denotes k v z -> v = kval k z.
Proof.
  intros Hop He Hz. destruct (eval_bin_inv _ _ _ _ _ He) as (a & m1 & b & _ & _ & Hv).
  destruct (arith_inv op f k a b v z Hop Hv Hz) as (za & zb & Ha & Hb & E).
  rewrite (arith_denotes op f k a b za zb Hop Ha Hb) in Hv. injection Hv as <-. by apply kval_ext.
Qed.

Lemma horner_sound e e' k v z m' : horner_polynomial_int e = Some e' ->
  eval_rec fe dialect inv p e m = Ok (v, m') -> denotes k v z ->
  eval_rec fe dialect inv p e' m = Ok (v, m').
Proof.
  intros He' He Hz. unfold horner_polynomial_int in He'.
  destruct (length (collect_add_terms e) <? 2)%nat eqn:Hlen; [done|].
  apply bind_Some in He' as (poly & Hpoly & He'). apply bind_Some in He' as (kind & Hkind & He').
  destruct (length (poly_coeffs poly) - 1 <? 2)%nat eqn:Hdeg; [done|]. apply Nat.ltb_ge in Hdeg.
  apply bind_Some in He' as (var & Hvar & He').
  destruct (add_tree_sound e k (mkPolynomial [] None None) poly v z m') as (-> & [[Hv Hk] _] & Hval);
    [by split; [|cbn; lia]|done..|].
  assert (v = kval k z) as ->.
  { destruct e; try discriminate Hlen. destruct op; try discriminate Hlen.
    eapply (eval_arith_kval _ Z.add); [by left|done..]. }
  rewrite (Hk kind Hkind) in He'. destruct (Hv var Hvar) as (vx & Hx & HX).
  destruct (rev (poly_coeffs poly)) as [|top rest] eqn:Hrev; [done|]. injection He' as <-.
  assert (poly_coeffs poly = rev rest ++ [top]) as Hc by (rewrite <- (rev_involutive (poly_coeffs poly)), Hrev; done).
  rewrite Hc, length_app, length_rev in Hdeg. cbn in Hdeg.
  destruct rest as [|c rest]; [cbn in Hdeg; lia|]. cbn [horner_fold].
  destruct (kind_lit_denotes k (default 0 top)) as (vt & Ht & Dt).
  rewrite Hvar in HX. fold (evals (horner_fold k (Expr.Var var)
    (if negb (default 0 c =? 0) then add (mul (kind_lit k (default 0 top)) (Expr.Var var)) (kind_lit k (default 0 c))
     else mul (kind_lit k (default 0 top)) (Expr.Var var)) rest) (kval k z)).
  rewrite (kval_ext k z ((default 0 top * xval (Some var) + default 0 c)
    * xval (Some var) ^ Z.of_nat (length rest) + peval (xval (Some var)) (rev rest))).
  - apply (horner_fold_sound _ _ vx); [done..|]. by apply (horner_step_sound _ _ vx _ _ vt).
  - transitivity (wrapu 32 (poly_value poly)); [rewrite Hval; f_equal|]. f_equal.
    unfold poly_value. rewrite Hvar, Hc. cbn [rev]. rewrite !peval_app, length_app, length_rev.
    cbn [length peval foldr]. rewrite Nat2Z.inj_add, Z.pow_add_r, Z.pow_1_r by lia. ring.
Qed.

(** ** The rewrite table on unsigned words *)

Lemma is_u32_value k e b : is_u32 k e = true -> evals e (u32 b) -> b = k.
Proof. destruct e; try done. cbn. intros H%Z.eqb_eq [= <-]. done. Qed.
Lemma is_f32_value k e b : is_f32 k e = true -> evals e (u32 b) -> False.
Proof. by destruct e. Qed.
Lemma is_f32_zero_value e b : is_f32_zero e = true -> evals e (u32 b) -> False.
Proof. by destruct e. Qed.

Definition floatish (v : Value) : Prop :=
  match v with Value.U32 _ | Value.I32 _ | Value.U64 _ => False | _ => True end.
Lemma binop_floatish op a b v : floatish a \/ floatish b -> eval_binop fe op a b = Ok v -> floatish v.
Proof.
  intros Hf. destruct a as [x|x|x|x|x|x|x], b as [y|y|y|y|y|y|y]; try discriminate;
    try (destruct Hf as [[]|[]]; fail); unfold eval_binop.
  - destruct op; try discriminate; by apply ok_elim.
  - unfold binop_f32. destruct op; try discriminate; by apply ok_elim.
Qed.
Lemma unop_floatish op a v : floatish a -> eval_unop fe op a = Ok v -> floatish v.
Proof.
  intros Hf. destruct a; try discriminate; try destruct Hf; unfold eval_unop.
  - destruct op; try discriminate; by apply ok_elim.
  - unfold unop_f32. destruct op; try discriminate; by apply ok_elim.
Qed.
Lemma eval_un_inv op x m0 v m' : eval_rec fe dialect inv p (Expr.UnOp op x) m0 = Ok (v, m') ->
  exists a, eval_rec fe dialect inv p x m0 = Ok (a, m') /\ eval_unop fe op a = Ok v.
Proof.
  cbn [eval_rec]. unfold mbind, M_bind, lift.
  destruct (eval_rec fe dialect inv p x m0) as [[a m1]|]; [|done].
  destruct (eval_unop fe op a) as [w|] eqn:Ev; [|done]. intros [= <- <-]. eauto.
Qed.
End Sound.

Section Table.
Context (fe : FloatEnv) (dialect : option (string -> option OpDef)).
Context (inv : Invocation) (p : Program).
Abbreviation u32 := Value.U32.

(** Syntactic float evidence excludes an unsigned value. *)
Lemma is_float_floatish e : is_float_expr e = true -> forall m v m',
  eval_rec fe dialect inv p e m = Ok (v, m') -> floatish v.
Proof.
  induction e using Expr_ind'; cbn [is_float_expr]; try discriminate; intros Hf m v0 m' He.
  - by injection He as <- <-.
  - destruct (eval_bin_inv _ _ _ _ _ _ _ _ _ _ He) as (a & m1 & b & Hl & Hr & Hv).
    eapply binop_floatish; [|done]. apply orb_true_iff in Hf as [Hf|Hf]; eauto.
  - destruct (eval_un_inv _ _ _ _ _ _ _ _ _ He) as (a & Hx & Hv). eapply unop_floatish; eauto.
  - revert He. cbn [eval_rec]. unfold mbind, M_bind, lift.
    destruct (eval_rec fe dialect inv p e m) as [[a m1]|]; [|done].
    destruct (cast_value t a) as [w|] eqn:Hc; [|done]. intros [= <- <-]. revert Hc.
    apply bool_decide_eq_true in Hf. rewrite !elem_of_cons, elem_of_nil in Hf.
    destruct Hf as [->|[->|[]]]; cbn [cast_value]; [|by apply ok_elim].
    destruct a; first [by apply ok_elim|destruct (Value.try_as_u32 _); [by apply ok_elim|done]].
  - revert He. cbn [eval_rec]. unfold mbind, M_bind, lift.
    destruct (eval_rec fe dialect inv p e1 m) as [[a m1]|]; [|done].
    destruct (eval_rec fe dialect inv p e2 m1) as [[b m2]|]; [|done].
    destruct (eval_rec fe dialect inv p e3 m2) as [[c m3]|]; [|done].
    unfold eval_fma. destruct (Value.try_as_f32 c), (Value.try_as_f32 b), (Value.try_as_f32 a);
      cbn [ok_or mbind result_bind]; try done.
    refine (fun Hq => ok_elim (fun q : Value * Memory => floatish q.1) _ (v0, m') _ Hq). exact I.
Qed.

Context (m : Memory).
Abbreviation evals := (evals fe dialect inv p m).

Lemma float_operand e b : is_float_expr e = true -> evals e (u32 b) -> False.
Proof. intros Hf H. apply (is_float_floatish e Hf m _ _ H). Qed.
Lemma fma_when_none t other k e b : evals other (u32 b) -> fma_when t other k = Some e -> False.
Proof.
  intros Ho. unfold fma_when. destruct t as [[x y]|]; cbn [mbind option_bind]; [|done].
  destruct (is_float_expr other) eqn:E; [|done]. by eapply float_operand in E.
Qed.

(** An operator whose result is unsigned has an unsigned operand. *)
Lemma unop_u32_operand op x b : op = UnOp.Negate \/ op = UnOp.BitNot -> evals (Expr.UnOp op x) (u32 b) ->
  exists y, evals x (u32 y) /\ b = wrapu 32 (if decide (op = UnOp.Negate) then 0 - y else Z.lnot y).
Proof.
  intros Hop H. destruct (eval_un_inv _ _ _ _ _ _ _ _ _ H) as (a & Hx & Hv).
  destruct a as [y|y|y|y|y|y|y]; try (destruct Hop as [->| ->]; discriminate Hv).
  exists y. split; [done|]. destruct Hop as [->| ->]; by injection Hv as <-.
Qed.
Lemma shift_operand op x s a : evals (Expr.BinOp op x (lit s)) (u32 a) ->
  exists y, evals x (u32 y) /\ eval_binop fe op (u32 y) (u32 s) = Ok (u32 a).
Proof.
  intros H. destruct (eval_bin_inv _ _ _ _ _ _ _ _ _ _ H) as (v & m1 & b & Hx & Hr & Hv).
  injection Hr as <- ->. destruct v as [y|y|y|y|y|y|y]; try discriminate Hv. by exists y.
Qed.

Section Operands.
Context (l r : Expr) (a b : Z).
Context (Hl : evals l (u32 a)) (Hr : evals r (u32 b)) (Ha : inu 32 a) (Hb : inu 32 b).

(** Splits a chain of alternatives and reads each guard. *)
Local Ltac alternatives H :=
  repeat (apply or_else_Some in H as [H|H]);
  try (apply when_Some in H as [H ->]);
  try (exfalso; by eapply is_f32_value); try (exfalso; by eapply is_f32_zero_value);
  try (exfalso; eapply fma_when_none; [|exact H]; eassumption).
Local Ltac literal H :=
  first [ apply (is_u32_value fe dialect inv p m _ r b) in H; [|done]
        | apply (is_u32_value fe dialect inv p m _ l a) in H; [|done] ].

Lemma pow2_operand e c k : power_of_two_shift e = Some k -> evals e (u32 c) -> inu 32 c ->
  0 <= k < 32 /\ c = 2 ^ k.
Proof.
  intros Hk He Hc. destruct e; try done; injection He as ->. cbn in Hk.
  destruct (is_power_of_two c) eqn:E; [|done]. injection Hk as <-. by apply power_of_two_spec.
Qed.
Lemma decompose_operand x c y z e : evals x (u32 y) -> inu 32 y -> evals c (u32 z) -> inu 32 z ->
  match c with Expr.LitU32 v => naf_in_width v | _ => true end = true ->
  shift_add_decompose x c = Some e -> evals e (u32 (wrapu 32 (y * z))).
Proof.
  intros Hx Hy Hc Hz Hw Hs. destruct c; try done; injection Hc as ->.
  by eapply shift_add_decompose_sound.
Qed.

Lemma reduce_mul_sound e :
  match l with Expr.LitU32 v => naf_in_width v | _ => true end = true ->
  match r with Expr.LitU32 v => naf_in_width v | _ => true end = true ->
  reduce_mul l r = Some e -> evals e (u32 (wrapu 32 (a * b))).
Proof.
  intros Hwl Hwr H. unfold reduce_mul in H. alternatives H.
  - literal H. subst. by rewrite Z.mul_0_r.
  - literal H. subst. done.
  - literal H. subst. by rewrite Z.mul_1_r, wrapu_id.
  - apply (is_u32_value fe dialect inv p m _ l a) in H; [|done]. subst. by rewrite Z.mul_1_l, wrapu_id.
  - apply bind_Some in H as (k & Hk & [= <-]). destruct (pow2_operand _ _ _ Hk Hr Hb) as [Hk32 ->].
    by apply evals_shl.
  - apply bind_Some in H as (k & Hk & [= <-]). destruct (pow2_operand _ _ _ Hk Hl Ha) as [Hk32 ->].
    rewrite Z.mul_comm. by apply evals_shl.
  - by eapply (decompose_operand l r).
  - rewrite Z.mul_comm. by eapply (decompose_operand r l).
  - by destruct r.
  - by destruct l.
Qed.

Lemma reduce_div_sound e : reduce_div l r = Some e ->
  evals e (u32 (if b =? 0 then U32_MAX else a / b)).
Proof.
  intros H. unfold reduce_div in H. apply or_else_Some in H as [H|H].
  { by destruct l. }
  apply or_else_Some in H as [H|H].
  { apply when_Some in H as [H _]. apply andb_true_iff in H as [H _]. exfalso. by eapply is_f32_value. }
  destruct r as [d| | | | | | | | | | | | | | | | | | | | | |]; try done.
  assert (d = b) as -> by by injection Hr.
  destruct (Z.eqb_spec b 1) as [->|].
  { injection H as <-. change (1 =? 0) with false. by rewrite Z.div_1_r. }
  destruct (is_power_of_two b) eqn:Hpow.
  - injection H as <-. destruct (power_of_two_spec b Hb Hpow) as [Hk E].
    rewrite (proj2 (Z.eqb_neq b 0)) by (intros ->; discriminate). rewrite E at 2. by apply evals_shr.
  - destruct (Z.ltb_spec 1 b); [|done]. rewrite (proj2 (Z.eqb_neq b 0)) by lia.
    destruct (granlund_montgomery_sound fe dialect inv p m l b a) as (e' & E & Hy);
      [width_lia|done..|]. congruence.
Qed.

Lemma reduce_mod_sound e : reduce_mod l r = Some e ->
  evals e (u32 (if b =? 0 then 0 else a mod b)).
Proof.
  intros H. unfold reduce_mod in H.
  destruct r as [d| | | | | | | | | | | | | | | | | | | | | |]; try done.
  assert (d = b) as -> by by injection Hr.
  destruct (Z.eqb_spec b 1) as [->|].
  { injection H as <-. change (1 =? 0) with false. by rewrite Z.mod_1_r. }
  destruct (is_power_of_two b) eqn:Hpow.
  - injection H as <-. destruct (power_of_two_spec b Hb Hpow) as [Hk E].
    rewrite (proj2 (Z.eqb_neq b 0)) by (intros ->; discriminate).
    eapply evals_bin; [done|apply evals_lit|]. cbn [eval_binop u32_shared_binop binop_int].
    rewrite E at 1. rewrite land_mask, <- E by lia. done.
  - apply bind_Some in H as (q & Hq & [= <-]).
    destruct (Z.le_gt_cases b 1) as [Hb1|Hb1].
    { unfold granlund_montgomery_div in Hq. by rewrite (proj2 (Z.leb_le b 1) Hb1) in Hq. }
    destruct (granlund_montgomery_sound fe dialect inv p m l b a) as (e' & E & Hy);
      [width_lia|done..|]. rewrite E in Hq. injection Hq as <-.
    rewrite (proj2 (Z.eqb_neq b 0)) by lia.
    replace (a mod b) with (wrapu 32 (a - wrapu 32 (a / b * b))).
    + apply evals_sub; [done|]. by apply evals_mul.
    + pose proof (Z.mod_pos_bound a b ltac:(lia)). pose proof (Z.div_mod a b ltac:(lia)).
      autorewrite with wrapu. rewrite wrapu_id; width_lia.
Qed.

Lemma reduce_add_sound e : reduce_add l r = Some e -> evals e (u32 (wrapu 32 (a + b))).
Proof.
  intros H. unfold reduce_add, synthesize_fma_add in H. alternatives H.
  - literal H. subst. by rewrite Z.add_0_r, wrapu_id.
  - literal H. subst. by rewrite wrapu_id.
  - destruct r as [| | | | | | | | | | |op x| | | | | | | | | | |]; try done. destruct op; try done. injection H as <-.
    destruct (unop_u32_operand UnOp.Negate x b (or_introl eq_refl) Hr) as (y & Hy & ->).
    rewrite decide_True by done.
    replace (wrapu 32 (a + wrapu 32 (0 - y))) with (wrapu 32 (a - y)) by wrapu_ring. by apply evals_sub.
  - destruct l as [| | | | | | | | | | |op x| | | | | | | | | | |]; try done. destruct op; try done. injection H as <-.
    destruct (unop_u32_operand UnOp.Negate x a (or_introl eq_refl) Hl) as (y & Hy & ->).
    rewrite decide_True by done.
    replace (wrapu 32 (wrapu 32 (0 - y) + b)) with (wrapu 32 (b - y)) by wrapu_ring. by apply evals_sub.
Qed.

Lemma reduce_sub_sound e : reduce_sub l r = Some e -> evals e (u32 (wrapu 32 (a - b))).
Proof.
  intros H. unfold reduce_sub, synthesize_fma_sub in H. alternatives H.
  - literal H. subst. by rewrite Z.sub_0_r, wrapu_id.
  - destruct r as [| | | | | | | | | | |op x| | | | | | | | | | |]; try done. destruct op; try done. injection H as <-.
    destruct (unop_u32_operand UnOp.Negate x b (or_introl eq_refl) Hr) as (y & Hy & ->).
    rewrite decide_True by done.
    replace (wrapu 32 (a - wrapu 32 (0 - y))) with (wrapu 32 (a + y)) by wrapu_ring. by apply evals_add.
Qed.

(** Fused shifts stay below the width. *)
Definition fused_in_width (op : BinOp) : bool :=
  match l, r with
  | Expr.BinOp inner _ (Expr.LitU32 s), Expr.LitU32 t => negb (bool_decide (inner = op)) || ((0 <=? s) && (s + t <=? 31))
  | _, _ => true
  end.
Lemma reduce_shift_sound op e : op = BinOp.Shl \/ op = BinOp.Shr -> fused_in_width op = true ->
  reduce_shift op l r = Some e ->
  evals e (u32 (shift_u32 a b (bool_decide (op = BinOp.Shl)))).
Proof.
  intros Hop Hw H. unfold reduce_shift in H. alternatives H.
  - assert (a = 0) as -> by (destruct l; try done; injection Hl as <-; lia).
    unfold shift_u32. rewrite Z.shiftl_0_l, Z.shiftr_0_l. by destruct (bool_decide _).
  - literal H. subst. unfold shift_u32. rewrite Z.land_0_l, Z.shiftl_0_r, Z.shiftr_0_r, wrapu_id by done.
    by destruct (bool_decide _).
  - unfold fused_in_width in Hw. destruct l as [| | | | | | | | | |inner x s| | | | | | | | | | | |]; try done.
    destruct s as [s| | | | | | | | | | | | | | | | | | | | | |]; try done.
    destruct r as [t| | | | | | | | | | | | | | | | | | | | | |]; try done.
    apply when_Some in H as [E ->]. apply bool_decide_eq_true in E as ->.
    rewrite bool_decide_eq_true_2 in Hw by done. cbn [negb orb] in Hw.
    apply andb_true_iff in Hw as [Hs Hw]. apply Z.leb_le in Hw, Hs.
    assert (t = b) as -> by by injection Hr. unfold inu in *.
    destruct (shift_operand _ _ _ _ Hl) as (y & Hy & Hv).
    unfold saturating_add. rewrite (Z.min_r U32_MAX), (Z.min_l _ 31) by lia.
    destruct Hop as [->| ->]; cbn [bool_decide]; cbn [eval_binop u32_shared_binop binop_int u32_ty it_value it_shift] in Hv.
    + rewrite bool_decide_eq_true_2 by done. assert (shift_u32 y s true = a) as <- by by injection Hv.
      rewrite !shift_left_u32 by lia. rewrite wrapu_mul_l, <- Z.mul_assoc, <- Z.pow_add_r by lia.
      apply evals_shl; [done|lia].
    + rewrite bool_decide_eq_false_2 by done. assert (shift_u32 y s false = a) as <- by by injection Hv.
      rewrite !shift_right_u32 by lia. rewrite Z.div_div, <- Z.pow_add_r by lia.
      apply evals_shr; [done|lia].
Qed.

Lemma complement_sound result e : exact_eq l = true -> exact_eq r = true ->
  complement l r result = Some e -> e = lit result /\ b = U32_MAX - a.
Proof.
  intros Hel Her H. unfold complement in H. apply or_else_Some in H as [H|H].
  - destruct r as [| | | | | | | | | | |op x| | | | | | | | | | |]; try done. destruct op; try done.
    apply when_Some in H as [E ->]. cbn [exact_eq] in Her. apply (expr_eq_exact x l Her) in E as ->.
    destruct (unop_u32_operand UnOp.BitNot l b (or_intror eq_refl) Hr) as (y & Hy & ->).
    split; [done|]. rewrite decide_False by done.
    rewrite (evals_u32_det fe dialect inv p m l y a) by done. by apply wrapu_lnot.
  - destruct l as [| | | | | | | | | | |op x| | | | | | | | | | |]; try done. destruct op; try done.
    apply when_Some in H as [E ->]. cbn [exact_eq] in Hel. apply (expr_eq_exact x r Hel) in E as ->.
    destruct (unop_u32_operand UnOp.BitNot r a (or_intror eq_refl) Hl) as (y & Hy & ->).
    split; [done|]. rewrite decide_False by done.
    rewrite (evals_u32_det fe dialect inv p m r y b), wrapu_lnot by done. lia.
Qed.

Lemma rotate_zero : rotate_left_u32 a 0 = a /\ rotate_right_u32 a 0 = a.
Proof.
  unfold rotate_left_u32, rotate_right_u32. change (32 - 0) with 32.
  rewrite Z.shiftl_0_r, Z.shiftr_0_r, Z.shiftr_div_pow2, Z.div_small, Z.lor_0_r, wrapu_id by done.
  split; [done|]. rewrite lor_shiftl_disjoint by done. unfold wrapu.
  rewrite Z_mod_plus_full. by apply Z.mod_small.
Qed.

(** Where the table is exact on unsigned operands. *)
Definition exact_rule (op : BinOp) : bool :=
  match op with
  | BinOp.Mul =>
      match l with Expr.LitU32 v => naf_in_width v | _ => true end
      && match r with Expr.LitU32 v => naf_in_width v | _ => true end
  | BinOp.Shl | BinOp.Shr => fused_in_width op
  | BinOp.BitAnd | BinOp.BitOr | BinOp.BitXor | BinOp.AbsDiff => exact_eq l && exact_eq r
  | _ => true
  end.

Lemma reduce_table_sound op e : exact_rule op = true ->
  reduce_expr (Expr.BinOp op l r) = Some e -> exists v, eval_binop fe op (u32 a) (u32 b) = Ok v /\ evals e v.
Proof.
  intros Hx H. unfold reduce_expr in H. apply or_else_Some in H as [H|H].
  { destruct op; try discriminate H. eexists. split; [reflexivity|].
    apply (horner_sound fe dialect inv p m _ _ KU32 _ (a + b) _ H); [|apply (kval_denotes KU32)].
    by apply evals_add. }
  destruct op; try discriminate H; eexists; (split; [reflexivity|]);
    cbn [exact_rule] in Hx; rewrite ?andb_true_iff in Hx; cbn [it_value it_wrap it_shift u32_ty].
  - by apply reduce_add_sound.
  - by apply reduce_sub_sound.
  - destruct Hx. by apply reduce_mul_sound.
  - by apply reduce_div_sound.
  - by apply reduce_mod_sound.
  - destruct (complement_sound 0 e) as [-> ->]; [apply Hx..|done|].
    by rewrite (proj1 (complement_ops a Ha)).
  - destruct (complement_sound U32_MAX e) as [-> ->]; [apply Hx..|done|].
    by rewrite (proj1 (proj2 (complement_ops a Ha))).
  - destruct (complement_sound U32_MAX e) as [-> ->]; [apply Hx..|done|].
    by rewrite (proj2 (proj2 (complement_ops a Ha))).
  - by apply (reduce_shift_sound BinOp.Shl e); [left|..].
  - by apply (reduce_shift_sound BinOp.Shr e); [right|..].
  - alternatives H. literal H. subst. by rewrite (proj2 (Z.ltb_ge a 0)) by apply Ha.
  - alternatives H. literal H. subst. by rewrite (proj2 (Z.ltb_ge b 0)) by apply Hb.
  - alternatives H. literal H. subst. by rewrite (proj2 (Z.leb_le 0 b)) by apply Hb.
  - alternatives H. literal H. subst. by rewrite (proj2 (Z.leb_le 0 a)) by apply Ha.
  - alternatives H. apply (expr_eq_exact l r (proj1 Hx)) in H. subst.
    rewrite (evals_u32_det fe dialect inv p m r a b), Z.sub_diag by done. done.
  - unfold inu in *. alternatives H.
    + apply orb_true_iff in H as [H|H]; literal H; subst; [by rewrite Z.min_r by lia|by rewrite Z.min_l by lia].
    + literal H. subst. by rewrite Z.min_l by lia.
    + literal H. subst. by rewrite Z.min_r by lia.
  - unfold inu in *. alternatives H.
    + literal H. subst. by rewrite Z.max_l by lia.
    + literal H. subst. by rewrite Z.max_r by lia.
    + apply orb_true_iff in H as [H|H]; literal H; subst; [by rewrite Z.max_r by lia|by rewrite Z.max_l by lia].
  - alternatives H. assert (Z.land b 31 = 0) as -> by (apply orb_true_iff in H as [H|H]; literal H; by subst).
    by rewrite (proj1 rotate_zero).
  - alternatives H. assert (Z.land b 31 = 0) as -> by (apply orb_true_iff in H as [H|H]; literal H; by subst).
    by rewrite (proj2 rotate_zero).
Qed.
End Operands.
End Table.

Module Reduction.

(** C6: division by a constant is exact: for every divisor of [u32] that is not a
    power of two, the multiply-and-shift sequence the optimizer emits evaluates, for
    every unsigned dividend, to the quotient the division itself evaluates to. *)
Theorem division_sequence_exact fe dialect inv p m x n d
    (Hd : 1 < d <= U32_MAX) (Hp : is_power_of_two d = false) (Hn : inu 32 n)
    (Hx : eval_frame_oracle fe dialect inv p x m = Ok (Value.U32 n, m)) :
  exists e, granlund_montgomery_div x d = Some e
    /\ eval_frame_oracle fe dialect inv p e m = Ok (Value.U32 (n / d), m)
    /\ eval_frame_oracle fe dialect inv p (Expr.BinOp BinOp.Div x (lit d)) m = Ok (Value.U32 (n / d), m).
Proof.
  rewrite oracle_rec in Hx.
  destruct (granlund_montgomery_sound fe dialect inv p m x d n Hd Hp Hn Hx) as (e & He & Hy).
  exists e. split; [done|]. rewrite !oracle_rec. split; [done|].
  rewrite (eval_bin fe dialect inv p m BinOp.Div x (lit d) (Value.U32 n) (Value.U32 d) Hx) by done.
  cbn. by rewrite (proj2 (Z.eqb_neq d 0)) by lia.
Qed.
Lemma division_sequence_exact_witness :
  exists e, granlund_montgomery_div (lit 4294967295) 7 = Some e
    /\ eval_frame_oracle TypedOps.zero_env None Evaluator.acc_inv Evaluator.acc_program e
         (Evaluator.acc_memory 7) = Ok (Value.U32 613566756, Evaluator.acc_memory 7).
Proof.
  destruct (division_sequence_exact TypedOps.zero_env None Evaluator.acc_inv Evaluator.acc_program
    (Evaluator.acc_memory 7) (lit 4294967295) 4294967295 7) as (e & He & Hv & _).
  - lia.
  - reflexivity.
  - unfold inu; lia.
  - reflexivity.
  - exists e. split; [exact He|]. exact Hv.
Defined.

(** C39: horner form computes the polynomial: whenever the rewrite fires on an
    expression that evaluates to a 32-bit integer, signed or unsigned, the nested
    form evaluates to the same value and memory. *)
Theorem horner_preserves fe dialect inv p m e e' v m'
    (Hr : horner_polynomial_int e = Some e')
    (He : eval_frame_oracle fe dialect inv p e m = Ok (v, m'))
    (Hv : match v with Value.U32 _ | Value.I32 _ => true | _ => false end = true) :
  eval_frame_oracle fe dialect inv p e' m = Ok (v, m').
Proof.
  rewrite oracle_rec in He |- *. destruct v as [z|z| | | | |]; try discriminate.
  - by apply (horner_sound fe dialect inv p m e e' KU32 (Value.U32 z) z).
  - by apply (horner_sound fe dialect inv p m e e' KI32 (Value.I32 z) z).
Qed.
(** [5 * x * x + 3 * x + -7] at [x = -11]. *)
Definition poly_inv_at (z : Z) : Invocation :=
  mkInvocation (ids Evaluator.acc_inv) {[ "x" := 0%nat ]} [Some (Value.I32 z)].
Definition poly_expr : Expr :=
  add (add (mul (mul (Expr.LitI32 5) (Expr.Var "x")) (Expr.Var "x")) (mul (Expr.LitI32 3) (Expr.Var "x")))
      (Expr.LitI32 (-7)).
Lemma horner_preserves_witness :
  horner_polynomial_int poly_expr
    = Some (add (mul (add (mul (Expr.LitI32 5) (Expr.Var "x")) (Expr.LitI32 3)) (Expr.Var "x"))
                (Expr.LitI32 (-7)))
  /\ eval_frame_oracle TypedOps.zero_env None (poly_inv_at (-11)) Evaluator.acc_program
       (add (mul (add (mul (Expr.LitI32 5) (Expr.Var "x")) (Expr.LitI32 3)) (Expr.Var "x"))
            (Expr.LitI32 (-7))) (Evaluator.acc_memory 7)
     = Ok (Value.I32 565, Evaluator.acc_memory 7).
Proof.
  split; [reflexivity|].
  apply (horner_preserves TypedOps.zero_env None (poly_inv_at (-11)) Evaluator.acc_program
    (Evaluator.acc_memory 7) poly_expr); reflexivity.
Defined.

(** C19: the rewrite table is sound on unsigned operands: when both operands of an
    operator evaluate to [u32] values without touching memory and the rule is in its
    exact range (no shift fused past the width, no constant whose signed digits leave
    the word, no operand compared through a float zero), the replacement evaluates to
    exactly what the operator evaluates to. *)
Theorem reduce_expr_preserves_u32 fe dialect inv p m op l r a b e
    (Hl : eval_frame_oracle fe dialect inv p l m = Ok (Value.U32 a, m))
    (Hr : eval_frame_oracle fe dialect inv p r m = Ok (Value.U32 b, m))
    (Ha : inu 32 a) (Hb : inu 32 b)
    (Hexact : exact_rule l r op = true)
    (He : reduce_expr (Expr.BinOp op l r) = Some e) :
  exists v, eval_frame_oracle fe dialect inv p (Expr.BinOp op l r) m = Ok (v, m)
    /\ eval_frame_oracle fe dialect inv p e m = Ok (v, m).
Proof.
  rewrite oracle_rec in Hl, Hr.
  destruct (reduce_table_sound fe dialect inv p m l r a b Hl Hr Ha Hb op e Hexact He)
    as (v & Hv & Hy).
  exists v. rewrite !oracle_rec. split; [|done].
  by rewrite (eval_bin fe dialect inv p m op l r (Value.U32 a) (Value.U32 b) Hl Hr), Hv.
Qed.
(** [n % 10] and [n * 27]. *)
Lemma reduce_expr_preserves_u32_witness :
  exists e v, reduce_expr (mul (lit 1000000007) (lit 27)) = Some e
    /\ eval_frame_oracle TypedOps.zero_env None Evaluator.acc_inv Evaluator.acc_program e
         (Evaluator.acc_memory 7) = Ok (v, Evaluator.acc_memory 7).
Proof.
  assert (exists e, reduce_expr (mul (lit 1000000007) (lit 27)) = Some e) as [e E]
    by (eexists; vm_compute; reflexivity).
  destruct (reduce_expr_preserves_u32 TypedOps.zero_env None Evaluator.acc_inv Evaluator.acc_program
    (Evaluator.acc_memory 7) BinOp.Mul (lit 1000000007) (lit 27) 1000000007 27 e) as (v & _ & Hv).
  - reflexivity.
  - reflexivity.
  - unfold inu; lia.
  - unfold inu; lia.
  - vm_compute; reflexivity.
  - exact E.
  - exists e, v. split; [exact E|exact Hv].
Defined.

(** *** Where the table leaves the semantics of the interpreter *)

Abbreviation eval_at := (fun e z =>
  eval_frame_oracle TypedOps.zero_env None Evaluator.acc_inv Evaluator.acc_program e (Evaluator.acc_memory z)).

(** Outside the exact range the table changes what a program computes: shifts
    fused past the width are clamped to 31; a constant whose signed digits carry out
    of the word gets a shift by 32, which the masked shift takes as zero; a signed
    product becomes a shift by an unsigned literal, which the interpreter rejects; and
    the remainder sequence evaluates an atomic operand twice. *)
Theorem reductions_outside_range :
  (reduce_expr (shl (shl (lit 1) (lit 16)) (lit 16)) = Some (shl (lit 1) (lit 31))
   /\ eval_at (shl (shl (lit 1) (lit 16)) (lit 16)) 7 = Ok (Value.U32 0, Evaluator.acc_memory 7)
   /\ eval_at (shl (lit 1) (lit 31)) 7 = Ok (Value.U32 0x80000000, Evaluator.acc_memory 7))
  /\ (reduce_expr (mul (Expr.Var "x") (lit 0xC0000000))
        = Some (sub (shl (Expr.Var "x") (lit 32)) (shl (Expr.Var "x") (lit 30)))
      /\ eval_at (mul (lit 1) (lit 0xC0000000)) 7 = Ok (Value.U32 0xC0000000, Evaluator.acc_memory 7)
      /\ eval_at (sub (shl (lit 1) (lit 32)) (shl (lit 1) (lit 30))) 7
         = Ok (Value.U32 0xC0000001, Evaluator.acc_memory 7))
  /\ (reduce_expr (mul (Expr.Var "x") (Expr.LitI32 4)) = Some (shl (Expr.Var "x") (lit 2))
      /\ eval_frame_oracle TypedOps.zero_env None (poly_inv_at 3) Evaluator.acc_program
           (mul (Expr.Var "x") (Expr.LitI32 4)) (Evaluator.acc_memory 7)
         = Ok (Value.I32 12, Evaluator.acc_memory 7)
      /\ eval_frame_oracle TypedOps.zero_env None (poly_inv_at 3) Evaluator.acc_program
           (shl (Expr.Var "x") (lit 2)) (Evaluator.acc_memory 7)
         = Err (Interp "mismatched operands"))
  /\ (let bump := Expr.Atomic AtomicOp.Add "acc" (lit 0) None (lit 1) MemoryOrdering.SeqCst in
      eval_at (Expr.BinOp BinOp.Mod bump (lit 10)) 7 = Ok (Value.U32 7, Evaluator.acc_memory 8)
      /\ match reduce_expr (Expr.BinOp BinOp.Mod bump (lit 10)) with
         | Some e => eval_at e 7 = Ok (Value.U32 7, Evaluator.acc_memory 9)
         | None => False
         end).
Proof. cbv zeta. split_and!; vm_compute; reflexivity. Qed.
End Reduction.
