(* ===== verification/Rewrite.v ===== *)
(** The expression-rewrite engine of the optimizer
    (vyre-foundation: optimizer/rewrite.rs).

    [rewrite_expr] is the two-frame stack machine of the source over copy-on-write
    results; [rewrite_rec] is the bottom-up recursion it computes.  Passes plug their
    rules in as a transform. *)

From S2P Require Import Prelude Float Spec IR RefValue RefMemory RefEval StrengthReduce.

(** [Cow<'a, T>]. *)
Inductive Cow (A : Type) := Borrowed (x : A) | Owned (x : A).
Arguments Borrowed {A} x.
Arguments Owned {A} x.
Definition cow_value {A} (c : Cow A) : A := match c with Borrowed x | Owned x => x end.
Definition is_owned {A} (c : Cow A) : bool := match c with Owned _ => true | Borrowed _ => false end.

(** [if every part is borrowed { Borrowed(original) } else { Owned(rebuilt) }]. *)
Definition reuse {A} (original : A) (changed : bool) (rebuilt : A) : Cow A :=
  if changed then Owned rebuilt else Borrowed original.

Definition rewrite_binary (original : Expr) (op : BinOp) (left right : Cow Expr) : Cow Expr :=
  reuse original (is_owned left || is_owned right) (Expr.BinOp op (cow_value left) (cow_value right)).
Definition rewrite_fma (original : Expr) (a b c : Cow Expr) : Cow Expr :=
  reuse original (is_owned a || is_owned b || is_owned c) (Expr.Fma (cow_value a) (cow_value b) (cow_value c)).
Definition rewrite_select (original : Expr) (c t f : Cow Expr) : Cow Expr :=
  reuse original (is_owned c || is_owned t || is_owned f) (Expr.Select (cow_value c) (cow_value t) (cow_value f)).
Definition rewrite_unary (original : Expr) (k : Expr -> Expr) (x : Cow Expr) : Cow Expr :=
  reuse original (is_owned x) (k (cow_value x)).
Definition rewrite_call (original : Expr) (op_id : string) (args : list (Cow Expr)) : Cow Expr :=
  reuse original (existsb is_owned args) (Expr.Call op_id (map cow_value args)).
Definition rewrite_atomic (original : Expr) (k : Expr -> option Expr -> Expr -> Expr)
    (index : Cow Expr) (expected : option (Cow Expr)) (value : Cow Expr) : Cow Expr :=
  reuse original
    (is_owned index || match expected with Some x => is_owned x | None => false end || is_owned value)
    (k (cow_value index) (cow_value <$> expected) (cow_value value)).
Definition rewrite_shuffle (original : Expr) (v l : Cow Expr) : Cow Expr :=
  reuse original (is_owned v || is_owned l) (Expr.SubgroupShuffle (cow_value v) (cow_value l)).

Section Engine.
Context (transform : Expr -> option Expr).

Definition apply_transform (c : Cow Expr) : Cow Expr :=
  match transform (cow_value c) with Some x => Owned x | None => c end.

(** ** The stack machine *)

Inductive RewriteFrame := RExpr (e : Expr) | RAssemble (e : Expr).

(** The children pushed for [Frame::Expr], in the order they are visited. *)
Definition children (e : Expr) : list Expr :=
  match e with
  | Expr.Load _ i => [i]
  | Expr.BinOp _ l r => [l; r]
  | Expr.UnOp _ x => [x]
  | Expr.Call _ args => args
  | Expr.Select c t f => [c; t; f]
  | Expr.Cast _ v | Expr.SubgroupAdd v => [v]
  | Expr.Fma a b c => [a; b; c]
  | Expr.Atomic _ _ i (Some x) v _ => [i; x; v]
  | Expr.Atomic _ _ i None v _ => [i; v]
  | Expr.SubgroupBallot c => [c]
  | Expr.SubgroupShuffle v l => [v; l]
  | _ => []
  end.

(** [Frame::Assemble]: pops the results of the children, last child on top; [None] is
    the [unreachable!] of an inconsistent stack. *)
Definition assemble (e : Expr) (results : list (Cow Expr)) : option (Cow Expr * list (Cow Expr)) :=
  match e with
  | Expr.Load b _ =>
      match results with i :: rs => Some (rewrite_unary e (Expr.Load b) i, rs) | _ => None end
  | Expr.BinOp op _ _ =>
      match results with r :: l :: rs => Some (rewrite_binary e op l r, rs) | _ => None end
  | Expr.UnOp op _ =>
      match results with x :: rs => Some (rewrite_unary e (Expr.UnOp op) x, rs) | _ => None end
  | Expr.Call op_id args =>
      if (length results <? length args)%nat then None
      else Some (rewrite_call e op_id (rev (take (length args) results)), drop (length args) results)
  | Expr.Select _ _ _ =>
      match results with f :: t :: c :: rs => Some (rewrite_select e c t f, rs) | _ => None end
  | Expr.Cast t _ =>
      match results with v :: rs => Some (rewrite_unary e (Expr.Cast t) v, rs) | _ => None end
  | Expr.Fma _ _ _ =>
      match results with c :: b :: a :: rs => Some (rewrite_fma e a b c, rs) | _ => None end
  | Expr.Atomic op buffer _ (Some _) _ ordering =>
      match results with
      | v :: x :: i :: rs =>
          Some (rewrite_atomic e (fun i x v => Expr.Atomic op buffer i x v ordering) i (Some x) v, rs)
      | _ => None
      end
  | Expr.Atomic op buffer _ None _ ordering =>
      match results with
      | v :: i :: rs =>
          Some (rewrite_atomic e (fun i x v => Expr.Atomic op buffer i x v ordering) i None v, rs)
      | _ => None
      end
  | Expr.SubgroupBallot _ =>
      match results with c :: rs => Some (rewrite_unary e Expr.SubgroupBallot c, rs) | _ => None end
  | Expr.SubgroupShuffle _ _ =>
      match results with l :: v :: rs => Some (rewrite_shuffle e v l, rs) | _ => None end
  | Expr.SubgroupAdd _ =>
      match results with v :: rs => Some (rewrite_unary e Expr.SubgroupAdd v, rs) | _ => None end
  | _ => Some (Borrowed e, results)
  end.

Fixpoint rewrite_loop (fuel : nat) (stack : list RewriteFrame) (results : list (Cow Expr))
    : option (Cow Expr) :=
  match stack with
  | [] => head results
  | frame :: stack =>
      match fuel with
      | O => None
      | S fuel =>
          match frame with
          | RExpr e => rewrite_loop fuel (map RExpr (children e) ++ RAssemble e :: stack) results
          | RAssemble e =>
              '(c, results) ← assemble e results;
              rewrite_loop fuel stack (apply_transform c :: results)
          end
      end
  end.

Fixpoint expr_nodes (e : Expr) : nat :=
  1 + match e with
      | Expr.Load _ x | Expr.UnOp _ x | Expr.Cast _ x
      | Expr.SubgroupAdd x | Expr.SubgroupBallot x => expr_nodes x
      | Expr.BinOp _ l r | Expr.SubgroupShuffle l r => expr_nodes l + expr_nodes r
      | Expr.Call _ args => list_sum (map expr_nodes args)
      | Expr.Select a b c | Expr.Fma a b c => expr_nodes a + expr_nodes b + expr_nodes c
      | Expr.Atomic _ _ i x v _ =>
          expr_nodes i + match x with Some y => expr_nodes y | None => 0 end + expr_nodes v
      | _ => 0
      end.

(** Every node is pushed once and assembled once. *)
Definition rewrite_expr (e : Expr) : option (Cow Expr) := rewrite_loop (2 * expr_nodes e) [RExpr e] [].

(** ** The recursion it computes *)

Fixpoint rewrite_rec (e : Expr) : Cow Expr :=
  apply_transform
    match e with
    | Expr.Load b i => rewrite_unary e (Expr.Load b) (rewrite_rec i)
    | Expr.BinOp op l r => rewrite_binary e op (rewrite_rec l) (rewrite_rec r)
    | Expr.UnOp op x => rewrite_unary e (Expr.UnOp op) (rewrite_rec x)
    | Expr.Call op_id args => rewrite_call e op_id (map rewrite_rec args)
    | Expr.Select c t f => rewrite_select e (rewrite_rec c) (rewrite_rec t) (rewrite_rec f)
    | Expr.Cast t v => rewrite_unary e (Expr.Cast t) (rewrite_rec v)
    | Expr.Fma a b c => rewrite_fma e (rewrite_rec a) (rewrite_rec b) (rewrite_rec c)
    | Expr.Atomic op buffer i x v ordering =>
        rewrite_atomic e (fun i x v => Expr.Atomic op buffer i x v ordering)
          (rewrite_rec i) (match x with Some y => Some (rewrite_rec y) | None => None end) (rewrite_rec v)
    | Expr.SubgroupBallot c => rewrite_unary e Expr.SubgroupBallot (rewrite_rec c)
    | Expr.SubgroupShuffle v l => rewrite_shuffle e (rewrite_rec v) (rewrite_rec l)
    | Expr.SubgroupAdd v => rewrite_unary e Expr.SubgroupAdd (rewrite_rec v)
    | _ => Borrowed e
    end.

(** ** Statements and programs *)

Definition rewrite_list {A} (nodes : list A) (results : list (Cow A)) : Cow (list A) :=
  reuse nodes (existsb is_owned results) (map cow_value results).

(** An expression operand: the engine never runs out of fuel on it. *)
Definition rewrite_operand (e : Expr) : Cow Expr := default (Borrowed e) (rewrite_expr e).

Fixpoint rewrite_node_cow (n : Node) : Cow Node :=
  let unary (k : Expr -> Node) (x : Cow Expr) := reuse n (is_owned x) (k (cow_value x)) in
  let nodes (l : list Node) : Cow (list Node) := rewrite_list l (map rewrite_node_cow l) in
  match n with
  | Node.Let name value => unary (Node.Let name) (rewrite_operand value)
  | Node.Assign name value => unary (Node.Assign name) (rewrite_operand value)
  | Node.Store buffer index value =>
      let idx := rewrite_operand index in
      let val := rewrite_operand value in
      reuse n (is_owned idx || is_owned val) (Node.Store buffer (cow_value idx) (cow_value val))
  | Node.If cond then_ otherwise =>
      let c := rewrite_operand cond in
      let t := nodes then_ in
      let o := nodes otherwise in
      reuse n (is_owned c || is_owned t || is_owned o) (Node.If (cow_value c) (cow_value t) (cow_value o))
  | Node.Loop var from to body =>
      let f := rewrite_operand from in
      let t := rewrite_operand to in
      let b := nodes body in
      reuse n (is_owned f || is_owned t || is_owned b)
        (Node.Loop var (cow_value f) (cow_value t) (cow_value b))
  | Node.Block body =>
      let b := nodes body in reuse n (is_owned b) (Node.Block (cow_value b))
  | Node.Trap address tag => unary (fun a => Node.Trap a tag) (rewrite_operand address)
  | Node.Region generator source_region body =>
      let b := nodes body in
      reuse n (is_owned b) (Node.Region generator source_region (cow_value b))
  | _ => Borrowed n
  end.
Definition rewrite_nodes_cow (nodes : list Node) : Cow (list Node) :=
  rewrite_list nodes (map rewrite_node_cow nodes).

Definition with_rewritten_entry (p : Program) (nodes : list Node) : Program :=
  mkProgram (entry_op_id p) (buffers p) (workgroup_size p) nodes (non_composable_with_self p).

Definition rewrite_program (p : Program) : Program * bool :=
  match rewrite_nodes_cow (entry p) with
  | Borrowed _ => (p, false)
  | Owned nodes => (with_rewritten_entry p nodes, true)
  end.
End Engine.

(** [StrengthReduce::transform]. *)
Definition StrengthReduce_transform (p : Program) : Program * bool := rewrite_program reduce_expr p.

(** ** The machine computes the recursion *)

Section EngineProofs.
Context (transform : Expr -> option Expr).
Abbreviation rec := (rewrite_rec transform).
Abbreviation loop := (rewrite_loop transform).

(** The result of a node before its own transform. *)
Lemma rewrite_rec_assemble e rs :
  exists c, assemble e (rev (map rec (children e)) ++ rs) = Some (c, rs)
    /\ rec e = apply_transform transform c.
Proof.
  destruct e; try (eexists; split; reflexivity).
  - eexists. cbn [assemble children]. rewrite (proj2 (Nat.ltb_ge _ _)).
    + rewrite take_app_length', drop_app_length', rev_involutive by (by rewrite length_rev, length_map).
      split; reflexivity.
    + rewrite length_app, length_rev, length_map. lia.
  - destruct expected; eexists; split; reflexivity.
Qed.
Lemma expr_nodes_children e : expr_nodes e = S (list_sum (map expr_nodes (children e))).
Proof.
  destruct e; try destruct expected; try done; cbn [expr_nodes children map list_sum fold_right]; lia.
Qed.

Lemma children_ind (P : Expr -> Prop) : (forall e, Forall P (children e) -> P e) -> forall e, P e.
Proof.
  intros H e. induction e using Expr_ind'; apply H; cbn [children]; auto.
  destruct e2; cbn in *; auto.
Qed.

Lemma loop_expr e : forall n st rs,
  loop (2 * expr_nodes e + n) (RExpr e :: st) rs = loop n st (rec e :: rs).
Proof.
  induction e as [e IH] using children_ind. intros n st rs. rewrite expr_nodes_children.
  replace (2 * S (list_sum (map expr_nodes (children e))) + n)%nat
    with (S (2 * list_sum (map expr_nodes (children e)) + S n)) by lia.
  cbn [rewrite_loop].
  assert (forall cs n st rs, Forall (fun e => forall n st rs,
      loop (2 * expr_nodes e + n) (RExpr e :: st) rs = loop n st (rec e :: rs)) cs ->
    loop (2 * list_sum (map expr_nodes cs) + n) (map RExpr cs ++ st) rs
    = loop n st (rev (map rec cs) ++ rs)) as Hlist.
  { clear. induction cs as [|c cs IHcs]; intros n st rs H; [done|].
    apply Forall_cons in H as [Hc Hcs]. cbn [map rev app].
    change (list_sum (expr_nodes c :: map expr_nodes cs)) with (expr_nodes c + list_sum (map expr_nodes cs))%nat.
    rewrite Nat.mul_add_distr_l, <- Nat.add_assoc, Hc, IHcs by done. by rewrite <- app_assoc. }
  rewrite Hlist by done. cbn [rewrite_loop].
  destruct (rewrite_rec_assemble e rs) as (c & -> & ->). done.
Qed.

(** ** What the recursion returns *)

(** The plain bottom-up rewrite. *)
Fixpoint bottom_up (e : Expr) : Expr :=
  let rebuilt :=
    match e with
    | Expr.Load b i => Expr.Load b (bottom_up i)
    | Expr.BinOp op l r => Expr.BinOp op (bottom_up l) (bottom_up r)
    | Expr.UnOp op x => Expr.UnOp op (bottom_up x)
    | Expr.Call op_id args => Expr.Call op_id (map bottom_up args)
    | Expr.Select c t f => Expr.Select (bottom_up c) (bottom_up t) (bottom_up f)
    | Expr.Cast t v => Expr.Cast t (bottom_up v)
    | Expr.Fma a b c => Expr.Fma (bottom_up a) (bottom_up b) (bottom_up c)
    | Expr.Atomic op buffer i x v ordering =>
        Expr.Atomic op buffer (bottom_up i) (match x with Some y => Some (bottom_up y) | None => None end)
          (bottom_up v) ordering
    | Expr.SubgroupBallot c => Expr.SubgroupBallot (bottom_up c)
    | Expr.SubgroupShuffle v l => Expr.SubgroupShuffle (bottom_up v) (bottom_up l)
    | Expr.SubgroupAdd v => Expr.SubgroupAdd (bottom_up v)
    | _ => e
    end in
  default rebuilt (transform rebuilt).

(** Some node of the original tree is rewritten. *)
Fixpoint fires (e : Expr) : bool :=
  match transform e with Some _ => true | None => false end
  || match e with
     | Expr.Load _ x | Expr.UnOp _ x | Expr.Cast _ x
     | Expr.SubgroupAdd x | Expr.SubgroupBallot x => fires x
     | Expr.BinOp _ l r | Expr.SubgroupShuffle l r => fires l || fires r
     | Expr.Call _ args => existsb fires args
     | Expr.Select a b c | Expr.Fma a b c => fires a || fires b || fires c
     | Expr.Atomic _ _ i x v _ =>
         fires i || match x with Some y => fires y | None => false end || fires v
     | _ => false
     end.

(** A result: the rewritten tree, owned exactly when a rule fired, borrowed as it was. *)
Definition faithful (e : Expr) (c : Cow Expr) : Prop :=
  cow_value c = bottom_up e /\ is_owned c = fires e /\ (is_owned c = false -> cow_value c = e).
Lemma reuse_faithful (original rebuilt : Expr) changed :
  (changed = false -> rebuilt = original) ->
  cow_value (reuse original changed rebuilt) = rebuilt
  /\ is_owned (reuse original changed rebuilt) = changed.
Proof. intros H. destruct changed; cbn; [done|]. by rewrite H. Qed.
Lemma transform_faithful e c rebuilt sub :
  cow_value c = rebuilt -> is_owned c = sub -> (sub = false -> rebuilt = e) ->
  bottom_up e = default rebuilt (transform rebuilt) ->
  fires e = match transform e with Some _ => true | None => false end || sub ->
  faithful e (apply_transform transform c).
Proof.
  intros Hv Ho Hs Hb Hf. unfold faithful, apply_transform. rewrite Hv, Hb, Hf.
  destruct sub.
  - destruct (transform rebuilt); cbn; rewrite orb_true_r; [done|]. by rewrite Ho.
  - rewrite Hs in * by done. destruct (transform e); cbn; [done|]. by rewrite Ho.
Qed.

Lemma reuse_node e rebuilt changed sub :
  changed = sub -> (sub = false -> rebuilt = e) ->
  bottom_up e = default rebuilt (transform rebuilt) ->
  fires e = match transform e with Some _ => true | None => false end || sub ->
  faithful e (apply_transform transform (reuse e changed rebuilt)).
Proof.
  intros -> Hs Hb Hf. destruct (reuse_faithful e rebuilt sub Hs) as [Hv Ho].
  by apply (transform_faithful e _ rebuilt sub).
Qed.
Lemma map_faithful args (Hargs : Forall (fun x => faithful x (rec x)) args) :
  map cow_value (map rec args) = map bottom_up args
  /\ existsb is_owned (map rec args) = existsb fires args
  /\ (existsb fires args = false -> map bottom_up args = args).
Proof.
  induction Hargs as [|x args (Hv & Ho & Hs) _ (IHv & IHo & IHs)]; [done|].
  cbn [map existsb]. rewrite Hv, Ho, IHv, IHo. split; [done|]. split; [done|].
  intros [Hx Ha]%orb_false_iff. rewrite IHs by done. f_equal. rewrite <- Hv. apply Hs. by rewrite Ho.
Qed.

Lemma rewrite_rec_faithful e : faithful e (rec e).
Proof.
  induction e using Expr_ind'; cbn [rewrite_rec];
    repeat match goal with H : faithful _ _ |- _ => destruct H as (? & ? & ?) end;
    try (match goal with |- faithful ?e _ => apply (transform_faithful e _ e false) end; reflexivity);
    try (unfold rewrite_unary, rewrite_binary, rewrite_select, rewrite_fma, rewrite_shuffle;
         apply (reuse_node _ _ _ _ eq_refl); [|cbn [bottom_up]; congruence|cbn [fires]; congruence];
         rewrite ?orb_false_iff; intros; destruct_and?; f_equal; auto; fail).
  - destruct (map_faithful args H) as (Hv & Ho & Hs). unfold rewrite_call. rewrite Hv, Ho.
    apply (reuse_node _ _ _ _ eq_refl); [|done..]. intros Hf. by rewrite Hs.
  - unfold rewrite_atomic. destruct e2 as [y|]; cbn [Forall_opt] in *.
    + destruct H as (? & ? & ?). apply (reuse_node _ _ _ _ eq_refl);
        [|cbn [bottom_up fmap option_fmap option_map]; congruence|cbn [fires]; congruence].
      rewrite ?orb_false_iff. intros. destruct_and?. cbn. repeat f_equal; auto.
    + apply (reuse_node _ _ _ _ eq_refl);
        [|cbn [bottom_up fmap option_fmap option_map]; congruence|cbn [fires]; congruence].
      rewrite ?orb_false_iff. intros. destruct_and?. cbn. repeat f_equal; auto.
Qed.

(** ** Statements *)

Lemma rewrite_expr_rec e : rewrite_expr transform e = Some (rec e).
Proof.
  unfold rewrite_expr. replace (2 * expr_nodes e)%nat with (2 * expr_nodes e + 0)%nat by lia.
  by rewrite loop_expr.
Qed.
Lemma rewrite_operand_rec e : rewrite_operand transform e = rec e.
Proof. unfold rewrite_operand. by rewrite rewrite_expr_rec. Qed.

(** The expression positions the engine visits; the operands of asynchronous
    transfers are left alone. *)
Fixpoint map_exprs (f : Expr -> Expr) (n : Node) : Node :=
  match n with
  | Node.Let name e => Node.Let name (f e)
  | Node.Assign name e => Node.Assign name (f e)
  | Node.Store b i v => Node.Store b (f i) (f v)
  | Node.If c t o => Node.If (f c) (map (map_exprs f) t) (map (map_exprs f) o)
  | Node.Loop v a b body => Node.Loop v (f a) (f b) (map (map_exprs f) body)
  | Node.Block body => Node.Block (map (map_exprs f) body)
  | Node.Trap a tag => Node.Trap (f a) tag
  | Node.Region g s body => Node.Region g s (map (map_exprs f) body)
  | _ => n
  end.
Fixpoint node_fires (n : Node) : bool :=
  match n with
  | Node.Let _ e | Node.Assign _ e | Node.Trap e _ => fires e
  | Node.Store _ i v => fires i || fires v
  | Node.If c t o => fires c || existsb node_fires t || existsb node_fires o
  | Node.Loop _ a b body => fires a || fires b || existsb node_fires body
  | Node.Block body | Node.Region _ _ body => existsb node_fires body
  | _ => false
  end.

(** The same contract for statements and statement lists. *)
Definition tracks {A} (x rebuilt : A) (changed : bool) (c : Cow A) : Prop :=
  cow_value c = rebuilt /\ is_owned c = changed /\ (changed = false -> rebuilt = x).
Lemma reuse_tracks {A} (x rebuilt : A) changed :
  (changed = false -> rebuilt = x) -> tracks x rebuilt changed (reuse x changed rebuilt).
Proof. intros H. destruct changed; unfold tracks; cbn; [done|]. by rewrite H. Qed.
Lemma operand_tracks e : tracks e (bottom_up e) (fires e) (rewrite_operand transform e).
Proof.
  rewrite rewrite_operand_rec. destruct (rewrite_rec_faithful e) as (Hv & Ho & Hs).
  split; [done|]. split; [done|]. intros Hf. rewrite <- Hv. apply Hs. congruence.
Qed.
Lemma list_tracks (nodes : list Node) :
  Forall (fun n => tracks n (map_exprs bottom_up n) (node_fires n) (rewrite_node_cow transform n)) nodes ->
  tracks nodes (map (map_exprs bottom_up) nodes) (existsb node_fires nodes)
    (rewrite_list nodes (map (rewrite_node_cow transform) nodes)).
Proof.
  intros H. unfold rewrite_list.
  assert (map cow_value (map (rewrite_node_cow transform) nodes) = map (map_exprs bottom_up) nodes
    /\ existsb is_owned (map (rewrite_node_cow transform) nodes) = existsb node_fires nodes
    /\ (existsb node_fires nodes = false -> map (map_exprs bottom_up) nodes = nodes)) as (-> & -> & Hs).
  { induction H as [|n nodes (Hv & Ho & Hs) _ (IHv & IHo & IHs)]; [done|].
    cbn [map existsb]. rewrite Hv, Ho, IHv, IHo. split; [done|]. split; [done|].
    intros [Hx Ha]%orb_false_iff. by rewrite IHs, Hs. }
  by apply reuse_tracks.
Qed.

(** Reads the parts of a node that are already known. *)
Local Ltac use_tracks :=
  repeat match goal with
  | H : Forall _ ?l |- context [rewrite_list ?l _] =>
      destruct (list_tracks l H) as (-> & -> & ?); clear H
  | |- context [rewrite_operand transform ?e] => destruct (operand_tracks e) as (-> & -> & ?)
  end.
Lemma node_tracks n : tracks n (map_exprs bottom_up n) (node_fires n) (rewrite_node_cow transform n).
Proof.
  induction n using Node_ind'; try (split; [done|by split]);
    cbn [rewrite_node_cow map_exprs node_fires]; cbv zeta; use_tracks; apply reuse_tracks;
    rewrite ?orb_false_iff; intros; destruct_and?; f_equal; auto.
Qed.

Lemma rewrite_program_spec p :
  rewrite_program transform p
  = (with_rewritten_entry p (map (map_exprs bottom_up) (entry p)), existsb node_fires (entry p))
  /\ (existsb node_fires (entry p) = false ->
       with_rewritten_entry p (map (map_exprs bottom_up) (entry p)) = p).
Proof.
  destruct (list_tracks (entry p)) as (Hv & Ho & Hs).
  { apply Forall_forall. intros n _. apply node_tracks. }
  assert (existsb node_fires (entry p) = false ->
    with_rewritten_entry p (map (map_exprs bottom_up) (entry p)) = p) as Hid.
  { intros Hf. rewrite Hs by done. by destruct p. }
  split; [|done]. unfold rewrite_program, rewrite_nodes_cow.
  destruct (rewrite_list _ _) as [x|x]; cbn in Hv, Ho; rewrite <- Ho.
  - by rewrite Hid.
  - by rewrite Hv.
Qed.
End EngineProofs.

Module Engine.
(** C33: the rewrite engine is the bottom-up recursion: on every expression and
    transform the two-frame stack machine terminates within two steps per node without
    reaching an inconsistent stack; its result is the tree rewritten bottom up, it is
    owned exactly when some node of the original is rewritten, and a borrowed result
    is the original expression. *)
Theorem rewrite_expr_bottom_up (transform : Expr -> option Expr) e :
  exists c, rewrite_expr transform e = Some c
    /\ cow_value c = bottom_up transform e
    /\ is_owned c = fires transform e
    /\ (is_owned c = false -> cow_value c = e).
Proof.
  exists (rewrite_rec transform e). split; [apply rewrite_expr_rec|apply rewrite_rec_faithful].
Qed.

(** A pass changes only expressions: rewriting a program keeps its buffers,
    workgroup size, entry name and flag, maps the bottom-up rewrite over the expression
    positions of the entry, and reports a change exactly when a rule fires; without a
    change the program is returned as it was. *)
Theorem rewrite_program_exact (transform : Expr -> option Expr) p :
  let '(p', changed) := rewrite_program transform p in
  entry_op_id p' = entry_op_id p /\ buffers p' = buffers p
  /\ workgroup_size p' = workgroup_size p
  /\ non_composable_with_self p' = non_composable_with_self p
  /\ entry p' = map (map_exprs (bottom_up transform)) (entry p)
  /\ changed = existsb (node_fires transform) (entry p)
  /\ (changed = false -> p' = p).
Proof.
  destruct (rewrite_program_spec transform p) as [-> Hid]. split_and!; try done.
Qed.
End Engine.
