(* ===== verification/RewriteSound.v ===== *)
(** Rewriting preserves evaluation.

    [SoundTransform] is the contract between a rewrite rule and the engine: a rule
    may assume that the operands it sees hold well-formed values, and owes that every
    successful evaluation of the redex is an evaluation of its replacement.
    [bottom_up_simulates] is proved against the contract for every expression form;
    the integer rules of strength reduction discharge it. *)

From S2P Require Import Prelude Float Spec IR RefValue RefMemory RefEval DivMagic StrengthReduce.
From S2P Require Import StrengthReduceSound Rewrite.

(** ** Successful runs of the evaluation monad *)

Lemma M_bind_inv {A B} (x : M A) (f : A -> M B) m b m2 :
  (x ≫= f) m = Ok (b, m2) -> exists a m1, x m = Ok (a, m1) /\ f a m1 = Ok (b, m2).
Proof. unfold mbind, M_bind. destruct (x m) as [[a m1]|]; [|done]. eauto. Qed.
Lemma M_bind_run {A B} (x : M A) (f : A -> M B) m a m1 :
  x m = Ok (a, m1) -> (x ≫= f) m = f a m1.
Proof. unfold mbind, M_bind. by intros ->. Qed.
Lemma lift_inv {A} (x : interp A) m a m' : lift x m = Ok (a, m') -> x = Ok a /\ m' = m.
Proof. unfold lift. destruct x; [|done]. by intros [= -> ->]. Qed.

(** Opens a successful run: one equation per bind. *)
Ltac run_inv H :=
  repeat match type of H with
  | (_ ≫= _) _ = Ok _ =>
      let a := fresh "x" in let m := fresh "m" in let E := fresh "E" in
      apply M_bind_inv in H as (a & m & E & H)
  end.

Section Contract.
Context (fe : FloatEnv) (dialect : option (string -> option OpDef)).
Context (inv : Invocation) (p : Program).
Abbreviation eval := (eval_rec fe dialect inv p).

(** The memory is well formed, and the operands of a binary node evaluate to values
    inside their widths. *)
Definition operands_wf (e : Expr) (m : Memory) : Prop :=
  memory_ok m /\
  match e with
  | Expr.BinOp _ l r => forall a m1, eval l m = Ok (a, m1) ->
      value_wf a /\ forall b m2, eval r m1 = Ok (b, m2) -> value_wf b
  | _ => True
  end.

Class SoundTransform (t : Expr -> option Expr) : Prop := sound_transform :
  forall e e' m v m', t e = Some e' -> operands_wf e m ->
    eval e m = Ok (v, m') -> eval e' m = Ok (v, m').

(** Every successful evaluation of [e] is one of [e']. *)
Definition simulates (e e' : Expr) : Prop := forall m v m',
  memory_ok m -> eval e m = Ok (v, m') -> eval e' m = Ok (v, m').

Context (Hinv : invocation_ok inv) (Hd : dialect_ok dialect).

Lemma eval_keeps_width e m v m' : in_width e = true -> memory_ok m -> eval e m = Ok (v, m') ->
  value_wf v /\ memory_ok m'.
Proof.
  intros He Hm Hv. pose proof (eval_in_width fe dialect inv p e Hinv Hd He m Hm) as H.
  rewrite Hv in H. by destruct H as (? & ? & _).
Qed.
Lemma eval_keeps e m v m' : expr_repr e -> memory_ok m -> eval e m = Ok (v, m') ->
  value_wf v /\ memory_ok m'.
Proof.
  intros He. by apply eval_keeps_width, expr_repr_in_width.
Qed.

Lemma encode_inputs_simulates args args' inputs : Forall expr_repr args ->
  Forall2 simulates args args' -> forall input m out m',
  memory_ok m -> encode_inputs eval args inputs input m = Ok (out, m') ->
  encode_inputs eval args' inputs input m = Ok (out, m').
Proof.
  intros Hr Hs. revert inputs. induction Hs as [|a a' args args' Ha _ IH];
    intros [|ty inputs] input m out m' Hm H; try done.
  apply Forall_cons in Hr as [Hra Hr]. cbn [encode_inputs] in H |- *.
  apply M_bind_inv in H as (u1 & m1 & E1 & H). rewrite (M_bind_run _ _ _ _ _ E1).
  apply lift_inv in E1 as [_ ->].
  apply M_bind_inv in H as (u2 & m2 & E2 & H). rewrite (M_bind_run _ _ _ _ _ E2).
  apply lift_inv in E2 as [_ ->].
  apply M_bind_inv in H as (v & m3 & E3 & H). rewrite (M_bind_run _ _ _ _ _ (Ha _ _ _ Hm E3)).
  apply M_bind_inv in H as (o & m4 & E4 & H). rewrite (M_bind_run _ _ _ _ _ E4).
  apply lift_inv in E4 as [_ ->]. apply IH; [done| |done]. by apply (eval_keeps a m v).
Qed.

Section Sim.
Context (t : Expr -> option Expr) `{Ht : !SoundTransform t}.

(** Applying the rule to a rebuilt node. *)
Lemma transform_run rebuilt m v m' : operands_wf rebuilt m -> eval rebuilt m = Ok (v, m') ->
  eval (default rebuilt (t rebuilt)) m = Ok (v, m').
Proof.
  intros Hw Hv. destruct (t rebuilt) as [e'|] eqn:E; cbn [default from_option]; [|done].
  by apply (sound_transform rebuilt e' m).
Qed.

(** Re-runs the binds of [H] on the rewritten operands. *)
Local Ltac rerun H :=
  cbn [eval_rec] in H |- *;
  repeat match type of H with
  | (_ ≫= _) _ = Ok _ =>
      let E := fresh "E" in
      apply M_bind_inv in H as (? & ? & E & H);
      match type of E with
      | eval_rec _ _ _ _ ?e ?m = Ok _ =>
          match goal with IH : _ -> simulates e _ |- _ =>
            let S := fresh "S" in
            assert (S := IH ltac:(assumption) m _ _ ltac:(assumption) E);
            rewrite (M_bind_run _ _ _ _ _ S); clear S;
            apply (eval_keeps e m) in E as [? ?]; [|assumption|assumption]
          end
      | _ => rewrite (M_bind_run _ _ _ _ _ E); apply lift_inv in E as [? ->]
      end
  end;
  try exact H.

Lemma bottom_up_simulates e : expr_repr e -> simulates e (bottom_up t e).
Proof.
  induction e using Expr_ind'; cbn [expr_repr bottom_up]; cbv zeta; intros Hr m v0 m' Hm Hv;
    destruct_and?; try (apply transform_run; [by split|exact Hv]);
    try (apply transform_run; [by split|rerun Hv]; fail).
  - apply transform_run; [split; [done|]|rerun Hv]. cbn [eval_rec] in Hv. intros a m1 Ha.
    apply M_bind_inv in Hv as (a' & m1' & Ea & Hv). apply M_bind_inv in Hv as (b' & m2' & Eb & _).
    destruct (eval_keeps e1 m a' m1') as [Wa Hm1]; [done..|].
    rewrite (IHe1 ltac:(assumption) _ _ _ Hm Ea) in Ha. injection Ha as <- <-.
    split; [done|]. intros b m2 Hb. rewrite (IHe2 ltac:(assumption) _ _ _ Hm1 Eb) in Hb.
    injection Hb as <- <-. by apply (eval_keeps e2 m1' b' m2').
  - apply transform_run; [by split|]. cbn [eval_rec] in Hv |- *. unfold eval_call in *.
    apply Forall_list_Forall in H1.
    apply M_bind_inv in Hv as (def & m1 & E1 & Hv). rewrite (M_bind_run _ _ _ _ _ E1).
    apply lift_inv in E1 as [_ ->].
    apply M_bind_inv in Hv as (u & m2 & E2 & Hv). rewrite length_map, (M_bind_run _ _ _ _ _ E2).
    apply lift_inv in E2 as [_ ->].
    apply M_bind_inv in Hv as (input & m3 & E3 & Hv). rewrite (M_bind_run _ _ _ input m3); [done|].
    apply (encode_inputs_simulates args); [done| |done|done].
    clear -H H1. induction H as [|a args Ha _ IH]; [constructor|].
    apply Forall_cons in H1 as [? ?]. constructor; auto.
  - apply transform_run; [by split|]. destruct e2 as [y|]; cbn [Forall_opt] in *.
    + rerun Hv. apply M_bind_inv in Hv as (ox & m2 & E & Hv).
      rewrite (M_bind_run _ _ _ ox m2); [|by rerun E].
      assert (memory_ok m2) as Hm2.
      { apply M_bind_inv in E as (a & m3 & Ea & E). apply M_bind_inv in E as (z & m4 & Ez & E).
        apply lift_inv in Ez as [_ ->]. injection E as _ <-.
        by eapply (eval_keeps y); [| |exact Ea]. }
      rerun Hv.
    + rerun Hv. apply M_bind_inv in Hv as (ox & m2 & E & Hv). rewrite (M_bind_run _ _ _ _ _ E).
      injection E as <- <-. rerun Hv.
Qed.
End Sim.
End Contract.

(** ** Strength reduction discharges the contract *)

(** No atomic inside: evaluation reads memory but does not write it. *)
Fixpoint effect_free (e : Expr) : bool :=
  match e with
  | Expr.Load _ x | Expr.UnOp _ x | Expr.Cast _ x
  | Expr.SubgroupAdd x | Expr.SubgroupBallot x => effect_free x
  | Expr.BinOp _ l r | Expr.SubgroupShuffle l r => effect_free l && effect_free r
  | Expr.Call _ args => forallb effect_free args
  | Expr.Select a b c | Expr.Fma a b c => effect_free a && effect_free b && effect_free c
  | Expr.Atomic _ _ _ _ _ _ => false
  | _ => true
  end.

Definition is_u32_literal (e : Expr) : bool := match e with Expr.LitU32 _ => true | _ => false end.

(** The rules that are exact wherever they fire: Horner form; and a rule on an operator
    with an unsigned literal operand, whose operands have no effects, inside its exact
    range. *)
Definition exact_redex (e : Expr) : bool :=
  match horner_polynomial_int e with
  | Some _ => true
  | None =>
      match e with
      | Expr.BinOp op l r =>
          (is_u32_literal l || is_u32_literal r) && effect_free l && effect_free r && exact_rule l r op
      | _ => false
      end
  end.
Definition exact_reduce (e : Expr) : option Expr := if exact_redex e then reduce_expr e else None.

Section Discharge.
Context (fe : FloatEnv) (dialect : option (string -> option OpDef)).
Context (inv : Invocation) (p : Program).
Abbreviation eval := (eval_rec fe dialect inv p).

Lemma encode_inputs_pure args : Forall (fun a => forall m v m', eval a m = Ok (v, m') -> m' = m) args ->
  forall inputs input m out m', encode_inputs eval args inputs input m = Ok (out, m') -> m' = m.
Proof.
  induction 1 as [|a args Ha _ IH]; intros [|ty inputs] input m out m' H;
    try (by injection H as _ <-). cbn [encode_inputs] in H. run_inv H.
  repeat match goal with E : lift _ _ = Ok _ |- _ => apply lift_inv in E as [_ ->] end.
  apply IH in H as ->. by eapply Ha.
Qed.
(** Every step of a run that cannot write keeps the memory. *)
Local Ltac pure_steps :=
  repeat match goal with
  | E : lift _ _ = Ok (_, _) |- _ => apply lift_inv in E as [_ ->]
  | E : get_memory _ = Ok (_, _) |- _ => injection E as _ <-
  | E : mret _ _ = Ok (_, _) |- _ => injection E as _ <-
  | E : eval_rec _ _ _ _ ?e _ = Ok (_, _), IH : effect_free ?e = true -> _ |- _ =>
      apply IH in E; [subst|assumption]
  end.
Lemma effect_free_pure e : effect_free e = true -> forall m v m', eval e m = Ok (v, m') -> m' = m.
Proof.
  induction e using Expr_ind'; cbn [effect_free]; try discriminate; intros He m v0 m' H0;
    rewrite ?andb_true_iff in He; destruct_and?; cbn [eval_rec] in H0; try discriminate H0;
    try (by injection H0 as _ <-); unfold eval_load, eval_buf_len, eval_call in H0;
    run_inv H0; pure_steps; try done.
  - eapply encode_inputs_pure; [|done]. rewrite forallb_forall in He. apply Forall_forall.
    intros a Ha. rewrite Forall_forall in H. apply (H a Ha), He, list_elem_of_In, Ha.
Qed.

(** An operator with an unsigned operand that evaluates has two. *)
Lemma u32_operands op a b v z : a = Value.U32 z \/ b = Value.U32 z -> eval_binop fe op a b = Ok v ->
  exists x y, a = Value.U32 x /\ b = Value.U32 y.
Proof. intros [->| ->] H; [destruct b|destruct a]; try discriminate H; eauto. Qed.

(** Horner form fires on polynomials with a literal, so on 32-bit integers. *)
Definition tag (v : Value) : nat :=
  match v with
  | Value.U32 _ => 0 | Value.I32 _ => 1 | Value.U64 _ => 2 | Value.Bool _ => 3
  | Value.Bytes _ => 4 | Value.Float _ => 5 | Value.Array _ => 6
  end.
Lemma arith_tag op f a b v : arith_op op f -> eval_binop fe op a b = Ok v -> tag a = tag v /\ tag b = tag v.
Proof.
  intros Hop. destruct Hop as [[-> ->]|[-> ->]]; destruct a, b; try discriminate;
    unfold eval_binop, binop_f32; match goal with
      |- _ -> tag ?a = _ /\ tag ?b = _ => apply (ok_elim (fun w => tag a = tag w /\ tag b = tag w))
    end; by split.
Qed.
Definition has_tag (e : Expr) (k : nat) : Prop := exists m v m', eval e m = Ok (v, m') /\ tag v = k.
Lemma factors_tag e : forall m v m', eval e m = Ok (v, m') ->
  Forall (fun f => has_tag f (tag v)) (collect_mul_factors e).
Proof.
  assert (forall e m v m', eval e m = Ok (v, m') -> Forall (fun f => has_tag f (tag v)) [e]) as Hone.
  { intros e0 m v m' H. constructor; [by exists m, v, m'|constructor]. }
  induction e using Expr_ind'; try exact (Hone _). destruct op; try exact (Hone _).
  intros m v m' H. cbn [collect_mul_factors].
  destruct (eval_bin_inv _ _ _ _ _ _ _ _ _ _ H) as (a & m1 & b & Hl & Hr & Hv).
  destruct (arith_tag BinOp.Mul Z.mul a b v) as [Ta Tb]; [by right|done|].
  apply Forall_app. split; [rewrite <- Ta|rewrite <- Tb]; eauto.
Qed.
Lemma terms_tag e : forall m v m', eval e m = Ok (v, m') ->
  Forall (fun f => has_tag f (tag v)) (collect_add_terms e).
Proof.
  assert (forall e m v m', eval e m = Ok (v, m') -> Forall (fun f => has_tag f (tag v)) [e]) as Hone.
  { intros e0 m v m' H. constructor; [by exists m, v, m'|constructor]. }
  induction e using Expr_ind'; try exact (Hone _). destruct op; try exact (Hone _).
  intros m v m' H. cbn [collect_add_terms].
  destruct (eval_bin_inv _ _ _ _ _ _ _ _ _ _ H) as (a & m1 & b & Hl & Hr & Hv).
  destruct (arith_tag BinOp.Add Z.add a b v) as [Ta Tb]; [by left|done|].
  apply Forall_app. split; [rewrite <- Ta|rewrite <- Tb]; eauto.
Qed.

Definition is_int_literal (e : Expr) : bool :=
  match e with Expr.LitU32 _ | Expr.LitI32 _ => true | _ => false end.
Lemma mul_factors_kind factors : forall acc o k, mul_factors acc factors = Some o ->
  mono_kind acc = None -> mono_kind o = Some k -> Exists is_int_literal factors.
Proof.
  induction factors as [|f factors IH]; intros acc o k H Ha Ho; cbn [mul_factors] in H.
  { injection H as <-. congruence. }
  apply bind_Some in H as (acc' & Hf & H).
  destruct f; try discriminate Hf; try (left; done).
  right. apply (IH acc' o k); [done| |done]. unfold mul_factor in Hf.
  apply bind_Some in Hf as (x & _ & Hf). by injection Hf as <-.
Qed.
Lemma monomial_kind e o k : monomial_int_term e = Some o -> mono_kind o = Some k ->
  Exists is_int_literal (collect_mul_factors e).
Proof.
  intros H Ho. destruct e; try (left; done); cbn [monomial_int_term] in H; try discriminate H.
  { injection H as <-. discriminate Ho. }
  destruct (_ <? 2)%nat; [done|]. by eapply mul_factors_kind.
Qed.
Lemma add_terms_kind terms : forall acc o k, add_terms acc terms = Some o ->
  poly_kind acc = None -> poly_kind o = Some k ->
  Exists (fun t => Exists is_int_literal (collect_mul_factors t)) terms.
Proof.
  induction terms as [|t terms IH]; intros acc o k H Ha Ho; cbn [add_terms] in H.
  { injection H as <-. congruence. }
  apply bind_Some in H as (acc' & Ht & H). unfold add_term in Ht.
  apply bind_Some in Ht as (mono & Hm & Ht). destruct (_ <? _); [done|].
  apply bind_Some in Ht as (var & _ & Ht). apply bind_Some in Ht as (kind & Hk & Ht).
  cbv zeta in Ht. destruct (mono_kind mono) as [k'|] eqn:E.
  - left. by eapply monomial_kind.
  - right. apply (IH acc' o k); [done| |done]. rewrite Ha in Hk. injection Hk as <-.
    destruct (_ !! _) as [[|]|]; try discriminate Ht. by injection Ht as <-.
Qed.
Lemma int_literal_tag e k : is_int_literal e = true -> has_tag e k -> k = 0%nat \/ k = 1%nat.
Proof.
  intros He (m & v & m' & H & <-). destruct e; try discriminate He; injection H as <- _; auto.
Qed.
Lemma horner_integer e e' m v m' : horner_polynomial_int e = Some e' -> eval e m = Ok (v, m') ->
  tag v = 0%nat \/ tag v = 1%nat.
Proof.
  intros H Hv. unfold horner_polynomial_int in H. destruct (_ <? 2)%nat; [done|].
  apply bind_Some in H as (poly & Hp & H). apply bind_Some in H as (k & Hk & _).
  apply (add_terms_kind _ _ _ _ Hp eq_refl) in Hk.
  apply Exists_exists in Hk as (t & Ht & Hk). apply terms_tag in Hv. rewrite Forall_forall in Hv.
  destruct (Hv t Ht) as (m1 & v1 & m2 & E & Tv). rewrite <- Tv.
  apply Exists_exists in Hk as (f & Hf & Hl). apply factors_tag in E. rewrite Forall_forall in E.
  by apply (int_literal_tag f); [destruct (is_int_literal f)|apply E].
Qed.
Lemma horner_exact e e' m v m' : horner_polynomial_int e = Some e' -> eval e m = Ok (v, m') ->
  eval e' m = Ok (v, m').
Proof.
  intros H Hv. destruct v as [z|z| | | | |]; try (by destruct (horner_integer _ _ _ _ _ H Hv)).
  - by apply (horner_sound fe dialect inv p m e e' KU32 (Value.U32 z) z).
  - by apply (horner_sound fe dialect inv p m e e' KI32 (Value.I32 z) z).
Qed.

#[global] Instance exact_reduce_sound : SoundTransform fe dialect inv p exact_reduce.
Proof.
  intros e e' m v m' H Hwf Hv. unfold exact_reduce, exact_redex in H.
  destruct (horner_polynomial_int e) as [h|] eqn:Eh.
  { unfold reduce_expr in H. rewrite Eh in H. injection H as <-. by apply (horner_exact e). }
  destruct e as [| | | | | | | | | |op l r| | | | | | | | | | | |]; try discriminate H.
  destruct (_ && _) eqn:Hx; [|done]. rewrite !andb_true_iff in Hx. destruct Hx as [[[Hlit Hpl] Hpr] Hx].
  destruct (eval_bin_inv _ _ _ _ _ _ _ _ _ _ Hv) as (a & m1 & b & Hl & Hr & Hop).
  destruct (proj2 Hwf a m1 Hl) as [Wa Wb]. specialize (Wb b m' Hr).
  assert (m1 = m) as -> by by apply (effect_free_pure l Hpl m a).
  assert (m' = m) as -> by by apply (effect_free_pure r Hpr m b).
  assert (exists z, a = Value.U32 z \/ b = Value.U32 z) as [z Hz].
  { apply orb_true_iff in Hlit as [E|E]; [destruct l|destruct r]; try discriminate E;
      [injection Hl as <-|injection Hr as <-]; eauto. }
  destruct (u32_operands op a b v z Hz Hop) as (x & y & -> & ->).
  destruct (reduce_table_sound fe dialect inv p m l r x y Hl Hr Wa Wb op e' Hx H) as (w & Hw & He).
  rewrite Hw in Hop. injection Hop as <-. exact He.
Qed.
End Discharge.

Module Pass.
(** C7: strength reduction preserves evaluation: on an expression whose every rewritten
    node is in the exact range of its rule (a Horner polynomial, or an operator with an
    unsigned literal operand and operands without effects, outside the four excluded
    forms), whatever value and memory the expression evaluates to, the expression the
    pass puts in its place evaluates to as well. *)
Theorem strength_reduce_simulates fe dialect inv p e e' m r
    (Hinv : invocation_ok inv) (Hd : dialect_ok dialect) (Hm : memory_ok m)
    (He : expr_repr e) (Hexact : bottom_up reduce_expr e = bottom_up exact_reduce e)
    (Hrun : cow_value <$> rewrite_expr reduce_expr e = Some e')
    (Hr : eval_frame_oracle fe dialect inv p e m = Ok r) :
  eval_frame_oracle fe dialect inv p e' m = Ok r.
Proof.
  rewrite rewrite_expr_rec in Hrun. destruct (rewrite_rec_faithful reduce_expr e) as (Hv & _).
  cbn in Hrun. rewrite Hv, Hexact in Hrun. injection Hrun as <-.
  rewrite oracle_rec in Hr |- *. destruct r as [v m'].
  by apply (bottom_up_simulates fe dialect inv p Hinv Hd exact_reduce e He m).
Qed.
(** [acc[0] * 27 / 7] at [acc[0] = 7]. *)
Definition scaled : Expr := Expr.BinOp BinOp.Div (mul (Expr.Load "acc" (lit 0)) (lit 27)) (lit 7).
Lemma strength_reduce_simulates_witness :
  exists e', cow_value <$> rewrite_expr reduce_expr scaled = Some e' /\ e' <> scaled
    /\ eval_frame_oracle TypedOps.zero_env None Evaluator.acc_inv Evaluator.acc_program e'
         (Evaluator.acc_memory 7) = Ok (Value.U32 27, Evaluator.acc_memory 7).
Proof.
  exists (bottom_up reduce_expr scaled). split; [vm_compute; reflexivity|]. split; [vm_compute; discriminate|].
  apply (strength_reduce_simulates TypedOps.zero_env None Evaluator.acc_inv Evaluator.acc_program scaled).
  - repeat split; try constructor; lia.
  - by intros ?.
  - split; [|constructor]. constructor; [|constructor].
    split; [split; [apply le_bytes_range|by vm_compute]|]. cbn. split; [lia|].
    split; intros ? [= <-]; lia.
  - cbn. repeat split; unfold inu; lia.
  - vm_compute; reflexivity.
  - vm_compute; reflexivity.
  - vm_compute; reflexivity.
Defined.
End Pass.
