(* ===== verification/ConstEval.v ===== *)
(** Literal evaluation (vyre-foundation: runtime/ir_eval.rs).

    The folder replaces an operator on literals by a literal.  The library functions
    of [libm] are those of the interpreter's environment.  [fold_literal_tree_sound]
    relates the folder to the reference interpreter for all four literal types. *)

From S2P Require Import Prelude Float Spec IR RefValue RefMemory RefEval DivMagic StrengthReduce.
From S2P Require Import StrengthReduceSound Rewrite RewriteSound.

(** ** Rust scalars *)

Definition i32_wrapping_div (a b : Z) : Z := wraps 32 (Z.quot a b).
Definition i32_wrapping_rem (a b : Z) : Z := wraps 32 (Z.rem a b).
(** [wrapping_shl] and [wrapping_shr] reduce the amount modulo the width. *)
Definition u32_wrapping_shr (a k : Z) : Z := Z.shiftr a (Z.land k 31).
Definition i32_wrapping_shl (a k : Z) : Z := wraps 32 (Z.shiftl a (Z.land k 31)).
Definition i32_wrapping_shr (a k : Z) : Z := Z.shiftr a (Z.land k 31).
(** [rotate_left] on the bits of an [i32]. *)
Definition i32_rotate_left (a k : Z) : Z := wraps 32 (rotate_left_u32 (wrapu 32 a) k).
Definition i32_rotate_right (a k : Z) : Z := wraps 32 (rotate_right_u32 (wrapu 32 a) k).

(** [%] on floats: the remainder of the truncated quotient is exact and has the sign
    of the dividend. *)
Definition fp_rem (x y : fp) : fp :=
  match x, y with
  | NaN, _ | _, NaN | Inf _, _ => NaN
  | Fin s m e, Inf _ => Fin s m e
  | Fin s m e, Fin _ n g =>
      if n =? 0 then NaN
      else let e0 := Z.min e g in Fin s ((m * 2 ^ (e - e0)) mod (n * 2 ^ (g - e0))) e0
  end.
Definition f32_rem (a b : Z) : Z := f32_lift2 fp_rem a b.
Definition f32_is_infinite (a : Z) : bool := f32_magnitude a =? 0x7F800000.
Definition f32_neg (a : Z) : Z := Z.lxor a 0x80000000.
(** [f32::signum] keeps the sign of zeros. *)
Definition f32_signum (a : Z) : Z :=
  if f32_is_nan a then a else Z.lor (Z.land a 0x80000000) F32_ONE.

Example f32_rem_ex : f32_rem 0xC0F00000 0x40000000 = 0xBFC00000.   (* -7.5 % 2 = -1.5 *)
Proof. reflexivity. Qed.

Section Fold.
Context (fe : FloatEnv).

(** ** One operator on literals *)

Definition fold_u32_binary (op : BinOp) (a b : Z) : option Expr :=
  let num x := Some (Expr.LitU32 x) in
  let bool c := Some (Expr.LitBool c) in
  match op with
  | BinOp.Add | BinOp.WrappingAdd => num (wrapu 32 (a + b))
  | BinOp.Sub | BinOp.WrappingSub => num (wrapu 32 (a - b))
  | BinOp.Mul => num (wrapu 32 (a * b))
  | BinOp.Div => num (if b =? 0 then U32_MAX else a / b)
  | BinOp.Mod => num (if b =? 0 then 0 else a mod b)
  | BinOp.BitAnd => num (Z.land a b)
  | BinOp.BitOr => num (Z.lor a b)
  | BinOp.BitXor => num (Z.lxor a b)
  | BinOp.Shl => num (wrapping_shl a (b mod 32))
  | BinOp.Shr => num (u32_wrapping_shr a (b mod 32))
  | BinOp.Eq => bool (a =? b)
  | BinOp.Ne => bool (negb (a =? b))
  | BinOp.Lt => bool (a <? b)
  | BinOp.Gt => bool (b <? a)
  | BinOp.Le => bool (a <=? b)
  | BinOp.Ge => bool (b <=? a)
  | BinOp.And => bool (negb (a =? 0) && negb (b =? 0))
  | BinOp.Or => bool (negb (a =? 0) || negb (b =? 0))
  | BinOp.Min => num (Z.min a b)
  | BinOp.Max => num (Z.max a b)
  | BinOp.AbsDiff => num (Z.abs (a - b))
  | BinOp.SaturatingAdd => num (clamp 0 U32_MAX (a + b))
  | BinOp.SaturatingSub => num (clamp 0 U32_MAX (a - b))
  | BinOp.SaturatingMul => num (clamp 0 U32_MAX (a * b))
  | BinOp.RotateLeft => num (rotate_left_u32 a (b mod 32))
  | BinOp.RotateRight => num (rotate_right_u32 a (b mod 32))
  | BinOp.MulHigh => num (wrapu 32 (Z.shiftr (wrapu 64 (a * b)) 32))
  | _ => None
  end.

Definition fold_i32_binary (op : BinOp) (a b : Z) : option Expr :=
  let num x := Some (Expr.LitI32 x) in
  let bool c := Some (Expr.LitBool c) in
  match op with
  | BinOp.Add | BinOp.WrappingAdd => num (wraps 32 (a + b))
  | BinOp.Sub | BinOp.WrappingSub => num (wraps 32 (a - b))
  | BinOp.Mul => num (wraps 32 (a * b))
  | BinOp.Div => if b =? 0 then num 0 else num (i32_wrapping_div a b)
  | BinOp.Mod => if b =? 0 then num 0 else num (i32_wrapping_rem a b)
  | BinOp.BitAnd => num (Z.land a b)
  | BinOp.BitOr => num (Z.lor a b)
  | BinOp.BitXor => num (Z.lxor a b)
  | BinOp.Shl => if b <? 0 then None else num (i32_wrapping_shl a (wrapu 32 b mod 32))
  | BinOp.Shr => if b <? 0 then None else num (i32_wrapping_shr a (wrapu 32 b mod 32))
  | BinOp.Eq => bool (a =? b)
  | BinOp.Ne => bool (negb (a =? b))
  | BinOp.Lt => bool (a <? b)
  | BinOp.Gt => bool (b <? a)
  | BinOp.Le => bool (a <=? b)
  | BinOp.Ge => bool (b <=? a)
  | BinOp.And => bool (negb (a =? 0) && negb (b =? 0))
  | BinOp.Or => bool (negb (a =? 0) || negb (b =? 0))
  | BinOp.Min => num (Z.min a b)
  | BinOp.Max => num (Z.max a b)
  | BinOp.AbsDiff => Some (Expr.LitU32 (Z.abs (a - b)))
  | BinOp.SaturatingAdd => num (clamp I32_MIN I32_MAX (a + b))
  | BinOp.SaturatingSub => num (clamp I32_MIN I32_MAX (a - b))
  | BinOp.SaturatingMul => num (clamp I32_MIN I32_MAX (a * b))
  | BinOp.RotateLeft => num (i32_rotate_left a (wrapu 32 b mod 32))
  | BinOp.RotateRight => num (i32_rotate_right a (wrapu 32 b mod 32))
  | _ => None
  end.

Definition fold_bool_binary (op : BinOp) (a b : bool) : option Expr :=
  let bool c := Some (Expr.LitBool c) in
  match op with
  | BinOp.And => bool (a && b)
  | BinOp.Or => bool (a || b)
  | BinOp.BitXor => bool (xorb a b)
  | BinOp.Eq => bool (Bool.eqb a b)
  | BinOp.Ne => bool (negb (Bool.eqb a b))
  | _ => None
  end.

Definition fold_f32_binary (op : BinOp) (a b : Z) : option Expr :=
  let a := canonical_f32 a in
  let b := canonical_f32 b in
  if f32_is_nan a || f32_is_nan b then None
  else
    let num x := Some (Expr.LitF32 (canonical_f32 x)) in
    let bool c := Some (Expr.LitBool c) in
    match op with
    | BinOp.Add => num (f32_lift2 fp_add a b)
    | BinOp.Sub => num (f32_lift2 (fun x y => fp_add x (fp_neg y)) a b)
    | BinOp.Mul => num (f32_lift2 fp_mul a b)
    | BinOp.Div => if f32_eq b 0 then None else num (f32_lift2 (fp_div binary32) a b)
    | BinOp.Mod => if f32_eq b 0 then None else num (f32_rem a b)
    | BinOp.Eq => bool (f32_cmp fp_eq a b)
    | BinOp.Ne => bool (negb (f32_cmp fp_eq a b))
    | BinOp.Lt => bool (f32_cmp fp_lt a b)
    | BinOp.Gt => bool (f32_cmp fp_gt a b)
    | BinOp.Le => bool (f32_cmp fp_le a b)
    | BinOp.Ge => bool (f32_cmp fp_ge a b)
    | BinOp.Min => num (f32_select (f32_cmp fp_lt) (min_tie fe) a b)
    | BinOp.Max => num (f32_select (f32_cmp fp_gt) (max_tie fe) a b)
    | _ => None
    end.

(** The operators that go through [f32] on integer literals, the operand converted. *)
Definition fold_int_float (op : UnOp) (v : Z) : option Expr :=
  let x := int_as_f32 v in
  let num y := Some (Expr.LitF32 y) in
  match op with
  | UnOp.Sqrt => num (sqrtf fe x)
  | UnOp.InverseSqrt => num (f32_recip (sqrtf fe x))
  | UnOp.Reciprocal => num (f32_recip x)
  | UnOp.Exp => num (expf fe x)
  | UnOp.Exp2 => num (exp2f fe x)
  | UnOp.Log => num (logf fe x)
  | UnOp.Log2 => num (log2f fe x)
  | UnOp.Sin => num (sinf fe x)
  | UnOp.Cos => num (cosf fe x)
  | UnOp.Tan => num (tanf fe x)
  | UnOp.Asin => num (asinf fe x)
  | UnOp.Acos => num (acosf fe x)
  | UnOp.Atan => num (atanf fe x)
  | UnOp.Sinh => num (sinhf fe x)
  | UnOp.Cosh => num (coshf fe x)
  | UnOp.Tanh => num (tanhf fe x)
  | UnOp.Floor | UnOp.Ceil | UnOp.Round | UnOp.Trunc => num x
  | UnOp.IsNan | UnOp.IsInf => Some (Expr.LitBool false)
  | UnOp.IsFinite => Some (Expr.LitBool true)
  | _ => None
  end.

Definition fold_u32_unary (op : UnOp) (v : Z) : option Expr :=
  let num x := Some (Expr.LitU32 x) in
  match op with
  | UnOp.Negate => num (wrapping_neg v)
  | UnOp.BitNot => num (wrapu 32 (Z.lnot v))
  | UnOp.LogicalNot => Some (Expr.LitBool (v =? 0))
  | UnOp.Popcount => num (count_ones 32 v)
  | UnOp.Clz => num (leading_zeros 32 v)
  | UnOp.Ctz => num (trailing_zeros 32 v)
  | UnOp.ReverseBits => num (reverse_bits 32 v)
  | UnOp.Abs => num v
  | UnOp.Sign => Some (Expr.LitF32 (if v =? 0 then 0 else F32_ONE))
  | UnOp.Unpack4Low => num (Z.land v 0x0F)
  | UnOp.Unpack4High => num (Z.land (Z.shiftr v 4) 0x0F)
  | UnOp.Unpack8Low => num (Z.land v 0xFF)
  | UnOp.Unpack8High => num (Z.land (Z.shiftr v 24) 0xFF)
  | _ => fold_int_float op v
  end.

Definition fold_i32_unary (op : UnOp) (v : Z) : option Expr :=
  let num x := Some (Expr.LitI32 x) in
  match op with
  | UnOp.Negate => num (wraps 32 (- v))
  | UnOp.BitNot => num (Z.lnot v)
  | UnOp.LogicalNot => Some (Expr.LitBool (v =? 0))
  | UnOp.Popcount => num (count_ones 32 v)
  | UnOp.Clz => num (leading_zeros 32 v)
  | UnOp.Ctz => num (trailing_zeros 32 v)
  | UnOp.ReverseBits => num (wraps 32 (reverse_bits 32 v))
  | UnOp.Abs => num (wraps 32 (Z.abs v))
  | UnOp.Sign => Some (Expr.LitF32 (if v =? 0 then 0 else int_as_f32 (Z.sgn v)))
  | _ => fold_int_float op v
  end.

Definition fold_bool_unary (op : UnOp) (v : bool) : option Expr :=
  match op with
  | UnOp.LogicalNot | UnOp.BitNot => Some (Expr.LitBool (negb v))
  | UnOp.IsNan | UnOp.IsInf => Some (Expr.LitBool false)
  | UnOp.IsFinite => Some (Expr.LitBool true)
  | _ => None
  end.

Definition fold_f32_unary (op : UnOp) (v : Z) : option Expr :=
  let v := canonical_f32 v in
  if f32_is_nan v && negb (bool_decide (op ∈ [UnOp.IsNan; UnOp.IsInf; UnOp.IsFinite])) then None
  else
    let num x := Some (Expr.LitF32 (canonical_f32 x)) in
    match op with
    | UnOp.Negate => num (f32_neg v)
    | UnOp.Sqrt => num (sqrtf fe v)
    | UnOp.InverseSqrt => num (f32_recip (sqrtf fe v))
    | UnOp.Reciprocal => num (f32_recip v)
    | UnOp.Exp => num (expf fe v)
    | UnOp.Exp2 => num (exp2f fe v)
    | UnOp.Log => num (logf fe v)
    | UnOp.Log2 => num (log2f fe v)
    | UnOp.Sin => num (sinf fe v)
    | UnOp.Cos => num (cosf fe v)
    | UnOp.Tan => num (tanf fe v)
    | UnOp.Asin => num (asinf fe v)
    | UnOp.Acos => num (acosf fe v)
    | UnOp.Atan => num (atanf fe v)
    | UnOp.Sinh => num (sinhf fe v)
    | UnOp.Cosh => num (coshf fe v)
    | UnOp.Tanh => num (tanhf fe v)
    | UnOp.Ceil => num (f32_lift1 fp_ceil v)
    | UnOp.Floor => num (f32_lift1 fp_floor v)
    | UnOp.Round => num (f32_lift1 fp_round v)
    | UnOp.Trunc => num (f32_lift1 fp_trunc v)
    | UnOp.Abs => num (f32_magnitude v)
    | UnOp.Sign => num (if f32_eq v 0 then 0 else f32_signum v)
    | UnOp.IsNan => Some (Expr.LitBool (f32_is_nan v))
    | UnOp.IsInf => Some (Expr.LitBool (f32_is_infinite v))
    | UnOp.IsFinite => Some (Expr.LitBool (f32_is_finite v))
    | UnOp.LogicalNot => Some (Expr.LitBool (f32_eq v 0))
    | _ => None
    end.

Definition fold_binary_literal (op : BinOp) (left right : Expr) : option Expr :=
  match left, right with
  | Expr.LitU32 a, Expr.LitU32 b => fold_u32_binary op a b
  | Expr.LitI32 a, Expr.LitI32 b => fold_i32_binary op a b
  | Expr.LitBool a, Expr.LitBool b => fold_bool_binary op a b
  | Expr.LitF32 a, Expr.LitF32 b => fold_f32_binary op a b
  | _, _ => None
  end.

Definition fold_unary_literal (op : UnOp) (operand : Expr) : option Expr :=
  match operand with
  | Expr.LitU32 v => fold_u32_unary op v
  | Expr.LitI32 v => fold_i32_unary op v
  | Expr.LitBool v => fold_bool_unary op v
  | Expr.LitF32 v => fold_f32_unary op v
  | _ => None
  end.

Definition fold_cast_literal (target : DataType) (value : Expr) : option Expr :=
  let u x := Some (Expr.LitU32 x) in
  let i x := Some (Expr.LitI32 x) in
  let f x := Some (Expr.LitF32 x) in
  let b x := Some (Expr.LitBool x) in
  match target, value with
  | DataType.U32, Expr.LitU32 v => u v
  | DataType.U32, Expr.LitI32 v => u (wrapu 32 v)
  | DataType.U32, Expr.LitF32 v => if f32_is_finite v then u (fp_to_int 0 U32_MAX (f32_val v)) else None
  | DataType.U32, Expr.LitBool v => u (if v then 1 else 0)
  | DataType.I32, Expr.LitU32 v => i (wraps 32 v)
  | DataType.I32, Expr.LitI32 v => i v
  | DataType.I32, Expr.LitF32 v => if f32_is_finite v then i (fp_to_int I32_MIN I32_MAX (f32_val v)) else None
  | DataType.I32, Expr.LitBool v => i (if v then 1 else 0)
  | DataType.F32, Expr.LitU32 v => f (int_as_f32 v)
  | DataType.F32, Expr.LitI32 v => f (int_as_f32 v)
  | DataType.F32, Expr.LitF32 v => f v
  | DataType.F32, Expr.LitBool v => f (if v then F32_ONE else 0)
  | DataType.Bool, Expr.LitU32 v => b (negb (v =? 0))
  | DataType.Bool, Expr.LitI32 v => b (negb (v =? 0))
  | DataType.Bool, Expr.LitF32 v => b (negb (f32_eq v 0))
  | DataType.Bool, Expr.LitBool v => b v
  | _, _ => None
  end.

Definition fold_fma_literal (a b c : Expr) : option Expr :=
  match a, b, c with
  | Expr.LitF32 a, Expr.LitF32 b, Expr.LitF32 c =>
      if f32_is_nan a || f32_is_nan b || f32_is_nan c then None
      else Some (Expr.LitF32 (canonical_f32 (f32_of (fp_fma (f32_val a) (f32_val b) (f32_val c)))))
  | _, _, _ => None
  end.

(** ** Literal trees *)

Fixpoint fold_literal_tree (e : Expr) : option Expr :=
  match e with
  | Expr.BinOp op l r =>
      fold_binary_literal op (default l (fold_literal_tree l)) (default r (fold_literal_tree r))
  | Expr.Fma a b c =>
      fold_fma_literal (default a (fold_literal_tree a)) (default b (fold_literal_tree b))
        (default c (fold_literal_tree c))
  | Expr.UnOp op operand => fold_unary_literal op (default operand (fold_literal_tree operand))
  | Expr.Cast target value => fold_cast_literal target (default value (fold_literal_tree value))
  | _ => None
  end.
End Fold.

(** ** The folder and the interpreter *)

(** A literal the interpreter reads back as it is: inside its width and, for a float,
    not subnormal. *)
Definition good_literal (e : Expr) : bool :=
  match e with
  | Expr.LitU32 v => bool_decide (inu 32 v)
  | Expr.LitI32 v => bool_decide (ins 32 v)
  | Expr.LitF32 v => bool_decide (inu 32 v) && negb (f32_is_subnormal v)
  | _ => true
  end.
(** Every literal of a literal tree is. *)
Fixpoint good_literals (e : Expr) : bool :=
  match e with
  | Expr.BinOp _ l r => good_literals l && good_literals r
  | Expr.Fma a b c => good_literals a && good_literals b && good_literals c
  | Expr.UnOp _ x | Expr.Cast _ x => good_literals x
  | _ => good_literal e
  end.

Definition is_literal (e : Expr) : bool :=
  match e with Expr.LitU32 _ | Expr.LitI32 _ | Expr.LitF32 _ | Expr.LitBool _ => true | _ => false end.

(** The literal stands for the value. *)
Definition lit_means (e : Expr) (v : Value) : Prop :=
  good_literal e = true /\
  match e with
  | Expr.LitU32 x => v = Value.U32 x
  | Expr.LitI32 x => v = Value.I32 x
  | Expr.LitF32 x => v = wrap_f32 x
  | Expr.LitBool b => v = Value.Bool b
  | _ => False
  end.

Lemma lit_means_u32 x : inu 32 x -> lit_means (Expr.LitU32 x) (Value.U32 x).
Proof. intros. split; [by apply bool_decide_eq_true|done]. Qed.
Lemma lit_means_i32 x : ins 32 x -> lit_means (Expr.LitI32 x) (Value.I32 x).
Proof. intros. split; [by apply bool_decide_eq_true|done]. Qed.
Lemma lit_means_bool b : lit_means (Expr.LitBool b) (Value.Bool b).
Proof. by split. Qed.
Lemma lit_means_f32 x : inu 32 x -> lit_means (Expr.LitF32 (canonical_f32 x)) (wrap_f32 x).
Proof.
  intros Hx. destruct (canonical_f32_canonical x Hx) as (Hr & Hs & _). split; [|by rewrite wrap_canonical].
  cbn [good_literal]. by rewrite Hs, bool_decide_eq_true_2.
Qed.
(** The bits an operator reads back from a float literal. *)
Lemma read_back x : inu 32 x -> canonical_f32 (f64_as_f32 (f64_from_f32 (canonical_f32 x))) = canonical_f32 x.
Proof.
  intros Hx. pose proof (canonical_f32_canonical x Hx) as Hc. by rewrite f64_roundtrip_canonical, canonical_f32_id.
Qed.
Lemma good_f32 x : good_literal (Expr.LitF32 x) = true -> inu 32 x /\ f32_is_subnormal x = false.
Proof.
  cbn [good_literal]. rewrite andb_true_iff, bool_decide_eq_true, negb_true_iff. done.
Qed.

Create HintDb lit.
#[local] Hint Resolve lit_means_u32 lit_means_i32 lit_means_bool lit_means_f32 : lit.
Create HintDb fprange.
#[local] Hint Resolve fp_add_wf fp_mul_wf fp_neg_wf fp_div_wf f32_recip_range f32_select_range
  canonical_f32_range : fprange.
#[local] Hint Extern 2 (inu 32 (f32_lift2 _ _ _)) => apply f32_lift2_range; intros : fprange.
#[local] Hint Extern 2 (inu 32 (f32_lift1 _ _)) =>
  apply f32_lift1_range; intros; by apply fp_rounding_wf : fprange.

(** The two spellings of a shift amount. *)
Lemma mod_32_land b : Z.land (b mod 32) 31 = Z.land b 31.
Proof. by rewrite !land_31, Z.mod_mod. Qed.

Section Operators.
Context (fe : FloatEnv) `{Hfe : !FloatEnvOk fe}.

Lemma fold_u32_binary_sound op a b e v : inu 32 a -> inu 32 b ->
  fold_u32_binary op a b = Some e -> eval_binop fe op (Value.U32 a) (Value.U32 b) = Ok v -> lit_means e v.
Proof.
  intros Ha Hb He Hv.
  assert (value_wf v) as Hw by (by apply (eval_binop_wf fe op (Value.U32 a) (Value.U32 b))).
  destruct op; try discriminate He; injection He as <-; injection Hv as <-; cbn [value_wf] in Hw;
    auto with lit.
  - unfold wrapping_shl. rewrite mod_32_land. auto with lit.
  - unfold u32_wrapping_shr. rewrite mod_32_land. auto with lit.
  - rewrite <- land_31. auto with lit.
  - rewrite <- land_31. auto with lit.
  - rewrite (wrapu_id 64) by (unfold inu in *; nia). rewrite wrapu_id by done. auto with lit.
Qed.

Lemma fold_i32_binary_sound op a b e v : ins 32 a -> ins 32 b ->
  fold_i32_binary op a b = Some e -> eval_binop fe op (Value.I32 a) (Value.I32 b) = Ok v -> lit_means e v.
Proof.
  intros Ha Hb He Hv.
  assert (value_wf v) as Hw by (by apply (eval_binop_wf fe op (Value.I32 a) (Value.I32 b))).
  destruct op; try discriminate He; try discriminate Hv;
    try (injection He as <-; injection Hv as <-; cbn [value_wf] in Hw; auto with lit; fail).
  - cbn in Hv, He. unfold div_i32 in Hv. destruct (b =? 0) eqn:Eb; [done|]. cbn in Hv.
    destruct (_ && _); [done|]. injection Hv as <-. injection He as <-.
    unfold i32_wrapping_div. rewrite wraps_id by (done || lia). auto with lit.
  - cbn in Hv, He. unfold rem_i32 in Hv. destruct (b =? 0) eqn:Eb; [done|]. cbn in Hv.
    destruct (_ && _); [done|]. injection Hv as <-. injection He as <-.
    unfold i32_wrapping_rem. rewrite wraps_id by (done || lia). auto with lit.
  - cbn in Hv, He. destruct (b <? 0); [done|]. injection Hv as <-. injection He as <-.
    unfold i32_wrapping_shl. rewrite mod_32_land. auto with lit.
  - cbn in Hv, He. destruct (b <? 0); [done|]. injection Hv as <-. injection He as <-.
    unfold i32_wrapping_shr. rewrite mod_32_land. auto with lit.
Qed.

Lemma fold_bool_binary_sound op a b e v :
  fold_bool_binary op a b = Some e -> eval_binop fe op (Value.Bool a) (Value.Bool b) = Ok v -> lit_means e v.
Proof.
  intros He Hv. destruct op; try discriminate He; try discriminate Hv;
    injection He as <-; injection Hv as <-; auto with lit.
Qed.

Lemma fold_f32_binary_sound op a b e v : inu 32 a -> inu 32 b ->
  fold_f32_binary fe op a b = Some e -> eval_binop fe op (wrap_f32 a) (wrap_f32 b) = Ok v -> lit_means e v.
Proof.
  intros Ha Hb He Hv. unfold eval_binop, wrap_f32, binop_f32 in Hv. rewrite !read_back in Hv by done.
  unfold fold_f32_binary in He. cbv zeta in He, Hv. destruct (_ || _); [done|].
  apply canonical_f32_range in Ha, Hb. revert Ha Hb He Hv.
  generalize (canonical_f32 a) (canonical_f32 b). intros x y Hx Hy He Hv.
  destruct op; try discriminate He; try discriminate Hv; try (destruct (f32_eq y 0); [discriminate He|]);
    try discriminate Hv; apply (inj Some) in He; subst e; revert Hv; apply ok_elim; auto with lit; apply lit_means_f32; auto 6 with fprange.
Qed.
End Operators.

(** ** Floats and integers *)

(** Widening to [f64] does not change the integer part. *)
Lemma int_part_scale m e j : 0 <= m -> 0 <= j -> (int_part (m * 2 ^ j) (e - j)).1 = (int_part m e).1.
Proof.
  intros Hm Hj. unfold int_part.
  destruct (Z.leb_spec 0 (e - j)), (Z.leb_spec 0 e); cbn [fst]; try lia.
  - rewrite <- Z.mul_assoc, <- Z.pow_add_r by lia. f_equal. f_equal. lia.
  - replace (m * 2 ^ j) with (m * 2 ^ e * 2 ^ (j - e)).
    + replace (- (e - j)) with (j - e) by lia. apply Z.div_mul. lia.
    + rewrite <- Z.mul_assoc, <- Z.pow_add_r by lia. f_equal. f_equal. lia.
  - replace (- (e - j)) with (j + - e) by lia. rewrite Z.pow_add_r, (Z.mul_comm (2 ^ j)) by lia.
    apply Z.div_mul_cancel_r; lia.
Qed.
(** The value of a widened float. *)
Lemma widened bits : inu 32 bits ->
  match f32_val bits with
  | NaN => f64_val (f64_from_f32 bits) = NaN
  | Inf s => f64_val (f64_from_f32 bits) = Inf s
  | Fin s m e => 0 <= m /\ exists j, 0 <= j /\ f64_val (f64_from_f32 bits) = Fin s (m * 2 ^ j) (e - j)
  end.
Proof.
  intros Hb. unfold f64_from_f32. destruct (f32_val bits) as [|s|s m e] eqn:E.
  - reflexivity.
  - by destruct s.
  - destruct (unpack_normal binary32 binary32_ok bits s m e Hb E) as [Hn _].
    split; [apply Hn|]. destruct (decide (m = 0)) as [->|].
    + exists (e - emin binary64). destruct Hn as (He & _ & Hs). rewrite Hs by (cbn; lia).
      split; [done|]. destruct s; reflexivity.
    + apply f64_widen; [done|]. destruct Hn; lia.
Qed.
Lemma widened_to_int lo hi bits : inu 32 bits ->
  fp_to_int lo hi (f64_val (f64_from_f32 bits)) = fp_to_int lo hi (f32_val bits).
Proof.
  intros Hb. pose proof (widened bits Hb) as H. destruct (f32_val bits) as [|s|s m e].
  - by rewrite H.
  - by rewrite H.
  - destruct H as (Hm & j & Hj & ->). cbn [fp_to_int]. by rewrite int_part_scale.
Qed.
(** Zero test: [f32::==] on bits against the numeric comparison. *)
Lemma magnitude_fields s x r : 0 <= x < 2 ^ 8 -> 0 <= r < 2 ^ 23 ->
  f32_magnitude (fields binary32 s x r) = x * 2 ^ 23 + r.
Proof.
  intros Hx Hr. rewrite magnitude_mod. unfold fields, signed. change (sign_bit binary32) with 31.
  cbn [prec binary32]. change (24 - 1) with 23 in *.
  destruct s; [rewrite <- (Z.mul_1_l (2 ^ 31)) at 1; rewrite Z.add_comm, Z.mod_add by lia
              |rewrite Z.add_0_l]; apply Z.mod_small; lia.
Qed.
Lemma finite_zero bits : inu 32 bits ->
  f32_eq bits 0 = match f32_val bits with Fin _ m _ => m =? 0 | _ => false end.
Proof.
  intros Hb. unfold f32_eq. destruct (f32_is_nan bits) eqn:En.
  { apply f32_val_nan in En; [|done]. by rewrite En. }
  change (f32_is_nan 0) with false. change (f32_magnitude 0 =? 0) with true. cbn [negb andb].
  rewrite andb_true_r. destruct (f32_val bits) as [|s|s m e] eqn:E.
  - apply f32_val_nan in E; [|done]. congruence.
  - destruct (fields_surj binary32 binary32_ok bits Hb) as (t & x & r & Hx & Hr & ->).
    unfold f32_val in E. rewrite (unpack_fields binary32 binary32_ok) in E by done.
    rewrite magnitude_fields by done. cbn [prec ew binary32] in *. change (24 - 1) with 23 in *.
    change (2 ^ 8 - 1) with 255 in E.
    destruct (Z.eqb_spec x 0); [done|]. apply orb_false_iff.
    unfold fields, signed. cbn [prec binary32]. change (sign_bit binary32) with 31.
    change (24 - 1) with 23. split; apply Z.eqb_neq; destruct t; lia.
  - destruct (fields_surj binary32 binary32_ok bits Hb) as (t & x & r & Hx & Hr & ->).
    unfold f32_val in E. rewrite (unpack_fields binary32 binary32_ok) in E by done.
    rewrite magnitude_fields by done. cbn [prec ew binary32] in *. change (24 - 1) with 23 in *.
    change (2 ^ 8 - 1) with 255 in E. unfold fields, signed. cbn [prec binary32].
    change (sign_bit binary32) with 31. change (24 - 1) with 23.
    destruct (Z.eqb_spec x 0) as [->|].
    + injection E as <- <- <-. destruct (Z.eqb_spec r 0) as [->|]; [by destruct t|].
      apply orb_false_iff. split; apply Z.eqb_neq; destruct t; lia.
    + destruct (Z.eqb_spec x 255); [by destruct (r =? 0)|]. injection E as <- <- <-.
      rewrite (proj2 (Z.eqb_neq (2 ^ 23 + r) 0)) by lia.
      apply orb_false_iff. split; apply Z.eqb_neq; destruct t; lia.
Qed.
Lemma widened_zero bits : inu 32 bits ->
  fp_eq (f64_val (f64_from_f32 bits)) (Fin false 0 0) = f32_eq bits 0.
Proof.
  intros Hb. rewrite finite_zero by done. pose proof (widened bits Hb) as H.
  destruct (f32_val bits) as [|s|s m e].
  - by rewrite H.
  - rewrite H. by destruct s.
  - destruct H as (Hm & j & Hj & ->). unfold fp_eq, fp_compare. cbn [sm].
    rewrite Z.mul_0_l. set (k := 2 ^ (e - j - _)).
    assert (0 < k) by (unfold k; apply Z.pow_pos_nonneg; lia). assert (0 < 2 ^ j) by lia.
    destruct (Z.compare_spec (sm s (m * 2 ^ j) * k) 0) as [E|E|E]; destruct s; cbn [sm is_cmp] in *;
      destruct (Z.eqb_spec m 0) as [->|]; try done; nia.
Qed.

(** An integer converts to a canonical float: zero, or a float of a binade from [2^0] on. *)
Lemma rounded_integer s m : 0 < m < 2 ^ 33 -> exists x r, 127 <= x <= 160 /\ 0 <= r < 2 ^ 23
  /\ round_bits binary32 s m 0 = fields binary32 s x r.
Proof.
  intros Hm. destruct (Z.log2_spec m) as [Hl Hu]; [lia|].
  assert (0 <= Z.log2 m < 33) by (split; [apply Z.log2_nonneg|apply Z.log2_lt_pow2; lia]).
  pose proof (round_mantissa binary32 binary32_ok m 0 ltac:(lia)) as Hr.
  unfold round_bits. rewrite (proj2 (Z.eqb_neq m 0)) by lia.
  change (prec binary32) with 24 in *. change (emin binary32) with (-149) in *.
  change (emax binary32) with 104. cbv zeta in Hr |- *.
  replace (Z.max (Z.log2 m + 1 - 24 + 0) (-149) - 0) with (Z.log2 m - 23) in * by lia.
  set (d := Z.log2 m - 23) in *. set (m' := if d <=? 0 then _ else _) in *.
  assert (2 ^ 23 <= m') as Hlow.
  { unfold m'. destruct (Z.leb_spec d 0).
    - replace (2 ^ 23) with (2 ^ Z.log2 m * 2 ^ (- d)); [nia|].
      rewrite <- Z.pow_add_r by lia. f_equal. lia.
    - pose proof (half_even_bounds (m / 2 ^ d) (m mod 2 ^ d) (2 ^ (d - 1))).
      assert (2 ^ 23 <= m / 2 ^ d); [|lia]. apply Z.div_le_lower_bound; [lia|].
      rewrite <- Z.pow_add_r by lia. replace (d + 23) with (Z.log2 m) by lia. done. }
  change (2 ^ (24 - 1)) with (2 ^ 23). unfold pack_fin, fields. change (prec binary32 - 1) with 23.
  change (emin binary32) with (-149).
  destruct (Z.eqb_spec m' (2 ^ 24)).
  - rewrite (proj2 (Z.ltb_ge _ _)) by lia. rewrite (proj2 (Z.ltb_ge (2 ^ 23) _)) by lia.
    exists (d + 151), 0. split; [lia|]. split; [lia|]. f_equal. lia.
  - rewrite (proj2 (Z.ltb_ge _ _)) by lia. rewrite (proj2 (Z.ltb_ge m' _)) by lia.
    exists (d + 150), (m' - 2 ^ 23). split; [lia|]. split; [lia|]. f_equal. lia.
Qed.
Lemma int_as_f32_canonical x : Z.abs x < 2 ^ 33 -> f32_canonical (int_as_f32 x).
Proof.
  intros Hx. assert (inu 32 (int_as_f32 x)) as Hr by (apply f32_of_wf; cbn; lia).
  split; [done|]. unfold int_as_f32, f32_of in *. cbn [to_bits] in *.
  destruct (decide (x = 0)) as [->|Hn]; [split; [done|]; vm_compute; discriminate|].
  destruct (rounded_integer (x <? 0) (Z.abs x)) as (ex & fr & Hex & Hfr & ->); [lia|].
  unfold f32_is_subnormal, f32_is_nan. rewrite magnitude_fields by lia.
  split; [|intros Hq; exfalso; lia]. lia.
Qed.

(** ** Unary operators, casts and fused multiply-add *)

Section Others.
Context (fe : FloatEnv) `{Hfe : !FloatEnvOk fe}.

Lemma good_canonical x : good_literal (Expr.LitF32 x) = true -> f32_is_nan x = false -> f32_canonical x.
Proof. intros [Hr Hs]%good_f32 Hn. split; [done|]. split; [done|congruence]. Qed.

Lemma fold_u32_unary_sound op x e v : inu 32 x ->
  fold_u32_unary fe op x = Some e -> eval_unop fe op (Value.U32 x) = Ok v -> lit_means e v.
Proof.
  intros Hx He Hv. assert (value_wf v) as Hw by by apply (eval_unop_wf fe op (Value.U32 x)).
  destruct op; try discriminate Hv; injection He as <-; injection Hv as <-; cbn [value_wf] in Hw;
    auto with lit.
  rewrite wrapu_id in Hw |- * by (apply reverse_bits_range; lia). auto with lit.
Qed.
Lemma fold_i32_unary_sound op x e v : ins 32 x ->
  fold_i32_unary fe op x = Some e -> eval_unop fe op (Value.I32 x) = Ok v -> lit_means e v.
Proof.
  intros Hx He Hv. assert (value_wf v) as Hw by by apply (eval_unop_wf fe op (Value.I32 x)).
  destruct op; try discriminate Hv; injection He as <-; injection Hv as <-; cbn [value_wf] in Hw;
    auto with lit.
  rewrite wraps_id in Hw |- * by (try lia; pose proof (Z.lnot_eq_pred_opp x); width_lia). auto with lit.
Qed.
Lemma fold_bool_unary_sound op x e v :
  fold_bool_unary op x = Some e -> eval_unop fe op (Value.Bool x) = Ok v -> lit_means e v.
Proof.
  intros He Hv. destruct op; try discriminate Hv; injection He as <-; injection Hv as <-; auto with lit.
Qed.

Lemma sign_land x : Z.land x 0x80000000 = if Z.testbit x 31 then 0x80000000 else 0.
Proof.
  change 0x80000000 with (2 ^ 31). apply Z.bits_inj'. intros n Hn. rewrite Z.land_spec.
  destruct (decide (n = 31)) as [->|].
  - rewrite Z.pow2_bits_true, andb_true_r by lia. by destruct (Z.testbit x 31).
  - rewrite Z.pow2_bits_false, andb_false_r by lia.
    destruct (Z.testbit x 31); [by rewrite Z.pow2_bits_false|by rewrite Z.bits_0].
Qed.
Lemma f32_val_sign x : match f32_val x with Fin s _ _ | Inf s => Z.testbit x 31 = s | NaN => True end.
Proof. unfold f32_val, unpack. change (sign_bit binary32) with 31. repeat case_match; by simplify_eq. Qed.
Lemma signum_sign x : inu 32 x -> f32_is_nan x = false ->
  (if f32_eq x 0 then 0 else f32_signum x) = f32_sign x.
Proof.
  intros Hx Hn. rewrite finite_zero by done. unfold f32_sign, f32_signum. rewrite Hn, sign_land.
  unfold f32_cmp, fp_gt, fp_lt. change (f32_val 0) with (Fin false 0 (-149)).
  pose proof (f32_val_sign x) as Hs. pose proof (f32_val_wf x) as Hw.
  destruct (f32_val x) as [|s|s m e] eqn:E.
  - apply f32_val_nan in E; [|done]. congruence.
  - rewrite Hs. by destruct s.
  - rewrite Hs. cbn [fp_wf] in Hw. unfold fp_compare. rewrite Z.mul_0_l. set (k := 2 ^ (e - _)).
    assert (0 < k) by (unfold k; apply Z.pow_pos_nonneg; lia).
    destruct (Z.compare_spec (sm s m * k) 0) as [Hc|Hc|Hc]; destruct s; cbn [sm is_cmp] in *;
      destruct (Z.eqb_spec m 0) as [->|]; try done; nia.
Qed.

Lemma fold_f32_unary_sound op x e v : inu 32 x ->
  fold_f32_unary fe op x = Some e -> eval_unop fe op (wrap_f32 x) = Ok v -> lit_means e v.
Proof.
  intros Hx He Hv. unfold eval_unop, wrap_f32, unop_f32 in Hv. rewrite read_back in Hv by done.
  unfold fold_f32_unary in He. cbv zeta in He, Hv.
  apply canonical_f32_range in Hx as Hc. pose proof (canonical_f32_canonical x Hx) as Hcan.
  revert Hc Hcan He Hv. generalize (canonical_f32 x). intros y Hy Hcan He Hv.
  pose proof (float_env_range _ Hy) as Hl. repeat rewrite Forall_cons in Hl. destruct_and? Hl.
  destruct (f32_is_nan y && _) eqn:En; [done|].
  destruct op; try discriminate He; try discriminate Hv; apply (inj Some) in He; subst e; revert Hv;
    apply ok_elim; auto with lit.
  all: try (apply lit_means_f32; auto 6 with fprange; fail).
  - apply lit_means_f32. apply lxor_inu; [lia|done|width_lia].
  - apply lit_means_f32. apply land_inu; [lia|done|width_lia].
  - rewrite signum_sign by (done || by rewrite andb_true_r in En). apply lit_means_f32.
    unfold f32_sign. repeat case_match; vm_compute; split; congruence.
  - unfold canonical_reciprocal. rewrite (canonical_f32_id y), wrap_canonical by auto with fprange.
    auto with lit fprange.
Qed.

Lemma lit_means_int x : Z.abs x < 2 ^ 33 -> lit_means (Expr.LitF32 (int_as_f32 x)) (float_of_int x).
Proof.
  intros Hx. pose proof (int_as_f32_canonical x Hx) as Hc. rewrite <- (canonical_f32_id _ Hc).
  replace (float_of_int x) with (wrap_f32 (int_as_f32 x)) by (unfold wrap_f32, float_of_int; by rewrite canonical_f32_id).
  apply lit_means_f32, Hc.
Qed.
Lemma finite_not_nan x : f32_is_finite x = true -> f32_is_nan x = false.
Proof. unfold f32_is_finite, f32_is_nan. lia. Qed.

Lemma fold_cast_u32 t x e v : inu 32 x -> fold_cast_literal t (Expr.LitU32 x) = Some e ->
  cast_value t (Value.U32 x) = Ok v -> lit_means e v.
Proof.
  intros Hx He Hv. pose proof (wraps_range 32 x ltac:(lia)).
  destruct t; try discriminate He; injection He as <-; injection Hv as <-; auto with lit.
  apply lit_means_int. width_lia.
Qed.
Lemma fold_cast_i32 t x e v : ins 32 x -> fold_cast_literal t (Expr.LitI32 x) = Some e ->
  cast_value t (Value.I32 x) = Ok v -> lit_means e v.
Proof.
  intros Hx He Hv. pose proof (wrapu_range 32 x ltac:(lia)).
  destruct t; try discriminate He; injection He as <-; injection Hv as <-; auto with lit.
  - cbn. destruct (Z.leb_spec 0 x); [done|]. by rewrite (proj2 (Z.eqb_neq x 0)) by lia.
  - apply lit_means_int. width_lia.
Qed.
Lemma fold_cast_bool t x e v : fold_cast_literal t (Expr.LitBool x) = Some e ->
  cast_value t (Value.Bool x) = Ok v -> lit_means e v.
Proof.
  intros He Hv. destruct t; try discriminate He; injection He as <-; injection Hv as <-;
    destruct x; by vm_compute.
Qed.
Lemma fold_cast_f32 t x e v : good_literal (Expr.LitF32 x) = true ->
  fold_cast_literal t (Expr.LitF32 x) = Some e -> cast_value t (wrap_f32 x) = Ok v -> lit_means e v.
Proof.
  intros Hg He Hv. destruct (good_f32 x Hg) as [Hx _].
  destruct t; try discriminate He; cbn [fold_cast_literal] in He;
    try (destruct (f32_is_finite x) eqn:Ef; [|done]; apply finite_not_nan, good_canonical in Ef; [|done]).
  all: apply (inj Some) in He; subst e; revert Hv; unfold wrap_f32; cbn [cast_value Value.truthy]; apply ok_elim.
  - pose proof (fp_to_int_range 0 U32_MAX (f32_val x) ltac:(lia)).
    rewrite widened_to_int, canonical_f32_id by auto with fprange. apply lit_means_u32. width_lia.
  - pose proof (fp_to_int_range I32_MIN I32_MAX (f32_val x) ltac:(lia)).
    rewrite widened_to_int, canonical_f32_id by auto with fprange. apply lit_means_i32. width_lia.
  - rewrite widened_zero by auto with fprange.
    destruct (f32_is_nan x) eqn:En.
    + unfold canonical_f32, f32_eq. rewrite En. auto with lit.
    + rewrite canonical_f32_id by by apply good_canonical. auto with lit.
  - by split.
Qed.
Lemma fold_cast_sound t c a v e : lit_means c a ->
  fold_cast_literal t c = Some e -> cast_value t a = Ok v -> lit_means e v.
Proof.
  intros [Hg Ha] He Hv. destruct c; try done; subst a.
  - apply bool_decide_eq_true in Hg. by eapply fold_cast_u32.
  - apply bool_decide_eq_true in Hg. by eapply fold_cast_i32.
  - by eapply fold_cast_f32.
  - by eapply fold_cast_bool.
Qed.

Lemma fold_binary_sound op l r a b v e : lit_means l a -> lit_means r b ->
  fold_binary_literal fe op l r = Some e -> eval_binop fe op a b = Ok v -> lit_means e v.
Proof.
  intros [Hl Ha] [Hr Hb] He Hv. destruct l, r; try done; subst a b; cbn [fold_binary_literal] in He.
  - apply bool_decide_eq_true in Hl, Hr. by apply (fold_u32_binary_sound fe op _ _ _ _ Hl Hr).
  - apply bool_decide_eq_true in Hl, Hr. by apply (fold_i32_binary_sound fe op _ _ _ _ Hl Hr).
  - apply good_f32 in Hl as [Hl _], Hr as [Hr _]. by apply (fold_f32_binary_sound fe op _ _ _ _ Hl Hr).
  - by eapply fold_bool_binary_sound.
Qed.
Lemma fold_unary_sound op x a v e : lit_means x a ->
  fold_unary_literal fe op x = Some e -> eval_unop fe op a = Ok v -> lit_means e v.
Proof.
  intros [Hx Ha] He Hv. destruct x; try done; subst a; cbn [fold_unary_literal] in He.
  - apply bool_decide_eq_true in Hx. by eapply fold_u32_unary_sound.
  - apply bool_decide_eq_true in Hx. by eapply fold_i32_unary_sound.
  - apply good_f32 in Hx as [? _]. by eapply fold_f32_unary_sound.
  - by eapply fold_bool_unary_sound.
Qed.
Lemma fold_fma_sound x y z a b c v e : lit_means x a -> lit_means y b -> lit_means z c ->
  fold_fma_literal x y z = Some e -> eval_fma a b c = Ok v -> lit_means e v.
Proof.
  intros [Hx Ha] [Hy Hb] [Hz Hc] He Hv. destruct x; try done; destruct y; try done; destruct z; try done.
  subst a b c. cbn [fold_fma_literal] in He. destruct (_ || _) eqn:En; [done|].
  apply orb_false_iff in En as [[Na Nb]%orb_false_iff Nc]. apply (inj Some) in He. subst e.
  destruct (good_f32 _ Hx), (good_f32 _ Hy), (good_f32 _ Hz).
  apply good_canonical in Na, Nb, Nc; [|done..].
  revert Hv. unfold eval_fma, wrap_f32. cbn [Value.try_as_f32 ok_or mbind result_bind].
  rewrite !read_back by done. rewrite (canonical_f32_id _ Na), (canonical_f32_id _ Nb), (canonical_f32_id _ Nc).
  apply ok_elim. apply lit_means_f32, f32_of_wf. unfold fp_fma.
  apply fp_add_wf; [apply fp_mul_wf|]; apply f32_val_wf.
Qed.

(** ** Trees *)

Context (dialect : option (string -> option OpDef)) (inv : Invocation) (p : Program).
Abbreviation eval := (eval_rec fe dialect inv p).

Lemma lit_eval e v m : lit_means e v -> eval e m = Ok (v, m).
Proof. intros [_ H]. destruct e; try done; by subst v. Qed.
(** A leaf that is a literal stands for its value. *)
Lemma leaf_means e v m m' : good_literal e = true -> is_literal e = true -> eval e m = Ok (v, m') ->
  lit_means e v /\ m' = m.
Proof. intros Hg Hl H. destruct e; try discriminate Hl; injection H as <- <-; by split. Qed.
Lemma binary_operands op l r e : fold_binary_literal fe op l r = Some e ->
  is_literal l = true /\ is_literal r = true.
Proof. by destruct l, r. Qed.
Lemma fma_operands a b c e : fold_fma_literal a b c = Some e ->
  is_literal a = true /\ is_literal b = true /\ is_literal c = true.
Proof. destruct a; try done; destruct b; try done; by destruct c. Qed.
Lemma unary_operand op x e : fold_unary_literal fe op x = Some e -> is_literal x = true.
Proof. by destruct x. Qed.
Lemma cast_operand t x e : fold_cast_literal t x = Some e -> is_literal x = true.
Proof. by destruct t, x. Qed.

(** What folding an operand leaves stands for its value. *)
Definition folds (x : Expr) : Prop := forall e' m v m',
  fold_literal_tree fe x = Some e' -> eval x m = Ok (v, m') -> lit_means e' v /\ m' = m.
Lemma good_leaf e : good_literals e = true -> is_literal e = true -> good_literal e = true.
Proof. by destruct e. Qed.
Lemma operand_means x m v m' : good_literals x = true -> folds x ->
  is_literal (default x (fold_literal_tree fe x)) = true -> eval x m = Ok (v, m') ->
  lit_means (default x (fold_literal_tree fe x)) v /\ m' = m.
Proof.
  intros Hg IH Hl Hv. destruct (fold_literal_tree fe x) as [e'|] eqn:E; cbn [default from_option] in *.
  - by apply (IH e' m).
  - by apply (leaf_means x v m); [apply good_leaf|..].
Qed.

(** Folding a tree agrees with evaluating it. *)
Lemma fold_literal_tree_sound e : good_literals e = true -> folds e.
Proof.
  induction e using Expr_ind'; cbn [good_literals]; intros Hg e' m v0 m' He Hv;
    cbn [fold_literal_tree] in He; try discriminate He; rewrite ?andb_true_iff in Hg; destruct_and?; cbn [eval_rec] in Hv;
    apply M_bind_inv in Hv as (a & m1 & Ea & Hv).
  - apply M_bind_inv in Hv as (b & m2 & Eb & Hv). apply lift_inv in Hv as [Hv ->].
    destruct (binary_operands _ _ _ _ He) as [Ll Lr].
    apply operand_means in Ea as [Ma ->]; [|by auto..]. apply operand_means in Eb as [Mb ->]; [|by auto..].
    split; [|done]. by apply (fold_binary_sound op _ _ a b v0 e' Ma Mb).
  - apply lift_inv in Hv as [Hv ->]. apply unary_operand in He as Lx.
    apply operand_means in Ea as [Ma ->]; [|by auto..]. split; [|done].
    by apply (fold_unary_sound op _ a v0 e' Ma).
  - apply lift_inv in Hv as [Hv ->]. apply cast_operand in He as Lx.
    apply operand_means in Ea as [Ma ->]; [|by auto..]. split; [|done].
    by apply (fold_cast_sound t _ a v0 e' Ma).
  - apply M_bind_inv in Hv as (b & m2 & Eb & Hv). apply M_bind_inv in Hv as (c & m3 & Ec & Hv).
    apply lift_inv in Hv as [Hv ->]. destruct (fma_operands _ _ _ _ He) as (La & Lb & Lc).
    apply operand_means in Ea as [Ma ->]; [|by auto..]. apply operand_means in Eb as [Mb ->]; [|by auto..].
    apply operand_means in Ec as [Mc ->]; [|by auto..].
    split; [|done]. by apply (fold_fma_sound _ _ _ a b c v0 e' Ma Mb Mc).
Qed.
End Others.

Module Literals.

(** C30: literal folding agrees with the reference interpreter: for a tree of operators,
    casts and fused multiply-adds over unsigned, signed, float and boolean literals (the
    floats not subnormal), if the tree folds and the interpreter evaluates it, the folded
    expression is one literal and evaluates to the same value, leaving memory alone. *)
Theorem literal_fold_agrees fe dialect inv p e e' m v m'
    (Hfe : FloatEnvOk fe) (Hg : good_literals e = true) (He : fold_literal_tree fe e = Some e')
    (Hv : eval_frame_oracle fe dialect inv p e m = Ok (v, m')) :
  is_literal e' = true /\ m' = m /\ eval_frame_oracle fe dialect inv p e' m = Ok (v, m).
Proof.
  rewrite oracle_rec in Hv |- *.
  destruct (fold_literal_tree_sound fe dialect inv p e Hg e' m v m' He Hv) as [Hl ->].
  split; [by destruct Hl as [_ Hl]; destruct e'|]. split; [done|]. by apply lit_eval.
Qed.
(** [-7 / 2 < 3.75 as i32]. *)
Definition mixed : Expr :=
  Expr.BinOp BinOp.Lt (Expr.BinOp BinOp.Div (Expr.LitI32 (-7)) (Expr.LitI32 2))
    (Expr.Cast DataType.I32 (Expr.LitF32 0x40700000)).
Lemma literal_fold_agrees_witness :
  eval_frame_oracle TypedOps.zero_env None Evaluator.acc_inv Evaluator.acc_program
    (Expr.LitBool true) (Evaluator.acc_memory 7) = Ok (Value.Bool true, Evaluator.acc_memory 7).
Proof.
  apply (literal_fold_agrees TypedOps.zero_env None Evaluator.acc_inv Evaluator.acc_program mixed
    (Expr.LitBool true) (Evaluator.acc_memory 7) (Value.Bool true) (Evaluator.acc_memory 7)).
  - intros x Hx. repeat constructor; cbn; unfold inu; lia.
  - vm_compute; reflexivity.
  - vm_compute; reflexivity.
  - vm_compute; reflexivity.
Defined.

(** Where a literal folds to what the interpreter would not compute: a signed division
    by zero or past the width folds to a value where the interpreter stops with an error,
    operators the interpreter rejects fold anyway, and a subnormal float, which the
    interpreter reads as zero, is kept by a cast to [bool] and by a fused multiply-add. *)
Theorem literal_fold_differs :
  let run e := eval_frame_oracle TypedOps.zero_env None Evaluator.acc_inv Evaluator.acc_program e
    (Evaluator.acc_memory 7) in
  let folds_to e v := run <$> fold_literal_tree TypedOps.zero_env e = Some (Ok (v, Evaluator.acc_memory 7)) in
  let div a b := Expr.BinOp BinOp.Div (Expr.LitI32 a) (Expr.LitI32 b) in
  (folds_to (div 5 0) (Value.I32 0) /\ run (div 5 0) = Err (Interp "division"))
  /\ (folds_to (div I32_MIN (-1)) (Value.I32 I32_MIN) /\ run (div I32_MIN (-1)) = Err (Interp "division overflow"))
  /\ (let e := Expr.UnOp UnOp.Unpack8Low (Expr.LitU32 0x1234) in
      folds_to e (Value.U32 0x34) /\ run e = Err (Interp "unsupported operator"))
  /\ (let e := Expr.Cast DataType.Bool (Expr.LitF32 1) in
      folds_to e (Value.Bool true) /\ run e = Ok (Value.Bool false, Evaluator.acc_memory 7))
  /\ (let e := Expr.Fma (Expr.LitF32 1) (Expr.LitF32 0x7F000000) (Expr.LitF32 0) in
      folds_to e (wrap_f32 0x34800000) /\ run e = Ok (wrap_f32 0, Evaluator.acc_memory 7)).
Proof.
  cbv zeta. repeat split; vm_compute; reflexivity.
Qed.
End Literals.
