(* ===== verification/ConstFold.v ===== *)
(** The constant-folding pass of the optimizer
    (vyre-foundation: optimizer/passes/algebraic/const_fold, optimizer/algebraic_rules.rs).

    [fold_expr] is the rule of one node: literal evaluation, then the identities of the
    node's operator.  [ConstFold_transform] runs a look-behind for remainders of known
    literals over the statements and the rule bottom up over every expression. *)

From S2P Require Import Prelude Float Spec IR ProgramStats RefValue RefMemory RefEval DivMagic.
From S2P Require Import StrengthReduce Rewrite ConstEval.

(** ** Identities shared with the lowered IR: algebraic_rules.rs *)

Module ScalarLiteral.
Inductive ScalarLiteral := U32 (x : Z) | I32 (x : Z) | F32 (x : Z) | Bool (b : bool).

Definition is_numeric_zero (s : ScalarLiteral) : bool :=
  match s with U32 x | I32 x => x =? 0 | F32 x => x =? 0 | Bool _ => false end.
Definition is_integer_zero (s : ScalarLiteral) : bool :=
  match s with U32 x | I32 x => x =? 0 | _ => false end.
Definition is_numeric_one (s : ScalarLiteral) : bool :=
  match s with U32 x | I32 x => x =? 1 | F32 x => x =? F32_ONE | Bool _ => false end.
Definition is_bit_all_ones (s : ScalarLiteral) : bool :=
  match s with U32 x => x =? U32_MAX | I32 x => x =? -1 | _ => false end.
Definition is_true (s : ScalarLiteral) : bool := match s with Bool true => true | _ => false end.
Definition is_false (s : ScalarLiteral) : bool := match s with Bool false => true | _ => false end.
End ScalarLiteral.
Abbreviation ScalarLiteral := ScalarLiteral.ScalarLiteral.

Inductive IdentityReplacement := KeepLeft | KeepRight.

Definition is_some_and {A} (f : A -> bool) (o : option A) : bool :=
  match o with Some x => f x | None => false end.
Definition keep (b : bool) (r : IdentityReplacement) : option IdentityReplacement :=
  if b then Some r else None.

Definition binop_identity_replacement (op : BinOp) (lhs_same_as_rhs : bool)
    (lhs_lit rhs_lit : option ScalarLiteral) : option IdentityReplacement :=
  let lhs_is_zero := is_some_and ScalarLiteral.is_numeric_zero lhs_lit in
  let rhs_is_zero := is_some_and ScalarLiteral.is_numeric_zero rhs_lit in
  let lhs_is_one := is_some_and ScalarLiteral.is_numeric_one lhs_lit in
  let rhs_is_one := is_some_and ScalarLiteral.is_numeric_one rhs_lit in
  let lhs_is_all_ones := is_some_and ScalarLiteral.is_bit_all_ones lhs_lit in
  let rhs_is_all_ones := is_some_and ScalarLiteral.is_bit_all_ones rhs_lit in
  let lhs_is_true := is_some_and ScalarLiteral.is_true lhs_lit in
  let rhs_is_true := is_some_and ScalarLiteral.is_true rhs_lit in
  let lhs_is_false := is_some_and ScalarLiteral.is_false lhs_lit in
  let rhs_is_false := is_some_and ScalarLiteral.is_false rhs_lit in
  let lhs_is_int_zero := is_some_and ScalarLiteral.is_integer_zero lhs_lit in
  let rhs_is_int_zero := is_some_and ScalarLiteral.is_integer_zero rhs_lit in
  keep (lhs_same_as_rhs && bool_decide (op ∈ [BinOp.BitAnd; BinOp.BitOr; BinOp.And; BinOp.Or; BinOp.Min; BinOp.Max]))
    KeepLeft
  <|> match op with
      | BinOp.And =>
          keep rhs_is_true KeepLeft <|> keep lhs_is_true KeepRight
          <|> keep rhs_is_false KeepRight <|> keep lhs_is_false KeepLeft
      | BinOp.Or =>
          keep rhs_is_false KeepLeft <|> keep lhs_is_false KeepRight
          <|> keep rhs_is_true KeepRight <|> keep lhs_is_true KeepLeft
      | BinOp.BitAnd => keep rhs_is_all_ones KeepLeft <|> keep lhs_is_all_ones KeepRight
      | BinOp.BitOr => keep rhs_is_all_ones KeepRight <|> keep lhs_is_all_ones KeepLeft
      | _ => None
      end
  <|> (let right_identity_when_zero :=
         bool_decide (op ∈ [BinOp.Add; BinOp.Sub; BinOp.WrappingAdd; BinOp.WrappingSub; BinOp.SaturatingAdd;
           BinOp.SaturatingSub; BinOp.BitOr; BinOp.BitXor; BinOp.Shl; BinOp.Shr; BinOp.RotateLeft;
           BinOp.RotateRight]) in
       let right_identity_when_one := bool_decide (op ∈ [BinOp.Mul; BinOp.Div; BinOp.SaturatingMul]) in
       keep ((right_identity_when_zero && rhs_is_zero) || (right_identity_when_one && rhs_is_one)) KeepLeft)
  <|> (let left_identity_when_zero :=
         bool_decide (op ∈ [BinOp.Add; BinOp.WrappingAdd; BinOp.SaturatingAdd; BinOp.BitOr; BinOp.BitXor]) in
       let left_identity_when_one := bool_decide (op ∈ [BinOp.Mul; BinOp.SaturatingMul]) in
       keep ((left_identity_when_zero && lhs_is_zero) || (left_identity_when_one && lhs_is_one)) KeepRight)
  <|> (let absorbs_mul_to_zero := bool_decide (op ∈ [BinOp.Mul; BinOp.SaturatingMul]) in
       keep (absorbs_mul_to_zero && rhs_is_int_zero) KeepRight
       <|> keep (absorbs_mul_to_zero && lhs_is_int_zero) KeepLeft)
  <|> (keep (bool_decide (op = BinOp.BitAnd) && rhs_is_zero) KeepRight
       <|> keep (bool_decide (op = BinOp.BitAnd) && lhs_is_zero) KeepLeft).

Definition expr_scalar_literal (e : Expr) : option ScalarLiteral :=
  match e with
  | Expr.LitU32 v => Some (ScalarLiteral.U32 v)
  | Expr.LitI32 v => Some (ScalarLiteral.I32 v)
  | Expr.LitF32 v => Some (ScalarLiteral.F32 v)
  | Expr.LitBool v => Some (ScalarLiteral.Bool v)
  | _ => None
  end.

(** ** Binary operators: binop_identities.rs *)

Definition F32_NEG_ONE : Z := 0xBF800000.

Definition is_i32 (v : Z) (e : Expr) : bool :=
  match e with Expr.LitI32 w => w =? v | _ => false end.
Definition is_int (v : Z) (e : Expr) : bool := is_u32 v e || is_i32 v e.
Definition is_bool (v : bool) (e : Expr) : bool :=
  match e with Expr.LitBool w => Bool.eqb w v | _ => false end.
Definition is_zero (e : Expr) : bool := is_int 0 e || is_f32 0 e.
Definition is_one (e : Expr) : bool := is_int 1 e || is_f32 F32_ONE e.

Definition mul_operands (e : Expr) : option (Expr * Expr) :=
  match e with Expr.BinOp BinOp.Mul l r => Some (l, r) | _ => None end.
Definition lit_int (e : Expr) : bool :=
  match e with Expr.LitU32 _ | Expr.LitI32 _ => true | _ => false end.
Definition is_simple_pure (e : Expr) : bool :=
  match e with
  | Expr.LitU32 _ | Expr.LitI32 _ | Expr.LitF32 _ | Expr.LitBool _ | Expr.Var _
  | Expr.InvocationId _ | Expr.WorkgroupId _ | Expr.LocalId _ | Expr.SubgroupLocalId | Expr.SubgroupSize => true
  | _ => false
  end.

(** [checked_add] and the like of [u32] and [i32]. *)
Definition in_u32 (x : Z) : option Expr := when (bool_decide (inu 32 x)) (Expr.LitU32 x).
Definition in_i32 (x : Z) : option Expr := when (bool_decide (ins 32 x)) (Expr.LitI32 x).
(** The two literals of a kind combined, when the result fits. *)
Definition combine_literals (f : Z -> Z -> Z) (k1 k2 : Expr) : option Expr :=
  match k1, k2 with
  | Expr.LitU32 a, Expr.LitU32 b => in_u32 (f a b)
  | Expr.LitI32 a, Expr.LitI32 b => in_i32 (f a b)
  | _, _ => None
  end.

(** [(a op K1) op K2 -> a op (K1 op K2)] and [(K1 op a) op K2 -> a op (K1 op K2)]. *)
Definition reassociate (op : BinOp) (f : Z -> Z -> Z) (left right : Expr) : option Expr :=
  match left with
  | Expr.BinOp o x y =>
      if bool_decide (o = op) then
        (k ← combine_literals f y right; Some (Expr.BinOp op x k))
        <|> (k ← combine_literals f x right; Some (Expr.BinOp op y k))
      else None
  | _ => None
  end.
(** [(x * K1) op (x * K2) -> x * (K1 op K2)]. *)
Definition factor_out (f : Z -> Z -> Z) (left right : Expr) : option Expr :=
  '(x, k1) ← mul_operands left;
  '(y, k2) ← mul_operands right;
  if expr_eq x y then k ← combine_literals f k1 k2; Some (mul x k) else None.

Definition simplify_add (left right : Expr) : option Expr :=
  fma_when (mul_operands left) right (fun a b => Expr.Fma a b right)
  <|> fma_when (mul_operands right) left (fun a b => Expr.Fma a b left)
  <|> when (is_zero right) left
  <|> when (is_zero left) right
  <|> reassociate BinOp.Add Z.add left right
  <|> factor_out Z.add left right.

Definition simplify_sub (left right : Expr) : option Expr :=
  when (expr_eq left right) (lit 0)
  <|> fma_when (mul_operands left) right (fun a b => Expr.Fma a b (negate right))
  <|> fma_when (mul_operands right) left (fun a b => Expr.Fma (negate a) b left)
  <|> when (is_zero right) left
  <|> factor_out Z.sub left right.

(** [c * (a op b)] and [(a op b) * c], one of the operands a literal. *)
Definition distribute_left (op : BinOp) (c e : Expr) : option Expr :=
  match e with
  | Expr.BinOp o a b =>
      when (lit_int c && bool_decide (o = op) && (lit_int a || lit_int b)) (Expr.BinOp op (mul c a) (mul c b))
  | _ => None
  end.
Definition distribute_right (op : BinOp) (e c : Expr) : option Expr :=
  match e with
  | Expr.BinOp o a b =>
      when (lit_int c && bool_decide (o = op) && (lit_int a || lit_int b)) (Expr.BinOp op (mul a c) (mul b c))
  | _ => None
  end.

Definition simplify_mul (left right : Expr) : option Expr :=
  reassociate BinOp.Mul Z.mul left right
  <|> distribute_left BinOp.Add left right
  <|> distribute_right BinOp.Add left right
  <|> distribute_left BinOp.Sub left right
  <|> distribute_right BinOp.Sub left right
  <|> when (is_one right) left
  <|> when (is_one left) right
  <|> when (is_i32 (-1) right) (negate left)
  <|> when (is_i32 (-1) left) (negate right)
  <|> when (is_f32 F32_NEG_ONE right) (negate left)
  <|> when (is_f32 F32_NEG_ONE left) (negate right)
  <|> when (is_int 0 right) right
  <|> when (is_int 0 left) left.

Definition simplify_div (left right : Expr) : option Expr :=
  if is_one right then Some left
  else if is_i32 (-1) right then None
  else if is_f32 F32_ONE left then
    match right with
    | Expr.UnOp UnOp.Sqrt operand => Some (Expr.UnOp UnOp.InverseSqrt operand)
    | _ => None
    end
  else
    match left, right with
    | Expr.UnOp UnOp.Sin sin_arg, Expr.UnOp UnOp.Cos cos_arg =>
        when (expr_eq sin_arg cos_arg) (Expr.UnOp UnOp.Tan sin_arg)
    | _, _ => None
    end
    <|> when (expr_eq left right && negb (is_float_expr left)) (lit 1).

Definition simplify_shift (op : BinOp) (left right : Expr) : option Expr :=
  when (is_u32 0 right) left
  <|> match left, right with
      | Expr.BinOp inner_op x (Expr.LitU32 a), Expr.LitU32 b =>
          when (bool_decide (inner_op = op)) (Expr.BinOp op x (lit (Z.min (saturating_add a b) 31)))
      | _, _ => None
      end.

(** [matches!(e, !x)] and [matches!(e, x op y)] for an operand [x]. *)
Definition is_not_of (x e : Expr) : bool :=
  match e with Expr.UnOp UnOp.LogicalNot operand => expr_eq operand x | _ => false end.
Definition has_operand (op : BinOp) (x e : Expr) : bool :=
  match e with Expr.BinOp o l r => bool_decide (o = op) && (expr_eq l x || expr_eq r x) | _ => false end.

Definition simplify_and (left right : Expr) : option Expr :=
  when (is_bool true left) right
  <|> when (is_bool true right) left
  <|> when (is_bool false left) (Expr.LitBool false)
  <|> when (is_bool false right) (Expr.LitBool false)
  <|> when (expr_eq left right) left
  <|> when (is_not_of left right) (Expr.LitBool false)
  <|> when (is_not_of right left) (Expr.LitBool false)
  <|> when (has_operand BinOp.Or left right) left
  <|> when (has_operand BinOp.Or right left) right.

Definition simplify_or (left right : Expr) : option Expr :=
  when (is_bool true left) (Expr.LitBool true)
  <|> when (is_bool true right) (Expr.LitBool true)
  <|> when (is_bool false left) right
  <|> when (is_bool false right) left
  <|> when (expr_eq left right) left
  <|> when (is_not_of left right) (Expr.LitBool true)
  <|> when (is_not_of right left) (Expr.LitBool true)
  <|> when (has_operand BinOp.And left right) left
  <|> when (has_operand BinOp.And right left) right.

Definition self_compare (left right : Expr) (result : bool) : option Expr :=
  when (expr_eq left right && is_simple_pure left) (Expr.LitBool result).

(** The arms of the table after the shared identities, by operator. *)
Definition simplify_table (op : BinOp) (left right : Expr) : option Expr :=
  match op with
  | BinOp.Add => simplify_add left right
  | BinOp.Sub => simplify_sub left right
  | BinOp.Mul => simplify_mul left right
  | BinOp.Div => simplify_div left right
  | BinOp.BitAnd =>
      when (is_int 0 right) right <|> when (is_int 0 left) left
      <|> when (expr_eq left right) left
      <|> when (is_u32 U32_MAX right) left <|> when (is_u32 U32_MAX left) right
  | BinOp.BitOr =>
      when (is_int 0 right) left <|> when (is_int 0 left) right
      <|> when (expr_eq left right) left
      <|> when (is_u32 U32_MAX right) (lit U32_MAX) <|> when (is_u32 U32_MAX left) (lit U32_MAX)
  | BinOp.BitXor =>
      when (is_int 0 right) left <|> when (is_int 0 left) right
      <|> when (expr_eq left right) (lit 0)
      <|> when (is_u32 U32_MAX right) (Expr.UnOp UnOp.BitNot left)
      <|> when (is_u32 U32_MAX left) (Expr.UnOp UnOp.BitNot right)
  | BinOp.Shl | BinOp.Shr => simplify_shift op left right
  | BinOp.Eq => self_compare left right true
  | BinOp.Ne => self_compare left right false
  | BinOp.Lt =>
      self_compare left right false
      <|> when (is_u32 0 right) (Expr.LitBool false) <|> when (is_u32 U32_MAX left) (Expr.LitBool false)
  | BinOp.Gt =>
      self_compare left right false
      <|> when (is_u32 U32_MAX right) (Expr.LitBool false) <|> when (is_u32 0 left) (Expr.LitBool false)
  | BinOp.Le =>
      self_compare left right true
      <|> when (is_u32 U32_MAX right) (Expr.LitBool true) <|> when (is_u32 0 left) (Expr.LitBool true)
  | BinOp.Ge =>
      self_compare left right true
      <|> when (is_u32 0 right) (Expr.LitBool true) <|> when (is_u32 U32_MAX left) (Expr.LitBool true)
  | BinOp.Mod => when (is_one right) (lit 0) <|> when (expr_eq left right) (lit 0)
  | BinOp.Min =>
      when (expr_eq left right) left
      <|> when (is_u32 U32_MAX right) left <|> when (is_u32 U32_MAX left) right
      <|> when (is_u32 0 right) (lit 0) <|> when (is_u32 0 left) (lit 0)
  | BinOp.Max =>
      when (expr_eq left right) left
      <|> when (is_u32 0 right) left <|> when (is_u32 0 left) right
      <|> when (is_u32 U32_MAX right) (lit U32_MAX) <|> when (is_u32 U32_MAX left) (lit U32_MAX)
  | BinOp.WrappingAdd => when (is_zero right) left <|> when (is_zero left) right
  | BinOp.WrappingSub => when (is_zero right) left <|> when (expr_eq left right) (lit 0)
  | BinOp.SaturatingAdd => when (is_zero right) left <|> when (is_zero left) right
  | BinOp.SaturatingSub => when (is_zero right) left <|> when (expr_eq left right) (lit 0)
  | BinOp.SaturatingMul =>
      when (is_one right) left <|> when (is_one left) right
      <|> when (is_zero right) (lit 0) <|> when (is_zero left) (lit 0)
  | BinOp.And => simplify_and left right
  | BinOp.Or => simplify_or left right
  | _ => None
  end.

Definition simplify_binop (op : BinOp) (left right : Expr) : option Expr :=
  match binop_identity_replacement op (expr_eq left right && is_simple_pure left)
          (expr_scalar_literal left) (expr_scalar_literal right) with
  | Some KeepLeft => Some left
  | Some KeepRight => Some right
  | None => simplify_table op left right
  end.

(** ** Unary operators, selections, fused multiply-adds and casts *)

(** unary_rules.rs: a nested operator first, then literals. *)
Definition simplify_unop (op : UnOp) (operand : Expr) : option Expr :=
  match op, operand with
  | UnOp.LogicalNot, Expr.UnOp UnOp.LogicalNot inner
  | UnOp.Negate, Expr.UnOp UnOp.Negate inner
  | UnOp.ReverseBits, Expr.UnOp UnOp.ReverseBits inner
  | UnOp.BitNot, Expr.UnOp UnOp.BitNot inner => Some inner
  | UnOp.Negate, Expr.BinOp BinOp.Sub l r => Some (sub r l)
  | UnOp.Abs, Expr.UnOp UnOp.Negate inner => Some (Expr.UnOp UnOp.Abs inner)
  | UnOp.Abs, Expr.UnOp UnOp.Abs _
  | UnOp.Floor, Expr.UnOp UnOp.Floor _
  | UnOp.Ceil, Expr.UnOp UnOp.Ceil _
  | UnOp.Round, Expr.UnOp UnOp.Round _
  | UnOp.Trunc, Expr.UnOp UnOp.Trunc _
  | UnOp.Sign, Expr.UnOp UnOp.Sign _
  | UnOp.Floor, Expr.UnOp UnOp.Trunc _
  | UnOp.Ceil, Expr.UnOp UnOp.Trunc _
  | UnOp.Round, Expr.UnOp UnOp.Trunc _ => Some operand
  | UnOp.InverseSqrt, Expr.LitF32 v | UnOp.Reciprocal, Expr.LitF32 v =>
      when (lit_f32_eq v F32_ONE) (Expr.LitF32 F32_ONE)
  | UnOp.Sqrt, Expr.LitF32 v =>
      when (lit_f32_eq v F32_ONE) (Expr.LitF32 F32_ONE) <|> when (lit_f32_eq v 0) (Expr.LitF32 0)
  | UnOp.Sin, Expr.LitF32 v | UnOp.Tan, Expr.LitF32 v | UnOp.Asin, Expr.LitF32 v
  | UnOp.Atan, Expr.LitF32 v | UnOp.Tanh, Expr.LitF32 v | UnOp.Sinh, Expr.LitF32 v =>
      when (lit_f32_eq v 0) (Expr.LitF32 0)
  | UnOp.Cos, Expr.LitF32 v | UnOp.Exp, Expr.LitF32 v | UnOp.Exp2, Expr.LitF32 v
  | UnOp.Cosh, Expr.LitF32 v => when (lit_f32_eq v 0) (Expr.LitF32 F32_ONE)
  | UnOp.Log, Expr.LitF32 v | UnOp.Log2, Expr.LitF32 v | UnOp.Acos, Expr.LitF32 v =>
      when (lit_f32_eq v F32_ONE) (Expr.LitF32 0)
  | UnOp.Popcount, Expr.LitU32 v => Some (lit (count_ones 32 v))
  | UnOp.Clz, Expr.LitU32 v => Some (lit (leading_zeros 32 v))
  | UnOp.Ctz, Expr.LitU32 v => Some (lit (trailing_zeros 32 v))
  | UnOp.ReverseBits, Expr.LitU32 v => Some (lit (reverse_bits 32 v))
  | UnOp.BitNot, Expr.LitU32 v => Some (lit (wrapu 32 (Z.lnot v)))
  | UnOp.Negate, Expr.LitI32 v => Some (Expr.LitI32 (wraps 32 (- v)))
  | UnOp.Abs, Expr.LitU32 v => Some (lit v)
  | UnOp.Abs, Expr.LitI32 v => Some (Expr.LitI32 (wraps 32 (Z.abs v)))
  | _, _ => None
  end.

(** select_rules.rs: the arm of a condition that is no literal. *)
Definition select_rules (cond true_val false_val : Expr) : option Expr :=
  when (expr_eq true_val false_val) true_val
  <|> match cond with
      | Expr.UnOp UnOp.LogicalNot inner_cond => Some (Expr.Select inner_cond false_val true_val)
      | _ => None
      end
  <|> when (is_u32 1 true_val && is_u32 0 false_val) (Expr.Cast DataType.U32 cond)
  <|> when (is_u32 0 true_val && is_u32 1 false_val)
        (Expr.Cast DataType.U32 (Expr.UnOp UnOp.LogicalNot cond))
  <|> match true_val with
      | Expr.Select inner_cond inner_true _ =>
          when (expr_eq inner_cond cond) (Expr.Select cond inner_true false_val)
      | _ => None
      end
  <|> match false_val with
      | Expr.Select inner_cond _ inner_false =>
          when (expr_eq inner_cond cond) (Expr.Select cond true_val inner_false)
      | _ => None
      end.
Definition simplify_select (cond true_val false_val : Expr) : option Expr :=
  match cond with
  | Expr.LitBool true => Some true_val
  | Expr.LitBool false => Some false_val
  | Expr.LitU32 v => if v =? 0 then Some false_val else Some true_val
  | _ => select_rules cond true_val false_val
  end.

(** fma_rules.rs. *)
Definition is_finite_literal (e : Expr) : bool :=
  match e with Expr.LitF32 v => f32_is_finite v | _ => false end.
Definition simplify_fma (a b c : Expr) : option Expr :=
  fold_fma_literal a b c
  <|> when (is_f32 F32_ONE a) (add b c)
  <|> when (is_f32 F32_ONE b) (add a c)
  <|> when (is_f32 0 a && is_finite_literal b) c
  <|> when (is_finite_literal a && is_f32 0 b) c.

(** cast_rules.rs. *)
Definition fold_cast (target : DataType) (value : Expr) : option Expr :=
  fold_cast_literal target value
  <|> match value with
      | Expr.Cast inner_target inner => when (bool_decide (inner_target = target)) (Expr.Cast target inner)
      | _ => None
      end.

(** ** The rule of a node and the pass: mod.rs *)

Section Pass.
Context (fe : FloatEnv).

Definition fold_expr (e : Expr) : option Expr :=
  fold_literal_tree fe e
  <|> match e with
      | Expr.BinOp op l r => simplify_binop op l r <|> fold_binary_literal fe op l r
      | Expr.UnOp op x => simplify_unop op x <|> fold_unary_literal fe op x
      | Expr.Select c t f => simplify_select c t f
      | Expr.Fma a b c => simplify_fma a b c
      | Expr.Cast target v => fold_cast target v
      | _ => None
      end.

(** The rule of the look-behind: a remainder of a local known to be below the divisor. *)
Definition mod_rule (local_lits : gmap string Z) (e : Expr) : option Expr :=
  match e with
  | Expr.BinOp BinOp.Mod (Expr.Var x) (Expr.LitU32 n) =>
      match local_lits !! x with
      | Some c => when (c <? n) (Expr.Var x)
      | None => None
      end
  | _ => None
  end.
(** The rewritten expression, and whether the rule fired. *)
Definition rewrite_expr_for_mod (local_lits : gmap string Z) (e : Expr) : Expr * bool :=
  let cow := rewrite_operand (mod_rule local_lits) e in (cow_value cow, is_owned cow).

Definition note_literal (name : string) (value : Expr) (local_lits : gmap string Z) : gmap string Z :=
  match value with
  | Expr.LitU32 c => <[name := c]> local_lits
  | Expr.LitI32 c => if 0 <=? c then <[name := c]> local_lits else local_lits
  | _ => local_lits
  end.

(** One statement: its replacement, the changed flag and the literals known after it. *)
Fixpoint lookbehind_node (n : Node) (local_lits : gmap string Z) : Node * bool * gmap string Z :=
  let fold_mod_lookbehind (nodes : list Node) : list Node * bool :=
    (fix go (nodes : list Node) (local_lits : gmap string Z) : list Node * bool :=
       match nodes with
       | [] => ([], false)
       | n :: nodes =>
           let '(n', c, local_lits) := lookbehind_node n local_lits in
           let '(nodes', c') := go nodes local_lits in (n' :: nodes', c || c')
       end) nodes ∅ in
  match n with
  | Node.Let name value =>
      let '(value, c) := rewrite_expr_for_mod local_lits value in
      (Node.Let name value, c, note_literal name value local_lits)
  | Node.Assign name value =>
      let local_lits := delete name local_lits in
      let '(value, c) := rewrite_expr_for_mod local_lits value in
      (Node.Assign name value, c, local_lits)
  | Node.Store buffer index value =>
      let '(index, c1) := rewrite_expr_for_mod local_lits index in
      let '(value, c2) := rewrite_expr_for_mod local_lits value in
      (Node.Store buffer index value, c1 || c2, local_lits)
  | Node.If cond thn otherwise =>
      let '(cond, c1) := rewrite_expr_for_mod local_lits cond in
      let '(thn, c2) := fold_mod_lookbehind thn in
      let '(otherwise, c3) := fold_mod_lookbehind otherwise in
      (Node.If cond thn otherwise, c1 || c2 || c3, local_lits)
  | Node.Loop var from to body =>
      let '(from, c1) := rewrite_expr_for_mod local_lits from in
      let '(to, c2) := rewrite_expr_for_mod local_lits to in
      let '(body, c3) := fold_mod_lookbehind body in
      (Node.Loop var from to body, c1 || c2 || c3, local_lits)
  | Node.Block body =>
      let '(body, c) := fold_mod_lookbehind body in (Node.Block body, c, local_lits)
  | Node.Region generator source_region body =>
      let '(body, c) := fold_mod_lookbehind body in (Node.Region generator source_region body, c, local_lits)
  | Node.Trap address tag =>
      let '(address, c) := rewrite_expr_for_mod local_lits address in (Node.Trap address tag, c, local_lits)
  | _ => (n, false, local_lits)
  end.
Fixpoint fold_mod_lookbehind (nodes : list Node) (local_lits : gmap string Z) : list Node * bool :=
  match nodes with
  | [] => ([], false)
  | n :: nodes =>
      let '(n', c, local_lits) := lookbehind_node n local_lits in
      let '(nodes', c') := fold_mod_lookbehind nodes local_lits in (n' :: nodes', c || c')
  end.

Definition ConstFold_transform (p : Program) : Program * bool :=
  let '(new_entry, lookbehind_changed) := fold_mod_lookbehind (entry p) ∅ in
  let p := if lookbehind_changed then with_rewritten_entry p new_entry else p in
  let '(p, changed) := rewrite_program fold_expr p in
  (p, lookbehind_changed || changed).
End Pass.

(** [NODE_KIND_EXPRESSION_BEARING_MASK]: let, assign, store, if, loop, the asynchronous
    transfers and trap. *)
Definition NODE_KIND_EXPRESSION_BEARING_MASK : Z :=
  foldr Z.lor 0 (node_kind <$>
    [Node.Let "" (lit 0); Node.Assign "" (lit 0); Node.Store "" (lit 0) (lit 0); Node.If (lit 0) [] [];
     Node.Loop "" (lit 0) (lit 0) []; Node.AsyncLoad "" "" (lit 0) (lit 0) "";
     Node.AsyncStore "" "" (lit 0) (lit 0) ""; Node.Trap (lit 0) ""]).
(** [analyze_impl]: whether the pass runs. *)
Definition ConstFold_analyze (p : Program) : bool :=
  has_any_node_kind (compute_stats p) NODE_KIND_EXPRESSION_BEARING_MASK.
