(* ===== verification/ConstFoldSound.v ===== *)
(** Constant folding preserves evaluation.

    [exact_fold] is the constant folder restricted to the nodes where its rules are
    exact; it discharges the contract of the rewrite engine.  What the rules do outside
    that range, and what the look-behind misses, is shown on programs. *)

From S2P Require Import Prelude Float Spec IR ProgramStats RefValue RefMemory RefEval DivMagic.
From S2P Require Import StrengthReduce StrengthReduceSound Rewrite RewriteSound ConstEval ConstFold.

(** ** Type evidence *)

(** Operators of [u32] that return [u32], and operators that return a boolean. *)
Definition word_binop (op : BinOp) : bool :=
  bool_decide (op ∈ [BinOp.Add; BinOp.Sub; BinOp.Mul; BinOp.Div; BinOp.Mod; BinOp.WrappingAdd; BinOp.WrappingSub;
    BinOp.BitAnd; BinOp.BitOr; BinOp.BitXor; BinOp.Shl; BinOp.Shr; BinOp.AbsDiff; BinOp.Min; BinOp.Max;
    BinOp.SaturatingAdd; BinOp.SaturatingSub; BinOp.SaturatingMul; BinOp.RotateLeft; BinOp.RotateRight;
    BinOp.MulHigh]).
Definition word_unop (op : UnOp) : bool :=
  bool_decide (op ∈ [UnOp.Negate; UnOp.BitNot; UnOp.Popcount; UnOp.Clz; UnOp.Ctz; UnOp.ReverseBits]).
Definition logical_binop (op : BinOp) : bool :=
  bool_decide (op ∈ [BinOp.Eq; BinOp.Ne; BinOp.Lt; BinOp.Gt; BinOp.Le; BinOp.Ge; BinOp.And; BinOp.Or]).
Definition logical_unop (op : UnOp) : bool :=
  bool_decide (op ∈ [UnOp.LogicalNot; UnOp.IsNan; UnOp.IsInf; UnOp.IsFinite]).

(** Expressions that evaluate to a [u32], to a boolean, if they evaluate. *)
Fixpoint u32_typed (e : Expr) : bool :=
  match e with
  | Expr.LitU32 _ | Expr.BufLen _ | Expr.InvocationId _ | Expr.WorkgroupId _ | Expr.LocalId _
  | Expr.Cast DataType.U32 _ => true
  | Expr.BinOp op l r => word_binop op && (u32_typed l || u32_typed r)
  | Expr.UnOp op x => word_unop op && u32_typed x
  | Expr.Select _ t f => u32_typed t && u32_typed f
  | _ => false
  end.
Fixpoint bool_typed (e : Expr) : bool :=
  match e with
  | Expr.LitBool _ | Expr.Cast DataType.Bool _ => true
  | Expr.BinOp op _ _ => logical_binop op
  | Expr.UnOp op _ => logical_unop op
  | Expr.Select _ t f => bool_typed t && bool_typed f
  | _ => false
  end.

Lemma word_binop_u32 fe op x y v : word_binop op = true ->
  eval_binop fe op (Value.U32 x) (Value.U32 y) = Ok v -> exists z, v = Value.U32 z.
Proof. destruct op; try discriminate; intros _ [= <-]; eauto. Qed.
Lemma logical_binop_bool fe op a b v : logical_binop op = true -> eval_binop fe op a b = Ok v ->
  exists c, v = Value.Bool c.
Proof.
  intros Hop. destruct a, b; try discriminate; unfold eval_binop, binop_f32;
    destruct op; try discriminate Hop; try discriminate; apply (ok_elim (fun v => exists c, v = Value.Bool c)); eauto.
Qed.
Lemma word_unop_u32 fe op x v : word_unop op = true -> eval_unop fe op (Value.U32 x) = Ok v ->
  exists z, v = Value.U32 z.
Proof. destruct op; try discriminate; intros _ [= <-]; eauto. Qed.
Lemma logical_unop_bool fe op a v : logical_unop op = true -> eval_unop fe op a = Ok v ->
  exists c, v = Value.Bool c.
Proof.
  intros Hop. destruct a; try discriminate; unfold eval_unop, unop_f32;
    destruct op; try discriminate Hop; try discriminate; apply (ok_elim (fun v => exists c, v = Value.Bool c)); eauto.
Qed.
Lemma cast_u32_typed a v : cast_value DataType.U32 a = Ok v -> exists z, v = Value.U32 z.
Proof.
  unfold cast_value. destruct a; try destruct (Value.try_as_u32 _); try discriminate;
    apply (ok_elim (fun v => exists z, v = Value.U32 z)); eauto.
Qed.

Section Typed.
Context (fe : FloatEnv) (dialect : option (string -> option OpDef)).
Context (inv : Invocation) (p : Program).
Abbreviation eval := (eval_rec fe dialect inv p).

Lemma axis_u32 d a v : axis_value d a = Ok v -> exists z, v = Value.U32 z.
Proof. destruct d as [[x y] z]. unfold axis_value. repeat case_match; try discriminate; intros [= <-]; eauto. Qed.
Lemma select_inv c t f m v m' : eval (Expr.Select c t f) m = Ok (v, m') -> exists a m1 b m2 d,
  eval c m = Ok (a, m1) /\ eval t m1 = Ok (b, m2) /\ eval f m2 = Ok (d, m')
  /\ v = if Value.truthy a then b else d.
Proof.
  cbn [eval_rec]. intros H. run_inv H. injection H as <- <-. eauto 10.
Qed.
Lemma cast_inv t x m v m' : eval (Expr.Cast t x) m = Ok (v, m') ->
  exists a, eval x m = Ok (a, m') /\ cast_value t a = Ok v.
Proof. cbn [eval_rec]. intros H. run_inv H. apply lift_inv in H as [H ->]. eauto. Qed.

Lemma u32_typed_sound e : u32_typed e = true -> forall m v m',
  eval e m = Ok (v, m') -> exists x, v = Value.U32 x.
Proof.
  induction e using Expr_ind'; cbn [u32_typed]; try discriminate; intros Ht m v0 m' H0;
    try (by injection H0 as <- _; eauto); try (apply lift_inv in H0 as [H0 _]; by eapply axis_u32).
  - cbn [eval_rec] in H0. unfold eval_buf_len in H0. run_inv H0. injection H0 as <- _. eauto.
  - apply andb_true_iff in Ht as [Hop Ht].
    destruct (eval_bin_inv _ _ _ _ _ _ _ _ _ _ H0) as (a & m1 & b & Hl & Hr & Hv).
    assert (exists z, a = Value.U32 z \/ b = Value.U32 z) as [z Hz].
    { apply orb_true_iff in Ht as [Ht|Ht]; [destruct (IHe1 Ht _ _ _ Hl)|destruct (IHe2 Ht _ _ _ Hr)]; eauto. }
    destruct (u32_operands fe op a b v0 z Hz Hv) as (x & y & -> & ->). by eapply word_binop_u32.
  - apply andb_true_iff in Ht as [Hop Ht].
    destruct (eval_un_inv _ _ _ _ _ _ _ _ _ H0) as (a & Hx & Hv). destruct (IHe Ht _ _ _ Hx) as [z ->].
    by eapply word_unop_u32.
  - apply andb_true_iff in Ht as [Ht Hf].
    destruct (select_inv _ _ _ _ _ _ H0) as (a & m1 & b & m2 & d & _ & Eb & Ed & ->).
    destruct (Value.truthy a); eauto.
  - destruct t; try discriminate. destruct (cast_inv _ _ _ _ _ H0) as (a & _ & Hv). by eapply cast_u32_typed.
Qed.
Lemma bool_typed_sound e : bool_typed e = true -> forall m v m',
  eval e m = Ok (v, m') -> exists c, v = Value.Bool c.
Proof.
  induction e using Expr_ind'; cbn [bool_typed]; try discriminate; intros Ht m v0 m' H0;
    try (by injection H0 as <- _; eauto).
  - destruct (eval_bin_inv _ _ _ _ _ _ _ _ _ _ H0) as (a & m1 & b & Hl & Hr & Hv).
    by eapply logical_binop_bool.
  - destruct (eval_un_inv _ _ _ _ _ _ _ _ _ H0) as (a & Hx & Hv). by eapply logical_unop_bool.
  - apply andb_true_iff in Ht as [Ht Hf].
    destruct (select_inv _ _ _ _ _ _ H0) as (a & m1 & b & m2 & d & _ & Eb & Ed & ->).
    destruct (Value.truthy a); eauto.
  - destruct t; try discriminate. destruct (cast_inv _ _ _ _ _ H0) as (a & _ & Hv). injection Hv as <-. eauto.
Qed.
End Typed.

(** ** The shared identities on unsigned words *)

Lemma keep_Some b r k : keep b r = Some k -> b = true /\ k = r.
Proof. destruct b; [|done]. by intros [= <-]. Qed.

(** What is known of the literal form of an operand with the value [x]. *)
Definition lit_is (o : option ScalarLiteral) (x : Z) : Prop := o = None \/ o = Some (ScalarLiteral.U32 x).
Lemma lit_is_facts o x : lit_is o x ->
  (is_some_and ScalarLiteral.is_numeric_zero o = true -> x = 0)
  /\ (is_some_and ScalarLiteral.is_integer_zero o = true -> x = 0)
  /\ (is_some_and ScalarLiteral.is_numeric_one o = true -> x = 1)
  /\ (is_some_and ScalarLiteral.is_bit_all_ones o = true -> x = U32_MAX).
Proof. intros [->| ->]; cbn; rewrite ?Z.eqb_eq; done. Qed.

Lemma land_max x : inu 32 x -> Z.land x U32_MAX = x /\ Z.land U32_MAX x = x.
Proof.
  intros Hx. rewrite (Z.land_comm U32_MAX). change U32_MAX with (2 ^ 32 - 1).
  rewrite land_mask by lia. rewrite Z.mod_small by exact Hx. done.
Qed.
Lemma lor_max x : inu 32 x -> Z.lor x U32_MAX = U32_MAX /\ Z.lor U32_MAX x = U32_MAX.
Proof.
  intros Hx. rewrite (Z.lor_comm U32_MAX). destruct (complement_ops x Hx) as (_ & H & _).
  rewrite <- H at 1 3. by rewrite Z.lor_assoc, Z.lor_diag.
Qed.
Lemma lxor_max x : inu 32 x -> Z.lxor x U32_MAX = wrapu 32 (Z.lnot x) /\ Z.lxor U32_MAX x = wrapu 32 (Z.lnot x).
Proof.
  intros Hx. rewrite (Z.lxor_comm U32_MAX), wrapu_lnot by done. destruct (complement_ops x Hx) as (_ & _ & H).
  rewrite <- H at 1 3. by rewrite <- Z.lxor_assoc, Z.lxor_nilpotent, Z.lxor_0_l.
Qed.

Lemma shift_zero a l : inu 32 a -> shift_u32 a 0 l = a.
Proof. intros Ha. unfold shift_u32. rewrite Z.land_0_l, Z.shiftl_0_r, Z.shiftr_0_r, wrapu_id by done. by destruct l. Qed.

Section Words.
Context (fe : FloatEnv) (a b : Z) (Ha : inu 32 a) (Hb : inu 32 b).
Abbreviation u32 := Value.U32.

(** Reads one guard of the identity table and substitutes what it says of a literal. *)
Local Ltac read_guard H :=
  apply keep_Some in H as [H ->];
  repeat match type of H with
  | context [bool_decide (?o ∈ ?l)] =>
      let c := eval vm_compute in (bool_decide (o ∈ l)) in change (bool_decide (o ∈ l)) with c in H
  | context [bool_decide (?o = ?l)] =>
      let c := eval vm_compute in (bool_decide (o = l)) in change (bool_decide (o = l)) with c in H
  end; cbn [andb orb] in H; rewrite ?andb_false_r, ?andb_true_r, ?orb_false_r in H; try discriminate H;
  match goal with
  | F : ?P = true -> a = _ |- _ => match type of H with P = true => apply F in H end
  | F : ?P = true -> b = _ |- _ => match type of H with P = true => apply F in H end
  | F : ?P = true -> a = b |- _ => match type of H with P = true => apply F in H end
  end.

Local Ltac word_identity :=
  rewrite ?Z.add_0_l, ?Z.add_0_r, ?Z.sub_0_r, ?Z.mul_1_l, ?Z.mul_1_r, ?Z.mul_0_l, ?Z.mul_0_r, ?Z.land_diag,
    ?Z.lor_diag, ?Z.land_0_l, ?Z.land_0_r, ?Z.lor_0_l, ?Z.lor_0_r, ?Z.lxor_0_l, ?Z.lxor_0_r, ?Z.min_id,
    ?Z.max_id, ?shift_zero by done;
  first [ reflexivity
        | by rewrite wrapu_id by done
        | by rewrite (fun x Hx => proj1 (land_max x Hx)) by done
        | by rewrite (fun x Hx => proj2 (land_max x Hx)) by done
        | by rewrite (fun x Hx => proj1 (lor_max x Hx)) by done
        | by rewrite (fun x Hx => proj2 (lor_max x Hx)) by done
        | by rewrite (fun x Hx => proj1 (rotate_zero x Hx)) by done
        | by rewrite (fun x Hx => proj2 (rotate_zero x Hx)) by done
        | by unfold div_u32; cbn; rewrite Z.div_1_r
        | unfold clamp, inu in *; do 2 f_equal; lia ].

Lemma identity_sound op same la lb k : (same = true -> a = b) -> lit_is la a -> lit_is lb b ->
  op <> BinOp.And -> op <> BinOp.Or -> binop_identity_replacement op same la lb = Some k ->
  eval_binop fe op (u32 a) (u32 b) = Ok (u32 (match k with KeepLeft => a | KeepRight => b end)).
Proof.
  intros Hs Hla Hlb Hn1 Hn2 H.
  destruct (lit_is_facts la a Hla) as (Za & Ia & Oa & Ma), (lit_is_facts lb b Hlb) as (Zb & Ib & Ob & Mb).
  unfold binop_identity_replacement in H. cbv zeta in H.
  destruct op; try done; repeat (apply or_else_Some in H as [H|H]); try discriminate H; read_guard H.
  all: cbn [eval_binop u32_shared_binop binop_int u32_ty it_value it_wrap it_shift it_div it_rem fmap result_fmap];
    try subst a; try subst b; word_identity.
Qed.
End Words.

(** ** The table on unsigned words *)

Section Table.
Context (fe : FloatEnv) (dialect : option (string -> option OpDef)).
Context (inv : Invocation) (p : Program) (m : Memory).
Abbreviation evals := (evals fe dialect inv p m).
Abbreviation u32 := Value.U32.

Lemma literal_value e v : is_literal e = true -> evals e (u32 v) -> e = lit v.
Proof. destruct e; try discriminate; intros _ [= <-]; done. Qed.
Lemma combine_u32 f k1 k2 k v : combine_literals f k1 k2 = Some k -> evals k2 (u32 v) ->
  exists u, k1 = lit u /\ k2 = lit v /\ k = lit (f u v).
Proof.
  intros H Hv. destruct k1; try done; destruct k2; try done; injection Hv as ->.
  cbn in H. unfold in_u32 in H. apply when_Some in H as [_ ->]. eauto.
Qed.

(** An operator on two operands of which one is a literal, and whose value is unsigned. *)
Lemma word_operands op x y v : word_binop op = true -> (is_u32_literal x || is_u32_literal y) = true ->
  evals (Expr.BinOp op x y) (u32 v) ->
  exists a b, evals x (u32 a) /\ evals y (u32 b) /\ eval_binop fe op (u32 a) (u32 b) = Ok (u32 v).
Proof.
  intros Hop Hlit H. destruct (eval_bin_inv _ _ _ _ _ _ _ _ _ _ H) as (a & m1 & b & Hx & Hy & Hv).
  assert (exists z, a = u32 z \/ b = u32 z) as [z Hz].
  { apply orb_true_iff in Hlit as [E|E]; [destruct x|destruct y]; try discriminate E;
      [injection Hx as <-|injection Hy as <-]; eauto. }
  destruct (u32_operands fe op a b (u32 v) z Hz Hv) as (x' & y' & -> & ->).
  assert (m1 = m) as ->.
  { apply orb_true_iff in Hlit as [E|E]; [destruct x|destruct y]; try discriminate E;
      [by injection Hx|by injection Hy]. }
  by exists x', y'.
Qed.

Section Operands.
Context (l r : Expr) (a b : Z).
Context (Hl : evals l (u32 a)) (Hr : evals r (u32 b)) (Ha : inu 32 a) (Hb : inu 32 b).

Lemma reassociate_sound op f e : arith_op op f ->
  reassociate op f l r = Some e -> evals e (u32 (wrapu 32 (f a b))).
Proof.
  intros Hop H. destruct l as [| | | | | | | | | |o x y| | | | | | | | | | | |]; try done.
  cbn [reassociate] in H. destruct (bool_decide_reflect (o = op)) as [->|]; [|done].
  assert (word_binop op = true /\ forall u v, eval_binop fe op (u32 u) (u32 v) = Ok (u32 (wrapu 32 (f u v)))) as [Hw Hop'].
  { by destruct Hop as [[-> ->]|[-> ->]]. }
  apply or_else_Some in H as [H|H]; apply bind_Some in H as (k & Hk & [= <-]);
    destruct (combine_u32 _ _ _ _ _ Hk Hr) as (u & -> & -> & ->).
  - destruct (word_operands op x (lit u) a Hw) as (c & d & Hx & Hy & Hv); [by rewrite orb_true_r|done|].
    injection Hy as <-. rewrite Hop' in Hv. injection Hv as <-.
    replace (wrapu 32 (f (wrapu 32 (f c u)) b)) with (wrapu 32 (f c (f u b))).
    + eapply evals_bin; [exact Hx|apply evals_lit|apply Hop'].
    + destruct Hop as [[_ ->]|[_ ->]]; wrapu_ring.
  - destruct (word_operands op (lit u) y a Hw) as (c & d & Hx & Hy & Hv); [done..|].
    injection Hx as <-. rewrite Hop' in Hv. injection Hv as <-.
    replace (wrapu 32 (f (wrapu 32 (f u d)) b)) with (wrapu 32 (f d (f u b))).
    + eapply evals_bin; [exact Hy|apply evals_lit|apply Hop'].
    + destruct Hop as [[_ ->]|[_ ->]]; wrapu_ring.
Qed.

(** [+] and [-] on words. *)
Lemma arith_word op f u v : (op = BinOp.Add /\ f = Z.add) \/ (op = BinOp.Sub /\ f = Z.sub) ->
  eval_binop fe op (u32 u) (u32 v) = Ok (u32 (wrapu 32 (f u v))) /\ word_binop op = true.
Proof. by intros [[-> ->]|[-> ->]]. Qed.

Lemma factor_out_sound op f e : (op = BinOp.Add /\ f = Z.add) \/ (op = BinOp.Sub /\ f = Z.sub) ->
  exact_eq l = true -> factor_out f l r = Some e -> evals e (u32 (wrapu 32 (f a b))).
Proof.
  intros Hop Hx H. unfold factor_out in H.
  destruct l as [| | | | | | | | | |o1 x k1| | | | | | | | | | | |]; try done. destruct o1; try done.
  destruct r as [| | | | | | | | | |o2 y k2| | | | | | | | | | | |]; try done. destruct o2; try done.
  cbn in H. destruct (expr_eq x y) eqn:Exy; [|done]. apply bind_Some in H as (k & Hk & [= <-]).
  cbn [exact_eq] in Hx. apply andb_true_iff in Hx as [Hx _]. apply (expr_eq_exact x y Hx) in Exy as <-.
  assert (exists u v, k1 = lit u /\ k2 = lit v /\ k = lit (f u v)) as (u & v & -> & -> & ->).
  { destruct (eval_bin_inv _ _ _ _ _ _ _ _ _ _ Hr) as (c & m1 & d & _ & Hd & Hv).
    destruct k1; try done; destruct k2; try done; cbn in Hk.
    - apply when_Some in Hk as [_ ->]. eauto.
    - injection Hd as <- _. destruct c; discriminate Hv. }
  destruct (word_operands BinOp.Mul x (lit u) a) as (c & d & Hc & Hd & Hv); [done|by rewrite orb_true_r|done|].
  destruct (word_operands BinOp.Mul x (lit v) b) as (c' & d' & Hc' & Hd' & Hv'); [done|by rewrite orb_true_r|done|].
  rewrite (evals_u32_det _ _ _ _ _ _ _ _ Hc' Hc) in *. injection Hd as <-. injection Hd' as <-.
  injection Hv as <-. injection Hv' as <-.
  replace (wrapu 32 (f (wrapu 32 (c * u)) (wrapu 32 (c * v)))) with (wrapu 32 (c * f u v)).
  - by apply evals_mul.
  - destruct Hop as [[_ ->]|[_ ->]]; wrapu_ring.
Qed.

Lemma sum_operands op f x y v : (op = BinOp.Add /\ f = Z.add) \/ (op = BinOp.Sub /\ f = Z.sub) ->
  (lit_int x || lit_int y) = true -> evals (Expr.BinOp op x y) (u32 v) ->
  exists c d, evals x (u32 c) /\ evals y (u32 d) /\ v = wrapu 32 (f c d).
Proof.
  intros Hop Hlit H. destruct (arith_word op f 0 0 Hop) as [_ Hw].
  destruct (word_operands op x y v Hw) as (c & d & Hc & Hd & Hv); [|done|].
  - destruct (eval_bin_inv _ _ _ _ _ _ _ _ _ _ H) as (c & m1 & d & Hc & Hd & Hv).
    apply orb_true_iff in Hlit as [E|E]; [destruct x|destruct y]; try discriminate E;
      cbn; rewrite ?orb_true_r; try done; [injection Hc as <-|injection Hd as <-];
      destruct Hop as [[-> _]|[-> _]]; first [destruct c|destruct d]; discriminate Hv.
  - exists c, d. split; [done|]. split; [done|]. rewrite (proj1 (arith_word op f c d Hop)) in Hv.
    by injection Hv.
Qed.
Lemma lit_int_value x v : lit_int x = true -> evals x (u32 v) -> x = lit v.
Proof. destruct x; try discriminate; intros _ [= <-]; done. Qed.
Lemma distributed op f x y z w c d : (op = BinOp.Add /\ f = Z.add) \/ (op = BinOp.Sub /\ f = Z.sub) ->
  evals x (u32 c) -> evals y (u32 d) -> evals z (u32 w) ->
  evals (Expr.BinOp op (mul z x) (mul z y)) (u32 (wrapu 32 (w * wrapu 32 (f c d))))
  /\ evals (Expr.BinOp op (mul x z) (mul y z)) (u32 (wrapu 32 (w * wrapu 32 (f c d)))).
Proof.
  intros Hop Hx Hy Hz. split; (eapply evals_bin; [by apply evals_mul|by apply evals_mul|]);
    rewrite (proj1 (arith_word op f _ _ Hop)); do 2 f_equal; destruct Hop as [[_ ->]|[_ ->]]; wrapu_ring.
Qed.
Lemma distribute_left_sound op f e : (op = BinOp.Add /\ f = Z.add) \/ (op = BinOp.Sub /\ f = Z.sub) ->
  distribute_left op l r = Some e -> evals e (u32 (wrapu 32 (a * b))).
Proof.
  intros Hop H. unfold distribute_left in H. destruct r as [| | | | | | | | | |o x y| | | | | | | | | | | |]; try done.
  apply when_Some in H as [H ->]. rewrite !andb_true_iff, bool_decide_eq_true in H.
  destruct H as [[Hc ->] Hxy]. destruct (sum_operands op f x y b Hop Hxy Hr) as (c & d & Hx & Hy & ->).
  by apply distributed.
Qed.
Lemma distribute_right_sound op f e : (op = BinOp.Add /\ f = Z.add) \/ (op = BinOp.Sub /\ f = Z.sub) ->
  distribute_right op l r = Some e -> evals e (u32 (wrapu 32 (a * b))).
Proof.
  intros Hop H. unfold distribute_right in H. destruct l as [| | | | | | | | | |o x y| | | | | | | | | | | |]; try done.
  apply when_Some in H as [H ->]. rewrite !andb_true_iff, bool_decide_eq_true in H.
  destruct H as [[Hc ->] Hxy]. destruct (sum_operands op f x y a Hop Hxy Hl) as (c & d & Hx & Hy & ->).
  rewrite (Z.mul_comm _ b). by apply distributed.
Qed.

(** Reads the guards of a chain of alternatives. *)
Lemma self_value : exact_eq l = true -> expr_eq l r = true -> l = r /\ a = b.
Proof.
  intros Hx E. apply (expr_eq_exact l r Hx) in E. split; [done|]. subst r. by apply (evals_u32_det fe dialect inv p m l).
Qed.
Lemma is_int_value k e v : is_int k e = true -> evals e (u32 v) -> v = k.
Proof.
  intros [H|H]%orb_true_iff Hv; [by apply (is_u32_value fe dialect inv p m k e)|].
  destruct e; try discriminate H; discriminate Hv.
Qed.
Lemma is_zero_value e v : is_zero e = true -> evals e (u32 v) -> v = 0.
Proof.
  intros [H|H]%orb_true_iff Hv; [by apply (is_int_value 0 e)|]. exfalso. by eapply is_f32_value.
Qed.
Lemma is_one_value e v : is_one e = true -> evals e (u32 v) -> v = 1.
Proof.
  intros [H|H]%orb_true_iff Hv; [by apply (is_int_value 1 e)|]. exfalso. by eapply is_f32_value.
Qed.
Lemma is_i32_value k e v : is_i32 k e = true -> evals e (u32 v) -> False.
Proof. by destruct e. Qed.
Local Ltac alternatives H :=
  repeat (apply or_else_Some in H as [H|H]);
  try (apply when_Some in H as [H ->]);
  try (exfalso; by eapply is_f32_value); try (exfalso; by eapply is_i32_value);
  try (exfalso; eapply fma_when_none; [|exact H]; eassumption).
(** Substitutes the literal a guard tests for. *)
Local Ltac literal H :=
  first [ apply (is_zero_value r b) in H; [|done] | apply (is_zero_value l a) in H; [|done]
        | apply (is_one_value r b) in H; [|done] | apply (is_one_value l a) in H; [|done]
        | apply (is_int_value _ r b) in H; [|done] | apply (is_int_value _ l a) in H; [|done]
        | apply (is_u32_value fe dialect inv p m _ r b) in H; [|done]
        | apply (is_u32_value fe dialect inv p m _ l a) in H; [|done] ]; subst.

(** Identifies the operands of a self rule. *)
Local Ltac self H :=
  try apply andb_true_iff in H as [H _];
  match goal with Hel : exact_eq l = true |- _ => destruct (self_value Hel H) as [_ ->] end.

Lemma evals_bitnot x v : evals x (u32 v) -> evals (Expr.UnOp UnOp.BitNot x) (u32 (wrapu 32 (Z.lnot v))).
Proof. unfold StrengthReduceSound.evals. intros H. cbn [eval_rec]. by rewrite (M_bind_run _ _ _ _ _ H). Qed.

Lemma simplify_add_sound e : exact_eq l = true -> simplify_add l r = Some e ->
  evals e (u32 (wrapu 32 (a + b))).
Proof.
  intros Hx H. unfold simplify_add in H. alternatives H.
  - literal H. by rewrite Z.add_0_r, wrapu_id.
  - literal H. by rewrite wrapu_id.
  - by apply (reassociate_sound BinOp.Add Z.add); [left|].
  - by apply (factor_out_sound BinOp.Add Z.add); [left|..].
Qed.
Lemma simplify_sub_sound e : exact_eq l = true -> simplify_sub l r = Some e ->
  evals e (u32 (wrapu 32 (a - b))).
Proof.
  intros Hx H. unfold simplify_sub in H. alternatives H.
  - destruct (self_value Hx H) as [_ ->]. by rewrite Z.sub_diag.
  - literal H. by rewrite Z.sub_0_r, wrapu_id.
  - by apply (factor_out_sound BinOp.Sub Z.sub); [right|..].
Qed.
Lemma simplify_mul_sound e : simplify_mul l r = Some e -> evals e (u32 (wrapu 32 (a * b))).
Proof.
  intros H. unfold simplify_mul in H. alternatives H.
  - by apply (reassociate_sound BinOp.Mul Z.mul); [right|].
  - by apply (distribute_left_sound BinOp.Add Z.add); [left|].
  - by apply (distribute_right_sound BinOp.Add Z.add); [left|].
  - by apply (distribute_left_sound BinOp.Sub Z.sub); [right|].
  - by apply (distribute_right_sound BinOp.Sub Z.sub); [right|].
  - literal H. by rewrite Z.mul_1_r, wrapu_id.
  - literal H. by rewrite Z.mul_1_l, wrapu_id.
  - literal H. by rewrite Z.mul_0_r.
  - literal H. by rewrite Z.mul_0_l.
Qed.

Lemma simplify_div_sound e : expr_eq l r = false -> simplify_div l r = Some e ->
  evals e (u32 (if b =? 0 then U32_MAX else a / b)).
Proof.
  intros Hne H. unfold simplify_div in H. rewrite Hne in H. destruct (is_one r) eqn:E1.
  { injection H as <-. apply (is_one_value r b) in E1; [|done]. subst b. cbn. by rewrite Z.div_1_r. }
  destruct (is_i32 (-1) r); [done|]. destruct (is_f32 F32_ONE l) eqn:E2; [exfalso; by eapply is_f32_value|].
  apply or_else_Some in H as [H|H]; [|done].
  destruct l as [| | | | | | | | | | |o x| | | | | | | | | | |]; try done. destruct o; try done.
  destruct (eval_un_inv _ _ _ _ _ _ _ _ _ Hl) as (v & _ & Hv).
  destruct v; discriminate Hv.
Qed.

Lemma simplify_shift_sound op e : op = BinOp.Shl \/ op = BinOp.Shr -> fused_in_width l r op = true ->
  simplify_shift op l r = Some e -> evals e (u32 (shift_u32 a b (bool_decide (op = BinOp.Shl)))).
Proof.
  intros Hop Hw H. apply (reduce_shift_sound fe dialect inv p m l r a b Hl Hr Ha Hb op e Hop Hw).
  unfold simplify_shift in H. unfold reduce_shift. destruct (is_u32 0 r).
  - cbn in H. injection H as <-. by destruct (when _ l) eqn:E; [apply when_Some in E as [_ ->]|].
  - by destruct l.
Qed.

(** Where the table is exact on unsigned operands. *)
Definition exact_fold_rule (op : BinOp) : bool :=
  exact_eq l && exact_eq r
  && match op with
     | BinOp.And | BinOp.Or => false
     | BinOp.Div => negb (expr_eq l r)
     | BinOp.Shl | BinOp.Shr => fused_in_width l r op
     | _ => true
     end.

Lemma table_sound op e : exact_fold_rule op = true -> simplify_table op l r = Some e ->
  exists v, eval_binop fe op (u32 a) (u32 b) = Ok v /\ evals e v.
Proof.
  intros Hx H. unfold exact_fold_rule in Hx. rewrite !andb_true_iff in Hx. destruct Hx as [[Hel Her] Hx].
  destruct op; try discriminate H; try discriminate Hx; eexists; (split; [reflexivity|]);
    cbn [it_value it_wrap it_shift u32_ty simplify_table] in *; unfold self_compare in H.
  - by apply simplify_add_sound.
  - by apply simplify_sub_sound.
  - by apply simplify_mul_sound.
  - apply simplify_div_sound; [by apply negb_true_iff|done].
  - alternatives H; [literal H; by rewrite Z.mod_1_r|self H]. destruct (Z.eqb_spec b 0); [done|]. by rewrite Z.mod_same.
  - alternatives H; literal H; by rewrite ?Z.add_0_r, ?Z.add_0_l, wrapu_id.
  - alternatives H; [literal H; by rewrite Z.sub_0_r, wrapu_id|self H]. by rewrite Z.sub_diag.
  - alternatives H; [literal H|literal H|self H|literal H|literal H];
      by rewrite ?Z.land_0_r, ?Z.land_diag, ?(proj1 (land_max a Ha)), ?(proj2 (land_max b Hb)).
  - alternatives H; [literal H|literal H|self H|literal H|literal H];
      by rewrite ?Z.lor_0_r, ?Z.lor_diag, ?(proj1 (lor_max a Ha)), ?(proj2 (lor_max b Hb)).
  - alternatives H; [literal H|literal H|self H|literal H|literal H];
      rewrite ?Z.lxor_0_r, ?Z.lxor_nilpotent, ?(proj1 (lxor_max a Ha)), ?(proj2 (lxor_max b Hb));
      try done; by apply evals_bitnot.
  - by apply (simplify_shift_sound BinOp.Shl e); [left|..].
  - by apply (simplify_shift_sound BinOp.Shr e); [right|..].
  - alternatives H. self H. by rewrite Z.eqb_refl.
  - alternatives H. self H. by rewrite Z.eqb_refl.
  - alternatives H; [self H|literal H..]; unfold inu in *; by rewrite (proj2 (Z.ltb_ge _ _)) by lia.
  - alternatives H; [self H|literal H..]; unfold inu in *; by rewrite (proj2 (Z.ltb_ge _ _)) by lia.
  - alternatives H; [self H|literal H..]; unfold inu in *; by rewrite (proj2 (Z.leb_le _ _)) by lia.
  - alternatives H; [self H|literal H..]; unfold inu in *; by rewrite (proj2 (Z.leb_le _ _)) by lia.
  - alternatives H; [self H; by rewrite Z.min_id|literal H..]; unfold inu in *; by rewrite ?Z.min_l, ?Z.min_r by lia.
  - alternatives H; [self H; by rewrite Z.max_id|literal H..]; unfold inu in *; by rewrite ?Z.max_l, ?Z.max_r by lia.
  - alternatives H; literal H; unfold clamp, inu in *; [replace (Z.max _ _) with a by lia|replace (Z.max _ _) with b by lia]; done.
  - alternatives H; [literal H; unfold clamp, inu in *; by replace (Z.max _ _) with a by lia|self H].
    by rewrite Z.sub_diag.
  - alternatives H; literal H; unfold clamp, inu in *;
      [replace (Z.max _ _) with a by lia|replace (Z.max _ _) with b by lia|rewrite Z.mul_0_r|]; done.
Qed.

Lemma simplify_binop_u32 op e : exact_fold_rule op = true -> simplify_binop op l r = Some e ->
  exists v, eval_binop fe op (u32 a) (u32 b) = Ok v /\ evals e v.
Proof.
  intros Hx H. unfold simplify_binop in H.
  destruct (binop_identity_replacement _ _ _ _) as [k|] eqn:Ek; [|by apply table_sound].
  assert (lit_is (expr_scalar_literal l) a) as Hla
    by (destruct l; try (by left); try discriminate Hl; injection Hl as ->; by right).
  assert (lit_is (expr_scalar_literal r) b) as Hlb
    by (destruct r; try (by left); try discriminate Hr; injection Hr as ->; by right).
  unfold exact_fold_rule in Hx. rewrite !andb_true_iff in Hx. destruct Hx as [[Hel _] Hx].
  eexists. split; [eapply (identity_sound fe a b Ha Hb op _ _ _ k _ Hla Hlb); [| |exact Ek]; by intros ->|].
  by destruct k; injection H as <-.
Unshelve.
  intros [E _]%andb_true_iff. by apply (self_value Hel E).
Qed.
End Operands.

(** ** The table on booleans *)

Section Booleans.
Context (l r : Expr) (a b : bool).
Context (Hl : evals l (Value.Bool a)) (Hr : evals r (Value.Bool b)).
Context (Hpl : effect_free l = true) (Hpr : effect_free r = true).
Context (Hel : exact_eq l = true) (Her : exact_eq r = true).

Lemma is_bool_value k e v : is_bool k e = true -> evals e (Value.Bool v) -> v = k.
Proof. destruct e; try discriminate. cbn. intros H%Bool.eqb_prop [= <-]. done. Qed.
Lemma not_operand x e v w : exact_eq e = true -> is_not_of x e = true -> evals x (Value.Bool v) ->
  evals e (Value.Bool w) -> w = negb v.
Proof.
  intros Hx H Hv Hw. destruct e as [| | | | | | | | | | |o y| | | | | | | | | | |]; try done. destruct o; try done.
  apply (expr_eq_exact y x Hx) in H as ->. destruct (eval_un_inv _ _ _ _ _ _ _ _ _ Hw) as (u & Hu & E).
  unfold StrengthReduceSound.evals in Hv. rewrite Hv in Hu. injection Hu as <-. by injection E.
Qed.
Lemma logical_operands op f x y w : (op = BinOp.And /\ f = andb) \/ (op = BinOp.Or /\ f = orb) ->
  effect_free x = true -> evals (Expr.BinOp op x y) (Value.Bool w) ->
  forall z, evals x (Value.Bool z) \/ evals y (Value.Bool z) ->
  exists u v, evals x (Value.Bool u) /\ evals y (Value.Bool v) /\ w = f u v.
Proof.
  intros Hop Hp H z Hz. destruct (eval_bin_inv _ _ _ _ _ _ _ _ _ _ H) as (c & m1 & d & Hc & Hd & Hv).
  assert (m1 = m) as -> by by apply (effect_free_pure fe dialect inv p x Hp m c).
  assert (c = Value.Bool z \/ d = Value.Bool z) as Hcd
    by (unfold StrengthReduceSound.evals in Hz; destruct Hz as [Hz|Hz]; rewrite Hz in *; [left|right]; congruence).
  assert (exists u v, c = Value.Bool u /\ d = Value.Bool v) as (u & v & -> & ->).
  { destruct Hcd as [->| ->]; [destruct d|destruct c]; try discriminate Hv; eauto. }
  exists u, v. split; [done|]. split; [done|]. by destruct Hop as [[-> ->]|[-> ->]]; injection Hv.
Qed.
Lemma absorbed op f x e v w : (op = BinOp.And /\ f = andb) \/ (op = BinOp.Or /\ f = orb) ->
  effect_free e = true -> exact_eq e = true -> has_operand op x e = true -> evals x (Value.Bool v) ->
  evals e (Value.Bool w) -> exists u, w = f v u.
Proof.
  intros Hop Hp Hx H Hv Hw. destruct e as [| | | | | | | | | |o y z| | | | | | | | | | | |]; try done.
  cbn [has_operand] in H. rewrite andb_true_iff, bool_decide_eq_true in H. destruct H as [-> H].
  cbn [exact_eq effect_free] in Hx, Hp. apply andb_true_iff in Hx as [Hy Hz], Hp as [Hpy Hpz].
  apply orb_true_iff in H as [E|E].
  - apply (expr_eq_exact y x Hy) in E as ->.
    destruct (logical_operands op f x z w Hop Hpy Hw v) as (u & t & Hu & _ & ->); [by left|].
    exists t. unfold StrengthReduceSound.evals in *. f_equal. congruence.
  - apply (expr_eq_exact z x Hz) in E as ->.
    destruct (logical_operands op f y x w Hop Hpy Hw v) as (u & t & _ & Ht & ->); [by right|].
    exists u. assert (t = v) as -> by (unfold StrengthReduceSound.evals in *; congruence).
    destruct Hop as [[_ ->]|[_ ->]]; [apply andb_comm|apply orb_comm].
Qed.
Lemma self_bool : expr_eq l r = true -> a = b.
Proof.
  intros E%(expr_eq_exact l r Hel). subst r. unfold StrengthReduceSound.evals in *. congruence.
Qed.
Lemma simplify_and_sound e : simplify_and l r = Some e -> evals e (Value.Bool (a && b)).
Proof.
  intros H. unfold simplify_and in H.
  repeat (apply or_else_Some in H as [H|H]); apply when_Some in H as [H ->].
  - apply (is_bool_value _ l a) in H as ->; [|done]. done.
  - apply (is_bool_value _ r b) in H as ->; [|done]. by rewrite andb_true_r.
  - apply (is_bool_value _ l a) in H as ->; [|done]. done.
  - apply (is_bool_value _ r b) in H as ->; [|done]. by rewrite andb_false_r.
  - apply self_bool in H as ->. by rewrite andb_diag.
  - rewrite (not_operand l r a b) by done. by rewrite andb_negb_r.
  - rewrite (not_operand r l b a) by done. by rewrite andb_negb_l.
  - destruct (absorbed BinOp.Or orb l r a b) as [u ->]; [by right|done..|]. by destruct a.
  - destruct (absorbed BinOp.Or orb r l b a) as [u ->]; [by right|done..|]. by destruct b, u.
Qed.
Lemma simplify_or_sound e : simplify_or l r = Some e -> evals e (Value.Bool (a || b)).
Proof.
  intros H. unfold simplify_or in H.
  repeat (apply or_else_Some in H as [H|H]); apply when_Some in H as [H ->].
  - apply (is_bool_value _ l a) in H as ->; [|done]. done.
  - apply (is_bool_value _ r b) in H as ->; [|done]. by rewrite orb_true_r.
  - apply (is_bool_value _ l a) in H as ->; [|done]. done.
  - apply (is_bool_value _ r b) in H as ->; [|done]. by rewrite orb_false_r.
  - apply self_bool in H as ->. by rewrite orb_diag.
  - rewrite (not_operand l r a b) by done. by rewrite orb_negb_r.
  - rewrite (not_operand r l b a) by done. by rewrite orb_negb_l.
  - destruct (absorbed BinOp.And andb l r a b) as [u ->]; [by left|done..|]. by destruct a.
  - destruct (absorbed BinOp.And andb r l b a) as [u ->]; [by left|done..|]. by destruct b, u.
Qed.

Lemma bool_literal e v : evals e (Value.Bool v) ->
  (is_some_and ScalarLiteral.is_true (expr_scalar_literal e) = true -> v = true)
  /\ (is_some_and ScalarLiteral.is_false (expr_scalar_literal e) = true -> v = false)
  /\ is_some_and ScalarLiteral.is_numeric_zero (expr_scalar_literal e) = false
  /\ is_some_and ScalarLiteral.is_numeric_one (expr_scalar_literal e) = false.
Proof. intros H. destruct e; try discriminate H; try done. injection H as ->. by destruct v. Qed.
Lemma identity_bool op f k : (op = BinOp.And /\ f = andb) \/ (op = BinOp.Or /\ f = orb) ->
  binop_identity_replacement op (expr_eq l r && is_simple_pure l) (expr_scalar_literal l)
    (expr_scalar_literal r) = Some k -> (match k with KeepLeft => a | KeepRight => b end) = f a b.
Proof.
  destruct (bool_literal l a Hl) as (Tl & Fl & Zl & Ol), (bool_literal r b Hr) as (Tr & Fr & Zr & Or).
  intros Hop H. unfold binop_identity_replacement in H. cbv zeta in H. rewrite Zl, Zr, Ol, Or in H.
  destruct Hop as [[-> ->]|[-> ->]]; repeat (apply or_else_Some in H as [H|H]);
    apply keep_Some in H as [H ->]; try discriminate H; try apply andb_true_iff in H as [H _].
  all: try (apply andb_true_iff in H as [H _]; apply self_bool in H as ->; by destruct b).
  all: first [apply Tl in H|apply Fl in H|apply Tr in H|apply Fr in H]; rewrite H; by rewrite ?andb_true_r, ?andb_false_r, ?orb_true_r, ?orb_false_r.
Qed.
Lemma identity_compare op same la lb : op = BinOp.Eq \/ op = BinOp.Ne ->
  binop_identity_replacement op same la lb = None.
Proof. intros [->| ->]; destruct same; reflexivity. Qed.
Lemma simplify_binop_bool op e v : simplify_binop op l r = Some e ->
  eval_binop fe op (Value.Bool a) (Value.Bool b) = Ok v -> evals e v.
Proof.
  intros H Hv. unfold simplify_binop in H.
  destruct (binop_identity_replacement _ _ _ _) as [k|] eqn:Ek.
  - destruct op; try discriminate Hv; try (rewrite identity_compare in Ek by auto; discriminate Ek);
      injection Hv as <-.
    + rewrite <- (identity_bool BinOp.And andb k (or_introl (conj eq_refl eq_refl)) Ek).
      by destruct k; injection H as <-.
    + rewrite <- (identity_bool BinOp.Or orb k (or_intror (conj eq_refl eq_refl)) Ek).
      by destruct k; injection H as <-.
  - destruct op; try discriminate Hv; injection Hv as <-; cbn [simplify_table] in H.
    + apply when_Some in H as [[H _]%andb_true_iff ->]. apply self_bool in H as ->. by rewrite eqb_reflx.
    + apply when_Some in H as [[H _]%andb_true_iff ->]. apply self_bool in H as ->. by rewrite eqb_reflx.
    + by apply simplify_and_sound.
    + by apply simplify_or_sound.
Qed.
End Booleans.
End Table.

(** ** Unary operators, selections and casts *)

Lemma testbit_of_bits l i : Z.testbit (of_bits l) (Z.of_nat i) = nth i l false.
Proof.
  revert i. induction l as [|c l IH]; intros [|i]; cbn [of_bits nth]; try apply Z.testbit_0_l.
  - change (Z.of_nat 0) with 0. rewrite Z.add_comm. destruct c; [apply Z.testbit_odd_0|].
    rewrite Z.add_0_r. apply Z.testbit_even_0.
  - rewrite Nat2Z.inj_succ, Z.add_comm. destruct c; [rewrite Z.testbit_odd_succ by lia; apply IH|].
    rewrite Z.add_0_r, Z.testbit_even_succ by lia. apply IH.
Qed.
Lemma lookup_bits_of w x i : bits_of w x !! i = if decide (i < Z.to_nat w)%nat then Some (Z.testbit x (Z.of_nat i)) else None.
Proof.
  unfold bits_of. rewrite list_lookup_fmap. destruct (decide _) as [Hi|Hi].
  - by rewrite lookup_seq_lt.
  - by rewrite lookup_seq_ge by lia.
Qed.
Lemma bits_of_of_bits w l : length l = Z.to_nat w -> bits_of w (of_bits l) = l.
Proof.
  intros Hl. apply list_eq. intros i. rewrite lookup_bits_of, testbit_of_bits, nth_lookup.
  destruct (decide _) as [Hi|Hi].
  - destruct (lookup_lt_is_Some_2 l i) as [c ->]; [lia|done].
  - symmetry. apply lookup_ge_None_2. lia.
Qed.
Lemma of_bits_bits_of w x : 0 <= w -> inu w x -> of_bits (bits_of w x) = x.
Proof.
  intros Hw [H0 Hx]. apply Z.bits_inj'. intros n Hn. rewrite <- (Z2Nat.id n) by done.
  rewrite testbit_of_bits, nth_lookup, lookup_bits_of. destruct (decide _) as [Hi|Hi]; [done|]. cbn. symmetry.
  destruct (decide (x = 0)) as [->|]; [apply Z.testbit_0_l|].
  apply Z.bits_above_log2; [done|]. apply Z.log2_lt_pow2; [lia|].
  apply (Z.lt_le_trans _ (2 ^ w)); [done|]. apply Z.pow_le_mono_r; lia.
Qed.
Lemma reverse_bits_involutive w x : 0 <= w -> inu w x -> reverse_bits w (reverse_bits w x) = x.
Proof.
  intros Hw Hx. unfold reverse_bits. rewrite bits_of_of_bits by (by rewrite length_rev, length_bits_of).
  rewrite rev_involutive. by apply of_bits_bits_of.
Qed.

Lemma resize_idem n l : Value.resize n (Value.resize n l) = Value.resize n l.
Proof.
  unfold Value.resize at 1. rewrite length_resize, Nat.sub_diag, app_nil_r.
  apply firstn_all2. by rewrite length_resize.
Qed.
Lemma cast_idempotent t a v w : cast_value t a = Ok v -> cast_value t v = Ok w -> w = v.
Proof.
  intros Hv. destruct t.
  all: try (match goal with |- cast_value DataType.F32 _ = _ -> _ => fail 1 | _ => idtac end;
            injection Hv as <-; by intros [= <-]).
  - destruct (cast_u32_typed a v Hv) as [z ->]. by intros [= <-].
  - assert (exists z, v = Value.I32 z) as [z ->]; [|by intros [= <-]]. revert Hv. unfold cast_value.
    destruct a; try destruct (Value.try_as_u32 _); try discriminate;
      apply (ok_elim (fun v => exists z, v = Value.I32 z)); eauto.
  - revert Hv. unfold cast_value at 1. destruct (Value.try_as_u64 a); [|done]. intros [= <-]. by intros [= <-].
  - injection Hv as <-. intros [= <-]. rewrite !write_bytes_width_into_resize. cbn [Value.to_bytes].
    by rewrite resize_idem.
  - injection Hv as <-. intros [= <-]. rewrite !write_bytes_width_into_resize. cbn [Value.to_bytes].
    by rewrite resize_idem.
  - injection Hv as <-. intros [= <-]. by destruct (Value.truthy a).
  - assert (exists z, v = Value.Float z) as [z ->]; [|by intros [= <-]]. revert Hv. unfold cast_value.
    destruct a; try destruct (Value.try_as_u32 _); try discriminate;
      apply (ok_elim (fun v => exists z, v = Value.Float z)); unfold float_of_int; eauto.
Qed.

(** [!] flips the truth of a value it is defined on. *)
Lemma truthy_not fe a v : eval_unop fe UnOp.LogicalNot a = Ok v -> Value.truthy v = negb (Value.truthy a).
Proof.
  destruct a; try discriminate; intros [= <-]; cbn.
  - by destruct (x =? 0).
  - destruct (Z.leb_spec 0 x); [by destruct (x =? 0)|]. by rewrite (proj2 (Z.eqb_neq x 0)) by lia.
  - destruct (Z.leb_spec x U32_MAX); [by destruct (x =? 0)|]. by rewrite (proj2 (Z.eqb_neq x 0)) by lia.
  - by destruct b.
Qed.

(** ** Where the folder is exact *)

Definition exact_binop (op : BinOp) (l r : Expr) : bool :=
  effect_free l && effect_free r
  && (((u32_typed l || u32_typed r) && exact_fold_rule l r op)
      || ((bool_typed l || bool_typed r) && exact_eq l && exact_eq r)).
Definition exact_unop (op : UnOp) (x : Expr) : bool :=
  match op, x with
  | UnOp.LogicalNot, Expr.UnOp UnOp.LogicalNot inner => bool_typed inner
  | UnOp.Negate, Expr.UnOp UnOp.Negate inner
  | UnOp.ReverseBits, Expr.UnOp UnOp.ReverseBits inner
  | UnOp.BitNot, Expr.UnOp UnOp.BitNot inner => u32_typed inner
  | UnOp.Negate, Expr.BinOp BinOp.Sub l r => (u32_typed l || u32_typed r) && effect_free l && effect_free r
  | _, _ => false
  end.
Definition exact_select (c t f : Expr) : bool :=
  effect_free c && effect_free t && effect_free f && exact_eq c && exact_eq t && exact_eq f
  && (negb (is_u32 1 t && is_u32 0 f) || bool_typed c)
  && (negb (is_u32 0 t && is_u32 1 f) || bool_typed c || u32_typed c).

(** A literal tree without subnormal floats; otherwise an operator on operands that are
    evidently unsigned or evidently boolean, without effects, outside the excluded rules. *)
Definition exact_fold_redex (fe : FloatEnv) (e : Expr) : bool :=
  match fold_literal_tree fe e with
  | Some _ => good_literals e
  | None =>
      in_width e &&
      match e with
      | Expr.BinOp op l r => exact_binop op l r
      | Expr.UnOp op x => exact_unop op x
      | Expr.Select c t f => exact_select c t f
      | Expr.Cast _ _ => true
      | _ => false
      end
  end.
Definition exact_fold (fe : FloatEnv) (e : Expr) : option Expr :=
  if exact_fold_redex fe e then fold_expr fe e else None.

(** What is left after literal trees: a literal operator would have been folded. *)
Lemma tree_none fe e : fold_literal_tree fe e = None ->
  (forall op l r, e = Expr.BinOp op l r -> fold_binary_literal fe op l r = None)
  /\ (forall op x, e = Expr.UnOp op x -> fold_unary_literal fe op x = None)
  /\ (forall t x, e = Expr.Cast t x -> fold_cast_literal t x = None).
Proof.
  intros H. assert (forall x, is_literal x = true -> fold_literal_tree fe x = None) as Hlit by by intros [].
  split_and!; intros; subst e; cbn [fold_literal_tree] in H.
  - destruct (fold_binary_literal fe op l r) eqn:E; [|done]. destruct (binary_operands fe op l r _ E) as [Hl Hr].
    rewrite !Hlit in H by done. cbn in H. congruence.
  - destruct (fold_unary_literal fe op x) eqn:E; [|done]. apply unary_operand in E as Hx.
    rewrite Hlit in H by done. cbn in H. congruence.
  - destruct (fold_cast_literal t x) eqn:E; [|done]. apply cast_operand in E as Hx.
    rewrite Hlit in H by done. cbn in H. congruence.
Qed.

Section Discharge.
Context (fe : FloatEnv) `{Hfe : !FloatEnvOk fe} (dialect : option (string -> option OpDef)).
Context (inv : Invocation) (p : Program) (Hinv : invocation_ok inv) (Hd : dialect_ok dialect).
Abbreviation eval := (eval_rec fe dialect inv p).

Lemma binop_exact op l r e m v m' : exact_binop op l r = true -> in_width (Expr.BinOp op l r) = true ->
  memory_ok m -> simplify_binop op l r = Some e -> eval (Expr.BinOp op l r) m = Ok (v, m') ->
  eval e m = Ok (v, m').
Proof.
  unfold exact_binop. rewrite !andb_true_iff. intros [[Hpl Hpr] Hx] Hw Hm H Hv.
  destruct (eval_bin_inv _ _ _ _ _ _ _ _ _ _ Hv) as (a & m1 & b & Hl & Hr & Hop).
  cbn [in_width] in Hw. apply andb_true_iff in Hw as [Hwl Hwr].
  assert (m1 = m) as -> by by apply (effect_free_pure fe dialect inv p l Hpl m a).
  assert (m' = m) as -> by by apply (effect_free_pure fe dialect inv p r Hpr m b).
  destruct (eval_keeps_width fe dialect inv p Hinv Hd l m a m Hwl Hm Hl) as [Wa _].
  destruct (eval_keeps_width fe dialect inv p Hinv Hd r m b m Hwr Hm Hr) as [Wb _].
  apply orb_true_iff in Hx as [Hx|Hx]; rewrite !andb_true_iff in Hx.
  - destruct Hx as [Ht Hx]. assert (exists z, a = Value.U32 z \/ b = Value.U32 z) as [z Hz].
    { apply orb_true_iff in Ht as [Ht|Ht];
        [destruct (u32_typed_sound _ _ _ _ l Ht _ _ _ Hl)|destruct (u32_typed_sound _ _ _ _ r Ht _ _ _ Hr)]; eauto. }
    destruct (u32_operands fe op a b v z Hz Hop) as (x & y & -> & ->).
    destruct (simplify_binop_u32 fe dialect inv p m l r x y Hl Hr Wa Wb op e Hx H) as (w & Hw & He).
    rewrite Hw in Hop. injection Hop as <-. exact He.
  - destruct Hx as [[Ht Hel] Her]. assert (exists z, a = Value.Bool z \/ b = Value.Bool z) as [z Hz].
    { apply orb_true_iff in Ht as [Ht|Ht];
        [destruct (bool_typed_sound _ _ _ _ l Ht _ _ _ Hl)|destruct (bool_typed_sound _ _ _ _ r Ht _ _ _ Hr)]; eauto. }
    assert (exists x y, a = Value.Bool x /\ b = Value.Bool y) as (x & y & -> & ->).
    { destruct Hz as [->| ->]; [destruct b|destruct a]; try discriminate Hop; eauto. }
    by apply (simplify_binop_bool fe dialect inv p m l r x y Hl Hr Hpl Hpr Hel Her op e v H).
Qed.

Lemma unop_exact op x e m v m' : exact_unop op x = true -> in_width x = true -> memory_ok m ->
  simplify_unop op x = Some e -> eval (Expr.UnOp op x) m = Ok (v, m') -> eval e m = Ok (v, m').
Proof.
  intros Hx Hw Hm H Hv. destruct (eval_un_inv _ _ _ _ _ _ _ _ _ Hv) as (a & Ha & Hop).
  assert (forall y o, x = Expr.UnOp o y -> u32_typed y = true -> exists z, inu 32 z
    /\ eval y m = Ok (Value.U32 z, m') /\ eval_unop fe o (Value.U32 z) = Ok a) as Hin.
  { intros y o -> Ht. destruct (eval_un_inv _ _ _ _ _ _ _ _ _ Ha) as (c & Hc & Hv').
    destruct (u32_typed_sound _ _ _ _ y Ht _ _ _ Hc) as [z ->].
    destruct (eval_keeps_width fe dialect inv p Hinv Hd y m (Value.U32 z) m' Hw Hm Hc). eauto. }
  destruct op; try discriminate Hx; destruct x as [| | | | | | | | | |o y w|o y| | | | | | | | | | |];
    try discriminate Hx; destruct o; try discriminate Hx; injection H as <-; cbn [exact_unop] in Hx.
  - rewrite !andb_true_iff in Hx. destruct Hx as [[Ht Hpy] Hpw].
    destruct (eval_bin_inv _ _ _ _ _ _ _ _ _ _ Ha) as (c & m1 & d & Hc & Hd' & Hs).
    assert (m1 = m) as -> by by apply (effect_free_pure fe dialect inv p y Hpy m c).
    assert (m' = m) as -> by by apply (effect_free_pure fe dialect inv p w Hpw m d).
    assert (exists z, c = Value.U32 z \/ d = Value.U32 z) as [z Hz].
    { apply orb_true_iff in Ht as [Ht|Ht];
        [destruct (u32_typed_sound _ _ _ _ y Ht _ _ _ Hc)|destruct (u32_typed_sound _ _ _ _ w Ht _ _ _ Hd')]; eauto. }
    destruct (u32_operands fe BinOp.Sub c d a z Hz Hs) as (i & j & -> & ->). injection Hs as <-. injection Hop as <-.
    cbn [it_wrap it_value u32_ty]. replace (wrapu 32 (0 - wrapu 32 (i - j))) with (wrapu 32 (j - i)) by wrapu_ring.
    by apply (evals_sub fe dialect inv p m).
  - destruct (Hin y UnOp.Negate eq_refl Hx) as (z & Hz & Hy & E). injection E as <-. injection Hop as <-.
    cbn [it_wrap it_value u32_ty]. replace (wrapu 32 (0 - wrapu 32 (0 - z))) with (wrapu 32 z) by wrapu_ring.
    by rewrite wrapu_id.
  - destruct (Hin y UnOp.BitNot eq_refl Hx) as (z & Hz & Hy & E). injection E as <-. injection Hop as <-.
    cbn [it_wrap it_value u32_ty]. rewrite (wrapu_lnot z), wrapu_lnot by (done || width_lia).
    by replace (U32_MAX - (U32_MAX - z)) with z by lia.
  - destruct (eval_un_inv _ _ _ _ _ _ _ _ _ Ha) as (c & Hc & E).
    destruct (bool_typed_sound _ _ _ _ y Hx _ _ _ Hc) as [z ->]. injection E as <-. injection Hop as <-.
    by rewrite negb_involutive.
  - destruct (Hin y UnOp.ReverseBits eq_refl Hx) as (z & Hz & Hy & E). injection E as <-. injection Hop as <-.
    cbn [it_wrap it_value it_bits u32_ty]. rewrite !wrapu_id by (apply reverse_bits_range; lia).
    by rewrite reverse_bits_involutive.
Qed.

(** Selections: the operands have no effects, so they are evaluated where the node is. *)
Section Select.
Context (m : Memory).
Abbreviation evals := (evals fe dialect inv p m).
Lemma pure_at e v m' : effect_free e = true -> eval e m = Ok (v, m') -> evals e v.
Proof. intros Hp H. by rewrite (effect_free_pure fe dialect inv p e Hp m v m' H) in H. Qed.
Lemma evals_det e v w : evals e v -> evals e w -> v = w.
Proof. unfold StrengthReduceSound.evals. congruence. Qed.
Lemma evals_select c t f a b d : evals c a -> evals t b -> evals f d ->
  evals (Expr.Select c t f) (if Value.truthy a then b else d).
Proof.
  unfold StrengthReduceSound.evals. intros Hc Ht Hf. cbn [eval_rec].
  by rewrite (M_bind_run _ _ _ _ _ Hc), (M_bind_run _ _ _ _ _ Ht), (M_bind_run _ _ _ _ _ Hf).
Qed.
Lemma select_operands c t f v : effect_free (Expr.Select c t f) = true -> evals (Expr.Select c t f) v ->
  exists a b d, evals c a /\ evals t b /\ evals f d /\ v = if Value.truthy a then b else d.
Proof.
  cbn [effect_free]. rewrite !andb_true_iff. intros [[Hpc Hpt] Hpf] Hv.
  destruct (select_inv _ _ _ _ _ _ _ _ _ _ Hv) as (a & m1 & b & m2 & d & Hc & Ht & Hf & ->).
  assert (m1 = m) as -> by by apply (effect_free_pure fe dialect inv p c Hpc m a).
  assert (m2 = m) as -> by by apply (effect_free_pure fe dialect inv p t Hpt m b). eauto 10.
Qed.
(** A cast of a condition that is a boolean. *)
Lemma evals_cast_bool c x : evals c (Value.Bool x) ->
  evals (Expr.Cast DataType.U32 c) (Value.U32 (if x then 1 else 0)).
Proof. unfold StrengthReduceSound.evals. intros H. cbn [eval_rec]. by rewrite (M_bind_run _ _ _ _ _ H). Qed.
Lemma evals_not c a x : evals c a -> eval_unop fe UnOp.LogicalNot a = Ok (Value.Bool x) ->
  evals (Expr.UnOp UnOp.LogicalNot c) (Value.Bool x).
Proof.
  unfold StrengthReduceSound.evals. intros H E. cbn [eval_rec]. rewrite (M_bind_run _ _ _ _ _ H). by rewrite E.
Qed.
Lemma lit_truth k e v : is_u32 k e = true -> evals e v -> v = Value.U32 k.
Proof. destruct e; try discriminate. cbn. intros H%Z.eqb_eq [= <-]. by subst. Qed.

Lemma select_rules_exact c t f e a b d : exact_select c t f = true -> select_rules c t f = Some e ->
  evals c a -> evals t b -> evals f d -> evals e (if Value.truthy a then b else d).
Proof.
  unfold exact_select. rewrite !andb_true_iff. intros ([[[[[[Hpc Hpt] Hpf] Hec] Het] Hef] H10] & H01) H Hc Ht Hf.
  unfold select_rules in H. repeat (apply or_else_Some in H as [H|H]).
  - apply when_Some in H as [E%(expr_eq_exact t f Het) ->]. subst f.
    rewrite (evals_det _ _ _ Hf Ht). by destruct (Value.truthy a).
  - destruct c as [| | | | | | | | | | |o x| | | | | | | | | | |]; try done. destruct o; try done. injection H as <-.
    destruct (eval_un_inv _ _ _ _ _ _ _ _ _ Hc) as (u & Hu & E). rewrite (truthy_not fe u a E).
    replace (if negb (Value.truthy u) then b else d) with (if Value.truthy u then d else b) by by destruct (Value.truthy u).
    by apply evals_select.
  - apply when_Some in H as [H ->]. rewrite H in H10. cbn [negb orb] in H10. apply andb_true_iff in H as [H1 H0].
    rewrite (lit_truth 1 t b H1 Ht), (lit_truth 0 f d H0 Hf).
    destruct (bool_typed_sound _ _ _ _ c H10 _ _ _ Hc) as [x ->].
    replace (if Value.truthy (Value.Bool x) then Value.U32 1 else Value.U32 0) with (Value.U32 (if x then 1 else 0)) by by destruct x.
    by apply evals_cast_bool.
  - apply when_Some in H as [H ->]. rewrite H in H01. cbn [negb orb] in H01. apply andb_true_iff in H as [H0 H1].
    rewrite (lit_truth 0 t b H0 Ht), (lit_truth 1 f d H1 Hf).
    assert (exists x, eval_unop fe UnOp.LogicalNot a = Ok (Value.Bool x)) as [x Hx].
    { apply orb_true_iff in H01 as [H01|H01]; [destruct (bool_typed_sound _ _ _ _ c H01 _ _ _ Hc) as [x ->]
        |destruct (u32_typed_sound _ _ _ _ c H01 _ _ _ Hc) as [x ->]]; by eexists. }
    apply truthy_not in Hx as Hn. apply (evals_not c a x Hc) in Hx.
    replace (if Value.truthy a then Value.U32 0 else Value.U32 1) with (Value.U32 (if x then 1 else 0)).
    + by apply evals_cast_bool.
    + by destruct x; cbn in Hn; destruct (Value.truthy a).
  - destruct t as [| | | | | | | | | | | | |c' t' f'| | | | | | | | |]; try done.
    apply when_Some in H as [E ->]. cbn [exact_eq] in Het. rewrite !andb_true_iff in Het. destruct Het as [[Hx _] _].
    apply (expr_eq_exact c' c Hx) in E as ->.
    destruct (select_operands _ _ _ _ Hpt Ht) as (a' & b' & d' & Ha' & Hb' & Hd' & ->).
    rewrite (evals_det _ _ _ Ha' Hc).
    replace (if Value.truthy a then if Value.truthy a then b' else d' else d) with (if Value.truthy a then b' else d)
      by by destruct (Value.truthy a). by apply evals_select.
  - destruct f as [| | | | | | | | | | | | |c' t' f'| | | | | | | | |]; try done.
    apply when_Some in H as [E ->]. cbn [exact_eq] in Hef. rewrite !andb_true_iff in Hef. destruct Hef as [[Hx _] _].
    apply (expr_eq_exact c' c Hx) in E as ->.
    destruct (select_operands _ _ _ _ Hpf Hf) as (a' & b' & d' & Ha' & Hb' & Hd' & ->).
    rewrite (evals_det _ _ _ Ha' Hc).
    replace (if Value.truthy a then b else if Value.truthy a then b' else d') with (if Value.truthy a then b else d')
      by by destruct (Value.truthy a). by apply evals_select.
Qed.
Lemma select_exact c t f e v m' : exact_select c t f = true -> simplify_select c t f = Some e ->
  eval (Expr.Select c t f) m = Ok (v, m') -> eval e m = Ok (v, m').
Proof.
  intros Hx H Hv. assert (effect_free (Expr.Select c t f) = true) as Hp.
  { unfold exact_select in Hx. cbn [effect_free]. rewrite !andb_true_iff in *. by destruct_and?. }
  assert (m' = m) as -> by by apply (effect_free_pure fe dialect inv p _ Hp m v).
  destruct (select_operands _ _ _ _ Hp Hv) as (a & b & d & Hc & Ht & Hf & ->).
  destruct c as [k| | |k| | | | | | | | | | | | | | | | | | |];
    try (by apply (select_rules_exact _ t f e a b d Hx H)); injection Hc as <-; cbn in H |- *.
  - destruct (k =? 0); by injection H as <-.
  - destruct k; by injection H as <-.
Qed.
End Select.

#[global] Instance exact_fold_sound : SoundTransform fe dialect inv p (exact_fold fe).
Proof.
  intros e e' m v m' H [Hm _] Hv. unfold exact_fold in H. destruct (exact_fold_redex fe e) eqn:Hx; [|done].
  unfold exact_fold_redex in Hx. unfold fold_expr in H.
  destruct (fold_literal_tree fe e) as [lit'|] eqn:Et; cbn [or_else] in H.
  { injection H as <-. destruct (fold_literal_tree_sound fe dialect inv p e Hx lit' m v m' Et Hv) as [Hl ->].
    by apply lit_eval. }
  destruct (tree_none fe e Et) as (Hb & Hu & Hc). apply andb_true_iff in Hx as [Hw Hx].
  destruct e as [| | | | | | | | | |op l r|op x| |c t f|ty x| | | | | | | |]; try discriminate Hx.
  - rewrite (Hb _ _ _ eq_refl) in H. apply or_else_Some in H as [H|H]; [|done].
    by apply (binop_exact op l r e' m v m').
  - rewrite (Hu _ _ eq_refl) in H. apply or_else_Some in H as [H|H]; [|done].
    by apply (unop_exact op x e' m v m').
  - by apply (select_exact m c t f e' v m').
  - unfold fold_cast in H. rewrite (Hc _ _ eq_refl) in H. cbn [or_else] in H.
    destruct x; try done. apply when_Some in H as [E ->]. apply bool_decide_eq_true in E as ->.
    destruct (cast_inv _ _ _ _ _ _ _ _ _ Hv) as (a & Ha & Hva).
    destruct (cast_inv _ _ _ _ _ _ _ _ _ Ha) as (b & Hb' & Hvb).
    by rewrite (cast_idempotent _ _ _ _ Hvb Hva) in *.
Qed.
End Discharge.

(** ** The look-behind *)

(** The rule of the look-behind is sound while its literals are the values of the locals. *)
Section Lookbehind.
Context (fe : FloatEnv) (dialect : option (string -> option OpDef)).
Context (inv : Invocation) (p : Program) (lits : gmap string Z).
Context (Hlits : forall x c, lits !! x = Some c ->
  0 <= c /\ (local inv x = Some (Value.U32 c) \/ local inv x = Some (Value.I32 c))).

#[global] Instance mod_rule_sound : SoundTransform fe dialect inv p (mod_rule lits).
Proof.
  intros e e' m v m' H _ Hv. destruct e as [| | | | | | | | | |op l r| | | | | | | | | | | |]; try done.
  destruct op; try done. destruct l as [| | | |x| | | | | | | | | | | | | | | | | |]; try done.
  destruct r as [n| | | | | | | | | | | | | | | | | | | | | |]; try done. cbn [mod_rule] in H.
  destruct (lits !! x) as [c|] eqn:Ex; [|done]. apply when_Some in H as [Hc%Z.ltb_lt ->].
  destruct (Hlits x c Ex) as [H0 Hx].
  destruct (eval_bin_inv _ _ _ _ _ _ _ _ _ _ Hv) as (a & m1 & b & Hl & Hr & Hop).
  injection Hr as <- ->. pose proof Hl as Hl'. apply lift_inv in Hl' as [Hl' ->]. unfold eval_var in Hl'.
  destruct Hx as [Hx|Hx]; rewrite Hx in Hl'; injection Hl' as <-; [|discriminate Hop].
  revert Hop. cbn. unfold rem_u32. rewrite (proj2 (Z.eqb_neq n 0)), Z.mod_small by lia. by intros [= <-].
Qed.
End Lookbehind.

(** ** The pass on programs *)

(** A statement whose kind is in the mask of the analysis. *)
Definition bearing (i : item) : bool :=
  match i with INode n => has_bit (node_kind n) NODE_KIND_EXPRESSION_BEARING_MASK | IExpr _ => false end.
Lemma analyze_items p : ConstFold_analyze p = existsb bearing (program_items p).
Proof.
  unfold ConstFold_analyze. rewrite stats_kinds. unfold program_nodes. rewrite existsb_omap.
  apply existsb_ext_all. by intros [n|e].
Qed.

(** The look-behind over a list of statements, started without literals. *)
Definition lookbehind_body (nodes : list Node) : list Node * bool := fold_mod_lookbehind nodes ∅.
Lemma lookbehind_body_eq :
  (fix go (nodes : list Node) (local_lits : gmap string Z) : list Node * bool :=
     match nodes with
     | [] => ([], false)
     | n :: nodes =>
         let '(n', c, local_lits) := lookbehind_node n local_lits in
         let '(nodes', c') := go nodes local_lits in (n' :: nodes', c || c')
     end) = fold_mod_lookbehind.
Proof. reflexivity. Qed.

(** Nothing bears an expression: the look-behind leaves the statement alone. *)
Definition quiet (n : Node) : Prop := existsb bearing (items n) = false -> forall t lits,
  lookbehind_node n lits = (n, false, lits) /\ node_fires t n = false.
Lemma quiet_list nodes : Forall quiet nodes -> existsb bearing (flat_map items nodes) = false -> forall t lits,
  fold_mod_lookbehind nodes lits = (nodes, false) /\ existsb (node_fires t) nodes = false.
Proof.
  induction 1 as [|n nodes Hn _ IH]; intros Hb t lits; [done|]. cbn [flat_map] in Hb.
  rewrite existsb_app in Hb. apply orb_false_iff in Hb as [Hb1 Hb2]. cbn [fold_mod_lookbehind existsb].
  destruct (Hn Hb1 t lits) as [-> ->]. by destruct (IH Hb2 t lits) as [-> ->].
Qed.
Lemma node_quiet n : quiet n.
Proof.
  induction n using Node_ind'; intros Hb tr lits; cbn [items existsb] in Hb; try discriminate Hb; try done;
    destruct (quiet_list _ H Hb tr ∅) as [E1 E2]; cbn [lookbehind_node node_fires];
    rewrite lookbehind_body_eq, E1; done.
Qed.

(** The flag is false only when nothing changed. *)
Lemma mod_unchanged lits e e' : rewrite_expr_for_mod lits e = (e', false) -> e' = e.
Proof.
  unfold rewrite_expr_for_mod. destruct (operand_tracks (mod_rule lits) e) as (Hv & Ho & Hs).
  intros [= <- Hf]. rewrite Hv. apply Hs. congruence.
Qed.
Lemma mod_pair lits e : exists e' c, rewrite_expr_for_mod lits e = (e', c) /\ (c = false -> e' = e).
Proof.
  destruct (rewrite_expr_for_mod lits e) as [e' c] eqn:E. exists e', c. split; [done|]. intros ->.
  by apply (mod_unchanged lits).
Qed.
Definition tracked (n : Node) : Prop := forall lits n' c lits',
  lookbehind_node n lits = (n', c, lits') -> c = false -> n' = n.
Lemma tracked_list nodes : Forall tracked nodes -> forall lits nodes' c,
  fold_mod_lookbehind nodes lits = (nodes', c) -> c = false -> nodes' = nodes.
Proof.
  induction 1 as [|n nodes Hn _ IH]; intros lits nodes' c H Hc; cbn [fold_mod_lookbehind] in H.
  { by injection H as <- <-. }
  destruct (lookbehind_node n lits) as [[n' c1] lits'] eqn:E1.
  destruct (fold_mod_lookbehind nodes lits') as [nodes1 c2] eqn:E2. injection H as <- <-.
  apply orb_false_iff in Hc as [-> ->]. f_equal; [by eapply Hn|by eapply IH].
Qed.
Lemma node_tracked n : tracked n.
Proof.
  assert (forall nodes, Forall tracked nodes -> exists nodes' c,
    fold_mod_lookbehind nodes ∅ = (nodes', c) /\ (c = false -> nodes' = nodes)) as Hbody.
  { intros nodes H. destruct (fold_mod_lookbehind nodes ∅) as [nodes' c] eqn:E. exists nodes', c.
    split; [done|]. by apply (tracked_list nodes H ∅). }
  induction n using Node_ind'; intros lits n' c' lits' Hrun Hc; cbn [lookbehind_node] in Hrun; cbv zeta in Hrun;
    rewrite ?lookbehind_body_eq in Hrun;
    repeat match type of Hrun with
    | context [rewrite_expr_for_mod ?l ?e] =>
        let x := fresh "x" in let c := fresh "c" in let E := fresh "E" in let H := fresh "Hk" in
        destruct (mod_pair l e) as (x & c & E & H); rewrite E in Hrun
    | context [fold_mod_lookbehind ?l ∅] =>
        let x := fresh "x" in let c := fresh "c" in let E := fresh "E" in let H := fresh "Hk" in
        destruct (Hbody l) as (x & c & E & H); [assumption|rewrite E in Hrun]
    end; injection Hrun as <- <- <-; rewrite ?orb_false_iff in Hc; destruct_and?; f_equal; auto.
Qed.

Module Folding.

(** C8: constant folding preserves evaluation: on an expression whose every rewritten node
    is in the exact range of its rule (a literal tree without subnormal floats, or an
    operator, selection or cast on operands without effects that are evidently unsigned or
    evidently boolean, outside the excluded rules), whatever value and memory the
    expression evaluates to, the folded expression evaluates to as well. *)
Theorem const_fold_simulates fe dialect inv p e e' m r (Hfe : FloatEnvOk fe)
    (Hinv : invocation_ok inv) (Hd : dialect_ok dialect) (Hm : memory_ok m)
    (He : expr_repr e) (Hexact : bottom_up (fold_expr fe) e = bottom_up (exact_fold fe) e)
    (Hrun : cow_value <$> rewrite_expr (fold_expr fe) e = Some e')
    (Hr : eval_frame_oracle fe dialect inv p e m = Ok r) :
  eval_frame_oracle fe dialect inv p e' m = Ok r.
Proof.
  rewrite rewrite_expr_rec in Hrun. destruct (rewrite_rec_faithful (fold_expr fe) e) as (Hv & _).
  cbn in Hrun. rewrite Hv, Hexact in Hrun. injection Hrun as <-.
  rewrite oracle_rec in Hr |- *. destruct r as [v m'].
  pose proof (exact_fold_sound fe dialect inv p Hinv Hd) as Ht.
  by apply (bottom_up_simulates fe dialect inv p Hinv Hd (exact_fold fe) e He m).
Qed.
(** [(acc[0] + 3) + 2 * 5], the sum selected by [!!(acc[0] < 9)], at [acc[0] = 7]. *)
Definition foldable : Expr :=
  let x := Expr.Load "acc" (lit 0) in
  let less := Expr.BinOp BinOp.Lt x (lit 9) in
  Expr.Select (Expr.UnOp UnOp.LogicalNot (Expr.UnOp UnOp.LogicalNot less))
    (add (add x (lit 3)) (mul (lit 2) (lit 5))) (Expr.BinOp BinOp.BitXor (lit 1) (add x (lit 0))).
Definition folded : Expr :=
  let x := Expr.Load "acc" (lit 0) in
  Expr.Select (Expr.BinOp BinOp.Lt x (lit 9)) (add x (lit 13)) (Expr.BinOp BinOp.BitXor (lit 1) x).
Lemma const_fold_simulates_witness :
  eval_frame_oracle TypedOps.zero_env None Evaluator.acc_inv Evaluator.acc_program folded
    (Evaluator.acc_memory 7) = Ok (Value.U32 20, Evaluator.acc_memory 7).
Proof.
  apply (const_fold_simulates TypedOps.zero_env None Evaluator.acc_inv Evaluator.acc_program foldable).
  - apply TypedOps.zero_env_ok.
  - repeat split; try constructor; lia.
  - by intros ?.
  - split; [|constructor]. constructor; [|constructor].
    split; [split; [apply le_bytes_range|by vm_compute]|]. cbn. split; [lia|].
    split; intros ? [= <-]; lia.
  - cbn. repeat split; unfold inu; lia.
  - vm_compute; reflexivity.
  - vm_compute; reflexivity.
  - vm_compute; reflexivity.
Defined.

(** The pass is a rewrite of the statements only: it keeps the operator id, the
    buffers, the workgroup size and the self-composition flag, it reports no change only
    when the program is untouched, and on a program the analysis skips (no statement of
    an expression-bearing kind at any depth) it would have changed nothing. *)
Theorem const_fold_frame fe p :
  let '(p', changed) := ConstFold_transform fe p in
  entry_op_id p' = entry_op_id p /\ buffers p' = buffers p /\ workgroup_size p' = workgroup_size p
  /\ non_composable_with_self p' = non_composable_with_self p
  /\ (changed = false -> p' = p)
  /\ (ConstFold_analyze p = false -> (p', changed) = (p, false)).
Proof.
  unfold ConstFold_transform. destruct (fold_mod_lookbehind (entry p) ∅) as [nodes c] eqn:El.
  set (q := if c then with_rewritten_entry p nodes else p).
  destruct (rewrite_program_spec (fold_expr fe) q) as [-> Hid]. set (fired := existsb _ _) in *.
  split_and!; try (by destruct c).
  rewrite analyze_items. intros Hb.
  destruct (quiet_list (entry p) (proj2 (Forall_forall _ _) (fun n _ => node_quiet n)) Hb (fold_expr fe) ∅) as [Eq Hf].
  rewrite Eq in El. injection El as <- <-. subst q fired. cbv iota in *. by rewrite Hid, Hf.
Qed.
End Folding.
