(* ===== verification/Collectives.v ===== *)
(** Collective operations: the transport plan, the lowering of single-rank collectives,
    and the capability gate of a backend (vyre-foundation: transform/collectives.rs,
    runtime/program_caps.rs).

    The plan and the lowering classify collectives by two separate traversals, one with
    an explicit stack and one recursive; the theorems relate them. *)

From stdpp Require Import pretty.
From S2P Require Import Prelude Spec IR ProgramStats Rewrite.

(** ** The transport plan *)

Definition WORLD : Z := 0.

Inductive CollectiveTransportKind := LocalSingleRank | MultiRankTransport.
Inductive CollectiveNodeKind := CkAllReduce | CkAllGather | CkReduceScatter | CkBroadcast.

Record CollectiveOpCounts := mkOpCounts {
  oc_all_reduce : Z; oc_all_gather : Z; oc_reduce_scatter : Z; oc_broadcast : Z;
}.
Definition op_counts_zero : CollectiveOpCounts := mkOpCounts 0 0 0 0.
(** [+= 1] on a [usize]. *)
Definition incr (x : Z) : Z := wrapu 64 (x + 1).
Definition op_counts_record (c : CollectiveOpCounts) (k : CollectiveNodeKind) : CollectiveOpCounts :=
  match k with
  | CkAllReduce => mkOpCounts (incr (oc_all_reduce c)) (oc_all_gather c) (oc_reduce_scatter c) (oc_broadcast c)
  | CkAllGather => mkOpCounts (oc_all_reduce c) (incr (oc_all_gather c)) (oc_reduce_scatter c) (oc_broadcast c)
  | CkReduceScatter => mkOpCounts (oc_all_reduce c) (oc_all_gather c) (incr (oc_reduce_scatter c)) (oc_broadcast c)
  | CkBroadcast => mkOpCounts (oc_all_reduce c) (oc_all_gather c) (oc_reduce_scatter c) (incr (oc_broadcast c))
  end.
Definition op_counts_total (c : CollectiveOpCounts) : Z :=
  sat_add USIZE_MAX (sat_add USIZE_MAX (sat_add USIZE_MAX (oc_all_reduce c) (oc_all_gather c))
    (oc_reduce_scatter c)) (oc_broadcast c).

Record CollectiveTransportPlan := mkPlan {
  local_single_rank : Z;
  multi_rank_transport : Z;
  local_ops : CollectiveOpCounts;
  transport_ops : CollectiveOpCounts;
}.
Definition plan_default : CollectiveTransportPlan := mkPlan 0 0 op_counts_zero op_counts_zero.
Definition plan_record (p : CollectiveTransportPlan) (t : CollectiveTransportKind) (k : CollectiveNodeKind)
    : CollectiveTransportPlan :=
  match t with
  | LocalSingleRank =>
      mkPlan (incr (local_single_rank p)) (multi_rank_transport p) (op_counts_record (local_ops p) k)
        (transport_ops p)
  | MultiRankTransport =>
      mkPlan (local_single_rank p) (incr (multi_rank_transport p)) (local_ops p)
        (op_counts_record (transport_ops p) k)
  end.
Definition requires_transport (p : CollectiveTransportPlan) : bool := negb (multi_rank_transport p =? 0).
Definition plan_is_empty (p : CollectiveTransportPlan) : bool :=
  (local_single_rank p =? 0) && (multi_rank_transport p =? 0).

Definition transport_kind_for_group (group : Z) : CollectiveTransportKind :=
  if group =? WORLD then LocalSingleRank else MultiRankTransport.

(** The transport and the kind of a collective statement. *)
Definition classify (n : Node) : option (CollectiveTransportKind * CollectiveNodeKind) :=
  match n with
  | Node.AllReduce _ _ group => Some (transport_kind_for_group group, CkAllReduce)
  | Node.AllGather _ _ group => Some (transport_kind_for_group group, CkAllGather)
  | Node.ReduceScatter _ _ _ group => Some (transport_kind_for_group group, CkReduceScatter)
  | Node.Broadcast _ root group =>
      Some (if (group =? WORLD) && (root =? 0) then LocalSingleRank else MultiRankTransport, CkBroadcast)
  | _ => None
  end.

(** One statement of the walk: the stack is listed top first. *)
Definition plan_node (st : list (list Node) * CollectiveTransportPlan) (n : Node)
    : list (list Node) * CollectiveTransportPlan :=
  let '(stack, plan) := st in
  match classify n with
  | Some (t, k) => (stack, plan_record plan t k)
  | None =>
      match n with
      | Node.If _ then_ otherwise => (then_ :: otherwise :: stack, plan)
      | Node.Loop _ _ _ body | Node.Block body | Node.Region _ _ body => (body :: stack, plan)
      | _ => (stack, plan)
      end
  end.
Fixpoint record_loop (fuel : nat) (stack : list (list Node)) (plan : CollectiveTransportPlan)
    : option CollectiveTransportPlan :=
  match stack with
  | [] => Some plan
  | nodes :: stack =>
      match fuel with
      | O => None
      | S fuel => let '(stack, plan) := foldl plan_node (stack, plan) nodes in record_loop fuel stack plan
      end
  end.

(** Number of statements, nested ones included. *)
Fixpoint node_size (n : Node) : nat :=
  S match n with
    | Node.If _ t o => list_sum_nat (map node_size t) + list_sum_nat (map node_size o)
    | Node.Loop _ _ _ body | Node.Block body | Node.Region _ _ body => list_sum_nat (map node_size body)
    | _ => 0
    end.
Definition nodes_size (l : list Node) : nat := list_sum_nat (map node_size l).

(** Every list that is pushed is the body of a statement, at most two per statement. *)
Definition collective_transport_plan (p : Program) : CollectiveTransportPlan :=
  default plan_default (record_loop (S (2 * nodes_size (entry p))) [entry p] plan_default).
Definition requires_collective_transport (p : Program) : bool :=
  requires_transport (collective_transport_plan p).

(** ** The lowering *)

Record LoweringState := mkLowering { lowered : Z; next_copy_id : Z }.

(** The errors of the lowering: a group that is not [WORLD], a root that is not 0. *)
Inductive SingleRankCollectiveError := NotWorld (group : Z) | NotRootZero (root : Z).
Abbreviation lower := (result SingleRankCollectiveError).

Definition require_world_group (group : Z) : lower unit :=
  if group =? WORLD then Ok tt else Err (NotWorld group).

Definition copy_index (copy_id : Z) : string := "__vyre_single_rank_collective_idx_" +:+ pretty copy_id.
Definition single_rank_copy (input output : string) (st : LoweringState) : list Node * LoweringState :=
  let idx := copy_index (next_copy_id st) in
  ([Node.Let idx (Expr.InvocationId 0);
    Node.If (Expr.BinOp BinOp.Lt (Expr.Var idx) (Expr.BufLen output))
      [Node.If (Expr.BinOp BinOp.Lt (Expr.Var idx) (Expr.BufLen input))
         [Node.Store output (Expr.Var idx) (Expr.Load input (Expr.Var idx))] []] []],
   mkLowering (lowered st) (incr (next_copy_id st))).
Definition count_lowered (st : LoweringState) : LoweringState := mkLowering (incr (lowered st)) (next_copy_id st).

(** [rewrite_nodes], given [rewrite_node]. *)
Definition lower_nodes_with (f : Node -> LoweringState -> lower (list Node * LoweringState))
    : list Node -> LoweringState -> lower (list Node * LoweringState) :=
  fix go l st :=
    match l with
    | [] => Ok ([], st)
    | n :: l =>
        '(out, st) ← f n st;
        '(rest, st) ← go l st;
        Ok (out ++ rest, st)
    end.
Fixpoint lower_node (n : Node) (st : LoweringState) : lower (list Node * LoweringState) :=
  match n with
  | Node.AllReduce _ _ group =>
      _ ← require_world_group group;
      Ok ([], count_lowered st)
  | Node.Broadcast _ root group =>
      _ ← require_world_group group;
      if root =? 0 then Ok ([], count_lowered st) else Err (NotRootZero root)
  | Node.AllGather input output group | Node.ReduceScatter input output _ group =>
      _ ← require_world_group group;
      Ok (single_rank_copy input output (count_lowered st))
  | Node.If cond then_ otherwise =>
      '(t, st) ← lower_nodes_with lower_node then_ st;
      '(o, st) ← lower_nodes_with lower_node otherwise st;
      Ok ([Node.If cond t o], st)
  | Node.Loop var from to body =>
      '(b, st) ← lower_nodes_with lower_node body st;
      Ok ([Node.Loop var from to b], st)
  | Node.Block body =>
      '(b, st) ← lower_nodes_with lower_node body st;
      Ok ([Node.Block b], st)
  | Node.Region generator source_region body =>
      '(b, st) ← lower_nodes_with lower_node body st;
      Ok ([Node.Region generator source_region b], st)
  | other => Ok ([other], st)
  end.
Definition lower_nodes : list Node -> LoweringState -> lower (list Node * LoweringState) :=
  lower_nodes_with lower_node.

Definition lower_single_rank_collectives (p : Program) : lower (option Program) :=
  if negb (distributed_collectives (compute_stats p)) then Ok None
  else
    '(nodes, st) ← lower_nodes (entry p) (mkLowering 0 0);
    if lowered st =? 0 then Ok None else Ok (Some (with_rewritten_entry p nodes)).

(** ** The stack walk visits every statement once *)

Definition as_node (i : item) : option Node := match i with INode n => Some n | IExpr _ => None end.
Definition nodes_of (l : list Node) : list Node := omap as_node (flat_map items l).
Definition collectives (l : list Node) : list (CollectiveTransportKind * CollectiveNodeKind) :=
  omap classify (nodes_of l).
Definition record_all (p : CollectiveTransportPlan) (l : list (CollectiveTransportKind * CollectiveNodeKind))
    : CollectiveTransportPlan := foldl (fun p tk => plan_record p tk.1 tk.2) p l.

Lemma omap_exprs l : omap as_node (map IExpr l) = [].
Proof. induction l; [done|]. by cbn. Qed.
Lemma omap_expr_items e : omap as_node (expr_items e) = [].
Proof. apply omap_exprs. Qed.
Lemma nodes_of_app l k : nodes_of (l ++ k) = nodes_of l ++ nodes_of k.
Proof. unfold nodes_of. by rewrite flat_map_app, omap_app. Qed.
Lemma nodes_of_cons n l : nodes_of (n :: l) = nodes_of [n] ++ nodes_of l.
Proof. apply (nodes_of_app [n] l). Qed.
(** The nested lists of a statement. *)
Definition bodies (n : Node) : list (list Node) :=
  match n with
  | Node.If _ t o => [t; o]
  | Node.Loop _ _ _ b | Node.Block b | Node.Region _ _ b => [b]
  | _ => []
  end.
Lemma nodes_of_node n : nodes_of [n] = n :: flat_map nodes_of (bodies n).
Proof.
  unfold nodes_of. cbn [flat_map]. rewrite app_nil_r.
  destruct n; cbn [items bodies flat_map]; rewrite ?app_nil_r; cbn [omap list_omap as_node];
    rewrite ?omap_app, ?omap_expr_items, ?app_nil_l, ?app_nil_r; reflexivity.
Qed.
Lemma collectives_app l k : collectives (l ++ k) = collectives l ++ collectives k.
Proof. unfold collectives. by rewrite nodes_of_app, omap_app. Qed.
Lemma collectives_cons n l : collectives (n :: l) = collectives [n] ++ collectives l.
Proof. apply (collectives_app [n] l). Qed.
Lemma omap_flat_map {A B C} (g : B -> option C) (f : A -> list B) l :
  omap g (flat_map f l) = flat_map (fun a => omap g (f a)) l.
Proof. induction l as [|a l IH]; [done|]. cbn [flat_map]. by rewrite omap_app, IH. Qed.
Lemma collectives_node n :
  collectives [n] = option_list (classify n) ++ flat_map collectives (bodies n).
Proof.
  unfold collectives. rewrite nodes_of_node. cbn [omap list_omap]. rewrite omap_flat_map.
  by destruct (classify n).
Qed.

Lemma plan_record_comm p a b : plan_record (plan_record p a.1 a.2) b.1 b.2 = plan_record (plan_record p b.1 b.2) a.1 a.2.
Proof. destruct a as [[] []], b as [[] []]; reflexivity. Qed.
Lemma record_all_perm l l' : l ≡ₚ l' -> forall p, record_all p l = record_all p l'.
Proof.
  unfold record_all. induction 1 as [|x l l' _ IH|x y l|l l' l'' _ IH1 _ IH2]; intros p; cbn [foldl].
  - done.
  - apply IH.
  - by rewrite plan_record_comm.
  - by rewrite IH1.
Qed.

Lemma plan_node_spec stack plan n rest :
  record_all plan (collectives [n] ++ flat_map collectives stack ++ rest)
  = let '(stack', plan') := plan_node (stack, plan) n in
    record_all plan' (flat_map collectives stack' ++ rest).
Proof.
  rewrite collectives_node. unfold plan_node.
  destruct (classify n) as [[t k]|] eqn:E.
  { assert (bodies n = []) as -> by (by destruct n). reflexivity. }
  destruct n; try discriminate E; cbn [option_list option_rect bodies flat_map app]; rewrite ?app_nil_r, <- ?app_assoc; reflexivity.
Qed.
Lemma plan_nodes_spec nodes : forall stack plan,
  record_all plan (collectives nodes ++ flat_map collectives stack)
  = let '(stack', plan') := foldl plan_node (stack, plan) nodes in
    record_all plan' (flat_map collectives stack').
Proof.
  induction nodes as [|n nodes IH]; intros stack plan; cbn [foldl]; [reflexivity|].
  rewrite collectives_cons, <- app_assoc.
  rewrite (record_all_perm _ (collectives [n] ++ flat_map collectives stack ++ collectives nodes))
    by (by rewrite (Permutation_app_comm (collectives nodes))).
  rewrite plan_node_spec. destruct (plan_node (stack, plan) n) as [stack' plan'].
  rewrite <- IH. apply record_all_perm, Permutation_app_comm.
Qed.

(** The stack shrinks: the statements left, each list counted once. *)
Definition stack_work (stack : list (list Node)) : nat :=
  list_sum_nat (map (fun l => S (2 * nodes_size l)) stack).
Lemma plan_node_work stack plan n : let '(stack', _) := plan_node (stack, plan) n in
  (stack_work stack' <= stack_work stack + 2 * node_size n)%nat.
Proof.
  destruct n; unfold plan_node, stack_work, nodes_size; cbn -[Nat.mul]; unfold list_sum_nat; cbn -[Nat.mul]; lia.
Qed.
Lemma plan_nodes_work nodes : forall stack plan, let '(stack', _) := foldl plan_node (stack, plan) nodes in
  (stack_work stack' <= stack_work stack + 2 * nodes_size nodes)%nat.
Proof.
  induction nodes as [|n nodes IH]; intros stack plan; cbn [foldl]; [unfold nodes_size; cbn; lia|].
  pose proof (plan_node_work stack plan n) as H1. destruct (plan_node (stack, plan) n) as [stack1 plan1].
  specialize (IH stack1 plan1). destruct (foldl plan_node (stack1, plan1) nodes) as [stack2 plan2].
  unfold nodes_size in *. cbn [map list_sum_nat fold_right]. unfold list_sum_nat in *. lia.
Qed.
Lemma record_loop_total fuel : forall stack plan, (stack_work stack <= fuel)%nat ->
  record_loop fuel stack plan = Some (record_all plan (flat_map collectives stack)).
Proof.
  induction fuel as [|fuel IH]; intros [|nodes stack] plan Hf; try reflexivity.
  { unfold stack_work in Hf. cbn in Hf. lia. }
  cbn [record_loop flat_map]. rewrite plan_nodes_spec.
  pose proof (plan_nodes_work nodes stack plan) as Hw.
  destruct (foldl plan_node (stack, plan) nodes) as [stack' plan']. apply IH.
  unfold stack_work in Hf. cbn [map list_sum_nat fold_right] in Hf.
  change (fold_right Nat.add 0%nat) with list_sum_nat in Hf. fold (stack_work stack) in Hf. lia.
Qed.
Lemma plan_of_program p : collective_transport_plan p = record_all plan_default (collectives (entry p)).
Proof.
  unfold collective_transport_plan. rewrite record_loop_total.
  - cbn. by rewrite app_nil_r.
  - unfold stack_work. cbn. lia.
Qed.

(** ** Counts *)

Definition is_local (tk : CollectiveTransportKind * CollectiveNodeKind) : bool :=
  match tk.1 with LocalSingleRank => true | MultiRankTransport => false end.
Definition count_if {A} (p : A -> bool) (l : list A) : Z := Z.of_nat (length (filter (fun a => p a = true) l)).

Lemma count_if_cons {A} (p : A -> bool) a l : count_if p (a :: l) = (if p a then 1 else 0) + count_if p l.
Proof. unfold count_if. rewrite filter_cons. destruct (p a); [rewrite decide_True by done|rewrite decide_False by done]; cbn; lia. Qed.
Lemma count_if_app {A} (p : A -> bool) l k : count_if p (l ++ k) = count_if p l + count_if p k.
Proof. unfold count_if. rewrite filter_app, length_app. lia. Qed.
Lemma count_if_nonneg {A} (p : A -> bool) l : 0 <= count_if p l.
Proof. unfold count_if. lia. Qed.
Lemma count_if_length {A} (p : A -> bool) l : count_if p l <= Z.of_nat (length l).
Proof. unfold count_if. pose proof (length_filter (fun a => p a = true) l). lia. Qed.
Lemma count_if_zero {A} (p : A -> bool) l : count_if p l = 0 <-> Forall (fun a => p a = false) l.
Proof.
  induction l as [|a l IH]; [by split; [constructor|]|]. rewrite count_if_cons, Forall_cons, <- IH.
  pose proof (count_if_nonneg p l). destruct (p a); split; try lia; intros [? ?]; try done; lia.
Qed.
Lemma count_split {A} (p : A -> bool) l : count_if p l + count_if (fun a => negb (p a)) l = Z.of_nat (length l).
Proof. induction l as [|a l IH]; [done|]. rewrite !count_if_cons. cbn [length]. destruct (p a); cbn; lia. Qed.

Lemma incr_wrap x k : wrapu 64 (incr x + k) = wrapu 64 (x + (1 + k)).
Proof. unfold incr, wrapu. rewrite Z.add_mod_idemp_l by lia. f_equal. lia. Qed.

Definition kind_eqb (a b : CollectiveNodeKind) : bool :=
  match a, b with
  | CkAllReduce, CkAllReduce | CkAllGather, CkAllGather | CkReduceScatter, CkReduceScatter
  | CkBroadcast, CkBroadcast => true
  | _, _ => false
  end.
(** A counter of the plan that an entry bumps exactly when [p] holds of it. *)
Lemma record_counter (get : CollectiveTransportPlan -> Z) (p : CollectiveTransportKind * CollectiveNodeKind -> bool)
  (Hget : forall plan tk, get (plan_record plan tk.1 tk.2) = if p tk then incr (get plan) else get plan) l :
  forall plan, inu 64 (get plan) -> get (record_all plan l) = wrapu 64 (get plan + count_if p l).
Proof.
  induction l as [|tk l IH]; intros plan Hr; cbn.
  { rewrite wrapu_id; unfold count_if; cbn; unfold inu in *; lia. }
  unfold record_all in IH. rewrite IH, Hget, count_if_cons.
  - destruct (p tk); [by rewrite incr_wrap|f_equal; lia].
  - rewrite Hget. destruct (p tk); [by apply wrapu_range|done].
Qed.

Lemma collectives_length l : (length (collectives l) <= length (nodes_of l))%nat.
Proof.
  unfold collectives. induction (nodes_of l) as [|n ns IH]; [done|]. cbn [omap list_omap].
  destruct (classify n); cbn [length]; lia.
Qed.
Lemma counter_exact (get : CollectiveTransportPlan -> Z) (p : CollectiveTransportKind * CollectiveNodeKind -> bool) l :
  (forall plan tk, get (plan_record plan tk.1 tk.2) = if p tk then incr (get plan) else get plan) ->
  get plan_default = 0 -> Z.of_nat (length (nodes_of l)) <= USIZE_MAX ->
  get (record_all plan_default (collectives l)) = count_if p (collectives l).
Proof.
  intros Hget H0 Hl. rewrite (record_counter get p Hget) by (rewrite H0; width_lia). rewrite H0.
  pose proof (count_if_length p (collectives l)). pose proof (collectives_length l).
  pose proof (count_if_nonneg p (collectives l)). apply wrapu_id. unfold inu. lia.
Qed.
Lemma local_exact l : Z.of_nat (length (nodes_of l)) <= USIZE_MAX ->
  local_single_rank (record_all plan_default (collectives l)) = count_if is_local (collectives l).
Proof. apply counter_exact; [by intros plan [[] []]|done]. Qed.
Lemma transport_exact l : Z.of_nat (length (nodes_of l)) <= USIZE_MAX ->
  multi_rank_transport (record_all plan_default (collectives l))
  = count_if (fun tk => negb (is_local tk)) (collectives l).
Proof. apply counter_exact; [by intros plan [[] []]|done]. Qed.

(** ** The lowering *)

Definition let_name (n : Node) : option string := match n with Node.Let x _ => Some x | _ => None end.
(** The names bound by the [Let]s of a list of statements, at any depth. *)
Definition let_names (l : list Node) : list string := omap let_name (nodes_of l).
Definition is_copy (tk : CollectiveTransportKind * CollectiveNodeKind) : bool :=
  kind_eqb tk.2 CkAllGather || kind_eqb tk.2 CkReduceScatter.
Definition fresh_names (first n : Z) : list string := map (fun k => copy_index (wrapu 64 k)) (seqZ first n).

Definition lowers_to (l : list Node) (st : LoweringState) (out : list Node) (st' : LoweringState) : Prop :=
  Forall (fun tk => is_local tk = true) (collectives l) /\ collectives out = []
  /\ inu 64 (lowered st') /\ inu 64 (next_copy_id st')
  /\ lowered st' = wrapu 64 (lowered st + Z.of_nat (length (collectives l)))
  /\ next_copy_id st' = wrapu 64 (next_copy_id st + count_if is_copy (collectives l))
  /\ let_names out ≡ₚ let_names l ++ fresh_names (next_copy_id st) (count_if is_copy (collectives l)).
Definition lower_spec (l : list Node) (st : LoweringState) (r : lower (list Node * LoweringState)) : Prop :=
  match r with
  | Ok (out, st') => lowers_to l st out st'
  | Err _ => Exists (fun tk => is_local tk = false) (collectives l)
  end.

Lemma fresh_names_app first a b : 0 <= a -> 0 <= b ->
  fresh_names first (a + b) = fresh_names first a ++ fresh_names (first + a) b.
Proof. intros. unfold fresh_names. by rewrite seqZ_app, map_app. Qed.
Lemma fresh_names_wrap first n : fresh_names (wrapu 64 first) n = fresh_names first n.
Proof.
  unfold fresh_names, seqZ. rewrite !map_map. apply map_ext. intros k. f_equal.
  unfold wrapu. by rewrite Z.add_mod_idemp_r by lia.
Qed.
Lemma let_names_app l k : let_names (l ++ k) = let_names l ++ let_names k.
Proof. unfold let_names. by rewrite nodes_of_app, omap_app. Qed.

Lemma lowers_nil st : inu 64 (lowered st) -> inu 64 (next_copy_id st) -> lowers_to [] st [] st.
Proof.
  intros H1 H2. unfold lowers_to. cbn [collectives nodes_of flat_map omap list_omap length].
  rewrite !wrapu_id by (unfold inu, count_if in *; cbn; lia). unfold count_if; cbn.
  split_and!; try done; lia.
Qed.
Lemma lowers_app l1 l2 st out1 st1 out2 st2 : lowers_to l1 st out1 st1 -> lowers_to l2 st1 out2 st2 ->
  lowers_to (l1 ++ l2) st (out1 ++ out2) st2.
Proof.
  intros (F1 & C1 & _ & _ & L1 & N1 & P1) (F2 & C2 & R2 & S2 & L2 & N2 & P2). unfold lowers_to.
  rewrite !collectives_app, !let_names_app, C1, C2, Forall_app, length_app, count_if_app.
  split_and!; try done.
  - rewrite L2, L1. unfold wrapu. rewrite Z.add_mod_idemp_l by lia. f_equal. lia.
  - rewrite N2, N1. unfold wrapu. rewrite Z.add_mod_idemp_l by lia. f_equal. lia.
  - rewrite fresh_names_app by apply count_if_nonneg. rewrite P1, P2, N1, fresh_names_wrap.
    rewrite <- !app_assoc. apply Permutation_app_head. rewrite !app_assoc.
    apply Permutation_app_tail, Permutation_app_comm.
Qed.
Lemma lower_list_spec l (Hl : Forall (fun n => forall st, inu 64 (lowered st) -> inu 64 (next_copy_id st) ->
    lower_spec [n] st (lower_node n st)) l) : forall st, inu 64 (lowered st) -> inu 64 (next_copy_id st) ->
  lower_spec l st (lower_nodes_with lower_node l st).
Proof.
  induction Hl as [|n l Hn _ IH]; intros st H1 H2; cbn [lower_nodes_with]; [by apply lowers_nil|].
  specialize (Hn st H1 H2). destruct (lower_node n st) as [[out st1]|e]; cbn [mbind result_bind].
  2: { cbn [lower_spec] in *. rewrite collectives_cons, Exists_app. by left. }
  assert (inu 64 (lowered st1) /\ inu 64 (next_copy_id st1)) as [H3 H4] by (destruct Hn as (? & ? & ? & ? & ?); done).
  specialize (IH st1 H3 H4).
  fold (lower_nodes_with lower_node) in *. destruct (lower_nodes_with lower_node l st1) as [[rest st2]|e]; cbn [mbind result_bind].
  2: { cbn [lower_spec] in *. rewrite collectives_cons, Exists_app. by right. }
  apply (lowers_app [n] l _ _ _ _ _ Hn IH).
Qed.

(** A statement other than a collective, its bodies lowered. *)
Lemma lowers_keep n st : classify n = None -> bodies n = [] -> inu 64 (lowered st) -> inu 64 (next_copy_id st) ->
  lowers_to [n] st [n] st.
Proof.
  intros Hc Hb H1 H2. unfold lowers_to. rewrite collectives_node, Hc, Hb. cbn [option_list option_rect app flat_map length].
  unfold fresh_names. change (count_if is_copy []) with 0. change (Z.of_nat 0) with 0.
  cbn [seqZ Z.to_nat seq map fmap list_fmap]. rewrite !Z.add_0_r, !wrapu_id, app_nil_r by done.
  by split_and!.
Qed.
Lemma let_names_node n : let_names [n] = option_list (let_name n) ++ flat_map let_names (bodies n).
Proof.
  unfold let_names. rewrite nodes_of_node. cbn [omap list_omap]. rewrite omap_flat_map. by destruct (let_name n).
Qed.
Lemma lowers_wrap n n' st st' bs bs' : classify n = None -> classify n' = None -> let_name n = None -> let_name n' = None ->
  bodies n = bs -> bodies n' = bs' -> lowers_to (concat bs) st (concat bs') st' -> lowers_to [n] st [n'] st'.
Proof.
  intros C C' L L' B B' (F & E & R1 & R2 & Hl & Hn & P). unfold lowers_to.
  assert (forall bs, flat_map collectives bs = collectives (concat bs)) as HC.
  { induction bs0 as [|b bs0 IH]; [done|]. cbn [flat_map concat]. by rewrite IH, collectives_app. }
  assert (forall bs, flat_map let_names bs = let_names (concat bs)) as HL.
  { induction bs0 as [|b bs0 IH]; [done|]. cbn [flat_map concat]. by rewrite IH, let_names_app. }
  rewrite !collectives_node, !let_names_node, C, C', L, L', B, B', !HC, !HL.
  cbn [option_list option_rect app]. by split_and!.
Qed.
Lemma lowers_collective n st t k out : classify n = Some (t, k) -> is_local (t, k) = true -> collectives out = [] ->
  let_names out = fresh_names (next_copy_id st) (if is_copy (t, k) then 1 else 0) ->
  let st' := mkLowering (incr (lowered st)) (if is_copy (t, k) then incr (next_copy_id st) else next_copy_id st) in
  inu 64 (next_copy_id st) -> lowers_to [n] st out st'.
Proof.
  intros Hc Hl Ho Hn st' H2. unfold lowers_to.
  assert (bodies n = []) as Hb by (by destruct n). assert (let_name n = None) as Hln by (by destruct n).
  rewrite collectives_node, let_names_node, Hc, Hb, Hln. cbn [option_list option_rect app flat_map length lowered next_copy_id st'].
  rewrite count_if_cons, Hn. unfold count_if; cbn [filter]. cbn [length list_filter].
  split_and!; try done.
  - by repeat constructor.
  - by apply wrapu_range.
  - destruct (is_copy (t, k)); [by apply wrapu_range|done].
  - destruct (is_copy (t, k)); [reflexivity|]. cbn. rewrite Z.add_0_r. by rewrite wrapu_id.
  - destruct (is_copy (t, k)); reflexivity.
Qed.
(** A statement with one body. *)
Lemma lower_body (wrap : list Node -> Node) body st :
  Forall (fun n => forall st, inu 64 (lowered st) -> inu 64 (next_copy_id st) -> lower_spec [n] st (lower_node n st)) body ->
  inu 64 (lowered st) -> inu 64 (next_copy_id st) ->
  (forall b, classify (wrap b) = None /\ let_name (wrap b) = None /\ bodies (wrap b) = [b]) ->
  lower_spec [wrap body] st ('(b, st) ← lower_nodes_with lower_node body st; Ok ([wrap b], st)).
Proof.
  intros Hb H1 H2 Hw. pose proof (lower_list_spec _ Hb st H1 H2) as H.
  destruct (lower_nodes_with lower_node body st) as [[b st1]|e]; cbn [mbind result_bind].
  - destruct (Hw body) as (? & ? & ?), (Hw b) as (? & ? & ?). eapply lowers_wrap; try done.
    cbn. by rewrite !app_nil_r.
  - cbn [lower_spec] in *. rewrite collectives_node. destruct (Hw body) as (-> & _ & ->). cbn. by rewrite app_nil_r.
Qed.
Lemma fresh_one x : inu 64 x -> fresh_names x 1 = [copy_index x].
Proof.
  intros Hx. change (fresh_names x 1) with [copy_index (wrapu 64 (0 + x))]. by rewrite Z.add_0_l, wrapu_id.
Qed.
Local Ltac lower_collective k :=
  unfold require_world_group; let E := fresh "E" in
  match goal with |- context [?g =? WORLD] => destruct (g =? WORLD) eqn:E end; cbn [mbind result_bind];
  [ unfold single_rank_copy, count_lowered; cbn [lowered next_copy_id lower_spec];
    apply (lowers_collective _ _ LocalSingleRank k);
      [cbn; unfold transport_kind_for_group; by rewrite E|done|done| |done];
      cbn [is_copy kind_eqb snd orb]; rewrite ?fresh_one by done; reflexivity
  | cbn [lower_spec]; rewrite collectives_node; cbn; unfold transport_kind_for_group; rewrite E; by constructor ].
Lemma lower_node_spec n : forall st, inu 64 (lowered st) -> inu 64 (next_copy_id st) ->
  lower_spec [n] st (lower_node n st).
Proof.
  induction n using Node_ind'; intros st H1 H2; cbn [lower_node]; try (by apply lowers_keep).
  - (* if *) pose proof (lower_list_spec _ H st H1 H2) as Ht.
    destruct (lower_nodes_with lower_node t st) as [[t' st1]|e]; cbn [mbind result_bind].
    2: { cbn [lower_spec] in *. rewrite collectives_node. cbn. rewrite Exists_app. by left. }
    assert (inu 64 (lowered st1) /\ inu 64 (next_copy_id st1)) as [H3 H4] by (destruct Ht as (? & ? & ? & ? & ?); done).
    pose proof (lower_list_spec _ H0 st1 H3 H4) as Ho.
    destruct (lower_nodes_with lower_node o st1) as [[o' st2]|e]; cbn [mbind result_bind].
    2: { cbn [lower_spec] in *. rewrite collectives_node. cbn. rewrite app_nil_r, Exists_app. by right. }
    eapply lowers_wrap; try reflexivity. cbn. rewrite !app_nil_r. by eapply lowers_app.
  - (* loop *) by apply lower_body.
  - lower_collective CkAllReduce.
  - lower_collective CkAllGather.
  - lower_collective CkReduceScatter.
  - (* broadcast *) unfold require_world_group. destruct (g =? WORLD) eqn:Eg; cbn [mbind result_bind].
    2: { cbn [lower_spec]. rewrite collectives_node. cbn. rewrite Eg. by constructor. }
    destruct (r =? 0) eqn:Er.
    + apply (lowers_collective _ _ LocalSingleRank CkBroadcast); try done. cbn. by rewrite Eg, Er.
    + cbn [lower_spec]. rewrite collectives_node. cbn. rewrite Eg, Er. by constructor.
  - by apply lower_body.
  - by apply lower_body.
Qed.

(** ** The capability gate *)

Record RequiredCapabilities := mkRequired {
  rc_subgroup_ops : bool; rc_f16 : bool; rc_bf16 : bool; rc_f64 : bool; rc_async_dispatch : bool;
  rc_indirect_dispatch : bool; rc_tensor_ops : bool; rc_trap : bool; rc_distributed_collectives : bool;
  rc_local_single_rank_collectives : Z; rc_transport_collectives : Z;
  rc_max_workgroup_size : Z * Z * Z; rc_static_storage_bytes : Z;
}.

Definition required_none : RequiredCapabilities :=
  mkRequired false false false false false false false false false 0 0 (0, 0, 0) 0.
(** The flags by disjunction, the axes by maximum, the counts by a saturating sum. *)
Definition required_union (a b : RequiredCapabilities) : RequiredCapabilities :=
  let '(ax, ay, az) := rc_max_workgroup_size a in
  let '(bx, by_, bz) := rc_max_workgroup_size b in
  mkRequired (rc_subgroup_ops a || rc_subgroup_ops b) (rc_f16 a || rc_f16 b) (rc_bf16 a || rc_bf16 b)
    (rc_f64 a || rc_f64 b) (rc_async_dispatch a || rc_async_dispatch b)
    (rc_indirect_dispatch a || rc_indirect_dispatch b) (rc_tensor_ops a || rc_tensor_ops b)
    (rc_trap a || rc_trap b) (rc_distributed_collectives a || rc_distributed_collectives b)
    (sat_add USIZE_MAX (rc_local_single_rank_collectives a) (rc_local_single_rank_collectives b))
    (sat_add USIZE_MAX (rc_transport_collectives a) (rc_transport_collectives b))
    (Z.max ax bx, Z.max ay by_, Z.max az bz)
    (sat_add U64_MAX (rc_static_storage_bytes a) (rc_static_storage_bytes b)).

Definition scan (p : Program) : RequiredCapabilities :=
  let stats := compute_stats p in
  let plan := collective_transport_plan p in
  mkRequired (subgroup_ops stats) (f16 stats) (bf16 stats) (f64 stats) (async_dispatch stats)
    (indirect_dispatch stats) (tensor_ops stats) (trap stats) (requires_transport plan)
    (local_single_rank plan) (multi_rank_transport plan) (workgroup_size p) (static_storage_bytes stats).

(** The entries of [MissingCapability::missing]: a name, or a formatted detail. *)
Inductive missing_item :=
| MissingName (name : string)
| MissingTransport (transport local : Z)
| MissingAxis (axis requested max : Z).
Definition is_workgroup_name (m : missing_item) : bool :=
  match m with MissingName n => bool_decide (n = "workgroup_size") | _ => false end.

Definition axes (size : Z * Z * Z) : list Z := let '(x, y, z) := size in [x; y; z].
(** One axis of the workgroup check, at position [axis]. *)
Definition check_axis (missing : list missing_item) (entry : Z * (Z * Z)) : list missing_item :=
  let '(axis, (req_size, max_size)) := entry in
  if (max_size <? req_size) && negb (max_size =? 0) then
    (if existsb is_workgroup_name missing then missing else missing ++ [MissingName "workgroup_size"])
    ++ [MissingAxis axis req_size max_size]
  else missing.
Definition push_missing (b : bool) (l missing : list missing_item) : list missing_item :=
  if b then missing ++ l else missing.

Definition check_backend_capabilities (supports_subgroup_ops supports_half_precision supports_brain_float
    supports_indirect_dispatch supports_trap_propagation supports_distributed_collectives : bool)
    (max_workgroup_size : Z * Z * Z) (required : RequiredCapabilities) : result (list missing_item) unit :=
  let missing := push_missing (rc_subgroup_ops required && negb supports_subgroup_ops)
                   [MissingName "subgroup_ops"] [] in
  let missing := push_missing (rc_f16 required && negb supports_half_precision) [MissingName "f16"] missing in
  let missing := push_missing (rc_bf16 required && negb supports_brain_float) [MissingName "bf16"] missing in
  let missing := push_missing (rc_indirect_dispatch required && negb supports_indirect_dispatch)
                   [MissingName "indirect_dispatch"] missing in
  let missing := push_missing (rc_trap required && negb supports_trap_propagation)
                   [MissingName "trap_propagation"] missing in
  let missing := push_missing (rc_distributed_collectives required && negb supports_distributed_collectives)
                   [MissingName "distributed_collectives";
                    MissingTransport (rc_transport_collectives required)
                      (rc_local_single_rank_collectives required)] missing in
  let missing := foldl check_axis missing
                   (zip [0; 1; 2] (zip (axes (rc_max_workgroup_size required)) (axes max_workgroup_size))) in
  match missing with [] => Ok tt | _ => Err missing end.

Lemma push_missing_nil b l m : l <> [] -> push_missing b l m = [] <-> b = false /\ m = [].
Proof. intros Hl. destruct b; cbn; [|tauto]. split; [by intros [? ?]%app_nil|by intros [? _]]. Qed.
Lemma check_axis_nil m axis req max :
  check_axis m (axis, (req, max)) = [] <-> m = [] /\ (max = 0 \/ req <= max).
Proof.
  unfold check_axis. destruct (Z.ltb_spec max req), (Z.eqb_spec max 0); cbn; try (intuition lia).
  split; [by intros [_ ?]%app_nil|intros [_ ?]; lia].
Qed.
Lemma supported_iff required supported :
  required && negb supported = false <-> (required = true -> supported = true).
Proof. destruct required, supported; cbn; intuition discriminate. Qed.
Lemma gate_ok s h b i t d mx my mz r rx ry rz : rc_max_workgroup_size r = (rx, ry, rz) ->
  check_backend_capabilities s h b i t d (mx, my, mz) r = Ok tt <->
  (rc_subgroup_ops r = true -> s = true) /\ (rc_f16 r = true -> h = true) /\ (rc_bf16 r = true -> b = true)
  /\ (rc_indirect_dispatch r = true -> i = true) /\ (rc_trap r = true -> t = true)
  /\ (rc_distributed_collectives r = true -> d = true)
  /\ (mx = 0 \/ rx <= mx) /\ (my = 0 \/ ry <= my) /\ (mz = 0 \/ rz <= mz).
Proof.
  intros Hr. unfold check_backend_capabilities. rewrite Hr. cbn [axes zip zip_with foldl].
  match goal with |- match ?m with _ => _ end = _ <-> _ => assert (m = [] <->
    (rc_subgroup_ops r = true -> s = true) /\ (rc_f16 r = true -> h = true) /\ (rc_bf16 r = true -> b = true)
    /\ (rc_indirect_dispatch r = true -> i = true) /\ (rc_trap r = true -> t = true)
    /\ (rc_distributed_collectives r = true -> d = true)
    /\ (mx = 0 \/ rx <= mx) /\ (my = 0 \/ ry <= my) /\ (mz = 0 \/ rz <= mz)) as H end.
  { rewrite !check_axis_nil, !push_missing_nil by done.
    rewrite !supported_iff. tauto. }
  rewrite <- H. match goal with |- match ?m with _ => _ end = _ <-> _ => destruct m; split; done end.
Qed.

(** A backend accepts the union of two requirements exactly when it accepts both; it
    accepts the empty requirement whatever it supports. *)
Lemma gate_union s h b i t d mx my mz r r' :
  check_backend_capabilities s h b i t d (mx, my, mz) (required_union r r') = Ok tt <->
  check_backend_capabilities s h b i t d (mx, my, mz) r = Ok tt
  /\ check_backend_capabilities s h b i t d (mx, my, mz) r' = Ok tt.
Proof.
  destruct (rc_max_workgroup_size r) as [[rx ry] rz] eqn:Hr, (rc_max_workgroup_size r') as [[qx qy] qz] eqn:Hq.
  rewrite (gate_ok s h b i t d mx my mz (required_union r r') (Z.max rx qx) (Z.max ry qy) (Z.max rz qz))
    by (unfold required_union; by rewrite Hr, Hq).
  rewrite (gate_ok s h b i t d mx my mz r rx ry rz Hr), (gate_ok s h b i t d mx my mz r' qx qy qz Hq).
  unfold required_union. rewrite Hr, Hq. cbn [rc_subgroup_ops rc_f16 rc_bf16 rc_indirect_dispatch rc_trap
    rc_distributed_collectives]. rewrite !orb_true_iff, !Z.max_lub_iff. tauto.
Qed.
Lemma gate_none s h b i t d mx my mz : 0 <= mx -> 0 <= my -> 0 <= mz ->
  check_backend_capabilities s h b i t d (mx, my, mz) required_none = Ok tt.
Proof. intros. apply (gate_ok s h b i t d mx my mz _ 0 0 0); [done|]. cbn. intuition (done || lia). Qed.

(** ** Claims *)

Definition is_transport (n : Node) : bool :=
  match classify n with Some (MultiRankTransport, _) => true | _ => false end.
Lemma nodes_of_entry p : nodes_of (entry p) = program_nodes p.
Proof. reflexivity. Qed.
Lemma classify_collective n : is_collective n = match classify n with Some _ => true | None => false end.
Proof. by destruct n. Qed.
Lemma collectives_none l : collectives l = [] <-> existsb is_collective (nodes_of l) = false.
Proof.
  unfold collectives. induction (nodes_of l) as [|n ns IH]; [done|]. cbn [omap list_omap existsb].
  rewrite classify_collective. destruct (classify n); cbn [orb]; [done|exact IH].
Qed.
Lemma requires_transport_iff l : Z.of_nat (length (nodes_of l)) <= USIZE_MAX ->
  requires_transport (record_all plan_default (collectives l)) = existsb is_transport (nodes_of l).
Proof.
  intros Hl. unfold requires_transport. rewrite transport_exact by done. unfold collectives.
  clear Hl. induction (nodes_of l) as [|n ns IH]; [done|]. cbn [omap list_omap existsb].
  unfold is_transport at 1. destruct (classify n) as [[[] k]|]; cbn [orb]; try exact IH.
  rewrite count_if_cons. pose proof (count_if_nonneg (fun tk => negb (is_local tk)) (omap classify ns)).
  cbn [is_local fst negb]. destruct (Z.eqb_spec (1 + count_if (fun tk => negb (is_local tk)) (omap classify ns)) 0); [lia|done].
Qed.
Lemma fresh_names_NoDup n : 0 <= n <= 2 ^ 64 -> NoDup (fresh_names 0 n).
Proof.
  intros Hn. unfold fresh_names. apply NoDup_fmap_2_strong; [|apply NoDup_seqZ].
  intros a b Ha%elem_of_seqZ Hb%elem_of_seqZ H. unfold copy_index in H.
  rewrite !wrapu_id in H by (unfold inu; lia). apply (inj (String.append _)) in H. by apply (inj pretty) in H.
Qed.

Lemma transport_exists l : Exists (fun tk => is_local tk = false) (collectives l) ->
  existsb is_transport (nodes_of l) = true.
Proof.
  unfold collectives. induction (nodes_of l) as [|n ns IH]; [by intros ?%Exists_nil|]. cbn [omap list_omap existsb].
  unfold is_transport at 1. destruct (classify n) as [[[] k]|]; cbn [orb]; rewrite ?Exists_cons; try done; try exact IH.
  intros [?|?]; [done|by apply IH].
Qed.
Lemma all_local l : Forall (fun tk => is_local tk = true) (collectives l) ->
  existsb is_transport (nodes_of l) = false.
Proof.
  unfold collectives. induction (nodes_of l) as [|n ns IH]; [done|]. cbn [omap list_omap existsb].
  unfold is_transport at 1. destruct (classify n) as [[[] k]|]; cbn [orb]; rewrite ?Forall_cons; try exact IH.
  - intros [_ ?]. by apply IH.
  - by intros [? _].
Qed.
Lemma count_all_local l : Forall (fun tk => is_local tk = true) l -> count_if is_local l = Z.of_nat (length l).
Proof. induction 1 as [|tk l H _ IH]; [done|]. rewrite count_if_cons, H, IH. cbn [length]. lia. Qed.
Lemma fresh_names_small n : 0 <= n <= 2 ^ 64 -> fresh_names 0 n = map copy_index (seqZ 0 n).
Proof.
  intros Hn. unfold fresh_names. apply map_ext_in. intros k Hk%list_elem_of_In%elem_of_seqZ.
  rewrite wrapu_id by (unfold inu; lia). done.
Qed.

Module Single.

(** A program with a collective of each kind, in nested statements. *)
Definition nested : Program :=
  mkProgram None [] (64, 1, 1)
    [Node.Region "r" None
       [Node.AllReduce "x" CollectiveOp.Sum 0;
        Node.If (Expr.LitBool true) [Node.AllGather "x" "y" 0] [Node.ReduceScatter "y" "x" CollectiveOp.Max 0];
        Node.Loop "i" (Expr.LitU32 0) (Expr.LitU32 3) [Node.Broadcast "x" 0 0; Node.Let "k" (Expr.Var "i")]]] false.

(** C15: the lowering of single-rank collectives and the transport plan, two separate
    traversals, agree: the lowering fails exactly when the plan says that a transport is
    needed, changes nothing exactly when the plan is empty, and otherwise gives the same
    program with no collective left, whose index variables are pairwise distinct names
    added to the bindings that were there; so bindings with pairwise different names stay
    so, provided the program binds none of the generated names itself (the lowering does
    not check that). *)
Theorem lowering_agrees_with_plan p (Hsize : Z.of_nat (length (program_nodes p)) <= USIZE_MAX) :
  match lower_single_rank_collectives p with
  | Err _ => requires_collective_transport p = true
  | Ok None => plan_is_empty (collective_transport_plan p) = true
  | Ok (Some q) =>
      requires_collective_transport p = false /\ plan_is_empty (collective_transport_plan p) = false
      /\ with_rewritten_entry p (entry q) = q /\ distributed_collectives (compute_stats q) = false
      /\ exists n, let_names (entry q) ≡ₚ let_names (entry p) ++ map copy_index (seqZ 0 n)
           /\ NoDup (map copy_index (seqZ 0 n))
           /\ ((forall k, copy_index k ∉ let_names (entry p)) -> NoDup (let_names (entry p)) -> NoDup (let_names (entry q)))
  end.
Proof.
  unfold lower_single_rank_collectives, requires_collective_transport, plan_is_empty.
  rewrite !plan_of_program, local_exact, transport_exact, requires_transport_iff by done.
  rewrite stats_collectives, <- nodes_of_entry.
  destruct (existsb is_collective (nodes_of (entry p))) eqn:Ec; cbn [negb].
  2: { apply collectives_none in Ec. by rewrite Ec. }
  pose proof (lower_list_spec (entry p) (Forall_true _ _ lower_node_spec) (mkLowering 0 0)) as Hs.
  unfold lower_nodes. destruct (lower_nodes_with lower_node (entry p) (mkLowering 0 0)) as [[out st]|e];
    cbn [mbind result_bind lower_spec lowered next_copy_id] in *.
  2: { apply transport_exists. apply Hs; width_lia. }
  destruct Hs as (Hloc & Hout & _ & _ & Hl & _ & Hnames); [width_lia..|].
  pose proof (collectives_length (entry p)) as Hlen. rewrite nodes_of_entry in Hlen.
  rewrite Z.add_0_l, wrapu_id in Hl by (unfold inu; lia).
  assert (collectives (entry p) <> []) as Hne by (rewrite collectives_none; congruence).
  destruct (Z.eqb_spec (lowered st) 0) as [H0|_].
  { destruct (collectives (entry p)); [done|]. cbn in Hl. lia. }
  rewrite all_local by done. split; [done|]. split.
  { rewrite (count_all_local _ Hloc). apply andb_false_iff. left. apply Z.eqb_neq.
    destruct (collectives (entry p)); [done|]. cbn. lia. }
  split; [done|]. cbn [with_rewritten_entry entry]. split.
  { rewrite stats_collectives, <- nodes_of_entry. by apply collectives_none. }
  exists (count_if is_copy (collectives (entry p))).
  pose proof (count_if_length is_copy (collectives (entry p))). pose proof (count_if_nonneg is_copy (collectives (entry p))).
  rewrite <- fresh_names_small by lia. split; [done|].
  assert (NoDup (fresh_names 0 (count_if is_copy (collectives (entry p))))) as Hnd by (apply fresh_names_NoDup; lia).
  split; [done|]. intros Hfresh Hp. rewrite Hnames. apply NoDup_app. split; [done|]. split; [|done].
  intros x Hx. rewrite fresh_names_small by lia. intros (k & -> & _)%list_elem_of_fmap. by apply (Hfresh k).
Qed.
Lemma lowering_agrees_with_plan_witness :
  exists q, lower_single_rank_collectives nested = Ok (Some q)
    /\ requires_collective_transport nested = false
    /\ let_names (entry q) = [copy_index 0; copy_index 1; "k"].
Proof.
  eexists. split; [vm_compute; reflexivity|]. split; [|vm_compute; reflexivity].
  pose proof (lowering_agrees_with_plan nested ltac:(vm_compute; done)) as H.
  assert (exists q, lower_single_rank_collectives nested = Ok (Some q)) as [q Hq]
    by (eexists; vm_compute; reflexivity).
  rewrite Hq in H. apply H.
Defined.

End Single.
