(* ===== verification/ProgramFacts.v ===== *)
(** The columnar fact table of a program (vyre-foundation: optimizer/program_soa.rs).

    One preorder walk fills parallel columns: the kind and the parent of every
    statement, and the rows of bindings, variable reads, buffer references and regions,
    each with the index of the statement it belongs to.  The theorems read the columns
    back as facts about the tree. *)

From S2P Require Import Prelude Spec IR ProgramStats Collectives.

(** ** Data *)

Module NodeKind.
Inductive NodeKind :=
| Let | Assign | Store | If | Loop | IndirectDispatch | AsyncLoad | AsyncStore | AsyncWait | Trap
| Resume | Return | Barrier | Block | Region | AllReduce | AllGather | ReduceScatter | Broadcast | Opaque.
#[export] Instance NodeKind_eq_dec : EqDecision NodeKind.
Proof. solve_decision. Defined.
End NodeKind.
Abbreviation NodeKind := NodeKind.NodeKind.
Export (hints) NodeKind.

Inductive BufferRefKind :=
| RefRead | RefWrite | RefAtomic (op : AtomicOp) | RefAsyncDestination | RefAsyncSource | RefIndirectCount.

Record RegionMeta := mkRegionMeta { rm_node : Z; rm_generator : string; rm_source_region : option string }.

Record ProgramFacts := mkFacts {
  pf_kinds : list NodeKind;
  pf_parent : list (option Z);
  pf_kinds_present : Z;
  pf_lets : list (Z * string);
  pf_assigns : list (Z * string);
  pf_loop_vars : list (Z * string);
  pf_var_reads : list (Z * string);
  pf_buffer_refs : list (Z * (string * BufferRefKind));
  pf_regions : list RegionMeta;
}.
Definition facts_default : ProgramFacts := mkFacts [] [] 0 [] [] [] [] [] [].

(** The discriminant of a kind, the position of its bit. *)
Definition kind_bit (k : NodeKind) : Z :=
  match k with
  | NodeKind.Let => 0 | NodeKind.Assign => 1 | NodeKind.Store => 2 | NodeKind.If => 3
  | NodeKind.Loop => 4 | NodeKind.IndirectDispatch => 5 | NodeKind.AsyncLoad => 6
  | NodeKind.AsyncStore => 7 | NodeKind.AsyncWait => 8 | NodeKind.Trap => 9 | NodeKind.Resume => 10
  | NodeKind.Return => 11 | NodeKind.Barrier => 12 | NodeKind.Block => 13 | NodeKind.Region => 14
  | NodeKind.AllReduce => 15 | NodeKind.AllGather => 16 | NodeKind.ReduceScatter => 17
  | NodeKind.Broadcast => 18 | NodeKind.Opaque => 19
  end.
Definition kind_mask (k : NodeKind) : Z := Z.shiftl 1 (kind_bit k).

(** ** The walk *)

Definition record_node (f : ProgramFacts) (k : NodeKind) (parent : option Z) : Z * ProgramFacts :=
  (Z.min U32_MAX (Z.of_nat (length (pf_kinds f))),
   mkFacts (pf_kinds f ++ [k]) (pf_parent f ++ [parent]) (Z.lor (pf_kinds_present f) (kind_mask k))
     (pf_lets f) (pf_assigns f) (pf_loop_vars f) (pf_var_reads f) (pf_buffer_refs f) (pf_regions f)).

Definition push_let (row : Z * string) (f : ProgramFacts) : ProgramFacts :=
  mkFacts (pf_kinds f) (pf_parent f) (pf_kinds_present f) (pf_lets f ++ [row]) (pf_assigns f)
    (pf_loop_vars f) (pf_var_reads f) (pf_buffer_refs f) (pf_regions f).
Definition push_assign (row : Z * string) (f : ProgramFacts) : ProgramFacts :=
  mkFacts (pf_kinds f) (pf_parent f) (pf_kinds_present f) (pf_lets f) (pf_assigns f ++ [row])
    (pf_loop_vars f) (pf_var_reads f) (pf_buffer_refs f) (pf_regions f).
Definition push_loop_var (row : Z * string) (f : ProgramFacts) : ProgramFacts :=
  mkFacts (pf_kinds f) (pf_parent f) (pf_kinds_present f) (pf_lets f) (pf_assigns f)
    (pf_loop_vars f ++ [row]) (pf_var_reads f) (pf_buffer_refs f) (pf_regions f).
Definition push_var_read (row : Z * string) (f : ProgramFacts) : ProgramFacts :=
  mkFacts (pf_kinds f) (pf_parent f) (pf_kinds_present f) (pf_lets f) (pf_assigns f)
    (pf_loop_vars f) (pf_var_reads f ++ [row]) (pf_buffer_refs f) (pf_regions f).
Definition push_ref (idx : Z) (buffer : string) (k : BufferRefKind) (f : ProgramFacts) : ProgramFacts :=
  mkFacts (pf_kinds f) (pf_parent f) (pf_kinds_present f) (pf_lets f) (pf_assigns f)
    (pf_loop_vars f) (pf_var_reads f) (pf_buffer_refs f ++ [(idx, (buffer, k))]) (pf_regions f).
Definition push_region (row : RegionMeta) (f : ProgramFacts) : ProgramFacts :=
  mkFacts (pf_kinds f) (pf_parent f) (pf_kinds_present f) (pf_lets f) (pf_assigns f)
    (pf_loop_vars f) (pf_var_reads f) (pf_buffer_refs f) (pf_regions f ++ [row]).

Fixpoint facts_expr (e : Expr) (idx : Z) (f : ProgramFacts) : ProgramFacts :=
  match e with
  | Expr.Var name => push_var_read (idx, name) f
  | Expr.Load buffer index => facts_expr index idx (push_ref idx buffer RefRead f)
  | Expr.BufLen buffer => push_ref idx buffer RefRead f
  | Expr.Atomic op buffer index expected value _ =>
      let f := facts_expr index idx (push_ref idx buffer (RefAtomic op) f) in
      let f := match expected with Some x => facts_expr x idx f | None => f end in
      facts_expr value idx f
  | Expr.BinOp _ l r => facts_expr r idx (facts_expr l idx f)
  | Expr.UnOp _ operand => facts_expr operand idx f
  | Expr.Call _ args => foldl (fun f arg => facts_expr arg idx f) f args
  | Expr.Select cond t o => facts_expr o idx (facts_expr t idx (facts_expr cond idx f))
  | Expr.Cast _ value | Expr.SubgroupAdd value => facts_expr value idx f
  | Expr.Fma a b c => facts_expr c idx (facts_expr b idx (facts_expr a idx f))
  | Expr.SubgroupBallot cond => facts_expr cond idx f
  | Expr.SubgroupShuffle value lane => facts_expr lane idx (facts_expr value idx f)
  | _ => f
  end.

Fixpoint facts_node (n : Node) (parent : option Z) (f : ProgramFacts) : ProgramFacts :=
  match n with
  | Node.Let name value =>
      let '(idx, f) := record_node f NodeKind.Let parent in
      facts_expr value idx (push_let (idx, name) f)
  | Node.Assign name value =>
      let '(idx, f) := record_node f NodeKind.Assign parent in
      facts_expr value idx (push_assign (idx, name) f)
  | Node.Store buffer index value =>
      let '(idx, f) := record_node f NodeKind.Store parent in
      facts_expr value idx (facts_expr index idx (push_ref idx buffer RefWrite f))
  | Node.If cond then_ otherwise =>
      let '(idx, f) := record_node f NodeKind.If parent in
      let f := facts_expr cond idx f in
      let f := foldl (fun f n => facts_node n (Some idx) f) f then_ in
      foldl (fun f n => facts_node n (Some idx) f) f otherwise
  | Node.Loop var from to body =>
      let '(idx, f) := record_node f NodeKind.Loop parent in
      let f := facts_expr to idx (facts_expr from idx (push_loop_var (idx, var) f)) in
      foldl (fun f n => facts_node n (Some idx) f) f body
  | Node.IndirectDispatch count_buffer _ =>
      let '(idx, f) := record_node f NodeKind.IndirectDispatch parent in
      push_ref idx count_buffer RefIndirectCount f
  | Node.AsyncLoad source destination offset size _ =>
      let '(idx, f) := record_node f NodeKind.AsyncLoad parent in
      let f := push_ref idx destination RefAsyncDestination (push_ref idx source RefAsyncSource f) in
      facts_expr size idx (facts_expr offset idx f)
  | Node.AsyncStore source destination offset size _ =>
      let '(idx, f) := record_node f NodeKind.AsyncStore parent in
      let f := push_ref idx destination RefWrite (push_ref idx source RefAsyncSource f) in
      facts_expr size idx (facts_expr offset idx f)
  | Node.AsyncWait _ => snd (record_node f NodeKind.AsyncWait parent)
  | Node.Trap address _ =>
      let '(idx, f) := record_node f NodeKind.Trap parent in facts_expr address idx f
  | Node.Resume _ => snd (record_node f NodeKind.Resume parent)
  | Node.Return => snd (record_node f NodeKind.Return parent)
  | Node.Barrier _ => snd (record_node f NodeKind.Barrier parent)
  | Node.Block body =>
      let '(idx, f) := record_node f NodeKind.Block parent in
      foldl (fun f n => facts_node n (Some idx) f) f body
  | Node.Region generator source_region body =>
      let '(idx, f) := record_node f NodeKind.Region parent in
      let f := push_region (mkRegionMeta idx generator source_region) f in
      foldl (fun f n => facts_node n (Some idx) f) f body
  | Node.AllReduce buffer _ _ =>
      let '(idx, f) := record_node f NodeKind.AllReduce parent in push_ref idx buffer RefWrite f
  | Node.AllGather input output _ =>
      let '(idx, f) := record_node f NodeKind.AllGather parent in
      push_ref idx output RefWrite (push_ref idx input RefRead f)
  | Node.ReduceScatter input output _ _ =>
      let '(idx, f) := record_node f NodeKind.ReduceScatter parent in
      push_ref idx output RefWrite (push_ref idx input RefRead f)
  | Node.Broadcast buffer _ _ =>
      let '(idx, f) := record_node f NodeKind.Broadcast parent in push_ref idx buffer RefWrite f
  | Node.Opaque _ => snd (record_node f NodeKind.Opaque parent)
  end.

(** [ProgramFacts::build]: the columns of a program, given that memory suffices. *)
Definition build (p : Program) : ProgramFacts :=
  foldl (fun f n => facts_node n None f) facts_default (entry p).

(** ** Queries *)

(** [build_index] and the tables like it: rows grouped by name, in order. *)
Definition build_index {A} (name : A -> string) {B} (row : A -> B) (rows : list A) : gmap string (list B) :=
  foldl (fun m r => <[name r := default [] (m !! name r) ++ [row r]]> m) ∅ rows.
Definition sites_of (rows : list (Z * string)) (name : string) : list Z :=
  default [] (build_index snd fst rows !! name).
Definition let_sites_of (f : ProgramFacts) : string -> list Z := sites_of (pf_lets f).
Definition assign_sites_of (f : ProgramFacts) : string -> list Z := sites_of (pf_assigns f).
Definition var_read_sites_of (f : ProgramFacts) : string -> list Z := sites_of (pf_var_reads f).
Definition buffer_refs_of (f : ProgramFacts) (name : string) : list (Z * BufferRefKind) :=
  default [] (build_index (fun r => r.2.1) (fun r => (r.1, r.2.2)) (pf_buffer_refs f) !! name).

Definition has_kind (f : ProgramFacts) (k : NodeKind) : bool := has_bit (pf_kinds_present f) (kind_mask k).
Definition has_any_kind_in_mask (f : ProgramFacts) (mask : Z) : bool := has_bit (pf_kinds_present f) mask.

Definition is_name_rebound (f : ProgramFacts) (name : string) : bool :=
  if (1 <? length (let_sites_of f name))%nat then true
  else if negb (length (assign_sites_of f name) =? 0)%nat then true
  else existsb (fun r => bool_decide (r.2 = name)) (pf_loop_vars f).
Definition buffers_provably_distinct (f : ProgramFacts) (a b : string) : bool :=
  if bool_decide (a = b) then false
  else existsb (fun r => bool_decide (r.2.1 = a)) (pf_buffer_refs f)
       && existsb (fun r => bool_decide (r.2.1 = b)) (pf_buffer_refs f).
Definition ref_escapes (k : BufferRefKind) : bool :=
  match k with RefWrite | RefAtomic _ | RefAsyncDestination | RefIndirectCount => true | _ => false end.
Definition buffer_escapes (f : ProgramFacts) (name : string) : bool :=
  existsb (fun r => bool_decide (r.2.1 = name) && ref_escapes r.2.2) (pf_buffer_refs f).

(** ** What the columns say *)

Definition kind_of (n : Node) : NodeKind :=
  match n with
  | Node.Let _ _ => NodeKind.Let | Node.Assign _ _ => NodeKind.Assign | Node.Store _ _ _ => NodeKind.Store
  | Node.If _ _ _ => NodeKind.If | Node.Loop _ _ _ _ => NodeKind.Loop
  | Node.IndirectDispatch _ _ => NodeKind.IndirectDispatch
  | Node.AsyncLoad _ _ _ _ _ => NodeKind.AsyncLoad | Node.AsyncStore _ _ _ _ _ => NodeKind.AsyncStore
  | Node.AsyncWait _ => NodeKind.AsyncWait | Node.Trap _ _ => NodeKind.Trap | Node.Resume _ => NodeKind.Resume
  | Node.Return => NodeKind.Return | Node.Barrier _ => NodeKind.Barrier | Node.Block _ => NodeKind.Block
  | Node.Region _ _ _ => NodeKind.Region | Node.AllReduce _ _ _ => NodeKind.AllReduce
  | Node.AllGather _ _ _ => NodeKind.AllGather | Node.ReduceScatter _ _ _ _ => NodeKind.ReduceScatter
  | Node.Broadcast _ _ _ => NodeKind.Broadcast | Node.Opaque _ => NodeKind.Opaque
  end.

(** The expressions a statement holds itself, and everything inside them. *)
Definition direct_exprs (n : Node) : list Expr :=
  match n with
  | Node.Let _ e | Node.Assign _ e | Node.Trap e _ | Node.If e _ _ => [e]
  | Node.Store _ a b | Node.Loop _ a b _ | Node.AsyncLoad _ _ a b _ | Node.AsyncStore _ _ a b _ => [a; b]
  | _ => []
  end.
Definition own_exprs (n : Node) : list Expr := flat_map subexprs (direct_exprs n).

Definition bound_let (n : Node) : list string := match n with Node.Let x _ => [x] | _ => [] end.
Definition assigned (n : Node) : list string := match n with Node.Assign x _ => [x] | _ => [] end.
Definition bound_loop (n : Node) : list string := match n with Node.Loop x _ _ _ => [x] | _ => [] end.
Definition var_of (e : Expr) : list string := match e with Expr.Var x => [x] | _ => [] end.
Definition ref_of (e : Expr) : list (string * BufferRefKind) :=
  match e with
  | Expr.Load b _ | Expr.BufLen b => [(b, RefRead)]
  | Expr.Atomic op b _ _ _ _ => [(b, RefAtomic op)]
  | _ => []
  end.
Definition header_refs (n : Node) : list (string * BufferRefKind) :=
  match n with
  | Node.Store b _ _ | Node.AllReduce b _ _ | Node.Broadcast b _ _ => [(b, RefWrite)]
  | Node.IndirectDispatch b _ => [(b, RefIndirectCount)]
  | Node.AsyncLoad s d _ _ _ => [(s, RefAsyncSource); (d, RefAsyncDestination)]
  | Node.AsyncStore s d _ _ _ => [(s, RefAsyncSource); (d, RefWrite)]
  | Node.AllGather i o _ | Node.ReduceScatter i o _ _ => [(i, RefRead); (o, RefWrite)]
  | _ => []
  end.
Definition node_refs (n : Node) : list (string * BufferRefKind) := header_refs n ++ flat_map ref_of (own_exprs n).
Definition node_reads (n : Node) : list string := flat_map var_of (own_exprs n).
Definition region_of (n : Node) : list (string * option string) :=
  match n with Node.Region g s _ => [(g, s)] | _ => [] end.

(** The rows a property of statements gives, for statements numbered from [off]. *)
Fixpoint rows {A} (g : Node -> list A) (off : Z) (nodes : list Node) : list (Z * A) :=
  match nodes with
  | [] => []
  | n :: nodes => map (pair off) (g n) ++ rows g (off + 1) nodes
  end.
Definition region_row (r : Z * (string * option string)) : RegionMeta := mkRegionMeta r.1 r.2.1 r.2.2.
Definition masks (nodes : list Node) : Z := foldr (fun n m => Z.lor (kind_mask (kind_of n)) m) 0 nodes.

(** The parents of trees laid out one after the other, and of a tree whose root is
    number [off]. *)
Definition parents_with (f : Node -> Z -> option Z -> list (option Z)) :=
  fix go (l : list Node) (off : Z) (parent : option Z) : list (option Z) :=
    match l with
    | [] => []
    | n :: l => f n off parent ++ go l (off + Z.of_nat (length (f n off parent))) parent
    end.
Fixpoint parents (n : Node) (off : Z) (parent : option Z) : list (option Z) :=
  parent :: match n with
  | Node.If _ t o =>
      let ps := parents_with parents t (off + 1) (Some off) in
      ps ++ parents_with parents o (off + 1 + Z.of_nat (length ps)) (Some off)
  | Node.Loop _ _ _ b | Node.Block b | Node.Region _ _ b => parents_with parents b (off + 1) (Some off)
  | _ => []
  end.
Definition parents_list : list Node -> Z -> option Z -> list (option Z) := parents_with parents.

Definition columns (off : Z) (nodes : list Node) (ps : list (option Z)) : ProgramFacts :=
  mkFacts (map kind_of nodes) ps (masks nodes) (rows bound_let off nodes) (rows assigned off nodes)
    (rows bound_loop off nodes) (rows node_reads off nodes) (rows node_refs off nodes)
    (map region_row (rows region_of off nodes)).
Definition facts_cat (f g : ProgramFacts) : ProgramFacts :=
  mkFacts (pf_kinds f ++ pf_kinds g) (pf_parent f ++ pf_parent g) (Z.lor (pf_kinds_present f) (pf_kinds_present g))
    (pf_lets f ++ pf_lets g) (pf_assigns f ++ pf_assigns g) (pf_loop_vars f ++ pf_loop_vars g)
    (pf_var_reads f ++ pf_var_reads g) (pf_buffer_refs f ++ pf_buffer_refs g) (pf_regions f ++ pf_regions g).

Lemma facts_cat_assoc f g h : facts_cat (facts_cat f g) h = facts_cat f (facts_cat g h).
Proof. unfold facts_cat; cbn. by rewrite <- !app_assoc, Z.lor_assoc. Qed.

Definition expr_columns (idx : Z) (e : Expr) : ProgramFacts :=
  mkFacts [] [] 0 [] [] [] (map (pair idx) (flat_map var_of (subexprs e)))
    (map (pair idx) (flat_map ref_of (subexprs e))) [].
Lemma facts_cat_nil_r f : facts_cat f facts_default = f.
Proof. destruct f. unfold facts_cat; cbn. by rewrite !app_nil_r, Z.lor_0_r. Qed.

Lemma expr_columns_fold idx args : forall f,
  foldl (fun f e => facts_cat f (expr_columns idx e)) f args = facts_cat f
    (mkFacts [] [] 0 [] [] [] (map (pair idx) (flat_map var_of (flat_map subexprs args)))
       (map (pair idx) (flat_map ref_of (flat_map subexprs args))) []).
Proof.
  induction args as [|a args IH]; intros f; cbn [foldl flat_map].
  - by rewrite facts_cat_nil_r.
  - rewrite IH, facts_cat_assoc. f_equal. unfold facts_cat; cbn. by rewrite !flat_map_app, !map_app.
Qed.
Lemma foldl_ext_in {A B} (f g : A -> B -> A) l : Forall (fun b => forall a, f a b = g a b) l ->
  forall a, foldl f a l = foldl g a l.
Proof. induction 1 as [|b l H _ IH]; intros a; cbn [foldl]; [done|]. by rewrite H. Qed.
Local Ltac columns_eq :=
  unfold push_ref, push_var_read, facts_cat, expr_columns; cbn [pf_kinds pf_parent pf_kinds_present pf_lets
    pf_assigns pf_loop_vars pf_var_reads pf_buffer_refs pf_regions subexprs flat_map var_of ref_of app map];
  rewrite ?flat_map_app, ?map_app, ?app_nil_r, ?Z.lor_0_r, <- ?app_assoc; reflexivity.
Lemma facts_expr_spec e : forall idx f, facts_expr e idx f = facts_cat f (expr_columns idx e).
Proof.
  induction e using Expr_ind'; intros idx f; cbn [facts_expr].
  all: try (symmetry; apply facts_cat_nil_r).
  all: repeat match goal with IH : forall idx f, facts_expr ?e idx f = _ |- context [facts_expr ?e _ _] => rewrite IH end.
  all: try columns_eq.
  - rewrite (foldl_ext_in _ (fun f e => facts_cat f (expr_columns idx e))).
    + apply expr_columns_fold.
    + eapply Forall_impl; [done|]. cbn. intros; auto.
  - destruct e2 as [x|]; cbn [Forall_opt] in H; rewrite ?H; columns_eq.
Qed.

(** ** The walk fills the columns *)

(** What one statement adds before its nested statements. *)
Definition own (off : Z) (n : Node) (parent : option Z) : ProgramFacts := columns off [n] [parent].
Lemma facts_node_step n parent f (k := Z.of_nat (length (pf_kinds f))) : k <= U32_MAX ->
  facts_node n parent f =
  foldl (fun f n => facts_node n (Some k) f) (facts_cat f (own k n parent)) (concat (bodies n)).
Proof.
  intros Hf. unfold own, columns, facts_cat. destruct n; cbn [facts_node record_node fst snd bodies concat foldl app];
    fold k; rewrite ?(Z.min_r U32_MAX) by lia; rewrite ?facts_expr_spec, ?app_nil_r, ?foldl_app.
  all: try (unfold push_let, push_assign, push_ref, push_loop_var, push_region, facts_cat, expr_columns; cbn [pf_kinds
    pf_parent pf_kinds_present pf_lets pf_assigns pf_loop_vars pf_var_reads pf_buffer_refs pf_regions kind_of masks
    foldr map rows bound_let assigned bound_loop region_of node_reads node_refs header_refs own_exprs direct_exprs
    flat_map app region_row fst snd];
    rewrite ?flat_map_app, ?map_app, ?app_nil_r, ?Z.lor_0_r, <- ?app_assoc; reflexivity).
Qed.

Lemma rows_app {A} (g : Node -> list A) l k : forall off,
  rows g off (l ++ k) = rows g off l ++ rows g (off + Z.of_nat (length l)) k.
Proof.
  induction l as [|n l IH]; intros off; cbn [rows app length]; [by rewrite Z.add_0_r|].
  rewrite IH, <- app_assoc. do 2 f_equal. by replace (off + 1 + Z.of_nat (length l)) with (off + Z.of_nat (S (length l))) by lia.
Qed.
Lemma masks_app l k : masks (l ++ k) = Z.lor (masks l) (masks k).
Proof. unfold masks. induction l as [|n l IH]; cbn; [done|]. by rewrite IH, Z.lor_assoc. Qed.
Lemma columns_app off l k ps qs :
  columns off (l ++ k) (ps ++ qs) = facts_cat (columns off l ps) (columns (off + Z.of_nat (length l)) k qs).
Proof. unfold columns, facts_cat; cbn. by rewrite map_app, masks_app, !rows_app, map_app. Qed.

Lemma nodes_of_bodies n : nodes_of [n] = n :: nodes_of (concat (bodies n)).
Proof.
  rewrite nodes_of_node. f_equal. induction (bodies n) as [|b bs IH]; [done|].
  cbn [flat_map concat]. by rewrite nodes_of_app, IH.
Qed.
Lemma parents_list_app l k : forall off parent,
  parents_list (l ++ k) off parent
  = parents_list l off parent ++ parents_list k (off + Z.of_nat (length (parents_list l off parent))) parent.
Proof.
  unfold parents_list. induction l as [|n l IH]; intros off parent; cbn [parents_with app length].
  - by rewrite Z.add_0_r.
  - rewrite IH, <- app_assoc, length_app. do 3 f_equal. lia.
Qed.
Lemma parents_node n off parent :
  parents n off parent = parent :: parents_list (concat (bodies n)) (off + 1) (Some off).
Proof.
  destruct n; cbn [parents bodies concat]; rewrite ?app_nil_r; try done. by rewrite parents_list_app.
Qed.
Lemma parents_length m : forall off parent, length (parents m off parent) = length (nodes_of [m]).
Proof.
  assert (forall l, Forall (fun n => forall off parent, length (parents n off parent) = length (nodes_of [n])) l ->
    forall off parent, length (parents_list l off parent) = length (nodes_of l)) as Hl.
  { intros l H. induction H as [|x l Hn _ IH]; intros off parent; [done|].
    unfold parents_list in *. cbn [parents_with]. by rewrite length_app, Hn, IH, (nodes_of_cons x l), length_app. }
  induction m using Node_ind'; intros off parent; rewrite parents_node, nodes_of_bodies; cbn [length]; f_equal;
    cbn [bodies concat]; rewrite ?app_nil_r; try done; apply Hl; rewrite ?Forall_app; done.
Qed.
Lemma parents_list_cons n l off parent : parents_list (n :: l) off parent
  = parents n off parent ++ parents_list l (off + Z.of_nat (length (nodes_of [n]))) parent.
Proof. unfold parents_list. cbn [parents_with]. by rewrite parents_length. Qed.
Lemma parents_list_length l : forall off parent, length (parents_list l off parent) = length (nodes_of l).
Proof.
  induction l as [|n l IH]; intros off parent; [done|].
  by rewrite parents_list_cons, length_app, parents_length, IH, (nodes_of_cons n l), length_app.
Qed.

Lemma facts_list_spec l : Forall (fun n => forall parent f (k := Z.of_nat (length (pf_kinds f))),
    k + Z.of_nat (length (nodes_of [n])) <= 2 ^ 32 ->
    facts_node n parent f = facts_cat f (columns k (nodes_of [n]) (parents n k parent))) l ->
  forall parent f (k := Z.of_nat (length (pf_kinds f))), k + Z.of_nat (length (nodes_of l)) <= 2 ^ 32 ->
  foldl (fun f n => facts_node n parent f) f l = facts_cat f (columns k (nodes_of l) (parents_list l k parent)).
Proof.
  induction 1 as [|n l Hn _ IH]; intros parent f k Hk; cbn [foldl].
  - symmetry. apply facts_cat_nil_r.
  - rewrite (nodes_of_cons n l) in *. rewrite length_app in Hk.
    rewrite Hn by (fold k; lia). fold k. rewrite parents_list_cons, columns_app, <- facts_cat_assoc, IH.
    + cbn [facts_cat pf_kinds columns]. rewrite length_app, length_map. unfold k. do 3 f_equal; lia.
    + cbn [facts_cat pf_kinds columns]. rewrite length_app, length_map. lia.
Qed.
Lemma facts_node_spec n : forall parent f (k := Z.of_nat (length (pf_kinds f))),
  k + Z.of_nat (length (nodes_of [n])) <= 2 ^ 32 ->
  facts_node n parent f = facts_cat f (columns k (nodes_of [n]) (parents n k parent)).
Proof.
  induction n using Node_ind'; intros parent fs k Hk; rewrite facts_node_step by (rewrite nodes_of_bodies in Hk; cbn in Hk; fold k; lia);
    rewrite nodes_of_bodies, parents_node in *; fold k; cbn [length] in Hk.
  all: rewrite facts_list_spec by first [cbn [bodies concat]; rewrite ?app_nil_r, ?Forall_app; done
         | unfold own, columns, facts_cat; cbn [pf_kinds map]; rewrite length_app; cbn [length]; lia].
  all: rewrite facts_cat_assoc; f_equal; symmetry; unfold own.
  all: match goal with |- columns ?k (?n :: ?l) (?p :: ?ps) = _ => etrans; [apply (columns_app k [n] l [p] ps)|] end.
  all: unfold own, columns, facts_cat; cbn [pf_kinds map length]; rewrite length_app; cbn [length].
  all: rewrite Nat2Z.inj_add; reflexivity.
Qed.
Lemma build_columns p : Z.of_nat (length (program_nodes p)) <= 2 ^ 32 ->
  build p = columns 0 (program_nodes p) (parents_list (entry p) 0 None).
Proof.
  intros Hp. unfold build. rewrite facts_list_spec; [|apply Forall_true, facts_node_spec|by rewrite nodes_of_entry].
  rewrite nodes_of_entry. cbn. destruct (columns _ _ _). reflexivity.
Qed.

(** ** Rows and indexes *)

Lemma elem_of_rows {A} (g : Node -> list A) nodes : forall off i a,
  (i, a) ∈ rows g off nodes <-> exists j n, nodes !! j = Some n /\ i = off + Z.of_nat j /\ a ∈ g n.
Proof.
  induction nodes as [|m nodes IH]; intros off i a; cbn [rows].
  { split; [by intros ?%not_elem_of_nil|]. by intros (j & n & Hn & _). }
  rewrite elem_of_app, IH. split.
  - intros [H|(j & n & Hn & -> & Ha)].
    + apply list_elem_of_fmap in H as (b & [= -> ->] & Hb). exists 0%nat, m. by rewrite Z.add_0_r.
    + exists (S j), n. split; [done|]. split; [lia|done].
  - intros ([|j] & n & Hn & -> & Ha).
    + injection Hn as ->. left. rewrite Z.add_0_r. apply list_elem_of_fmap. by exists a.
    + right. exists j, n. split; [done|]. split; [lia|done].
Qed.
Lemma rows_values {A} (g : Node -> list A) nodes : forall off, map snd (rows g off nodes) = flat_map g nodes.
Proof.
  induction nodes as [|n nodes IH]; intros off; cbn [rows flat_map]; [done|].
  rewrite map_app, IH, map_map. by rewrite map_id.
Qed.
Lemma index_lookup {A} (name : A -> string) {B} (row : A -> B) rs x :
  default [] (build_index name row rs !! x) = map row (filter (fun r => name r = x) rs).
Proof.
  unfold build_index. enough (forall m, default [] (foldl (fun m r => <[name r := default [] (m !! name r) ++ [row r]]> m) m rs !! x)
    = default [] (m !! x) ++ map row (filter (fun r => name r = x) rs)) as H by by rewrite H, lookup_empty.
  induction rs as [|r rs IH]; intros m; cbn [foldl]; [by rewrite filter_nil, app_nil_r|].
  rewrite IH, filter_cons. destruct (decide (name r = x)) as [<-|Hx].
  - rewrite lookup_insert_eq. cbn. by rewrite <- app_assoc.
  - by rewrite lookup_insert_ne.
Qed.
Lemma elem_of_sites rs x i : i ∈ sites_of rs x <-> (i, x) ∈ rs.
Proof.
  unfold sites_of. rewrite index_lookup, list_elem_of_fmap. split.
  - intros ([j y] & -> & [Hy H]%list_elem_of_filter). cbn in *. by subst.
  - intros H. exists (i, x). split; [done|]. by apply list_elem_of_filter.
Qed.
Lemma masks_spec nodes mask : has_bit (masks nodes) mask = existsb (fun n => has_bit (kind_mask (kind_of n)) mask) nodes.
Proof. induction nodes as [|n nodes IH]; [done|]. cbn [masks foldr existsb]. by rewrite has_bit_lor, <- IH. Qed.
Lemma kind_masks_distinct a b : has_bit (kind_mask a) (kind_mask b) = bool_decide (a = b).
Proof. by destruct a, b. Qed.

(** ** Ancestors *)

(** The walk from a statement to the root. *)
Fixpoint climb (fuel : nat) (ps : list (option Z)) (current : option Z) (ancestor : Z) : option bool :=
  match current with
  | None => Some false
  | Some idx =>
      if idx =? ancestor then Some true
      else match fuel with
           | O => None
           | S fuel => parent ← ps !! Z.to_nat idx; climb fuel ps parent ancestor
           end
  end.
(** [None] is an index outside the table. *)
Definition is_descendant_of (f : ProgramFacts) (node ancestor : Z) : option bool :=
  climb (length (pf_parent f)) (pf_parent f) (Some node) ancestor.

Definition size_of (n : Node) : nat := length (nodes_of [n]).
Lemma size_of_bodies n : size_of n = S (length (nodes_of (concat (bodies n)))).
Proof. unfold size_of. by rewrite nodes_of_bodies. Qed.
Lemma forest_ind (P : list Node -> Prop) : P [] -> (forall n l, P (concat (bodies n)) -> P l -> P (n :: l)) -> forall l, P l.
Proof.
  intros H0 Hc l. remember (length (nodes_of l)) as k eqn:Hk. revert l Hk.
  induction k as [k IH] using lt_wf_ind. intros [|n l] ->; [done|].
  pose proof (size_of_bodies n). unfold size_of in *. rewrite (nodes_of_cons n l), length_app in IH.
  apply Hc; eapply IH; try reflexivity; lia.
Qed.
Lemma forest_length n l : length (nodes_of (n :: l)) = (size_of n + length (nodes_of l))%nat.
Proof. by rewrite (nodes_of_cons n l), length_app. Qed.
(** Where a position of [n :: l] lies: the root, below it, or in [l]. *)
Lemma forest_lookup n l j : nodes_of (n :: l) !! j =
  if decide (j = 0)%nat then Some n
  else if decide (j < size_of n)%nat then nodes_of (concat (bodies n)) !! (j - 1)%nat
  else nodes_of l !! (j - size_of n)%nat.
Proof.
  rewrite (nodes_of_cons n l), nodes_of_bodies, size_of_bodies. destruct (decide (j = 0)%nat) as [->|]; [done|].
  destruct j as [|j]; [lia|]. rewrite <- app_comm_cons, lookup_cons, Nat.sub_succ, Nat.sub_0_r.
  destruct (decide (S j < S _)%nat); [rewrite lookup_app_l by lia|rewrite lookup_app_r by lia]; done.
Qed.
Lemma forest_parent n l off parent j : parents_list (n :: l) off parent !! j =
  if decide (j = 0)%nat then Some parent
  else if decide (j < size_of n)%nat then parents_list (concat (bodies n)) (off + 1) (Some off) !! (j - 1)%nat
  else parents_list l (off + Z.of_nat (size_of n)) parent !! (j - size_of n)%nat.
Proof.
  rewrite parents_list_cons, parents_node. fold (size_of n). rewrite size_of_bodies.
  destruct (decide (j = 0)%nat) as [->|]; [done|].
  destruct j as [|j]; [lia|]. rewrite <- app_comm_cons, lookup_cons, Nat.sub_succ, Nat.sub_0_r.
  destruct (decide (S j < S _)%nat); [rewrite lookup_app_l|rewrite lookup_app_r, parents_list_length];
    rewrite ?parents_list_length; done || lia.
Qed.

(** Subtrees are nested, and end inside the table. *)
Lemma subtree_nested l : forall a m, nodes_of l !! a = Some m ->
  (a + size_of m <= length (nodes_of l))%nat
  /\ forall i n, nodes_of l !! i = Some n -> (a <= i < a + size_of m)%nat -> (i + size_of n <= a + size_of m)%nat.
Proof.
  induction l as [|r l IHb IHl] using forest_ind; intros a m; [done|].
  rewrite forest_lookup, forest_length.
  pose proof (size_of_bodies r) as Hr.
  destruct (decide (a = 0)%nat) as [->|Ha]; [|destruct (decide (a < size_of r)%nat) as [Hin|Hout]].
  - intros [= <-]. split; [lia|]. intros i n. rewrite forest_lookup.
    repeat case_decide; [intros [= <-]; lia| |lia].
    intros Hn _. apply IHb in Hn as [Hn _]. lia.
  - intros Hm. apply IHb in Hm as [Hm Hnest]. split; [lia|]. intros i n. rewrite forest_lookup.
    repeat case_decide; [lia| |lia]. intros Hn Hi. specialize (Hnest (i - 1)%nat n Hn ltac:(lia)). lia.
  - intros Hm. apply IHl in Hm as [Hm Hnest]. split; [lia|]. intros i n. rewrite forest_lookup.
    repeat case_decide; [lia|lia|]. intros Hn Hi. specialize (Hnest (i - size_of r)%nat n Hn ltac:(lia)). lia.
Qed.
(** The parent of a statement encloses it. *)
Lemma parent_encloses l : forall off parent j q, parents_list l off parent !! j = Some q ->
  q = parent \/ exists i m, q = Some (off + Z.of_nat i) /\ (i < j)%nat /\ nodes_of l !! i = Some m
                          /\ (j < i + size_of m)%nat.
Proof.
  induction l as [|r l IHb IHl] using forest_ind; intros off parent j q; [done|]. rewrite forest_parent.
  destruct (decide (j = 0)%nat) as [->|Hj]; [intros [= <-]; by left|].
  destruct (decide (j < size_of r)%nat) as [Hin|Hout].
  - intros Hq. right. apply IHb in Hq as [->|(i & m & -> & Hi & Hm & Hs)].
    + exists 0%nat, r. rewrite forest_lookup, Z.add_0_r. split_and!; [done|lia|done|lia].
    + exists (S i), m. rewrite forest_lookup. pose proof (subtree_nested _ _ _ Hm) as [Hle _].
      pose proof (size_of_bodies r). repeat case_decide; [lia| |lia]. rewrite Nat.sub_succ, Nat.sub_0_r.
      split_and!; [f_equal; lia|lia|done|lia].
  - intros Hq. apply IHl in Hq as [->|(i & m & -> & Hi & Hm & Hs)]; [by left|right].
    exists (size_of r + i)%nat, m. rewrite forest_lookup. pose proof (size_of_bodies r). repeat case_decide; [lia|lia|].
    replace (size_of r + i - size_of r)%nat with i by lia. split_and!; [f_equal; lia|lia|done|lia].
Qed.
(** Every subtree that holds a statement properly holds its parent. *)
Lemma parent_inside l : forall off parent a j m, nodes_of l !! a = Some m -> (a < j < a + size_of m)%nat ->
  exists i, parents_list l off parent !! j = Some (Some (off + Z.of_nat i)) /\ (a <= i)%nat.
Proof.
  induction l as [|r l IHb IHl] using forest_ind; intros off parent a j m; [done|].
  rewrite forest_lookup, forest_parent. pose proof (size_of_bodies r) as Hr.
  destruct (decide (a = 0)%nat) as [->|Ha]; [|destruct (decide (a < size_of r)%nat) as [Hin|Hout]].
  - intros [= <-] Hj. repeat case_decide; [lia| |lia].
    destruct (parents_list (concat (bodies r)) (off + 1) (Some off) !! (j - 1)%nat) as [q|] eqn:Hq.
    + destruct (parent_encloses _ _ _ _ _ Hq) as [->|(i & n & -> & _)].
      * exists 0%nat. split; [do 2 f_equal; lia|lia].
      * exists (S i). split; [do 2 f_equal; lia|lia].
    + apply lookup_ge_None in Hq. rewrite parents_list_length in Hq. lia.
  - intros Hm Hj. pose proof (proj1 (subtree_nested _ _ _ Hm)). repeat case_decide; [lia| |lia].
    destruct (IHb (off + 1) (Some off) (a - 1)%nat (j - 1)%nat m Hm ltac:(lia)) as (i & -> & Hi).
    exists (S i). split; [do 2 f_equal; lia|lia].
  - intros Hm Hj. repeat case_decide; [lia|lia|].
    destruct (IHl (off + Z.of_nat (size_of r)) parent (a - size_of r)%nat (j - size_of r)%nat m Hm ltac:(lia)) as (i & -> & Hi).
    exists (size_of r + i)%nat. split; [do 2 f_equal; lia|lia].
Qed.
Lemma climb_spec l a m (ps := parents_list l 0 None) : nodes_of l !! a = Some m -> forall j fuel, (j < length (nodes_of l))%nat ->
  (j < fuel)%nat -> climb fuel ps (Some (Z.of_nat j)) (Z.of_nat a) = Some (bool_decide (a <= j < a + size_of m)%nat).
Proof.
  intros Hm j. induction j as [j IH] using lt_wf_ind. intros [|fuel] Hj Hf; [lia|]. cbn [climb].
  pose proof (size_of_bodies m). destruct (Z.eqb_spec (Z.of_nat j) (Z.of_nat a)) as [E|E].
  { f_equal. symmetry. apply bool_decide_eq_true. lia. }
  rewrite Nat2Z.id. destruct (ps !! j) as [q|] eqn:Hq.
  2: { apply lookup_ge_None in Hq. unfold ps in Hq. rewrite parents_list_length in Hq. lia. }
  cbn [mbind option_bind]. destruct (parent_encloses _ _ _ _ _ Hq) as [->|(i & n & -> & Hi & Hn & Hs)].
  - replace (climb fuel ps None (Z.of_nat a)) with (Some false) by by destruct fuel.
    f_equal. symmetry. apply bool_decide_eq_false. intros Ha.
    destruct (parent_inside l 0 None a j m Hm ltac:(lia)) as (i & Hp & _). unfold ps in Hq. congruence.
  - rewrite Z.add_0_l, IH by lia. f_equal. apply bool_decide_ext. split; intros Ha.
    + pose proof (proj2 (subtree_nested _ _ _ Hm) i n Hn Ha). lia.
    + destruct (parent_inside l 0 None a j m Hm ltac:(lia)) as (i' & Hp & Hle). unfold ps in Hq. rewrite Hq in Hp.
      injection Hp as Hp. lia.
Qed.

Module Facts.

(** A loop in a region, with a store and an atomic. *)
Definition looping : Program :=
  mkProgram None [] (1, 1, 1)
    [Node.Region "r" None
       [Node.Loop "i" (Expr.LitU32 0) (Expr.BufLen "b")
          [Node.Store "b" (Expr.Var "i") (Expr.Load "a" (Expr.Var "i"))];
        Node.Let "x" (Expr.Var "i")]] false.

(** C31: the fact table is exact: the statements are numbered in preorder with their
    kinds, a name has a binding site, an assignment site or a read site at an index
    exactly when the statement of that number binds, assigns or reads it, the references
    of a buffer are those of the statements (and as many as the program has), and one
    statement descends from another exactly when its number lies in the other's
    subtree. *)
Theorem facts_exact p (f := build p) (nodes := program_nodes p) (Hsize : Z.of_nat (length nodes) <= 2 ^ 32) :
  pf_kinds f = map kind_of nodes
  /\ (forall k, has_kind f k = existsb (fun n => bool_decide (kind_of n = k)) nodes)
  /\ (forall x i, Z.of_nat i ∈ let_sites_of f x <-> exists n, nodes !! i = Some n /\ x ∈ bound_let n)
  /\ (forall x i, Z.of_nat i ∈ assign_sites_of f x <-> exists n, nodes !! i = Some n /\ x ∈ assigned n)
  /\ (forall x i, Z.of_nat i ∈ var_read_sites_of f x <-> exists n, nodes !! i = Some n /\ x ∈ node_reads n)
  /\ (forall b i k, (Z.of_nat i, k) ∈ buffer_refs_of f b <-> exists n, nodes !! i = Some n /\ (b, k) ∈ node_refs n)
  /\ (forall b, length (buffer_refs_of f b) = length (filter (fun r => r.1 = b) (flat_map node_refs nodes)))
  /\ (forall a j m, nodes !! a = Some m -> (j < length nodes)%nat ->
       is_descendant_of f (Z.of_nat j) (Z.of_nat a) = Some (bool_decide (a <= j < a + size_of m)%nat)).
Proof.
  unfold f. rewrite build_columns by done. split; [done|]. split.
  { intros k. unfold has_kind. cbn [columns pf_kinds_present]. rewrite masks_spec.
    apply existsb_ext_all. intros n. apply kind_masks_distinct. }
  assert (forall (g : Node -> list string) x i, Z.of_nat i ∈ sites_of (rows g 0 nodes) x <->
    exists n, nodes !! i = Some n /\ x ∈ g n) as Hsites.
  { intros g x i. rewrite elem_of_sites, elem_of_rows. split.
    - intros (j & n & Hn & Hi & Hx). exists n. by replace i with j by lia.
    - intros (n & Hn & Hx). by exists i, n. }
  split; [apply Hsites|]. split; [apply Hsites|]. split; [apply Hsites|].
  split; [|split].
  - intros b i k. unfold buffer_refs_of. rewrite index_lookup, list_elem_of_fmap. cbn [columns pf_buffer_refs]. split.
    + intros ([j [b' k']] & [= <- ->] & [Hb H]%list_elem_of_filter). cbn in Hb. subst b'.
      apply elem_of_rows in H as (j' & n & Hn & Hi & Hr). exists n. by replace i with j' by lia.
    + intros (n & Hn & Hr). exists (Z.of_nat i, (b, k)). split; [done|]. apply list_elem_of_filter. split; [done|].
      apply elem_of_rows. by exists i, n.
  - intros b. fold nodes. unfold buffer_refs_of. rewrite index_lookup, length_map. cbn [columns pf_buffer_refs].
    rewrite <- (rows_values node_refs nodes 0). induction (rows node_refs 0 nodes) as [|r l IH]; [done|].
    cbn [map]. rewrite !filter_cons. repeat case_decide; cbn [length]; solve [by rewrite IH | exact IH | exfalso; tauto].
  - intros a j m Hm Hj. unfold is_descendant_of. cbn [columns pf_parent]. rewrite parents_list_length.
    by apply climb_spec.
Qed.
Lemma facts_exact_witness :
  buffer_refs_of (build looping) "b" = [(1, RefRead); (2, RefWrite)]
  /\ is_descendant_of (build looping) 2 1 = Some true /\ is_descendant_of (build looping) 3 1 = Some false
  /\ length (buffer_refs_of (build looping) "b") = 2%nat.
Proof.
  split; [vm_compute; reflexivity|].
  destruct (facts_exact looping ltac:(vm_compute; discriminate)) as (_ & _ & _ & _ & _ & _ & Hlen & Hdesc).
  split; [|split].
  - exact (Hdesc 1%nat 2%nat _ eq_refl ltac:(vm_compute; lia)).
  - exact (Hdesc 1%nat 3%nat _ eq_refl ltac:(vm_compute; lia)).
  - rewrite Hlen. reflexivity.
Defined.
End Facts.
