(* ===== verification/ValidateExpr.v ===== *)
(** The expression rules of the validator (vyre-foundation/src/validate: typecheck.rs,
    uniformity.rs, fusion_safety.rs, cast.rs, atomic_rules.rs, bytes_rejection.rs,
    depth.rs, expr_rules.rs, options.rs, report.rs).

    A check returns the diagnostics it pushes, in order, with shortened messages.  Type
    inference, uniformity and the collection of buffer accesses run on explicit stacks in
    the source; here as well, each proved equal to a recursion over the tree. *)

From S2P Require Import Prelude Spec IR RefValue RefMemory RefEval.

(** ** Options and reports *)

Record BackendCapabilities := mkCapabilities {
  bc_supports_subgroup_ops : bool;
  bc_supports_indirect_dispatch : bool;
  bc_supports_specialization_constants : bool;
  bc_supports_distributed_collectives : bool;
}.
Definition capabilities_default : BackendCapabilities := mkCapabilities false false false false.

(** A backend, by what its methods answer. *)
Record BackendValidationCapabilities := mkBackend {
  bv_backend_name : string;
  bv_supports_cast_target : DataType -> bool;
  bv_capabilities : BackendCapabilities;
}.

Record ValidationOptions := mkOptions {
  vo_backend : option BackendValidationCapabilities;
  vo_backend_capabilities : option BackendCapabilities;
  vo_dialect_lookup : option (string -> option OpDef);
  vo_allow_shadowing : bool;
}.
Definition options_default : ValidationOptions := mkOptions None None None false.
Definition with_backend (o : ValidationOptions) (b : BackendValidationCapabilities) : ValidationOptions :=
  mkOptions (Some b) (Some (bv_capabilities b)) (vo_dialect_lookup o) (vo_allow_shadowing o).
Definition with_backend_capabilities (o : ValidationOptions) (c : BackendCapabilities) : ValidationOptions :=
  mkOptions (vo_backend o) (Some c) (vo_dialect_lookup o) (vo_allow_shadowing o).
Definition with_dialect_lookup (o : ValidationOptions) (l : string -> option OpDef) : ValidationOptions :=
  mkOptions (vo_backend o) (vo_backend_capabilities o) (Some l) (vo_allow_shadowing o).
Definition with_shadowing (o : ValidationOptions) (allow : bool) : ValidationOptions :=
  mkOptions (vo_backend o) (vo_backend_capabilities o) (vo_dialect_lookup o) allow.
Definition supports_cast_target (o : ValidationOptions) (t : DataType) : bool :=
  match vo_backend o with None => true | Some b => bv_supports_cast_target b t end.
Definition requires_subgroup_ops (o : ValidationOptions) : bool :=
  match vo_backend_capabilities o with None => false | Some c => bc_supports_subgroup_ops c end.
Definition supports_distributed_collectives (o : ValidationOptions) : bool :=
  match vo_backend_capabilities o with None => false | Some c => bc_supports_distributed_collectives c end.

Record ValidationReport := mkReport { vr_errors : list string; vr_warnings : list string }.
Definition report_empty : ValidationReport := mkReport [] [].
Definition report_errors (l : list string) : ValidationReport := mkReport l [].
(** Diagnostics in the order they are pushed. *)
Definition report_app (a b : ValidationReport) : ValidationReport :=
  mkReport (vr_errors a ++ vr_errors b) (vr_warnings a ++ vr_warnings b).
Infix "+r+" := report_app (at level 60, right associativity).

(** [if bad { errors.push(message) }]. *)
Definition error_if (bad : bool) (message : string) : list string := if bad then [message] else [].

(** ** Scope *)

(** [Binding]. *)
Record VarBinding := mkVarBinding { vb_ty : DataType; vb_mutable : bool; vb_uniform : bool }.
Abbreviation Scope := (gmap string VarBinding).
Abbreviation Buffers := (gmap string BufferDecl).

Definition is_type (t u : DataType) : bool := bool_decide (t = u).
Definition type_in (l : list DataType) (t : DataType) : bool := bool_decide (t ∈ l).
(** [if let Some(ty) = ty { if bad(ty) { push } }]. *)
Definition check_type (ty : option DataType) (bad : DataType -> bool) (message : string) : list string :=
  match ty with Some t => error_if (bad t) message | None => [] end.
Definition check_types (l r : option DataType) (bad : DataType -> DataType -> bool) (message : string) : list string :=
  match l, r with Some t, Some u => error_if (bad t u) message | _, _ => [] end.

(** ** Type inference *)

Section Typing.
Context (buffers : Buffers) (scope : Scope).

Inductive TypeFrame := TfEnter (e : Expr) | TfBin | TfUn | TfSelect | TfFma.

(** Entering an expression: the frames it pushes, top first, and the value it pushes. *)
Definition enter_type (e : Expr) : list TypeFrame * list (option DataType) :=
  match e with
  | Expr.LitU32 _ | Expr.BufLen _ | Expr.InvocationId _ | Expr.WorkgroupId _ | Expr.LocalId _
  | Expr.SubgroupLocalId | Expr.SubgroupSize | Expr.Atomic _ _ _ _ _ _ => ([], [Some DataType.U32])
  | Expr.LitI32 _ => ([], [Some DataType.I32])
  | Expr.LitF32 _ => ([], [Some DataType.F32])
  | Expr.LitBool _ => ([], [Some DataType.Bool])
  | Expr.Var name => ([], [vb_ty <$> scope !! name])
  | Expr.Load buffer _ => ([], [bd_element <$> buffers !! buffer])
  | Expr.Call _ _ => ([], [None])
  | Expr.Cast target _ => ([], [Some target])
  | Expr.BinOp op l r =>
      match op with
      | BinOp.Add | BinOp.Sub | BinOp.Mul | BinOp.Div | BinOp.SaturatingAdd | BinOp.SaturatingSub
      | BinOp.SaturatingMul | BinOp.Min | BinOp.Max => ([TfEnter l; TfEnter r; TfBin], [])
      | BinOp.And | BinOp.Or | BinOp.Eq | BinOp.Ne | BinOp.Lt | BinOp.Gt | BinOp.Le | BinOp.Ge =>
          ([], [Some DataType.Bool])
      | _ => ([], [Some DataType.U32])
      end
  | Expr.UnOp op x =>
      match op with
      | UnOp.Negate | UnOp.BitNot | UnOp.Popcount | UnOp.Clz | UnOp.Ctz | UnOp.ReverseBits =>
          ([TfEnter x; TfUn], [])
      | UnOp.LogicalNot | UnOp.IsNan | UnOp.IsInf | UnOp.IsFinite => ([], [Some DataType.Bool])
      | UnOp.Sin | UnOp.Cos | UnOp.Exp | UnOp.Log | UnOp.Log2 | UnOp.Exp2 | UnOp.Tan | UnOp.Acos
      | UnOp.Asin | UnOp.Atan | UnOp.Tanh | UnOp.Sinh | UnOp.Cosh | UnOp.Abs | UnOp.Sqrt
      | UnOp.InverseSqrt | UnOp.Reciprocal | UnOp.Floor | UnOp.Ceil | UnOp.Round | UnOp.Trunc
      | UnOp.Sign => ([], [Some DataType.F32])
      | _ => ([], [None])
      end
  | Expr.Select _ t f => ([TfEnter t; TfEnter f; TfSelect], [])
  | Expr.Fma a b c => ([TfEnter a; TfEnter b; TfEnter c; TfFma], [])
  | Expr.SubgroupBallot _ => ([], [Some DataType.U32])
  | Expr.SubgroupShuffle value _ | Expr.SubgroupAdd value => ([TfEnter value; TfUn], [])
  | Expr.Opaque x => ([], [en_result_type x])
  end.

(** [values.pop().unwrap_or(None)]. *)
Definition pop_type (values : list (option DataType)) : option DataType * list (option DataType) :=
  match values with [] => (None, []) | v :: values => (v, values) end.
Definition bin_type (l r : option DataType) : option DataType :=
  if bool_decide (l = r) && bool_decide (l = Some DataType.F32) then Some DataType.F32
  else Some (default DataType.U32 (if bool_decide (l = r) then l else None)).
Definition select_type (t f : option DataType) : option DataType := if bool_decide (t = f) then t else None.
Definition fma_type (a b c : option DataType) : option DataType :=
  if bool_decide (a = Some DataType.F32) && bool_decide (b = Some DataType.F32)
     && bool_decide (c = Some DataType.F32) then Some DataType.F32 else None.

(** The loop; the value stack is listed top first. *)
Fixpoint type_loop (fuel : nat) (frames : list TypeFrame) (values : list (option DataType))
    : list (option DataType) :=
  match fuel, frames with
  | O, _ | _, [] => values
  | S fuel, frame :: frames =>
      match frame with
      | TfEnter e => let '(fs, vs) := enter_type e in type_loop fuel (fs ++ frames) (vs ++ values)
      | TfBin =>
          let '(r, values) := pop_type values in
          let '(l, values) := pop_type values in type_loop fuel frames (bin_type l r :: values)
      | TfUn => let '(x, values) := pop_type values in type_loop fuel frames (x :: values)
      | TfSelect =>
          let '(f, values) := pop_type values in
          let '(t, values) := pop_type values in type_loop fuel frames (select_type t f :: values)
      | TfFma =>
          let '(c, values) := pop_type values in
          let '(b, values) := pop_type values in
          let '(a, values) := pop_type values in type_loop fuel frames (fma_type a b c :: values)
      end
  end.
Definition expr_type (e : Expr) : option DataType :=
  fst (pop_type (type_loop (S (2 * expr_size e)) [TfEnter e] [])).

(** The recursion it computes. *)
Fixpoint infer (e : Expr) : option DataType :=
  match e with
  | Expr.BinOp op l r =>
      match op with
      | BinOp.Add | BinOp.Sub | BinOp.Mul | BinOp.Div | BinOp.SaturatingAdd | BinOp.SaturatingSub
      | BinOp.SaturatingMul | BinOp.Min | BinOp.Max => bin_type (infer l) (infer r)
      | _ => fst (pop_type (enter_type e).2)
      end
  | Expr.UnOp op x =>
      match op with
      | UnOp.Negate | UnOp.BitNot | UnOp.Popcount | UnOp.Clz | UnOp.Ctz | UnOp.ReverseBits => infer x
      | _ => fst (pop_type (enter_type e).2)
      end
  | Expr.Select _ t f => select_type (infer t) (infer f)
  | Expr.Fma a b c => fma_type (infer a) (infer b) (infer c)
  | Expr.SubgroupShuffle value _ | Expr.SubgroupAdd value => infer value
  | _ => fst (pop_type (enter_type e).2)
  end.

Local Ltac steps n := exists n; split; [lia|intros fuel frames values; cbn [Nat.add]; rewrite <- ?Nat.add_assoc;
  cbn [type_loop enter_type app];
  repeat match goal with E : forall fuel frames values, _ = _ |- _ => rewrite E; clear E end; reflexivity].
(** Running the frames of an expression pushes its type, in a number of steps that
    depends on the expression only. *)
Lemma type_loop_enter e : exists k, (k <= 2 * expr_size e)%nat /\ forall fuel frames values,
  type_loop (k + fuel) (TfEnter e :: frames) values = type_loop fuel frames (infer e :: values).
Proof.
  induction e using Expr_ind'; cbn [expr_size infer].
  all: try (steps 1%nat).
  - destruct IHe1 as (k1 & H1 & E1), IHe2 as (k2 & H2 & E2).
    destruct op; try (steps 1%nat); steps (S (k1 + (k2 + 1)))%nat.
  - destruct IHe as (k & Hk & E). destruct op; try (steps 1%nat); steps (S (k + 1))%nat.
  - destruct IHe2 as (k1 & H1 & E1), IHe3 as (k2 & H2 & E2). steps (S (k1 + (k2 + 1)))%nat.
  - destruct IHe1 as (k1 & H1 & E1), IHe2 as (k2 & H2 & E2), IHe3 as (k3 & H3 & E3).
    steps (S (k1 + (k2 + (k3 + 1))))%nat.
  - destruct IHe1 as (k & Hk & E). steps (S (k + 1))%nat.
  - destruct IHe as (k & Hk & E). steps (S (k + 1))%nat.
Qed.
Lemma expr_type_infer e : expr_type e = infer e.
Proof.
  unfold expr_type. destruct (type_loop_enter e) as (k & Hk & E).
  replace (S (2 * expr_size e)) with (k + (S (2 * expr_size e) - k))%nat by lia.
  rewrite E. by destruct (S (2 * expr_size e) - k)%nat.
Qed.
End Typing.

(** ** Stack walks over operands *)

(** A walk that pops an expression, acts on it and pushes operands; [act] returns [None]
    to stop at once.  The stack is listed top first. *)
Section Walk.
Context {S : Type} (act : Expr -> S -> option S) (operands : Expr -> list Expr).
Fixpoint walk_stack (fuel : nat) (stack : list Expr) (s : S) : option S :=
  match fuel, stack with
  | O, _ | _, [] => Some s
  | Datatypes.S fuel, e :: stack =>
      match act e s with None => None | Some s => walk_stack fuel (operands e ++ stack) s end
  end.

(** A walk that visits an expression and everything below it. *)
Context (below : Expr -> list Expr) (Hbelow : forall e, below e = e :: flat_map below (operands e)).
Context (Hsize : forall e, (length (below e) <= expr_size e)%nat).
Fixpoint walk_list (l : list Expr) (s : S) : option S :=
  match l with [] => Some s | e :: l => match act e s with None => None | Some s => walk_list l s end end.
Lemma walk_stack_list stack : forall fuel s, (length (flat_map below stack) <= fuel)%nat ->
  walk_stack fuel stack s = walk_list (flat_map below stack) s.
Proof.
  remember (length (flat_map below stack)) as n eqn:Hn. revert stack Hn.
  induction n as [n IH] using lt_wf_ind. intros [|e stack] Hn fuel s Hf.
  { by destruct fuel. }
  cbn [flat_map] in Hn. rewrite Hbelow in Hn. cbn [app length] in Hn. destruct fuel as [|fuel]; [lia|].
  cbn [walk_stack flat_map]. rewrite Hbelow. cbn [app walk_list]. destruct (act e s) as [s'|]; [|done].
  rewrite <- flat_map_app. eapply IH; [|reflexivity|]; rewrite flat_map_app; lia.
Qed.
Lemma walk_one e s : walk_stack (expr_size e) [e] s = walk_list (below e) s.
Proof.
  rewrite walk_stack_list; cbn [flat_map]; rewrite app_nil_r; [done|apply Hsize].
Qed.
End Walk.

(** ** Uniformity *)

Section Uniformity.
Context (scope : Scope).
(** The expressions that vary between the invocations of a workgroup by themselves. *)
Definition divergent_leaf (e : Expr) : bool :=
  match e with
  | Expr.LitU32 _ | Expr.LitI32 _ | Expr.LitF32 _ | Expr.LitBool _ | Expr.BufLen _ | Expr.WorkgroupId _ => false
  | Expr.Var name => negb (match scope !! name with Some b => vb_uniform b | None => false end)
  | Expr.BinOp _ _ _ | Expr.UnOp _ _ | Expr.Cast _ _ | Expr.Select _ _ _ | Expr.Fma _ _ _ => false
  | _ => true
  end.
Definition uniform_operands (e : Expr) : list Expr :=
  match e with
  | Expr.BinOp _ l r => [l; r]
  | Expr.UnOp _ x | Expr.Cast _ x => [x]
  | Expr.Select c t f => [c; t; f]
  | Expr.Fma a b c => [a; b; c]
  | _ => []
  end.
Definition is_uniform (e : Expr) : bool :=
  match walk_stack (fun e s => if divergent_leaf e then None else Some s) uniform_operands (expr_size e) [e] tt with
  | None => false
  | Some _ => true
  end.

Fixpoint uniform (e : Expr) : bool :=
  negb (divergent_leaf e)
  && match e with
     | Expr.BinOp _ l r => uniform l && uniform r
     | Expr.UnOp _ x | Expr.Cast _ x => uniform x
     | Expr.Select a b c | Expr.Fma a b c => uniform a && uniform b && uniform c
     | _ => true
     end.

Fixpoint uniform_below (e : Expr) : list Expr :=
  e :: match e with
       | Expr.BinOp _ l r => uniform_below l ++ uniform_below r
       | Expr.UnOp _ x | Expr.Cast _ x => uniform_below x
       | Expr.Select a b c | Expr.Fma a b c => uniform_below a ++ uniform_below b ++ uniform_below c
       | _ => []
       end.
Lemma uniform_list l : walk_list (fun e s => if divergent_leaf e then None else Some s) l tt
  = if forallb (fun e => negb (divergent_leaf e)) l then Some tt else None.
Proof. induction l as [|e l IH]; [done|]. cbn [walk_list forallb]. by destruct (divergent_leaf e). Qed.
Lemma is_uniform_rec e : is_uniform e = uniform e.
Proof.
  unfold is_uniform. rewrite (walk_one _ _ uniform_below).
  - rewrite uniform_list. transitivity (forallb (fun e => negb (divergent_leaf e)) (uniform_below e));
      [by destruct (forallb _ _)|].
    induction e using Expr_ind'; cbn [uniform_below forallb uniform]; rewrite ?forallb_app; try done;
      f_equal; rewrite <- ?andb_assoc; congruence.
  - intros x. destruct x; cbn [uniform_below uniform_operands flat_map]; rewrite ?app_nil_r; done.
  - intros x. induction x using Expr_ind'; cbn [uniform_below expr_size length]; rewrite ?length_app; lia.
Qed.
End Uniformity.

(** ** Buffer accesses *)

Record NodeAccesses := mkAccesses { na_reads : gset string; na_atomics : gset string }.
Definition accesses_default : NodeAccesses := mkAccesses ∅ ∅.
Definition add_read (b : string) (a : NodeAccesses) : NodeAccesses := mkAccesses ({[b]} ∪ na_reads a) (na_atomics a).
Definition add_atomic (b : string) (a : NodeAccesses) : NodeAccesses := mkAccesses (na_reads a) ({[b]} ∪ na_atomics a).

Definition record_access (e : Expr) (a : NodeAccesses) : NodeAccesses :=
  match e with
  | Expr.Load b _ | Expr.BufLen b => add_read b a
  | Expr.Atomic _ b _ _ _ _ => add_atomic b a
  | _ => a
  end.
(** The operands pushed, top first: [extend] leaves the last argument of a call on top. *)
Definition access_operands (e : Expr) : list Expr :=
  match e with
  | Expr.Load _ i => [i]
  | Expr.Atomic _ _ i x v _ => i :: match x with Some y => [y] | None => [] end ++ [v]
  | Expr.BinOp _ l r | Expr.SubgroupShuffle l r => [l; r]
  | Expr.UnOp _ x | Expr.Cast _ x | Expr.SubgroupBallot x | Expr.SubgroupAdd x => [x]
  | Expr.Call _ args => rev args
  | Expr.Fma a b c | Expr.Select a b c => [a; b; c]
  | _ => []
  end.
Definition collect_expr_accesses (e : Expr) (a : NodeAccesses) : NodeAccesses :=
  default a (walk_stack (fun e a => Some (record_access e a)) access_operands (expr_size e) [e] a).

(** ** Casts *)

Definition is_integer_like_scalar : DataType -> bool :=
  type_in [DataType.U8; DataType.U16; DataType.U32; DataType.U64; DataType.I8; DataType.I16; DataType.I32;
           DataType.I64; DataType.Bool].
Definition cast_is_valid (source target : DataType) : bool :=
  if is_type source target then true
  else if is_integer_like_scalar source && is_integer_like_scalar target then true
  else match source, target with
       | DataType.U32, DataType.Vec2U32 | DataType.U32, DataType.Vec4U32
       | DataType.I32, DataType.Vec2U32 | DataType.I32, DataType.Vec4U32
       | DataType.Bool, DataType.Vec2U32 | DataType.Bool, DataType.Vec4U32
       | DataType.U64, DataType.Vec2U32
       | DataType.Vec2U32, DataType.U32 | DataType.Vec2U32, DataType.I32 | DataType.Vec2U32, DataType.U64
       | DataType.Vec2U32, DataType.Bool
       | DataType.Vec4U32, DataType.U32 | DataType.Vec4U32, DataType.I32 | DataType.Vec4U32, DataType.Vec2U32
       | DataType.Vec4U32, DataType.Bool | DataType.Vec4U32, DataType.U64
       | DataType.U32, DataType.F32 | DataType.I32, DataType.F32 | DataType.Bool, DataType.F32
       | DataType.F32, DataType.U32 | DataType.F32, DataType.I32 | DataType.F32, DataType.Bool => true
       | _, _ => false
       end.
Definition integer_width_bits (t : DataType) : option Z :=
  match t with
  | DataType.U8 | DataType.I8 => Some 8
  | DataType.U16 | DataType.I16 => Some 16
  | DataType.U32 | DataType.I32 => Some 32
  | DataType.U64 | DataType.I64 => Some 64
  | _ => None
  end.
Definition cast_is_narrowing (source target : DataType) : bool :=
  match integer_width_bits source, integer_width_bits target with
  | Some s, Some t => t <? s
  | _, _ => false
  end.

(** ** Expression rules *)

Definition DEFAULT_MAX_EXPR_DEPTH : Z := 128.
Definition data_type_from_signature_spelling (spelling : string) : option DataType :=
  if decide (spelling ∈ ["u8"; "U8"]) then Some DataType.U8
  else if decide (spelling ∈ ["u16"; "U16"]) then Some DataType.U16
  else if decide (spelling ∈ ["u32"; "U32"]) then Some DataType.U32
  else if decide (spelling ∈ ["u64"; "U64"]) then Some DataType.U64
  else if decide (spelling ∈ ["i8"; "I8"]) then Some DataType.I8
  else if decide (spelling ∈ ["i16"; "I16"]) then Some DataType.I16
  else if decide (spelling ∈ ["i32"; "I32"]) then Some DataType.I32
  else if decide (spelling ∈ ["i64"; "I64"]) then Some DataType.I64
  else if decide (spelling ∈ ["f32"; "F32"]) then Some DataType.F32
  else if decide (spelling ∈ ["bool"; "Bool"]) then Some DataType.Bool
  else if decide (spelling ∈ ["bytes"; "Bytes"]) then Some DataType.Bytes
  else if decide (spelling ∈ ["vec2<u32>"; "Vec2U32"]) then Some DataType.Vec2U32
  else if decide (spelling ∈ ["vec4<u32>"; "Vec4U32"]) then Some DataType.Vec4U32
  else None.
Definition validate_expr_extension (x : ExprNode) : list string :=
  error_if (bool_decide (en_extension_kind x = "")) "V030: empty extension_kind"
  ++ error_if (bool_decide (en_debug_identity x = "")) "V030: empty debug_identity"
  ++ error_if (bool_decide (en_result_type x = None)) "V030: no static result type"
  ++ error_if (negb (en_valid x)) "V030: extension failed validation".
Fixpoint expr_is_static_zero (e : Expr) : bool :=
  match e with
  | Expr.LitU32 v | Expr.LitI32 v => v =? 0
  | Expr.LitF32 bits => Z.land bits 0x7FFFFFFF =? 0
  | Expr.Cast _ v => expr_is_static_zero v
  | _ => false
  end.

Section Rules.
Context (buffers : Buffers) (scope : Scope) (options : ValidationOptions).
(** The lookup installed in the process. *)
Context (dialect : option (string -> option OpDef)).
Abbreviation type_of := (expr_type buffers scope).
Abbreviation is_64 := (type_in [DataType.U64; DataType.I64]).
Abbreviation is_numeric := (type_in [DataType.U32; DataType.I32; DataType.F32]).
Abbreviation is_int := (type_in [DataType.U32; DataType.I32]).
Abbreviation is_logical := (type_in [DataType.U32; DataType.Bool]).

Definition validate_binop_operands (op : BinOp) (l r : Expr) : list string :=
  let lt := type_of l in
  let rt := type_of r in
  match op with
  | BinOp.Add | BinOp.Sub | BinOp.Mul | BinOp.Div | BinOp.SaturatingAdd | BinOp.SaturatingSub
  | BinOp.SaturatingMul | BinOp.Min | BinOp.Max | BinOp.AbsDiff =>
      error_if (bool_decide (op = BinOp.Div) && expr_is_static_zero r) "V044: statically-zero divisor"
      ++ check_types lt rt (fun t u => is_64 t || is_64 u) "64-bit integer arithmetic"
      ++ check_types lt rt (fun t u =>
           bool_decide (op ∈ [BinOp.SaturatingAdd; BinOp.SaturatingSub; BinOp.SaturatingMul])
           && (negb (is_type t DataType.U32) || negb (is_type u DataType.U32))) "saturating arithmetic is u32 only"
      ++ check_types lt rt (fun t u =>
           bool_decide (op = BinOp.AbsDiff) && (is_type t DataType.I32 || is_type u DataType.I32)) "AbsDiff on i32"
      ++ check_type lt (fun t => is_type t DataType.Bool) "boolean operand of arithmetic"
      ++ check_type rt (fun t => is_type t DataType.Bool) "boolean operand of arithmetic"
      ++ check_types lt rt (fun t u => is_numeric t && is_numeric u && negb (is_type t u))
           "mismatched numeric types"
  | BinOp.Mod =>
      error_if (expr_is_static_zero r) "V044: statically-zero divisor"
      ++ check_type lt (fun t => negb (is_int t)) "operand of Mod is not an integer"
      ++ check_type rt (fun t => negb (is_int t)) "operand of Mod is not an integer"
      ++ check_types lt rt (fun t u => is_int t && is_int u && negb (is_type t u)) "mismatched integer types"
  | BinOp.BitAnd | BinOp.BitOr | BinOp.BitXor =>
      check_types lt rt (fun t _ => negb (is_int t)) "left operand is not an integer"
      ++ check_types lt rt (fun _ u => negb (is_int u)) "right operand is not an integer"
      ++ check_types lt rt (fun t u => negb (is_type t u)) "mismatched integer types"
  | BinOp.Shl | BinOp.Shr | BinOp.RotateLeft | BinOp.RotateRight =>
      check_type lt (fun t => negb (is_type t DataType.U32)) "shift operand is not u32"
      ++ check_type rt (fun t => negb (is_type t DataType.U32)) "shift operand is not u32"
  | BinOp.And | BinOp.Or =>
      check_type lt (fun t => negb (is_logical t)) "logical operand is not u32 or bool"
      ++ check_type rt (fun t => negb (is_logical t)) "logical operand is not u32 or bool"
  | BinOp.Eq | BinOp.Ne | BinOp.Lt | BinOp.Gt | BinOp.Le | BinOp.Ge =>
      check_types lt rt (fun t u => negb (is_type t u)) "mismatched comparison types"
  | BinOp.Shuffle | BinOp.Ballot | BinOp.WaveReduce | BinOp.WaveBroadcast =>
      ["operation requires subgroup semantics"]
  | _ => []
  end.

Definition validate_unop_operand (op : UnOp) (x : Expr) : list string :=
  match type_of x with
  | None => []
  | Some t =>
      match op with
      | UnOp.Negate =>
          if is_type t DataType.I32 then ["Negate on i32"]
          else error_if (negb (type_in [DataType.U32; DataType.F32] t)) "operand of Negate"
      | UnOp.LogicalNot => error_if (negb (is_logical t)) "operand of LogicalNot"
      | UnOp.BitNot | UnOp.Popcount | UnOp.Clz | UnOp.Ctz | UnOp.ReverseBits =>
          error_if (negb (type_in [DataType.U32; DataType.I32; DataType.U64] t)) "operand is not an integer"
      | UnOp.Sin | UnOp.Cos | UnOp.Exp | UnOp.Log | UnOp.Log2 | UnOp.Exp2 | UnOp.Tan | UnOp.Acos
      | UnOp.Asin | UnOp.Atan | UnOp.Tanh | UnOp.Sinh | UnOp.Cosh | UnOp.Abs | UnOp.Sqrt
      | UnOp.InverseSqrt | UnOp.Reciprocal | UnOp.Floor | UnOp.Ceil | UnOp.Round | UnOp.Trunc
      | UnOp.Sign | UnOp.IsNan | UnOp.IsInf | UnOp.IsFinite =>
          error_if (negb (is_type t DataType.F32)) "operand is not f32"
      | _ => ["unary operation is not recognized"]
      end
  end.

Definition check_store (buffer : string) : list string :=
  match buffers !! buffer with
  | Some b =>
      error_if (negb (bool_decide (bd_access b ∈ [BufferAccess.ReadWrite; BufferAccess.WriteOnly; BufferAccess.Workgroup])))
        "store to non-writable buffer"
      ++ error_if (is_type (bd_element b) DataType.Bytes && negb (bd_bytes_extraction b)) "V013: store to bytes buffer"
  | None => ["store to unknown buffer"]
  end.
Definition check_load (buffer : string) : list string :=
  match buffers !! buffer with
  | None => ["load from unknown buffer"]
  | Some b => error_if (is_type (bd_element b) DataType.Bytes && negb (bd_bytes_extraction b)) "V013: load from bytes buffer"
  end.

Definition validate_atomic (op : AtomicOp) (buffer : string) (index : Expr) (expected : option Expr) (value : Expr)
    (ordering : MemoryOrdering) : list string :=
  error_if (negb (MemoryOrdering.is_valid_for_atomic_rmw ordering)) "V042: invalid memory ordering"
  ++ check_type (type_of index) (fun t => negb (is_type t DataType.U32)) "V027: atomic index is not u32"
  ++ match buffers !! buffer with
     | Some b =>
         match bd_access b with
         | BufferAccess.ReadWrite => []
         | BufferAccess.Workgroup => ["V025: atomic on workgroup buffer"]
         | BufferAccess.ReadOnly => ["V009: atomic targets read-only buffer"]
         | BufferAccess.Uniform => ["V009: atomic targets uniform buffer"]
         | BufferAccess.WriteOnly => ["V009: atomic targets unsupported buffer access"]
         end
         ++ error_if (is_type (bd_element b) DataType.Bytes) "V013: atomic on bytes buffer"
         ++ error_if (negb (is_type (bd_element b) DataType.U32)) "V014: atomic on non-u32 element type"
         ++ check_type (type_of value) (fun t => negb (is_type t DataType.U32)) "atomic value is not u32"
         ++ match op, expected with
            | AtomicOp.CompareExchange, Some x =>
                check_type (type_of x) (fun t => negb (is_type t DataType.U32)) "compare-exchange expected is not u32"
            | AtomicOp.CompareExchange, None => ["compare-exchange atomic is missing expected value"]
            | _, Some _ => ["non-compare-exchange atomic includes an expected value"]
            | _, None => []
            end
     | None => ["atomic on unknown buffer"]
     end.

(** The loop of [validate_call_signature] over the zipped arguments and parameters. *)
Definition validate_argument (entry : Expr * string) : list string :=
  match data_type_from_signature_spelling entry.2 with
  | None => ["V021: unknown type spelling"]
  | Some expected => check_type (type_of entry.1) (fun t => negb (is_type t expected)) "V022: argument type"
  end.
Definition validate_call_signature (def : OpDef) (args : list Expr) : list string :=
  if negb (length args =? length (op_inputs def))%nat then ["V020: wrong number of arguments"]
  else flat_map validate_argument (zip args (op_inputs def)).
Definition validate_call (op_id : string) (args : list Expr) : list string :=
  match match vo_dialect_lookup options with Some l => Some l | None => dialect end with
  | None => []
  | Some lookup =>
      match lookup op_id with
      | None => ["V016: unknown op"]
      | Some def => validate_call_signature def args
      end
  end.
Definition validate_subgroup_expr_support : list string :=
  error_if (negb (requires_subgroup_ops options)) "V041: subgroup expressions require backend support".
Definition validate_cast (target : DataType) (value : Expr) : ValidationReport :=
  report_errors (error_if (negb (supports_cast_target options target)) "V034: unsupported cast target")
  +r+ match type_of value with
      | None => report_empty
      | Some src =>
          if is_type target DataType.Bytes && negb (is_type src DataType.Bytes)
          then report_errors ["V023: cast to Bytes"]
          else if negb (cast_is_valid src target) then report_errors ["V012: unsupported cast"]
          else if cast_is_narrowing src target then mkReport [] ["V035: narrowing cast"]
          else report_empty
      end.

Fixpoint validate_expr (e : Expr) (depth : Z) : ValidationReport :=
  if DEFAULT_MAX_EXPR_DEPTH <? depth then report_errors ["V033: expression nesting depth"]
  else
    let sub e := validate_expr e (depth + 1) in
    match e with
    | Expr.LitU32 _ | Expr.LitI32 _ | Expr.LitF32 _ | Expr.LitBool _ => report_empty
    | Expr.Var name =>
        report_errors (error_if (bool_decide (scope !! name = None)) "reference to undeclared variable")
    | Expr.Load buffer index => report_errors (check_load buffer) +r+ sub index
    | Expr.BufLen buffer =>
        report_errors (error_if (bool_decide (buffers !! buffer = None)) "buflen of unknown buffer")
    | Expr.InvocationId axis | Expr.WorkgroupId axis | Expr.LocalId axis =>
        report_errors (error_if (2 <? axis) "axis out of range")
    | Expr.BinOp op l r => sub l +r+ sub r +r+ report_errors (validate_binop_operands op l r)
    | Expr.UnOp op x => sub x +r+ report_errors (validate_unop_operand op x)
    | Expr.Call op_id args =>
        foldr (fun a r => sub a +r+ r) (report_errors (validate_call op_id args)) args
    | Expr.Fma a b c =>
        sub a +r+ sub b +r+ sub c
        +r+ report_errors (flat_map (fun x => check_type (type_of x) (fun t => negb (is_type t DataType.F32))
                                                "V028: Fma operand is not f32") [a; b; c])
    | Expr.Select cond t f =>
        sub cond +r+ sub t +r+ sub f
        +r+ report_errors (check_types (type_of t) (type_of f) (fun t u => negb (is_type t u)) "V029: Select branches")
    | Expr.Cast target value => sub value +r+ validate_cast target value
    | Expr.Atomic op buffer index expected value ordering =>
        report_errors (validate_atomic op buffer index expected value ordering)
        +r+ sub index +r+ match expected with Some x => sub x | None => report_empty end +r+ sub value
    | Expr.SubgroupBallot cond => sub cond +r+ report_errors validate_subgroup_expr_support
    | Expr.SubgroupShuffle value lane => sub value +r+ sub lane +r+ report_errors validate_subgroup_expr_support
    | Expr.SubgroupAdd value => sub value +r+ report_errors validate_subgroup_expr_support
    | Expr.SubgroupLocalId | Expr.SubgroupSize => report_errors validate_subgroup_expr_support
    | Expr.Opaque x => report_errors (validate_expr_extension x)
    end.
End Rules.
