(* ===== verification/Validate.v ===== *)
(** The validator (vyre-foundation/src/validate: validate.rs, nodes.rs, binding.rs,
    shadowing.rs, barrier.rs, depth.rs, linear_type.rs, shape_predicate.rs;
    algebra/composition.rs; the top-level region rules of
    ir_inner/model/program/meta.rs).

    Statements are traversed by an explicit stack of frames over one state: the scope
    with its undo logs, the alias sets of the current sequence, the limits and the
    diagnostics.  ValidateSound.v proves the traversal equal to a recursion over the
    statement tree with the same state. *)

From stdpp Require Import sorting.
From S2P Require Import Prelude Spec IR ProgramStats Collectives ProgramFacts RefEval ValidateExpr.

(** ** Top-level regions *)

Definition ROOT_REGION_GENERATOR : string := "vyre.program.root".

Definition is_top_level_region_wrapped (p : Program) : bool :=
  negb (match entry p with [] => true | _ => false end) && forallb is_region (entry p).
Definition top_level_region_violation (p : Program) : option string :=
  match entry p with
  | [] => Some "program entry has no top-level Region"
  | _ => match list_find (fun n => is_region n = false) (entry p) with
         | Some _ => Some "program entry node is not a Region"
         | None => None
         end
  end.
Definition entry_needs_root_region (nodes : list Node) : bool :=
  match nodes with [] => true | _ => existsb (fun n => negb (is_region n)) nodes end.
Definition wrap_entry (nodes : list Node) : list Node :=
  if entry_needs_root_region nodes then [Node.Region ROOT_REGION_GENERATOR None nodes] else nodes.
Definition map_entry (p : Program) (f : list Node -> list Node) : Program :=
  mkProgram (entry_op_id p) (buffers p) (workgroup_size p) (f (entry p)) (non_composable_with_self p).
Definition reconcile_runnable_top_level (p : Program) : Program :=
  if is_top_level_region_wrapped p then p else map_entry p wrap_entry.

(** ** State *)

Record LimitState := mkLimits {
  li_node_count : Z; li_nesting_reported : bool; li_node_count_reported : bool;
}.
Definition limits_default : LimitState := mkLimits 0 false false.

(** The undo log of a scope: each entry the name and what it was bound to, oldest first. *)
Abbreviation ScopeLog := (list (string * option VarBinding)).
Record ScopeFrame := mkScopeFrame {
  sf_scope_log : ScopeLog;
  sf_region_bindings : gset string;
  sf_divergent : bool;
  sf_depth : Z;
  sf_nodes : list Node;
}.

(** Stacks are listed top first. *)
Record PreorderValidator := mkValidator {
  pv_scope : Scope;
  pv_scope_stack : list ScopeFrame;
  pv_limits : LimitState;
  pv_alias_reads : gset string;
  pv_alias_atomics : gset string;
  pv_alias_stack : list (gset string * gset string);
  pv_pending : list NodeAccesses;
  pv_self_comp : gmap string Z;
  pv_report : ValidationReport;
}.
Definition validator_new : PreorderValidator :=
  mkValidator ∅ [] limits_default ∅ ∅ [] [] ∅ report_empty.

Definition with_scope (s : Scope) (v : PreorderValidator) : PreorderValidator :=
  mkValidator s (pv_scope_stack v) (pv_limits v) (pv_alias_reads v) (pv_alias_atomics v) (pv_alias_stack v)
    (pv_pending v) (pv_self_comp v) (pv_report v).
Definition with_scope_stack (s : list ScopeFrame) (v : PreorderValidator) : PreorderValidator :=
  mkValidator (pv_scope v) s (pv_limits v) (pv_alias_reads v) (pv_alias_atomics v) (pv_alias_stack v)
    (pv_pending v) (pv_self_comp v) (pv_report v).
Definition with_limits (l : LimitState) (v : PreorderValidator) : PreorderValidator :=
  mkValidator (pv_scope v) (pv_scope_stack v) l (pv_alias_reads v) (pv_alias_atomics v) (pv_alias_stack v)
    (pv_pending v) (pv_self_comp v) (pv_report v).
Definition with_alias (reads atomics : gset string) (v : PreorderValidator) : PreorderValidator :=
  mkValidator (pv_scope v) (pv_scope_stack v) (pv_limits v) reads atomics (pv_alias_stack v)
    (pv_pending v) (pv_self_comp v) (pv_report v).
Definition with_alias_stack (s : list (gset string * gset string)) (v : PreorderValidator) : PreorderValidator :=
  mkValidator (pv_scope v) (pv_scope_stack v) (pv_limits v) (pv_alias_reads v) (pv_alias_atomics v) s
    (pv_pending v) (pv_self_comp v) (pv_report v).
Definition with_pending_accesses (l : list NodeAccesses) (v : PreorderValidator) : PreorderValidator :=
  mkValidator (pv_scope v) (pv_scope_stack v) (pv_limits v) (pv_alias_reads v) (pv_alias_atomics v) (pv_alias_stack v)
    l (pv_self_comp v) (pv_report v).
Definition with_self_comp (m : gmap string Z) (v : PreorderValidator) : PreorderValidator :=
  mkValidator (pv_scope v) (pv_scope_stack v) (pv_limits v) (pv_alias_reads v) (pv_alias_atomics v) (pv_alias_stack v)
    (pv_pending v) m (pv_report v).
Definition add_report (r : ValidationReport) (v : PreorderValidator) : PreorderValidator :=
  mkValidator (pv_scope v) (pv_scope_stack v) (pv_limits v) (pv_alias_reads v) (pv_alias_atomics v) (pv_alias_stack v)
    (pv_pending v) (pv_self_comp v) (pv_report v +r+ r).
Definition add_errors (l : list string) : PreorderValidator -> PreorderValidator := add_report (report_errors l).

(** ** Limits, scopes, hazards *)

Definition DEFAULT_MAX_NESTING_DEPTH : Z := 64.
Definition DEFAULT_MAX_NODE_COUNT : Z := 8192.

Definition check_limits (depth : Z) (v : PreorderValidator) : PreorderValidator :=
  let l := pv_limits v in
  let count := sat_add USIZE_MAX (li_node_count l) 1 in
  let too_many := (DEFAULT_MAX_NODE_COUNT <? count) && negb (li_node_count_reported l) in
  let too_deep := (DEFAULT_MAX_NESTING_DEPTH <? depth) && negb (li_nesting_reported l) in
  add_errors (error_if too_many "V019: program node count exceeds limit"
              ++ error_if too_deep "V018: program nesting depth exceeds limit")
    (with_limits (mkLimits count (li_nesting_reported l || too_deep) (li_node_count_reported l || too_many)) v).

Definition insert_binding (scope : Scope) (name : string) (b : VarBinding) (log : ScopeLog) : Scope * ScopeLog :=
  (<[name := b]> scope, log ++ [(name, scope !! name)]).
(** The log is popped from its end. *)
Definition restore_scope (scope : Scope) (log : ScopeLog) : Scope :=
  foldr (fun entry scope => match entry.2 with
                            | Some b => <[entry.1 := b]> scope
                            | None => delete entry.1 scope
                            end) scope log.

Definition check_sibling_duplicate (name : string) (bindings : gset string) (allow : bool)
    : bool * gset string * list string :=
  if negb (bool_decide (name ∈ bindings)) then (false, {[name]} ∪ bindings, [])
  else if allow then (false, bindings, [])
  else (true, bindings, ["V032: duplicate sibling let binding"]).
Definition check_barrier (divergent : bool) (ordering : MemoryOrdering) : list string :=
  error_if divergent "V010: barrier may be reached by only part of a workgroup"
  ++ error_if (negb (MemoryOrdering.is_valid_for_barrier ordering)) "V043: barrier memory ordering".
Definition check_constant_store_index (b : BufferDecl) (index : Expr) : list string :=
  if bd_count b =? 0 then []
  else match index with
       | Expr.LitU32 v => error_if (bd_count b <=? v) "V036: store index overflows buffer"
       | Expr.LitI32 v => error_if ((v <? 0) || (bd_count b <=? v)) "V036: store index overflows buffer"
       | _ => []
       end.

Definition string_le (a b : string) : Prop := String.leb a b = true.
#[export] Instance string_le_dec : RelDecision string_le.
Proof. intros a b. unfold string_le. apply _. Defined.
Definition sorted (s : gset string) : list string := merge_sort string_le (elements s).

Definition alias_hazards (a : NodeAccesses) (v : PreorderValidator) : list string :=
  sorted (na_atomics a ∩ pv_alias_reads v ∪ na_reads a ∩ pv_alias_atomics v).
Definition report_alias_hazards (a : NodeAccesses) (v : PreorderValidator) : PreorderValidator :=
  add_errors (map (fun b => "fusion hazard on buffer " +:+ b) (alias_hazards a v)) v.
Definition extend_alias (a : NodeAccesses) (v : PreorderValidator) : PreorderValidator :=
  with_alias (pv_alias_reads v ∪ na_reads a) (pv_alias_atomics v ∪ na_atomics a) v.
Definition touch (a : NodeAccesses) (v : PreorderValidator) : PreorderValidator :=
  extend_alias a (report_alias_hazards a v).

Definition current_divergent (v : PreorderValidator) : bool :=
  match pv_scope_stack v with f :: _ => sf_divergent f | [] => false end.
Definition current_depth (v : PreorderValidator) : Z :=
  match pv_scope_stack v with f :: _ => sf_depth f | [] => 0 end.

Definition SELF_EXCLUSIVE_REGION_SUFFIX : string := "#self-exclusive".
(** [str::strip_suffix]. *)
Definition self_exclusive_region_key (generator : string) : option string :=
  let n := (String.length generator - String.length SELF_EXCLUSIVE_REGION_SUFFIX)%nat in
  if decide (generator = String.substring 0 n generator +:+ SELF_EXCLUSIVE_REGION_SUFFIX)
  then Some (String.substring 0 n generator) else None.

(** ** Visitors *)

Section Visit.
Context (options : ValidationOptions) (dialect : option (string -> option OpDef)) (decls : Buffers).
Abbreviation type_of := (fun v => expr_type decls (pv_scope v)).

Definition visit_expr (e : Expr) (v : PreorderValidator) : PreorderValidator :=
  add_report (validate_expr decls (pv_scope v) options dialect e 0) v.
Definition limits_here (v : PreorderValidator) : PreorderValidator := check_limits (current_depth v) v.

Definition visit_let (name : string) (value : Expr) (v : PreorderValidator) : PreorderValidator :=
  let v := visit_expr value (limits_here v) in
  match pv_scope_stack v with
  | [] => add_errors ["malformed validation frame stream: let binding outside any scope"] v
  | frame :: frames =>
      let '(duplicate, bindings, errs) := check_sibling_duplicate name (sf_region_bindings frame) false in
      let errs := errs ++ error_if (negb duplicate && negb (vo_allow_shadowing options)
                                    && bool_decide (is_Some (pv_scope v !! name)))
                            "V008: duplicate local binding shadows an outer scope" in
      let ty := default DataType.U32 (type_of v value) in
      let uniform := is_uniform (pv_scope v) value in
      let '(scope, log) := insert_binding (pv_scope v) name (mkVarBinding ty true uniform) (sf_scope_log frame) in
      touch (collect_expr_accesses value accesses_default)
        (with_scope_stack (mkScopeFrame log bindings (sf_divergent frame) (sf_depth frame) (sf_nodes frame) :: frames)
           (with_scope scope (add_errors errs v)))
  end.

Definition assign_compatible (value_ty elem : DataType) : bool :=
  is_type value_ty elem
  || match value_ty, elem with
     | DataType.U32, DataType.Bytes | DataType.U32, DataType.Bool
     | DataType.Bytes, DataType.U32 | DataType.Bool, DataType.U32 | DataType.F32, DataType.F32 => true
     | _, _ => false
     end.
Definition check_assign (name : string) (value : Expr) (v : PreorderValidator) : list string :=
  match pv_scope v !! name with
  | Some b =>
      error_if (negb (vb_mutable b)) "V011: assignment to loop variable"
      ++ check_type (type_of v value) (fun t => negb (is_type t (vb_ty b))) "V045: type of assignment"
  | None =>
      match decls !! name with
      | Some b =>
          error_if (negb (bool_decide (bd_access b = BufferAccess.ReadWrite)))
            "assignment to buffer requires read-write storage"
          ++ check_type (type_of v value) (fun t => negb (assign_compatible t (bd_element b)))
               "V045: type of assignment to buffer"
      | None => ["assignment to undeclared variable"]
      end
  end.
Definition taint (name : string) (value : Expr) (v : PreorderValidator) : PreorderValidator :=
  match pv_scope v !! name with
  | Some b =>
      with_scope (<[name := mkVarBinding (vb_ty b) (vb_mutable b) (vb_uniform b && is_uniform (pv_scope v) value)]>
                    (pv_scope v)) v
  | None => v
  end.
Definition visit_assign (name : string) (value : Expr) (v : PreorderValidator) : PreorderValidator :=
  let v := limits_here v in
  let v := visit_expr value (add_errors (check_assign name value v) v) in
  touch (collect_expr_accesses value accesses_default) (taint name value v).

Definition store_compatible (value_ty elem : DataType) : bool :=
  is_type value_ty elem
  || match value_ty, elem with DataType.U32, DataType.Bytes | DataType.Bytes, DataType.U32 => true | _, _ => false end
  || match value_ty, elem with DataType.F32, DataType.F32 => true | _, _ => false end.
Definition visit_store (buffer : string) (index value : Expr) (v : PreorderValidator) : PreorderValidator :=
  let v := limits_here v in
  let v := add_errors (check_store decls buffer
    ++ match decls !! buffer with
       | Some b =>
           check_type (type_of v value) (fun t => negb (store_compatible t (bd_element b))) "type of stored value"
           ++ check_type (type_of v index) (fun t => negb (is_type t DataType.U32)) "store index is not u32"
           ++ check_constant_store_index b index
       | None => []
       end) v in
  touch (collect_expr_accesses value (collect_expr_accesses index (add_read buffer accesses_default)))
    (visit_expr value (visit_expr index v)).

(** The accesses of a condition or of bounds count for the sequence after the nested
    statements. *)
Definition postpone (a : NodeAccesses) (v : PreorderValidator) : PreorderValidator :=
  with_pending_accesses (a :: pv_pending v) (report_alias_hazards a v).
Definition visit_if (cond : Expr) (v : PreorderValidator) : PreorderValidator :=
  let v := visit_expr cond (limits_here v) in
  let v := add_errors (check_type (type_of v cond) (fun t => negb (type_in [DataType.U32; DataType.Bool] t))
                         "condition is not u32 or bool") v in
  postpone (collect_expr_accesses cond accesses_default) v.
Definition visit_loop (var : string) (from to : Expr) (v : PreorderValidator) : PreorderValidator :=
  let v := visit_expr to (visit_expr from (limits_here v)) in
  let v := add_errors (check_type (type_of v from) (fun t => negb (is_type t DataType.U32)) "loop bound is not u32"
    ++ check_type (type_of v to) (fun t => negb (is_type t DataType.U32)) "loop bound is not u32"
    ++ error_if (negb (vo_allow_shadowing options) && bool_decide (is_Some (pv_scope v !! var)))
         "V008: duplicate local binding shadows an outer scope") v in
  postpone (collect_expr_accesses to (collect_expr_accesses from accesses_default)) v.

Definition visit_indirect_dispatch (count_buffer : string) (count_offset : Z) (v : PreorderValidator)
    : PreorderValidator :=
  touch (add_read count_buffer accesses_default)
    (add_errors (error_if (negb (count_offset mod 4 =? 0)) "indirect dispatch offset is not aligned"
                 ++ error_if (bool_decide (decls !! count_buffer = None)) "indirect dispatch references unknown buffer")
       (limits_here v)).
Definition check_tag (tag : string) : list string := error_if (bool_decide (tag = "")) "async stream tag is empty".
Definition visit_async (source destination tag : string) (v : PreorderValidator) : PreorderValidator :=
  touch (add_read destination (add_read source accesses_default)) (add_errors (check_tag tag) (limits_here v)).

Definition validate_collective_buffer (name : string) : list string :=
  match decls !! name with
  | None => ["V046: collective references unknown buffer"]
  | Some b => error_if (bool_decide (bd_access b = BufferAccess.Workgroup)) "V046: collective buffer is workgroup-local"
  end.
Definition collective_support : list string :=
  error_if (negb (supports_distributed_collectives options)) "V046: collectives require backend support".
Definition visit_in_place (buffer : string) (v : PreorderValidator) : PreorderValidator :=
  touch (add_read buffer accesses_default)
    (add_errors (collective_support ++ validate_collective_buffer buffer) (limits_here v)).
Definition visit_exchange (input output : string) (v : PreorderValidator) : PreorderValidator :=
  touch (add_read output (add_read input accesses_default))
    (add_errors (collective_support ++ validate_collective_buffer input ++ validate_collective_buffer output
       ++ match decls !! input, decls !! output with
          | Some a, Some b => error_if (negb (is_type (bd_element a) (bd_element b))) "V046: collective element mismatch"
          | _, _ => []
          end) (limits_here v)).

Definition visit_barrier (ordering : MemoryOrdering) (v : PreorderValidator) : PreorderValidator :=
  let v := limits_here v in
  with_alias ∅ ∅ (add_errors (check_barrier (current_divergent v) ordering) v).
Definition visit_region (generator : string) (v : PreorderValidator) : PreorderValidator :=
  let v := limits_here v in
  match self_exclusive_region_key generator with
  | Some base => with_self_comp (<[base := default 0 (pv_self_comp v !! base) + 1]> (pv_self_comp v)) v
  | None => v
  end.
Definition visit_opaque (x : NodeExtension) (v : PreorderValidator) : PreorderValidator :=
  add_errors (error_if (bool_decide (ne_extension_kind x = "")) "V031: empty extension_kind"
              ++ error_if (bool_decide (ne_debug_identity x = "")) "V031: empty debug_identity"
              ++ error_if (negb (ne_valid x)) "V031: extension failed validation") (limits_here v).

Definition dispatch_node (n : Node) (v : PreorderValidator) : PreorderValidator :=
  match n with
  | Node.Let name value => visit_let name value v
  | Node.Assign name value => visit_assign name value v
  | Node.Store buffer index value => visit_store buffer index value v
  | Node.If cond _ _ => visit_if cond v
  | Node.Loop var from to _ => visit_loop var from to v
  | Node.IndirectDispatch count_buffer count_offset => visit_indirect_dispatch count_buffer count_offset v
  | Node.AsyncLoad source destination _ _ tag | Node.AsyncStore source destination _ _ tag =>
      visit_async source destination tag v
  | Node.AsyncWait tag => add_errors (check_tag tag) (limits_here v)
  | Node.Trap _ _ | Node.Resume _ | Node.Return | Node.Block _ => limits_here v
  | Node.AllReduce buffer _ _ | Node.Broadcast buffer _ _ => visit_in_place buffer v
  | Node.AllGather input output _ | Node.ReduceScatter input output _ _ => visit_exchange input output v
  | Node.Barrier ordering => visit_barrier ordering v
  | Node.Region generator _ _ => visit_region generator v
  | Node.Opaque x => visit_opaque x v
  end.
End Visit.

(** ** The traversal *)

Inductive VFrame :=
| VfChild (n : Node)
| VfPost
| VfPushScope (divergent : bool) (depth : Z) (nodes : list Node)
| VfPopScope
| VfPushAlias
| VfPopAlias
| VfInsertLoopVar (var : string) (uniform : bool).

Definition push_scope_frame (divergent : bool) (depth : Z) (nodes : list Node) (v : PreorderValidator)
    : PreorderValidator := with_scope_stack (mkScopeFrame [] ∅ divergent depth nodes :: pv_scope_stack v) v.
Definition is_return (n : Node) : bool := match n with Node.Return => true | _ => false end.
(** A [return] that is not the last statement of its list. *)
Definition return_not_last (nodes : list Node) : bool :=
  match list_find (fun n => is_return n = true) nodes with
  | Some (pos, _) => negb (pos =? length nodes - 1)%nat
  | None => false
  end.
Definition pop_scope_frame (v : PreorderValidator) : PreorderValidator :=
  match pv_scope_stack v with
  | [] => add_errors ["malformed validation frame stream: PopScope without matching PushScope"] v
  | frame :: frames =>
      add_errors (error_if (return_not_last (sf_nodes frame)) "unreachable statements after return")
        (with_scope (restore_scope (pv_scope v) (sf_scope_log frame)) (with_scope_stack frames v))
  end.
Definition push_alias (v : PreorderValidator) : PreorderValidator :=
  with_alias ∅ ∅ (with_alias_stack ((pv_alias_reads v, pv_alias_atomics v) :: pv_alias_stack v) v).
Definition pop_alias (v : PreorderValidator) : PreorderValidator :=
  match pv_alias_stack v with
  | [] => add_errors ["malformed validation frame stream: PopAlias without matching PushAlias"] v
  | (reads, atomics) :: frames => with_alias reads atomics (with_alias_stack frames v)
  end.
Definition post (v : PreorderValidator) : PreorderValidator :=
  match pv_pending v with
  | [] => v
  | a :: pending => extend_alias a (with_pending_accesses pending v)
  end.
Definition insert_loop_var (var : string) (uniform : bool) (v : PreorderValidator) : PreorderValidator :=
  match pv_scope_stack v with
  | [] => add_errors ["malformed validation frame stream: loop variable outside any scope"] v
  | frame :: frames =>
      let '(scope, log) := insert_binding (pv_scope v) var (mkVarBinding DataType.U32 false uniform) (sf_scope_log frame) in
      with_scope_stack (mkScopeFrame log (sf_region_bindings frame) (sf_divergent frame) (sf_depth frame) (sf_nodes frame)
                          :: frames) (with_scope scope v)
  end.

(** The frames of a nested sequence, top first. *)
Definition nested_frames (nodes : list Node) (divergent : bool) (depth : Z) (pre : list VFrame) : list VFrame :=
  VfPushScope divergent depth nodes :: VfPushAlias :: pre ++ map VfChild nodes ++ [VfPopAlias; VfPopScope].

Section Run.
Context (options : ValidationOptions) (dialect : option (string -> option OpDef)) (decls : Buffers).

(** What a statement pushes once it has been visited. *)
Definition child_frames (n : Node) (v : PreorderValidator) : list VFrame :=
  let divergent := current_divergent v in
  let depth := current_depth v + 1 in
  match n with
  | Node.If cond then_ otherwise =>
      let branch_divergent := divergent || negb (is_uniform (pv_scope v) cond) in
      nested_frames then_ branch_divergent depth [] ++ nested_frames otherwise branch_divergent depth [] ++ [VfPost]
  | Node.Loop var from to body =>
      let bounds_uniform := is_uniform (pv_scope v) from && is_uniform (pv_scope v) to in
      nested_frames body (divergent || negb bounds_uniform) depth
        [VfInsertLoopVar var (bounds_uniform && negb divergent)] ++ [VfPost]
  | Node.Block body | Node.Region _ _ body => nested_frames body divergent depth []
  | _ => []
  end.

Fixpoint run_frames (fuel : nat) (stack : list VFrame) (v : PreorderValidator) : PreorderValidator :=
  match fuel, stack with
  | O, _ | _, [] => v
  | S fuel, frame :: stack =>
      match frame with
      | VfChild n =>
          let v := dispatch_node options dialect decls n v in
          run_frames fuel (child_frames n v ++ stack) v
      | VfPost => run_frames fuel stack (post v)
      | VfPushScope divergent depth nodes => run_frames fuel stack (push_scope_frame divergent depth nodes v)
      | VfPopScope => run_frames fuel stack (pop_scope_frame v)
      | VfPushAlias => run_frames fuel stack (push_alias v)
      | VfPopAlias => run_frames fuel stack (pop_alias v)
      | VfInsertLoopVar var uniform => run_frames fuel stack (insert_loop_var var uniform v)
      end
  end.

(** Regions that may occur once and occur more often, in order. *)
Definition self_comp_errors (v : PreorderValidator) : list string :=
  map (fun g => "non-composable region appears multiple times: " +:+ g)
    (sorted (dom (filter (fun kv => 1 < kv.2) (pv_self_comp v)))).

(** Enough fuel for the frames of the entry. *)
Definition frames_fuel (nodes : list Node) : nat := (16 * nodes_size nodes + 16)%nat.
Definition run (nodes : list Node) (v : PreorderValidator) : PreorderValidator :=
  let v := run_frames (frames_fuel nodes)
             (VfPushScope false 0 nodes :: VfPushAlias :: map VfChild nodes ++ [VfPopScope]) v in
  add_errors (self_comp_errors v) (with_self_comp ∅ v).
End Run.

(** ** The program *)

(** One buffer: the names and bindings seen so far, and the errors. *)
Definition check_buffer (st : gset string * gset Z * list string) (b : BufferDecl)
    : gset string * gset Z * list string :=
  let '(names, bindings, errs) := st in
  let workgroup := bool_decide (bd_access b = BufferAccess.Workgroup) in
  ({[bd_name b]} ∪ names, if workgroup then bindings else {[bd_binding b]} ∪ bindings,
   errs ++ error_if (bool_decide (bd_name b ∈ names)) "duplicate buffer name"
   ++ error_if (negb workgroup && bool_decide (bd_binding b ∈ bindings)) "duplicate binding slot"
   ++ error_if (workgroup && (bd_count b =? 0)) "workgroup buffer has count 0"
   ++ error_if (bd_is_output b && match bd_element b with DataType.Array _ | DataType.Tensor => true | _ => false end)
        "output buffer uses unsupported element type").
Definition check_buffers (l : list BufferDecl) : list string := snd (foldl check_buffer (∅, ∅, []) l).
Definition output_marker_count (l : list BufferDecl) : nat := length (filter (fun b => bd_is_output b = true) l).
Definition validate_output_markers (l : list BufferDecl) : list string :=
  error_if (1 <? output_marker_count l)%nat "V022: more than one output buffer".
Definition buffer_map (l : list BufferDecl) : Buffers := foldl (fun m b => <[bd_name b := b]> m) ∅ l.

Definition violation_message (lt : LinearType) (uses : Z) : option string :=
  match lt with
  | LinearType.Linear => if uses =? 1 then None else Some "linear buffer must be used exactly once"
  | LinearType.Affine => if 1 <? uses then Some "affine buffer must be used at most once" else None
  | LinearType.Relevant => if uses =? 0 then Some "relevant buffer must be used at least once" else None
  | LinearType.Unrestricted => None
  end.
Definition check_linear_types (p : Program) : list string :=
  if forallb (fun b => bool_decide (bd_linear_type b = LinearType.Unrestricted)) (buffers p) then []
  else
    let facts := build p in
    omap (fun b => if bool_decide (bd_linear_type b = LinearType.Unrestricted) then None
                   else violation_message (bd_linear_type b)
                          (Z.min U32_MAX (Z.of_nat (length (buffer_refs_of facts (bd_name b)))))) (buffers p).
Definition check_shape_predicates (p : Program) : list string :=
  omap (fun b => match bd_shape_predicate b with
                 | None => None
                 | Some pr => if ShapePredicate.shape_holds pr (bd_count b) then None
                              else Some "buffer count violates its shape predicate"
                 end) (buffers p).

Definition check_workgroup_size (size : Z * Z * Z) : list string :=
  flat_map (fun s => error_if (s =? 0) "workgroup_size is 0") (axes size).

Definition validate_with_options (dialect : option (string -> option OpDef)) (p : Program) (options : ValidationOptions)
    : ValidationReport :=
  report_errors (match top_level_region_violation p with Some m => [m] | None => [] end
                 ++ check_workgroup_size (workgroup_size p) ++ check_buffers (buffers p)
                 ++ validate_output_markers (buffers p))
  +r+ pv_report (run options dialect (buffer_map (buffers p)) (entry p) validator_new)
  +r+ report_errors (check_linear_types p ++ check_shape_predicates p).
Definition validate (dialect : option (string -> option OpDef)) (p : Program) : list string :=
  vr_errors (validate_with_options dialect p options_default).
