(* ===== verification/ValidateSound.v ===== *)
(** What the validator guarantees.

    The explicit stack computes a recursion over the statement tree ([visit_node]), and a
    program without errors declares every buffer once.  Scoping.v builds on both. *)

From stdpp Require Import sorting.
From S2P Require Import Prelude Spec IR ProgramStats Collectives ProgramFacts RefEval ValidateExpr Validate.

(** ** The recursion *)

Section Recursion.
Context (options : ValidationOptions) (dialect : option (string -> option OpDef)) (decls : Buffers).
Abbreviation dispatch := (dispatch_node options dialect decls).

(** A nested sequence: [pre] acts inside its scope before the statements. *)
Definition visit_nested (f : Node -> PreorderValidator -> PreorderValidator) (nodes : list Node) (divergent : bool)
    (depth : Z) (pre : PreorderValidator -> PreorderValidator) (v : PreorderValidator) : PreorderValidator :=
  pop_scope_frame (pop_alias (foldl (fun v n => f n v) (pre (push_alias (push_scope_frame divergent depth nodes v))) nodes)).
Fixpoint visit_node (n : Node) (v : PreorderValidator) : PreorderValidator :=
  let v := dispatch n v in
  let divergent := current_divergent v in
  let depth := current_depth v + 1 in
  match n with
  | Node.If cond then_ otherwise =>
      let branch_divergent := divergent || negb (is_uniform (pv_scope v) cond) in
      post (visit_nested visit_node otherwise branch_divergent depth id
              (visit_nested visit_node then_ branch_divergent depth id v))
  | Node.Loop var from to body =>
      let bounds_uniform := is_uniform (pv_scope v) from && is_uniform (pv_scope v) to in
      post (visit_nested visit_node body (divergent || negb bounds_uniform) depth
              (insert_loop_var var (bounds_uniform && negb divergent)) v)
  | Node.Block body | Node.Region _ _ body => visit_nested visit_node body divergent depth id v
  | _ => v
  end.
Definition visit_nodes (nodes : list Node) (v : PreorderValidator) : PreorderValidator :=
  foldl (fun v n => visit_node n v) v nodes.
Definition visit_entry (nodes : list Node) (v : PreorderValidator) : PreorderValidator :=
  pop_scope_frame (visit_nodes nodes (push_alias (push_scope_frame false 0 nodes v))).

(** [costs k frames f]: in [k] steps the frames do what [f] does. *)
Definition costs (k : nat) (frames : PreorderValidator -> list VFrame) (f : PreorderValidator -> PreorderValidator) : Prop :=
  forall fuel stack v, run_frames options dialect decls (k + fuel) (frames v ++ stack) v
                       = run_frames options dialect decls fuel stack (f v).
Lemma costs_children l : Forall (fun n => exists k, (k <= 16 * node_size n)%nat /\ costs k (fun _ => [VfChild n]) (visit_node n)) l ->
  exists k, (k <= 16 * nodes_size l)%nat /\ costs k (fun _ => map VfChild l) (visit_nodes l).
Proof.
  induction 1 as [|n l (k & Hk & Hc) _ (k' & Hk' & IH)]; [by exists 0%nat|].
  exists (k + k')%nat. split; [change (nodes_size (n :: l)) with (node_size n + nodes_size l)%nat; lia|].
  intros fuel stack v. rewrite <- Nat.add_assoc. cbn [map app]. etrans; [apply (Hc _ (map VfChild l ++ stack))|]. apply IH.
Qed.
Lemma costs_nested l :
  Forall (fun n => exists k, (k <= 16 * node_size n)%nat /\ costs k (fun _ => [VfChild n]) (visit_node n)) l ->
  exists k, (k <= 4 + 16 * nodes_size l)%nat /\ forall j divergent depth pre fpre,
    costs j (fun _ => pre) fpre ->
    costs (j + k) (fun _ => nested_frames l divergent depth pre) (visit_nested visit_node l divergent depth fpre).
Proof.
  intros (k & Hk & Hc)%costs_children. exists (4 + k)%nat. split; [lia|].
  intros j divergent depth pre fpre Hp fuel stack v. unfold nested_frames, visit_nested.
  replace (j + (4 + k) + fuel)%nat with (S (S (j + (k + S (S fuel))))) by lia.
  cbn [app run_frames]. by rewrite <- !app_assoc, Hp, Hc.
Qed.
Lemma run_child fuel n stack v : run_frames options dialect decls (S fuel) (VfChild n :: stack) v
  = let v := dispatch n v in run_frames options dialect decls fuel (child_frames n v ++ stack) v.
Proof. reflexivity. Qed.
(** The statements nested in one, visited once it has been: [w] is the state then. *)
Definition visit_children (n : Node) (w v : PreorderValidator) : PreorderValidator :=
  let divergent := current_divergent w in
  let depth := current_depth w + 1 in
  match n with
  | Node.If cond then_ otherwise =>
      let branch_divergent := divergent || negb (is_uniform (pv_scope w) cond) in
      post (visit_nested visit_node otherwise branch_divergent depth id
              (visit_nested visit_node then_ branch_divergent depth id v))
  | Node.Loop var from to body =>
      let bounds_uniform := is_uniform (pv_scope w) from && is_uniform (pv_scope w) to in
      post (visit_nested visit_node body (divergent || negb bounds_uniform) depth
              (insert_loop_var var (bounds_uniform && negb divergent)) v)
  | Node.Block body | Node.Region _ _ body => visit_nested visit_node body divergent depth id v
  | _ => v
  end.
Lemma visit_node_eq n v : visit_node n v = visit_children n (dispatch n v) (dispatch n v).
Proof. by destruct n. Qed.
Lemma costs_child n k : (forall w, costs k (fun _ => child_frames n w) (visit_children n w)) ->
  costs (S k) (fun _ => [VfChild n]) (visit_node n).
Proof. intros Hc fuel stack v. cbn [Nat.add app]. rewrite run_child, visit_node_eq. cbv zeta. apply Hc. Qed.
Lemma costs_app j k l m f g : costs j (fun _ => l) f -> costs k (fun _ => m) g ->
  costs (j + k) (fun _ => l ++ m) (fun v => g (f v)).
Proof. intros Hl Hm fuel stack v. rewrite <- Nat.add_assoc, <- app_assoc, Hl. apply Hm. Qed.
Lemma costs_id : costs 0 (fun _ => []) id.
Proof. by intros fuel stack v. Qed.
Lemma costs_post : costs 1 (fun _ => [VfPost]) post.
Proof. by intros fuel stack v. Qed.
Lemma costs_loop_var var uniform : costs 1 (fun _ => [VfInsertLoopVar var uniform]) (insert_loop_var var uniform).
Proof. by intros fuel stack v. Qed.
Lemma visit_node_costs n : exists k, (k <= 16 * node_size n)%nat /\ costs k (fun _ => [VfChild n]) (visit_node n).
Proof.
  induction n using Node_ind'; cbn [node_size];
    repeat match goal with H : Forall _ _ |- _ => apply costs_nested in H as (? & ? & ?) end;
    fold nodes_size.
  all: try (exists 1%nat; split; [lia|]; apply costs_child; intros w; apply costs_id).
  - exists (S (0 + x0 + (0 + x + 1)))%nat. split; [unfold nodes_size in *; lia|]. apply costs_child. intros w.
    apply (costs_app _ _ (nested_frames t _ _ _) _ (visit_nested visit_node t _ _ id)
             (fun v => post (visit_nested visit_node o _ _ id v))); [eauto using costs_id|].
    apply (costs_app _ _ (nested_frames o _ _ _) _ (visit_nested visit_node o _ _ id) post);
      [eauto using costs_id|apply costs_post].
  - exists (S (1 + x + 1))%nat. split; [unfold nodes_size in *; lia|]. apply costs_child. intros w.
    apply (costs_app _ _ (nested_frames _ _ _ _) _ (visit_nested visit_node b _ _ (insert_loop_var _ _)) post);
      [eauto using costs_loop_var|apply costs_post].
  - exists (S (0 + x))%nat. split; [unfold nodes_size in *; lia|]. apply costs_child. eauto using costs_id.
  - exists (S (0 + x))%nat. split; [unfold nodes_size in *; lia|]. apply costs_child. eauto using costs_id.
Qed.
Lemma entry_frames nodes extra v :
  run_frames options dialect decls (frames_fuel nodes + extra)
    (VfPushScope false 0 nodes :: VfPushAlias :: map VfChild nodes ++ [VfPopScope]) v = visit_entry nodes v.
Proof.
  destruct (costs_children nodes (Forall_true _ _ visit_node_costs)) as (k & Hk & Hc). unfold frames_fuel.
  replace (16 * nodes_size nodes + 16 + extra)%nat with (S (S (k + S (S (14 + 16 * nodes_size nodes + extra - k - 2))))) by lia.
  cbn [run_frames]. rewrite (Hc _ [VfPopScope]). reflexivity.
Qed.
Lemma run_recursive nodes v : run options dialect decls nodes v =
  let v := visit_entry nodes v in add_errors (self_comp_errors v) (with_self_comp ∅ v).
Proof. unfold run. by rewrite <- (Nat.add_0_r (frames_fuel nodes)), entry_frames. Qed.
End Recursion.

(** ** The declarations *)

Lemma report_app_nil a b : vr_errors (a +r+ b) = [] <-> vr_errors a = [] /\ vr_errors b = [].
Proof. apply app_nil. Qed.
Lemma error_if_nil b m : error_if b m = [] <-> b = false.
Proof. by destruct b. Qed.

Definition names_of (st : gset string * gset Z * list string) : gset string := st.1.1.
Lemma check_buffer_names st b : (check_buffer st b).2 = [] ->
  st.2 = [] /\ (bd_name b ∉ names_of st) /\ names_of (check_buffer st b) = {[bd_name b]} ∪ names_of st.
Proof.
  destruct st as [[names bindings] errs]. cbn [check_buffer snd names_of fst]. rewrite !app_nil, !error_if_nil.
  intros (-> & Hn%bool_decide_eq_false & _). done.
Qed.
Lemma check_buffers_fold l : forall st, (foldl check_buffer st l).2 = [] ->
  st.2 = [] /\ NoDup (bd_name <$> l) /\ (forall b, b ∈ l -> bd_name b ∉ names_of st).
Proof.
  induction l as [|b l IH]; intros st H; cbn [foldl fmap list_fmap] in *.
  { split; [done|]. split; [constructor|]. intros b Hb. by apply elem_of_nil in Hb. }
  apply IH in H as (H & Hd & Hn). apply check_buffer_names in H as (H & Hb & Hs). split; [done|]. split.
  - apply NoDup_cons. split; [|done]. intros (b' & E & Hb')%list_elem_of_fmap. apply (Hn b' Hb'). rewrite Hs. set_solver.
  - intros b' [->|Hb']%elem_of_cons; [done|]. specialize (Hn b' Hb'). rewrite Hs in Hn. set_solver.
Qed.
Lemma validated_buffers dialect p options : vr_errors (validate_with_options dialect p options) = [] ->
  NoDup (bd_name <$> buffers p).
Proof.
  unfold validate_with_options. rewrite report_app_nil. cbn [report_errors vr_errors]. rewrite !app_nil.
  intros ((_ & _ & H & _) & _). apply check_buffers_fold in H. tauto.
Qed.

Module Traversal.

(** C32: the validator terminates: from [frames_fuel] steps on, its explicit stack of frames
    has run dry and the state is that of a recursion over the statement tree, which opens
    and closes the scope and the alias sets of every nested list around its statements. *)
Theorem traversal_recursive options dialect decls nodes extra v :
  run_frames options dialect decls (frames_fuel nodes + extra)
    (VfPushScope false 0 nodes :: VfPushAlias :: map VfChild nodes ++ [VfPopScope]) v
  = visit_entry options dialect decls nodes v.
Proof. apply entry_frames. Qed.
End Traversal.
