(* ===== verification/Scoping.v ===== *)
(** What the validator promises about names, and that it keeps the promise.

    [scope_node] is the abstract rule: the locals in scope, each with whether it may be
    assigned, before and after a statement, or nothing when the statement uses a name it
    must not use.  A program the validator accepts satisfies it, when shadowing is not
    allowed.  Operators are looked up only where a registry is installed: without one the
    validator, and so the rule, accepts every call. *)

From S2P Require Import Prelude Spec IR ProgramStats Collectives ProgramFacts RefEval ValidateExpr Validate ValidateSound.

(** ** The rule *)

Abbreviation Env := (gmap string bool).

Section Rule.
Context (lookup : option (string -> option OpDef)) (decls : Buffers).

Definition declared (buffer : string) : bool := bool_decide (is_Some (decls !! buffer)).
Definition declared_storage (buffer : string) : bool :=
  match decls !! buffer with Some b => bool_decide (bd_access b = BufferAccess.ReadWrite) | None => false end.
(** An operator resolves when a registry is installed, knows it and agrees on the number
    of arguments. *)
Definition callable (op_id : string) (args : nat) : bool :=
  match lookup ≫= (fun lookup => lookup op_id) with
  | Some def => (args =? length (op_inputs def))%nat
  | None => false
  end.
(** What the validator asks of a call: nothing, when no registry is installed. *)
Definition call_accepted (op_id : string) (args : nat) : bool :=
  match lookup with None => true | Some _ => callable op_id args end.
Definition expected_matches (op : AtomicOp) (has_expected : bool) : bool :=
  Bool.eqb has_expected (match op with AtomicOp.CompareExchange => true | _ => false end).

Fixpoint scoped_expr (Γ : Env) (e : Expr) : bool :=
  match e with
  | Expr.Var x => bool_decide (is_Some (Γ !! x))
  | Expr.Load b i => declared b && scoped_expr Γ i
  | Expr.BufLen b => declared b
  | Expr.InvocationId axis | Expr.WorkgroupId axis | Expr.LocalId axis => axis <=? 2
  | Expr.BinOp _ a b | Expr.SubgroupShuffle a b => scoped_expr Γ a && scoped_expr Γ b
  | Expr.UnOp _ x | Expr.Cast _ x | Expr.SubgroupBallot x | Expr.SubgroupAdd x => scoped_expr Γ x
  | Expr.Call op args => call_accepted op (length args) && forallb (scoped_expr Γ) args
  | Expr.Select a b c | Expr.Fma a b c => scoped_expr Γ a && scoped_expr Γ b && scoped_expr Γ c
  | Expr.Atomic op b i x v _ =>
      declared_storage b && expected_matches op (match x with Some _ => true | None => false end)
      && scoped_expr Γ i && match x with Some y => scoped_expr Γ y | None => true end && scoped_expr Γ v
  | _ => true
  end.

(** A nested list of statements leaves the scope as it was. *)
Definition scope_list (f : Node -> Env -> option Env) (nodes : list Node) (Γ : Env) : option Env :=
  foldl (fun Γ n => Γ ≫= f n) (Some Γ) nodes.
Definition leaves (inner : option Env) (Γ : Env) : option Env := inner ≫= fun _ => Some Γ.
Definition provided {A} (b : bool) (o : option A) : option A := if b then o else None.

Fixpoint scope_node (n : Node) (Γ : Env) : option Env :=
  match n with
  | Node.Let x e => provided (scoped_expr Γ e && bool_decide (Γ !! x = None)) (Some (<[x := true]> Γ))
  | Node.Assign x e =>
      provided (scoped_expr Γ e && match Γ !! x with Some mutable => mutable | None => declared_storage x end) (Some Γ)
  | Node.Store b i v => provided (declared b && scoped_expr Γ i && scoped_expr Γ v) (Some Γ)
  | Node.If c t o =>
      provided (scoped_expr Γ c) (leaves (scope_list scope_node t Γ) Γ ≫= leaves (scope_list scope_node o Γ))
  | Node.Loop x a b body =>
      provided (scoped_expr Γ a && scoped_expr Γ b && bool_decide (Γ !! x = None))
        (leaves (scope_list scope_node body (<[x := false]> Γ)) Γ)
  | Node.Block body | Node.Region _ _ body => leaves (scope_list scope_node body Γ) Γ
  | Node.IndirectDispatch b _ | Node.AllReduce b _ _ | Node.Broadcast b _ _ => provided (declared b) (Some Γ)
  | Node.AllGather a b _ | Node.ReduceScatter a b _ _ => provided (declared a && declared b) (Some Γ)
  | _ => Some Γ
  end.
Definition scope_nodes : list Node -> Env -> option Env := scope_list scope_node.

Lemma scope_list_cons f n l Γ : scope_list f (n :: l) Γ = f n Γ ≫= scope_list f l.
Proof.
  unfold scope_list. cbn [foldl mbind option_bind]. destruct (f n Γ) as [Γ'|]; [done|]. cbn.
  induction l as [|m l IH]; [done|apply IH].
Qed.
End Rule.

(** ** Expressions *)

Section Expressions.
Context (decls : Buffers) (scope : Scope) (options : ValidationOptions) (dialect : option (string -> option OpDef)).
Definition effective_lookup : option (string -> option OpDef) :=
  match vo_dialect_lookup options with Some l => Some l | None => dialect end.
Abbreviation scoped := (scoped_expr effective_lookup decls (vb_mutable <$> scope)).
Abbreviation clean e depth := (vr_errors (validate_expr decls scope options dialect e depth) = []).

Lemma check_load_declared b : check_load decls b = [] -> declared decls b = true.
Proof. unfold check_load, declared. destruct (decls !! b); [by intros _|done]. Qed.
Lemma check_store_declared b : check_store decls b = [] -> declared decls b = true.
Proof. unfold check_store, declared. destruct (decls !! b); [by intros _|done]. Qed.
Lemma validate_atomic_clean op b i x v o : validate_atomic decls scope op b i x v o = [] ->
  declared_storage decls b = true /\ expected_matches op (match x with Some _ => true | None => false end) = true.
Proof.
  unfold validate_atomic, declared_storage. rewrite !app_nil. intros (_ & _ & H). destruct (decls !! b) as [d|]; [|done].
  rewrite !app_nil in H. destruct H as (Ha & _ & _ & _ & Hx). destruct (bd_access d); try done. split; [done|].
  by destruct op, x.
Qed.
Lemma validate_call_clean op args : validate_call decls scope options dialect op args = [] ->
  call_accepted effective_lookup op (length args) = true.
Proof.
  unfold validate_call, call_accepted, callable, effective_lookup. destruct (match vo_dialect_lookup options with Some _ => _ | None => _ end)
    as [lookup|]; [|done]. cbn [mbind option_bind]. destruct (lookup op) as [def|]; [|done]. unfold validate_call_signature.
  by destruct (length args =? length (op_inputs def))%nat.
Qed.

Lemma validate_expr_scoped e : forall depth, clean e depth -> scoped e = true.
Proof.
  induction e using Expr_ind'; intros depth; cbn [validate_expr]; destruct (DEFAULT_MAX_EXPR_DEPTH <? depth);
    try discriminate; cbn [scoped_expr]; cbv beta zeta; rewrite ?report_app_nil; cbn [report_errors vr_errors];
    rewrite ?error_if_nil, ?andb_true_iff; try done; try (intros; destruct_and?; by repeat split; eauto).
  - intros Hb%bool_decide_eq_false. apply bool_decide_eq_true. rewrite lookup_fmap. destruct (scope !! _); [by eexists|done].
  - intros [? ?]. split; [by apply check_load_declared|eauto].
  - intros Hb%bool_decide_eq_false. apply bool_decide_eq_true. destruct (decls !! _); [by eexists|done].
  - lia.
  - lia.
  - lia.
  - intros Hc. enough (vr_errors (report_errors (validate_call decls scope options dialect op args)) = []
      /\ forallb scoped args = true) as [? ?] by (split; [by apply validate_call_clean|done]).
    revert Hc. generalize (report_errors (validate_call decls scope options dialect op args)) as r.
    induction H as [|a args Ha _ IH]; intros r; cbn [foldr forallb]; [done|]. rewrite report_app_nil.
    intros [Hx Hr]. apply IH in Hr as [? ->]. split; [done|]. by rewrite (Ha _ Hx).
  - intros (Ha & Hi & Hx & Hv). apply validate_atomic_clean in Ha as [-> ->]. rewrite (IHe1 _ Hi), (IHe2 _ Hv).
    destruct e2 as [y|]; [|done]. cbn in H. rewrite (H _ Hx). done.
Qed.
End Expressions.

(** ** Statements *)

(** The locals in scope, and below the innermost scope. *)
Definition env (v : PreorderValidator) : Env := vb_mutable <$> pv_scope v.
Definition restore_env (Γ : Env) (log : ScopeLog) : Env :=
  foldr (fun entry Γ => match vb_mutable <$> entry.2 with
                        | Some b => <[entry.1 := b]> Γ
                        | None => delete entry.1 Γ
                        end) Γ log.
Lemma restore_scope_env scope log : vb_mutable <$> restore_scope scope log = restore_env (vb_mutable <$> scope) log.
Proof.
  unfold restore_scope, restore_env. induction log as [|[x [b|]] log IH]; cbn [foldr fst snd]; [done| |].
  - by rewrite fmap_insert, IH.
  - by rewrite fmap_delete, IH.
Qed.
Lemma restore_env_snoc Γ log x old : (vb_mutable <$> old) = Γ !! x -> forall b,
  restore_env (<[x := b]> Γ) (log ++ [(x, old)]) = restore_env Γ log.
Proof.
  intros Hold b. unfold restore_env. rewrite foldr_app. cbn [foldr fst snd]. f_equal. rewrite Hold.
  destruct (Γ !! x) eqn:E; [by rewrite insert_insert_eq, insert_id|by rewrite delete_insert_id].
Qed.

Definition outer (v : PreorderValidator) : option (Env * list ScopeFrame) :=
  match pv_scope_stack v with [] => None | f :: fs => Some (restore_env (env v) (sf_scope_log f), fs) end.
Abbreviation errors v := (vr_errors (pv_report v)).
(** What no visit undoes: diagnostics only grow; the scopes outside stay. *)
Record keeps (v v' : PreorderValidator) : Prop := {
  ke_errors : exists l, errors v' = errors v ++ l;
  ke_outer : outer v' = outer v;
}.
#[export] Instance keeps_preorder : PreOrder keeps.
Proof.
  split; [intros v; split; [by exists []; rewrite app_nil_r|done]|].
  intros x y z [[l Hl] ?] [[k Hk] ?]. split; [exists (l ++ k); by rewrite Hk, Hl, app_assoc|congruence].
Qed.
Lemma keeps_clean v v' : keeps v v' -> errors v' = [] -> errors v = [].
Proof. intros [[l ->] _] H. by apply app_nil in H as [? _]. Qed.

Lemma keeps_report r v : keeps v (add_report r v).
Proof. split; [by eexists|done]. Qed.
Lemma keeps_errors l v : keeps v (add_errors l v).
Proof. apply keeps_report. Qed.
Lemma keeps_limits v : keeps v (limits_here v).
Proof. unfold limits_here, check_limits. cbv zeta. split; [by eexists|done]. Qed.
Lemma keeps_touch a v : keeps v (touch a v).
Proof. split; [by eexists|done]. Qed.
Lemma keeps_postpone a v : keeps v (postpone a v).
Proof. split; [by eexists|done]. Qed.
Lemma keeps_post v : keeps v (post v).
Proof. unfold post. destruct (pv_pending v); [done|]. split; [by exists []; rewrite app_nil_r|done]. Qed.
Lemma env_post v : env (post v) = env v.
Proof. unfold post. by destruct (pv_pending v). Qed.
Create HintDb scoping.
#[export] Hint Resolve keeps_report keeps_errors keeps_limits keeps_touch keeps_postpone keeps_post : scoping.

Section Statements.
Context (options : ValidationOptions) (Hshadow : vo_allow_shadowing options = false).
Context (dialect : option (string -> option OpDef)) (decls : Buffers).
Abbreviation lookup := (effective_lookup options dialect).
Abbreviation visit := (visit_node options dialect decls).

Lemma keeps_taint x e v : keeps v (taint x e v) /\ env (taint x e v) = env v.
Proof.
  unfold taint. destruct (pv_scope v !! x) as [b|] eqn:E; [|done].
  assert (vb_mutable <$> <[x := mkVarBinding (vb_ty b) (vb_mutable b) (vb_uniform b && is_uniform (pv_scope v) e)]> (pv_scope v)
          = env v) as Hs.
  { rewrite fmap_insert. cbn. apply insert_id. unfold env. by rewrite lookup_fmap, E. }
  split; [|exact Hs]. split; [by exists []; rewrite app_nil_r|].
  unfold outer, env. cbn [with_scope pv_scope pv_scope_stack]. by rewrite Hs.
Qed.

Lemma keeps_expr e v : keeps v (visit_expr options dialect decls e v).
Proof. apply keeps_report. Qed.
Lemma visit_expr_spec e v : errors (visit_expr options dialect decls e v) = [] ->
  scoped_expr lookup decls (env v) e = true.
Proof. intros [_ H]%app_nil. by apply validate_expr_scoped in H. Qed.
Lemma duplicate_clean name bindings (inner : bool) :
  let '(duplicate, _, errs) := check_sibling_duplicate name bindings false in
  errs ++ error_if (negb duplicate && negb (vo_allow_shadowing options) && inner) "V008: duplicate local binding shadows an outer scope" = []
  -> inner = false.
Proof.
  unfold check_sibling_duplicate. destruct (negb (bool_decide (name ∈ bindings))); [|done].
  rewrite Hshadow. by destruct inner.
Qed.
Lemma visit_let_spec x e v : is_Some (outer v) ->
  let v' := visit_let options dialect decls x e v in
  keeps v v' /\ (errors v' = [] -> scope_node lookup decls (Node.Let x e) (env v) = Some (env v')).
Proof.
  intros Ho. unfold visit_let. set (w := visit_expr options dialect decls e (limits_here v)). cbv zeta.
  assert (keeps v w) as Hk by (etrans; [apply keeps_limits|apply keeps_report]).
  assert (errors w = [] -> scoped_expr lookup decls (env v) e = true) as Hw by apply (visit_expr_spec e (limits_here v)).
  assert (pv_scope w = pv_scope v /\ pv_scope_stack w = pv_scope_stack v) as [Hsc Hst] by done.
  clearbody w. rewrite Hst. destruct (pv_scope_stack v) as [|f fs] eqn:Es.
  { unfold outer in Ho. rewrite Es in Ho. by destruct Ho. }
  pose proof (duplicate_clean x (sf_region_bindings f) (bool_decide (is_Some (pv_scope w !! x)))) as Hdup.
  destruct (check_sibling_duplicate x (sf_region_bindings f) false) as [[duplicate bindings] errs].
  unfold insert_binding. cbv zeta. match goal with |- keeps _ ?u /\ _ => set (v' := u) end.
  assert (env v' = <[x := true]> (env v)) as Henv by (unfold env; rewrite <- Hsc; apply fmap_insert). split.
  - split; [destruct (ke_errors _ _ Hk) as [l Hl]; subst v'; cbn; rewrite Hl, <- !app_assoc; by eexists|].
    unfold outer. rewrite Henv, Es. change (pv_scope_stack v') with
      (mkScopeFrame (sf_scope_log f ++ [(x, pv_scope w !! x)]) bindings (sf_divergent f) (sf_depth f) (sf_nodes f) :: fs).
    cbn [sf_scope_log]. rewrite restore_env_snoc; [done|]. unfold env. by rewrite lookup_fmap, Hsc.
  - intros Hc. subst v'. cbn in Hc. apply app_nil in Hc as [Hc _]. apply app_nil in Hc as [Hc Herr].
    cbn [scope_node]. specialize (Hdup Herr). apply bool_decide_eq_false in Hdup.
    rewrite (Hw Hc), bool_decide_true; [by rewrite Henv|].
    unfold env. rewrite lookup_fmap, <- Hsc.
    by destruct (pv_scope w !! x); [destruct Hdup|].
Qed.
Lemma visit_assign_spec x e v :
  let v' := visit_assign options dialect decls x e v in
  keeps v v' /\ (errors v' = [] -> scope_node lookup decls (Node.Assign x e) (env v) = Some (env v')).
Proof.
  unfold visit_assign. cbv zeta. set (w := visit_expr _ _ _ _ _). destruct (keeps_taint x e w) as [Hk Henv].
  split; [etrans; [apply keeps_limits|]; etrans; [apply keeps_errors|]; etrans; [apply keeps_expr|];
    etrans; [exact Hk|]; apply keeps_touch|].
  intros Hc. apply (keeps_clean _ _ (keeps_touch _ _)) in Hc. apply (keeps_clean _ _ Hk) in Hc.
  change (env (touch _ ?u)) with (env u). rewrite Henv. cbn [scope_node].
  pose proof (visit_expr_spec _ _ Hc) as He. change (scoped_expr lookup decls (env v) e = true) in He. rewrite He. apply (keeps_clean _ _ (keeps_expr _ _)) in Hc.
  apply app_nil in Hc as [_ Hc]. cbn [vr_errors report_errors] in Hc. unfold check_assign in Hc.
  change (pv_scope (limits_here v)) with (pv_scope v) in Hc. unfold env at 1. rewrite lookup_fmap. change (env w) with (env v).
  destruct (pv_scope v !! x) as [b|]; cbn [fmap option_fmap option_map].
  - apply app_nil in Hc as [Hm _]. rewrite error_if_nil, negb_false_iff in Hm. by rewrite Hm.
  - unfold declared_storage. destruct (decls !! x) as [b|]; [|done]. apply app_nil in Hc as [Hm _].
    rewrite error_if_nil, negb_false_iff in Hm. by rewrite Hm.
Qed.
Lemma visit_store_spec b i e v :
  let v' := visit_store options dialect decls b i e v in
  keeps v v' /\ (errors v' = [] -> scope_node lookup decls (Node.Store b i e) (env v) = Some (env v')).
Proof.
  unfold visit_store. cbv zeta. split.
  { etrans; [apply keeps_limits|]. etrans; [apply keeps_errors|]. etrans; [apply keeps_expr|].
    etrans; [apply keeps_expr|]. apply keeps_touch. }
  intros Hc. apply (keeps_clean _ _ (keeps_touch _ _)) in Hc. cbn [scope_node].
  pose proof (visit_expr_spec _ _ Hc) as He. apply (keeps_clean _ _ (keeps_expr _ _)) in Hc.
  pose proof (visit_expr_spec _ _ Hc) as Hi. apply (keeps_clean _ _ (keeps_expr _ _)) in Hc.
  apply app_nil in Hc as [_ Hc]. apply app_nil in Hc as [Hc _]. apply check_store_declared in Hc.
  change (scoped_expr lookup decls (env v) e = true) in He. change (scoped_expr lookup decls (env v) i = true) in Hi.
  by rewrite Hc, Hi, He.
Qed.

(** The visit of a statement itself, before the statements nested in it. *)
Definition visited (n : Node) (v v' : PreorderValidator) : Prop :=
  match n with
  | Node.If c _ _ => scoped_expr lookup decls (env v) c = true /\ env v' = env v
  | Node.Loop x a b _ =>
      (scoped_expr lookup decls (env v) a && scoped_expr lookup decls (env v) b && bool_decide (env v !! x = None)) = true
      /\ env v' = env v
  | Node.Block _ | Node.Region _ _ _ => env v' = env v
  | _ => scope_node lookup decls n (env v) = Some (env v')
  end.
Lemma visit_if_spec c v : let v' := visit_if options dialect decls c v in
  keeps v v' /\ (errors v' = [] -> scoped_expr lookup decls (env v) c = true /\ env v' = env v).
Proof.
  unfold visit_if. cbv zeta. split.
  { etrans; [apply keeps_limits|]. etrans; [apply keeps_expr|]. etrans; [apply keeps_errors|]. apply keeps_postpone. }
  intros Hc. apply (keeps_clean _ _ (keeps_postpone _ _)), (keeps_clean _ _ (keeps_errors _ _)) in Hc.
  split; [exact (visit_expr_spec _ _ Hc)|done].
Qed.
Lemma visit_loop_spec x a b v : let v' := visit_loop options dialect decls x a b v in
  keeps v v' /\ (errors v' = [] ->
    (scoped_expr lookup decls (env v) a && scoped_expr lookup decls (env v) b && bool_decide (env v !! x = None)) = true
    /\ env v' = env v).
Proof.
  unfold visit_loop. cbv zeta. set (w := visit_expr _ _ _ b _). split.
  { etrans; [apply keeps_limits|]. etrans; [apply (keeps_expr a)|]. etrans; [apply (keeps_expr b)|].
    etrans; [apply keeps_errors|]. apply keeps_postpone. }
  intros Hc. apply (keeps_clean _ _ (keeps_postpone _ _)) in Hc. apply app_nil in Hc as [Hc Hx].
  cbn [vr_errors report_errors] in Hx. rewrite !app_nil, error_if_nil, Hshadow in Hx. destruct Hx as (_ & _ & Hx).
  split; [|done]. pose proof (visit_expr_spec _ _ Hc) as Hb. apply (keeps_clean _ _ (keeps_expr _ _)) in Hc.
  pose proof (visit_expr_spec _ _ Hc) as Ha.
  change (scoped_expr lookup decls (env v) b = true) in Hb. change (scoped_expr lookup decls (env v) a = true) in Ha.
  change (pv_scope w) with (pv_scope v) in Hx. apply bool_decide_eq_false in Hx. rewrite Ha, Hb. apply bool_decide_eq_true.
  unfold env. rewrite lookup_fmap. by destruct (pv_scope v !! x); [destruct Hx|].
Qed.
Lemma keeps_then v w v' : keeps v w -> keeps w v' -> keeps v v'.
Proof. apply transitivity. Qed.
Lemma collective_declared b : validate_collective_buffer decls b = [] -> declared decls b = true.
Proof. unfold validate_collective_buffer, declared. by destruct (decls !! b). Qed.
Lemma visit_checked a l n v : (l = [] -> scope_node lookup decls n (env v) = Some (env v)) ->
  let v' := touch a (add_errors l (limits_here v)) in
  keeps v v' /\ (errors v' = [] -> scope_node lookup decls n (env v) = Some (env v')).
Proof.
  intros Hl. cbv zeta. split; [etrans; [apply keeps_limits|]; etrans; [apply keeps_errors|]; apply keeps_touch|].
  intros Hc. apply (keeps_clean _ _ (keeps_touch _ _)) in Hc. apply app_nil in Hc as [_ Hc]. exact (Hl Hc).
Qed.
Lemma visit_plain v : keeps v (limits_here v) /\ (errors (limits_here v) = [] -> Some (env v) = Some (env (limits_here v))).
Proof. split; [apply keeps_limits|done]. Qed.
Lemma visit_quiet l v : let v' := add_errors l (limits_here v) in keeps v v' /\ (errors v' = [] -> Some (env v) = Some (env v')).
Proof. split; [etrans; [apply keeps_limits|apply keeps_errors]|done]. Qed.
Lemma dispatch_spec n v : is_Some (outer v) -> let v' := dispatch_node options dialect decls n v in
  keeps v v' /\ (errors v' = [] -> visited n v v').
Proof.
  intros Ho. destruct n; cbn [dispatch_node visited].
  - apply visit_let_spec, Ho.
  - apply visit_assign_spec.
  - apply visit_store_spec.
  - apply visit_if_spec.
  - apply visit_loop_spec.
  - apply visit_checked. intros (_ & Hb%error_if_nil%bool_decide_eq_false)%app_nil. cbn [scope_node]. unfold declared.
    by destruct (decls !! count_buffer); [|destruct Hb].
  - apply visit_checked. done.
  - apply visit_checked. done.
  - apply visit_quiet.
  - apply visit_plain.
  - apply visit_plain.
  - apply visit_checked. intros (_ & H)%app_nil. cbn [scope_node]. by rewrite collective_declared.
  - apply visit_checked. rewrite !app_nil. intros (_ & Hi & Hout & _). cbn [scope_node]. by rewrite !collective_declared.
  - apply visit_checked. rewrite !app_nil. intros (_ & Hi & Hout & _). cbn [scope_node]. by rewrite !collective_declared.
  - apply visit_checked. intros (_ & H)%app_nil. cbn [scope_node]. by rewrite collective_declared.
  - apply visit_plain.
  - unfold visit_barrier. cbv zeta. split; [|done]. etrans; [apply keeps_limits|]. split; [by eexists|done].
  - split; [apply keeps_limits|done].
  - unfold visit_region. cbv zeta. destruct (self_exclusive_region_key generator); [|by split; [apply keeps_limits|]].
    split; [|done]. etrans; [apply keeps_limits|]. split; [by exists []; rewrite app_nil_r|done].
  - apply visit_quiet.
Qed.

(** ** Sequences *)

Definition visits (n : Node) : Prop := forall v, is_Some (outer v) ->
  keeps v (visit n v) /\ (errors (visit n v) = [] -> scope_node lookup decls n (env v) = Some (env (visit n v))).
Lemma visits_list l : Forall visits l -> forall v, is_Some (outer v) ->
  let v' := foldl (fun v n => visit n v) v l in
  keeps v v' /\ (errors v' = [] -> scope_nodes lookup decls l (env v) = Some (env v')).
Proof.
  induction 1 as [|n l Hn _ IH]; intros v Ho; cbv zeta; cbn [foldl]; [by split|].
  destruct (Hn v Ho) as [Hk Hs]. destruct (IH (visit n v)) as [Hk2 Hs2]; [by rewrite (ke_outer _ _ Hk)|].
  split; [by etrans|]. intros Hc. unfold scope_nodes. rewrite scope_list_cons.
  rewrite (Hs (keeps_clean _ _ Hk2 Hc)). apply Hs2, Hc.
Qed.
Definition opened (divergent : bool) (depth : Z) (nodes : list Node) (v : PreorderValidator) : PreorderValidator :=
  push_alias (push_scope_frame divergent depth nodes v).
Lemma opened_outer d k l v : outer (opened d k l v) = Some (env v, pv_scope_stack v).
Proof. done. Qed.
Lemma nested_spec l d k pre v : Forall visits l -> keeps (opened d k l v) (pre (opened d k l v)) ->
  let v' := visit_nested visit l d k pre v in
  keeps v v' /\ env v' = env v
  /\ (errors v' = [] -> is_Some (scope_nodes lookup decls l (env (pre (opened d k l v))))).
Proof.
  intros Hl Hpre. cbv zeta. unfold visit_nested. fold (opened d k l v).
  destruct (visits_list l Hl (pre (opened d k l v))) as [Hk Hs]; [by rewrite (ke_outer _ _ Hpre)|].
  set (w := foldl _ _ l) in *. pose proof (ke_outer _ _ (transitivity Hpre Hk)) as Hout. rewrite opened_outer in Hout.
  assert (keeps w (pop_alias w) /\ env (pop_alias w) = env w /\ pv_scope_stack (pop_alias w) = pv_scope_stack w) as (Hpa & He & Hst).
  { unfold pop_alias. destruct (pv_alias_stack w) as [|[r a] fs]; [split; [apply keeps_errors|done]|].
    split; [|done]. split; [by exists []; rewrite app_nil_r|done]. }
  destruct (ke_errors _ _ (transitivity (transitivity Hpre Hk) Hpa)) as [errs Herr].
  pose proof (keeps_clean _ _ Hpa) as Hcl. set (u := pop_alias w) in *. clearbody u.
  unfold outer in Hout. rewrite <- Hst, <- He in Hout. unfold pop_scope_frame.
  destruct (pv_scope_stack u) as [|f fs]; [done|]. injection Hout as Hr ->.
  match goal with |- keeps v ?x /\ _ => set (v' := x) end.
  assert (env v' = env v) as Henv by (unfold env at 1; subst v'; cbn; by rewrite restore_scope_env). split_and!.
  - split; [subst v'; cbn; rewrite Herr; eexists; by rewrite <- app_assoc|]. unfold outer. by rewrite Henv.
  - done.
  - intros Hc. subst v'. apply app_nil in Hc as [Hc _]. rewrite Hs; [by eexists|]. by apply Hcl.
Qed.
Lemma insert_loop_var_spec x uniform d k l v :
  keeps (opened d k l v) (insert_loop_var x uniform (opened d k l v))
  /\ env (insert_loop_var x uniform (opened d k l v)) = <[x := false]> (env v).
Proof.
  assert (env (insert_loop_var x uniform (opened d k l v)) = <[x := false]> (env v)) as He by apply fmap_insert.
  split; [|done]. split; [by exists []; rewrite app_nil_r|]. unfold outer. rewrite He.
  change (Some (restore_env (<[x := false]> (env v)) ([] ++ [(x, pv_scope v !! x)]), pv_scope_stack v)
          = Some (env v, pv_scope_stack v)).
  rewrite restore_env_snoc; [done|]. unfold env. by rewrite lookup_fmap.
Qed.

(** A block or a region, once visited. *)
Lemma visits_nested l d k v u : Forall visits l -> keeps v u -> (errors u = [] -> env u = env v) ->
  let v' := visit_nested visit l d k id u in
  keeps v v' /\ (errors v' = [] -> leaves (scope_nodes lookup decls l (env v)) (env v) = Some (env v')).
Proof.
  intros Hl Hk Hs. cbv zeta. destruct (nested_spec l d k id u Hl ltac:(done)) as (Hk1 & He1 & Hs1).
  set (u1 := visit_nested _ l _ _ _ u) in *. split; [by etrans|]. intros Hc. destruct (Hs1 Hc) as [Γ1 E1].
  apply (keeps_clean _ _ Hk1), Hs in Hc. cbn [id] in E1. change (env (opened d k l u)) with (env u) in E1.
  rewrite Hc in E1. rewrite E1. cbn. congruence.
Qed.
Lemma visits_all n : visits n.
Proof.
  induction n using Node_ind'; intros w Ho; rewrite visit_node_eq;
    match goal with |- context [dispatch_node _ _ _ ?n w] =>
      destruct (dispatch_spec n w Ho) as [Hk Hs]; set (u := dispatch_node _ _ _ n w) in * end;
    try (by split).
  - cbn [visit_children visited] in *. cbv zeta. set (d := _ || _). set (k := _ + 1).
    destruct (nested_spec t d k id u H ltac:(done)) as (Hk1 & He1 & Hs1). set (u1 := visit_nested _ t _ _ _ u) in *.
    destruct (nested_spec o d k id u1 H0 ltac:(done)) as (Hk2 & He2 & Hs2). set (u2 := visit_nested _ o _ _ _ u1) in *.
    split; [etrans; [exact Hk|]; etrans; [exact Hk1|]; etrans; [exact Hk2|apply keeps_post]|].
    intros Hc. apply (keeps_clean _ _ (keeps_post _)) in Hc. rewrite env_post. destruct (Hs2 Hc) as [Γ2 E2].
    apply (keeps_clean _ _ Hk2) in Hc. destruct (Hs1 Hc) as [Γ1 E1]. apply (keeps_clean _ _ Hk1) in Hc.
    destruct (Hs Hc) as [Hcond He]. cbn [scope_node]. fold (scope_nodes lookup decls). cbn [id] in E1, E2.
    change (env (opened d k t u)) with (env u) in E1. change (env (opened d k o u1)) with (env u1) in E2.
    rewrite He1, He in E2. rewrite He in E1. rewrite Hcond, E1. cbn. rewrite E2. cbn. congruence.
  - cbn [visit_children visited] in *. cbv zeta. set (d := _ || _). set (k := _ + 1).
    set (uni := _ && negb _). destruct (insert_loop_var_spec v uni d k b u) as [Hp Hpe].
    destruct (nested_spec b d k (insert_loop_var v uni) u H Hp) as (Hk1 & He1 & Hs1). set (u1 := visit_nested _ b _ _ _ u) in *.
    split; [etrans; [exact Hk|]; etrans; [exact Hk1|apply keeps_post]|].
    intros Hc. apply (keeps_clean _ _ (keeps_post _)) in Hc. rewrite env_post. destruct (Hs1 Hc) as [Γ1 E1].
    apply (keeps_clean _ _ Hk1) in Hc. destruct (Hs Hc) as [Hcond He]. rewrite Hpe, He in E1.
    cbn [scope_node]. fold (scope_nodes lookup decls). rewrite Hcond, E1. cbn. congruence.
  - by apply visits_nested.
  - by apply visits_nested.
Qed.
End Statements.

(** ** Programs *)

Lemma buffer_map_fold l : forall (m : Buffers) x d, foldl (fun m b => <[bd_name b := b]> m) m l !! x = Some d ->
  (d ∈ l /\ bd_name d = x) \/ m !! x = Some d.
Proof.
  induction l as [|b l IH]; intros m x d; cbn [foldl]; [by right|]. intros [[H E]|H]%IH; [left; split; [by right|done]|].
  destruct (decide (x = bd_name b)) as [->|Hx].
  - rewrite lookup_insert_eq in H. injection H as <-. left. split; [by left|done].
  - rewrite lookup_insert_ne in H by done. by right.
Qed.
Lemma buffer_map_elem l x d : buffer_map l !! x = Some d -> d ∈ l /\ bd_name d = x.
Proof. intros [?|H]%buffer_map_fold; [done|]. by rewrite lookup_empty in H. Qed.

Lemma visit_entry_scoped options dialect decls nodes : vo_allow_shadowing options = false ->
  errors (visit_entry options dialect decls nodes validator_new) = [] ->
  is_Some (scope_nodes (effective_lookup options dialect) decls nodes ∅).
Proof.
  intros Hsh. unfold visit_entry, visit_nodes. set (v0 := push_alias _).
  destruct (visits_list options dialect decls nodes (Forall_true _ _ (visits_all options Hsh dialect decls)) v0) as [Hk Hs]; [by eexists|].
  set (w := foldl _ v0 nodes) in *. intros Hc. assert (env v0 = ∅) as <- by apply fmap_empty. rewrite Hs; [by eexists|].
  unfold pop_scope_frame in Hc.
  destruct (pv_scope_stack w); [by apply app_nil in Hc as [_ ?]|]. by apply app_nil in Hc as [? _].
Qed.
Lemma validated_scope dialect p options : vo_allow_shadowing options = false ->
  vr_errors (validate_with_options dialect p options) = [] ->
  is_Some (scope_nodes (effective_lookup options dialect) (buffer_map (buffers p)) (entry p) ∅).
Proof.
  intros Hsh. unfold validate_with_options. rewrite !report_app_nil, run_recursive. cbv zeta. intros (_ & Hc & _).
  apply app_nil in Hc as [Hc _]. by apply visit_entry_scoped.
Qed.
