(* ===== verification/RefHash.v ===== *)
(** The workgroup interpreter of vyre-reference, part one: buffers, locals, subgroup
    collectives and expressions (execution/hashmap/memory.rs, state.rs, mod.rs,
    subgroup.rs; subgroup.rs).

    A [Buffer] of the source shares its bytes through an [Arc]: the copy of the buffer
    tables that a collective evaluates its operand in writes to the same bytes.  The
    model therefore threads one memory through the evaluation of every lane. *)

From S2P Require Import Prelude Float Spec IR RefValue RefMemory RefEval.

(** ** Memory *)

Record HashmapMemory := mkHashmapMemory {
  hm_storage : gmap string Buffer;
  hm_workgroup : gmap string Buffer;
}.

Definition hash_resolve_buffer (m : HashmapMemory) (name : string) : interp Buffer :=
  ok_or (match hm_storage m !! name with Some b => Some b | None => hm_workgroup m !! name end)
    (Interp "missing buffer").

(** Mutable access: whether the buffer is in storage, and the buffer. *)
Definition hash_buffer_mut (m : HashmapMemory) (name : string) : interp (bool * Buffer) :=
  match hm_storage m !! name with
  | Some b => Ok (true, b)
  | None => b ← ok_or (hm_workgroup m !! name) (Interp "missing buffer"); Ok (false, b)
  end.
Definition hash_atomic_buffer_mut (m : HashmapMemory) (name : string) : interp Buffer :=
  ok_or (hm_storage m !! name) (Interp "atomic target is workgroup memory or missing").

(** Writing a buffer back where [hash_buffer_mut] found it. *)
Definition hash_write_back (m : HashmapMemory) (in_storage : bool) (name : string) (b : Buffer)
    : HashmapMemory :=
  if in_storage then mkHashmapMemory (<[name := b]> (hm_storage m)) (hm_workgroup m)
  else mkHashmapMemory (hm_storage m) (<[name := b]> (hm_workgroup m)).

Definition MAX_WORKGROUP_BYTES : Z := 67108864.

Definition static_byte_len (decl : BufferDecl) : interp (option Z) :=
  if bd_count decl =? 0 then Ok None
  else match DataType.packed_size_bytes (bd_element decl) (bd_count decl) with
       | Ok o => Ok o
       | Err _ => Err (Interp "static byte length could not be computed")
       end.

Definition workgroup_byte_len (decl : BufferDecl) : interp Z :=
  o ← static_byte_len decl;
  match o with
  | Some byte_len => Ok byte_len
  | None => if bd_count decl =? 0 then Ok 0 else Err (Interp "unsized element type")
  end.

Definition workgroup_decls (p : Program) : list BufferDecl :=
  filter (fun decl => bd_access decl = BufferAccess.Workgroup) (buffers p).

Definition zeroed (len : Z) (t : DataType) : Buffer := mkBuffer (replicate (Z.to_nat len) 0) t.

(** One declaration of [workgroup_memory]: the map so far and the bytes allocated. *)
Definition allocate (st : gmap string Buffer * Z) (decl : BufferDecl)
    : interp (gmap string Buffer * Z) :=
  len ← workgroup_byte_len decl;
  allocated ← ok_or (usize_checked_add st.2 len) (Interp "total workgroup memory overflows usize");
  _ ← reject_if (MAX_WORKGROUP_BYTES <? allocated) (Interp "workgroup memory exceeds the budget");
  Ok (<[bd_name decl := zeroed len (bd_element decl)]> st.1, allocated).
Definition workgroup_memory (p : Program) : interp (gmap string Buffer) :=
  r ← try_fold allocate (∅, 0) (workgroup_decls p);
  Ok r.1.

(** The layout scan of [zero_existing_workgroup]; [false] is its early return. *)
Fixpoint same_layout (workgroup : gmap string Buffer) (decls : list BufferDecl) : interp bool :=
  match decls with
  | [] => Ok true
  | decl :: decls =>
      match workgroup !! bd_name decl with
      | None => Ok false
      | Some b =>
          len ← workgroup_byte_len decl;
          if negb (bool_decide (buf_element b = bd_element decl)) || negb (blen (buf_bytes b) =? len)
          then Ok false else same_layout workgroup decls
      end
  end.
Definition zero_fill (b : Buffer) : Buffer := mkBuffer (replicate (length (buf_bytes b)) 0) (buf_element b).
(** [None] when the buffers must be rebuilt. *)
Definition zero_existing_workgroup (workgroup : gmap string Buffer) (p : Program)
    : interp (option (gmap string Buffer)) :=
  same ← same_layout workgroup (workgroup_decls p);
  if same && (size workgroup =? length (workgroup_decls p))%nat
  then Ok (Some (zero_fill <$> workgroup)) else Ok None.

Definition reset_workgroup (m : HashmapMemory) (p : Program) : interp HashmapMemory :=
  o ← zero_existing_workgroup (hm_workgroup m) p;
  match o with
  | Some w => Ok (mkHashmapMemory (hm_storage m) w)
  | None => w ← workgroup_memory p; Ok (mkHashmapMemory (hm_storage m) w)
  end.

Definition output_value (b : Buffer) (decl : BufferDecl) : Value :=
  Value.Bytes
    match bd_output_byte_range decl with
    | Some (start, end_) =>
        if (start <=? end_) && (end_ <=? blen (buf_bytes b))
        then drop (Z.to_nat start) (take (Z.to_nat end_) (buf_bytes b))
        else buf_bytes b
    | None => buf_bytes b
    end.

(** ** Evaluation threads the memory *)

Definition HM (A : Type) : Type := HashmapMemory -> interp (A * HashmapMemory).
#[export] Instance HM_ret : MRet HM := fun A x m => Ok (x, m).
#[export] Instance HM_bind : MBind HM := fun A B f x m =>
  match x m with Ok (a, m') => f a m' | Err e => Err e end.
Definition hfail {A} (e : err) : HM A := fun _ => Err e.
Definition hlift {A} (x : interp A) : HM A := fun m =>
  match x with Ok a => Ok (a, m) | Err e => Err e end.
Definition hget : HM HashmapMemory := fun m => Ok (m, m).
Definition hput (m : HashmapMemory) : HM unit := fun _ => Ok (tt, m).

(** ** Subgroups *)

(** What an expression reads of an invocation; the snapshots of a round are these. *)
Record HashmapInvocationSnapshot := mkSnapshot {
  sn_ids : InvocationIds;
  sn_linear_local_index : Z;
  sn_locals : gmap string Value;
}.

(** The default simulator. *)
Definition subgroup_width : Z := 32.

Definition subgroup_bounds (lane_count lane_index : Z) : Z * Z :=
  let start := lane_index / subgroup_width * subgroup_width in
  (start, Z.min lane_count (start + subgroup_width)).

(** [&snapshots[start..end]]. *)
Definition subgroup_slice (snapshots : list HashmapInvocationSnapshot) (linear_local_index : Z)
    : interp (list HashmapInvocationSnapshot) :=
  let '(start, end_) := subgroup_bounds (Z.of_nat (length snapshots)) linear_local_index in
  if end_ <? start then Err Panic
  else Ok (take (Z.to_nat (end_ - start)) (drop (Z.to_nat start) snapshots)).

Fixpoint ballot_loop (lane : Z) (mask : list bool) (bits : Z) : Z :=
  match mask with
  | [] => bits
  | flag :: mask => ballot_loop (lane + 1) mask (if flag then Z.lor bits (Z.shiftl 1 lane) else bits)
  end.
Definition ballot_slice (mask : list bool) : Z := ballot_loop 0 (take 32 mask) 0.

Definition shuffle (values src_lanes : list Z) : list Z :=
  let active := Nat.min (Nat.min (length values) (length src_lanes)) 32 in
  map (fun src => default 0 (values !! Z.to_nat src)) (take active src_lanes).

Definition subgroup_add (values : list Z) : Z :=
  foldl (fun acc v => wrapu 32 (acc + v)) 0 (take 32 values).

Definition as_u32s (values : list Value) : option (list Z) :=
  mapM (fun v => match v with Value.U32 x => Some x | _ => None end) values.
Definition as_floats (values : list Value) : option (list Z) :=
  mapM (fun v => match v with Value.Float x => Some x | _ => None end) values.

Definition shuffle_values (values : list Value) (src_lanes : list Z) (linear_local_index : Z)
    : interp Value :=
  let local_offset := Z.to_nat (linear_local_index mod subgroup_width) in
  let src_lane := default U32_MAX (src_lanes !! local_offset) in
  match as_u32s values with
  | Some lanes => Ok (Value.U32 (default 0 (shuffle lanes src_lanes !! local_offset)))
  | None =>
      match as_floats values with
      | Some lanes => Ok (Value.Float (default 0 (lanes !! Z.to_nat src_lane)))
      | None => Err (Interp "subgroup_shuffle lanes have mixed or unsupported value types")
      end
  end.

Definition add_values (values : list Value) : interp Value :=
  match as_u32s values with
  | Some lanes => Ok (Value.U32 (subgroup_add lanes))
  | None =>
      match as_floats values with
      | Some lanes =>
          Ok (Value.Float (f64_from_f32
            (foldl (fun acc lane => canonical_f32 (f32_lift2 fp_add acc (f64_as_f32 lane))) 0 lanes)))
      | None => Err (Interp "subgroup_add lanes have mixed or unsupported value types")
      end
  end.

(** ** Expressions *)

Section EvalExpr.
Context (fe : FloatEnv) (dialect : option (string -> option OpDef)).
Context (snapshots : list HashmapInvocationSnapshot).

(** The loop of [encode_inputs] over the zipped arguments and parameters. *)
Fixpoint hash_encode_inputs (eval : Expr -> HM Value) (args : list Expr) (inputs : list string)
    (input : bytes) : HM bytes :=
  match args, inputs with
  | arg :: args, ty :: inputs =>
      let next_len := blen input + Z.of_nat (param_width ty) in
      _ ← hlift (reject_if (USIZE_MAX <? next_len) (Interp "call input byte size overflows usize"));
      _ ← hlift (reject_if (MAX_CALL_INPUT_BYTES <? next_len) (Interp "call input too large"));
      value ← eval arg;
      input ← hlift (Value.extend_bytes_width value (param_width ty) input);
      hash_encode_inputs eval args inputs input
  | _, _ => mret input
  end.

Definition hash_eval_call (eval : Expr -> HM Value) (op_id : string) (args : list Expr) : HM Value :=
  def ← hlift (resolve_call dialect op_id);
  _ ← hlift (validate_arity (length args) (length (op_inputs def)));
  input ← hash_encode_inputs eval args (op_inputs def) [];
  output ← hlift (invoke_cpu_ref def input);
  mret (spec_output_value (head (op_outputs def)) output).

Definition to_index (label : string) (v : Value) : interp Z := ok_or (Value.try_as_u32 v) (Interp label).
Definition to_f32 (label : string) (v : Value) : interp Z := ok_or (Value.try_as_f32 v) (Interp label).

Definition hash_load (buffer : string) (idx : Z) : HM Value :=
  m ← hget;
  b ← hlift (hash_resolve_buffer m buffer);
  hlift (load b idx).
Definition hash_buf_len (buffer : string) : HM Value :=
  m ← hget;
  b ← hlift (hash_resolve_buffer m buffer);
  n ← hlift (Buffer_len b);
  mret (Value.U32 n).
Definition hash_fma (a b c : Z) : Value :=
  wrap_f32 (f32_of (fp_fma (f32_val (canonical_f32 a)) (f32_val (canonical_f32 b))
                      (f32_val (canonical_f32 c)))).

(** The read-modify-write at the end of [eval_atomic]. *)
Definition hash_atomic (op : AtomicOp) (buffer : string) (idx : Z) (expected : option Z) (value : Z)
    : HM Value :=
  m ← hget;
  target ← hlift (hash_atomic_buffer_mut m buffer);
  old ← hlift (atomic_load target idx);
  match old with
  | None => mret (Value.U32 0)
  | Some old =>
      r ← hlift (apply_atomic op old expected value);
      b ← hlift (atomic_store target idx r.2);
      _ ← hput (hash_write_back m true buffer b);
      mret (Value.U32 r.1)
  end.

Fixpoint eval_expr (e : Expr) (inv : HashmapInvocationSnapshot) : HM Value :=
  let lanes := hlift (subgroup_slice snapshots (sn_linear_local_index inv)) in
  match e with
  | Expr.LitU32 v => mret (Value.U32 v)
  | Expr.LitI32 v => mret (Value.I32 v)
  | Expr.LitF32 v => mret (wrap_f32 v)
  | Expr.LitBool v => mret (Value.Bool v)
  | Expr.Var name => hlift (ok_or (sn_locals inv !! name) (Interp "reference to undeclared variable"))
  | Expr.Load buffer index =>
      i ← eval_expr index inv;
      idx ← hlift (to_index "load index" i);
      hash_load buffer idx
  | Expr.BufLen buffer => hash_buf_len buffer
  | Expr.InvocationId axis => hlift (axis_value (global_id (sn_ids inv)) axis)
  | Expr.WorkgroupId axis => hlift (axis_value (workgroup_id (sn_ids inv)) axis)
  | Expr.LocalId axis => hlift (axis_value (local_id (sn_ids inv)) axis)
  | Expr.BinOp op l r =>
      a ← eval_expr l inv; b ← eval_expr r inv; hlift (eval_binop fe op a b)
  | Expr.UnOp op x => a ← eval_expr x inv; hlift (eval_unop fe op a)
  | Expr.Call op_id args => hash_eval_call (fun a => eval_expr a inv) op_id args
  | Expr.Select c t f =>
      a ← eval_expr c inv; b ← eval_expr t inv; d ← eval_expr f inv;
      mret (if Value.truthy a then b else d)
  | Expr.Cast target v => a ← eval_expr v inv; hlift (cast_value target a)
  | Expr.Fma a b c =>
      x ← eval_expr a inv; x ← hlift (to_f32 "fma operand a" x);
      y ← eval_expr b inv; y ← hlift (to_f32 "fma operand b" y);
      z ← eval_expr c inv; z ← hlift (to_f32 "fma operand c" z);
      mret (hash_fma x y z)
  | Expr.Atomic op buffer index expected value _ =>
      _ ← hlift (check_expected op expected);
      i ← eval_expr index inv;
      idx ← hlift (to_index "atomic index" i);
      x ← match expected with
          | Some e =>
              a ← eval_expr e inv;
              x ← hlift (to_index "atomic expected value" a);
              mret (Some x)
          | None => mret None
          end;
      v ← eval_expr value inv;
      v ← hlift (to_index "atomic value" v);
      hash_atomic op buffer idx x v
  | Expr.SubgroupBallot cond =>
      ls ← lanes;
      mask ← mapM (fun lane => v ← eval_expr cond lane; mret (Value.truthy v)) ls;
      mret (Value.U32 (ballot_slice mask))
  | Expr.SubgroupShuffle value lane =>
      ls ← lanes;
      values ← mapM (eval_expr value) ls;
      ls ← lanes;
      src_lanes ← mapM (fun l => v ← eval_expr lane l;
                          hlift (to_index "subgroup_shuffle lane index" v)) ls;
      hlift (shuffle_values values src_lanes (sn_linear_local_index inv))
  | Expr.SubgroupAdd value =>
      ls ← lanes;
      values ← mapM (eval_expr value) ls;
      hlift (add_values values)
  | Expr.Opaque _ => hfail (Interp "opaque expression extension")
  | _ => hfail (Interp "unknown expression variant")
  end.
End EvalExpr.
