(* ===== verification/RefSched.v ===== *)
(** The workgroup interpreter of vyre-reference, part two: statements, invocations and
    the round-robin scheduler (execution/hashmap/state.rs, step.rs, node_step.rs,
    sync.rs; execution/node_tree.rs).

    A statement is identified in the source by its address; here by its position, the
    path of indices from the entry.  A round gives every live invocation that is not
    waiting one step, in order; a barrier opens when every live invocation waits. *)

From S2P Require Import Prelude Float Spec IR RefValue RefMemory RefEval RefHash.

(** ** Locals *)

(** Scopes are listed innermost first. *)
Record HashmapLocals := mkLocals {
  lo_locals : gmap string Value;
  lo_immutable : gmap string bool;
  lo_scopes : list (list string);
}.

Definition locals_new : HashmapLocals := mkLocals ∅ ∅ [[]].

Definition bind (l : HashmapLocals) (name : string) (value : Value) : interp HashmapLocals :=
  match lo_locals l !! name with
  | Some _ => Err (Interp "duplicate local binding")
  | None =>
      Ok (mkLocals (<[name := value]> (lo_locals l)) (lo_immutable l)
           match lo_scopes l with
           | [] => []
           | scope :: scopes => (scope ++ [name]) :: scopes
           end)
  end.

Definition assign (l : HashmapLocals) (name : string) (value : Value) : interp HashmapLocals :=
  match lo_locals l !! name with
  | None => Err (Interp "assignment to undeclared variable")
  | Some _ =>
      if default false (lo_immutable l !! name) then Err (Interp "assignment to loop variable")
      else Ok (mkLocals (<[name := value]> (lo_locals l)) (lo_immutable l) (lo_scopes l))
  end.

Definition bind_loop_var (l : HashmapLocals) (name : string) (value : Value) : interp HashmapLocals :=
  l ← bind l name value;
  Ok (mkLocals (lo_locals l) (<[name := true]> (lo_immutable l)) (lo_scopes l)).

Definition push_scope (l : HashmapLocals) : HashmapLocals :=
  mkLocals (lo_locals l) (lo_immutable l) ([] :: lo_scopes l).

Definition pop_scope (l : HashmapLocals) : HashmapLocals :=
  match lo_scopes l with
  | [] => l
  | names :: scopes =>
      mkLocals (foldl (fun m name => delete name m) (lo_locals l) names)
               (foldl (fun m name => delete name m) (lo_immutable l) names) scopes
  end.

(** ** Invocations *)

(** The continuation stack ([workgroup::Frame]), each list of statements with its path. *)
Inductive NodeFrame :=
| FrNodes (path : list nat) (nodes : list Node) (index : nat) (scoped : bool)
| FrLoop (path : list nat) (var : string) (next to : Z) (body : list Node).

Record HashmapAsyncTransfer := mkTransfer {
  tr_destination : string; tr_start : Z; tr_payload : bytes;
}.

(** Frames are listed top first. *)
Record HashmapInvocation := mkHashmapInvocation {
  hi_ids : InvocationIds;
  hi_linear_local_index : Z;
  hi_locals : HashmapLocals;
  hi_returned : bool;
  hi_waiting : bool;
  hi_uniform_checks : list (list nat * bool);
  hi_frames : list NodeFrame;
  hi_pending_async : gmap string HashmapAsyncTransfer;
}.

Definition invocation_new (ids : InvocationIds) (linear_local_index : Z) (entry : list Node)
    : HashmapInvocation :=
  mkHashmapInvocation ids linear_local_index locals_new false false [] [FrNodes [] entry 0 false] ∅.

Definition done (i : HashmapInvocation) : bool :=
  hi_returned i || match hi_frames i with [] => true | _ => false end.

Definition snapshot (i : HashmapInvocation) : HashmapInvocationSnapshot :=
  mkSnapshot (hi_ids i) (hi_linear_local_index i) (lo_locals (hi_locals i)).

Definition with_frames (i : HashmapInvocation) (frames : list NodeFrame) : HashmapInvocation :=
  mkHashmapInvocation (hi_ids i) (hi_linear_local_index i) (hi_locals i) (hi_returned i) (hi_waiting i)
    (hi_uniform_checks i) frames (hi_pending_async i).
Definition push_frame (i : HashmapInvocation) (f : NodeFrame) : HashmapInvocation :=
  with_frames i (f :: hi_frames i).
Definition with_locals (i : HashmapInvocation) (l : HashmapLocals) : HashmapInvocation :=
  mkHashmapInvocation (hi_ids i) (hi_linear_local_index i) l (hi_returned i) (hi_waiting i)
    (hi_uniform_checks i) (hi_frames i) (hi_pending_async i).
Definition with_waiting (i : HashmapInvocation) (w : bool) : HashmapInvocation :=
  mkHashmapInvocation (hi_ids i) (hi_linear_local_index i) (hi_locals i) (hi_returned i) w
    (hi_uniform_checks i) (hi_frames i) (hi_pending_async i).
Definition with_check (i : HashmapInvocation) (c : list nat * bool) : HashmapInvocation :=
  mkHashmapInvocation (hi_ids i) (hi_linear_local_index i) (hi_locals i) (hi_returned i) (hi_waiting i)
    (hi_uniform_checks i ++ [c]) (hi_frames i) (hi_pending_async i).
Definition with_pending (i : HashmapInvocation) (p : gmap string HashmapAsyncTransfer) : HashmapInvocation :=
  mkHashmapInvocation (hi_ids i) (hi_linear_local_index i) (hi_locals i) (hi_returned i) (hi_waiting i)
    (hi_uniform_checks i) (hi_frames i) p.
Definition return_now (i : HashmapInvocation) : HashmapInvocation :=
  mkHashmapInvocation (hi_ids i) (hi_linear_local_index i) (hi_locals i) true (hi_waiting i)
    (hi_uniform_checks i) [] (hi_pending_async i).

Definition begin_async (i : HashmapInvocation) (tag : string) (t : HashmapAsyncTransfer)
    : interp HashmapInvocation :=
  match hi_pending_async i !! tag with
  | Some _ => Err (Interp "async transfer tag was started more than once")
  | None => Ok (with_pending i (<[tag := t]> (hi_pending_async i)))
  end.
Definition finish_async (i : HashmapInvocation) (tag : string)
    : interp (HashmapAsyncTransfer * HashmapInvocation) :=
  t ← ok_or (hi_pending_async i !! tag) (Interp "async wait has no matching async transfer");
  Ok (t, with_pending i (delete tag (hi_pending_async i))).

Fixpoint node_contains_barrier (n : Node) : bool :=
  match n with
  | Node.Barrier _ => true
  | Node.If _ t o => existsb node_contains_barrier t || existsb node_contains_barrier o
  | Node.Loop _ _ _ body | Node.Block body => existsb node_contains_barrier body
  | _ => false
  end.
Definition contains_barrier (nodes : list Node) : bool := existsb node_contains_barrier nodes.

(** ** Statements *)

Definition read_transfer_bytes (m : HashmapMemory) (source : string) (start byte_count : Z) : interp bytes :=
  b ← hash_resolve_buffer m source;
  if ISIZE_MAX <? byte_count then Err Panic
  else
    let payload := take (Z.to_nat byte_count) (drop (Z.to_nat start) (buf_bytes b)) in
    Ok (payload ++ replicate (Z.to_nat byte_count - length payload) 0).

Definition apply_async_transfer (t : HashmapAsyncTransfer) : HM unit :=
  m ← hget;
  target ← hlift (hash_buffer_mut m (tr_destination t));
  let l := buf_bytes target.2 in
  if blen l <=? tr_start t then mret tt
  else
    let write_len := Nat.min (length (tr_payload t)) (Z.to_nat (blen l - tr_start t)) in
    hput (hash_write_back m target.1 (tr_destination t)
            (with_bytes target.2 (splice l (tr_start t) (take write_len (tr_payload t))))).

Section Step.
Context (fe : FloatEnv) (dialect : option (string -> option OpDef)).
Context (snapshots : list HashmapInvocationSnapshot).
Abbreviation eval := (fun e i => eval_expr fe dialect snapshots e (snapshot i)).

Definition eval_byte_count (e : Expr) (i : HashmapInvocation) : HM Z :=
  v ← eval e i;
  hlift (ok_or (Value.try_as_u64 v) (Interp "byte count cannot be represented as u64")).

Definition eval_async_load (source destination : string) (offset size : Expr) (i : HashmapInvocation)
    : HM HashmapAsyncTransfer :=
  start ← eval_byte_count offset i;
  byte_count ← eval_byte_count size i;
  m ← hget;
  payload ← hlift (read_transfer_bytes m source start byte_count);
  _ ← hlift (hash_resolve_buffer m destination);
  mret (mkTransfer destination 0 payload).
Definition eval_async_store (source destination : string) (offset size : Expr) (i : HashmapInvocation)
    : HM HashmapAsyncTransfer :=
  start ← eval_byte_count offset i;
  byte_count ← eval_byte_count size i;
  m ← hget;
  payload ← hlift (read_transfer_bytes m source 0 byte_count);
  _ ← hlift (hash_resolve_buffer m destination);
  mret (mkTransfer destination start payload).

(** Entering a nested list of statements. *)
Definition enter (i : HashmapInvocation) (path : list nat) (nodes : list Node) : HashmapInvocation :=
  push_frame (with_locals i (push_scope (hi_locals i))) (FrNodes path nodes 0 true).

Definition exec_node (n : Node) (id : list nat) (i : HashmapInvocation) : HM HashmapInvocation :=
  match n with
  | Node.Let name value =>
      v ← eval value i;
      l ← hlift (bind (hi_locals i) name v);
      mret (with_locals i l)
  | Node.Assign name value =>
      v ← eval value i;
      l ← hlift (assign (hi_locals i) name v);
      mret (with_locals i l)
  | Node.Store buffer index value =>
      x ← eval index i;
      idx ← hlift (to_index "store index" x);
      v ← eval value i;
      m ← hget;
      target ← hlift (hash_buffer_mut m buffer);
      b ← hlift (store target.2 idx v);
      _ ← hput (hash_write_back m target.1 buffer b);
      mret i
  | Node.If cond then_ otherwise =>
      v ← eval cond i;
      let cond_value := Value.truthy v in
      let i := if contains_barrier then_ || contains_barrier otherwise
               then with_check i (id, cond_value) else i in
      mret (enter i (id ++ [if cond_value then 0%nat else 1%nat])
             (if cond_value then then_ else otherwise))
  | Node.Loop var from to body =>
      a ← eval from i;
      from ← hlift (to_index "loop lower bound" a);
      b ← eval to i;
      to ← hlift (to_index "loop upper bound" b);
      mret (push_frame i (FrLoop (id ++ [0%nat]) var from to body))
  | Node.Return => mret (return_now i)
  | Node.Block nodes | Node.Region _ _ nodes => mret (enter i (id ++ [0%nat]) nodes)
  | Node.Barrier _ => mret (with_waiting i true)
  | Node.IndirectDispatch _ count_offset =>
      _ ← hlift (reject_if (U32_MAX <? count_offset) (Interp "indirect dispatch count offset exceeds u32"));
      hfail (Interp "indirect dispatch cannot execute in the reference interpreter")
  | Node.AsyncLoad source destination offset size tag =>
      t ← eval_async_load source destination offset size i;
      hlift (begin_async i tag t)
  | Node.AsyncStore source destination offset size tag =>
      t ← eval_async_store source destination offset size i;
      hlift (begin_async i tag t)
  | Node.AsyncWait tag =>
      r ← hlift (finish_async i tag);
      _ ← apply_async_transfer r.1;
      mret r.2
  | Node.Trap address _ =>
      v ← eval address i;
      _ ← hlift (to_index "trap address is not a u32" v);
      hfail (Interp "reference dispatch trapped")
  | Node.Resume _ => hfail (Interp "reached Resume without a replay runtime")
  | Node.AllReduce _ _ _ | Node.AllGather _ _ _ | Node.ReduceScatter _ _ _ _ | Node.Broadcast _ _ _ =>
      hfail (Interp "reached a collective")
  | Node.Opaque _ => hfail (Interp "opaque node extension")
  end.

(** The frame is off the stack; [true] ends the step. *)
Definition step_nodes_frame (i : HashmapInvocation) (path : list nat) (nodes : list Node)
    (index : nat) (scoped : bool) : HM (bool * HashmapInvocation) :=
  match nodes !! index with
  | None => mret (scoped, if scoped then with_locals i (pop_scope (hi_locals i)) else i)
  | Some n =>
      i ← exec_node n (path ++ [index]) (push_frame i (FrNodes path nodes (S index) scoped));
      mret (true, i)
  end.

Definition step_loop_frame (i : HashmapInvocation) (path : list nat) (var : string) (next to : Z)
    (body : list Node) : interp HashmapInvocation :=
  if to <=? next then Ok i
  else
    let i := push_frame i (FrLoop path var (wrapu 32 (next + 1)) to body) in
    l ← bind_loop_var (push_scope (hi_locals i)) var (Value.U32 next);
    Ok (push_frame (with_locals i l) (FrNodes path body 0 true)).

(** The loop of [step]: frames are popped until one of them does something; a frame
    that does nothing leaves the rest of the stack as it was. *)
Fixpoint step_frames (frames : list NodeFrame) (i : HashmapInvocation) : HM HashmapInvocation :=
  match frames with
  | [] => mret (with_frames i [])
  | frame :: frames =>
      let i := with_frames i frames in
      match frame with
      | FrNodes path nodes index scoped =>
          '(stop, i) ← step_nodes_frame i path nodes index scoped;
          if (stop : bool) then mret i else step_frames frames i
      | FrLoop path var next to body => hlift (step_loop_frame i path var next to body)
      end
  end.
Definition step (i : HashmapInvocation) : HM HashmapInvocation :=
  if done i || hi_waiting i then mret i else step_frames (hi_frames i) i.

(** One pass over the invocations, in order. *)
Fixpoint step_all (invs : list HashmapInvocation) : HM (bool * list HashmapInvocation) :=
  match invs with
  | [] => mret (false, [])
  | i :: invs =>
      if done i || hi_waiting i then
        r ← step_all invs; mret (r.1, i :: r.2)
      else
        i ← step i;
        r ← step_all invs;
        mret (true, i :: r.2)
  end.
End Step.

(** ** The scheduler *)

Section Schedule.
Context (fe : FloatEnv) (dialect : option (string -> option OpDef)).
Context (uses_subgroup_ops : bool).

Definition step_round_robin (invs : list HashmapInvocation) : HM (bool * list HashmapInvocation) :=
  step_all fe dialect (if uses_subgroup_ops then map snapshot invs else []) invs.

Definition live_waiting_count (invs : list HashmapInvocation) : nat :=
  length (filter (fun i : HashmapInvocation => negb (done i) && hi_waiting i) invs).
Definition live_count (invs : list HashmapInvocation) : nat := length (filter (fun i : HashmapInvocation => negb (done i)) invs).

(** [None] when the barrier stays closed. *)
Definition release_barrier_if_ready (invs : list HashmapInvocation) : option (list HashmapInvocation) :=
  if (0 <? live_count invs)%nat && (live_count invs =? live_waiting_count invs)%nat
  then Some (map (fun i => with_waiting i false) invs) else None.

(** [observed] keeps the first value seen for a statement. *)
Fixpoint check_observations (observed : list (list nat * bool)) (checks : list (list nat * bool))
    : interp (list (list nat * bool)) :=
  match checks with
  | [] => Ok observed
  | (id, value) :: checks =>
      match list_find (fun o => o.1 = id) observed with
      | Some (_, (_, previous)) =>
          if Bool.eqb previous value then check_observations observed checks
          else Err (Interp "program violates uniform-control-flow rule")
      | None => check_observations (observed ++ [(id, value)]) checks
      end
  end.
Definition verify_uniform_control_flow (invs : list HashmapInvocation) : interp unit :=
  _ ← try_fold check_observations [] (map hi_uniform_checks (filter (fun i : HashmapInvocation => negb (done i)) invs));
  Ok tt.

Definition not_every_invocation : err := Interp "not every live invocation reached the same barrier".

Fixpoint run_loop (fuel : nat) (invs : list HashmapInvocation) : HM (list HashmapInvocation) :=
  if forallb done invs then mret invs
  else
    match fuel with
    | O => hfail OutOfFuel
    | S fuel =>
        '(made_progress, invs) ← step_round_robin invs;
        _ ← hlift (verify_uniform_control_flow invs);
        match release_barrier_if_ready invs with
        | Some released => run_loop fuel released
        | None =>
            if negb made_progress && (0 <? live_waiting_count invs)%nat then hfail not_every_invocation
            else run_loop fuel invs
        end
    end.

Definition run_invocations (fuel : nat) (invs : list HashmapInvocation) : HM (list HashmapInvocation) :=
  invs ← run_loop fuel invs;
  if existsb (fun i => negb (bool_decide (hi_pending_async i = ∅))) invs
  then hfail (Interp "invocation completed with an async transfer still pending")
  else mret invs.

(** ** One workgroup *)

Definition u32_checked_mul (a b : Z) : option Z := if a * b <=? U32_MAX then Some (a * b) else None.
Definition u32_checked_add (a b : Z) : option Z := if a + b <=? U32_MAX then Some (a + b) else None.

Definition global_dim (wgid size local : Z) : interp Z :=
  ok_or (base ← u32_checked_mul wgid size; u32_checked_add base local)
    (Interp "workgroup * dispatch dimensions overflow u32 global id").

Definition z_range (n : Z) : list Z := map Z.of_nat (seq 0 (Z.to_nat n)).

(** The local ids in creation order: x fastest. *)
Definition local_ids (size : Z * Z * Z) : list (Z * Z * Z) :=
  let '(sx, sy, sz) := size in
  flat_map (fun z => flat_map (fun y => map (fun x => (x, y, z)) (z_range sx)) (z_range sy)) (z_range sz).

Definition create_one (size workgroup : Z * Z * Z) (entry : list Node) (invs : list HashmapInvocation)
    (local : Z * Z * Z) : interp (list HashmapInvocation) :=
  let '(sx, sy, sz) := size in
  let '(wx, wy, wz) := workgroup in
  let '(x, y, z) := local in
  gx ← global_dim wx sx x;
  gy ← global_dim wy sy y;
  gz ← global_dim wz sz z;
  Ok (invs ++ [invocation_new (mkInvocationIds (gx, gy, gz) workgroup local)
               (wrapu 32 (Z.of_nat (length invs))) entry]).
Definition create_invocations (p : Program) (workgroup : Z * Z * Z) (entry : list Node)
    : interp (list HashmapInvocation) :=
  let '(sx, sy, sz) := workgroup_size p in
  _ ← ok_or (count ← u32_checked_mul sx sy; u32_checked_mul count sz)
        (Interp "workgroup invocation count overflows u32");
  try_fold (create_one (sx, sy, sz) workgroup entry) [] (local_ids (sx, sy, sz)).

(** The body of the dispatch loop of [run_hashmap_reference]. *)
Definition run_workgroup (fuel : nat) (p : Program) (workgroup : Z * Z * Z) : HM unit :=
  m ← hget;
  m ← hlift (reset_workgroup m p);
  _ ← hput m;
  invs ← hlift (create_invocations p workgroup (entry p));
  _ ← run_invocations fuel invs;
  mret tt.
End Schedule.
