(* ===== verification/RefSchedSound.v ===== *)
(** Safety, termination and barriers of the workgroup interpreter.

    [hsafe] is the safety contract of one evaluation step; [inv_ok] the invariant of an
    invocation; [work] the measure that every step decreases. *)

From S2P Require Import Prelude Float Spec IR RefValue RefMemory RefEval RefHash RefSched.

(** ** Safe steps *)

Definition buffers_ok (t : gmap string Buffer) : Prop := map_Forall (fun _ => buffer_ok) t.
Definition hmemory_ok (m : HashmapMemory) : Prop := buffers_ok (hm_storage m) /\ buffers_ok (hm_workgroup m).

(** What no step changes: the buffers, their element types and lengths. *)
Definition buffer_shape (b : Buffer) : DataType * nat := (buf_element b, length (buf_bytes b)).
Definition same_shape (m m' : HashmapMemory) : Prop :=
  buffer_shape <$> hm_storage m' = buffer_shape <$> hm_storage m
  /\ buffer_shape <$> hm_workgroup m' = buffer_shape <$> hm_workgroup m.
#[export] Instance same_shape_preorder : PreOrder same_shape.
Proof. split; [by intros m|]. intros x y z [H1 H2] [H3 H4]. split; congruence. Qed.

(** Memories whose out-of-bounds loads return: the zero of every element type can be
    allocated. *)
Definition fits_zero (t : gmap string Buffer) : Prop := map_Forall (fun _ b => zero_fits (buf_element b)) t.
Definition hzeroable (m : HashmapMemory) : Prop := fits_zero (hm_storage m) /\ fits_zero (hm_workgroup m).
Lemma fits_zero_shape t t' : buffer_shape <$> t' = buffer_shape <$> t -> fits_zero t -> fits_zero t'.
Proof.
  intros Hs Ht x b Hb. assert ((buffer_shape <$> t') !! x = Some (buffer_shape b)) as E
    by by rewrite lookup_fmap, Hb.
  rewrite Hs, lookup_fmap in E. destruct (t !! x) as [c|] eqn:Ec; [|done].
  injection E as E _. rewrite <- E. by apply (Ht x).
Qed.
Lemma hzeroable_shape m m' : same_shape m m' -> hzeroable m -> hzeroable m'.
Proof. intros [Hs Hw] [H1 H2]. split; by eapply fits_zero_shape. Qed.

(** [hsafe Q x]: from a good memory [x] returns a value satisfying [Q] and a good memory
    of the same shape, or fails; where the zero of every element type can be allocated
    it fails only with an interpreter error. *)
Definition hsafe {A} (Q : A -> Prop) (x : HM A) : Prop := forall m, hmemory_ok m ->
  match x m with
  | Ok (a, m') => Q a /\ hmemory_ok m' /\ same_shape m m'
  | Err e => hzeroable m -> exists w, e = Interp w
  end.

Lemma hsafe_ret {A} (Q : A -> Prop) a : Q a -> hsafe Q (mret a).
Proof. by intros Ha m Hm. Qed.
Lemma hsafe_fail {A} (Q : A -> Prop) w : hsafe Q (hfail (Interp w)).
Proof. intros m Hm _. by exists w. Qed.
Lemma hsafe_bind {A B} (P : A -> Prop) (Q : B -> Prop) (x : HM A) (f : A -> HM B) :
  hsafe P x -> (forall a, P a -> hsafe Q (f a)) -> hsafe Q (x ≫= f).
Proof.
  intros Hx Hf m Hm. specialize (Hx m Hm). unfold mbind, HM_bind.
  destruct (x m) as [[a m']|e]; [|done]. destruct Hx as (Ha & Hm' & Hs).
  specialize (Hf a Ha m' Hm'). destruct (f a m') as [[b m'']|e];
    [|intros Hz; by apply Hf, (hzeroable_shape m)].
  destruct Hf as (? & ? & Hs'). split; [done|]. split; [done|]. by trans m'.
Qed.
Lemma hsafe_lift {A} (Q : A -> Prop) (x : interp A) :
  (forall a, x = Ok a -> Q a) -> (forall e, x = Err e -> exists w, e = Interp w) -> hsafe Q (hlift x).
Proof.
  intros HQ He m Hm. unfold hlift. destruct x as [a|e]; [split; [by apply HQ|by split]|intros _; by apply He].
Qed.
(** A primitive that is safe on the memory of the recursive evaluator. *)
Lemma hsafe_of_safe {A} (Q : A -> Prop) (x : interp A) : safe Q (lift x) -> hsafe Q (hlift x).
Proof.
  intros H. specialize (H (mkMemory [] [])). unfold lift in H. apply hsafe_lift; intros a ->; cbn in H.
  - apply H. split; constructor.
  - apply H; split; constructor.
Qed.
Lemma hsafe_ok_or {A} (Q : A -> Prop) (o : option A) w :
  (forall a, o = Some a -> Q a) -> hsafe Q (hlift (ok_or o (Interp w))).
Proof. intros. by apply hsafe_of_safe, safe_ok_or. Qed.
Lemma hsafe_reject b w : hsafe (fun _ => b = false) (hlift (reject_if b (Interp w))).
Proof. apply hsafe_of_safe, safe_reject. Qed.
Lemma hsafe_get : hsafe hmemory_ok hget.
Proof. by intros m Hm. Qed.
Lemma hsafe_mapM {A B} (P : A -> Prop) (Q : B -> Prop) (f : A -> HM B) l :
  Forall P l -> (forall a, P a -> hsafe Q (f a)) -> hsafe (Forall Q) (mapM f l).
Proof.
  intros Hl Hf. induction Hl as [|a l Ha _ IH]; cbn [mapM]; [by apply hsafe_ret|].
  eapply hsafe_bind; [by apply Hf|]. intros b Hb. eapply hsafe_bind; [done|]. intros bs Hbs.
  apply hsafe_ret. by constructor.
Qed.

Lemma to_index_safe w v : value_wf v -> hsafe (inu 32) (hlift (to_index w v)).
Proof. intros Hv. apply hsafe_ok_or. intros x. by apply try_as_u32_range. Qed.
Lemma to_f32_safe w v : hsafe (fun _ => True) (hlift (to_f32 w v)).
Proof. by apply hsafe_ok_or. Qed.

(** ** Buffers *)

(** What holds of every buffer holds of the one a name resolves to. *)
Lemma resolved_holds (P : Buffer -> Prop) m name b :
  map_Forall (fun _ => P) (hm_storage m) -> map_Forall (fun _ => P) (hm_workgroup m) ->
  hash_resolve_buffer m name = Ok b -> P b.
Proof.
  intros Hs Hw. unfold hash_resolve_buffer. destruct (hm_storage m !! name) as [c|] eqn:E.
  - intros [= <-]. by apply (Hs name).
  - destruct (hm_workgroup m !! name) as [c|] eqn:E'; intros [= <-]. by apply (Hw name).
Qed.
Lemma resolve_errs m name e : hash_resolve_buffer m name = Err e -> exists w, e = Interp w.
Proof.
  unfold hash_resolve_buffer. destruct (match _ with Some _ => _ | None => _ end); cbn; [done|].
  intros [= <-]. by eexists.
Qed.
Lemma resolve_safe m name : hmemory_ok m ->
  hsafe (fun b => buffer_ok b /\ hash_resolve_buffer m name = Ok b) (hlift (hash_resolve_buffer m name)).
Proof.
  intros [Hs Hw]. apply hsafe_lift; [intros b Hb; split; [by eapply (resolved_holds buffer_ok)|done]|].
  apply resolve_errs.
Qed.
(** Where a mutable buffer was found. *)
Definition found (m : HashmapMemory) (name : string) (t : bool * Buffer) : Prop :=
  (if t.1 then hm_storage m else hm_workgroup m) !! name = Some t.2.
Lemma buffer_mut_safe m name : hmemory_ok m ->
  hsafe (fun t => buffer_ok t.2 /\ found m name t) (hlift (hash_buffer_mut m name)).
Proof.
  intros [Hs Hw]. unfold hash_buffer_mut. destruct (hm_storage m !! name) as [b|] eqn:E.
  - apply (hsafe_ret (A := bool * Buffer)). split; [by apply (Hs name)|done].
  - destruct (hm_workgroup m !! name) as [b|] eqn:E'; [|apply hsafe_fail].
    apply (hsafe_ret (A := bool * Buffer)). split; [by apply (Hw name)|done].
Qed.
(** Writing back a buffer of the same shape. *)
Lemma insert_shape (t : gmap string Buffer) name b c : t !! name = Some b ->
  buffer_shape c = buffer_shape b -> buffer_shape <$> <[name := c]> t = buffer_shape <$> t.
Proof. intros Ht Hs. rewrite fmap_insert, Hs. apply insert_id. by rewrite lookup_fmap, Ht. Qed.
Lemma write_back_ok m t name c : hmemory_ok m -> found m name t ->
  buffer_ok c -> buffer_shape c = buffer_shape t.2 ->
  hmemory_ok (hash_write_back m t.1 name c) /\ same_shape m (hash_write_back m t.1 name c).
Proof.
  intros [Hs Hw] Hf Hc Hsh. unfold found in Hf. unfold hash_write_back.
  destruct t as [[] b]; cbn [fst snd] in *.
  - split; [split; [by apply map_Forall_insert_2|done]|]. split; [by apply (insert_shape _ _ b)|done].
  - split; [split; [done|by apply map_Forall_insert_2]|]. split; [done|by apply (insert_shape _ _ b)].
Qed.

(** Safety from one memory, for code that reads the memory and writes it back. *)
Definition hsafe_at {A} (m : HashmapMemory) (Q : A -> Prop) (x : HM A) : Prop :=
  match x m with
  | Ok (a, m') => Q a /\ hmemory_ok m' /\ same_shape m m'
  | Err e => hzeroable m -> exists w, e = Interp w
  end.
Lemma hsafe_get_at {A} (Q : A -> Prop) (f : HashmapMemory -> HM A) :
  (forall m, hmemory_ok m -> hsafe_at m Q (f m)) -> hsafe Q (hget ≫= f).
Proof. intros H m Hm. exact (H m Hm). Qed.
Lemma at_lift {A B} (P : A -> Prop) (Q : B -> Prop) m (x : interp A) (f : A -> HM B) :
  hmemory_ok m -> hsafe P (hlift x) -> (forall a, P a -> hsafe_at m Q (f a)) ->
  hsafe_at m Q (hlift x ≫= f).
Proof.
  intros Hm Hx Hf. specialize (Hx m Hm). unfold hsafe_at, mbind, HM_bind, hlift in *.
  destruct x as [a|e]; [|done]. apply Hf, Hx.
Qed.
Lemma at_put {B} (Q : B -> Prop) m m' (f : unit -> HM B) : same_shape m m' ->
  hsafe_at m' Q (f tt) -> hsafe_at m Q (hput m' ≫= f).
Proof.
  intros Hs Hf. unfold hsafe_at, mbind, HM_bind, hput in *.
  destruct (f tt m') as [[b m2]|e]; [|intros Hz; by apply Hf, (hzeroable_shape m)]. destruct Hf as (? & ? & ?).
  split; [done|]. split; [done|]. by trans m'.
Qed.
Lemma at_ret {A} (Q : A -> Prop) m a : hmemory_ok m -> Q a -> hsafe_at m Q (mret a).
Proof. by intros. Qed.

Lemma load_safe buffer idx : inu 32 idx -> hsafe value_wf (hash_load buffer idx).
Proof.
  intros Hi. apply hsafe_get_at. intros m Hm.
  eapply at_lift; [done|by apply resolve_safe|]. intros b ((Hb & Hs & _) & Hr). unfold hsafe_at, hlift.
  destruct (load b idx) as [v|e] eqn:E; [split; [by apply (load_wf b idx)|done]|].
  intros Hz. destruct (Oob.load_ok b idx) as [v Hv]; [done..| |congruence].
  by apply (resolved_holds (fun b => zero_fits (buf_element b)) m buffer); try apply Hz.
Qed.
Lemma buf_len_safe buffer : hsafe value_wf (hash_buf_len buffer).
Proof.
  eapply hsafe_bind; [apply hsafe_get|]. intros m Hm.
  eapply hsafe_bind; [by apply resolve_safe|]. intros b [Hb _].
  destruct (Buffer_len_range b Hb) as (n & -> & Hn). by apply (hsafe_ret value_wf).
Qed.

(** What an atomic does to the word it addresses. *)
Lemma atomic_step op b idx expected value : buffer_ok b -> inu 32 idx -> inu 32 value ->
  atomic_load b idx = Ok None
  \/ exists old, atomic_load b idx = Ok (Some old) /\ inu 32 old
     /\ match apply_atomic op old expected value with
        | Ok r => r.1 = old /\ exists c, atomic_store b idx r.2 = Ok c
                 /\ buffer_ok c /\ buffer_shape c = buffer_shape b
        | Err e => exists w, e = Interp w
        end.
Proof.
  intros (Hb & Hst & Hbw & Hsz) Hi Hv.
  destruct (decide (idx * atomic_stride b + 4 <= blen (buf_bytes b))) as [Hin|Hout].
  - assert (word_in_bounds b idx) as Hw by (unfold word_in_bounds, inu in *; lia).
    right. exists (word b idx). split; [by apply atomic_load_in|]. split; [by apply word_range|].
    destruct (apply_atomic op (word b idx) expected value) as [r|e] eqn:Hr.
    + destruct (apply_atomic_range op (word b idx) expected value r) as [H1 H2]; [by apply word_range|done..|].
      split; [done|]. exists (set_word b idx r.2). split; [by apply atomic_store_in|].
      split; [split; [by apply set_word_wf|done]|]. unfold buffer_shape. f_equal.
      pose proof (set_word_blen b idx r.2 Hw) as Hbl. unfold blen in Hbl. lia.
    + destruct op; cbn in Hr; try discriminate; try (injection Hr as <-; by eexists).
      destruct expected; [discriminate|]. injection Hr as <-. by eexists.
  - left. unfold atomic_load. rewrite atomic_range_out; [done|unfold inu in Hi; lia| |].
    + unfold atomic_stride, inu in *. nia.
    + unfold word_in_bounds. lia.
Qed.
Lemma atomic_safe op buffer idx expected value : inu 32 idx -> inu 32 value ->
  hsafe value_wf (hash_atomic op buffer idx expected value).
Proof.
  intros Hi Hv. apply hsafe_get_at. intros m Hm.
  apply (at_lift (fun b => buffer_ok b /\ found m buffer (true, b))); [done| |].
  { apply hsafe_ok_or. intros b Hb. split; [by apply (proj1 Hm buffer)|done]. }
  intros b [Hb Hf]. destruct (atomic_step op b idx expected value Hb Hi Hv) as [->|(old & -> & Ho & Ha)].
  { apply (at_ret value_wf); [done|]. cbn. unfold inu. lia. }
  unfold hsafe_at, mbind, HM_bind, hlift. destruct (apply_atomic op old expected value) as [r|e]; [|done].
  destruct Ha as (E & c & -> & Hc & Hsh). unfold hput, mret, HM_ret.
  destruct (write_back_ok m (true, b) buffer c) as [? ?]; [done..|]. split; [|done]. by rewrite E.
Qed.

(** ** Expressions *)

Fixpoint subgroup_free (e : Expr) : bool :=
  match e with
  | Expr.Load _ x | Expr.UnOp _ x | Expr.Cast _ x => subgroup_free x
  | Expr.BinOp _ l r => subgroup_free l && subgroup_free r
  | Expr.Call _ args => forallb subgroup_free args
  | Expr.Select a b c | Expr.Fma a b c => subgroup_free a && subgroup_free b && subgroup_free c
  | Expr.Atomic _ _ i x v _ =>
      subgroup_free i && match x with Some y => subgroup_free y | None => true end && subgroup_free v
  | Expr.SubgroupAdd _ | Expr.SubgroupBallot _ | Expr.SubgroupShuffle _ _ => false
  | _ => true
  end.

Definition ids_ok (ids : InvocationIds) : Prop :=
  dims_ok (global_id ids) /\ dims_ok (workgroup_id ids) /\ dims_ok (local_id ids).
Definition lane_ok (l : HashmapInvocationSnapshot) : Prop :=
  ids_ok (sn_ids l) /\ map_Forall (fun _ => value_wf) (sn_locals l).

Lemma ballot_loop_range mask : forall lane bits, 0 <= lane -> lane + Z.of_nat (length mask) <= 32 ->
  inu 32 bits -> inu 32 (ballot_loop lane mask bits).
Proof.
  induction mask as [|flag mask IH]; intros lane bits Hl Hm Hb; cbn [ballot_loop]; [done|].
  cbn [length] in Hm. apply IH; [lia|lia|]. destruct flag; [|done]. apply lor_inu; [done..|].
  rewrite Z.shiftl_1_l. split; [apply Z.pow_nonneg; lia|apply Z.pow_lt_mono_r; lia].
Qed.
Lemma ballot_slice_range mask : inu 32 (ballot_slice mask).
Proof. apply ballot_loop_range; [done| |width_lia]. rewrite length_take. lia. Qed.
Lemma subgroup_add_range values : inu 32 (subgroup_add values).
Proof.
  unfold subgroup_add. assert (inu 32 0) as H0 by width_lia. revert H0. generalize 0 as acc.
  induction (take 32 values) as [|v l IH]; intros acc Hacc; [done|]. apply IH. by apply wrapu_range.
Qed.

Lemma as_u32s_wf values lanes : Forall value_wf values -> as_u32s values = Some lanes ->
  Forall (inu 32) lanes.
Proof.
  intros Hv H%mapM_Some. induction H as [|v x values lanes Hx _ IH]; [constructor|].
  apply Forall_cons in Hv as [Hv Hvs]. destruct v; try discriminate. injection Hx as <-.
  constructor; auto.
Qed.
Lemma as_floats_wf values lanes : Forall value_wf values -> as_floats values = Some lanes ->
  Forall (inu 64) lanes.
Proof.
  intros Hv H%mapM_Some. induction H as [|v x values lanes Hx _ IH]; [constructor|].
  apply Forall_cons in Hv as [Hv Hvs]. destruct v; try discriminate. injection Hx as <-.
  constructor; auto.
Qed.
(** A lane that may be out of range reads zero. *)
Lemma default_lookup (P : Z -> Prop) l i : Forall P l -> P 0 -> P (default 0 (l !! i)).
Proof. intros Hl H0. destruct (l !! i) eqn:E; [|done]. by apply (Forall_lookup_1 _ _ _ _ Hl E). Qed.

Lemma shuffle_safe values src idx : Forall value_wf values ->
  hsafe value_wf (hlift (shuffle_values values src idx)).
Proof.
  intros Hv. unfold shuffle_values. destruct (as_u32s values) as [lanes|] eqn:E.
  { apply (hsafe_ret value_wf). cbn. assert (inu 32 0) by width_lia. apply default_lookup; [|done].
    apply Forall_map, Forall_forall. intros x _. apply default_lookup; [|done].
    by apply (as_u32s_wf values). }
  destruct (as_floats values) as [lanes|] eqn:E'; [|apply hsafe_fail].
  apply (hsafe_ret value_wf). cbn. apply default_lookup; [by apply (as_floats_wf values)|width_lia].
Qed.
Lemma add_safe values : hsafe value_wf (hlift (add_values values)).
Proof.
  unfold add_values. destruct (as_u32s values); [apply (hsafe_ret value_wf), subgroup_add_range|].
  destruct (as_floats values); [|apply hsafe_fail]. apply (hsafe_ret value_wf), f64_from_f32_wf.
Qed.

Section Expressions.
Context (fe : FloatEnv) (dialect : option (string -> option OpDef)).
Context (snapshots : list HashmapInvocationSnapshot) (Hd : dialect_ok dialect).
Abbreviation eval := (eval_expr fe dialect snapshots).

(** The lane has a place among the snapshots. *)
Definition lane_in (l : HashmapInvocationSnapshot) : Prop :=
  0 <= sn_linear_local_index l < Z.of_nat (length snapshots).
Context (Hsnap : Forall (fun l => lane_ok l /\ lane_in l) snapshots).

Lemma slice_safe l : lane_in l ->
  hsafe (Forall (fun l => lane_ok l /\ lane_in l)) (hlift (subgroup_slice snapshots (sn_linear_local_index l))).
Proof.
  intros Hl. unfold lane_in, subgroup_slice, subgroup_bounds, subgroup_width in *.
  rewrite (proj2 (Z.ltb_ge _ _)) by (Z.div_mod_to_equations; lia).
  apply (hsafe_ret (Forall (fun l => lane_ok l /\ lane_in l))). by apply Forall_take, Forall_drop.
Qed.

Lemma hash_encode_safe ev args : Forall (fun a => hsafe value_wf (ev a)) args ->
  forall inputs input, hsafe (fun _ => True) (hash_encode_inputs ev args inputs input).
Proof.
  induction 1 as [|a args Ha _ IH]; intros [|ty inputs] input; try by apply hsafe_ret.
  cbn [hash_encode_inputs]. do 2 (eapply hsafe_bind; [apply hsafe_reject|]; intros ? _).
  eapply hsafe_bind; [done|]. intros v _.
  apply (hsafe_bind (fun _ => True)); [|intros ? _; apply IH]. apply hsafe_lift; [done|]. intros e.
  rewrite extend_bytes_width_spec. destruct (_ && _); intros [= <-]; by eexists.
Qed.
Lemma hash_call_safe ev op args : Forall (fun a => hsafe value_wf (ev a)) args ->
  hsafe value_wf (hash_eval_call dialect ev op args).
Proof.
  intros Ha. unfold hash_eval_call.
  eapply (hsafe_bind (fun def => forall i o, cpu_ref def i = Some o -> Forall (inu 8) o)).
  { unfold resolve_call. destruct dialect as [lookup|] eqn:E; [|apply hsafe_fail].
    apply hsafe_ok_or. intros def Hdef i o. by apply (Hd lookup op). }
  intros def Hdef. eapply hsafe_bind; [apply hsafe_reject|]. intros _ _.
  eapply hsafe_bind; [by apply hash_encode_safe|]. intros input _.
  eapply hsafe_bind; [apply hsafe_ok_or; intros out; apply Hdef|]. intros out Hout.
  by apply hsafe_ret, spec_output_value_wf.
Qed.

(** What an expression may ask of its lane. *)
Definition places (e : Expr) (l : HashmapInvocationSnapshot) : Prop := subgroup_free e = true \/ lane_in l.

(** Steps through the operands of an expression on the same lane. *)
Local Ltac same_lane :=
  match goal with
  | IH : forall l, lane_ok l -> places ?e l -> hsafe _ (eval ?e l) |- hsafe _ (eval ?e _) =>
      apply IH; [assumption|];
      match goal with Hp : _ \/ lane_in _ |- _ =>
        destruct Hp as [Hp|Hp]; [left; rewrite ?andb_true_iff in Hp; tauto|by right]
      end
  end.
Local Ltac operand :=
  eapply hsafe_bind; [first [same_lane | by apply to_index_safe | apply to_f32_safe]|intros ? ?].
(** The operand of a collective, on every lane of the subgroup. *)
Local Ltac all_lanes :=
  match goal with
  | IH : forall l, lane_ok l -> places ?e l -> hsafe _ (eval ?e l) |- hsafe _ (eval ?e _) =>
      apply IH; [|right]; assumption
  end.

Lemma eval_expr_safe e : expr_repr e -> forall l, lane_ok l -> places e l -> hsafe value_wf (eval e l).
Proof.
  induction e using Expr_ind'; cbn [expr_repr]; intros Hr l Hl Hp; unfold places in Hp;
    cbn [subgroup_free] in Hp; destruct_and?;
    repeat match goal with
    | IH : expr_repr ?e -> _, H : expr_repr ?e |- _ => specialize (IH H)
    end;
    cbn [eval_expr]; cbv zeta;
    try apply hsafe_fail; try (apply hsafe_ret; first [done | apply wrap_f32_wf]);
    try (apply hsafe_of_safe, axis_value_safe; apply Hl).
  - apply hsafe_ok_or. apply Hl.
  - do 2 operand. by apply load_safe.
  - apply buf_len_safe.
  - do 2 operand. by apply hsafe_of_safe, binop_safe.
  - operand. by apply hsafe_of_safe, unop_safe.
  - apply hash_call_safe. apply Forall_list_Forall in H1. rewrite Forall_forall in *.
    intros a Ha. apply H; [done|by apply H1|done|]. destruct Hp as [Hp|Hp]; [left|by right].
    rewrite forallb_forall in Hp. by apply Hp, list_elem_of_In.
  - do 3 operand. apply hsafe_ret. by destruct (Value.truthy _).
  - operand. by apply hsafe_of_safe, cast_safe.
  - do 6 operand. apply hsafe_ret, wrap_f32_wf.
  - eapply hsafe_bind; [apply hsafe_of_safe, check_expected_safe|]. intros _ _. do 2 operand.
    apply (hsafe_bind (fun _ => True)).
    + destruct e2 as [y|]; [|by apply hsafe_ret]. cbn [Forall_opt] in *. specialize (H ltac:(assumption)).
      do 2 operand. by apply hsafe_ret.
    + intros x _. do 2 operand. by apply atomic_safe.
  - destruct Hp as [?|Hp]; [discriminate|]. eapply hsafe_bind; [by apply slice_safe|]. intros ls Hls.
    eapply (hsafe_bind (Forall (fun _ => True))).
    { eapply hsafe_mapM; [done|]. intros k [Hk1 Hk2]. eapply hsafe_bind; [all_lanes|].
      intros v _. by apply hsafe_ret. }
    intros mask _. apply hsafe_ret, ballot_slice_range.
  - destruct Hp as [?|Hp]; [discriminate|]. eapply hsafe_bind; [by apply slice_safe|]. intros ls Hls.
    eapply hsafe_bind; [eapply hsafe_mapM; [done|]; intros k [Hk1 Hk2]; all_lanes|]. intros vs Hvs.
    eapply hsafe_bind; [by apply slice_safe|]. intros ls' Hls'.
    eapply (hsafe_bind (Forall (inu 32))).
    { eapply hsafe_mapM; [done|]. intros k [Hk1 Hk2]. eapply hsafe_bind; [all_lanes|].
      intros v Hv. by apply to_index_safe. }
    intros src _. by apply shuffle_safe.
  - destruct Hp as [?|Hp]; [discriminate|]. eapply hsafe_bind; [by apply slice_safe|]. intros ls Hls.
    eapply hsafe_bind; [eapply hsafe_mapM; [done|]; intros k [Hk1 Hk2]; all_lanes|]. intros vs Hvs.
    apply add_safe.
Qed.
End Expressions.

(** ** The invariant of an invocation *)

(** Locals: every binding belongs to exactly one open scope; only bound names are
    immutable. *)
Record locals_ok (l : HashmapLocals) : Prop := {
  lo_unique : NoDup (concat (lo_scopes l));
  lo_bound : forall x, is_Some (lo_locals l !! x) <-> x ∈ concat (lo_scopes l);
  lo_fixed : forall x, is_Some (lo_immutable l !! x) -> is_Some (lo_locals l !! x);
  lo_values : map_Forall (fun _ => value_wf) (lo_locals l);
}.

(** Statements the interpreter runs without a panic: [P] holds of every expression, and
    the size of a transfer is an unsigned literal. *)
Fixpoint runnable (P : Expr -> Prop) (n : Node) : Prop :=
  match n with
  | Node.Let _ e | Node.Assign _ e | Node.Trap e _ => P e
  | Node.Store _ i v => P i /\ P v
  | Node.If c t o => P c /\ Forall_list (runnable P) t /\ Forall_list (runnable P) o
  | Node.Loop _ a b body => P a /\ P b /\ Forall_list (runnable P) body
  | Node.AsyncLoad _ _ o z _ | Node.AsyncStore _ _ o z _ =>
      P o /\ P z /\ match z with Expr.LitU32 k => inu 32 k | _ => False end
  | Node.Block b | Node.Region _ _ b => Forall_list (runnable P) b
  | _ => True
  end.

(** An upper bound on the steps of a statement: a loop counts at most [2^32] rounds. *)
Fixpoint node_work (n : Node) : Z :=
  match n with
  | Node.If _ t o => 2 + foldr Z.add 0 (map node_work t) + foldr Z.add 0 (map node_work o)
  | Node.Loop _ _ _ body => 2 + 2 ^ 32 * (2 + foldr Z.add 0 (map node_work body))
  | Node.Block b | Node.Region _ _ b => 2 + foldr Z.add 0 (map node_work b)
  | _ => 1
  end.
Definition nodes_work (l : list Node) : Z := foldr Z.add 0 (map node_work l).
Definition frame_steps (f : NodeFrame) : Z :=
  match f with
  | FrNodes _ nodes index _ => 1 + nodes_work (drop index nodes)
  | FrLoop _ _ next to body => 1 + Z.max 0 (to - next) * (2 + nodes_work body)
  end.
Definition frames_work (fs : list NodeFrame) : Z := foldr (fun f s => frame_steps f + s) 0 fs.
Definition work (i : HashmapInvocation) : Z := frames_work (hi_frames i).

Definition is_scoped (f : NodeFrame) : bool :=
  match f with FrNodes _ _ _ scoped => scoped | FrLoop _ _ _ _ _ => false end.
Fixpoint open_scopes (fs : list NodeFrame) : nat :=
  match fs with [] => 0 | f :: fs => (if is_scoped f then 1 else 0) + open_scopes fs end.

Definition transfer_ok (t : HashmapAsyncTransfer) : Prop := 0 <= tr_start t /\ Forall (inu 8) (tr_payload t).

Section Invariant.
Context (P : Expr -> Prop) (n : Z).

Definition frame_ok (f : NodeFrame) : Prop :=
  match f with
  | FrNodes _ nodes _ _ => Forall (runnable P) nodes
  | FrLoop _ _ next to body => inu 32 next /\ inu 32 to /\ Forall (runnable P) body
  end.

(** The invariant: well-formed identifiers, locals, frames and transfers, and one open
    scope per scoped frame above the outermost. *)
Record inv_ok (i : HashmapInvocation) : Prop := {
  io_ids : ids_ok (hi_ids i);
  io_index : 0 <= hi_linear_local_index i < n;
  io_locals : locals_ok (hi_locals i);
  io_frames : Forall frame_ok (hi_frames i);
  io_scopes : hi_returned i = true \/ length (lo_scopes (hi_locals i)) = S (open_scopes (hi_frames i));
  io_pending : map_Forall (fun _ => transfer_ok) (hi_pending_async i);
}.
End Invariant.

(** *** Locals *)

Lemma locals_new_ok : locals_ok locals_new.
Proof.
  split; cbn; [constructor| |by intros x [? ?]|apply map_Forall_empty].
  intros x. rewrite lookup_empty. split; [by intros [? ?]|by intros ?%elem_of_nil].
Qed.
Lemma bind_ok l name v l' : locals_ok l -> value_wf v -> lo_scopes l <> [] ->
  bind l name v = Ok l' ->
  locals_ok l' /\ length (lo_scopes l') = length (lo_scopes l) /\ is_Some (lo_locals l' !! name).
Proof.
  intros [Hu Hb Hf Hv] Hwf Hne. unfold bind. destruct (lo_locals l !! name) eqn:E; [done|].
  destruct (lo_scopes l) as [|scope scopes] eqn:Es; [done|]. intros [= <-]. cbn.
  assert (name ∉ concat (scope :: scopes)) as Hnew.
  { intros Hin. apply Hb in Hin as [? ?]. congruence. }
  assert (forall x, x ∈ (scope ++ [name]) ++ concat scopes <-> x = name \/ x ∈ concat (scope :: scopes)) as Hel.
  { intros x. cbn [concat]. rewrite !elem_of_app, list_elem_of_singleton. tauto. }
  split; [|split; [done|by rewrite lookup_insert_eq; eexists]]. split; cbn [lo_scopes lo_locals lo_immutable concat].
  - rewrite <- app_assoc. cbn [app]. rewrite <- Permutation_middle. by constructor.
  - intros x. rewrite Hel, <- Hb. destruct (decide (x = name)) as [->|Hx].
    + rewrite lookup_insert_eq. split; [by left|by eexists].
    + rewrite lookup_insert_ne by done. naive_solver.
  - intros x Hx. destruct (decide (x = name)) as [->|]; [by rewrite lookup_insert_eq; eexists|].
    rewrite lookup_insert_ne by done. auto.
  - by apply map_Forall_insert_2.
Qed.
Lemma assign_ok l name v l' : locals_ok l -> value_wf v -> assign l name v = Ok l' ->
  locals_ok l' /\ lo_scopes l' = lo_scopes l.
Proof.
  intros [Hu Hb Hf Hv] Hwf. unfold assign. destruct (lo_locals l !! name) eqn:E; [|done].
  destruct (default false _); [done|]. intros [= <-]. split; [|done].
  assert (forall x, is_Some (<[name := v]> (lo_locals l) !! x) <-> is_Some (lo_locals l !! x)) as Hi.
  { intros x. destruct (decide (x = name)) as [->|]; [|by rewrite lookup_insert_ne].
    rewrite lookup_insert_eq, E. split; by eexists. }
  split; cbn; [done| | |by apply map_Forall_insert_2]; intros x; rewrite Hi; auto.
Qed.
Lemma bind_loop_var_ok l name v l' : locals_ok l -> value_wf v -> lo_scopes l <> [] ->
  bind_loop_var l name v = Ok l' ->
  locals_ok l' /\ length (lo_scopes l') = length (lo_scopes l).
Proof.
  intros Hl Hv Hne (l1 & Hb & [= <-])%bind_Ok.
  destruct (bind_ok l name v l1) as ([Hu Hbd Hf Hw] & Hlen & Hin); [done..|]. split; [|done].
  split; cbn; [done|done| |done]. intros x. destruct (decide (x = name)) as [->|]; [done|].
  rewrite lookup_insert_ne by done. auto.
Qed.
Lemma push_scope_ok l : locals_ok l -> locals_ok (push_scope l).
Proof. by intros [Hu Hb Hf Hv]. Qed.

Lemma deletes_lookup {V} (m : gmap string V) names x :
  foldl (fun m name => delete name m) m names !! x = if decide (x ∈ names) then None else m !! x.
Proof.
  revert m. induction names as [|n names IH]; intros m; cbn [foldl]; [by rewrite decide_False by apply not_elem_of_nil|].
  rewrite IH. destruct (decide (x ∈ names)) as [Hx|Hx].
  - by rewrite decide_True by (by right).
  - destruct (decide (x = n)) as [->|Hn].
    + rewrite lookup_delete_eq, decide_True by (by left). done.
    + rewrite lookup_delete_ne, decide_False by (done || (rewrite elem_of_cons; tauto)). done.
Qed.
(** Leaving a scope removes exactly its bindings. *)
Lemma pop_scope_lookup l names scopes x : lo_scopes l = names :: scopes ->
  lo_locals (pop_scope l) !! x = (if decide (x ∈ names) then None else lo_locals l !! x).
Proof. intros E. unfold pop_scope. rewrite E. cbn. apply deletes_lookup. Qed.
Lemma pop_scope_ok l : locals_ok l -> locals_ok (pop_scope l).
Proof.
  intros Hl. destruct (lo_scopes l) as [|names scopes] eqn:E; [unfold pop_scope; by rewrite E|].
  pose proof (pop_scope_lookup l names scopes) as Hlk. destruct Hl as [Hu Hb Hf Hv].
  rewrite E in Hu, Hb. cbn [concat] in Hu, Hb. apply NoDup_app in Hu as (Hn & Hdis & Hs).
  assert (forall x, lo_immutable (pop_scope l) !! x
    = (if decide (x ∈ names) then None else lo_immutable l !! x)) as Hli.
  { intros x. unfold pop_scope. rewrite E. cbn. apply deletes_lookup. }
  assert (lo_scopes (pop_scope l) = scopes) as Hsc by (unfold pop_scope; by rewrite E).
  split; rewrite ?Hsc.
  - done.
  - intros x. rewrite Hlk by done. case_decide as Hx.
    + split; [by intros [? ?]|]. intros Hin. by destruct (Hdis x Hx).
    + rewrite Hb, elem_of_app. tauto.
  - intros x. rewrite Hlk, Hli by done. case_decide; [done|auto].
  - intros x v. rewrite Hlk by done. case_decide; [done|]. apply Hv.
Qed.

(** *** The measure *)

Lemma node_work_pos n : 0 < node_work n.
Proof.
  assert (forall l, Forall (fun n => 0 < node_work n) l -> 0 <= foldr Z.add 0 (map node_work l)) as H.
  { induction 1; cbn; lia. }
  induction n using Node_ind'; cbn [node_work]; try lia;
    repeat match goal with Hl : Forall _ ?l |- _ => apply H in Hl end; lia.
Qed.
Lemma nodes_work_nonneg l : 0 <= nodes_work l.
Proof. induction l as [|n l IH]; cbn; [done|]. pose proof (node_work_pos n). unfold nodes_work in IH. lia. Qed.
Lemma frame_steps_pos f : 0 < frame_steps f.
Proof. destruct f; cbn; [pose proof (nodes_work_nonneg (drop index nodes))|pose proof (nodes_work_nonneg body)]; nia. Qed.
Lemma frames_work_nonneg fs : 0 <= frames_work fs.
Proof. induction fs as [|f fs IH]; cbn; [done|]. pose proof (frame_steps_pos f). unfold frames_work in IH. lia. Qed.
Lemma nodes_work_drop nodes index n : nodes !! index = Some n ->
  nodes_work (drop index nodes) = node_work n + nodes_work (drop (S index) nodes).
Proof. intros H. by rewrite (drop_S _ _ _ H). Qed.

(** *** Statements *)

Section Steps.
Context (fe : FloatEnv) (dialect : option (string -> option OpDef)).
Context (snapshots : list HashmapInvocationSnapshot).
Context (P : Expr -> Prop) (n : Z).
Context (Hev : forall e l, P e -> lane_ok l -> 0 <= sn_linear_local_index l < n ->
  hsafe value_wf (eval_expr fe dialect snapshots e l)).
Abbreviation ok := (inv_ok P n).

Lemma eval_safe_inv e i : P e -> ok i -> hsafe value_wf (eval_expr fe dialect snapshots e (snapshot i)).
Proof. intros He Hi. apply Hev; [done| |by apply Hi]. split; [apply Hi|apply Hi]. Qed.

(** [i'] comes from [i] by a step that pays for at least one unit of [paid]. *)
Definition advances (paid : Z) (i i' : HashmapInvocation) : Prop :=
  hi_linear_local_index i' = hi_linear_local_index i /\ work i' < work i + paid.

Lemma with_locals_ok i l : ok i -> locals_ok l ->
  length (lo_scopes l) = length (lo_scopes (hi_locals i)) -> ok (with_locals i l).
Proof. intros [] Hl Hlen. split; try done. cbn. by rewrite Hlen. Qed.
Lemma enter_ok i path nodes : ok i -> Forall (runnable P) nodes -> ok (enter i path nodes).
Proof.
  intros [Hids Hidx Hl Hfr Hsc Hpe] Hn. split; cbn; try done; [by apply push_scope_ok|by constructor|].
  destruct Hsc as [|Hs]; [by left|right]. by rewrite Hs.
Qed.
Lemma enter_work i path nodes : work (enter i path nodes) = 1 + nodes_work nodes + work i.
Proof. done. Qed.
Lemma scopes_nonempty i : ok i -> hi_returned i = false -> lo_scopes (hi_locals i) <> [].
Proof. intros Hi Hr E. destruct (io_scopes _ _ _ Hi) as [?|Hs]; [congruence|]. by rewrite E in Hs. Qed.

Lemma byte_count_safe e i : P e -> ok i -> hsafe (inu 64) (eval_byte_count fe dialect snapshots e i).
Proof.
  intros He Hi. eapply hsafe_bind; [by apply eval_safe_inv|]. intros v Hv.
  apply hsafe_ok_or. intros x. by apply try_as_u64_range.
Qed.
(** The size of a transfer is a literal. *)
Lemma size_safe z i : match z with Expr.LitU32 k => inu 32 k | _ => False end ->
  hsafe (inu 32) (eval_byte_count fe dialect snapshots z i).
Proof. intros Hk. destruct z; try contradiction. exact (hsafe_ret (inu 32) _ Hk). Qed.
Lemma read_transfer_bytes_safe m source start k : hmemory_ok m -> inu 32 k ->
  hsafe (Forall (inu 8)) (hlift (read_transfer_bytes m source start k)).
Proof.
  intros Hm Hk. unfold read_transfer_bytes. pose proof (resolve_safe m source Hm m Hm) as Hb.
  unfold hlift in Hb at 1. destruct (hash_resolve_buffer m source) as [b|e] eqn:E; cbn [mbind result_bind].
  - destruct Hb as ((((Hbytes & _) & _) & _) & _). rewrite (proj2 (Z.ltb_ge ISIZE_MAX k)) by (unfold ISIZE_MAX, inu in *; lia).
    apply (hsafe_ret (Forall (inu 8))). apply Forall_app. split; [by apply Forall_take, Forall_drop|].
    apply Forall_replicate. unfold inu. lia.
  - destruct (resolve_errs _ _ _ E) as [w ->]. apply hsafe_fail.
Qed.
Lemma apply_transfer_safe t : transfer_ok t -> hsafe (fun _ => True) (apply_async_transfer t).
Proof.
  intros [Hst Hp]. apply hsafe_get_at. intros m Hm.
  eapply at_lift; [done|by apply buffer_mut_safe|]. intros target [Hb Hf]. cbv zeta.
  destruct (Z.leb_spec (blen (buf_bytes target.2)) (tr_start t)) as [|Hlt]; [by apply at_ret|].
  set (pay := take _ (tr_payload t)).
  assert (length (splice (buf_bytes target.2) (tr_start t) pay) = length (buf_bytes target.2)) as Hlen.
  { apply splice_length; [done|]. unfold pay. rewrite length_take. unfold blen in *. lia. }
  destruct (write_back_ok m target (tr_destination t)
    (with_bytes target.2 (splice (buf_bytes target.2) (tr_start t) pay))) as [? ?]; [done|done| | |done].
  - destruct Hb as [Hwf Hrest]. split; [|done]. apply with_bytes_wf; [done| |done].
    apply splice_bytes; [by destruct Hwf|]. by apply Forall_take.
  - unfold buffer_shape. cbn. by rewrite Hlen.
Qed.
Lemma begin_async_safe i tag t : ok i -> transfer_ok t ->
  hsafe (fun i' => ok i' /\ advances 1 i i') (hlift (begin_async i tag t)).
Proof.
  intros Hi Ht. unfold begin_async. destruct (hi_pending_async i !! tag); [apply hsafe_fail|].
  apply (hsafe_ret (fun i' => ok i' /\ advances 1 i i')). split; [|split; [done|unfold work; cbn [with_pending hi_frames]; lia]].
  destruct Hi. split; try done. cbn. by apply map_Forall_insert_2.
Qed.

Abbreviation steps := (fun paid i i' => ok i' /\ advances paid i i').

Lemma set_locals_safe i (x : interp HashmapLocals) : ok i ->
  (forall l, x = Ok l -> locals_ok l /\ length (lo_scopes l) = length (lo_scopes (hi_locals i))) ->
  (forall e, x = Err e -> exists w, e = Interp w) ->
  hsafe (steps 1 i) (l ← hlift x; mret (with_locals i l)).
Proof.
  intros Hi Hx He. eapply hsafe_bind; [exact (hsafe_lift _ x Hx He)|]. cbv beta. intros l [Hl Hlen].
  apply hsafe_ret. split; [by apply with_locals_ok|]. split; [done|].
  change (work (with_locals i l)) with (work i). lia.
Qed.
Lemma let_safe i name v : ok i -> value_wf v -> lo_scopes (hi_locals i) <> [] ->
  hsafe (steps 1 i) (l ← hlift (bind (hi_locals i) name v); mret (with_locals i l)).
Proof.
  intros Hi Hv Hs. apply set_locals_safe; [done| |].
  - intros l Hl. destruct (bind_ok (hi_locals i) name v l) as (? & ? & _); [apply Hi|done..].
  - intros e. unfold bind. case_match; [|done]. intros [= <-]. by eexists.
Qed.
Lemma assign_safe i name v : ok i -> value_wf v ->
  hsafe (steps 1 i) (l ← hlift (assign (hi_locals i) name v); mret (with_locals i l)).
Proof.
  intros Hi Hv. apply set_locals_safe; [done| |].
  - intros l Hl. destruct (assign_ok (hi_locals i) name v l) as (? & ->); [apply Hi|done..].
  - intros e. unfold assign. repeat case_match; try done; intros [= <-]; by eexists.
Qed.
Lemma store_safe i buffer idx v : ok i -> inu 32 idx -> value_wf v ->
  hsafe (steps 1 i)
    (m ← hget; target ← hlift (hash_buffer_mut m buffer); b ← hlift (store target.2 idx v);
     _ ← hput (hash_write_back m target.1 buffer b); mret i).
Proof.
  intros Hi Hidx Hv. apply hsafe_get_at. intros m Hm.
  eapply at_lift; [done|by apply buffer_mut_safe|]. intros target [Hb Hf].
  destruct (Oob.store_shape target.2 idx v) as (b & -> & He & Hl & Hw); [apply Hb|done|apply Hb|].
  destruct (write_back_ok m target buffer b) as [Hm' Hs]; [done|done| | |].
  - destruct Hb as (_ & Hrest). rewrite <- He in Hrest. split; [by apply Hw|done].
  - unfold buffer_shape, blen in *. rewrite He. f_equal. lia.
  - split; [|done]. split; [done|]. split; [done|lia].
Qed.
Lemma transfer_safe load_ source destination offset size i : P offset ->
  match size with Expr.LitU32 k => inu 32 k | _ => False end -> ok i ->
  hsafe transfer_ok ((if load_ : bool then eval_async_load else eval_async_store)
    fe dialect snapshots source destination offset size i).
Proof.
  intros Ho Hz Hi. assert (forall k start at_start, inu 32 k -> 0 <= at_start ->
    hsafe transfer_ok (m ← hget; payload ← hlift (read_transfer_bytes m source start k);
      _ ← hlift (hash_resolve_buffer m destination); mret (mkTransfer destination at_start payload))) as H.
  { intros k start at_start Hk Ha. eapply hsafe_bind; [apply hsafe_get|]. intros m Hm.
    eapply hsafe_bind; [by apply read_transfer_bytes_safe|]. intros payload Hp.
    eapply hsafe_bind; [by apply resolve_safe|]. intros b _. by apply hsafe_ret. }
  destruct load_; (eapply hsafe_bind; [by apply byte_count_safe|intros start [Hs _]]);
    (eapply hsafe_bind; [by apply size_safe|intros k Hk]); by apply H.
Qed.
Lemma wait_safe tag i : ok i ->
  hsafe (steps 1 i) (r ← hlift (finish_async i tag); _ ← apply_async_transfer r.1; mret r.2).
Proof.
  intros Hi. unfold finish_async. destruct (hi_pending_async i !! tag) as [t|] eqn:E; [|apply hsafe_fail].
  change (hsafe (steps 1 i) (_ ← apply_async_transfer t; mret (with_pending i (delete tag (hi_pending_async i))))).
  eapply hsafe_bind; [apply apply_transfer_safe; by apply (io_pending _ _ _ Hi tag)|]. intros _ _.
  apply hsafe_ret. split; [|split; [done|unfold work; cbn [with_pending hi_frames]; lia]].
  destruct Hi. split; try done. cbn. by apply map_Forall_delete.
Qed.
Lemma enter_steps i path nodes paid : ok i -> Forall (runnable P) nodes -> 1 + nodes_work nodes < paid ->
  steps paid i (enter i path nodes).
Proof. intros Hi Hn Hp. split; [by apply enter_ok|]. split; [done|]. rewrite enter_work. lia. Qed.
Lemma work_push i f : work (push_frame i f) = frame_steps f + work i.
Proof. done. Qed.
Lemma with_check_ok i c : ok i -> ok (with_check i c).
Proof. by intros []. Qed.
Lemma loop_frame_ok i path var a b body : ok i -> inu 32 a -> inu 32 b -> Forall (runnable P) body ->
  steps (2 + 2 ^ 32 * (2 + nodes_work body)) i (push_frame i (FrLoop path var a b body)).
Proof.
  intros [] Ha Hb Hn. pose proof (nodes_work_nonneg body). split.
  - split; try done. by constructor.
  - split; [done|]. rewrite work_push. cbn [frame_steps].
    assert (0 <= Z.max 0 (b - a) <= 2 ^ 32) by width_lia. nia.
Qed.

(** What one statement does to its invocation. *)
Lemma exec_node_safe nd id i : runnable P nd -> ok i -> hi_returned i = false ->
  hsafe (steps (node_work nd) i) (exec_node fe dialect snapshots nd id i).
Proof.
  intros Hn Hi Hr. pose proof (scopes_nonempty i Hi Hr) as Hsc.
  destruct nd; cbn [runnable] in Hn; cbn [exec_node node_work]; try apply hsafe_fail;
    rewrite ?Forall_list_Forall in Hn; destruct_and?;
    repeat match goal with
    | |- hsafe _ (eval_expr _ _ _ _ _ ≫= _) => eapply hsafe_bind; [by apply eval_safe_inv|intros ? ?]
    | |- hsafe _ (hlift (to_index _ _) ≫= _) => eapply hsafe_bind; [by apply to_index_safe|intros ? ?]
    end; try apply hsafe_fail.
  - by apply let_safe.
  - by apply assign_safe.
  - by apply store_safe.
  - cbv zeta. apply hsafe_ret.
    pose proof (nodes_work_nonneg thn). pose proof (nodes_work_nonneg otherwise). unfold nodes_work in *.
    assert (forall i' path nodes, ok i' -> work i' = work i -> hi_linear_local_index i' = hi_linear_local_index i ->
      Forall (runnable P) nodes -> nodes_work nodes <= nodes_work thn + nodes_work otherwise ->
      steps (2 + nodes_work thn + nodes_work otherwise) i (enter i' path nodes)) as Henter.
    { intros i' path nodes Hi' Hw Hx Hnodes Hle.
      destruct (enter_steps i' path nodes (2 + nodes_work thn + nodes_work otherwise)) as [? [E1 E2]]; [done..|lia|].
      split; [done|]. split; [by rewrite E1|lia]. }
    apply Henter; unfold nodes_work; repeat case_match; try done; try (by apply with_check_ok); lia.
  - cbv zeta. apply hsafe_ret. by apply loop_frame_ok.
  - eapply hsafe_bind; [apply hsafe_reject|]. intros _ _. apply hsafe_fail.
  - eapply hsafe_bind; [by apply (transfer_safe true)|]. intros t Ht. by apply begin_async_safe.
  - eapply hsafe_bind; [by apply (transfer_safe false)|]. intros t Ht. by apply begin_async_safe.
  - by apply wait_safe.
  - apply hsafe_ret. pose proof (frames_work_nonneg (hi_frames i)). split.
    + destruct Hi. split; try done. by left.
    + split; [done|]. change (work (return_now i)) with 0. unfold work. lia.
  - apply hsafe_ret. split; [by destruct Hi|]. split; [done|].
    change (work (with_waiting i true)) with (work i). lia.
  - apply hsafe_ret, enter_steps; [done..|]. unfold nodes_work. lia.
  - apply hsafe_ret, enter_steps; [done..|]. unfold nodes_work. lia.
Qed.

(** ** Steps *)

Lemma work_frames i f fs : hi_frames i = f :: fs -> work i = frame_steps f + work (with_frames i fs).
Proof. intros E. unfold work. by rewrite E. Qed.
(** Replacing the top frame by others that open the same scopes. *)
Lemma reframe_ok i f fs gs : ok i -> hi_frames i = f :: fs -> Forall (frame_ok P) gs ->
  open_scopes gs = open_scopes [f] -> ok (with_frames i (gs ++ fs)).
Proof.
  intros [Hids Hidx Hl Hfr Hsc Hpe] E Hg Ho. rewrite E in Hfr, Hsc. apply Forall_cons in Hfr as [Hf Hfs].
  split; try done; cbn [with_frames hi_frames hi_returned hi_locals]; [by apply Forall_app|].
  destruct Hsc as [|Hs]; [by left|right]. rewrite Hs. f_equal. cbn [open_scopes] in Ho |- *.
  clear -Ho. rewrite Nat.add_0_r in Ho. rewrite <- Ho. clear. induction gs as [|g gs IH]; [done|]. cbn; lia.
Qed.
Lemma leave_ok i f fs : ok i -> hi_frames i = f :: fs -> is_scoped f = true ->
  ok (with_locals (with_frames i fs) (pop_scope (hi_locals i))).
Proof.
  intros [Hids Hidx Hl Hfr Hsc Hpe] E Hf. rewrite E in Hfr, Hsc. apply Forall_cons in Hfr as [_ Hfs].
  split; try done; cbn [with_frames with_locals hi_frames hi_returned hi_locals]; [by apply pop_scope_ok|].
  destruct Hsc as [|Hs]; [by left|right]. cbn [open_scopes] in Hs. rewrite Hf in Hs.
  unfold pop_scope. destruct (lo_scopes (hi_locals i)) as [|names scopes]; [done|]. cbn in *. lia.
Qed.

Lemma step_nodes_safe i path nodes index scoped fs : ok i -> hi_returned i = false ->
  hi_frames i = FrNodes path nodes index scoped :: fs ->
  hsafe (fun r => steps 0 i r.2 /\ (r.1 = false -> r.2 = with_frames i fs))
    (step_nodes_frame fe dialect snapshots (with_frames i fs) path nodes index scoped).
Proof.
  intros Hi Hr E. pose proof (io_frames _ _ _ Hi) as Hfr. rewrite E in Hfr.
  apply Forall_cons in Hfr as [Hf Hfs]. cbn [frame_ok] in Hf.
  pose proof (work_frames i _ _ E) as Hw. cbn [frame_steps] in Hw. unfold step_nodes_frame.
  destruct (nodes !! index) as [nd|] eqn:En.
  - assert (ok (push_frame (with_frames i fs) (FrNodes path nodes (S index) scoped))) as Hi1.
    { apply (reframe_ok i (FrNodes path nodes index scoped) fs [FrNodes path nodes (S index) scoped]); [done..| |].
      - by constructor.
      - by destruct scoped. }
    eapply hsafe_bind.
    { apply exec_node_safe; [by apply (Forall_lookup_1 _ _ _ _ Hf En)|exact Hi1|done]. }
    intros i' [Hi' [Hidx Hwork]]. apply hsafe_ret. split; [|done]. split; [done|]. split; [done|].
    cbn [snd]. rewrite work_push in Hwork. cbn [frame_steps] in Hwork.
    rewrite (nodes_work_drop _ _ _ En) in Hw. lia.
  - apply hsafe_ret. apply lookup_ge_None in En. rewrite drop_ge in Hw by done. change (nodes_work []) with 0 in Hw.
    destruct scoped; cbn [fst snd]; (split; [|done]).
    + split; [by apply (leave_ok i _ fs Hi E)|]. split; [done|].
      change (work (with_locals _ _)) with (work (with_frames i fs)). lia.
    + split; [by apply (reframe_ok i _ fs [] Hi E)|]. split; [done|lia].
Qed.

Lemma step_loop_safe i path var next to body fs : ok i -> hi_returned i = false ->
  hi_frames i = FrLoop path var next to body :: fs ->
  hsafe (steps 0 i) (hlift (step_loop_frame (with_frames i fs) path var next to body)).
Proof.
  intros Hi Hr E. pose proof (io_frames _ _ _ Hi) as Hfr. rewrite E in Hfr.
  apply Forall_cons in Hfr as [(Hn & Ht & Hb) Hfs]. pose proof (nodes_work_nonneg body).
  pose proof (work_frames i _ _ E) as Hw. cbn [frame_steps] in Hw. unfold step_loop_frame.
  destruct (Z.leb_spec to next) as [Hle|Hlt].
  { apply (hsafe_ret (steps 0 i)). split; [by apply (reframe_ok i _ fs [] Hi E)|]. split; [done|]. lia. }
  cbv zeta. rewrite (wrapu_id 32 (next + 1)) by width_lia.
  set (i1 := push_frame (with_frames i fs) (FrLoop path var (next + 1) to body)).
  assert (ok i1) as Hi1.
  { apply (reframe_ok i _ fs [FrLoop path var (next + 1) to body] Hi E); [|done].
    constructor; [|done]. split; [width_lia|done]. }
  assert (work i1 = 1 + (to - (next + 1)) * (2 + nodes_work body) + work (with_frames i fs)) as Hw1.
  { unfold i1. rewrite work_push. cbn [frame_steps]. by rewrite Z.max_r by lia. }
  rewrite Z.max_r in Hw by lia.
  destruct (bind_loop_var (push_scope (hi_locals i1)) var (Value.U32 next)) as [l|e] eqn:El.
  - destruct (bind_loop_var_ok (push_scope (hi_locals i1)) var (Value.U32 next) l) as [Hl Hlen];
      [by apply push_scope_ok, Hi1|done..|].
    apply (hsafe_ret (steps 0 i)). split.
    + pose proof (enter_ok i1 path body Hi1 Hb) as [Hids Hidx _ Hfr Hsc Hpe].
      split; try done. cbn [push_frame with_frames with_locals hi_locals hi_frames hi_returned] in *.
      by rewrite Hlen.
    + split; [done|]. rewrite work_push. cbn [frame_steps]. change (work (with_locals i1 l)) with (work i1).
      rewrite drop_0. nia.
  - assert (exists w, e = Interp w) as [w ->]; [|apply hsafe_fail].
    unfold bind_loop_var, bind in El. revert El. case_match; cbn; [|done]. intros [= <-]. by eexists.
Qed.

Lemma step_frames_safe fs : forall i, hi_frames i = fs -> ok i -> hi_returned i = false ->
  hsafe (steps (if fs is [] then 1 else 0) i) (step_frames fe dialect snapshots fs i).
Proof.
  induction fs as [|f fs IH]; intros i E Hi Hr; cbn [step_frames].
  { apply hsafe_ret. assert (with_frames i [] = i) as -> by (rewrite <- E; by destruct i).
    split; [done|]. split; [done|lia]. }
  cbv zeta. destruct f as [path nodes index scoped|path var next to body].
  - eapply hsafe_bind; [by apply step_nodes_safe|]. intros [stop i'] [[Hi' [Hidx Hw]] Hcont].
    cbn [fst snd] in *. destruct stop; [by apply hsafe_ret|]. specialize (Hcont eq_refl) as ->.
    pose proof (IH (with_frames i fs) eq_refl Hi' Hr) as Hrest.
    intros m Hm. specialize (Hrest m Hm). destruct (step_frames _ _ _ fs _ m) as [[i2 m2]|e]; [|done].
    destruct Hrest as ([Hi2 [Hx2 Hw2]] & Hrest). split; [|done]. split; [done|].
    split; [by rewrite Hx2|]. destruct fs; lia.
  - by apply step_loop_safe.
Qed.
End Steps.

(** ** Rounds *)

Definition total_work (invs : list HashmapInvocation) : Z := foldr (fun i s => work i + s) 0 invs.
Lemma total_work_nonneg invs : 0 <= total_work invs.
Proof.
  unfold total_work. induction invs as [|i invs IH]; cbn [foldr]; [done|].
  pose proof (frames_work_nonneg (hi_frames i)). unfold work in *. lia.
Qed.

Definition idle (i : HashmapInvocation) : bool := done i || hi_waiting i.

(** A round that makes no progress changes nothing and found nobody to run. *)
Lemma step_all_idle fe dialect snaps invs : forall m invs' m',
  step_all fe dialect snaps invs m = Ok (false, invs', m') ->
  invs' = invs /\ m' = m /\ Forall (fun i => idle i = true) invs.
Proof.
  induction invs as [|i invs IH]; intros m invs' m' H; cbn [step_all] in H.
  { injection H as <- <-. auto using Forall_nil_2. }
  unfold idle in *. destruct (done i || hi_waiting i) eqn:Ei.
  - unfold mbind, HM_bind in H.
    destruct (step_all fe dialect snaps invs m) as [[[b invs1] m1]|] eqn:E1; [|done].
    injection H as -> <- <-. destruct (IH _ _ _ E1) as (-> & -> & ?). auto using Forall_cons_2.
  - unfold mbind, HM_bind in H. destruct (step fe dialect snaps i m) as [[i1 m1]|]; [|done].
    destruct (step_all fe dialect snaps invs m1) as [[[b invs1] m2]|]; [|done].
    discriminate H.
Qed.
(** A round leaves finished and waiting invocations alone. *)
Lemma step_all_skips fe dialect snaps invs : forall m b invs' m',
  step_all fe dialect snaps invs m = Ok (b, invs', m') ->
  Forall2 (fun i i' => idle i = true -> i' = i) invs invs'.
Proof.
  induction invs as [|i invs IH]; intros m b invs' m' H; cbn [step_all] in H.
  { injection H as _ <- _. constructor. }
  unfold idle in *. destruct (done i || hi_waiting i) eqn:Ei; unfold mbind, HM_bind in H.
  - destruct (step_all fe dialect snaps invs m) as [[[b1 invs1] m1]|] eqn:E1; [|done].
    injection H as _ <- _. constructor; [done|]. by apply (IH _ _ _ _ E1).
  - destruct (step fe dialect snaps i m) as [[i1 m1]|]; [|done].
    destruct (step_all fe dialect snaps invs m1) as [[[b1 invs1] m2]|] eqn:E1; [|done].
    injection H as _ <- _. constructor; [by rewrite Ei|]. by apply (IH _ _ _ _ E1).
Qed.

(** The barrier opens exactly when somebody is live and every live invocation waits. *)
Lemma filter_true (p : HashmapInvocation -> bool) invs :
  length (filter (fun i => p i) invs) = length (List.filter p invs).
Proof.
  induction invs as [|i invs IH]; [done|]. cbn [List.filter]. rewrite filter_cons.
  case_decide as Hp; destruct (p i); cbn [Is_true] in Hp; try tauto; cbn [length]; lia.
Qed.
Lemma counts_spec invs : (live_waiting_count invs <= live_count invs)%nat
  /\ (live_count invs = live_waiting_count invs <-> Forall (fun i => idle i = true) invs)
  /\ (live_count invs = 0%nat <-> Forall (fun i => done i = true) invs).
Proof.
  unfold live_waiting_count, live_count, idle.
  rewrite (filter_true (fun i => negb (done i) && hi_waiting i)), (filter_true (fun i => negb (done i))).
  induction invs as [|i invs (IH1 & IH2 & IH3)]; [by repeat split; constructor|].
  cbn [List.filter]. rewrite !Forall_cons.
  destruct (done i), (hi_waiting i); cbn [negb andb orb length]; split_and!;
    try (rewrite <- ?IH2, <- ?IH3); lia || (split; [lia|naive_solver lia]) || naive_solver lia.
Qed.
Lemma release_spec invs : release_barrier_if_ready invs
  = if decide (Forall (fun i => idle i = true) invs /\ ~ Forall (fun i => done i = true) invs)
    then Some (map (fun i => with_waiting i false) invs) else None.
Proof.
  destruct (counts_spec invs) as (H1 & H2 & H3). unfold release_barrier_if_ready.
  destruct (Nat.ltb_spec 0 (live_count invs)), (Nat.eqb_spec (live_count invs) (live_waiting_count invs));
    cbn [andb]; case_decide as Hr; try done; destruct Hr as [Ha Hb] || (exfalso; apply Hr);
    rewrite <- ?H2, <- ?H3 in *; lia || naive_solver lia.
Qed.

Section Scheduling.
Context (fe : FloatEnv) (dialect : option (string -> option OpDef)) (Hd : dialect_ok dialect).
Context (uses_subgroup_ops : bool).

(** Collectives are only evaluated over the snapshots taken for them. *)
Definition admissible (e : Expr) : Prop :=
  expr_repr e /\ (uses_subgroup_ops = true \/ subgroup_free e = true).
Definition group_ok (invs : list HashmapInvocation) : Prop :=
  Forall (inv_ok admissible (Z.of_nat (length invs))) invs.

Lemma group_eval invs e l : group_ok invs -> admissible e -> lane_ok l ->
  0 <= sn_linear_local_index l < Z.of_nat (length invs) ->
  hsafe value_wf (eval_expr fe dialect (if uses_subgroup_ops then map snapshot invs else []) e l).
Proof.
  intros Hg [He Hs] Hl Hidx. apply eval_expr_safe; [done| |done|done|].
  - destruct uses_subgroup_ops; [|constructor]. apply Forall_map. unfold group_ok in Hg.
    eapply Forall_impl; [exact Hg|]. intros i [Hids Hi Hlo _ _ _]. unfold lane_in. rewrite length_map.
    split; [|done]. split; [done|apply Hlo].
  - destruct Hs as [->|Hs]; [right|by left]. unfold lane_in. by rewrite length_map.
Qed.

Lemma step_all_safe snaps n invs :
  (forall e l, admissible e -> lane_ok l -> 0 <= sn_linear_local_index l < n ->
    hsafe value_wf (eval_expr fe dialect snaps e l)) ->
  Forall (inv_ok admissible n) invs ->
  hsafe (fun r => Forall (inv_ok admissible n) r.2 /\ length r.2 = length invs
                  /\ total_work r.2 + (if r.1 : bool then 1 else 0) <= total_work invs)
    (step_all fe dialect snaps invs).
Proof.
  intros Hev Hg. induction Hg as [|i invs Hi _ IH]; cbn [step_all].
  { apply hsafe_ret. split; [constructor|done]. }
  unfold total_work in *. destruct (done i || hi_waiting i) eqn:Ei.
  - eapply hsafe_bind; [exact IH|]. intros [b l] (Hl & Hlen & Hw). cbn [fst snd] in *.
    apply hsafe_ret. cbn [fst snd foldr length]. split; [by constructor|]. split; lia.
  - apply orb_false_iff in Ei as [Ed Ew].
    assert (hi_returned i = false /\ exists f fs, hi_frames i = f :: fs) as [Hr (f & fs & Ef)].
    { unfold done in Ed. apply orb_false_iff in Ed as [-> Ed]. split; [done|].
      destruct (hi_frames i) as [|f fs]; [done|eauto]. }
    eapply hsafe_bind.
    { unfold step. rewrite Ed, Ew. cbn [orb]. by eapply (step_frames_safe fe dialect snaps admissible n Hev). }
    rewrite Ef. intros i' [Hi' [_ Hwork]]. eapply hsafe_bind; [exact IH|].
    intros [b l] (Hl & Hlen & Hw). cbn [fst snd] in *. apply hsafe_ret. cbn [fst snd foldr length].
    split; [by constructor|]. split; [lia|]. destruct b; lia.
Qed.

Lemma round_safe invs : group_ok invs ->
  hsafe (fun r => group_ok r.2 /\ length r.2 = length invs
                  /\ total_work r.2 + (if r.1 : bool then 1 else 0) <= total_work invs)
    (step_round_robin fe dialect uses_subgroup_ops invs).
Proof.
  intros Hg m Hm.
  pose proof (step_all_safe _ _ invs (fun e l => group_eval invs e l Hg) Hg m Hm) as H.
  unfold step_round_robin. destruct (step_all _ _ _ invs m) as [[r m']|e]; [|done].
  destruct H as ((H1 & H2 & H3) & H). split; [|done]. split; [|done]. unfold group_ok. by rewrite H2.
Qed.

Lemma observations_errs checks : forall observed e,
  check_observations observed checks = Err e -> exists w, e = Interp w.
Proof.
  induction checks as [|[id value] checks IH]; intros observed e H; cbn [check_observations] in H; [done|].
  destruct (list_find _ observed) as [[k [id' previous]]|]; [|by eapply IH].
  destruct (Bool.eqb previous value); [by eapply IH|]. injection H as <-. by eexists.
Qed.
Lemma verify_safe invs : hsafe (fun _ => True) (hlift (verify_uniform_control_flow invs)).
Proof.
  apply hsafe_lift; [done|]. intros e. unfold verify_uniform_control_flow.
  generalize (@nil (list nat * bool)) as observed.
  induction (map _ _) as [|c cs IH]; intros observed; cbn [try_fold]; [done|].
  destruct (check_observations observed c) as [o|e'] eqn:E; cbn; [apply IH|].
  intros [= <-]. by eapply observations_errs.
Qed.

(** The rounds left: a barrier costs one round that only opens it. *)
Definition rounds (invs : list HashmapInvocation) : Z :=
  2 * total_work invs + (if forallb idle invs then 1 else 0).
Lemma release_ok invs : group_ok invs -> group_ok (map (fun i => with_waiting i false) invs).
Proof. intros H. unfold group_ok. rewrite length_map. apply Forall_map. eapply Forall_impl; [exact H|]. by intros i []. Qed.
Lemma release_work invs : total_work (map (fun i => with_waiting i false) invs) = total_work invs.
Proof. unfold total_work. induction invs as [|i invs IH]; [done|]. cbn [map foldr]. by rewrite IH. Qed.
Lemma forallb_Forall (p : HashmapInvocation -> bool) invs :
  forallb p invs = true <-> Forall (fun i => p i = true) invs.
Proof. rewrite Forall_forall, forallb_forall. by setoid_rewrite list_elem_of_In. Qed.
(** After a release somebody can run. *)
Lemma release_busy invs : ~ Forall (fun i => done i = true) invs ->
  forallb idle (map (fun i => with_waiting i false) invs) = false.
Proof.
  intros Hlive. apply not_true_iff_false. rewrite forallb_Forall, Forall_map. intros H. apply Hlive.
  eapply Forall_impl; [exact H|]. intros i Hi. unfold idle in Hi. cbn in Hi.
  by rewrite orb_false_r in Hi.
Qed.
Lemma rounds_pos invs : ~ Forall (fun i => done i = true) invs -> 0 < rounds invs.
Proof.
  intros Hlive. unfold rounds. pose proof (total_work_nonneg invs).
  destruct (Z.eq_dec (total_work invs) 0) as [E|]; [|destruct (forallb idle invs); lia].
  exfalso. apply Hlive. clear -E. unfold total_work in E. induction invs as [|i invs IH]; [constructor|].
  cbn [foldr] in E. pose proof (total_work_nonneg invs) as H. unfold total_work in H.
  assert (0 <= work i) as Hi by apply frames_work_nonneg.
  constructor; [|apply IH; lia]. unfold done. destruct (hi_frames i) as [|f fs] eqn:Ef; [apply orb_true_r|].
  exfalso. pose proof (work_frames i f fs Ef). pose proof (frame_steps_pos f).
  assert (0 <= work (with_frames i fs)) by apply frames_work_nonneg. lia.
Qed.

(** A round without progress finds everybody at the barrier, and opens it. *)
Lemma idle_round_releases invs m invs' m' : ~ Forall (fun i => done i = true) invs ->
  step_round_robin fe dialect uses_subgroup_ops invs m = Ok (false, invs', m') ->
  invs' = invs /\ m' = m /\ Forall (fun i => idle i = true) invs
  /\ release_barrier_if_ready invs' = Some (map (fun i => with_waiting i false) invs).
Proof.
  intros Hlive H. unfold step_round_robin in H.
  destruct (step_all_idle _ _ _ _ _ _ _ H) as (-> & -> & Hi). split_and!; try done.
  by rewrite release_spec, decide_True.
Qed.

(** What is left after one round of [run_loop]. *)
Lemma round_measure invs m b invs' m' : ~ Forall (fun i => done i = true) invs ->
  total_work invs' + (if b : bool then 1 else 0) <= total_work invs ->
  step_round_robin fe dialect uses_subgroup_ops invs m = Ok (b, invs', m') ->
  match release_barrier_if_ready invs' with
  | Some released => released = map (fun i => with_waiting i false) invs' /\ rounds released < rounds invs
  | None => b = true /\ rounds invs' < rounds invs
  end.
Proof.
  intros Hlive Hw Hs. assert (b = true \/ (b = false /\ Forall (fun i => idle i = true) invs
    /\ invs' = invs /\ release_barrier_if_ready invs' = Some (map (fun i => with_waiting i false) invs))) as Hb.
  { destruct b; [by left|]. destruct (idle_round_releases invs m invs' m') as (-> & _ & ? & ?); [done..|]. auto. }
  rewrite release_spec. case_decide as Hr.
  - split; [done|]. unfold rounds. rewrite release_work, release_busy by apply Hr.
    destruct Hb as [->|(-> & Hi & -> & _)]; [destruct (forallb idle invs); lia|].
    rewrite (proj2 (forallb_Forall idle invs)) by done. lia.
  - destruct Hb as [->|(-> & Hi & -> & _)]; [|naive_solver].
    split; [done|]. unfold rounds. destruct (forallb idle invs'), (forallb idle invs); lia.
Qed.

Lemma run_loop_safe fuel : forall invs, group_ok invs -> rounds invs <= Z.of_nat fuel ->
  hsafe (fun invs' => group_ok invs' /\ length invs' = length invs /\ Forall (fun i => done i = true) invs')
    (run_loop fe dialect uses_subgroup_ops fuel invs).
Proof.
  induction fuel as [|fuel IH]; intros invs Hg Hf; cbn [run_loop];
    destruct (forallb done invs) eqn:Ed;
    try (apply hsafe_ret; split; [done|]; split; [done|]; by apply forallb_Forall);
    assert (~ Forall (fun i => done i = true) invs) as Hlive by (rewrite <- forallb_Forall, Ed; done).
  - pose proof (rounds_pos invs Hlive). lia.
  - intros m Hm. unfold mbind at 1, HM_bind at 1. pose proof (round_safe invs Hg m Hm) as Hr.
    destruct (step_round_robin fe dialect uses_subgroup_ops invs m) as [[[b invs'] m']|e] eqn:Es; [|done].
    destruct Hr as ((Hg' & Hlen & Hw) & Hm' & Hsh). cbn [fst snd] in *.
    pose proof (round_measure invs m b invs' m' Hlive Hw Es) as Hmeas.
    pose proof (verify_safe invs' m' Hm') as Hv. unfold mbind, HM_bind, hlift in *.
    destruct (verify_uniform_control_flow invs') as [u|e]; [|intros Hz; by apply Hv, (hzeroable_shape m)].
    assert (forall x, group_ok x -> length x = length invs' -> rounds x < rounds invs ->
      match run_loop fe dialect uses_subgroup_ops fuel x m' with
      | Ok (invs2, m2) => (group_ok invs2 /\ length invs2 = length invs
          /\ Forall (fun i => done i = true) invs2) /\ hmemory_ok m2 /\ same_shape m m2
      | Err e => hzeroable m -> exists w, e = Interp w
      end) as Hnext.
    { intros x Hx Hxl Hxr. pose proof (IH x Hx ltac:(lia) m' Hm') as H.
      destruct (run_loop _ _ _ fuel x m') as [[invs2 m2]|e]; [|intros Hz; by apply H, (hzeroable_shape m)].
      destruct H as ((H1 & H2 & H3) & H4 & H5). split; [split; [done|]; split; [lia|done]|].
      split; [done|]. by trans m'. }
    destruct (release_barrier_if_ready invs') as [released|].
    + destruct Hmeas as [-> Hlt]. apply Hnext; [by apply release_ok|by rewrite length_map|done].
    + destruct Hmeas as [-> Hlt]. cbn [negb andb]. by apply Hnext.
Qed.

(** More fuel does not change an answer. *)
Lemma run_loop_mono fuel : forall invs m r, run_loop fe dialect uses_subgroup_ops fuel invs m = r ->
  r <> Err OutOfFuel -> forall fuel', (fuel <= fuel')%nat ->
  run_loop fe dialect uses_subgroup_ops fuel' invs m = r.
Proof.
  induction fuel as [|fuel IH]; intros invs m r H Hr fuel' Hle.
  { destruct fuel'; cbn [run_loop] in *; by destruct (forallb done invs). }
  destruct fuel' as [|fuel']; [lia|]. cbn [run_loop] in *. destruct (forallb done invs); [done|].
  unfold mbind, HM_bind, hlift in *.
  destruct (step_round_robin fe dialect uses_subgroup_ops invs m) as [[[b invs'] m']|e]; [|done].
  destruct (verify_uniform_control_flow invs') as [u|e]; [|done].
  destruct (release_barrier_if_ready invs'); [apply IH; [done..|lia]|].
  destruct (_ && _); [done|]. apply IH; [done..|lia].
Qed.
End Scheduling.
