(* ===== verification/RefWorkgroup.v ===== *)
(** One workgroup from its declarations to its end: the invocations it creates, the
    memory it resets, and the theorems about the scheduler.

    [element_ok] is what the interpreter needs of a declared element type: a stride the
    index arithmetic cannot overflow and elements of at least one bit; [zero_fits] is that
    its zero value takes at most [ARC_BYTES_MAX] bytes (an out-of-bounds load allocates it). *)

From S2P Require Import Prelude Float Spec IR RefValue RefMemory RefEval RefHash RefSched RefSchedSound.

(** ** Resetting workgroup memory *)

Definition element_ok (t : DataType) : Prop :=
  0 <= DataType.min_bytes t <= 2 ^ 31 /\ (forall w, DataType.bit_width t = Some w -> 0 < w)
  /\ (forall n, DataType.size_bytes t = Some n -> 0 <= n).

Lemma zeros_ok t n : element_ok t -> Z.of_nat n <= USIZE_MAX -> buffer_ok (mkBuffer (replicate n 0) t).
Proof.
  intros Ht Hn. split; [|exact Ht]. split; cbn [buf_bytes].
  - apply Forall_replicate. unfold inu. lia.
  - unfold blen. by rewrite length_replicate.
Qed.
Lemma zero_fill_ok b : buffer_ok b -> buffer_ok (zero_fill b).
Proof. intros [[_ Hl] Ht]. by apply zeros_ok. Qed.

Lemma static_errs decl e : static_byte_len decl = Err e -> exists w, e = Interp w.
Proof. unfold static_byte_len. case_match; [done|]. case_match; [done|]. intros [= <-]. by eexists. Qed.
Lemma byte_len_errs decl e : workgroup_byte_len decl = Err e -> exists w, e = Interp w.
Proof.
  unfold workgroup_byte_len. destruct (static_byte_len decl) as [o|] eqn:E; cbn.
  - destruct o; [done|]. case_match; [done|]. intros [= <-]. by eexists.
  - intros [= <-]. by eapply static_errs.
Qed.

Lemma checked_bits_nonneg t b : data_type_repr t ->
  DataType.checked_bit_width_for_packed_size t = Ok (Some b) -> 0 <= b.
Proof.
  revert b. induction t; cbn; intros b Hr H; simplify_eq; try lia; try tauto; destruct_and?; auto.
  destruct (DataType.checked_bit_width_for_packed_size t) as [[bits|]|]; cbn in H; try done.
  specialize (IHt bits ltac:(done) eq_refl). unfold usize_checked_mul, inu in *.
  destruct (_ <=? _); cbn in H; [|done]. injection H as <-. nia.
Qed.
Lemma checked_size_nonneg t b : data_type_repr t ->
  DataType.checked_size_bytes_for_packed_size t = Ok (Some b) -> 0 <= b.
Proof.
  revert b. induction t; cbn; intros b Hr H; simplify_eq; try lia; try tauto; destruct_and?; auto;
    try (unfold inu in *; lia).
  destruct (DataType.checked_size_bytes_for_packed_size t) as [[bits|]|]; cbn in H; try done.
  specialize (IHt bits ltac:(done) eq_refl). unfold usize_checked_mul, inu in *.
  destruct (_ <=? _); cbn in H; [|done]. injection H as <-. nia.
Qed.
Lemma byte_len_nonneg decl len : data_type_repr (bd_element decl) -> 0 <= bd_count decl ->
  workgroup_byte_len decl = Ok len -> 0 <= len.
Proof.
  intros Ht Hc. unfold workgroup_byte_len, static_byte_len. destruct (bd_count decl =? 0) eqn:E0; cbn.
  { intros [= <-]. lia. }
  destruct (DataType.packed_size_bytes _ _) as [[k|]|] eqn:E; cbn; try done. intros [= <-].
  unfold DataType.packed_size_bytes in E.
  destruct (DataType.checked_bit_width_for_packed_size (bd_element decl)) as [[bits|]|] eqn:Eb; cbn in E; try done.
  - unfold usize_checked_mul, usize_checked_add in E.
    destruct (bits * _ <=? _); cbn in E; [|done]. destruct (_ + 7 <=? _); cbn in E; [|done].
    injection E as <-. pose proof (checked_bits_nonneg _ _ Ht Eb). apply Z.div_pos; nia.
  - destruct (DataType.checked_size_bytes_for_packed_size (bd_element decl)) as [[n|]|] eqn:Es; cbn in E; try done.
    unfold usize_checked_mul in E. destruct (_ <=? _); cbn in E; [|done]. injection E as <-.
    pose proof (checked_size_nonneg _ _ Ht Es). nia.
Qed.

Definition decl_ok (decl : BufferDecl) : Prop :=
  data_type_repr (bd_element decl) /\ element_ok (bd_element decl) /\ 0 <= bd_count decl.

Definition all_zero (t : gmap string Buffer) : Prop :=
  map_Forall (fun _ b => Forall (eq 0) (buf_bytes b)) t.

(** Allocation: within the budget, every buffer zeroed. *)
Definition alloc_ok (st : gmap string Buffer * Z) : Prop :=
  buffers_ok st.1 /\ all_zero st.1 /\ 0 <= st.2 <= MAX_WORKGROUP_BYTES.
Lemma alloc_empty : alloc_ok (∅, 0).
Proof. split; [apply map_Forall_empty|]. split; [apply map_Forall_empty|]. unfold MAX_WORKGROUP_BYTES. cbn. lia. Qed.
Lemma allocate_ok st decl : decl_ok decl -> alloc_ok st ->
  match allocate st decl with Ok st' => alloc_ok st' | Err e => exists w, e = Interp w end.
Proof.
  intros (Hr & Ht & Hc) (Hb & Hz & Ha). unfold allocate, alloc_ok.
  destruct (workgroup_byte_len decl) as [len|e] eqn:El; cbn [mbind result_bind]; [|by eapply byte_len_errs].
  pose proof (byte_len_nonneg decl len Hr Hc El).
  unfold usize_checked_add. destruct (st.2 + len <=? USIZE_MAX); cbn [ok_or mbind result_bind]; [|by eexists].
  destruct (Z.ltb_spec MAX_WORKGROUP_BYTES (st.2 + len)); cbn [reject_if mbind result_bind]; [by eexists|].
  cbn [fst snd]. split; [|split; [|lia]]; (apply map_Forall_insert_2; [|done]).
  - apply zeros_ok; [done|]. unfold MAX_WORKGROUP_BYTES in *. lia.
  - by apply Forall_replicate.
Qed.
Lemma workgroup_memory_ok p : Forall decl_ok (buffers p) ->
  match workgroup_memory p with Ok w => buffers_ok w /\ all_zero w | Err e => exists w, e = Interp w end.
Proof.
  intros Hp. assert (Forall decl_ok (workgroup_decls p)) as Hd.
  { apply Forall_forall. intros d [_ Hd]%list_elem_of_filter. rewrite Forall_forall in Hp. auto. }
  assert (forall decls st, Forall decl_ok decls -> alloc_ok st ->
    match try_fold allocate st decls with Ok st' => alloc_ok st' | Err e => exists w, e = Interp w end) as H.
  { induction decls as [|d decls IH]; intros st Hds Hst; cbn [try_fold]; [done|].
    apply Forall_cons in Hds as [Hd1 Hds]. pose proof (allocate_ok st d Hd1 Hst) as H1.
    destruct (allocate st d) as [st'|e]; cbn [mbind result_bind]; [by apply IH|done]. }
  specialize (H (workgroup_decls p) (∅, 0) Hd alloc_empty). unfold workgroup_memory.
  destruct (try_fold allocate (∅, 0) (workgroup_decls p)) as [st|e]; cbn [mbind result_bind]; [|done].
  by destruct H as (? & ? & _).
Qed.
Lemma same_layout_errs w decls e : same_layout w decls = Err e -> exists s, e = Interp s.
Proof.
  induction decls as [|d decls IH]; cbn [same_layout]; [done|]. destruct (w !! bd_name d); [|done].
  destruct (workgroup_byte_len d) as [len|x] eqn:E; cbn [mbind result_bind].
  - destruct (_ || _); [done|exact IH].
  - intros [= <-]. by eapply byte_len_errs.
Qed.
Lemma reset_workgroup_ok m p : Forall decl_ok (buffers p) -> hmemory_ok m ->
  match reset_workgroup m p with
  | Ok m' => hmemory_ok m' /\ hm_storage m' = hm_storage m /\ all_zero (hm_workgroup m')
  | Err e => exists w, e = Interp w
  end.
Proof.
  intros Hp [Hs Hw]. unfold reset_workgroup, zero_existing_workgroup.
  destruct (same_layout (hm_workgroup m) (workgroup_decls p)) as [same|e] eqn:E; cbn [mbind result_bind].
  2: by eapply same_layout_errs.
  destruct (same && _); cbn [mbind result_bind].
  - split; [split; [done|]|split; [done|]]; cbn [hm_workgroup]; apply map_Forall_fmap;
      (eapply map_Forall_impl; [exact Hw|]); intros name b Hb; [by apply zero_fill_ok|by apply Forall_replicate].
  - pose proof (workgroup_memory_ok p Hp) as H. destruct (workgroup_memory p); [|done]. by destruct H.
Qed.

(** The zero of every declared element type can be allocated. *)
Definition zero_decls (p : Program) : Prop := Forall (fun d => zero_fits (bd_element d)) (buffers p).
Lemma allocate_zero st decl st' : zero_fits (bd_element decl) -> fits_zero st.1 ->
  allocate st decl = Ok st' -> fits_zero st'.1.
Proof.
  intros Hd Hst. unfold allocate. intros (len & _ & H)%bind_Ok. revert H.
  intros (total & _ & H)%bind_Ok. revert H. intros (u & _ & [= <-])%bind_Ok. by apply map_Forall_insert_2.
Qed.
Lemma reset_zeroable m p m' : zero_decls p -> hzeroable m -> reset_workgroup m p = Ok m' -> hzeroable m'.
Proof.
  intros Hp [Hs Hw]. assert (Forall (fun d => zero_fits (bd_element d)) (workgroup_decls p)) as Hd.
  { apply Forall_forall. intros d [_ Hd]%list_elem_of_filter. unfold zero_decls in Hp. rewrite Forall_forall in Hp. auto. }
  assert (forall decls st st', Forall (fun d => zero_fits (bd_element d)) decls -> fits_zero st.1 ->
    try_fold allocate st decls = Ok st' -> fits_zero st'.1) as H.
  { induction decls as [|d decls IH]; intros st st' Hds Hst; cbn [try_fold]; [by intros [= <-]|].
    apply Forall_cons in Hds as [Hd1 Hds]. intros (st1 & H1 & H2)%bind_Ok.
    apply (IH st1); [done| |done]. by apply (allocate_zero st d). }
  unfold reset_workgroup, zero_existing_workgroup, workgroup_memory.
  destruct (same_layout (hm_workgroup m) (workgroup_decls p)) as [same|e]; cbn [mbind result_bind]; [|done].
  destruct (same && _); cbn [mbind result_bind].
  - intros [= <-]. split; [done|]. apply map_Forall_fmap. exact Hw.
  - destruct (try_fold allocate (∅, 0) (workgroup_decls p)) as [st|e] eqn:E; cbn [mbind result_bind]; [|done].
    intros [= <-]. split; [done|]. apply (H (workgroup_decls p) (∅, 0)); [done|apply map_Forall_empty|done].
Qed.

(** ** The invocations of a workgroup *)

Lemma z_range_lookup n k z : z_range n !! k = Some z -> z = Z.of_nat k /\ 0 <= z < n.
Proof.
  unfold z_range. rewrite list_lookup_fmap, fmap_Some. intros (j & Hj%lookup_seq & ->). lia.
Qed.
Lemma z_range_length n : length (z_range n) = Z.to_nat n.
Proof. unfold z_range. by rewrite length_map, length_seq. Qed.
Lemma flat_map_blocks {A B} (f : A -> list B) n l k b : (forall a, length (f a) = n) ->
  flat_map f l !! k = Some b ->
  exists q r a, k = (q * n + r)%nat /\ l !! q = Some a /\ f a !! r = Some b.
Proof.
  intros Hn. revert k. induction l as [|a l IH]; intros k; [done|]. cbn [flat_map].
  rewrite lookup_app_Some, Hn. intros [Hk|[Hge Hk]]; [by exists 0%nat, k, a|].
  destruct (IH _ Hk) as (q & r & c & E & Hc & Hr). exists (S q), r, c. split; [lia|done].
Qed.
Lemma flat_map_length {A B} (f : A -> list B) n l : (forall a, length (f a) = n) ->
  length (flat_map f l) = (length l * n)%nat.
Proof. intros Hn. induction l as [|a l IH]; [done|]. cbn. rewrite length_app, Hn, IH. lia. Qed.

(** Local ids are numbered x first, then y, then z. *)
Lemma local_ids_lookup sx sy sz k x y z : local_ids (sx, sy, sz) !! k = Some (x, y, z) ->
  0 <= x < sx /\ 0 <= y < sy /\ 0 <= z < sz /\ Z.of_nat k = x + sx * (y + sy * z).
Proof.
  cbn [local_ids]. intros H.
  apply (flat_map_blocks _ (Z.to_nat sy * Z.to_nat sx)) in H as (qz & r & z' & -> & Hz & H).
  2: { intros a. erewrite flat_map_length; [by rewrite z_range_length|].
       intros b. by rewrite length_map, z_range_length. }
  apply (flat_map_blocks _ (Z.to_nat sx)) in H as (qy & r' & y' & -> & Hy & H).
  2: { intros b. by rewrite length_map, z_range_length. }
  rewrite list_lookup_fmap, fmap_Some in H. destruct H as (x' & Hx & E). injection E as -> -> ->.
  apply z_range_lookup in Hx, Hy, Hz. nia.
Qed.
Lemma local_ids_length sx sy sz :
  length (local_ids (sx, sy, sz)) = (Z.to_nat sz * (Z.to_nat sy * Z.to_nat sx))%nat.
Proof.
  cbn [local_ids]. erewrite flat_map_length; [by rewrite z_range_length|].
  intros a. erewrite flat_map_length; [by rewrite z_range_length|].
  intros b. by rewrite length_map, z_range_length.
Qed.

(** What the invocation created for a local id is. *)
Definition created (size wg : Z * Z * Z) (entry : list Node) (k : nat) (local : Z * Z * Z)
    (i : HashmapInvocation) : Prop :=
  let '(sx, sy, sz) := size in let '(wx, wy, wz) := wg in let '(x, y, z) := local in
  let g := (wx * sx + x, wy * sy + y, wz * sz + z) in
  i = invocation_new (mkInvocationIds g wg local) (wrapu 32 (Z.of_nat k)) entry
  /\ wx * sx + x <= U32_MAX /\ wy * sy + y <= U32_MAX /\ wz * sz + z <= U32_MAX.
Lemma global_dim_Ok w s l g : global_dim w s l = Ok g -> g = w * s + l /\ g <= U32_MAX.
Proof.
  unfold global_dim, u32_checked_mul, u32_checked_add.
  destruct (w * s <=? U32_MAX); cbn; [|done]. destruct (Z.leb_spec (w * s + l) U32_MAX); cbn; [|done].
  by intros [= <-].
Qed.
Lemma create_one_Ok size wg entry acc local invs :
  create_one size wg entry acc local = Ok invs ->
  exists i, invs = acc ++ [i] /\ created size wg entry (length acc) local i.
Proof.
  destruct size as [[sx sy] sz], wg as [[wx wy] wz], local as [[x y] z]. unfold create_one.
  intros (gx & [-> Hx]%global_dim_Ok & H)%bind_Ok. apply bind_Ok in H as (gy & [-> Hy]%global_dim_Ok & H).
  apply bind_Ok in H as (gz & [-> Hz]%global_dim_Ok & H). injection H as <-.
  eexists. split; [reflexivity|]. split; [reflexivity|]. by split_and!.
Qed.
Lemma create_fold_Ok size wg entry locals : forall acc invs,
  try_fold (create_one size wg entry) acc locals = Ok invs ->
  exists news, invs = acc ++ news /\ length news = length locals
    /\ forall j i, news !! j = Some i ->
         exists l, locals !! j = Some l /\ created size wg entry (length acc + j) l i.
Proof.
  induction locals as [|l locals IH]; intros acc invs H; cbn [try_fold] in H.
  { injection H as <-. exists []. by rewrite app_nil_r. }
  apply bind_Ok in H as (acc' & H1 & H). apply create_one_Ok in H1 as (i & -> & Hi).
  destruct (IH _ _ H) as (news & -> & Hlen & Hnews). exists (i :: news). rewrite <- app_assoc.
  split; [done|]. split; [cbn; lia|]. intros [|j] i' Hj; cbn in Hj |- *.
  - injection Hj as <-. exists l. by rewrite Nat.add_0_r.
  - destruct (Hnews j i' Hj) as (l' & Hl' & Hc). exists l'. split; [done|].
    rewrite length_app in Hc. cbn in Hc. by replace (length acc + S j)%nat with (length acc + 1 + j)%nat by lia.
Qed.
Lemma create_errs p wg entry e : create_invocations p wg entry = Err e -> exists w, e = Interp w.
Proof.
  assert (forall w s l e, global_dim w s l = Err e -> exists x, e = Interp x) as Hg.
  { intros w s l e'. unfold global_dim.
    destruct (base ← u32_checked_mul w s; u32_checked_add base l); cbn; [done|]. intros [= <-]. by eexists. }
  assert (forall size acc l e, create_one size wg entry acc l = Err e -> exists x, e = Interp x) as H1.
  { intros [[sx sy] sz] acc [[x y] z] e'. destruct wg as [[wx wy] wz]. unfold create_one.
    destruct (global_dim wx sx x) eqn:E1; cbn [mbind result_bind]; [|intros [= <-]; by eapply Hg].
    destruct (global_dim wy sy y) eqn:E2; cbn [mbind result_bind]; [|intros [= <-]; by eapply Hg].
    destruct (global_dim wz sz z) eqn:E3; cbn [mbind result_bind]; [done|intros [= <-]; by eapply Hg]. }
  unfold create_invocations. destruct (workgroup_size p) as [[sx sy] sz].
  destruct (count ← u32_checked_mul sx sy; u32_checked_mul count sz);
    cbn [ok_or mbind result_bind]; [|intros [= <-]; by eexists].
  generalize (@nil HashmapInvocation) as acc. induction (local_ids (sx, sy, sz)) as [|l ls IH]; [done|].
  intros acc. cbn [try_fold]. destruct (create_one _ wg entry acc l) eqn:E; cbn [mbind result_bind]; [apply IH|].
  intros [= <-]. by eapply H1.
Qed.

(** The numbering of a workgroup. *)
Lemma create_invocations_Ok p wg entry invs sx sy sz : workgroup_size p = (sx, sy, sz) ->
  0 <= sx -> 0 <= sy -> 0 <= sz -> create_invocations p wg entry = Ok invs ->
  Z.of_nat (length invs) = sx * sy * sz /\ sx * sy * sz <= U32_MAX
  /\ forall k i, invs !! k = Some i -> exists x y z, created (sx, sy, sz) wg entry k (x, y, z) i
       /\ 0 <= x < sx /\ 0 <= y < sy /\ 0 <= z < sz /\ Z.of_nat k = x + sx * (y + sy * z).
Proof.
  intros Hp Hx Hy Hz H. unfold create_invocations in H. rewrite Hp in H.
  unfold u32_checked_mul in H. destruct (Z.leb_spec (sx * sy) U32_MAX); cbn [mbind option_bind] in H; [|done].
  destruct (Z.leb_spec (sx * sy * sz) U32_MAX); cbn [ok_or mbind result_bind] in H; [|done].
  apply create_fold_Ok in H as (news & -> & Hlen & Hn). cbn [app length] in *.
  split; [rewrite Hlen, local_ids_length; nia|]. split; [done|].
  intros k i Hk. destruct (Hn k i Hk) as ([[x y] z] & Hl & Hc). exists x, y, z. split; [done|].
  by apply local_ids_lookup in Hl.
Qed.

(** ** Workgroups do not see each other's memory *)

Lemma allocate_fold decls : forall st st', NoDup (bd_name <$> decls) ->
  try_fold allocate st decls = Ok st' ->
  (forall d, d ∈ decls -> exists len, workgroup_byte_len d = Ok len
     /\ st'.1 !! bd_name d = Some (zeroed len (bd_element d)))
  /\ (forall x, x ∉ bd_name <$> decls -> st'.1 !! x = st.1 !! x).
Proof.
  induction decls as [|d decls IH]; intros st st' Hn H; cbn [try_fold] in H.
  { injection H as <-. split; [by intros d ?%elem_of_nil|done]. }
  apply bind_Ok in H as (st1 & Ha & H). rewrite fmap_cons in Hn. apply NoDup_cons in Hn as [Hnew Hn].
  unfold allocate in Ha. apply bind_Ok in Ha as (len & El & Ha). apply bind_Ok in Ha as (k & _ & Ha).
  apply bind_Ok in Ha as (u & _ & [= <-]). destruct (IH _ _ Hn H) as [H1 H2]. cbn [fst] in H2. split.
  - intros d' [->|Hd']%elem_of_cons; [|by apply H1]. exists len. split; [done|].
    by rewrite H2, lookup_insert_eq.
  - intros x Hx. rewrite fmap_cons, not_elem_of_cons in Hx. destruct Hx as [Hne Hx].
    by rewrite H2, lookup_insert_ne by done.
Qed.
Lemma same_layout_true w decls : same_layout w decls = Ok true ->
  forall d, d ∈ decls -> exists b, w !! bd_name d = Some b /\ buf_element b = bd_element d
    /\ workgroup_byte_len d = Ok (blen (buf_bytes b)).
Proof.
  induction decls as [|d decls IH]; intros H d'; [by intros ?%elem_of_nil|]. cbn [same_layout] in H.
  destruct (w !! bd_name d) as [b|] eqn:Eb; [|done].
  destruct (workgroup_byte_len d) as [len|] eqn:El; cbn [mbind result_bind] in H; [|done].
  destruct (negb _ || negb _) eqn:E; [done|]. apply orb_false_iff in E as [E1 E2].
  apply negb_false_iff, bool_decide_eq_true in E1. apply negb_false_iff, Z.eqb_eq in E2.
  intros [->|Hd]%elem_of_cons; [|by apply IH]. exists b. by rewrite El, E2.
Qed.
Lemma same_layout_total w decls : (forall d, d ∈ decls -> exists len, workgroup_byte_len d = Ok len) ->
  exists b, same_layout w decls = Ok b.
Proof.
  induction decls as [|d decls IH]; intros H; cbn [same_layout]; [by eexists|].
  destruct (w !! bd_name d); [|by eexists]. destruct (H d) as [len ->]; [by left|]. cbn [mbind result_bind].
  destruct (_ || _); [by eexists|]. apply IH. intros d' Hd'. apply H. by right.
Qed.

Lemma reset_fresh p w s old : NoDup (bd_name <$> workgroup_decls p) -> workgroup_memory p = Ok w ->
  reset_workgroup (mkHashmapMemory s old) p = Ok (mkHashmapMemory s w).
Proof.
  intros Hn Hw. pose proof Hw as (st & Hst & [= <-])%bind_Ok.
  destruct (allocate_fold _ _ _ Hn Hst) as [Hin Hout]. cbn [fst] in Hout.
  unfold reset_workgroup, zero_existing_workgroup. cbn [hm_workgroup hm_storage].
  destruct (same_layout_total old (workgroup_decls p)) as [same E].
  { intros d Hd. destruct (Hin d Hd) as (len & ? & _). eauto. }
  rewrite E. cbn [mbind result_bind]. destruct same; [|cbn [andb mbind result_bind]; by rewrite Hw].
  destruct (Nat.eqb_spec (size old) (length (workgroup_decls p))) as [Hs|]; cbn [andb mbind result_bind];
    [|by rewrite Hw].
  do 2 f_equal. pose proof (same_layout_true _ _ E) as Hl.
  assert (list_to_set (bd_name <$> workgroup_decls p) = dom old) as Hdom.
  { apply set_subseteq_size_eq.
    - intros x [d [-> Hd]]%elem_of_list_to_set%list_elem_of_fmap. apply elem_of_dom.
      destruct (Hl d Hd) as (b & ? & _). by exists b.
    - rewrite size_dom, size_list_to_set by done. rewrite length_fmap. lia. }
  apply map_eq. intros x. rewrite lookup_fmap. destruct (decide (x ∈ bd_name <$> workgroup_decls p)) as [Hx|Hx].
  - apply list_elem_of_fmap in Hx as (d & -> & Hd). destruct (Hin d Hd) as (len & El & ->).
    destruct (Hl d Hd) as (b & -> & He & El'). rewrite El in El'. injection El' as ->. cbn.
    unfold zero_fill, zeroed, blen. by rewrite He, Nat2Z.id.
  - rewrite Hout by done. cbn. assert (x ∉ dom old) as Hd by (rewrite <- Hdom; by rewrite elem_of_list_to_set).
    apply not_elem_of_dom in Hd. by rewrite Hd, lookup_empty.
Qed.

(** ** A fresh workgroup satisfies the invariant *)

Lemma fresh_inv_ok P n ids k entry : ids_ok ids -> 0 <= k < n -> Forall (runnable P) entry ->
  inv_ok P n (invocation_new ids k entry).
Proof.
  intros Hi Hk He. split; [done|done|apply locals_new_ok|by repeat constructor|by right|apply map_Forall_empty].
Qed.
Lemma fresh_work ids k entry : work (invocation_new ids k entry) = 1 + nodes_work entry.
Proof. unfold work, frames_work. cbn [invocation_new hi_frames foldr frame_steps]. rewrite drop_0. lia. Qed.

Definition workgroup_count (p : Program) : Z := let '(sx, sy, sz) := workgroup_size p in sx * sy * sz.
(** Rounds that are always enough: every invocation takes at most its work in steps, and
    each of them may be followed by a round that only opens a barrier. *)
Definition workgroup_fuel (p : Program) : nat :=
  Z.to_nat (2 * (workgroup_count p * (1 + nodes_work (entry p))) + 1).

Lemma create_group uses p wg invs : dims_ok (workgroup_size p) -> dims_ok wg ->
  Forall (runnable (admissible uses)) (entry p) -> create_invocations p wg (entry p) = Ok invs ->
  group_ok uses invs /\ rounds invs <= Z.of_nat (workgroup_fuel p).
Proof.
  unfold workgroup_fuel, workgroup_count. destruct (workgroup_size p) as [[sx sy] sz] eqn:Es.
  destruct wg as [[wx wy] wz]. intros (Hx & Hy & Hz) Hwg He H. unfold inu in Hx, Hy, Hz.
  destruct (create_invocations_Ok p (wx, wy, wz) (entry p) invs sx sy sz Es) as (Hlen & Hmax & Hk); [lia..|done|].
  assert (Forall (fun i => inv_ok (admissible uses) (Z.of_nat (length invs)) i
    /\ work i = 1 + nodes_work (entry p)) invs) as Hall.
  { apply Forall_lookup_2. intros k i Hi. destruct (Hk k i Hi) as (x & y & z & (-> & Hgx & Hgy & Hgz) & Hb).
    pose proof (lookup_lt_Some _ _ _ Hi). split; [|apply fresh_work].
    rewrite wrapu_id by (unfold inu; lia). destruct Hwg as (Hwx & Hwy & Hwz). unfold inu in *.
    apply fresh_inv_ok; [|lia|done]. split_and!; cbn; unfold inu; nia. }
  split; [eapply Forall_impl; [exact Hall|]; by intros i [? ?]|].
  assert (total_work invs = Z.of_nat (length invs) * (1 + nodes_work (entry p))) as Hw.
  { clear -Hall. unfold total_work. induction Hall as [|i l [_ Hi] _ IH]; [done|]. cbn [foldr length]. lia. }
  pose proof (nodes_work_nonneg (entry p)). unfold rounds. rewrite Hw, Hlen.
  rewrite Z2Nat.id by nia. destruct (forallb idle invs); lia.
Qed.

(** A workgroup runs to an end. *)
Lemma run_workgroup_safe fe dialect uses p wg m
    (Hd : dialect_ok dialect) (Hdecls : Forall decl_ok (buffers p))
    (Hsize : dims_ok (workgroup_size p)) (Hwg : dims_ok wg)
    (Hentry : Forall (runnable (admissible uses)) (entry p)) (Hm : hmemory_ok m)
    (Hzd : zero_decls p) (Hz : hzeroable m) :
  exists r, (forall fuel, (workgroup_fuel p <= fuel)%nat ->
      run_workgroup fe dialect uses fuel p wg m = r)
    /\ match r with
       | Ok (_, m') => hmemory_ok m' /\ hzeroable m' /\ buffer_shape <$> hm_storage m' = buffer_shape <$> hm_storage m
       | Err e => exists what, e = Interp what
       end.
Proof.
  exists (run_workgroup fe dialect uses (workgroup_fuel p) p wg m). unfold run_workgroup, mbind, HM_bind, hget, hlift, hput.
  pose proof (reset_workgroup_ok m p Hdecls Hm) as Hr. destruct (reset_workgroup m p) as [m1|e] eqn:Er; [|done].
  destruct Hr as (Hm1 & Hst & _). pose proof (reset_zeroable m p m1 Hzd Hz Er) as Hz1.
  destruct (create_invocations p wg (entry p)) as [invs|e] eqn:Ec; [|split; [done|by eapply create_errs]].
  destruct (create_group uses p wg invs Hsize Hwg Hentry Ec) as [Hg Hf].
  pose proof (run_loop_safe fe dialect Hd uses _ invs Hg Hf m1 Hm1) as H.
  pose proof (run_loop_mono fe dialect uses (workgroup_fuel p) invs m1 _ eq_refl) as Hmono.
  unfold run_invocations, mbind, HM_bind in *.
  destruct (run_loop fe dialect uses (workgroup_fuel p) invs m1) as [[invs' m']|e].
  - split; [intros fuel Hle; by rewrite Hmono|]. destruct H as (_ & Hm' & Hsh).
    destruct (existsb _ invs'); [by eexists|]. split; [done|]. split; [by apply (hzeroable_shape m1)|].
    destruct Hsh as [Hsh _]. by rewrite Hsh, Hst.
  - destruct (H Hz1) as [what ->]. split; [intros fuel Hle; by rewrite Hmono|by eexists].
Qed.

(** ** The scheduler as a step relation *)

Inductive sched_step (fe : FloatEnv) (dialect : option (string -> option OpDef)) (uses : bool)
    : list HashmapInvocation * HashmapMemory -> list HashmapInvocation * HashmapMemory -> Prop :=
| sched_round invs m progress invs' m' :
    step_round_robin fe dialect uses invs m = Ok (progress, invs', m') ->
    sched_step fe dialect uses (invs, m) (invs', m')
| sched_release invs m released :
    release_barrier_if_ready invs = Some released ->
    sched_step fe dialect uses (invs, m) (released, m).

Lemma reachable_ok fe dialect (Hd : dialect_ok dialect) uses s s' :
  rtc (sched_step fe dialect uses) s s' -> group_ok uses s.1 -> hmemory_ok s.2 ->
  group_ok uses s'.1 /\ length s'.1 = length s.1 /\ hmemory_ok s'.2 /\ same_shape s.2 s'.2.
Proof.
  induction 1 as [s|s1 s2 s3 Hstep _ IH]; intros Hg Hm; [done|].
  assert (group_ok uses s2.1 /\ length s2.1 = length s1.1 /\ hmemory_ok s2.2 /\ same_shape s1.2 s2.2)
    as (Hg2 & Hl2 & Hm2 & Hs2).
  { destruct Hstep as [invs m b invs' m' Hr|invs m released Hr]; cbn [fst snd] in *.
    - pose proof (round_safe fe dialect Hd uses invs Hg m Hm) as H. rewrite Hr in H.
      by destruct H as ((? & ? & _) & ? & ?).
    - rewrite release_spec in Hr. case_decide; [|done]. injection Hr as <-.
      split; [by apply release_ok|]. by rewrite length_map. }
  destruct (IH Hg2 Hm2) as (? & ? & ? & ?). split; [done|]. split; [congruence|]. split; [done|].
  by trans s2.2.
Qed.

(** The loop only takes scheduler steps. *)
Lemma run_loop_reaches fe dialect uses fuel : forall invs m invs' m',
  run_loop fe dialect uses fuel invs m = Ok (invs', m') -> rtc (sched_step fe dialect uses) (invs, m) (invs', m').
Proof.
  induction fuel as [|fuel IH]; intros invs m invs' m'; cbn [run_loop];
    (destruct (forallb done invs); [intros [= <- <-]; apply rtc_refl|]); [done|].
  unfold mbind, HM_bind, hlift.
  destruct (step_round_robin fe dialect uses invs m) as [[[b invs1] m1]|e] eqn:Es; [|done].
  destruct (verify_uniform_control_flow invs1) as [u|e]; [|done].
  pose proof (sched_round fe dialect uses _ _ _ _ _ Es) as H1.
  destruct (release_barrier_if_ready invs1) as [released|] eqn:Er; intros H.
  - eapply rtc_l; [exact H1|]. eapply rtc_l; [by apply sched_release|]. by apply IH.
  - destruct (_ && _); [done|]. eapply rtc_l; [exact H1|]. by apply IH.
Qed.
(** Memory after a workgroup that ended, whatever the fuel. *)
Lemma run_workgroup_keeps fe dialect uses fuel p wg m u m' : dialect_ok dialect -> Forall decl_ok (buffers p) ->
  dims_ok (workgroup_size p) -> dims_ok wg -> Forall (runnable (admissible uses)) (entry p) -> hmemory_ok m ->
  run_workgroup fe dialect uses fuel p wg m = Ok (u, m') ->
  hmemory_ok m' /\ buffer_shape <$> hm_storage m' = buffer_shape <$> hm_storage m.
Proof.
  intros Hd Hdecls Hsize Hwg Hentry Hm. unfold run_workgroup, run_invocations, mbind, HM_bind, hget, hlift, hput.
  pose proof (reset_workgroup_ok m p Hdecls Hm) as Hr. destruct (reset_workgroup m p) as [m1|e]; [|done].
  destruct Hr as (Hm1 & Hst & _).
  destruct (create_invocations p wg (entry p)) as [invs|e] eqn:Ec; [|done].
  destruct (create_group uses p wg invs Hsize Hwg Hentry Ec) as [Hg _].
  destruct (run_loop fe dialect uses fuel invs m1) as [[invs' m2]|e] eqn:El; [|done].
  apply run_loop_reaches in El. destruct (reachable_ok fe dialect Hd uses _ _ El Hg Hm1) as (_ & _ & Hm2 & Hsh & _).
  destruct (existsb _ invs'); [done|]. intros [= _ <-]. split; [done|]. cbn [snd] in Hsh. by rewrite Hsh, Hst.
Qed.

Module Workgroup.

(** C4: a workgroup always runs to an end: for declared element types with a stride of
    at most 2^31 bytes, at least one bit and a zero value of at most [ARC_BYTES_MAX] bytes,
    well-formed identifiers and memory, and statements whose transfer sizes are [u32]
    literals (and which use subgroup operations only where the workgroup collects its
    lanes), running a workgroup with
    any fuel from the bound on (twice the work of its invocations plus one) gives the
    same result; it is a finished workgroup with memory well formed and storage of the
    same shape, or a structured interpreter error: never a panic, never out of fuel, and
    no barrier waits forever. *)
Theorem run_workgroup_total fe dialect uses p wg m
    (Hd : dialect_ok dialect) (Hdecls : Forall decl_ok (buffers p))
    (Hsize : dims_ok (workgroup_size p)) (Hwg : dims_ok wg)
    (Hentry : Forall (runnable (admissible uses)) (entry p)) (Hm : hmemory_ok m)
    (Hzd : zero_decls p) (Hz : hzeroable m) :
  exists r, (forall fuel, (workgroup_fuel p <= fuel)%nat ->
      run_workgroup fe dialect uses fuel p wg m = r)
    /\ match r with
       | Ok (_, m') => hmemory_ok m' /\ buffer_shape <$> hm_storage m' = buffer_shape <$> hm_storage m
       | Err e => exists what, e = Interp what
       end.
Proof.
  destruct (run_workgroup_safe fe dialect uses p wg m) as (r & Hr & H); [done..|].
  exists r. split; [done|]. destruct r as [[? m']|e]; [|done]. by destruct H as (? & _ & ?).
Qed.

(** Two invocations exchange their ids through workgroup memory:
    [scratch[lid] = lid; barrier; out[lid] = scratch[1 - lid]]. *)
Definition decl (name : string) (access : BufferAccess) : BufferDecl :=
  mkBufferDecl name 0 access MemoryKind.Global DataType.U32 2 false false None
    (mkMemoryHints None 0 CacheLocality.Temporal) false LinearType.Unrestricted None.
Definition lid : Expr := Expr.LocalId 0.
Definition barrier : Node := Node.Barrier MemoryOrdering.SeqCst.
Definition swap_program : Program :=
  mkProgram None [decl "out" BufferAccess.ReadWrite; decl "scratch" BufferAccess.Workgroup] (2, 1, 1)
    [Node.Store "scratch" lid lid; barrier;
     Node.Store "out" lid (Expr.Load "scratch" (Expr.BinOp BinOp.Sub (Expr.LitU32 1) lid))] false.
Definition words (l : list Z) : Buffer := mkBuffer (flat_map (le_bytes 4) l) DataType.U32.
Definition swap_memory (l : list Z) : HashmapMemory := mkHashmapMemory {[ "out" := words l ]} ∅.
(** The hypotheses about [swap_program] and its memory. *)
Ltac swap_hypotheses := first
  [ by intros ?
  | cbn; unfold inu; lia
  | by (repeat constructor; cbn; try lia; try (by intros ? [= <-]); try (by intros ?))
  | by (repeat constructor; cbn; unfold inu; try lia; auto)
  | split; [|apply map_Forall_empty]; apply map_Forall_singleton; split;
    [split; [vm_compute; repeat constructor; discriminate|by vm_compute]
    |cbn; split; [lia|]; split; intros ? [= <-]; lia] ].
Lemma run_workgroup_total_witness :
  exists m', hm_storage m' = {[ "out" := words [1; 0] ]} /\ hmemory_ok m'
    /\ forall fuel, (17 <= fuel)%nat ->
         run_workgroup TypedOps.zero_env None true fuel swap_program (0, 0, 0) (swap_memory [9; 9]) = Ok (tt, m').
Proof.
  destruct (run_workgroup_total TypedOps.zero_env None true swap_program (0, 0, 0) (swap_memory [9; 9]))
    as (r & Hr & H).
  1-6: swap_hypotheses.
  - by repeat constructor.
  - split; [|apply map_Forall_empty]. apply map_Forall_singleton. by intros ?.
  - pose proof (Hr 17%nat ltac:(by vm_compute)) as E. vm_compute in E. rewrite <- E in Hr, H.
    eexists. split; [|split; [apply H|exact Hr]]. by vm_compute.
Defined.

(** C22: a barrier separates: during a round an invocation that waits (or is finished) is
    not touched, and afterwards the barrier opens exactly when somebody is live and
    every live invocation waits; it then opens for all of them at once. *)
Theorem barrier_separates fe dialect uses invs m progress invs' m'
    (Hround : step_round_robin fe dialect uses invs m = Ok (progress, invs', m')) :
  Forall2 (fun i i' => hi_waiting i = true -> i' = i) invs invs'
  /\ match release_barrier_if_ready invs' with
     | Some released => Forall (fun i => done i = false -> hi_waiting i = true) invs'
         /\ released = map (fun i => with_waiting i false) invs'
     | None => Forall (fun i => done i = true) invs'
         \/ Exists (fun i => done i = false /\ hi_waiting i = false) invs'
     end.
Proof.
  split.
  - eapply Forall2_impl; [exact (step_all_skips _ _ _ _ _ _ _ _ Hround)|]. cbv beta.
    intros i i' H Hw. apply H. unfold idle. rewrite Hw. apply orb_true_r.
  - rewrite release_spec. case_decide as Hr.
    + split; [|done]. destruct Hr as [Hi _]. eapply Forall_impl; [exact Hi|]. unfold idle.
      intros i Hi' Hd. by rewrite Hd in Hi'.
    + destruct (decide (Forall (fun i => done i = true) invs')) as [|Hn]; [by left|right].
      assert (~ Forall (fun i => idle i = true) invs') as Hni by tauto.
      apply not_Forall_Exists in Hni; [|solve_decision]. eapply Exists_impl; [exact Hni|].
      intros i Hi. unfold compose, idle in Hi. by destruct (done i), (hi_waiting i).
Qed.
Definition at_barrier (k : Z) : HashmapInvocation :=
  with_waiting (invocation_new (mkInvocationIds (k, 0, 0) (0, 0, 0) (k, 0, 0)) k [barrier]) true.
Definition running (k : Z) : HashmapInvocation := with_waiting (at_barrier k) false.
Lemma barrier_separates_witness :
  exists i', step_round_robin TypedOps.zero_env None true [at_barrier 0; running 1] (swap_memory [9; 9])
             = Ok (true, [at_barrier 0; i'], swap_memory [9; 9])
    /\ release_barrier_if_ready [at_barrier 0; i'] <> None
    /\ Forall2 (fun i i' => hi_waiting i = true -> i' = i) [at_barrier 0; running 1] [at_barrier 0; i'].
Proof.
  assert (exists i', step_round_robin TypedOps.zero_env None true [at_barrier 0; running 1] (swap_memory [9; 9])
    = Ok (true, [at_barrier 0; i'], swap_memory [9; 9])) as [i' E] by (eexists; vm_compute; reflexivity).
  exists i'. split; [exact E|]. destruct (barrier_separates _ _ _ _ _ _ _ _ E) as [Hw Hr].
  split; [|exact Hw]. vm_compute in E. injection E as <-. vm_compute. discriminate.
Defined.

(** C14: a barrier never deadlocks: as long as somebody is live, a round that lets nobody
    run finds every live invocation at the barrier and opens it; the error for
    invocations that did not reach the same barrier is never raised. *)
Theorem barrier_opens fe dialect uses invs m invs' m'
    (Hlive : forallb done invs = false)
    (Hround : step_round_robin fe dialect uses invs m = Ok (false, invs', m')) :
  invs' = invs /\ m' = m
  /\ exists released, release_barrier_if_ready invs' = Some released
       /\ Exists (fun i => done i = false /\ hi_waiting i = false) released.
Proof.
  assert (~ Forall (fun i => done i = true) invs) as Hn by (rewrite <- forallb_Forall, Hlive; done).
  destruct (idle_round_releases fe dialect uses invs m invs' m') as (-> & -> & _ & Hr); [done..|].
  split; [done|]. split; [done|]. eexists. split; [done|].
  apply Exists_map. apply not_Forall_Exists in Hn; [|solve_decision]. eapply Exists_impl; [exact Hn|].
  intros i Hi. unfold compose in Hi. split; [|done]. change (done (with_waiting i false)) with (done i).
  by destruct (done i).
Qed.
Lemma barrier_opens_witness :
  exists released, release_barrier_if_ready [at_barrier 0; at_barrier 1] = Some released
    /\ Exists (fun i => done i = false /\ hi_waiting i = false) released.
Proof.
  apply (barrier_opens TypedOps.zero_env None true [at_barrier 0; at_barrier 1] (swap_memory [9; 9])
    [at_barrier 0; at_barrier 1] (swap_memory [9; 9])); reflexivity.
Defined.

(** C34: workgroups are isolated: with distinct buffer names and declarations within the
    budget, what a workgroup computes does not depend on the workgroup memory its
    predecessor left, whether the reset reuses the buffers or rebuilds them. *)
Theorem workgroup_isolated fe dialect uses fuel p wg storage w1 w2
    (Hnames : NoDup (bd_name <$> workgroup_decls p)) (Hfits : is_ok (workgroup_memory p) = true) :
  run_workgroup fe dialect uses fuel p wg (mkHashmapMemory storage w1)
  = run_workgroup fe dialect uses fuel p wg (mkHashmapMemory storage w2).
Proof.
  destruct (workgroup_memory p) as [w|e] eqn:Hw; [|done].
  unfold run_workgroup, mbind, HM_bind, hget, hlift. by rewrite !(reset_fresh p w).
Qed.
Lemma workgroup_isolated_witness :
  run_workgroup TypedOps.zero_env None true 17 swap_program (0, 0, 0) (swap_memory [9; 9])
  = run_workgroup TypedOps.zero_env None true 17 swap_program (0, 0, 0)
      (mkHashmapMemory {[ "out" := words [9; 9] ]} {[ "scratch" := words [5; 6] ]}).
Proof.
  apply (workgroup_isolated TypedOps.zero_env None true 17 swap_program (0, 0, 0)).
  - apply NoDup_singleton.
  - reflexivity.
Defined.

(** Invocations are numbered in row-major order: a workgroup of size [(sx, sy, sz)]
    has [sx * sy * sz] invocations; the one at position [k] has linear index
    [k = x + sx * (y + sy * z)] for its local id [(x, y, z)], and its global id is the
    workgroup id times the size plus the local id, without overflow. *)
Theorem invocations_numbered p wx wy wz sx sy sz invs
    (Hsize : workgroup_size p = (sx, sy, sz)) (Hdims : dims_ok (sx, sy, sz))
    (Hcreate : create_invocations p (wx, wy, wz) (entry p) = Ok invs) :
  Z.of_nat (length invs) = sx * sy * sz
  /\ forall k i, invs !! k = Some i -> exists x y z,
       local_id (hi_ids i) = (x, y, z) /\ 0 <= x < sx /\ 0 <= y < sy /\ 0 <= z < sz
       /\ hi_linear_local_index i = Z.of_nat k /\ Z.of_nat k = x + sx * (y + sy * z)
       /\ global_id (hi_ids i) = (wx * sx + x, wy * sy + y, wz * sz + z)
       /\ wx * sx + x <= U32_MAX /\ wy * sy + y <= U32_MAX /\ wz * sz + z <= U32_MAX.
Proof.
  destruct Hdims as (Hx & Hy & Hz). unfold inu in Hx, Hy, Hz.
  destruct (create_invocations_Ok p (wx, wy, wz) (entry p) invs sx sy sz) as (Hlen & Hmax & Hk); [done|lia..|done|].
  split; [done|]. intros k i Hi. pose proof (lookup_lt_Some _ _ _ Hi).
  destruct (Hk k i Hi) as (x & y & z & (-> & Hg) & Hb). exists x, y, z. cbn.
  rewrite wrapu_id by (unfold inu; lia). split_and!; try done; try apply Hb; apply Hg.
Qed.
Lemma invocations_numbered_witness :
  exists invs, create_invocations swap_program (3, 0, 0) (entry swap_program) = Ok invs
    /\ Z.of_nat (length invs) = 2 * 1 * 1
    /\ map (fun i => global_id (hi_ids i)) invs = [(6, 0, 0); (7, 0, 0)].
Proof.
  eexists. split; [reflexivity|]. split; [|reflexivity].
  apply (invocations_numbered swap_program 3 0 0 2 1 1); [reflexivity|cbn; unfold inu; lia|reflexivity].
Defined.

(** C23: the invariant holds in every state a workgroup reaches: from the invocations it
    creates and the memory it resets, after any sequence of rounds and barrier
    releases, every binding of an invocation belongs to exactly one of its open scopes,
    there is one scope per open block, loop counters and transfers are in range, and
    the buffers keep their names, element types and lengths. *)
Theorem reachable_invariant fe dialect uses p wg m m1 invs s
    (Hd : dialect_ok dialect) (Hdecls : Forall decl_ok (buffers p))
    (Hsize : dims_ok (workgroup_size p)) (Hwg : dims_ok wg)
    (Hentry : Forall (runnable (admissible uses)) (entry p)) (Hm : hmemory_ok m)
    (Hreset : reset_workgroup m p = Ok m1) (Hcreate : create_invocations p wg (entry p) = Ok invs)
    (Hreach : rtc (sched_step fe dialect uses) (invs, m1) s) :
  group_ok uses s.1 /\ length s.1 = length invs /\ hmemory_ok s.2 /\ same_shape m1 s.2.
Proof.
  pose proof (reset_workgroup_ok m p Hdecls Hm) as Hr. rewrite Hreset in Hr. destruct Hr as (Hm1 & _).
  destruct (create_group uses p wg invs Hsize Hwg Hentry Hcreate) as [Hg _].
  apply (reachable_ok fe dialect Hd uses (invs, m1) s Hreach Hg Hm1).
Qed.
Lemma reachable_invariant_witness :
  exists s, rtc (sched_step TypedOps.zero_env None true)
       (default [] (match create_invocations swap_program (0, 0, 0) (entry swap_program) with
                    | Ok l => Some l | Err _ => None end),
        mkHashmapMemory {[ "out" := words [9; 9] ]} {[ "scratch" := words [0; 0] ]}) s
    /\ hm_workgroup s.2 = {[ "scratch" := words [0; 1] ]} /\ group_ok true s.1.
Proof.
  eexists. match goal with |- ?R /\ _ => assert R as H by
    (eapply rtc_l; [eapply sched_round; vm_compute; reflexivity|apply rtc_refl]) end.
  split; [exact H|]. split; [vm_compute; reflexivity|].
  apply (reachable_invariant TypedOps.zero_env None true swap_program (0, 0, 0) (swap_memory [9; 9])
    (mkHashmapMemory {[ "out" := words [9; 9] ]} {[ "scratch" := words [0; 0] ]})
    (default [] (match create_invocations swap_program (0, 0, 0) (entry swap_program) with
                    | Ok l => Some l | Err _ => None end))).
  1-6: swap_hypotheses.
  - vm_compute; reflexivity.
  - vm_compute; reflexivity.
  - exact H.
Defined.

(** *** Where the checks of the scheduler miss *)

Definition group (size : Z * Z * Z) (nodes : list Node) : interp (unit * HashmapMemory) :=
  run_workgroup TypedOps.zero_env None true 100 (mkProgram None [] size nodes false) (0, 0, 0)
    (mkHashmapMemory ∅ ∅).
Definition lid_is (k : Z) : Expr := Expr.BinOp BinOp.Eq lid (Expr.LitU32 k).

(** The uniformity check compares a statement across loop iterations and looks only
    at some barriers: one invocation alone is rejected for a branch on its loop
    counter; invocations that reach different numbers of barriers, in a loop or inside
    a region, are let through; and a transfer larger than the address space panics
    instead of being refused. *)
Theorem uniformity_check_misses :
  group (1, 1, 1)
    [Node.Loop "i" (Expr.LitU32 0) (Expr.LitU32 2)
       [Node.If (Expr.BinOp BinOp.Eq (Expr.Var "i") (Expr.LitU32 0)) [barrier] []]]
    = Err (Interp "program violates uniform-control-flow rule")
  /\ group (2, 1, 1) [Node.If (lid_is 0) [barrier] []]
    = Err (Interp "program violates uniform-control-flow rule")
  /\ group (2, 1, 1) [Node.If (lid_is 0) [Node.Region "r" None [barrier]] []]
    = Ok (tt, mkHashmapMemory ∅ ∅)
  /\ group (3, 1, 1) [Node.Loop "i" (Expr.LitU32 0) lid [barrier]] = Ok (tt, mkHashmapMemory ∅ ∅)
  /\ run_workgroup TypedOps.zero_env None true 100
       (mkProgram None [decl "out" BufferAccess.ReadWrite] (1, 1, 1)
          [Node.AsyncLoad "out" "out" (Expr.LitU32 0)
             (Expr.UnOp UnOp.BitNot (Expr.Cast DataType.U64 (Expr.LitU32 0))) "t"] false)
       (0, 0, 0) (swap_memory [9; 9]) = Err Panic.
Proof. split_and!; vm_compute; reflexivity. Qed.
End Workgroup.
