(* ===== verification/RefDispatch.v ===== *)
(** The entry point of the reference interpreter: normalising a program, binding its
    inputs, sizing the grid, running every workgroup and collecting the outputs
    (vyre-reference: execution/mod.rs, execution/hashmap/mod.rs, sync.rs;
    vyre-foundation: ir_inner/model/program/meta.rs).

    A program the validator of Validate.v rejects is refused.  [powf] is the platform's
    power function; [dialect] is the operator lookup installed in the process, which the
    validator and the calls share. *)

From Stdlib Require Import QArith Qround.
From S2P Require Import Prelude Float Spec IR ProgramStats RefValue RefMemory RefEval Rewrite Collectives ProgramFacts ValidateExpr Validate RefHash RefSched RefSchedSound RefWorkgroup.
#[local] Open Scope Z_scope.

(** ** Normalising the program *)

Definition program_for_interpreter (p : Program) : interp Program :=
  normalized ←
    match top_level_region_violation p with
    | Some message =>
        match entry p with
        | [] | Node.Store _ _ _ :: _ => Err (Interp message)
        | _ => Ok (reconcile_runnable_top_level p)
        end
    | None => Ok p
    end;
  match lower_single_rank_collectives normalized with
  | Ok (Some q) => Ok q
  | Ok None => Ok normalized
  | Err _ => Err (Interp "collective needs a transport")
  end.

(** ** Binding the inputs *)

Definition declared_min_byte_len (decl : BufferDecl) : interp Z :=
  o ← static_byte_len decl;
  match o with
  | Some byte_len => Ok byte_len
  | None => if bd_count decl =? 0 then Ok 0 else Err (Interp "unsized element type")
  end.

Definition to_u32 (n : Z) (what : string) : interp Z := if n <=? U32_MAX then Ok n else Err (Interp what).
(** A division by a width of zero panics. *)
Definition element_count (decl : BufferDecl) (byte_len : Z) : interp Z :=
  match DataType.bit_width (bd_element decl) with
  | Some bits =>
      total_bits ← ok_or (usize_checked_mul byte_len 8) (Interp "overflows host bit counting");
      if bits =? 0 then Err Panic else to_u32 (total_bits / bits) "overflows u32 elements"
  | None =>
      stride ← ok_or (DataType.size_bytes (bd_element decl)) (Interp "unsized element type");
      if stride =? 0 then to_u32 byte_len "cannot be indexed within u32 address space"
      else to_u32 (byte_len / stride) "overflows u32 elements"
  end.

Definition is_workgroup (decl : BufferDecl) : bool := bool_decide (bd_access decl = BufferAccess.Workgroup).
Definition is_read_write (decl : BufferDecl) : bool := bool_decide (bd_access decl = BufferAccess.ReadWrite).
Definition backend_allocated_output (decl : BufferDecl) : bool :=
  bd_is_output decl || bool_decide (bd_access decl = BufferAccess.WriteOnly)
  || (bd_pipeline_live_out decl && is_read_write decl).
Definition is_result (decl : BufferDecl) : bool := backend_allocated_output decl || is_read_write decl.

Definition logical_input_count (p : Program) : nat :=
  length (filter (fun d => negb (is_workgroup d) && negb (backend_allocated_output d) = true) (buffers p)).
Definition legacy_input_count (p : Program) : nat :=
  length (filter (fun d => negb (is_workgroup d) = true) (buffers p)).
Definition legacy_input_mode (p : Program) (inputs : list Value) : bool :=
  (length inputs =? legacy_input_count p)%nat && negb (length inputs =? logical_input_count p)%nat.

(** The locals of the binding loop. *)
Record Binding := mkBinding {
  bg_storage : gmap string Buffer;
  bg_input_index : nat;
  bg_output_decls : list BufferDecl;
  bg_max_output_elements : Z;
  bg_max_input_elements : Z;
  bg_graph_node_count : option Z;
  bg_has_workgroup_buffer : bool;
}.
Definition binding_new : Binding := mkBinding ∅ 0 [] 0 1 None false.

(** The bytes of a buffer and the number of inputs consumed so far. *)
Definition buffer_bytes (inputs : list Value) (legacy : bool) (index : nat) (decl : BufferDecl) (required : Z)
    : interp (bytes * nat) :=
  if backend_allocated_output decl then
    index ← if legacy then
              _ ← ok_or (inputs !! index) (Interp "missing legacy output initializer"); Ok (S index)
            else Ok index;
    if ISIZE_MAX <? required then Err Panic else Ok (replicate (Z.to_nat required) 0, index)
  else
    value ← ok_or (inputs !! index) (Interp "missing input for buffer");
    Ok (Value.to_bytes value, S index).

Definition bind_decl (inputs : list Value) (legacy : bool) (b : Binding) (decl : BufferDecl) : interp Binding :=
  if is_workgroup decl then
    Ok (mkBinding (bg_storage b) (bg_input_index b) (bg_output_decls b) (bg_max_output_elements b)
          (bg_max_input_elements b) (bg_graph_node_count b) true)
  else
    let graph_node_count :=
      if (bd_binding decl =? 0) && bool_decide (bd_name decl = "pg_nodes") then Some (bd_count decl)
      else bg_graph_node_count b in
    required ← declared_min_byte_len decl;
    '(l, index) ← buffer_bytes inputs legacy (bg_input_index b) decl required;
    _ ← reject_if (blen l <? required) (Interp "provide a larger input buffer");
    elements ← element_count decl (blen l);
    let storage := <[bd_name decl := mkBuffer l (bd_element decl)]> (bg_storage b) in
    if is_result decl then
      Ok (mkBinding storage index (bg_output_decls b ++ [decl]) (Z.max (bg_max_output_elements b) elements)
            (bg_max_input_elements b) graph_node_count (bg_has_workgroup_buffer b))
    else
      Ok (mkBinding storage index (bg_output_decls b) (bg_max_output_elements b)
            (Z.max (bg_max_input_elements b) elements) graph_node_count (bg_has_workgroup_buffer b)).

Definition bind_inputs (p : Program) (inputs : list Value) : interp Binding :=
  b ← try_fold (bind_decl inputs (legacy_input_mode p inputs)) binding_new (buffers p);
  _ ← reject_if (negb (bg_input_index b =? length inputs)%nat) (Interp "unused input values supplied");
  Ok b.

(** ** The grid *)

Definition u32_saturating_mul (a b : Z) : Z := Z.min U32_MAX (a * b).
Definition invocations_per_workgroup (size : Z * Z * Z) : Z :=
  Z.max (foldl u32_saturating_mul 1 (axes size)) 1.
Definition dispatch_elements (p : Program) (b : Binding) : Z :=
  let force_full_span := bg_has_workgroup_buffer b || (0 <? atomic_op_count (compute_stats p)) in
  Z.max (Z.max (Z.max (bg_max_output_elements b) (default 0 (bg_graph_node_count b))) 1)
    (if match bg_output_decls b with [] => true | _ => false end || force_full_span
     then bg_max_input_elements b else 1).
Definition div_ceil (a b : Z) : Z := if a mod b =? 0 then a / b else a / b + 1.

Section Grid.
(** [(w as f64).powf(1.0 / n as f64)], a finite float as a rational. *)
Context (powf : Z -> nat -> Q).

(** [.ceil() as u32]: the cast saturates. *)
Definition ceil_as_u32 (q : Q) : Z := Z.max 0 (Z.min U32_MAX (Qceiling q)).
Definition active_axes (size : Z * Z * Z) : nat := length (filter (fun s => (1 <? s) = true) (axes size)).
Definition workgroup_counts (size : Z * Z * Z) (total_wg : Z) : Z * Z * Z :=
  let '(sx, sy, sz) := size in
  if (active_axes size =? 0)%nat then (total_wg, 1, 1)
  else
    let base := Z.max (ceil_as_u32 (powf total_wg (active_axes size))) 1 in
    (if 1 <? sx then base else 1, if 1 <? sy then base else 1, if 1 <? sz then base else 1).
Definition grid (p : Program) (b : Binding) : Z * Z * Z :=
  workgroup_counts (workgroup_size p)
    (Z.max (div_ceil (dispatch_elements p b) (invocations_per_workgroup (workgroup_size p))) 1).
End Grid.

(** ** The dispatch *)

Section Dispatch.
Context (fe : FloatEnv) (dialect : option (string -> option OpDef)).
Context (powf : Z -> nat -> Q).

(** The options the interpreter validates with (its default feature [subgroup-ops]). *)
Definition interpreter_options : ValidationOptions :=
  with_backend_capabilities options_default (mkCapabilities true false false false).
Definition validation_errors (p : Program) : list string :=
  vr_errors (validate_with_options dialect p interpreter_options).

Fixpoint run_grid (fuel : nat) (p : Program) (workgroups : list (Z * Z * Z)) : HM unit :=
  match workgroups with
  | [] => mret tt
  | wg :: workgroups =>
      _ ← run_workgroup fe dialect (rc_subgroup_ops (scan p)) fuel p wg;
      run_grid fuel p workgroups
  end.

(** Outputs are moved out of the storage one after the other. *)
Fixpoint take_outputs (storage : gmap string Buffer) (decls : list BufferDecl) : interp (list Value) :=
  match decls with
  | [] => Ok []
  | decl :: decls =>
      buffer ← ok_or (storage !! bd_name decl) (Interp "missing output buffer after dispatch");
      outputs ← take_outputs (delete (bd_name decl) storage) decls;
      Ok (output_value buffer decl :: outputs)
  end.

Definition size_contains_zero (size : Z * Z * Z) : bool := existsb (fun s => s =? 0) (axes size).

Definition run_hashmap_reference (fuel : nat) (p : Program) (inputs : list Value) : interp (list Value) :=
  match validation_errors p with
  | _ :: _ => Err (Interp "program failed IR validation")
  | [] =>
      b ← bind_inputs p inputs;
      _ ← reject_if (size_contains_zero (workgroup_size p)) (Interp "workgroup size contains zero");
      r ← run_grid fuel p (local_ids (grid powf p b)) (mkHashmapMemory (bg_storage b) ∅);
      take_outputs (hm_storage r.2) (bg_output_decls b)
  end.

Definition reference_eval (fuel : nat) (p : Program) (inputs : list Value) : interp (list Value) :=
  p ← program_for_interpreter p;
  run_hashmap_reference fuel p inputs.
End Dispatch.
