(* ===== verification/RefDispatchSound.v ===== *)
(** The reference interpreter, from a program and its inputs to its outputs: the
    invariants of normalisation, binding, grid and dispatch, and the theorems about
    [reference_eval]. *)

From stdpp Require Import pretty.
From Stdlib Require Import QArith Qround.
From S2P Require Import Prelude Float Spec IR ProgramStats RefValue RefMemory RefEval Rewrite Collectives ProgramFacts ValidateExpr Validate ValidateSound RefHash RefSched RefSchedSound RefWorkgroup RefDispatch.
#[local] Open Scope Z_scope.

(** ** Normalisation keeps a program well formed *)

Lemma str_ok_digits x : forall s, str_ok s = true -> str_ok (pretty_N_go x s) = true.
Proof.
  induction (N.lt_wf_0 x) as [x _ IH]; intros s Hs.
  assert (x = 0 \/ 0 < x)%N as [->|Hx] by lia; [by rewrite pretty_N_go_0|].
  rewrite pretty_N_go_step by done. apply IH; [by apply N.div_lt|].
  unfold pretty_N_char. repeat case_match; exact Hs.
Qed.
Lemma str_ok_copy_index k : str_ok (copy_index k) = true.
Proof.
  unfold copy_index. change (str_ok (pretty k) = true). destruct k as [|q|q]; [done|..];
    unfold pretty, pretty_Z, pretty_positive, pretty, pretty_N; (case_decide; [done|]).
  - by apply str_ok_digits.
  - by apply (str_ok_digits (Npos q) "").
Qed.

(** A statement that fits its types and whose transfers have literal sizes. *)
Definition node_fits (n : Node) : Prop := node_repr n /\ runnable (fun _ => True) n.
Lemma Forall_list_and {A} (P Q : A -> Prop) l : Forall_list P l -> Forall_list Q l -> Forall (fun x => P x /\ Q x) l.
Proof. rewrite !Forall_list_Forall. intros. by apply Forall_and. Qed.
Lemma fits_list l : Forall node_fits l -> Forall_list node_repr l /\ Forall_list (runnable (fun _ => True)) l.
Proof. rewrite !Forall_list_Forall. apply Forall_and. Qed.

Lemma lower_list_fits l : Forall (fun n => forall st out st', node_fits n -> lower_node n st = Ok (out, st') -> Forall node_fits out) l ->
  forall st out st', Forall node_fits l -> lower_nodes_with lower_node l st = Ok (out, st') -> Forall node_fits out.
Proof.
  induction 1 as [|n l Hn _ IH]; intros st out st' Hl H; cbn [lower_nodes_with] in H.
  { injection H as <- _. constructor. }
  apply Forall_cons in Hl as [Hf Hl].
  apply bind_Ok in H as ([o1 st1] & H1 & H). apply bind_Ok in H as ([o2 st2] & H2 & H).
  injection H as <- _. apply Forall_app. split; [by eapply Hn|by eapply IH].
Qed.
Lemma copy_fits i o st : str_ok i = true -> str_ok o = true -> Forall node_fits (single_rank_copy i o st).1.
Proof.
  intros Hi Ho. pose proof (str_ok_copy_index (next_copy_id st)) as Hc. unfold single_rank_copy. cbn [fst].
  revert Hc. generalize (copy_index (next_copy_id st)) as idx. intros idx Hc. unfold node_fits.
  repeat (apply Forall_cons; split); [..|apply Forall_nil]; cbn [node_repr runnable expr_repr bin_op_repr Forall_list];
    unfold inu; split_and?; try done.
Qed.
Lemma copy_out i o st out st' : Ok (single_rank_copy i o st) = Ok (out, st') :> lower _ -> out = (single_rank_copy i o st).1.
Proof. by intros [= <- _]. Qed.
(** A statement with one body. *)
Local Ltac lower_fits :=
  match goal with
  | H : Forall _ ?b, Hf : node_fits _, Hl : _ = Ok _ |- _ =>
      let b' := fresh in let Hb := fresh in
      apply bind_Ok in Hl as ([b' ?] & Hb & Hl); injection Hl as <- _;
      destruct Hf as [Hr Hu]; cbn [node_repr runnable] in Hr, Hu; destruct_and?;
      apply (lower_list_fits _ H) in Hb; [|by apply Forall_list_and];
      apply Forall_singleton; apply fits_list in Hb as [? ?]; by split
  end.
Lemma lower_node_fits n : forall st out st', node_fits n -> lower_node n st = Ok (out, st') -> Forall node_fits out.
Proof.
  induction n using Node_ind'; intros st out st' Hf Hl; cbn [lower_node] in Hl;
    try (injection Hl as <- _; by apply Forall_singleton).
  - (* if *) apply bind_Ok in Hl as ([t' st1] & Ht & Hl). apply bind_Ok in Hl as ([o' st2] & Ho & Hl).
    injection Hl as <- _. destruct Hf as [(Hc & Hrt & Hro) (_ & Hut & Huo)].
    apply (lower_list_fits _ H) in Ht; [|by apply Forall_list_and].
    apply (lower_list_fits _ H0) in Ho; [|by apply Forall_list_and].
    apply Forall_singleton. apply fits_list in Ht as [? ?], Ho as [? ?]. by split.
  - (* loop *) lower_fits.
  - apply bind_Ok in Hl as (u & _ & Hl). injection Hl as <- _. constructor.
  - apply bind_Ok in Hl as (u & _ & Hl). apply copy_out in Hl as ->. destruct Hf as [(? & ? & _) _]. by apply copy_fits.
  - apply bind_Ok in Hl as (u & _ & Hl). apply copy_out in Hl as ->. destruct Hf as [(? & ? & _) _]. by apply copy_fits.
  - apply bind_Ok in Hl as (u & _ & Hl). destruct (r =? 0); [|done]. injection Hl as <- _. constructor.
  - lower_fits.
  - lower_fits.
Qed.
Lemma lower_fits p q : Forall node_fits (entry p) -> lower_single_rank_collectives p = Ok (Some q) ->
  Forall node_fits (entry q) /\ buffers q = buffers p /\ workgroup_size q = workgroup_size p.
Proof.
  intros Hf. unfold lower_single_rank_collectives. destruct (negb _); [done|].
  intros ([nodes st] & Hl & H)%bind_Ok. destruct (lowered st =? 0); [done|]. injection H as <-. split; [|done].
  apply (lower_list_fits (entry p)) in Hl; [done| |done]. apply Forall_true. intros n. apply lower_node_fits.
Qed.

(** What the rest of the interpreter needs of a program. *)
Definition decl_fits (decl : BufferDecl) : Prop :=
  decl_ok decl /\ inu 32 (bd_count decl)
  /\ forall n, declared_min_byte_len decl = Ok n -> n <= ISIZE_MAX.
Definition program_fits (p : Program) : Prop :=
  Forall node_fits (entry p) /\ Forall decl_fits (buffers p) /\ dims_ok (workgroup_size p).
Lemma wrap_fits nodes : Forall node_fits nodes -> Forall node_fits (wrap_entry nodes).
Proof.
  intros H. unfold wrap_entry. destruct (entry_needs_root_region nodes); [|done].
  apply Forall_singleton. apply fits_list in H as [? ?]. by split.
Qed.
Lemma interpreter_fits p : program_fits p ->
  match program_for_interpreter p with
  | Ok q => program_fits q /\ buffers q = buffers p /\ workgroup_size q = workgroup_size p
  | Err e => exists w, e = Interp w
  end.
Proof.
  intros (Hn & Hd & Hs). unfold program_for_interpreter.
  match goal with |- context [mbind _ ?m] => assert (match m with
    | Ok q => Forall node_fits (entry q) /\ buffers q = buffers p /\ workgroup_size q = workgroup_size p
    | Err e => exists w, e = Interp w end) as H; [|destruct m as [q|e]] end.
  { destruct (top_level_region_violation p) as [w|]; [|done].
    assert (Forall node_fits (entry (reconcile_runnable_top_level p))
      /\ buffers (reconcile_runnable_top_level p) = buffers p
      /\ workgroup_size (reconcile_runnable_top_level p) = workgroup_size p) as H.
    { unfold reconcile_runnable_top_level. destruct (is_top_level_region_wrapped p); [done|].
      split; [by apply wrap_fits|done]. }
    destruct (entry p) as [|[] ?]; try (by eexists); exact H. }
  2: exact H.
  cbn [mbind result_bind]. destruct H as (Hq & Hb & Hw).
  destruct (lower_single_rank_collectives q) as [[l|]|e] eqn:El; [| |by eexists].
  - destruct (lower_fits q l Hq El) as (? & Hb' & Hw'). unfold program_fits. rewrite Hb', Hw', Hb, Hw. done.
  - unfold program_fits. by rewrite Hb, Hw.
Qed.

(** ** Subgroup expressions are announced *)

Lemma subgroup_free_of e : existsb is_subgroup_expr (subexprs e) = false -> subgroup_free e = true.
Proof.
  induction e using Expr_ind'; cbn [subexprs existsb is_subgroup_expr subgroup_free orb]; intros Hs;
    rewrite ?existsb_app, ?orb_false_iff in Hs; destruct_and?;
    repeat match goal with IH : _ -> subgroup_free ?x = true |- _ => rewrite IH by assumption; clear IH end;
    try reflexivity; try discriminate.
  - (* call *) match goal with Hx : existsb _ (flat_map _ _) = false |- _ => revert Hx end.
    induction H as [|a args Ha _ IH]; [done|]. cbn [flat_map forallb]. rewrite existsb_app, orb_false_iff.
    intros [H1 H2]. by rewrite Ha, IH.
  - (* atomic *) match goal with Hx : Forall_opt _ ?x |- _ => destruct x end; cbn [Forall_opt] in *; [|done].
    by rewrite H.
Qed.

Definition subgroup_item (i : item) : bool := match i with IExpr e => is_subgroup_expr e | INode _ => false end.
Lemma subgroup_items e : existsb subgroup_item (expr_items e) = existsb is_subgroup_expr (subexprs e).
Proof. unfold expr_items. induction (subexprs e) as [|x l IH]; [done|]. cbn. by rewrite IH. Qed.

Lemma scan_subgroup p : rc_subgroup_ops (scan p) = existsb subgroup_item (program_items p).
Proof.
  cbn [scan rc_subgroup_ops]. rewrite stats_subgroup. unfold program_exprs. rewrite existsb_omap.
  apply existsb_ext_all. by intros [].
Qed.

Section Admissible.
Context (uses : bool).
Definition announced (l : list item) : Prop := uses = true \/ existsb subgroup_item l = false.
Lemma announced_app l k : announced (l ++ k) <-> announced l /\ announced k.
Proof. unfold announced. rewrite existsb_app, orb_false_iff. tauto. Qed.
Lemma announced_cons_node n l : announced (INode n :: l) <-> announced l.
Proof. done. Qed.
Lemma admissible_of e : expr_repr e -> announced (expr_items e) -> admissible uses e.
Proof.
  intros He [->|Ha]; (split; [done|]); [by left|]. right. apply subgroup_free_of. by rewrite <- subgroup_items.
Qed.
Lemma runnable_bodies l : Forall (fun n => node_fits n -> announced (items n) -> runnable (admissible uses) n) l ->
  Forall_list node_repr l -> Forall_list (runnable (fun _ => True)) l -> announced (flat_map items l) ->
  Forall_list (runnable (admissible uses)) l.
Proof.
  rewrite !Forall_list_Forall. induction 1 as [|n l Hn _ IH]; intros Hr Hu Ha; [constructor|].
  apply Forall_cons in Hr as [? ?], Hu as [? ?]. cbn [flat_map] in Ha. apply announced_app in Ha as [? ?].
  constructor; [by apply Hn|by apply IH].
Qed.
Lemma runnable_admissible n : node_fits n -> announced (items n) -> runnable (admissible uses) n.
Proof.
  induction n using Node_ind'; intros [Hr Hu] Ha; cbn [node_repr runnable items] in *; rewrite announced_cons_node in Ha;
    rewrite ?announced_app in Ha; destruct_and?; split_and?; auto using admissible_of, runnable_bodies.
Qed.
End Admissible.
Lemma program_admissible p : Forall node_fits (entry p) ->
  Forall (runnable (admissible (rc_subgroup_ops (scan p)))) (entry p).
Proof.
  intros Hf. assert (announced (rc_subgroup_ops (scan p)) (flat_map items (entry p))) as Ha.
  { rewrite scan_subgroup. unfold announced. fold (program_items p).
    destruct (existsb subgroup_item (program_items p)); auto. }
  apply fits_list in Hf as [Hr Hu]. apply Forall_list_Forall, runnable_bodies; try done.
  apply Forall_true. intros n. apply runnable_admissible.
Qed.

(** ** Binding *)

Definition inputs_ok (inputs : list Value) : Prop :=
  Forall (fun v => value_wf v /\ blen (Value.to_bytes v) <= ISIZE_MAX) inputs.

Lemma to_u32_range n what : 0 <= n ->
  match to_u32 n what with Ok k => k = n /\ inu 32 k | Err e => exists w, e = Interp w end.
Proof. intros Hn. unfold to_u32. destruct (Z.leb_spec n U32_MAX); [split; [done|width_lia]|by eexists]. Qed.
Lemma element_count_ok decl len : decl_ok decl -> 0 <= len ->
  match element_count decl len with Ok n => inu 32 n | Err e => exists w, e = Interp w end.
Proof.
  intros (Hr & (_ & Hbits & Hsize) & Hc) Hl. unfold element_count.
  destruct (DataType.bit_width (bd_element decl)) as [bits|].
  - specialize (Hbits bits eq_refl). unfold usize_checked_mul.
    destruct (len * 8 <=? USIZE_MAX); cbn [ok_or mbind result_bind]; [|by eexists].
    destruct (Z.eqb_spec bits 0); [lia|].
    pose proof (to_u32_range (len * 8 / bits) "overflows u32 elements" ltac:(apply Z.div_pos; lia)) as H.
    destruct (to_u32 _ _); [by destruct H|done].
  - destruct (DataType.size_bytes (bd_element decl)) as [n|]; cbn [ok_or mbind result_bind]; [|by eexists].
    specialize (Hsize n eq_refl). destruct (Z.eqb_spec n 0).
    + pose proof (to_u32_range len "cannot be indexed within u32 address space" Hl) as H.
      destruct (to_u32 _ _); [by destruct H|done].
    + pose proof (to_u32_range (len / n) "overflows u32 elements" ltac:(apply Z.div_pos; lia)) as H.
      destruct (to_u32 _ _); [by destruct H|done].
Qed.

(** The bytes of a buffer are those of its input, or zeros. *)
Lemma buffer_bytes_ok inputs legacy index decl required : inputs_ok inputs -> 0 <= required <= ISIZE_MAX ->
  match buffer_bytes inputs legacy index decl required with
  | Ok (l, _) => Forall (inu 8) l /\ blen l <= ISIZE_MAX
  | Err e => exists w, e = Interp w
  end.
Proof.
  intros Hin Hreq. unfold buffer_bytes. destruct (backend_allocated_output decl).
  - assert (forall i : nat, match (if ISIZE_MAX <? required then Err Panic
        else Ok (replicate (Z.to_nat required) 0, i)) : interp _ with
      | Ok (l, _) => Forall (inu 8) l /\ blen l <= ISIZE_MAX | Err e => exists w, e = Interp w end) as H.
    { intros i. destruct (Z.ltb_spec ISIZE_MAX required); [lia|]. split; [apply Forall_replicate; width_lia|].
      unfold blen. rewrite length_replicate. lia. }
    destruct legacy; [|apply H]. destruct (inputs !! index); cbn [ok_or mbind result_bind]; [apply H|by eexists].
  - destruct (inputs !! index) as [v|] eqn:Ev; cbn [ok_or mbind result_bind]; [|by eexists].
    unfold inputs_ok in Hin. rewrite Forall_lookup in Hin. destruct (Hin index v Ev) as [Hw Hl].
    split; [by apply to_bytes_wf|done].
Qed.

Definition binding_ok (b : Binding) : Prop :=
  buffers_ok (bg_storage b) /\ inu 32 (bg_max_output_elements b) /\ inu 32 (bg_max_input_elements b)
  /\ match bg_graph_node_count b with Some n => inu 32 n | None => True end.
Lemma binding_new_ok : binding_ok binding_new.
Proof. by split_and!. Qed.

(** Destructs the outcome of a step that only fails with interpreter errors. *)
Ltac step_of H :=
  match type of H with match ?x with _ => _ end =>
    let E := fresh "E" in destruct x eqn:E; cbn [mbind result_bind]; [|exact H] end.
Lemma min_byte_len_ok decl : decl_fits decl ->
  match declared_min_byte_len decl with Ok n => 0 <= n <= ISIZE_MAX | Err e => exists w, e = Interp w end.
Proof.
  intros ((Hr & He & Hc) & Hu & Hmax). destruct (declared_min_byte_len decl) as [n|e] eqn:E.
  - split; [by apply (byte_len_nonneg decl n Hr Hc)|by apply Hmax].
  - by apply (byte_len_errs decl).
Qed.
Lemma bind_decl_ok inputs legacy b decl : inputs_ok inputs -> decl_fits decl -> binding_ok b ->
  match bind_decl inputs legacy b decl with Ok b' => binding_ok b' | Err e => exists w, e = Interp w end.
Proof.
  intros Hin Hd (Hs & Ho & Hi & Hg). unfold bind_decl. destruct (is_workgroup decl); [done|].
  pose proof (min_byte_len_ok decl Hd) as H1. step_of H1.
  pose proof (buffer_bytes_ok inputs legacy (bg_input_index b) decl _ Hin H1) as H2.
  destruct (buffer_bytes inputs legacy (bg_input_index b) decl _) as [[l index]|e]; cbn [mbind result_bind]; [|exact H2].
  destruct H2 as [Hb Hl].
  destruct (blen l <? _); cbn [reject_if mbind result_bind]; [by eexists|].
  pose proof (element_count_ok decl (blen l) (proj1 Hd) (blen_nonneg l)) as H3. step_of H3.
  assert (buffers_ok (<[bd_name decl := mkBuffer l (bd_element decl)]> (bg_storage b))) as Hs'.
  { apply map_Forall_insert_2; [|done]. split; [split; cbn [buf_bytes]; [done|unfold ISIZE_MAX in *; lia]|apply Hd]. }
  assert (match (if (bd_binding decl =? 0) && bool_decide (bd_name decl = "pg_nodes") then Some (bd_count decl)
                 else bg_graph_node_count b) with Some n => inu 32 n | None => True end) as Hg'.
  { destruct (_ && _); [apply Hd|done]. }
  destruct (is_result decl); split_and!; cbn; try done; width_lia.
Qed.
Lemma bind_inputs_ok p inputs : Forall decl_fits (buffers p) -> inputs_ok inputs ->
  match bind_inputs p inputs with Ok b => binding_ok b | Err e => exists w, e = Interp w end.
Proof.
  intros Hd Hin. unfold bind_inputs. generalize (legacy_input_mode p inputs) as legacy. intros legacy.
  assert (forall b, binding_ok b -> match try_fold (bind_decl inputs legacy) b (buffers p) with
    | Ok b' => binding_ok b' | Err e => exists w, e = Interp w end) as H.
  { induction Hd as [|d ds Hd1 _ IH]; intros b Hb; cbn [try_fold]; [done|].
    pose proof (bind_decl_ok inputs legacy b d Hin Hd1 Hb) as H. step_of H. by apply IH. }
  specialize (H _ binding_new_ok). step_of H.
  destruct (negb _); cbn [reject_if mbind result_bind]; [by eexists|done].
Qed.

(** Buffers have the declared element types. *)
Lemma bind_inputs_zero p inputs b : zero_decls p -> bind_inputs p inputs = Ok b -> fits_zero (bg_storage b).
Proof.
  unfold zero_decls, bind_inputs. intros Hd (b1 & H & H1)%bind_Ok. apply bind_Ok in H1 as (u & _ & [= <-]).
  assert (fits_zero (bg_storage binding_new)) as Hb by apply map_Forall_empty.
  revert H Hb. generalize binding_new as b0, (legacy_input_mode p inputs) as legacy. intros b0 legacy. revert b0.
  induction Hd as [|d ds Hd1 _ IH]; intros b0 H Hb; cbn [try_fold] in H; [by injection H as <-|].
  apply bind_Ok in H as (b2 & H2 & H). apply (IH b2 H). unfold bind_decl in H2.
  destruct (is_workgroup d); [by injection H2 as <-|].
  apply bind_Ok in H2 as (req & _ & H2). apply bind_Ok in H2 as ([l index] & _ & H2).
  apply bind_Ok in H2 as (u1 & _ & H2). apply bind_Ok in H2 as (n & _ & H2).
  destruct (is_result d); injection H2 as <-; by apply map_Forall_insert_2.
Qed.

(** ** The grid *)

Lemma div_ceil_spec a b : 0 < b -> (div_ceil a b - 1) * b < a <= div_ceil a b * b.
Proof.
  intros Hb. unfold div_ceil. pose proof (Z.div_mod a b ltac:(lia)). pose proof (Z.mod_pos_bound a b Hb).
  destruct (Z.eqb_spec (a mod b) 0); nia.
Qed.
Lemma invocations_pos size : 1 <= invocations_per_workgroup size.
Proof. unfold invocations_per_workgroup. lia. Qed.

Lemma dispatch_elements_range p b : binding_ok b -> 1 <= dispatch_elements p b <= U32_MAX.
Proof.
  intros (_ & Ho & Hi & Hg). unfold dispatch_elements.
  assert (0 <= default 0 (bg_graph_node_count b) <= U32_MAX) as Hd
    by (destruct (bg_graph_node_count b); cbn; width_lia).
  destruct (_ || _); width_lia.
Qed.
Definition total_workgroups (p : Program) (b : Binding) : Z :=
  Z.max (div_ceil (dispatch_elements p b) (invocations_per_workgroup (workgroup_size p))) 1.
Lemma total_workgroups_range p b : binding_ok b -> 1 <= total_workgroups p b <= U32_MAX.
Proof.
  intros Hb. pose proof (dispatch_elements_range p b Hb). pose proof (invocations_pos (workgroup_size p)).
  pose proof (div_ceil_spec (dispatch_elements p b) (invocations_per_workgroup (workgroup_size p)) ltac:(lia)).
  unfold total_workgroups. nia.
Qed.
Lemma grid_dims powf p b : binding_ok b -> dims_ok (grid powf p b).
Proof.
  intros Hb. pose proof (total_workgroups_range p b Hb) as Ht. unfold grid. fold (total_workgroups p b).
  unfold workgroup_counts. destruct (workgroup_size p) as [[sx sy] sz].
  assert (1 <= Z.max (ceil_as_u32 (powf (total_workgroups p b) (active_axes (sx, sy, sz)))) 1 <= U32_MAX) as Hc
    by (unfold ceil_as_u32; lia).
  destruct (active_axes _ =? 0)%nat; cbn [dims_ok]; [width_lia|].
  destruct (1 <? sx), (1 <? sy), (1 <? sz); width_lia.
Qed.
Lemma grid_ids_dims powf p b : binding_ok b -> Forall dims_ok (local_ids (grid powf p b)).
Proof.
  intros Hb. pose proof (grid_dims powf p b Hb) as Hg. destruct (grid powf p b) as [[cx cy] cz].
  apply Forall_lookup. intros k [[x y] z] Hk%local_ids_lookup. destruct Hg as (? & ? & ?). cbn. width_lia.
Qed.

(** ** The dispatch *)

Section Dispatch.
Context (fe : FloatEnv) (dialect : option (string -> option OpDef)) (Hd : dialect_ok dialect).

Definition same_storage (m m' : HashmapMemory) : Prop :=
  buffer_shape <$> hm_storage m' = buffer_shape <$> hm_storage m.

Lemma decls_ok p : program_fits p -> Forall decl_ok (buffers p).
Proof. intros (_ & Hf & _). eapply Forall_impl; [exact Hf|]. by intros d []. Qed.
(** Memory after a grid that ran, whatever the fuel. *)
Lemma run_grid_keeps p fuel : program_fits p -> forall ids m u m', Forall dims_ok ids -> hmemory_ok m ->
  run_grid fe dialect fuel p ids m = Ok (u, m') -> hmemory_ok m' /\ same_storage m m'.
Proof.
  intros Hp. pose proof (decls_ok p Hp) as Hdok. destruct Hp as (Hn & _ & Hs). pose proof (program_admissible p Hn) as Ha.
  induction ids as [|wg ids IH]; intros m u m' Hids Hm; cbn [run_grid]; [by intros [= _ <-]|].
  apply Forall_cons in Hids as [Hwg Hids]. unfold mbind, HM_bind.
  destruct (run_workgroup fe dialect (rc_subgroup_ops (scan p)) fuel p wg m) as [[u1 m1]|e] eqn:E; [|done].
  destruct (run_workgroup_keeps fe dialect _ fuel p wg m u1 m1 Hd Hdok Hs Hwg Ha Hm E) as [Hm1 Hst].
  intros H. destruct (IH m1 u m' Hids Hm1 H) as [? Hst2]. split; [done|]. unfold same_storage in *. congruence.
Qed.

Lemma run_grid_safe p : program_fits p -> zero_decls p -> forall ids m, Forall dims_ok ids -> hmemory_ok m -> hzeroable m ->
  exists r, (forall fuel, (workgroup_fuel p <= fuel)%nat -> run_grid fe dialect fuel p ids m = r)
    /\ match r with
       | Ok _ => True
       | Err e => exists w, e = Interp w
       end.
Proof.
  intros Hp Hzd. pose proof (decls_ok p Hp) as Hdok. destruct Hp as (Hn & _ & Hs). pose proof (program_admissible p Hn) as Ha.
  induction ids as [|wg ids IH]; intros m Hids Hm Hz.
  { by exists (Ok (tt, m)). }
  apply Forall_cons in Hids as [Hwg Hids].
  destruct (run_workgroup_safe fe dialect (rc_subgroup_ops (scan p)) p wg m) as (r & Hr & Hres); [done..|].
  destruct r as [[u m1]|e].
  - destruct Hres as (Hm1 & Hz1 & _). destruct (IH m1 Hids Hm1 Hz1) as (r & Hr2 & Hres). exists r. split; [|done].
    intros fuel Hf. cbn [run_grid]. unfold mbind, HM_bind. rewrite Hr by done. by apply Hr2.
  - exists (Err e). split; [|done]. intros fuel Hf. cbn [run_grid]. unfold mbind, HM_bind. by rewrite Hr.
Qed.

Lemma take_outputs_errs decls : forall storage e, take_outputs storage decls = Err e -> exists w, e = Interp w.
Proof.
  induction decls as [|d ds IH]; intros storage e; cbn [take_outputs]; [done|].
  destruct (storage !! bd_name d); cbn [ok_or mbind result_bind]; [|intros [= <-]; by eexists].
  destruct (take_outputs _ ds) eqn:E; cbn [mbind result_bind]; [done|]. intros [= <-]. by eapply IH.
Qed.

Definition structured {A} (r : interp A) : Prop :=
  match r with Ok _ => True | Err e => exists w, e = Interp w end.

Lemma run_reference_safe powf p inputs : program_fits p -> zero_decls p -> inputs_ok inputs ->
  exists r, (forall fuel, (workgroup_fuel p <= fuel)%nat ->
      run_hashmap_reference fe dialect powf fuel p inputs = r) /\ structured r.
Proof.
  intros Hp Hzd Hin. unfold run_hashmap_reference.
  destruct (validation_errors dialect p); [|eexists; split; [done|by eexists]].
  pose proof (bind_inputs_ok p inputs (proj1 (proj2 Hp)) Hin) as Hb.
  destruct (bind_inputs p inputs) as [b|e] eqn:Eb; cbn [mbind result_bind]; [|by eexists].
  destruct (size_contains_zero (workgroup_size p)); cbn [reject_if mbind result_bind];
    [eexists; split; [done|by eexists]|].
  destruct (run_grid_safe p Hp Hzd (local_ids (grid powf p b)) (mkHashmapMemory (bg_storage b) ∅)) as (r & Hr & Hres).
  { by apply grid_ids_dims. }
  { split; [apply Hb|apply map_Forall_empty]. }
  { split; [by apply (bind_inputs_zero p inputs)|apply map_Forall_empty]. }
  eexists. split; [intros fuel Hf; by rewrite (Hr fuel Hf)|].
  destruct r as [[u m]|e]; cbn [mbind result_bind]; [|done].
  destruct (take_outputs _ _) eqn:E; [done|]. by eapply take_outputs_errs.
Qed.
End Dispatch.

(** ** What the binding puts where *)

Definition storage_decls (l : list BufferDecl) : list BufferDecl := filter (fun d => is_workgroup d = false) l.
Lemma validated_names dialect p : validation_errors dialect p = [] -> NoDup (bd_name <$> storage_decls (buffers p)).
Proof.
  intros Hv. unfold storage_decls. eapply sublist_NoDup; [apply (validated_buffers _ _ _ Hv)|]. apply fmap_sublist, sublist_filter.
Qed.

(** The outputs of a dispatch, in declaration order. *)
Definition results (l : list BufferDecl) : list BufferDecl :=
  filter (fun d => negb (is_workgroup d) && is_result d = true) l.
(** Inputs consumed by a list of declarations. *)
Definition consumes (legacy : bool) (d : BufferDecl) : bool :=
  negb (is_workgroup d) && (legacy || negb (backend_allocated_output d)).
Definition consumed (legacy : bool) (l : list BufferDecl) : nat := length (filter (fun d => consumes legacy d = true) l).

(** The first contents of a buffer whose input is at position [i]. *)
Definition initial (inputs : list Value) (i : nat) (d : BufferDecl) (req : Z) (l : bytes) : Prop :=
  declared_min_byte_len d = Ok req /\ req <= blen l
  /\ if backend_allocated_output d then l = replicate (Z.to_nat req) 0
     else exists v, inputs !! i = Some v /\ l = Value.to_bytes v.

Section Bind.
Context (inputs : list Value) (legacy : bool).

Lemma bind_decl_spec b d b' : is_workgroup d = false -> bind_decl inputs legacy b d = Ok b' ->
  exists req l n, initial inputs (bg_input_index b) d req l /\ element_count d (blen l) = Ok n
    /\ bg_storage b' = <[bd_name d := mkBuffer l (bd_element d)]> (bg_storage b)
    /\ bg_input_index b' = (bg_input_index b + (if consumes legacy d then 1 else 0))%nat
    /\ bg_output_decls b' = bg_output_decls b ++ (if is_result d then [d] else [])
    /\ bg_max_output_elements b <= bg_max_output_elements b'
    /\ (is_result d = true -> n <= bg_max_output_elements b').
Proof.
  intros Hw H. unfold bind_decl in H. rewrite Hw in H.
  apply bind_Ok in H as (req & Hreq & H). apply bind_Ok in H as ([l index] & Hl & H).
  apply bind_Ok in H as (u & Hlen%reject_if_Ok & H). apply bind_Ok in H as (n & Hn & H).
  exists req, l, n. assert (initial inputs (bg_input_index b) d req l
    /\ index = (bg_input_index b + (if consumes legacy d then 1 else 0))%nat) as [Hi ->].
  { unfold initial, consumes. rewrite Hw. unfold buffer_bytes in Hl. destruct (backend_allocated_output d); cbn [negb andb].
    - apply bind_Ok in Hl as (i & Hi & Hl). destruct (ISIZE_MAX <? req); [done|]. injection Hl as <- <-.
      split; [split; [done|]; split; [lia|done]|]. destruct legacy; cbn; [|injection Hi as <-; lia].
      apply bind_Ok in Hi as (v & _ & [= <-]). lia.
    - apply bind_Ok in Hl as (v & Hv & [= <- <-]). rewrite orb_true_r. split; [|lia]. split; [done|]. split; [lia|].
      exists v. split; [|done]. by destruct (inputs !! bg_input_index b) eqn:E; [injection Hv as ->|]. }
  split; [done|]. split; [done|]. destruct (is_result d); injection H as <-; cbn; rewrite ?app_nil_r; split_and!; try done; lia.
Qed.

Lemma bind_fold decls : forall b b', NoDup (bd_name <$> storage_decls decls) ->
  try_fold (bind_decl inputs legacy) b decls = Ok b' ->
  bg_input_index b' = (bg_input_index b + consumed legacy decls)%nat
  /\ bg_output_decls b' = bg_output_decls b ++ results decls
  /\ bg_max_output_elements b <= bg_max_output_elements b'
  /\ (forall x, x ∉ bd_name <$> storage_decls decls -> bg_storage b' !! x = bg_storage b !! x)
  /\ (forall pre d post, decls = pre ++ d :: post -> is_workgroup d = false -> exists req l n,
        bg_storage b' !! bd_name d = Some (mkBuffer l (bd_element d))
        /\ initial inputs (bg_input_index b + consumed legacy pre) d req l
        /\ element_count d (blen l) = Ok n /\ (is_result d = true -> n <= bg_max_output_elements b')).
Proof.
  induction decls as [|d decls IH]; intros b b' Hnd H; cbn [try_fold] in H.
  { injection H as <-. unfold consumed, results. rewrite !filter_nil, app_nil_r. cbn.
    split; [lia|]. split; [done|]. split; [lia|]. split; [done|]. by intros [|? ?]. }
  apply bind_Ok in H as (b1 & H1 & H). unfold consumed, results, storage_decls in *.
  destruct (is_workgroup d) eqn:Ew.
  - rewrite filter_cons_False in Hnd by congruence.
    destruct (IH b1 b' Hnd H) as (Hi & Ho & Hmax & Hx & Hd).
    unfold bind_decl in H1. rewrite Ew in H1. injection H1 as <-. cbn in Hi, Ho, Hmax, Hx, Hd.
    rewrite !filter_cons_False by (unfold consumes; rewrite ?Ew; cbn; congruence).
    split; [done|]. split; [done|]. split; [done|]. split; [done|].
    intros [|d0 pre] d1 post [= -> ->] Hw; [congruence|]. destruct (Hd pre d1 post eq_refl Hw) as (req & l & n & ?).
    exists req, l, n. rewrite filter_cons_False by (unfold consumes; rewrite Ew; cbn; congruence). done.
  - rewrite filter_cons_True in Hnd by done. rewrite fmap_cons in Hnd. apply NoDup_cons in Hnd as [Hnew Hnd].
    destruct (bind_decl_spec b d b1 Ew H1) as (req & l & n & Hinit & Hn & Hs1 & Hi1 & Ho1 & Hm1 & Hr1).
    destruct (IH b1 b' Hnd H) as (Hi & Ho & Hmax & Hx & Hd).
    rewrite (filter_cons (fun d => consumes legacy d = true)), (filter_cons (fun d => negb (is_workgroup d) && is_result d = true)), Ew.
    rewrite (filter_cons_True (fun d => is_workgroup d = false)) by done. rewrite fmap_cons.
    assert (forall pre, (bg_input_index b + length (filter (fun d => consumes legacy d = true) (d :: pre)))%nat
      = (bg_input_index b1 + length (filter (fun d => consumes legacy d = true) pre))%nat) as Hpre.
    { intros pre. rewrite Hi1, filter_cons. destruct (consumes legacy d); [rewrite decide_True by done|rewrite decide_False by done]; cbn; lia. }
    split; [|split; [|split; [lia|split]]].
    + rewrite Hi, <- Hpre, filter_cons. done.
    + rewrite Ho, Ho1, <- app_assoc. f_equal. destruct (is_result d); [rewrite decide_True by done|rewrite decide_False by done]; done.
    + intros x [Hne Hx']%not_elem_of_cons. rewrite Hx by done. rewrite Hs1. by apply lookup_insert_ne.
    + intros [|d0 pre] d1 post [= -> ->] Hw.
      * exists req, l, n. rewrite Hx by done. rewrite Hs1, lookup_insert_eq. split; [done|]. rewrite filter_nil, Nat.add_0_r.
        split; [done|]. split; [done|]. intros Hr. specialize (Hr1 Hr). lia.
      * destruct (Hd pre d1 post eq_refl Hw) as (req' & l' & n' & Hst & Hin & Hrest). exists req', l', n'.
        rewrite Hpre. done.
Qed.
End Bind.

(** ** Outputs *)

Lemma take_outputs_spec (storage0 : gmap string Buffer) decls : forall storage outs, NoDup (bd_name <$> decls) ->
  (forall d, d ∈ decls -> storage !! bd_name d = storage0 !! bd_name d) -> take_outputs storage decls = Ok outs ->
  Forall2 (fun d v => exists b, storage0 !! bd_name d = Some b /\ v = output_value b d) decls outs.
Proof.
  induction decls as [|d ds IH]; intros storage outs Hnd Hsame H; cbn [take_outputs] in H.
  { injection H as <-. constructor. }
  rewrite fmap_cons in Hnd. apply NoDup_cons in Hnd as [Hnew Hnd].
  destruct (storage !! bd_name d) as [b|] eqn:Eb; cbn [ok_or mbind result_bind] in H; [|done].
  apply bind_Ok in H as (rest & Hr & [= <-]).
  constructor; [exists b; split; [|done]; rewrite <- Hsame; [done|by left]|].
  apply (IH _ _ Hnd) in Hr; [done|]. intros d' Hd'. rewrite <- Hsame by (by right). apply lookup_delete_ne.
  intros E. apply Hnew. rewrite E. by apply list_elem_of_fmap_2.
Qed.
Lemma results_names decls : NoDup (bd_name <$> storage_decls decls) -> NoDup (bd_name <$> results decls).
Proof.
  intros Hn. eapply sublist_NoDup; [exact Hn|]. apply fmap_sublist. clear Hn. unfold results, storage_decls.
  induction decls as [|d ds IH]; [done|]. rewrite !filter_cons.
  destruct (is_workgroup d); cbn [negb andb]; repeat case_decide; try done; by constructor.
Qed.
Lemma results_split decls d : d ∈ results decls ->
  is_workgroup d = false /\ is_result d = true /\ exists pre post, decls = pre ++ d :: post.
Proof.
  unfold results. intros [H Hd]%list_elem_of_filter. rewrite andb_true_iff, negb_true_iff in H.
  split; [apply H|]. split; [apply H|]. by apply list_elem_of_split.
Qed.
(** The storage keeps, under every name, a buffer of the same type and length. *)
Lemma same_storage_lookup m m' x b : same_storage m m' -> hm_storage m !! x = Some b ->
  exists b', hm_storage m' !! x = Some b' /\ buffer_shape b' = buffer_shape b.
Proof.
  intros Hs Hb. unfold same_storage in Hs. apply (f_equal (lookup x)) in Hs. rewrite !lookup_fmap, Hb in Hs.
  destruct (hm_storage m' !! x) as [b'|]; [|done]. exists b'. split; [done|]. by apply (inj Some) in Hs.
Qed.

(** Enough fuel for every workgroup of the dispatch. *)
Definition reference_fuel (p : Program) : nat :=
  match program_for_interpreter p with Ok q => workgroup_fuel q | Err _ => 0%nat end.

Module Reference.

(** C2: the reference interpreter always answers.  Conditions: the statements fit their
    types and the sizes of transfers are [u32] literals; the declared element types have
    strides of at most 2^31 bytes, elements of at least one bit and zero values an
    [Arc] can hold (at most [ARC_BYTES_MAX] bytes); the declared byte lengths and the input values take at most
    [isize::MAX] bytes; registered operators return bytes.  Then for any such program
    and inputs, from the fuel of one workgroup of the normalised
    program on, the interpreter gives the same result, which is a list of outputs or a
    structured error: no panic, no endless loop, however the platform rounds roots. *)
Theorem reference_eval_total fe dialect powf p inputs
    (Hd : dialect_ok dialect) (Hp : program_fits p) (Hz : zero_decls p) (Hin : inputs_ok inputs) :
  exists r, (forall fuel, (reference_fuel p <= fuel)%nat ->
      reference_eval fe dialect powf fuel p inputs = r) /\ structured r.
Proof.
  unfold reference_eval, reference_fuel. pose proof (interpreter_fits p Hp) as Hq.
  destruct (program_for_interpreter p) as [q|e]; cbn [mbind result_bind].
  - destruct Hq as (Hq & Hb & _). apply run_reference_safe; [done..| |done]. unfold zero_decls. by rewrite Hb.
  - exists (Err e). by split.
Qed.

(** C17: the outputs: for a program and inputs within the same limits (zero values apart), a
    dispatch that succeeds bound the inputs, ran the grid of the
    normalised program on them, and returns one value per output declaration, in
    declaration order: the bytes (the declared byte range of them, where it lies inside)
    that the final storage holds under that declaration's name.  That buffer is as long
    as it started: the declared length for an output the dispatch allocated, otherwise
    the length of its own input, which is at least the declared length. *)
Theorem reference_outputs fe dialect powf fuel p inputs outs
    (Hd : dialect_ok dialect) (Hp : program_fits p) (Hin : inputs_ok inputs)
    (Hrun : reference_eval fe dialect powf fuel p inputs = Ok outs) :
  exists q b m, program_for_interpreter p = Ok q /\ buffers q = buffers p /\ bind_inputs q inputs = Ok b
    /\ run_grid fe dialect fuel q (local_ids (grid powf q b)) (mkHashmapMemory (bg_storage b) ∅) = Ok (tt, m)
    /\ Forall2 (fun d v => exists l, hm_storage m !! bd_name d = Some (mkBuffer l (bd_element d))
          /\ v = output_value (mkBuffer l (bd_element d)) d
          /\ exists pre post req first, buffers p = pre ++ d :: post
               /\ initial inputs (consumed (legacy_input_mode q inputs) pre) d req first
               /\ length l = length first)
         (results (buffers p)) outs.
Proof.
  unfold reference_eval in Hrun. apply bind_Ok in Hrun as (q & Hq & Hrun).
  pose proof (interpreter_fits p Hp) as Hf. rewrite Hq in Hf. destruct Hf as (Hqf & Hb & _).
  rewrite <- Hb in *. clear Hb. unfold run_hashmap_reference in Hrun.
  destruct (validation_errors dialect q) eqn:Hval; [|done]. apply validated_names in Hval as Hnames.
  apply bind_Ok in Hrun as (b & Hbind & Hrun). apply bind_Ok in Hrun as (u & _ & Hrun).
  apply bind_Ok in Hrun as ([[] m] & Hgrid & Htake). cbn [snd] in Htake. exists q, b, m.
  split; [done|]. split; [done|]. split; [done|]. split; [done|].
  pose proof (bind_inputs_ok q inputs (proj1 (proj2 Hqf)) Hin) as Hbok. rewrite Hbind in Hbok.
  apply (run_grid_keeps fe dialect Hd q fuel Hqf) in Hgrid as [_ Hsame];
    [|by apply grid_ids_dims|split; [apply Hbok|apply map_Forall_empty]].
  unfold bind_inputs in Hbind. apply bind_Ok in Hbind as (b1 & Hfold & H1). apply bind_Ok in H1 as (u2 & _ & [= ->]).
  destruct (bind_fold _ _ _ _ _ Hnames Hfold) as (_ & Hout & _ & _ & Hdecl).
  cbn [bg_output_decls bg_input_index binding_new app Nat.add] in Hout, Hdecl.
  rewrite Hout in Htake. apply (take_outputs_spec (hm_storage m)) in Htake; [|by apply results_names|done].
  apply Forall2_same_length_lookup. apply Forall2_same_length_lookup in Htake as [Hlen Hall]. split; [done|].
  intros i d v Hi Hv. destruct (Hall i d v Hi Hv) as (buf & Hbuf & ->). apply list_elem_of_lookup_2 in Hi.
  destruct (results_split _ _ Hi) as (Hw & _ & pre & post & Hsplit).
  destruct (Hdecl pre d post Hsplit Hw) as (req & l & n & Hst & Hinit & _).
  destruct (same_storage_lookup _ _ _ _ Hsame Hst) as (buf' & Hbuf' & Hshape).
  rewrite Hbuf in Hbuf'. injection Hbuf' as <-. destruct buf as [l' t]. unfold buffer_shape in Hshape. cbn in Hshape.
  injection Hshape as -> Hl. exists l'. split; [done|]. split; [done|]. by exists pre, post, req, l.
Qed.
(** C35: the inputs: a binding that succeeds was given one value per buffer that needs an
    input, or one per storage buffer (the older calling convention, whose values for
    output buffers are ignored); every buffer starts with the bytes of its own input, at
    least as long as declared, or, for an output, with the declared number of zeros. *)
Theorem inputs_bound p inputs b (Hnames : NoDup (bd_name <$> storage_decls (buffers p)))
    (Hbind : bind_inputs p inputs = Ok b) (legacy := legacy_input_mode p inputs) :
  length inputs = (if legacy then legacy_input_count p else logical_input_count p)
  /\ forall pre d post, buffers p = pre ++ d :: post -> is_workgroup d = false ->
       exists req l, bg_storage b !! bd_name d = Some (mkBuffer l (bd_element d))
         /\ initial inputs (consumed legacy pre) d req l.
Proof.
  unfold bind_inputs in Hbind. apply bind_Ok in Hbind as (b1 & Hfold & H). apply bind_Ok in H as (u & Hcount & [= ->]).
  apply reject_if_Ok, negb_false_iff, Nat.eqb_eq in Hcount. fold legacy in Hfold.
  destruct (bind_fold _ _ _ _ _ Hnames Hfold) as (Hi & _ & _ & _ & Hd). cbn [bg_input_index binding_new] in Hi, Hd. split.
  - rewrite <- Hcount, Hi. cbn. unfold consumed, consumes, legacy_input_count, logical_input_count.
    destruct legacy; cbn [orb]; [|done]. f_equal. apply list_filter_iff. intros d. by rewrite andb_true_r.
  - intros pre d post Hs Hw. destruct (Hd pre d post Hs Hw) as (req & l & n & ? & ? & _). by exists req, l.
Qed.

(** [out[i] = 2 * in[i]] over 5 elements, two invocations per workgroup. *)
Definition buf (name : string) (access : BufferAccess) (output : bool) : BufferDecl :=
  mkBufferDecl name (if output then 1 else 0) access MemoryKind.Global DataType.U32 5 output false None
    (mkMemoryHints None 0 CacheLocality.Temporal) false LinearType.Unrestricted None.
Definition double : Program :=
  mkProgram None [buf "in" BufferAccess.ReadOnly false; buf "out" BufferAccess.ReadWrite true] (2, 1, 1)
    [Node.Region "double" None
       [Node.Store "out" (Expr.InvocationId 0)
          (Expr.BinOp BinOp.Mul (Expr.Load "in" (Expr.InvocationId 0)) (Expr.LitU32 2))]] false.
Definition word_list (l : list Z) : Value := Value.Bytes (flat_map (le_bytes 4) l).
Definition exact_root (w : Z) (n : nat) : Q := inject_Z w.
Definition eval_double (inputs : list Value) : interp (list Value) :=
  reference_eval TypedOps.zero_env None exact_root 20 double inputs.
Example double_runs : eval_double [word_list [1; 2; 3; 4; 5]] = Ok [word_list [2; 4; 6; 8; 10]].
Proof. vm_compute. reflexivity. Qed.
Lemma buf_fits name access output : decl_fits (buf name access output).
Proof.
  split; [|split; [cbn; unfold inu; lia|]].
  - split; [exact I|]. split; [|cbn; lia]. split; [cbn; lia|]. split; intros ? [= <-]; lia.
  - intros n H. assert (declared_min_byte_len (buf name access output) = Ok 20) as E by reflexivity.
    rewrite E in H. injection H as <-. unfold ISIZE_MAX. lia.
Qed.
Lemma double_fits : program_fits double.
Proof.
  split; [|split; [|cbn; unfold inu; lia]].
  - repeat constructor; cbn; unfold inu; lia.
  - repeat constructor; apply buf_fits.
Qed.
Lemma words_ok : inputs_ok [word_list [1; 2; 3; 4; 5]].
Proof. apply Forall_singleton. split; [vm_compute; repeat constructor; discriminate|by vm_compute]. Qed.
Lemma double_names : NoDup (bd_name <$> storage_decls (buffers double)).
Proof. apply (bool_decide_unpack _). by vm_compute. Qed.

Lemma double_zero : zero_decls double.
Proof. by repeat constructor. Qed.

Lemma reference_eval_total_witness : (reference_fuel double <= 20)%nat
  /\ exists r, r = Ok [word_list [2; 4; 6; 8; 10]] /\ (forall fuel, (20 <= fuel)%nat ->
       reference_eval TypedOps.zero_env None exact_root fuel double [word_list [1; 2; 3; 4; 5]] = r).
Proof.
  destruct (reference_eval_total TypedOps.zero_env None exact_root double [word_list [1; 2; 3; 4; 5]])
    as (r & Hr & _); [by intros ?|apply double_fits|apply double_zero|apply words_ok|].
  assert (reference_fuel double <= 20)%nat as Hf by (vm_compute; lia). split; [exact Hf|].
  exists r. split; [rewrite <- (Hr 20%nat Hf); vm_compute; reflexivity|]. intros fuel Hle. apply Hr. lia.
Defined.
Lemma reference_outputs_witness : exists m b,
  bind_inputs double [word_list [1; 2; 3; 4; 5]] = Ok b
  /\ hm_storage m !! "out" = Some (mkBuffer (flat_map (le_bytes 4) [2; 4; 6; 8; 10]) DataType.U32)
  /\ run_grid TypedOps.zero_env None 20 double (local_ids (grid exact_root double b))
       (mkHashmapMemory (bg_storage b) ∅) = Ok (tt, m).
Proof.
  destruct (reference_outputs TypedOps.zero_env None exact_root 20 double [word_list [1; 2; 3; 4; 5]]
    [word_list [2; 4; 6; 8; 10]]) as (q & b & m & Hq & _ & Hb & Hg & Ho).
  - by intros ?.
  - apply double_fits.
  - apply words_ok.
  - vm_compute. reflexivity.
  - assert (program_for_interpreter double = Ok double) as E by (vm_compute; reflexivity).
    rewrite E in Hq. injection Hq as <-. exists m, b. split; [exact Hb|]. split; [|exact Hg].
    assert (results (buffers double) = [buf "out" BufferAccess.ReadWrite true]) as E2 by (vm_compute; reflexivity).
    rewrite E2 in Ho. inversion Ho as [|? ? ? ? (l & Hl & Hv & _)]. unfold word_list, output_value in Hv.
    cbn [bd_output_byte_range buf buf_bytes] in Hv. assert (flat_map (le_bytes 4) [2; 4; 6; 8; 10] = l) as -> by congruence.
    exact Hl.
Defined.
(** A valid program whose one load asks for a zero of [2^63] bytes. *)
Definition wide : Program :=
  mkProgram None [mkBufferDecl "w" 0 BufferAccess.ReadOnly MemoryKind.Global (DataType.Array (2 ^ 63)) 0 false false None
    (mkMemoryHints None 0 CacheLocality.Temporal) false LinearType.Unrestricted None] (1, 1, 1)
    [Node.Region "wide" None [Node.Let "x" (Expr.Load "w" (Expr.LitU32 0))]] false.
(** The condition on zero values is needed: an out-of-bounds load allocates the zero of
    its element type, and the allocation of more than [ARC_BYTES_MAX] bytes panics. *)
Theorem wide_zero_panics : validation_errors None wide = []
  /\ reference_eval TypedOps.zero_env None exact_root 20 wide [Value.Bytes []] = Err Panic.
Proof. split; vm_compute; reflexivity. Qed.
Definition bound_double : Binding :=
  default binding_new (match bind_inputs double [word_list [1; 2; 3; 4; 5]] with Ok b => Some b | Err _ => None end).
Lemma inputs_bound_witness :
  bind_inputs double [word_list [1; 2; 3; 4; 5]] = Ok bound_double
  /\ exists req l, bg_storage bound_double !! "in" = Some (mkBuffer l DataType.U32)
       /\ initial [word_list [1; 2; 3; 4; 5]] 0 (buf "in" BufferAccess.ReadOnly false) req l.
Proof.
  split; [vm_compute; reflexivity|].
  destruct (inputs_bound double [word_list [1; 2; 3; 4; 5]] bound_double double_names ltac:(vm_compute; reflexivity))
    as [_ H].
  apply (H [] (buf "in" BufferAccess.ReadOnly false) [buf "out" BufferAccess.ReadWrite true]); reflexivity.
Defined.
End Reference.
