(* ===== verification/ScopingSound.v ===== *)
(** A validated program never fails on a name: the scope rule of Scoping.v is enough for
    every lookup of the reference interpreter to find what it looks for.

    [named] is the contract of one step; [inv_scoped] the invariant of an invocation: what
    is left of every open list of statements satisfies the rule in the locals it will
    run with. *)

From S2P Require Import Prelude Float Spec IR ProgramStats RefValue RefMemory RefEval Rewrite Collectives ProgramFacts ValidateExpr Validate ValidateSound Scoping RefHash RefSched RefSchedSound RefWorkgroup RefDispatch RefDispatchSound.

(** ** Errors about names *)

Definition name_errors : list string :=
  ["reference to undeclared variable"; "duplicate local binding"; "assignment to undeclared variable";
   "assignment to loop variable"; "missing buffer"; "atomic target is workgroup memory or missing";
   "no DialectLookup is installed"; "unsupported call"; "wrong number of call arguments"; "compare-exchange atomic is missing expected value";
   "non-compare-exchange atomic includes an expected value"].
Definition name_error (e : err) : bool :=
  match e with Interp m => existsb (String.eqb m) name_errors | _ => false end.
(** A result that is not such an error. *)
Definition quiet {A} (x : interp A) : Prop := match x with Ok _ => True | Err e => name_error e = false end.
Lemma quiet_bind {A B} (x : interp A) (f : A -> interp B) : quiet x -> (forall a, quiet (f a)) -> quiet (x ≫= f).
Proof. intros Hx Hf. destruct x; [apply Hf|exact Hx]. Qed.
Lemma quiet_ok_or {A} (o : option A) w : name_error w = false -> quiet (ok_or o w).
Proof. by destruct o. Qed.
Lemma quiet_reject b w : name_error w = false -> quiet (reject_if b w).
Proof. by destruct b. Qed.
Lemma quiet_fmap {A B} (f : A -> B) (x : interp A) : quiet x -> quiet (f <$> x).
Proof. by destruct x. Qed.
Create HintDb quiet.
Local Ltac quiet :=
  repeat match goal with
  | |- quiet (_ ≫= _) => apply quiet_bind; [|intros ?]
  | |- quiet (_ <$> _) => apply quiet_fmap
  | |- quiet (ok_or _ _) => apply quiet_ok_or
  | |- quiet (reject_if _ _) => apply quiet_reject
  | |- quiet (Ok _) => exact I
  | |- quiet (Err _) => reflexivity
  | |- name_error _ = false => reflexivity
  | |- quiet (match ?x with _ => _ end) => destruct x
  | |- quiet (if ?x then _ else _) => destruct x
  | _ => solve [auto with quiet]
  end.

Lemma slice_quiet l a b : quiet (slice l a b).
Proof. unfold slice. quiet. Qed.
#[export] Hint Resolve slice_quiet : quiet.
Lemma zero_quiet t : quiet (zero_or_empty t).
Proof. unfold zero_or_empty, Value.try_zero_for. quiet. Qed.
#[export] Hint Resolve zero_quiet : quiet.
Lemma load_quiet b i : quiet (load b i).
Proof. unfold load. cbv zeta. quiet. Qed.
Lemma store_quiet b i v : quiet (store b i v).
Proof. unfold store. cbv zeta. quiet. Qed.
Lemma Buffer_len_quiet b : quiet (Buffer_len b).
Proof. unfold Buffer_len. cbv zeta. quiet. Qed.
Lemma atomic_load_quiet b i : quiet (atomic_load b i).
Proof. unfold atomic_load. quiet. Qed.
Lemma atomic_store_quiet b i v : quiet (atomic_store b i v).
Proof. unfold atomic_store. quiet. Qed.
Lemma extend_quiet v n out : quiet (Value.extend_bytes_width v n out).
Proof. rewrite extend_bytes_width_spec. quiet. Qed.
Lemma binop_int_quiet t op a b : quiet (it_div t a b) -> quiet (it_rem t a b) -> quiet (binop_int t op a b).
Proof. intros Hd Hr. destruct op; cbn; quiet; done. Qed.
Lemma eval_binop_quiet fe op a b : quiet (eval_binop fe op a b).
Proof.
  unfold eval_binop. destruct (match a, b with
    | Value.U32 l, Value.U32 r => u32_shared_binop op l r
    | Value.I32 l, Value.I32 r => i32_shared_binop op l r
    | Value.U64 l, Value.U64 r => u64_shared_binop op l r
    | _, _ => None end); [exact I|].
  destruct a, b; try reflexivity; try (apply binop_int_quiet; exact I).
  - apply binop_int_quiet; cbn; unfold div_i32, rem_i32; quiet.
  - destruct op; cbn; quiet.
  - destruct op; unfold binop_f32; quiet.
Qed.
Lemma eval_unop_quiet fe op a : quiet (eval_unop fe op a).
Proof. destruct a; try reflexivity; destruct op; cbn [eval_unop]; unfold unop_f32, unop_int, unop_bool; quiet; reflexivity. Qed.
Lemma cast_value_quiet t a : quiet (cast_value t a).
Proof. unfold cast_value. destruct t; destruct a; quiet; reflexivity. Qed.
#[export] Hint Resolve load_quiet store_quiet Buffer_len_quiet atomic_load_quiet atomic_store_quiet extend_quiet
  eval_binop_quiet eval_unop_quiet cast_value_quiet : quiet.

(** ** One step *)

Section Names.
Context (fe : FloatEnv) (dialect : option (string -> option OpDef)) (decls : Buffers).

(** Every declared buffer is where its declaration says. *)
Definition resolves (m : HashmapMemory) : Prop := forall b d, decls !! b = Some d ->
  if is_workgroup d then is_Some (hm_workgroup m !! b) else is_Some (hm_storage m !! b).
(** Lookups succeed, those of operators where a registry is installed. *)
Definition named {A} (Q : A -> Prop) (x : HM A) : Prop := forall m, resolves m ->
  match x m with Ok (a, m') => Q a /\ resolves m' | Err e => is_Some dialect -> name_error e = false end.

Lemma named_ret {A} (Q : A -> Prop) a : Q a -> named Q (mret a).
Proof. by intros Ha m Hm. Qed.
Lemma named_fail {A} (Q : A -> Prop) e : name_error e = false -> named Q (hfail e).
Proof. by intros He m Hm _. Qed.
Lemma named_bind {A B} (P : A -> Prop) (Q : B -> Prop) (x : HM A) (f : A -> HM B) :
  named P x -> (forall a, P a -> named Q (f a)) -> named Q (x ≫= f).
Proof.
  intros Hx Hf m Hm. specialize (Hx m Hm). unfold mbind, HM_bind.
  destruct (x m) as [[a m']|e]; [|done]. destruct Hx as [Ha Hm']. exact (Hf a Ha m' Hm').
Qed.
Lemma named_lift {A} (Q : A -> Prop) (x : interp A) : quiet x -> (forall a, x = Ok a -> Q a) -> named Q (hlift x).
Proof. intros Hx HQ m Hm. unfold hlift. destruct x as [a|e]; [split; [by apply HQ|done]|by intros _]. Qed.
Lemma named_quiet {A} (x : interp A) : quiet x -> named (fun _ => True) (hlift x).
Proof. intros Hx. by apply named_lift. Qed.
Lemma named_get {A} (Q : A -> Prop) (f : HashmapMemory -> HM A) :
  (forall m, resolves m -> named Q (f m)) -> named Q (hget ≫= f).
Proof. intros H m Hm. exact (H m Hm m Hm). Qed.
Lemma named_put {A} (Q : A -> Prop) m (f : unit -> HM A) : resolves m -> named Q (f tt) -> named Q (hput m ≫= f).
Proof. intros Hm H m0 _. exact (H m Hm). Qed.

Lemma is_Some_insert (t : gmap string Buffer) x y b : is_Some (t !! x) -> is_Some (<[y := b]> t !! x).
Proof. destruct (decide (x = y)) as [->|]; [by rewrite lookup_insert_eq; eexists|by rewrite lookup_insert_ne]. Qed.
Lemma resolves_write m in_storage x b : resolves m -> resolves (hash_write_back m in_storage x b).
Proof.
  intros Hm y d Hd. specialize (Hm y d Hd). unfold hash_write_back. destruct in_storage, (is_workgroup d); cbn;
    try exact Hm; by apply is_Some_insert.
Qed.
Lemma resolve_quiet m b : resolves m -> declared decls b = true -> quiet (hash_resolve_buffer m b).
Proof.
  intros Hm [d Hd]%bool_decide_eq_true. specialize (Hm b d Hd). unfold hash_resolve_buffer.
  destruct (hm_storage m !! b); [done|]. destruct (is_workgroup d); destruct Hm as [c Hc]; [by rewrite Hc|done].
Qed.
Lemma buffer_mut_quiet m b : resolves m -> declared decls b = true -> quiet (hash_buffer_mut m b).
Proof.
  intros Hm [d Hd]%bool_decide_eq_true. specialize (Hm b d Hd). unfold hash_buffer_mut.
  destruct (hm_storage m !! b); [done|]. destruct (is_workgroup d); destruct Hm as [c Hc]; [by rewrite Hc|done].
Qed.
Lemma atomic_mut_quiet m b : resolves m -> declared_storage decls b = true -> quiet (hash_atomic_buffer_mut m b).
Proof.
  intros Hm H. unfold declared_storage in H. destruct (decls !! b) as [d|] eqn:Hd; [|done].
  apply bool_decide_eq_true in H. specialize (Hm b d Hd). unfold hash_atomic_buffer_mut.
  unfold is_workgroup in Hm. rewrite H in Hm. cbn in Hm. by destruct Hm as [c ->].
Qed.

(** ** Expressions *)

Context (snapshots : list HashmapInvocationSnapshot).
Abbreviation anything := (fun _ => True).
Lemma to_index_named label v : name_error (Interp label) = false -> named anything (hlift (to_index label v)).
Proof. intros H. by apply named_quiet, quiet_ok_or. Qed.
Lemma to_f32_named label v : name_error (Interp label) = false -> named anything (hlift (to_f32 label v)).
Proof. intros H. by apply named_quiet, quiet_ok_or. Qed.
Lemma load_named b i : declared decls b = true -> named anything (hash_load b i).
Proof.
  intros Hb. apply named_get. intros m Hm. eapply named_bind; [by apply named_quiet, resolve_quiet|]. intros c _.
  apply named_quiet, load_quiet.
Qed.
Lemma buf_len_named b : declared decls b = true -> named anything (hash_buf_len b).
Proof.
  intros Hb. apply named_get. intros m Hm. eapply named_bind; [by apply named_quiet, resolve_quiet|]. intros c _.
  eapply named_bind; [apply named_quiet, Buffer_len_quiet|]. intros n _. by apply named_ret.
Qed.
Lemma apply_atomic_quiet op old x v : expected_matches op (match x with Some _ => true | None => false end) = true ->
  quiet (apply_atomic op old x v).
Proof. by destruct op, x. Qed.
Lemma atomic_named op b i x v : declared_storage decls b = true ->
  expected_matches op (match x with Some _ => true | None => false end) = true -> named anything (hash_atomic op b i x v).
Proof.
  intros Hb Hx. apply named_get. intros m Hm. eapply named_bind; [by apply named_quiet, atomic_mut_quiet|]. intros c _.
  eapply named_bind; [apply named_quiet, atomic_load_quiet|]. intros [old|] _; [|by apply named_ret].
  eapply named_bind; [by apply named_quiet, apply_atomic_quiet|]. intros r _.
  eapply named_bind; [apply named_quiet, atomic_store_quiet|]. intros c' _.
  apply named_put; [by apply resolves_write|]. by apply named_ret.
Qed.
Lemma encode_named ev args : Forall (fun a => named anything (ev a)) args ->
  forall inputs input, named anything (hash_encode_inputs ev args inputs input).
Proof.
  induction 1 as [|a args Ha _ IH]; intros [|ty inputs] input; try by apply named_ret.
  cbn [hash_encode_inputs]. do 2 (eapply named_bind; [by apply named_quiet, quiet_reject|]; intros ? _).
  eapply named_bind; [done|]. intros v _. eapply named_bind; [apply named_quiet, extend_quiet|]. intros ? _. apply IH.
Qed.
Lemma call_named ev op args : call_accepted dialect op (length args) = true -> Forall (fun a => named anything (ev a)) args ->
  named anything (hash_eval_call dialect ev op args).
Proof.
  intros Hc Ha. unfold hash_eval_call, resolve_call. unfold call_accepted, callable in Hc.
  destruct dialect as [lookup|] eqn:Ed; [|intros m Hm; cbn; rewrite Ed; by intros []]. cbn [ok_or mbind result_bind option_bind] in *.
  destruct (lookup op) as [def|]; [|done]. unfold validate_arity.
  apply (named_bind (fun d => d = def)); [by apply named_ret|]. intros ? ->. rewrite Hc.
  eapply named_bind; [by apply named_quiet|]. intros ? _.
  eapply named_bind; [by apply encode_named|]. intros input _.
  eapply named_bind; [by apply named_quiet, quiet_ok_or|]. intros out _. by apply named_ret.
Qed.
Lemma axis_quiet d axis : quiet (axis_value d axis).
Proof. unfold axis_value. quiet. Qed.

Local Ltac operand :=
  eapply named_bind; [first [eassumption | by apply to_index_named | by apply to_f32_named]|intros ? _].
Lemma eval_named Γ l e : (forall x, is_Some (Γ !! x) -> is_Some (sn_locals l !! x)) ->
  scoped_expr dialect decls Γ e = true -> subgroup_free e = true -> named anything (eval_expr fe dialect snapshots e l).
Proof.
  intros HΓ. induction e using Expr_ind'; cbn [scoped_expr subgroup_free eval_expr]; rewrite ?andb_true_iff;
    intros Hs Hf; destruct_and?; repeat match goal with IH : ?P -> ?Q -> _, H : ?P, H' : ?Q |- _ => specialize (IH H H') end;
    cbv zeta; try (by apply named_ret); try (by apply named_fail); try done.
  - apply bool_decide_eq_true, HΓ in Hs as [v Hv]. rewrite Hv. by apply named_ret.
  - do 2 operand. by apply load_named.
  - by apply buf_len_named.
  - apply named_quiet, axis_quiet.
  - apply named_quiet, axis_quiet.
  - apply named_quiet, axis_quiet.
  - do 2 operand. apply named_quiet, eval_binop_quiet.
  - operand. apply named_quiet, eval_unop_quiet.
  - apply call_named; [done|]. rewrite Forall_forall in *. rewrite !forallb_forall in *.
    intros a Ha. apply H; [done|by apply H1, list_elem_of_In|by apply Hf, list_elem_of_In].
  - do 3 operand. by apply named_ret.
  - operand. apply named_quiet, cast_value_quiet.
  - do 6 operand. by apply named_ret.
  - eapply named_bind; [apply named_quiet; by destruct op, e2|]. intros _ _. do 2 operand.
    apply (named_bind (fun x => expected_matches op (match x with Some _ => true | None => false end) = true)).
    + destruct e2 as [y|]; [|by apply named_ret]. cbn [Forall_opt] in H. specialize (H ltac:(done) ltac:(done)).
      do 2 operand. by apply named_ret.
    + intros x Hx. do 2 operand. by apply atomic_named.
Qed.
End Names.

(** ** Locals *)

Definition locals_env (l : HashmapLocals) (Γ : Env) : Prop := forall x,
  match lo_locals l !! x with
  | Some _ => Γ !! x = Some (negb (default false (lo_immutable l !! x)))
  | None => Γ !! x = None /\ lo_immutable l !! x = None
  end.
Definition removes (Γ : Env) (names : list string) : Env := foldl (fun m name => delete name m) Γ names.

Lemma locals_env_new : locals_env locals_new ∅.
Proof. by intros x. Qed.
Lemma locals_env_bound l Γ : locals_env l Γ -> forall x, is_Some (Γ !! x) -> is_Some (lo_locals l !! x).
Proof. intros H x [b Hb]. specialize (H x). destruct (lo_locals l !! x); [by eexists|]. destruct H. congruence. Qed.
Lemma removes_insert Γ names x b : Γ !! x = None -> removes (<[x := b]> Γ) (names ++ [x]) = removes Γ names.
Proof.
  intros Hx. apply map_eq. intros y. unfold removes. rewrite !deletes_lookup.
  destruct (decide (y ∈ names)) as [Hy|Hy]; [by rewrite decide_True by set_solver|].
  destruct (decide (y = x)) as [->|Hne]; [by rewrite decide_True by set_solver|].
  rewrite decide_False by set_solver. by rewrite lookup_insert_ne.
Qed.
Lemma bind_env l Γ x v : locals_env l Γ -> Γ !! x = None -> exists l', bind l x v = Ok l'
  /\ locals_env l' (<[x := true]> Γ)
  /\ lo_scopes l' = match lo_scopes l with [] => [] | scope :: scopes => (scope ++ [x]) :: scopes end.
Proof.
  intros Hl Hx. unfold bind. pose proof (Hl x) as Hlx. destruct (lo_locals l !! x) eqn:E; [congruence|]. destruct Hlx as [_ Hi].
  eexists. split; [done|]. split; [|done]. intros y. cbn. destruct (decide (y = x)) as [->|Hy].
  - by rewrite !lookup_insert_eq, Hi.
  - rewrite !lookup_insert_ne by done. apply Hl.
Qed.
Lemma assign_env l Γ x v : locals_env l Γ -> Γ !! x = Some true -> exists l', assign l x v = Ok l'
  /\ locals_env l' Γ /\ lo_scopes l' = lo_scopes l.
Proof.
  intros Hl Hx. unfold assign. pose proof (Hl x) as Hlx. destruct (lo_locals l !! x) eqn:E; [|destruct Hlx; congruence].
  assert (default false (lo_immutable l !! x) = false) as Hd by (destruct (default false _); cbn in *; congruence).
  rewrite Hd. eexists. split; [done|]. split; [|done]. intros y. cbn. destruct (decide (y = x)) as [->|Hy].
  - by rewrite lookup_insert_eq.
  - rewrite lookup_insert_ne by done. apply Hl.
Qed.
Lemma bind_loop_var_env l Γ x v : locals_env l Γ -> Γ !! x = None -> exists l', bind_loop_var (push_scope l) x v = Ok l'
  /\ locals_env l' (<[x := false]> Γ) /\ lo_scopes l' = [x] :: lo_scopes l.
Proof.
  intros Hl Hx. destruct (bind_env (push_scope l) Γ x v Hl Hx) as (l' & E & Hl' & Hs). unfold bind_loop_var.
  rewrite E. eexists. split; [done|]. split; [|exact Hs]. intros y. specialize (Hl' y). cbn.
  destruct (decide (y = x)) as [->|Hy].
  - rewrite !lookup_insert_eq in *. destruct (lo_locals l' !! x); [done|by destruct Hl'].
  - by rewrite !lookup_insert_ne in * by done.
Qed.
Lemma pop_scope_env l Γ names scopes : locals_env l Γ -> lo_scopes l = names :: scopes ->
  locals_env (pop_scope l) (removes Γ names) /\ lo_scopes (pop_scope l) = scopes.
Proof.
  intros Hl Hs. unfold pop_scope. rewrite Hs. split; [|done]. intros x. cbn. unfold removes. rewrite !deletes_lookup.
  case_decide; [done|apply Hl].
Qed.

(** ** Invocations *)

Section Steps.
Context (fe : FloatEnv) (dialect : option (string -> option OpDef)) (decls : Buffers).
Context (snapshots : list HashmapInvocationSnapshot).

(** Statements whose names the validator checks: no transfer, no trap, no collective over
    the lanes of a subgroup, no assignment to the name of a buffer. *)
Fixpoint plain_node (n : Node) : bool :=
  match n with
  | Node.Let _ e => subgroup_free e
  | Node.Assign x e => negb (declared decls x) && subgroup_free e
  | Node.Store _ i v => subgroup_free i && subgroup_free v
  | Node.If c t o => subgroup_free c && forallb plain_node t && forallb plain_node o
  | Node.Loop _ a b body => subgroup_free a && subgroup_free b && forallb plain_node body
  | Node.Block body | Node.Region _ _ body => forallb plain_node body
  | Node.AsyncLoad _ _ _ _ _ | Node.AsyncStore _ _ _ _ _ | Node.AsyncWait _ | Node.Trap _ _ => false
  | _ => true
  end.
Abbreviation plain := (fun nodes => forallb plain_node nodes = true).
Abbreviation scoped_nodes := (fun nodes Γ => is_Some (scope_nodes dialect decls nodes Γ)).

(** The open lists of statements, with the locals each of them runs with. *)
Fixpoint frames_scoped (frames : list NodeFrame) (Γ : Env) (scopes : list (list string)) : Prop :=
  match frames with
  | [] => True
  | FrNodes _ nodes index scoped :: frames =>
      plain nodes /\ scoped_nodes (drop index nodes) Γ
      /\ if scoped then match scopes with [] => False | names :: scopes => frames_scoped frames (removes Γ names) scopes end
         else frames = []
  | FrLoop _ var _ _ body :: frames =>
      plain body /\ Γ !! var = None /\ scoped_nodes body (<[var := false]> Γ) /\ frames_scoped frames Γ scopes
  end.
Definition inv_scoped (i : HashmapInvocation) : Prop := exists Γ,
  locals_env (hi_locals i) Γ /\ frames_scoped (hi_frames i) Γ (lo_scopes (hi_locals i)).
Abbreviation safe_step := (named dialect decls inv_scoped).

Lemma eval_inv_named e i Γ : locals_env (hi_locals i) Γ -> scoped_expr dialect decls Γ e = true ->
  subgroup_free e = true -> named dialect decls (fun _ => True) (eval_expr fe dialect snapshots e (snapshot i)).
Proof. intros Hl. apply (eval_named _ _ _ _ Γ). by apply locals_env_bound. Qed.
Lemma inv_step i Γ : locals_env (hi_locals i) Γ -> frames_scoped (hi_frames i) Γ (lo_scopes (hi_locals i)) ->
  safe_step (mret i).
Proof. intros Hl Hf. apply named_ret. by exists Γ. Qed.
Lemma enter_scoped i Γ path nodes : locals_env (hi_locals i) Γ -> plain nodes -> scoped_nodes nodes Γ ->
  frames_scoped (hi_frames i) Γ (lo_scopes (hi_locals i)) -> safe_step (mret (enter i path nodes)).
Proof. intros Hl Hp Hn Hf. apply named_ret. exists Γ. split; [exact Hl|]. by split_and!. Qed.

(** The statement at hand, and the frame once it has been taken. *)
Lemma frames_step path nodes index scoped fs Γ scopes n : nodes !! index = Some n ->
  frames_scoped (FrNodes path nodes index scoped :: fs) Γ scopes -> exists Γ',
  plain_node n = true /\ scope_node dialect decls n Γ = Some Γ'
  /\ (Γ' = Γ -> frames_scoped (FrNodes path nodes (S index) scoped :: fs) Γ scopes)
  /\ (forall x, Γ !! x = None -> Γ' = <[x := true]> Γ -> frames_scoped (FrNodes path nodes (S index) scoped :: fs) Γ'
        match scopes with [] => [] | names :: scopes => (names ++ [x]) :: scopes end).
Proof.
  intros Hn (Hp & [Γ2 Hs] & Hb). rewrite (drop_S _ _ _ Hn) in Hs. unfold scope_nodes in Hs. rewrite scope_list_cons in Hs.
  destruct (scope_node dialect decls n Γ) as [Γ'|] eqn:E; [|done]. exists Γ'. split_and!.
  - rewrite forallb_forall in Hp. by eapply Hp, list_elem_of_In, list_elem_of_lookup_2.
  - done.
  - intros ->. split_and!; [done|by eexists|done].
  - intros x Hx ->. split_and!; [done|by eexists|]. destruct scoped; [|done].
    destruct scopes as [|names scopes]; [done|]. by rewrite removes_insert.
Qed.
Lemma provided_Some {A} (b : bool) (o : option A) x : provided b o = Some x -> b = true /\ o = Some x.
Proof. by destruct b. Qed.
Lemma leaves_Some inner Γ Γ' : leaves inner Γ = Some Γ' -> is_Some inner /\ Γ' = Γ.
Proof. destruct inner; [|done]. intros [= <-]. by split; [eexists|]. Qed.

Local Ltac operand :=
  match goal with Hl : locals_env (hi_locals ?i) _ |- named _ _ _ (eval_expr _ _ _ _ (snapshot ?i) ≫= _) =>
    eapply named_bind; [by eapply (eval_inv_named _ i _ Hl)|intros ? _]
  | |- named _ _ _ (hlift (to_index _ _) ≫= _) => eapply named_bind; [by apply to_index_named|intros ? _]
  end.
Lemma exec_named n id i Γ path nodes index scoped fs : hi_frames i = FrNodes path nodes (S index) scoped :: fs ->
  nodes !! index = Some n -> locals_env (hi_locals i) Γ ->
  frames_scoped (FrNodes path nodes index scoped :: fs) Γ (lo_scopes (hi_locals i)) ->
  safe_step (exec_node fe dialect snapshots n id i).
Proof.
  intros Hfr Hn Hl Hf. destruct (frames_step _ _ _ _ _ _ _ _ Hn Hf) as (Γ' & Hp & Hs & Hsame & Hnew). rewrite <- Hfr in Hsame, Hnew.
  destruct n; cbn [exec_node scope_node plain_node] in *; rewrite ?andb_true_iff in Hp; try (by apply named_fail); try done.
  - apply provided_Some in Hs as [[He Hx%bool_decide_eq_true]%andb_true_iff [= <-]]. operand.
    destruct (bind_env _ _ name a Hl Hx) as (l' & -> & Hl' & Hsc). apply named_ret. eexists. split; [exact Hl'|].
    cbn [with_locals hi_locals hi_frames]. rewrite Hsc. by apply Hnew.
  - apply provided_Some in Hs as [[He Hx]%andb_true_iff [= <-]]. destruct Hp as [Hd Hp]. operand.
    assert (Γ !! name = Some true) as Hm.
    { destruct (Γ !! name) as [m|]; [by rewrite Hx|]. unfold declared_storage, declared in *. by destruct (decls !! name). }
    destruct (assign_env _ _ name a Hl Hm) as (l' & -> & Hl' & Hsc). apply named_ret. exists Γ. split; [exact Hl'|].
    cbn [with_locals hi_locals hi_frames]. rewrite Hsc. by apply Hsame.
  - apply provided_Some in Hs as [[[Hb Hi]%andb_true_iff Hv]%andb_true_iff [= <-]]. destruct Hp. do 3 operand.
    apply named_get. intros m Hm. eapply named_bind; [by apply named_quiet, (buffer_mut_quiet decls)|]. intros t _.
    eapply named_bind; [apply named_quiet, store_quiet|]. intros c _. apply named_put; [by apply resolves_write|].
    by apply (inv_step _ _ Hl), Hsame.
  - apply provided_Some in Hs as [Hc Hs]. destruct (leaves _ _) as [Γ1|] eqn:E1; [|done].
    apply leaves_Some in E1 as [Ht ->]. apply leaves_Some in Hs as [Ho ->]. destruct Hp as [[Hpc Hpt] Hpo]. operand.
    cbv zeta. specialize (Hsame eq_refl). destruct (contains_barrier _ || _); destruct (Value.truthy a);
      by apply (enter_scoped _ Γ).
  - apply provided_Some in Hs as [[[Ha Hb]%andb_true_iff Hx%bool_decide_eq_true]%andb_true_iff Hs].
    apply leaves_Some in Hs as [Hbody ->]. destruct Hp as [[Hpa Hpb] Hp]. do 4 operand. apply named_ret. exists Γ.
    split; [exact Hl|]. cbn [push_frame with_frames hi_frames hi_locals]. split_and!; [done..|]. by apply Hsame.
  - eapply named_bind; [by apply named_quiet, quiet_reject|]. intros _ _. by apply named_fail.
  - apply named_ret. by exists Γ.
  - injection Hs as <-. by apply (inv_step _ _ Hl), Hsame.
  - apply leaves_Some in Hs as [Hbody ->]. by apply (enter_scoped _ Γ); [..|apply Hsame].
  - apply leaves_Some in Hs as [Hbody ->]. by apply (enter_scoped _ Γ); [..|apply Hsame].
Qed.

Lemma step_frames_named fs : forall i Γ, hi_frames i = fs -> locals_env (hi_locals i) Γ ->
  frames_scoped fs Γ (lo_scopes (hi_locals i)) -> safe_step (step_frames fe dialect snapshots fs i).
Proof.
  induction fs as [|f fs IH]; intros i Γ Hfr Hl Hf; cbn [step_frames]; [apply named_ret; by exists Γ|]. cbv zeta.
  destruct f as [path nodes index scoped|path var next to body].
  - unfold step_nodes_frame. destruct (nodes !! index) as [n|] eqn:E.
    + eapply (named_bind _ _ (fun r => r.1 = true /\ inv_scoped r.2)).
      { eapply named_bind; [by eapply exec_named|]. intros i' Hi'. by apply named_ret. }
      intros [stop i'] [Hstop Hi']. cbn in Hstop. rewrite Hstop. by apply named_ret.
    + destruct Hf as (Hp & Hn & Hb). destruct scoped.
      * destruct (lo_scopes (hi_locals i)) as [|names scopes] eqn:Es; [done|].
        destruct (pop_scope_env _ _ _ _ Hl Es) as [Hl' Hs']. apply named_ret. exists (removes Γ names).
        split; [exact Hl'|]. cbn. by rewrite Hs'.
      * subst fs. apply named_ret. by exists Γ.
  - destruct Hf as (Hp & Hx & Hn & Hb). unfold step_loop_frame. destruct (to <=? next).
    { apply named_ret. by exists Γ. }
    cbv zeta. cbn [push_frame with_frames hi_locals].
    destruct (bind_loop_var_env _ _ var (Value.U32 next) Hl Hx) as (l' & -> & Hl' & Hs'). cbn [mbind result_bind].
    apply named_ret. exists (<[var := false]> Γ). split; [exact Hl'|]. cbn [push_frame with_frames with_locals hi_frames hi_locals].
    pose proof (removes_insert Γ [] var false Hx) as Hrm. cbn [app] in Hrm.
    rewrite Hs'. split; [done|]. split; [by rewrite drop_0|]. rewrite Hrm. by split_and!.
Qed.
Lemma step_all_named invs : Forall inv_scoped invs ->
  named dialect decls (fun r => Forall inv_scoped r.2) (step_all fe dialect snapshots invs).
Proof.
  induction 1 as [|i invs Hi _ IH]; cbn [step_all]; [by apply named_ret|]. destruct (done i || hi_waiting i) eqn:E.
  - eapply named_bind; [exact IH|]. intros r Hr. apply named_ret. by constructor.
  - eapply named_bind.
    { unfold step. rewrite E. destruct Hi as (Γ & Hl & Hf). by eapply step_frames_named. }
    intros i' Hi'. eapply named_bind; [exact IH|]. intros r Hr. apply named_ret. by constructor.
Qed.
End Steps.

(** ** Rounds *)

Lemma try_fold_quiet {A B} (f : A -> B -> interp A) l : (forall a b, quiet (f a b)) -> forall a, quiet (try_fold f a l).
Proof. intros Hf. induction l as [|b l IH]; intros a; cbn [try_fold]; [done|]. apply quiet_bind; auto. Qed.
Lemma observations_quiet checks : forall observed, quiet (check_observations observed checks).
Proof.
  induction checks as [|[id value] checks IH]; intros observed; cbn [check_observations]; [done|].
  destruct (list_find _ observed) as [[k [i b]]|]; [|apply IH]. by destruct (Bool.eqb b value).
Qed.
Lemma verify_quiet invs : quiet (verify_uniform_control_flow invs).
Proof. apply quiet_bind; [|done]. apply try_fold_quiet. intros a b. apply observations_quiet. Qed.

Section Group.
Context (fe : FloatEnv) (dialect : option (string -> option OpDef)) (decls : Buffers) (uses : bool).
Abbreviation scoped := (Forall (inv_scoped dialect decls)).
Lemma released_scoped invs released : scoped invs -> release_barrier_if_ready invs = Some released -> scoped released.
Proof.
  unfold release_barrier_if_ready. destruct (_ && _); [|done]. intros H [= <-]. apply Forall_map.
  eapply Forall_impl; [exact H|]. done.
Qed.
Lemma run_loop_named fuel : forall invs, scoped invs -> named dialect decls scoped (run_loop fe dialect uses fuel invs).
Proof.
  induction fuel as [|fuel IH]; intros invs Hi; cbn [run_loop]; destruct (forallb done invs); try (by apply named_ret).
  { by apply named_fail. }
  eapply named_bind; [by apply step_all_named|]. intros [progress invs'] Hi'. cbn [snd] in Hi'.
  eapply named_bind; [apply named_quiet, verify_quiet|]. intros _ _.
  destruct (release_barrier_if_ready invs') as [released|] eqn:E; [by apply IH, (released_scoped invs')|].
  destruct (_ && _); [by apply named_fail|by apply IH].
Qed.
Lemma run_invocations_named fuel invs : scoped invs -> named dialect decls (fun _ => True) (run_invocations fe dialect uses fuel invs).
Proof.
  intros Hi. eapply named_bind; [by apply run_loop_named|]. intros invs' _.
  destruct (existsb _ invs'); [by apply named_fail|by apply named_ret].
Qed.
End Group.

(** ** Workgroups *)

Lemma byte_len_quiet decl : quiet (workgroup_byte_len decl).
Proof. unfold workgroup_byte_len, static_byte_len. quiet. Qed.
#[export] Hint Resolve byte_len_quiet : quiet.
Lemma allocate_quiet st decl : quiet (allocate st decl).
Proof. unfold allocate. quiet. Qed.
Lemma same_layout_quiet w l : quiet (same_layout w l).
Proof.
  induction l as [|d l IH]; cbn [same_layout]; [done|]. destruct (w !! bd_name d); [|done].
  apply quiet_bind; [apply byte_len_quiet|]. intros n. by destruct (_ || _).
Qed.
Lemma reset_quiet m p : quiet (reset_workgroup m p).
Proof.
  apply quiet_bind; [apply quiet_bind; [apply same_layout_quiet|]; intros same; by destruct (same && _)|].
  intros [w|]; [done|]. apply quiet_bind; [|done]. apply quiet_bind; [|done]. apply try_fold_quiet, allocate_quiet.
Qed.
Lemma create_quiet p wg entry : quiet (create_invocations p wg entry).
Proof.
  unfold create_invocations. destruct (workgroup_size p) as [[sx sy] sz]. apply quiet_bind; [by apply quiet_ok_or|]. intros _.
  apply try_fold_quiet. intros acc [[x y] z]. destruct wg as [[wx wy] wz]. unfold create_one.
  do 3 (apply quiet_bind; [by apply quiet_ok_or|]; intros ?). done.
Qed.

Lemma same_layout_keys w l : same_layout w l = Ok true -> forall d, d ∈ l -> is_Some (w !! bd_name d).
Proof.
  induction l as [|d l IH]; cbn [same_layout]; [by intros _ d ?%elem_of_nil|].
  destruct (w !! bd_name d) eqn:E; [|done]. intros (n & _ & H)%bind_Ok. destruct (_ || _); [done|].
  intros d' [->|Hd]%elem_of_cons; [by rewrite E|auto].
Qed.
Lemma allocate_keys l : forall st st', try_fold allocate st l = Ok st' ->
  (forall x, is_Some (st.1 !! x) -> is_Some (st'.1 !! x)) /\ (forall d, d ∈ l -> is_Some (st'.1 !! bd_name d)).
Proof.
  induction l as [|d l IH]; intros st st'; cbn [try_fold].
  { intros [= <-]. split; [done|by intros d ?%elem_of_nil]. }
  intros (st1 & H1 & H)%bind_Ok. apply IH in H as [Hk Hl].
  unfold allocate in H1. apply bind_Ok in H1 as (len & _ & H1). apply bind_Ok in H1 as (n & _ & H1).
  apply bind_Ok in H1 as (u & _ & [= <-]). cbn [fst] in *. split.
  - intros x Hx. apply Hk. by apply is_Some_insert.
  - intros d' [->|Hd]%elem_of_cons; [|auto]. apply Hk. rewrite lookup_insert_eq. by eexists.
Qed.

Section Program.
Context (fe : FloatEnv) (dialect : option (string -> option OpDef)) (p : Program).
Abbreviation decls := (buffer_map (buffers p)).
Context (Hplain : forallb (plain_node decls) (entry p) = true).
Context (Hscope : is_Some (scope_nodes dialect decls (entry p) ∅)).

(** Between workgroups only the storage is there. *)
Definition storage_resolves (m : HashmapMemory) : Prop := forall b d, decls !! b = Some d ->
  is_workgroup d = false -> is_Some (hm_storage m !! b).
Lemma resolves_storage m : resolves decls m -> storage_resolves m.
Proof. intros H b d Hd Hw. specialize (H b d Hd). by rewrite Hw in H. Qed.
Lemma workgroup_decl b d : decls !! b = Some d -> is_workgroup d = true -> d ∈ workgroup_decls p /\ bd_name d = b.
Proof.
  intros [Hd <-]%buffer_map_elem Hw. split; [|done]. apply list_elem_of_filter. split; [|done]. by apply bool_decide_eq_true in Hw.
Qed.
Lemma reset_resolves m m' : storage_resolves m -> reset_workgroup m p = Ok m' -> resolves decls m'.
Proof.
  intros Hm. unfold reset_workgroup. intros (o & Ho & H)%bind_Ok.
  assert (hm_storage m' = hm_storage m /\ forall d, d ∈ workgroup_decls p -> is_Some (hm_workgroup m' !! bd_name d)) as [Hs Hw].
  { destruct o as [w|].
    - injection H as <-. split; [done|]. intros d Hd. cbn. unfold zero_existing_workgroup in Ho.
      apply bind_Ok in Ho as (same & Hsame & Ho). destruct same; cbn [andb] in Ho; [|done].
      destruct (_ =? _)%nat; [|done]. injection Ho as <-. apply (same_layout_keys _ _ Hsame) in Hd. by rewrite lookup_fmap, fmap_is_Some.
    - apply bind_Ok in H as (w & Hmem & [= <-]). split; [done|]. unfold workgroup_memory in Hmem.
      apply bind_Ok in Hmem as (r & Hr & [= <-]). by apply allocate_keys in Hr as [_ ?]. }
  intros b d Hd. destruct (is_workgroup d) eqn:E; [|rewrite Hs; by apply (Hm b d)].
  apply (workgroup_decl b d Hd) in E as [E <-]. by apply Hw.
Qed.
Lemma created_scoped wg invs : create_invocations p wg (entry p) = Ok invs -> Forall (inv_scoped dialect decls) invs.
Proof.
  unfold create_invocations. destruct (workgroup_size p) as [[sx sy] sz]. intros (u & _ & H)%bind_Ok.
  apply create_fold_Ok in H as (news & -> & _ & Hnews). apply Forall_lookup. intros j i Hj.
  destruct (Hnews j i Hj) as ([[x y] z] & _ & Hc). destruct wg as [[wx wy] wz]. destruct Hc as (-> & _).
  exists ∅. split; [apply locals_env_new|]. by split_and!.
Qed.
(** A workgroup leaves the storage as it found it, as far as names go. *)
Definition group_named {A} (x : HM A) : Prop := forall m, storage_resolves m ->
  match x m with Ok (_, m') => storage_resolves m' | Err e => is_Some dialect -> name_error e = false end.
Lemma run_workgroup_named uses fuel wg : group_named (run_workgroup fe dialect uses fuel p wg).
Proof.
  intros m Hm. unfold run_workgroup. unfold mbind at 1, HM_bind at 1, hget, mbind at 1, HM_bind at 1, hlift at 1.
  pose proof (reset_quiet m p) as Hq. destruct (reset_workgroup m p) as [m1|e] eqn:E; [|by intros _].
  apply (reset_resolves m m1 Hm) in E.
  assert (named dialect decls (fun _ => True) (_ ← hput m1; invs ← hlift (create_invocations p wg (entry p));
            _ ← run_invocations fe dialect uses fuel invs; mret tt)) as H.
  { apply named_put; [done|]. eapply (named_bind _ _ (Forall (inv_scoped dialect decls))).
    - apply named_lift; [apply create_quiet|]. apply created_scoped.
    - intros invs Hi. eapply named_bind; [by apply run_invocations_named|]. intros _ _. by apply named_ret. }
  specialize (H m1 E). unfold hput, mbind, HM_bind in *. destruct (match hlift _ m1 with Ok _ => _ | Err _ => _ end) as [[a m2]|e];
    [|exact H]. apply resolves_storage, H.
Qed.
Lemma run_grid_named fuel ids : group_named (run_grid fe dialect fuel p ids).
Proof.
  induction ids as [|wg ids IH]; intros m Hm; cbn [run_grid]; [done|]. unfold mbind, HM_bind.
  pose proof (run_workgroup_named (rc_subgroup_ops (scan p)) fuel wg m Hm) as H.
  destruct (run_workgroup _ _ _ _ _ _ m) as [[u m1]|e]; [by apply IH|exact H].
Qed.
End Program.

(** ** The dispatch *)

Lemma min_byte_len_quiet d : quiet (declared_min_byte_len d).
Proof. unfold declared_min_byte_len, static_byte_len. quiet. Qed.
Lemma element_count_quiet d n : quiet (element_count d n).
Proof. unfold element_count, to_u32. quiet. Qed.
Lemma buffer_bytes_quiet inputs legacy index d n : quiet (buffer_bytes inputs legacy index d n).
Proof. unfold buffer_bytes. quiet. Qed.
Lemma bind_decl_quiet inputs legacy b d : quiet (bind_decl inputs legacy b d).
Proof.
  unfold bind_decl. destruct (is_workgroup d); [done|]. cbv zeta. apply quiet_bind; [apply min_byte_len_quiet|]. intros n.
  apply quiet_bind; [apply buffer_bytes_quiet|]. intros [l k]. apply quiet_bind; [by apply quiet_reject|]. intros _.
  apply quiet_bind; [apply element_count_quiet|]. intros c. by destruct (is_result d).
Qed.
Lemma bind_inputs_quiet p inputs : quiet (bind_inputs p inputs).
Proof.
  apply quiet_bind; [apply try_fold_quiet, bind_decl_quiet|]. intros b. apply quiet_bind; [by apply quiet_reject|]. done.
Qed.
Lemma bind_decl_keys inputs legacy b d b' : bind_decl inputs legacy b d = Ok b' ->
  (forall x, is_Some (bg_storage b !! x) -> is_Some (bg_storage b' !! x))
  /\ (is_workgroup d = false -> is_Some (bg_storage b' !! bd_name d)).
Proof.
  unfold bind_decl. destruct (is_workgroup d); [by intros [= <-]|]. cbv zeta. intros (n & _ & H)%bind_Ok.
  apply bind_Ok in H as ([l k] & _ & H). apply bind_Ok in H as (u & _ & H). apply bind_Ok in H as (c & _ & H).
  assert (bg_storage b' = <[bd_name d := mkBuffer l (bd_element d)]> (bg_storage b)) as -> by (destruct (is_result d); by injection H as <-).
  split; [intros x; apply is_Some_insert|]. intros _. rewrite lookup_insert_eq. by eexists.
Qed.
Lemma bind_fold_keys inputs legacy l : forall b b', try_fold (bind_decl inputs legacy) b l = Ok b' ->
  (forall x, is_Some (bg_storage b !! x) -> is_Some (bg_storage b' !! x))
  /\ (forall d, d ∈ l -> is_workgroup d = false -> is_Some (bg_storage b' !! bd_name d)).
Proof.
  induction l as [|d l IH]; intros b b'; cbn [try_fold].
  { intros [= <-]. split; [done|by intros d ?%elem_of_nil]. }
  intros (b1 & H1 & H)%bind_Ok. apply IH in H as [Hk Hl]. apply bind_decl_keys in H1 as [Hk1 Hd1]. split; [auto|].
  intros d' [->|Hd]%elem_of_cons; auto.
Qed.
Lemma bind_inputs_keys p inputs b : bind_inputs p inputs = Ok b ->
  storage_resolves p (mkHashmapMemory (bg_storage b) ∅).
Proof.
  intros (b1 & H & H2)%bind_Ok. apply bind_Ok in H2 as (u & _ & [= <-]). apply bind_fold_keys in H as [_ H].
  intros x d [Hd <-]%buffer_map_elem Hw. by apply H.
Qed.
Lemma take_outputs_quiet l : forall storage, quiet (take_outputs storage l).
Proof. induction l as [|d l IH]; intros storage; cbn [take_outputs]; [done|]. apply quiet_bind; [by apply quiet_ok_or|]. intros b.
  apply quiet_bind; [apply IH|]. done. Qed.

Lemma run_reference_named fe dialect powf fuel p inputs : is_Some dialect ->
  forallb (plain_node (buffer_map (buffers p))) (entry p) = true ->
  quiet (run_hashmap_reference fe dialect powf fuel p inputs).
Proof.
  intros Hinst Hp. unfold run_hashmap_reference. destruct (validation_errors dialect p) eqn:Hv; [|done].
  apply validated_scope in Hv; [|done]. pose proof (bind_inputs_quiet p inputs) as Hq.
  destruct (bind_inputs p inputs) as [b|e] eqn:Eb; [|exact Hq]. apply bind_inputs_keys in Eb. cbn [mbind result_bind].
  apply quiet_bind; [by apply quiet_reject|]. intros _.
  pose proof (run_grid_named fe dialect p Hp Hv fuel (local_ids (grid powf p b)) _ Eb) as Hg.
  destruct (run_grid _ _ _ _ _ _) as [[u m]|e]; [|by apply Hg]. apply take_outputs_quiet.
Qed.

(** ** Normalising keeps statements plain *)

Section Normal.
Context (decls : Buffers).
Abbreviation plain := (fun l => forallb (plain_node decls) l = true).
Lemma lower_list_plain l : Forall (fun n => forall st out st', plain_node decls n = true -> lower_node n st = Ok (out, st') -> plain out) l ->
  forall st out st', plain l -> lower_nodes_with lower_node l st = Ok (out, st') -> plain out.
Proof.
  induction 1 as [|n l Hn _ IH]; intros st out st' Hl H; cbn [lower_nodes_with] in H; [by injection H as <- _|].
  cbn [forallb] in Hl. apply andb_true_iff in Hl as [Hf Hl].
  apply bind_Ok in H as ([o1 st1] & H1 & H). apply bind_Ok in H as ([o2 st2] & H2 & H).
  injection H as <- _. rewrite forallb_app. by rewrite (Hn _ _ _ Hf H1), (IH _ _ _ Hl H2).
Qed.
Lemma lower_node_plain n : forall st out st', plain_node decls n = true -> lower_node n st = Ok (out, st') -> plain out.
Proof.
  induction n using Node_ind'; intros st out st' Hf Hl; cbn [lower_node] in Hl; cbn [plain_node] in Hf;
    rewrite ?andb_true_iff in Hf; destruct_and?;
    try (injection Hl as <- _; cbn [forallb plain_node]; rewrite andb_true_r; by rewrite ?andb_true_iff).
  - apply bind_Ok in Hl as ([t' st1] & Ht & Hl). apply bind_Ok in Hl as ([o' st2] & Ho & Hl). injection Hl as <- _.
    apply (lower_list_plain _ H) in Ht; [|done]. apply (lower_list_plain _ H0) in Ho; [|done].
    cbn [forallb plain_node]. rewrite andb_true_r, !andb_true_iff. done.
  - apply bind_Ok in Hl as ([b' st1] & Hb & Hl). injection Hl as <- _. apply (lower_list_plain _ H) in Hb; [|done].
    cbn [forallb plain_node]. rewrite andb_true_r, !andb_true_iff. done.
  - apply bind_Ok in Hl as (u & _ & Hl). by injection Hl as <- _.
  - apply bind_Ok in Hl as (u & _ & Hl). by apply copy_out in Hl as ->.
  - apply bind_Ok in Hl as (u & _ & Hl). by apply copy_out in Hl as ->.
  - apply bind_Ok in Hl as (u & _ & Hl). destruct (r =? 0); [|done]. by injection Hl as <- _.
  - apply bind_Ok in Hl as ([b' st1] & Hb & Hl). injection Hl as <- _. apply (lower_list_plain _ H) in Hb; [|done].
    cbn [forallb plain_node]. by rewrite andb_true_r.
  - apply bind_Ok in Hl as ([b' st1] & Hb & Hl). injection Hl as <- _. apply (lower_list_plain _ H) in Hb; [|done].
    cbn [forallb plain_node]. by rewrite andb_true_r.
Qed.
Lemma wrap_plain nodes : plain nodes -> plain (wrap_entry nodes).
Proof. intros H. unfold wrap_entry. destruct (entry_needs_root_region nodes); [|done]. cbn [forallb plain_node]. by rewrite H. Qed.
End Normal.
Definition plain_program (p : Program) : Prop := forallb (plain_node (buffer_map (buffers p))) (entry p) = true.
Lemma reconcile_plain p : plain_program p -> plain_program (reconcile_runnable_top_level p).
Proof.
  intros Hp. unfold reconcile_runnable_top_level. destruct (is_top_level_region_wrapped p); [done|].
  by apply (wrap_plain (buffer_map (buffers p))).
Qed.
Lemma lower_plain p q : plain_program p -> lower_single_rank_collectives p = Ok (Some q) -> plain_program q.
Proof.
  intros Hp. unfold lower_single_rank_collectives. destruct (negb _); [done|].
  intros ([nodes st] & Hl & H)%bind_Ok. destruct (lowered st =? 0); [done|]. injection H as <-.
  apply (lower_list_plain (buffer_map (buffers p)) (entry p)) in Hl; [done| |done]. apply Forall_true. intros n. apply lower_node_plain.
Qed.
Lemma interpreter_plain p : plain_program p ->
  match program_for_interpreter p with Ok q => plain_program q | Err e => name_error e = false end.
Proof.
  intros Hp. unfold program_for_interpreter.
  match goal with |- context [mbind _ ?m] => assert (match m with Ok q => plain_program q | Err e => name_error e = false end) as H;
    [|destruct m as [q|e]; [|exact H]] end.
  { unfold top_level_region_violation. pose proof (reconcile_plain p Hp).
    destruct (entry p) as [|n l]; [done|]. destruct (list_find _ _); [|done]. by destruct n. }
  cbn [mbind result_bind]. destruct (lower_single_rank_collectives q) as [[l|]|e] eqn:El; [|done|done].
  by apply (lower_plain q).
Qed.

(** ** Uniform expressions *)

Section Uniform.
Context (fe : FloatEnv) (dialect : option (string -> option OpDef)) (snapshots : list HashmapInvocationSnapshot).
Context (scope : Scope) (a b : HashmapInvocationSnapshot).
Context (Hw : workgroup_id (sn_ids a) = workgroup_id (sn_ids b)).
Context (Hv : forall x v, scope !! x = Some v -> vb_uniform v = true -> sn_locals a !! x = sn_locals b !! x).

(** Both lanes compute the same, and leave the memory alone. *)
Definition agrees {A} (x y : HM A) : Prop := forall m, x m = y m /\ (forall v m', x m = Ok (v, m') -> m' = m).
Lemma agrees_lift {A} (x : interp A) : agrees (hlift x) (hlift x).
Proof. intros m. split; [done|]. unfold hlift. destruct x; [|done]. by intros v m' [= <- <-]. Qed.
Lemma agrees_ret {A} (v : A) : agrees (mret v) (mret v).
Proof. exact (agrees_lift (Ok v)). Qed.
Lemma agrees_bind {A B} (x y : HM A) (f g : A -> HM B) : agrees x y -> (forall v, agrees (f v) (g v)) ->
  agrees (x ≫= f) (y ≫= g).
Proof.
  intros Hx Hf m. destruct (Hx m) as [E Hm]. unfold mbind, HM_bind. rewrite <- E.
  destruct (x m) as [[v m1]|e] eqn:Ex; [|done]. rewrite (Hm v m1 eq_refl). apply Hf.
Qed.
Lemma agrees_get : agrees hget hget.
Proof. intros m. split; [done|]. by intros v m' [= <- <-]. Qed.
Lemma uniform_agrees e : uniform scope e = true -> agrees (eval_expr fe dialect snapshots e a) (eval_expr fe dialect snapshots e b).
Proof.
  induction e using Expr_ind'; cbn [uniform divergent_leaf eval_expr]; rewrite ?andb_true_iff; try (by intros [? ?]);
    cbv zeta; intros Hu; destruct_and?; try apply agrees_ret;
    repeat (apply agrees_bind; [auto using agrees_lift, agrees_get|intros ?]); auto using agrees_lift, agrees_ret.
  - rewrite negb_true_iff, negb_false_iff in *. destruct (scope !! _) as [v|] eqn:E; [|done].
    rewrite (Hv _ _ E) by done. apply agrees_lift.
  - rewrite Hw. apply agrees_lift.
Qed.
End Uniform.

Module Validated.

(** C3: a validated program never fails on a name: where an operator registry is
    installed, the reference interpreter, whatever the inputs, does not report an
    undeclared or doubly bound local, an assignment to a loop variable, a missing buffer,
    an atomic on workgroup memory, an unknown operator, a call with the wrong number of
    arguments or a misplaced compare-exchange operand.  The statements the validator does
    not look into are excluded: asynchronous transfers, traps, collectives over subgroup
    lanes and assignments to the name of a buffer. *)
Theorem names_resolve fe dialect powf fuel p inputs e (Hinst : is_Some dialect) (Hp : plain_program p)
    (Hrun : reference_eval fe dialect powf fuel p inputs = Err e) : name_error e = false.
Proof.
  unfold reference_eval in Hrun. pose proof (interpreter_plain p Hp) as Hq.
  destruct (program_for_interpreter p) as [q|e']; cbn [mbind result_bind] in Hrun; [|by injection Hrun as <-].
  pose proof (run_reference_named fe dialect powf fuel q inputs Hinst Hq) as H. by rewrite Hrun in H.
Qed.

(** C24: uniformity is sound: an expression the validator takes for uniform has the same
    result in any two invocations of a workgroup that agree on the locals marked uniform,
    and evaluating it does not touch the memory. *)
Theorem uniform_sound fe dialect snapshots scope e a b m
    (Hu : is_uniform scope e = true)
    (Hw : workgroup_id (sn_ids a) = workgroup_id (sn_ids b))
    (Hv : forall x v, scope !! x = Some v -> vb_uniform v = true -> sn_locals a !! x = sn_locals b !! x) :
  eval_expr fe dialect snapshots e a m = eval_expr fe dialect snapshots e b m
  /\ (forall v m', eval_expr fe dialect snapshots e a m = Ok (v, m') -> m' = m).
Proof. rewrite is_uniform_rec in Hu. by apply (uniform_agrees fe dialect snapshots scope a b Hw Hv). Qed.

(** One storage buffer of five words, two invocations per workgroup. *)
Definition kernel (body : list Node) : Program :=
  mkProgram None [Reference.buf "out" BufferAccess.ReadWrite true] (2, 1, 1) [Node.Region "kernel" None body] false.
(** Only the first invocation of a workgroup sets the flag. *)
Definition flag_race : Program := kernel
  [Node.Let "flag" (Expr.LitU32 0);
   Node.If (Expr.BinOp BinOp.Eq (Expr.LocalId 0) (Expr.LitU32 0)) [Node.Assign "flag" (Expr.LitU32 1)] [];
   Node.If (Expr.Var "flag") [Node.Barrier MemoryOrdering.SeqCst] []].
Definition ghost_transfer : Program := kernel
  [Node.AsyncLoad "ghost" "out" (Expr.LitU32 0) (Expr.LitU32 4) "t"; Node.AsyncWait "t"].
Definition ghost_trap : Program := kernel [Node.Trap (Expr.Var "ghost") "t"].
Definition buffer_assign : Program := kernel [Node.Assign "out" (Expr.LitU32 1)].
Definition run_kernel (p : Program) : interp (list Value) :=
  reference_eval TypedOps.zero_env None Reference.exact_root 100 p [].
(** The validator has nothing to say and the interpreter stops with that error. *)
Definition passes_then_fails (p : Program) (message : string) : Prop :=
  validation_errors None p = [] /\ run_kernel p = Err (Interp message).

(** What validation does not catch: a flag assigned a constant under divergent control
    flow still counts as uniform, so a barrier under it passes and the run breaks the
    uniform-control-flow rule; the operands of transfers and traps and the buffers of
    transfers are not looked up; an assignment to the name of a buffer is accepted and
    cannot run. *)
Theorem validator_gaps :
  passes_then_fails flag_race "program violates uniform-control-flow rule"
  /\ passes_then_fails ghost_transfer "missing buffer"
  /\ passes_then_fails ghost_trap "reference to undeclared variable"
  /\ passes_then_fails buffer_assign "assignment to undeclared variable".
Proof. unfold passes_then_fails. split_and!; vm_compute; reflexivity. Qed.

(** A registry with one operator, which doubles a word. *)
Definition registry (op : string) : option OpDef :=
  if String.eqb op "twice" then Some (mkOpDef ["u32"] ["u32"] (fun input => Some (le_bytes 4 (2 * of_le_bytes input)))) else None.
Definition calls_then_races : Program := kernel
  (Node.Let "y" (Expr.Call "twice" [Expr.LitU32 3]) ::
   [Node.Let "flag" (Expr.LitU32 0);
    Node.If (Expr.BinOp BinOp.Eq (Expr.LocalId 0) (Expr.LitU32 0)) [Node.Assign "flag" (Expr.LitU32 1)] [];
    Node.If (Expr.Var "flag") [Node.Barrier MemoryOrdering.SeqCst] []]).
Lemma names_resolve_witness : exists e,
  reference_eval TypedOps.zero_env (Some registry) Reference.exact_root 100 calls_then_races [] = Err e /\ name_error e = false.
Proof.
  assert (reference_eval TypedOps.zero_env (Some registry) Reference.exact_root 100 calls_then_races []
    = Err (Interp "program violates uniform-control-flow rule")) as E by (vm_compute; reflexivity).
  eexists. split; [exact E|].
  apply (names_resolve TypedOps.zero_env (Some registry) Reference.exact_root 100 calls_then_races []);
    [by eexists|vm_compute; reflexivity|exact E].
Defined.
(** A binding next to a collective. *)
Definition gathers (name : string) : Program := kernel
  [Node.Let name (Expr.LitU32 1); Node.AllGather "out" "out" 0].
Definition lowered_errors (p : Program) : list string :=
  match lower_single_rank_collectives p with Ok (Some q) => validation_errors None q | _ => [] end.
(** The lowering of collectives does not look for its index names among the bindings of
    the program: the same program runs or is refused for a name bound twice, depending on
    the name of its own binding. *)
Theorem lowering_captures :
  lowered_errors (gathers "k") = [] /\ match run_kernel (gathers "k") with Ok _ => true | Err _ => false end = true
  /\ lowered_errors (gathers (copy_index 0)) = ["V032: duplicate sibling let binding"]
  /\ run_kernel (gathers (copy_index 0)) = Err (Interp "program failed IR validation").
Proof. split_and!; vm_compute; done. Qed.
(** Without a registry the validator accepts a call that cannot run. *)
Theorem unregistered_call :
  passes_then_fails (kernel [Node.Let "x" (Expr.Call "no.such.op" [])]) "no DialectLookup is installed".
Proof. split; vm_compute; reflexivity. Qed.

(** Two lanes of a workgroup that share [base]. *)
Definition lane (k : Z) : HashmapInvocationSnapshot :=
  mkSnapshot (mkInvocationIds (6 + k, 0, 0) (3, 0, 0) (k, 0, 0)) k (<["base" := Value.U32 40]> (<["mine" := Value.U32 k]> ∅)).
Definition base_scope : Scope :=
  <["base" := mkVarBinding DataType.U32 true true]> (<["mine" := mkVarBinding DataType.U32 true false]> ∅).
Definition base_expr : Expr := Expr.BinOp BinOp.Add (Expr.Var "base") (Expr.WorkgroupId 0).
Lemma uniform_sound_witness :
  eval_expr TypedOps.zero_env None [] base_expr (lane 0) (mkHashmapMemory ∅ ∅)
    = Ok (Value.U32 43, mkHashmapMemory ∅ ∅)
  /\ eval_expr TypedOps.zero_env None [] base_expr (lane 0) (mkHashmapMemory ∅ ∅)
    = eval_expr TypedOps.zero_env None [] base_expr (lane 1) (mkHashmapMemory ∅ ∅).
Proof.
  split; [vm_compute; reflexivity|]. apply (uniform_sound TypedOps.zero_env None [] base_scope base_expr (lane 0) (lane 1)).
  - vm_compute. reflexivity.
  - reflexivity.
  - intros x v Hx Hu. unfold base_scope in Hx. destruct (decide (x = "base")) as [->|Hb]; [reflexivity|].
    rewrite lookup_insert_ne in Hx by done. destruct (decide (x = "mine")) as [->|Hm].
    + rewrite lookup_insert_eq in Hx. injection Hx as <-. discriminate.
    + rewrite lookup_insert_ne in Hx by done. discriminate.
Defined.
End Validated.
