(* ===== verification/ConstFoldGaps.v ===== *)
(** Programs the constant folder changes.

    Each program passes validation and runs; its folded form runs to other outputs or is
    refused. *)

From S2P Require Import Prelude Float Spec IR RefValue RefMemory RefEval StrengthReduce ConstEval ConstFold.
From S2P Require Import Validate RefDispatch RefDispatchSound ScopingSound.
Import Validated.

Module Gaps.
Definition fold_program (p : Program) : Program := fst (ConstFold_transform TypedOps.zero_env p).
Definition out_is (e : Expr) : Node := Node.Store "out" (Expr.InvocationId 0) e.
(** [x] gets the value of an element of the zeroed buffer plus [k]. *)
Definition let_x (k : Z) : Node :=
  Node.Let "x" (Expr.BinOp BinOp.Add (Expr.Load "out" (Expr.InvocationId 0)) (lit k)).
Definition x : Expr := Expr.Var "x".

Definition lookbehind : Program := kernel
  [Node.Let "x" (lit 1);
   Node.If (Expr.BinOp BinOp.Lt (Expr.LocalId 0) (lit 9)) [Node.Assign "x" (lit 7)] [];
   out_is (Expr.BinOp BinOp.Mod x (lit 4))].
Definition self_div : Program := kernel [let_x 0; out_is (Expr.BinOp BinOp.Div x x)].
Definition double_not : Program := kernel
  [let_x 5; out_is (Expr.Cast DataType.U32 (Expr.UnOp UnOp.LogicalNot (Expr.UnOp UnOp.LogicalNot x)))].
Definition shifts : Program := kernel [let_x 1; out_is (shl (shl x (lit 20)) (lit 20))].
Definition flag_select : Program := kernel [let_x 5; out_is (Expr.Select x (lit 1) (lit 0))].
Definition signed_self : Program := kernel
  [let_x 5; Node.Let "y" (Expr.Cast DataType.I32 x);
   out_is (Expr.Cast DataType.U32 (sub (sub (Expr.Var "y") (Expr.Var "y")) (Expr.Var "y")))].
(** Every store is 0; the last word counts what the atomics did after it. *)
Definition lost_atomic : Program := kernel
  [out_is (Expr.BinOp BinOp.Mod (Expr.Atomic AtomicOp.Add "out" (lit 4) None (lit 1) MemoryOrdering.SeqCst) (lit 1))].

Definition words (l : list Z) : interp (list Value) := Ok [Reference.word_list l].
(** The program is valid, and its outputs before and after folding. *)
Definition changes (p : Program) (before after : interp (list Value)) : Prop :=
  validation_errors None p = [] /\ run_kernel p = before /\ run_kernel (fold_program p) = after.

(** Where folding changes a valid program: the look-behind keeps a literal that a
    nested block has overwritten; [x / x] becomes 1 also for zero; [!!x] and
    [select(x, 1, 0)] become [x] for an integer [x]; two shifts that leave the word become
    a shift by 31; the difference of a signed value with itself becomes the unsigned zero,
    which no longer matches the type of its neighbour, so the folded program is refused;
    and an atomic under [% 1] disappears. *)
Theorem const_fold_gaps :
  changes lookbehind (words [3; 3; 3; 3; 3]) (words [7; 7; 7; 7; 7])
  /\ changes self_div (words [U32_MAX; U32_MAX; U32_MAX; U32_MAX; U32_MAX]) (words [1; 1; 1; 1; 1])
  /\ changes double_not (words [1; 1; 1; 1; 1]) (words [5; 5; 5; 5; 5])
  /\ changes flag_select (words [1; 1; 1; 1; 1]) (words [5; 5; 5; 5; 5])
  /\ changes shifts (words [0; 0; 0; 0; 0])
       (words [0x80000000; 0x80000000; 0x80000000; 0x80000000; 0x80000000])
  /\ changes signed_self (words [U32_MAX - 4; U32_MAX - 4; U32_MAX - 4; U32_MAX - 4; U32_MAX - 4])
       (Err (Interp "program failed IR validation"))
  /\ changes lost_atomic (words [0; 0; 0; 0; 1]) (words [0; 0; 0; 0; 0]).
Proof. unfold changes. split_and!; vm_compute; reflexivity. Qed.
End Gaps.
