(* ===== verification/RefGraph.v ===== *)
(** The graph interpreter: compact storage nodes, their operators and the depth-first
    evaluation with cycle detection (vyre-foundation: ir_inner/model/node_kind.rs;
    vyre-reference: execution/mod.rs, [run_storage_graph]). *)

From S2P Require Import Prelude Float Spec RefValue.

(** ** Values *)

Module IrValue.
(** [F32] carries the bits of the float. *)
Inductive IrValue := U32 (x : Z) | U64 (x : Z) | I32 (x : Z) | F32 (bits : Z) | Bool (b : bool).
End IrValue.
Abbreviation IrValue := IrValue.IrValue.

Abbreviation eval_result := (result string IrValue).

(** ** Storage nodes *)

Inductive NodeStorage :=
| NsLitU32 (v : Z) | NsLitU64 (v : Z) | NsLitI32 (v : Z) | NsLitF32 (v : Z) | NsLitBool (v : bool)
| NsBinOp (op : BinOp) (left right : Z)
| NsUnOp (op : UnOp) (operand : Z)
| NsExtern (op_id : string) (operands : list Z) (payload : bytes).

Definition input_ids (n : NodeStorage) : list Z :=
  match n with
  | NsBinOp _ l r => [l; r]
  | NsUnOp _ x => [x]
  | NsExtern _ operands _ => operands
  | _ => []
  end.

Record InterpCtx := mkCtx { cx_values : gmap Z IrValue; cx_operands : list Z }.
Definition ctx_get (c : InterpCtx) (id : Z) : eval_result := ok_or (cx_values c !! id) "missing interpreter value".
Definition ctx_set (c : InterpCtx) (id : Z) (v : IrValue) : InterpCtx :=
  mkCtx (<[id := v]> (cx_values c)) (cx_operands c).
Definition set_operands (c : InterpCtx) (ids : list Z) : InterpCtx := mkCtx (cx_values c) ids.

Inductive VisitState := Visiting | Done.
(** The messages name the node; [GFuel] belongs to the model only. *)
Inductive graph_error :=
| GMissing (id : Z) | GCycle (id : Z) | GDuplicate (id : Z) | GEval (what : string) | GFuel.
Abbreviation graph_result := (result graph_error).
Definition interp_error {A} (r : result string A) : graph_result A :=
  match r with Ok a => Ok a | Err w => Err (GEval w) end.

Abbreviation graph_state := (InterpCtx * gmap Z VisitState)%type.
(** ** Operators *)

Section Operators.
(** [f32::sqrt] of the standard library, and the ties of [f32::min] and [f32::max]. *)
Context (fe : FloatEnv) (std_sqrt : Z -> Z).

Definition interpret_u32 (op : BinOp) (left right : Z) : eval_result :=
  let num x := Ok (IrValue.U32 x) in
  let bool b := Ok (IrValue.Bool b) in
  match op with
  | BinOp.Add => num (wrapu 32 (left + right))
  | BinOp.Sub => num (wrapu 32 (left - right))
  | BinOp.Mul => num (wrapu 32 (left * right))
  | BinOp.Div => num (if right =? 0 then U32_MAX else left / right)
  | BinOp.Mod => num (if right =? 0 then 0 else left mod right)
  | BinOp.BitAnd => num (Z.land left right)
  | BinOp.BitOr => num (Z.lor left right)
  | BinOp.BitXor => num (Z.lxor left right)
  | BinOp.Shl => num (wrapu 32 (Z.shiftl left (Z.land right 31)))
  | BinOp.Shr => num (Z.shiftr left (Z.land right 31))
  | BinOp.Eq => bool (left =? right)
  | BinOp.Ne => bool (negb (left =? right))
  | BinOp.Lt => bool (left <? right)
  | BinOp.Le => bool (left <=? right)
  | BinOp.Gt => bool (right <? left)
  | BinOp.Ge => bool (right <=? left)
  | BinOp.Min => num (Z.min left right)
  | BinOp.Max => num (Z.max left right)
  | BinOp.SaturatingAdd => num (clamp 0 U32_MAX (left + right))
  | BinOp.SaturatingSub => num (clamp 0 U32_MAX (left - right))
  | BinOp.SaturatingMul => num (clamp 0 U32_MAX (left * right))
  | BinOp.AbsDiff => num (Z.abs (left - right))
  | BinOp.RotateLeft => num (rotate_left_u32 left (Z.land right 31))
  | BinOp.RotateRight => num (rotate_right_u32 left (Z.land right 31))
  | BinOp.MulHigh => num (Z.shiftr (left * right) 32)
  | BinOp.And => bool (negb (left =? 0) && negb (right =? 0))
  | BinOp.Or => bool (negb (left =? 0) || negb (right =? 0))
  | _ => Err "unsupported u32 binary operation"
  end.
Definition interpret_u64 (op : BinOp) (left right : Z) : eval_result :=
  let num x := Ok (IrValue.U64 x) in
  let bool b := Ok (IrValue.Bool b) in
  match op with
  | BinOp.Add | BinOp.WrappingAdd => num (wrapu 64 (left + right))
  | BinOp.Sub | BinOp.WrappingSub => num (wrapu 64 (left - right))
  | BinOp.Mul => num (wrapu 64 (left * right))
  | BinOp.Div => num (if right =? 0 then U64_MAX else left / right)
  | BinOp.Mod => num (if right =? 0 then 0 else left mod right)
  | BinOp.BitAnd => num (Z.land left right)
  | BinOp.BitOr => num (Z.lor left right)
  | BinOp.BitXor => num (Z.lxor left right)
  | BinOp.Shl => num (wrapu 64 (Z.shiftl left (Z.land right 63)))
  | BinOp.Shr => num (Z.shiftr left (Z.land right 63))
  | BinOp.Eq => bool (left =? right)
  | BinOp.Ne => bool (negb (left =? right))
  | BinOp.Lt => bool (left <? right)
  | BinOp.Le => bool (left <=? right)
  | BinOp.Gt => bool (right <? left)
  | BinOp.Ge => bool (right <=? left)
  | BinOp.Min => num (Z.min left right)
  | BinOp.Max => num (Z.max left right)
  | BinOp.SaturatingAdd => num (clamp 0 U64_MAX (left + right))
  | BinOp.SaturatingSub => num (clamp 0 U64_MAX (left - right))
  | BinOp.SaturatingMul => num (clamp 0 U64_MAX (left * right))
  | BinOp.AbsDiff => num (Z.abs (left - right))
  | BinOp.MulHigh => num (wrapu 64 (Z.shiftr (left * right) 64))
  | BinOp.And => bool (negb (left =? 0) && negb (right =? 0))
  | BinOp.Or => bool (negb (left =? 0) || negb (right =? 0))
  | _ => Err "unsupported u64 binary operation"
  end.
Definition interpret_i32 (op : BinOp) (left right : Z) : eval_result :=
  let num x := Ok (IrValue.I32 x) in
  let bool b := Ok (IrValue.Bool b) in
  let undefined := (right =? 0) || ((left =? I32_MIN) && (right =? -1)) in
  let shift := Z.land (wrapu 32 right) 31 in
  match op with
  | BinOp.Add => num (wraps 32 (left + right))
  | BinOp.Sub => num (wraps 32 (left - right))
  | BinOp.Mul => num (wraps 32 (left * right))
  | BinOp.Div => if undefined then Err "i32 division has undefined semantics" else num (Z.quot left right)
  | BinOp.Mod => if undefined then Err "i32 remainder has undefined semantics" else num (Z.rem left right)
  | BinOp.BitAnd => num (Z.land left right)
  | BinOp.BitOr => num (Z.lor left right)
  | BinOp.BitXor => num (Z.lxor left right)
  | BinOp.Shl => num (wraps 32 (Z.shiftl left shift))
  | BinOp.Shr => num (Z.shiftr left shift)
  | BinOp.Eq => bool (left =? right)
  | BinOp.Ne => bool (negb (left =? right))
  | BinOp.Lt => bool (left <? right)
  | BinOp.Le => bool (left <=? right)
  | BinOp.Gt => bool (right <? left)
  | BinOp.Ge => bool (right <=? left)
  | BinOp.Min => num (Z.min left right)
  | BinOp.Max => num (Z.max left right)
  | BinOp.SaturatingAdd => num (clamp I32_MIN I32_MAX (left + right))
  | BinOp.SaturatingSub => num (clamp I32_MIN I32_MAX (left - right))
  | BinOp.SaturatingMul => num (clamp I32_MIN I32_MAX (left * right))
  | _ => Err "unsupported i32 binary operation"
  end.
Definition interpret_bool (op : BinOp) (left right : bool) : eval_result :=
  let bool b := Ok (IrValue.Bool b) in
  match op with
  | BinOp.And => bool (left && right)
  | BinOp.Or => bool (left || right)
  | BinOp.Eq => bool (Bool.eqb left right)
  | BinOp.Ne => bool (negb (Bool.eqb left right))
  | _ => Err "unsupported bool binary operation"
  end.
Definition interpret_f32 (op : BinOp) (left right : Z) : eval_result :=
  let left := canonical_f32 left in
  let right := canonical_f32 right in
  let num x := Ok (IrValue.F32 (canonical_f32 x)) in
  let bool b := Ok (IrValue.Bool b) in
  match op with
  | BinOp.Add => num (f32_lift2 fp_add left right)
  | BinOp.Sub => num (f32_lift2 (fun x y => fp_add x (fp_neg y)) left right)
  | BinOp.Mul => num (f32_lift2 fp_mul left right)
  | BinOp.Div => num (f32_lift2 (fp_div binary32) left right)
  | BinOp.Eq => bool (f32_cmp fp_eq left right)
  | BinOp.Ne => bool (negb (f32_cmp fp_eq left right))
  | BinOp.Lt => bool (f32_cmp fp_lt left right)
  | BinOp.Le => bool (f32_cmp fp_le left right)
  | BinOp.Gt => bool (f32_cmp fp_gt left right)
  | BinOp.Ge => bool (f32_cmp fp_ge left right)
  | BinOp.Min => num (f32_select (f32_cmp fp_lt) (min_tie fe) left right)
  | BinOp.Max => num (f32_select (f32_cmp fp_gt) (max_tie fe) left right)
  | _ => Err "unsupported f32 binary operation"
  end.
Definition interpret_bin_op (op : BinOp) (left right : IrValue) : eval_result :=
  match left, right with
  | IrValue.U32 l, IrValue.U32 r => interpret_u32 op l r
  | IrValue.U64 l, IrValue.U64 r => interpret_u64 op l r
  | IrValue.Bool l, IrValue.Bool r => interpret_bool op l r
  | IrValue.F32 l, IrValue.F32 r => interpret_f32 op l r
  | IrValue.I32 l, IrValue.I32 r => interpret_i32 op l r
  | _, _ => Err "type mismatch in binary operation"
  end.

Definition interpret_un_op (op : UnOp) (operand : IrValue) : eval_result :=
  match operand with
  | IrValue.U32 v =>
      match op with
      | UnOp.BitNot => Ok (IrValue.U32 (wrapu 32 (Z.lnot v)))
      | UnOp.LogicalNot => Ok (IrValue.Bool (v =? 0))
      | UnOp.Popcount => Ok (IrValue.U32 (count_ones 32 v))
      | UnOp.Clz => Ok (IrValue.U32 (leading_zeros 32 v))
      | UnOp.Ctz => Ok (IrValue.U32 (trailing_zeros 32 v))
      | UnOp.ReverseBits => Ok (IrValue.U32 (reverse_bits 32 v))
      | _ => Err "unsupported u32 unary operation"
      end
  | IrValue.Bool v =>
      match op with
      | UnOp.LogicalNot => Ok (IrValue.Bool (negb v))
      | _ => Err "unsupported bool unary operation"
      end
  | IrValue.F32 v =>
      let v := canonical_f32 v in
      match op with
      | UnOp.Negate => Ok (IrValue.F32 (canonical_f32 (Z.lxor v 0x80000000)))
      | UnOp.InverseSqrt => Ok (IrValue.F32 (canonical_f32 (f32_recip (std_sqrt v))))
      | UnOp.Reciprocal => Ok (IrValue.F32 (canonical_f32 (f32_recip v)))
      | _ => Err "unsupported f32 unary operation"
      end
  | IrValue.I32 v =>
      match op with
      | UnOp.Negate => Ok (IrValue.I32 (wraps 32 (0 - v)))
      | _ => Err "unsupported i32 unary operation"
      end
  | IrValue.U64 v =>
      match op with
      | UnOp.Negate => Ok (IrValue.U64 (wrapu 64 (0 - v)))
      | UnOp.BitNot => Ok (IrValue.U64 (wrapu 64 (Z.lnot v)))
      | UnOp.LogicalNot => Ok (IrValue.Bool (v =? 0))
      | UnOp.Popcount => Ok (IrValue.U64 (count_ones 64 v))
      | UnOp.Clz => Ok (IrValue.U64 (leading_zeros 64 v))
      | UnOp.Ctz => Ok (IrValue.U64 (trailing_zeros 64 v))
      | UnOp.ReverseBits => Ok (IrValue.U64 (reverse_bits 64 v))
      | _ => Err "unsupported u64 unary operation"
      end
  end.

Definition interpret (n : NodeStorage) (c : InterpCtx) : eval_result :=
  match n with
  | NsLitU32 v => Ok (IrValue.U32 v)
  | NsLitU64 v => Ok (IrValue.U64 v)
  | NsLitI32 v => Ok (IrValue.I32 v)
  | NsLitF32 v => Ok (IrValue.F32 v)
  | NsLitBool v => Ok (IrValue.Bool v)
  | NsBinOp op l r => a ← ctx_get c l; b ← ctx_get c r; interpret_bin_op op a b
  | NsUnOp op x => a ← ctx_get c x; interpret_un_op op a
  | NsExtern _ _ _ => Err "extern node has no linked interpreter"
  end.

(** ** Evaluation *)

Fixpoint eval_storage_node (fuel : nat) (graph : gmap Z NodeStorage) (st : graph_state) (id : Z)
    : graph_result graph_state :=
  match st.2 !! id with
  | Some Done => Ok st
  | Some Visiting => Err (GCycle id)
  | None =>
      match fuel with
      | O => Err GFuel
      | S fuel =>
          node ← ok_or (graph !! id) (GMissing id);
          '(ctx, states) ← try_fold (eval_storage_node fuel graph) (st.1, <[id := Visiting]> st.2) (input_ids node);
          let ctx := set_operands ctx (input_ids node) in
          value ← interp_error (interpret node ctx);
          Ok (ctx_set ctx id value, <[id := Done]> states)
      end
  end.

(** The table of the nodes; a second record for an id is refused. *)
Definition insert_node (graph : gmap Z NodeStorage) (entry : Z * NodeStorage) : graph_result (gmap Z NodeStorage) :=
  match graph !! entry.1 with
  | Some _ => Err (GDuplicate entry.1)
  | None => Ok (<[entry.1 := entry.2]> graph)
  end.
Definition graph_of (nodes : list (Z * NodeStorage)) : graph_result (gmap Z NodeStorage) :=
  try_fold insert_node ∅ nodes.

(** Depth is bounded by the number of nodes. *)
Definition run_storage_graph (nodes : list (Z * NodeStorage)) (outputs : list Z) : graph_result (list IrValue) :=
  graph ← graph_of nodes;
  '(ctx, _) ← try_fold (eval_storage_node (S (size graph)) graph) (mkCtx ∅ [], ∅) outputs;
  try_fold (fun vs id => v ← interp_error (ctx_get ctx id); Ok (vs ++ [v])) [] outputs.
End Operators.

(** ** The recursive meaning of a graph *)

Section Meaning.
Context (fe : FloatEnv) (std_sqrt : Z -> Z) (graph : gmap Z NodeStorage).
Abbreviation eval_node := (eval_storage_node fe std_sqrt).

(** What a node computes from the values of its inputs. *)
Definition denote (n : NodeStorage) (vs : list IrValue) : eval_result :=
  match n, vs with
  | NsLitU32 v, _ => Ok (IrValue.U32 v)
  | NsLitU64 v, _ => Ok (IrValue.U64 v)
  | NsLitI32 v, _ => Ok (IrValue.I32 v)
  | NsLitF32 v, _ => Ok (IrValue.F32 v)
  | NsLitBool v, _ => Ok (IrValue.Bool v)
  | NsBinOp op _ _, [a; b] => interpret_bin_op fe op a b
  | NsUnOp op _, [a] => interpret_un_op std_sqrt op a
  | _, _ => Err "extern node has no linked interpreter"
  end.
(** The value of a node by recursion on its inputs, without memory: [None] when the
    recursion does not end within [k] levels or a node fails. *)
Fixpoint tree_eval (k : nat) (id : Z) : option IrValue :=
  match k with
  | O => None
  | S k =>
      n ← graph !! id;
      vs ← mapM (tree_eval k) (input_ids n);
      match denote n vs with Ok v => Some v | Err _ => None end
  end.
Definition edge (x y : Z) : Prop := exists n, graph !! x = Some n /\ y ∈ input_ids n.
Definition means (id : Z) (v : IrValue) : Prop := exists k, tree_eval k id = Some v.

Lemma tree_eval_mono k : forall k' id v, tree_eval k id = Some v -> (k <= k')%nat -> tree_eval k' id = Some v.
Proof.
  induction k as [|k IH]; intros [|k'] id v H Hle; try done; [lia|]. cbn [tree_eval] in *.
  destruct (graph !! id) as [n|]; cbn [mbind option_bind] in *; [|done].
  destruct (mapM (tree_eval k) (input_ids n)) as [vs|] eqn:Em; cbn [mbind option_bind] in *; [|done].
  assert (mapM (tree_eval k') (input_ids n) = Some vs) as ->; [|done].
  apply mapM_Some. apply mapM_Some in Em. eapply Forall2_impl; [exact Em|]. intros x y Hx. apply (IH k'); [done|lia].
Qed.
Lemma means_det id v w : means id v -> means id w -> v = w.
Proof.
  intros [k Hk] [k' Hk']. apply (tree_eval_mono _ (Nat.max k k')) in Hk, Hk'; [congruence|lia..].
Qed.
(** A node with a meaning has inputs with a meaning, at a smaller depth. *)
Lemma tree_eval_edge k id v y : tree_eval k id = Some v -> edge id y ->
  exists k' w, (k' < k)%nat /\ tree_eval k' y = Some w.
Proof.
  destruct k as [|k]; [done|]. intros H (n & Hn & Hy). cbn [tree_eval] in H. rewrite Hn in H. cbn [mbind option_bind] in H.
  destruct (mapM (tree_eval k) (input_ids n)) as [vs|] eqn:Em; cbn [mbind option_bind] in H; [|done].
  apply mapM_Some in Em. apply list_elem_of_lookup in Hy as [i Hi].
  destruct (Forall2_lookup_l _ _ _ _ _ Em Hi) as (w & _ & Hw). exists k, w. split; [lia|done].
Qed.
Lemma tree_eval_path k id v y : tc edge id y -> tree_eval k id = Some v ->
  exists k' w, (k' < k)%nat /\ tree_eval k' y = Some w.
Proof.
  intros H. revert k v. induction H as [x y He|x y z He _ IH]; intros k v Hk.
  - by eapply tree_eval_edge.
  - destruct (tree_eval_edge k x v y Hk He) as (k1 & w & Hlt & Hw).
    destruct (IH k1 w Hw) as (k2 & w2 & ? & ?). exists k2, w2. split; [lia|done].
Qed.
Lemma cycle_meaningless id v : tc edge id id -> ~ means id v.
Proof.
  intros Hc [k Hk]. revert v Hk. induction (lt_wf k) as [k _ IH]; intros v Hk.
  destruct (tree_eval_path k id v id Hc Hk) as (k' & w & Hlt & Hw). by apply (IH k' Hlt w).
Qed.
Lemma means_node id n v : graph !! id = Some n ->
  means id v <-> exists vs, Forall2 means (input_ids n) vs /\ denote n vs = Ok v.
Proof.
  intros Hn. split.
  - intros [[|k] Hk]; [done|]. cbn [tree_eval] in Hk. rewrite Hn in Hk. cbn [mbind option_bind] in Hk.
    destruct (mapM (tree_eval k) (input_ids n)) as [vs|] eqn:Em; cbn [mbind option_bind] in Hk; [|done].
    exists vs. apply mapM_Some in Em. split; [|destruct (denote n vs); congruence].
    eapply Forall2_impl; [exact Em|]. intros x w Hw. by exists k.
  - intros (vs & Hvs & Hd). assert (exists k, Forall2 (fun x w => tree_eval k x = Some w) (input_ids n) vs) as [k Hk].
    { clear Hd. induction Hvs as [|x w xs ws [k Hk] _ [k' IH]]; [by exists 0%nat|]. exists (Nat.max k k').
      constructor; [apply (tree_eval_mono k); [done|lia]|]. eapply Forall2_impl; [exact IH|].
      intros a b Hab. eapply tree_eval_mono; [exact Hab|lia]. }
    exists (S k). cbn [tree_eval]. rewrite Hn. cbn [mbind option_bind].
    apply mapM_Some in Hk. rewrite Hk. cbn [mbind option_bind]. by rewrite Hd.
Qed.

Lemma interpret_denote n (c : InterpCtx) vs :
  Forall2 (fun x v => cx_values c !! x = Some v) (input_ids n) vs ->
  interpret fe std_sqrt n c = denote n vs.
Proof.
  destruct n; cbn [input_ids interpret denote]; intros H; try done.
  - inversion H as [|? a ? ws Ha H']; subst. inversion H' as [|? b ? ws' Hb H'']; subst. inversion H''; subst.
    unfold ctx_get. by rewrite Ha, Hb.
  - inversion H as [|? a ? ws Ha H']; subst. inversion H'; subst. unfold ctx_get. by rewrite Ha.
Qed.
(** *** The depth-first evaluation *)

Definition remaining (states : gmap Z VisitState) : nat := size (dom graph ∖ dom states : gset Z).
Definition good (st : graph_state) : Prop :=
  forall id, st.2 !! id = Some Done -> exists v, cx_values st.1 !! id = Some v /\ means id v.
(** Nodes keep their state, and what was begun is finished. *)
Definition extends (st st' : graph_state) : Prop :=
  (forall id, is_Some (st.2 !! id) -> st'.2 !! id = st.2 !! id)
  /\ (forall id, st'.2 !! id = Some Visiting -> st.2 !! id = Some Visiting).
(** The nodes under evaluation lead to the next one. *)
Definition on_path (st : graph_state) (id : Z) : Prop := forall x, st.2 !! x = Some Visiting -> tc edge x id.
Definition failed (id : Z) (e : graph_error) : Prop :=
  e <> GFuel /\ (forall v, ~ means id v) /\ (forall x, e = GCycle x -> tc edge x x).
Definition evaluated (st : graph_state) (id : Z) (r : graph_result graph_state) : Prop :=
  match r with
  | Ok st' => good st' /\ extends st st' /\ st'.2 !! id = Some Done
  | Err e => failed id e
  end.

Lemma extends_refl st : extends st st.
Proof. by split. Qed.
Lemma extends_trans a b c : extends a b -> extends b c -> extends a c.
Proof.
  intros [H1 H2] [H3 H4]. split; [|auto]. intros id Hid. rewrite H3, H1; try done. by rewrite H1.
Qed.
Lemma remaining_extends st st' : extends st st' -> (remaining st'.2 <= remaining st.2)%nat.
Proof.
  intros [H _]. unfold remaining. apply subseteq_size. intros x [Hx Hn]%elem_of_difference. apply elem_of_difference. split; [done|].
  rewrite elem_of_dom in *. intros Hs. apply Hn. by rewrite H.
Qed.
Lemma remaining_visit states id n : graph !! id = Some n -> states !! id = None ->
  (remaining (<[id := Visiting]> states) < remaining states)%nat.
Proof.
  intros Hn Hs. unfold remaining. apply subset_size. rewrite dom_insert. apply strict_spec_alt. split; [set_solver|]. intros E.
  assert (id ∈ (dom graph ∖ dom states : gset Z)) as Hin.
  { apply elem_of_difference. rewrite !elem_of_dom, Hn, Hs. split; [by eexists|by intros []]. }
  rewrite <- E in Hin. set_solver.
Qed.

Lemma eval_inputs fuel (IH : forall st id, good st -> on_path st id -> (remaining st.2 < fuel)%nat ->
    evaluated st id (eval_node fuel graph st id)) ids : forall st,
  good st -> (forall y, y ∈ ids -> on_path st y) -> (remaining st.2 < fuel)%nat ->
  match try_fold (eval_node fuel graph) st ids with
  | Ok st' => good st' /\ extends st st' /\ forall y, y ∈ ids -> st'.2 !! y = Some Done
  | Err e => exists y, y ∈ ids /\ failed y e
  end.
Proof.
  induction ids as [|y ids IHids]; intros st Hg Hp Hr; cbn [try_fold].
  { split; [done|]. split; [apply extends_refl|]. by intros y ?%elem_of_nil. }
  pose proof (IH st y Hg (Hp y ltac:(by left)) Hr) as H1.
  destruct (eval_node fuel graph st y) as [st1|e]; cbn [mbind result_bind evaluated] in *.
  2: { exists y. split; [by left|done]. }
  destruct H1 as (Hg1 & He1 & Hd1). pose proof (remaining_extends _ _ He1).
  specialize (IHids st1 Hg1). assert (forall z, z ∈ ids -> on_path st1 z) as Hp1.
  { intros z Hz x Hx. apply He1 in Hx. by apply (Hp z ltac:(by right)). }
  specialize (IHids Hp1 ltac:(lia)). destruct (try_fold (eval_node fuel graph) st1 ids) as [st2|e].
  - destruct IHids as (Hg2 & He2 & Hd2). split; [done|]. split; [by eapply extends_trans|].
    intros z [->|Hz]%elem_of_cons; [|by apply Hd2]. rewrite (proj1 He2); [done|]. by rewrite Hd1.
  - destruct IHids as (z & Hz & Hf). exists z. split; [by right|done].
Qed.

Lemma values_mean st ids : good st -> (forall y, y ∈ ids -> st.2 !! y = Some Done) ->
  exists vs, Forall2 (fun x v => cx_values st.1 !! x = Some v) ids vs /\ Forall2 means ids vs.
Proof.
  intros Hg. induction ids as [|y ids IH]; intros Hd; [by exists []|].
  destruct (Hg y (Hd y ltac:(by left))) as (v & Hv & Hm). destruct IH as (vs & H1 & H2); [intros z Hz; apply Hd; by right|].
  exists (v :: vs). by split; constructor.
Qed.
Lemma means_list ids vs ws : Forall2 means ids vs -> Forall2 means ids ws -> vs = ws.
Proof.
  intros H. revert ws. induction H as [|x v xs vs Hv _ IH]; intros ws Hw; inversion Hw as [|? w ? ws' H1 H2]; subst; [done|].
  f_equal; [by eapply means_det|by apply IH].
Qed.

Lemma visit_good st id : good st -> good (st.1, <[id := Visiting]> st.2).
Proof. intros Hg x. cbn [fst snd]. rewrite lookup_insert_Some. intros [[_ ?]|[_ Hx]]; [done|by apply Hg]. Qed.
Lemma visit_path st id n : graph !! id = Some n -> on_path st id ->
  forall y, y ∈ input_ids n -> on_path (st.1, <[id := Visiting]> st.2) y.
Proof.
  intros Hn Hp y Hy x. cbn [snd]. rewrite lookup_insert_Some. assert (edge id y) as He by (by exists n).
  intros [[<- _]|[_ Hx]]; [by apply tc_once|]. eapply tc_r; [by apply Hp|done].
Qed.
(** The node is finished: its value is recorded. *)
Lemma finish_node st c states id n vs v ids : graph !! id = Some n -> st.2 !! id = None ->
  good (c, states) -> extends (st.1, <[id := Visiting]> st.2) (c, states) ->
  Forall2 means (input_ids n) vs -> denote n vs = Ok v ->
  evaluated st id (Ok (ctx_set (set_operands c ids) id v, <[id := Done]> states)).
Proof.
  intros Hn Hs Hg [He1 He2] Hm Hd. cbn [evaluated snd] in *. split; [|split; [split|apply lookup_insert_eq]].
  - intros x. cbn [fst snd ctx_set set_operands cx_values]. rewrite lookup_insert_Some. intros [[<- _]|[Hne Hx]].
    + exists v. rewrite lookup_insert_eq. split; [done|]. apply (means_node id n v Hn). by exists vs.
    + rewrite lookup_insert_ne by done. by apply (Hg x).
  - intros x Hx. cbn [snd]. assert (id <> x) as Hne by (intros ->; rewrite Hs in Hx; by destruct Hx).
    rewrite lookup_insert_ne, He1 by (try done; by rewrite lookup_insert_ne). by rewrite lookup_insert_ne.
  - intros x. cbn [snd]. rewrite lookup_insert_Some. intros [[_ ?]|[Hne Hx]]; [done|].
    apply He2 in Hx. by rewrite lookup_insert_ne in Hx.
Qed.
Lemma eval_node_spec fuel : forall st id, good st -> on_path st id -> (remaining st.2 < fuel)%nat ->
  evaluated st id (eval_node fuel graph st id).
Proof.
  induction fuel as [|fuel IH]; intros st id Hg Hp Hr; [lia|]. cbn [eval_storage_node].
  destruct (st.2 !! id) as [[]|] eqn:Es.
  - (* on the path: a cycle *) specialize (Hp id Es). split; [done|]. split; [|by intros x [= <-]].
    intros v. by apply cycle_meaningless.
  - split; [done|]. split; [apply extends_refl|done].
  - destruct (graph !! id) as [n|] eqn:En; cbn [ok_or mbind result_bind].
    2: { split; [done|]. split; [|by intros x [=]]. intros v [[|k] Hk]; [done|]. cbn [tree_eval] in Hk. by rewrite En in Hk. }
    pose proof (remaining_visit _ _ _ En Es) as Hlt.
    pose proof (eval_inputs fuel IH (input_ids n) (st.1, <[id := Visiting]> st.2)) as H. cbn [fst snd] in H.
    destruct (try_fold (eval_node fuel graph) _ (input_ids n)) as [[c states]|e]; cbn [mbind result_bind].
    + destruct H as (Hg2 & He2 & Hd2); [by apply visit_good|by eapply visit_path|lia|]. cbn [snd] in Hd2.
      destruct (values_mean _ _ Hg2 Hd2) as (vs & Hv & Hm). cbn [fst] in Hv.
      rewrite (interpret_denote n (set_operands c (input_ids n)) vs Hv).
      destruct (denote n vs) as [v|w] eqn:Ed; cbn [interp_error mbind result_bind evaluated].
      * by eapply finish_node.
      * split; [done|]. split; [|by intros x [=]]. intros v Hv'.
        apply (means_node id n v En) in Hv' as (ws & Hws & Hd). rewrite (means_list _ _ _ Hm Hws) in Ed. congruence.
    + destruct H as (y & Hy & Hf & Hno & Hcyc); [by apply visit_good|by eapply visit_path|lia|].
      split; [done|]. split; [|done]. intros v (ws & Hws & _)%(means_node id n v En).
      apply list_elem_of_lookup in Hy as [i Hi]. destruct (Forall2_lookup_l _ _ _ _ _ Hws Hi) as (w & _ & Hw).
      by apply (Hno w).
Qed.
End Meaning.

(** ** The whole graph *)

Lemma insert_nodes nodes : forall graph,
  match try_fold insert_node graph nodes with
  | Ok g => NoDup nodes.*1 /\ (forall x, x ∈ nodes.*1 -> graph !! x = None) /\ g = list_to_map nodes ∪ graph
  | Err e => (exists id, e = GDuplicate id) /\ ~ (NoDup nodes.*1 /\ forall x, x ∈ nodes.*1 -> graph !! x = None)
  end.
Proof.
  induction nodes as [|[id n] nodes IH]; intros graph; cbn [try_fold].
  { split; [constructor|]. split; [by intros x ?%elem_of_nil|]. cbn. by rewrite map_empty_union. }
  destruct (graph !! id) as [m|] eqn:E;
    (assert (insert_node graph (id, n) = _) as -> by (unfold insert_node; cbn [fst snd]; rewrite E; reflexivity));
    cbn [mbind result_bind].
  { split; [by eexists|]. intros [_ H]. specialize (H id ltac:(by left)). congruence. }
  specialize (IH (<[id := n]> graph)). destruct (try_fold insert_node _ nodes) as [g|e].
  - destruct IH as (Hnd & Hfree & ->). assert (id ∉ nodes.*1) as Hnew.
    { intros Hin. specialize (Hfree id Hin). by rewrite lookup_insert_eq in Hfree. }
    split; [by constructor|]. split.
    + intros x [->|Hx]%elem_of_cons; [done|]. specialize (Hfree x Hx).
      rewrite lookup_insert_ne in Hfree; [done|]. by intros ->.
    + cbn [list_to_map foldr fst snd]. rewrite <- insert_union_r; [by rewrite insert_union_l|].
      by apply not_elem_of_list_to_map_1.
  - destruct IH as [He Hno]. split; [done|]. intros [Hnd Hfree]. rewrite fmap_cons in Hnd.
    apply NoDup_cons in Hnd as [Hnew Hnd]. apply Hno. split; [done|]. intros x Hx.
    rewrite lookup_insert_ne; [by apply Hfree; right|]. by intros ->.
Qed.

Lemma collect_values c outputs vs : Forall2 (fun x v => cx_values c !! x = Some v) outputs vs -> forall acc,
  try_fold (fun vs id => v ← interp_error (ctx_get c id); Ok (vs ++ [v])) acc outputs = Ok (acc ++ vs).
Proof.
  induction 1 as [|x v xs vs Hx _ IH]; intros acc; cbn [try_fold]; [by rewrite app_nil_r|].
  assert (ctx_get c x = Ok v) as -> by (unfold ctx_get; by rewrite Hx).
  cbn [interp_error mbind result_bind]. rewrite IH. by rewrite <- app_assoc.
Qed.

Lemma run_graph_ok fe std_sqrt nodes outputs graph : graph_of nodes = Ok graph ->
  match run_storage_graph fe std_sqrt nodes outputs with
  | Ok vs => Forall2 (means fe std_sqrt graph) outputs vs
  | Err e => e <> GFuel /\ (forall x, e = GCycle x -> tc (edge graph) x x)
             /\ Exists (fun out => forall v, ~ means fe std_sqrt graph out v) outputs
  end.
Proof.
  intros Hgr. unfold run_storage_graph. rewrite Hgr. cbn [mbind result_bind].
  pose proof (eval_inputs fe std_sqrt graph (S (size graph))
    (eval_node_spec fe std_sqrt graph (S (size graph))) outputs (mkCtx ∅ [], ∅)) as H.
  assert (remaining graph ∅ < S (size graph))%nat as Hrem.
  { unfold remaining. rewrite dom_empty_L, difference_empty_L, size_dom. lia. }
  specialize (H ltac:(intros ? H0; cbn [snd] in H0; by rewrite lookup_empty in H0)
    ltac:(intros y Hy x H0; cbn [snd] in H0; by rewrite lookup_empty in H0) Hrem).
  destruct (try_fold (eval_storage_node fe std_sqrt (S (size graph)) graph) (mkCtx ∅ [], ∅) outputs)
    as [[c states]|e]; cbn [mbind result_bind].
  - destruct H as (Hg & _ & Hd). destruct (values_mean fe std_sqrt graph _ outputs Hg Hd) as (vs & Hv & Hm).
    by rewrite (collect_values c outputs vs Hv []).
  - destruct H as (y & Hy & Hf & Hno & Hc). split; [done|]. split; [done|]. apply Exists_exists. by exists y.
Qed.

(** ** The operators of the two interpreters *)

(** A value of the graph interpreter as one of the statement interpreter. *)
Definition embed (v : IrValue) : Value :=
  match v with
  | IrValue.U32 x => Value.U32 x
  | IrValue.U64 x => Value.U64 x
  | IrValue.I32 x => Value.I32 x
  | IrValue.F32 bits => Value.Float (f64_from_f32 bits)
  | IrValue.Bool b => Value.Bool b
  end.
Definition ir_value_wf (v : IrValue) : Prop :=
  match v with
  | IrValue.U32 x | IrValue.F32 x => inu 32 x
  | IrValue.U64 x => inu 64 x
  | IrValue.I32 x => ins 32 x
  | IrValue.Bool _ => True
  end.

Lemma canonical_roundtrip bits : inu 32 bits -> canonical_f32 (f64_as_f32 (f64_from_f32 bits)) = canonical_f32 bits.
Proof.
  intros Hb. rewrite f64_roundtrip_f32 by done. destruct (f32_val bits) eqn:E; [|done..].
  apply f32_val_nan in E; [|done]. unfold canonical_f32 at 2. by rewrite E.
Qed.
Lemma canonical_idem bits : inu 32 bits -> canonical_f32 (canonical_f32 bits) = canonical_f32 bits.
Proof. intros Hb. by apply canonical_f32_id, canonical_f32_canonical. Qed.
Lemma mulhigh_range l r : inu 64 l -> inu 64 r -> wrapu 64 (Z.shiftr (l * r) 64) = Z.shiftr (l * r) 64.
Proof.
  intros [? ?] [? ?]. apply wrapu_id. rewrite Z.shiftr_div_pow2 by lia.
  split; [apply Z.div_pos; nia|apply Z.div_lt_upper_bound; nia].
Qed.

Lemma agree_Ok (x v : IrValue) (y : interp Value) : (Ok x : eval_result) = Ok v -> y = Ok (embed x) -> y = Ok (embed v).
Proof. by intros [= ->]. Qed.
Section Agree.
Context (fe : FloatEnv) (std_sqrt : Z -> Z).
Lemma u32_agree op l r v : interpret_u32 op l r = Ok v ->
  eval_binop fe op (Value.U32 l) (Value.U32 r) = Ok (embed v).
Proof. destruct op; cbn; intros [= <-]; reflexivity. Qed.
Lemma u64_agree op l r v : inu 64 l -> inu 64 r -> interpret_u64 op l r = Ok v ->
  eval_binop fe op (Value.U64 l) (Value.U64 r) = Ok (embed v).
Proof.
  intros Hl Hr. destruct op; cbn [interpret_u64]; intros [= <-]; try reflexivity. by rewrite mulhigh_range.
Qed.
Lemma i32_agree op l r v : interpret_i32 op l r = Ok v ->
  eval_binop fe op (Value.I32 l) (Value.I32 r) = Ok (embed v).
Proof.
  destruct op; cbn [interpret_i32]; try (intros [= <-]; reflexivity);
    destruct (Z.eqb_spec r 0) as [->|Hr]; cbn [orb]; try discriminate;
    destruct ((l =? I32_MIN) && (r =? -1)) eqn:E; try discriminate; intros [= <-]; cbn;
    unfold div_i32, rem_i32; rewrite (proj2 (Z.eqb_neq r 0) Hr), E; reflexivity.
Qed.
Lemma bool_agree op l r v : interpret_bool op l r = Ok v ->
  eval_binop fe op (Value.Bool l) (Value.Bool r) = Ok (embed v).
Proof. destruct op; cbn; intros [= <-]; reflexivity. Qed.
Lemma f32_agree op l r v : inu 32 l -> inu 32 r -> interpret_f32 fe op l r = Ok v ->
  eval_binop fe op (embed (IrValue.F32 l)) (embed (IrValue.F32 r)) = Ok (embed v).
Proof.
  intros Hl Hr. cbn [embed eval_binop]. unfold binop_f32. rewrite !canonical_roundtrip by done.
  unfold interpret_f32. generalize (canonical_f32 l) (canonical_f32 r). intros a b. unfold wrap_f32.
  destruct op; cbv beta iota zeta; intros H;
    match type of H with
    | Err _ = Ok _ => discriminate H
    | Ok _ = Ok _ => apply (agree_Ok _ _ _ H); cbn [embed]; reflexivity
    end.
Qed.
Lemma f32_un_agree op x v : inu 32 x -> (forall y, inu 32 y -> std_sqrt y = sqrtf fe y) ->
  interpret_un_op std_sqrt op (IrValue.F32 x) = Ok v -> unop_f32 fe op (f64_as_f32 (f64_from_f32 x)) = Ok (embed v).
Proof.
  intros Hx Hs. unfold unop_f32. rewrite canonical_roundtrip by done. unfold interpret_un_op, wrap_f32.
  pose proof (canonical_f32_range x Hx) as Hc. pose proof (canonical_idem x Hx) as Hi.
  revert Hc Hi. generalize (canonical_f32 x) as c. intros c Hc Hi.
  destruct op; cbv beta iota zeta; intros H;
    match type of H with
    | Err _ = Ok _ => discriminate H
    | Ok _ = Ok _ => apply (agree_Ok _ _ _ H); cbn [embed]
    end; try reflexivity.
  - by rewrite Hs.
  - unfold canonical_reciprocal. rewrite Hi, canonical_idem by apply f32_recip_range. reflexivity.
Qed.
Lemma un_agree op a v : ir_value_wf a -> (forall x, inu 32 x -> std_sqrt x = sqrtf fe x) ->
  interpret_un_op std_sqrt op a = Ok v -> eval_unop fe op (embed a) = Ok (embed v).
Proof.
  intros Ha Hs. destruct a as [x|x|x|x|x]; cbn [ir_value_wf] in Ha.
  4: by apply f32_un_agree.
  all: destruct op; cbn [interpret_un_op]; intros H;
    match type of H with
    | Err _ = Ok _ => discriminate H
    | Ok _ = Ok _ => apply (agree_Ok _ _ _ H)
    end; try reflexivity; cbn [eval_unop embed unop_int u32_ty u64_ty it_wrap it_bits it_value];
    by rewrite wrapu_id by (apply reverse_bits_range; lia).
Qed.
End Agree.

Module Graph.

(** C16: the graph interpreter computes the recursive meaning of the graph: with distinct
    ids it returns the values of the outputs exactly when every output has a meaning (so
    in particular no cycle and no failing node below it), a reported cycle is a real one,
    and depth is never the reason of a failure; a repeated id is refused. *)
Theorem graph_eval_exact fe std_sqrt nodes outputs :
  (NoDup nodes.*1 ->
     let graph := list_to_map nodes in
     match run_storage_graph fe std_sqrt nodes outputs with
     | Ok vs => Forall2 (means fe std_sqrt graph) outputs vs
     | Err e => e <> GFuel /\ (forall x, e = GCycle x -> tc (edge graph) x x)
                /\ Exists (fun out => forall v, ~ means fe std_sqrt graph out v) outputs
     end)
  /\ (~ NoDup nodes.*1 -> exists id, run_storage_graph fe std_sqrt nodes outputs = Err (GDuplicate id)).
Proof.
  pose proof (insert_nodes nodes ∅) as H. split; intros Hn.
  - apply run_graph_ok. unfold graph_of. destruct (try_fold insert_node ∅ nodes) as [g|e].
    + destruct H as (_ & _ & ->). by rewrite map_union_empty.
    + destruct H as [_ H]. destruct H. by split.
  - unfold run_storage_graph, graph_of. destruct (try_fold insert_node ∅ nodes) as [g|e].
    + by destruct H.
    + destruct H as [[id ->] _]. by exists id.
Qed.
Definition sum_graph : list (Z * NodeStorage) :=
  [(0, NsLitU32 7); (1, NsBinOp BinOp.Add 0 0); (2, NsBinOp BinOp.Mul 1 0); (3, NsUnOp UnOp.BitNot 4);
   (4, NsUnOp UnOp.BitNot 3)].
Lemma graph_eval_exact_witness :
  run_storage_graph TypedOps.zero_env id sum_graph [2] = Ok [IrValue.U32 98]
  /\ run_storage_graph TypedOps.zero_env id sum_graph [2; 3] = Err (GCycle 3)
  /\ means TypedOps.zero_env id (list_to_map sum_graph) 2 (IrValue.U32 98).
Proof.
  split; [vm_compute; reflexivity|]. split; [vm_compute; reflexivity|].
  assert (run_storage_graph TypedOps.zero_env id sum_graph [2] = Ok [IrValue.U32 98]) as E by (vm_compute; reflexivity).
  destruct (graph_eval_exact TypedOps.zero_env id sum_graph [2]) as [H _].
  specialize (H ltac:(apply (bool_decide_unpack _); by vm_compute)). cbv zeta in H. rewrite E in H.
  by inversion H.
Defined.
(** The graph interpreter and the statement interpreter agree on operators: where a
    storage node has a value, the typed operators of the statement interpreter give the
    same one on the same operands, the standard square root being that of the platform. *)
Theorem graph_ops_agree fe std_sqrt op uop a b v w (Ha : ir_value_wf a) (Hb : ir_value_wf b)
    (Hsqrt : forall x, inu 32 x -> std_sqrt x = sqrtf fe x) :
  (interpret_bin_op fe op a b = Ok v -> eval_binop fe op (embed a) (embed b) = Ok (embed v))
  /\ (interpret_un_op std_sqrt uop a = Ok w -> eval_unop fe uop (embed a) = Ok (embed w)).
Proof.
  split; [|by apply un_agree].
  destruct a, b; cbn [interpret_bin_op ir_value_wf] in *; try discriminate.
  - apply u32_agree.
  - by apply u64_agree.
  - apply i32_agree.
  - by apply f32_agree.
  - apply bool_agree.
Qed.
Lemma graph_ops_agree_witness :
  eval_binop TypedOps.zero_env BinOp.Sub (Value.U32 3) (Value.U32 5) = Ok (Value.U32 4294967294)
  /\ eval_unop TypedOps.zero_env UnOp.ReverseBits (Value.U32 3) = Ok (Value.U32 3221225472).
Proof.
  assert (inu 32 3 /\ inu 32 5) as [H3 H5] by (unfold inu; lia).
  destruct (graph_ops_agree TypedOps.zero_env (sqrtf TypedOps.zero_env) BinOp.Sub UnOp.ReverseBits (IrValue.U32 3)
    (IrValue.U32 5) (IrValue.U32 4294967294) (IrValue.U32 3221225472) H3 H5 ltac:(done)) as [H1 H2].
  split; [apply H1; vm_compute; reflexivity|apply H2; vm_compute; reflexivity].
Defined.
End Graph.
