(* ===== verification/DeadCode.v ===== *)
(** Dead-code elimination (vyre-foundation, optimizer/passes/fusion_cse/dce and
    cse/expr_has_effect.rs).

    [eliminate_dead_lets] walks a list of statements backwards with the set of live names,
    drops the pure bindings of names that are not live, and cuts the list after a return;
    [eliminate_unreachable] unfolds conditionals with a literal condition, drops loops with
    empty literal bounds and empty blocks; [dce] runs the first, the second, and the first
    again. *)

From S2P Require Import Prelude Float Spec IR Validate ValidateExpr.

(** ** Expressions *)

Fixpoint expr_has_effect (e : Expr) : bool :=
  match e with
  | Expr.Atomic _ _ _ _ _ _ | Expr.Call _ _ => true
  | Expr.Load _ x | Expr.UnOp _ x | Expr.Cast _ x => expr_has_effect x
  | Expr.BinOp _ l r => expr_has_effect l || expr_has_effect r
  | Expr.Fma a b c | Expr.Select a b c => expr_has_effect a || expr_has_effect b || expr_has_effect c
  | Expr.Opaque extension => negb (en_cse_safe extension)
  | _ => false
  end.

Definition record_ref (e : Expr) (refs : gset string) : gset string :=
  match e with Expr.Var name => {[name]} ∪ refs | _ => refs end.
(** The operands pushed, top first; the operands of the subgroup operations are not. *)
Definition ref_operands (e : Expr) : list Expr :=
  match e with
  | Expr.Load _ x | Expr.UnOp _ x | Expr.Cast _ x => [x]
  | Expr.BinOp _ l r => [r; l]
  | Expr.Call _ args => rev args
  | Expr.Select a b c | Expr.Fma a b c => [c; b; a]
  | Expr.Atomic _ _ i x v _ => v :: match x with Some y => [y] | None => [] end ++ [i]
  | _ => []
  end.
Definition collect_expr_refs (e : Expr) (refs : gset string) : gset string :=
  default refs (walk_stack (fun e refs => Some (record_ref e refs)) ref_operands (expr_size e) [e] refs).

Definition const_truth (e : Expr) : option bool :=
  match e with
  | Expr.LitBool v => Some v
  | Expr.LitU32 v | Expr.LitI32 v => Some (negb (v =? 0))
  | _ => None
  end.
Definition const_loop_empty (from to : Expr) : bool :=
  match from, to with
  | Expr.LitU32 from, Expr.LitU32 to | Expr.LitI32 from, Expr.LitI32 to => to <=? from
  | _, _ => false
  end.

(** ** Dead bindings *)

(** The statements up to the first return, that one included. *)
Fixpoint reachable_prefix (nodes : list Node) : list Node :=
  match nodes with
  | [] => []
  | Node.Return :: _ => [Node.Return]
  | n :: nodes => n :: reachable_prefix nodes
  end.

Record LiveResult := mkLiveResult { lr_nodes : list Node; lr_live_in : gset string }.

(** The backward loop over [reachable_prefix nodes] ([dead_lets_prefix]): the statements
    kept so far, already in source order, and the names live before them. *)
Fixpoint dead_lets_with (visit : Node -> LiveResult -> LiveResult) (nodes : list Node) (live_after : gset string)
    : LiveResult :=
  match nodes with
  | [] => mkLiveResult [] live_after
  | n :: nodes =>
      visit n match n with
              | Node.Return => mkLiveResult [] live_after
              | _ => dead_lets_with visit nodes live_after
              end
  end.
Lemma dead_lets_prefix visit nodes live_after :
  dead_lets_with visit nodes live_after = foldr visit (mkLiveResult [] live_after) (reachable_prefix nodes).
Proof. induction nodes as [|n nodes IH]; [done|]. destruct n; cbn [dead_lets_with reachable_prefix foldr]; by rewrite ?IH. Qed.

Fixpoint dead_lets_node (n : Node) (after : LiveResult) : LiveResult :=
  let eliminate := dead_lets_with dead_lets_node in
  let '(mkLiveResult kept live) := after in
  match n with
  | Node.Let name value =>
      if negb (bool_decide (name ∈ live)) && negb (expr_has_effect value) then after
      else mkLiveResult (n :: kept) (collect_expr_refs value (live ∖ {[name]}))
  | Node.Assign name value => mkLiveResult (n :: kept) (collect_expr_refs value ({[name]} ∪ live))
  | Node.Store _ index value => mkLiveResult (n :: kept) (collect_expr_refs value (collect_expr_refs index live))
  | Node.If cond then_ otherwise =>
      let t := eliminate then_ live in
      let o := eliminate otherwise live in
      mkLiveResult (Node.If cond (lr_nodes t) (lr_nodes o) :: kept)
        (collect_expr_refs cond (lr_live_in t ∪ lr_live_in o))
  | Node.Loop var from to body =>
      let b := eliminate body ({[var]} ∪ live) in
      mkLiveResult (Node.Loop var from to (lr_nodes b) :: kept)
        (collect_expr_refs to (collect_expr_refs from ((live ∪ lr_live_in b) ∖ {[var]})))
  | Node.Block body =>
      let b := eliminate body live in
      mkLiveResult (Node.Block (lr_nodes b) :: kept) (live ∪ lr_live_in b)
  | Node.Region generator source_region body =>
      let b := eliminate body live in
      mkLiveResult (Node.Region generator source_region (lr_nodes b) :: kept) (live ∪ lr_live_in b)
  | Node.AsyncLoad _ _ offset size _ | Node.AsyncStore _ _ offset size _ =>
      mkLiveResult (n :: kept) (collect_expr_refs size (collect_expr_refs offset live))
  | Node.Trap address _ => mkLiveResult (n :: kept) (collect_expr_refs address live)
  | _ => mkLiveResult (n :: kept) live
  end.
Definition eliminate_dead_lets : list Node -> gset string -> LiveResult := dead_lets_with dead_lets_node.

(** ** Unreachable statements *)

(** The forward loop; a return ends it. *)
Fixpoint unreachable_with (visit : Node -> list Node) (nodes : list Node) : list Node :=
  match nodes with
  | [] => []
  | Node.Return :: _ => [Node.Return]
  | n :: nodes => visit n ++ unreachable_with visit nodes
  end.
(** What a statement other than a return adds to the output. *)
Fixpoint unreachable_node (n : Node) : list Node :=
  let eliminate := unreachable_with unreachable_node in
  match n with
  | Node.If cond then_ otherwise =>
      match const_truth cond with
      | Some true => eliminate then_
      | Some false => eliminate otherwise
      | None => [Node.If cond (eliminate then_) (eliminate otherwise)]
      end
  | Node.Loop var from to body =>
      if const_loop_empty from to then [] else [Node.Loop var from to (eliminate body)]
  | Node.Block body =>
      match eliminate body with [] => [] | nodes => [Node.Block nodes] end
  | Node.Region generator source_region body => [Node.Region generator source_region (eliminate body)]
  | _ => [n]
  end.
Definition eliminate_unreachable : list Node -> list Node := unreachable_with unreachable_node.

(** ** The pass *)

Definition dce_entry (entry : list Node) : list Node :=
  let entry := lr_nodes (eliminate_dead_lets entry ∅) in
  let entry := eliminate_unreachable entry in
  lr_nodes (eliminate_dead_lets entry ∅).
Definition dce (p : Program) : Program := map_entry p dce_entry.

(** ** The names an expression reads *)

(** The recursive form of [collect_expr_refs]. *)
Fixpoint refs (e : Expr) : gset string :=
  match e with
  | Expr.Var name => {[name]}
  | Expr.Load _ x | Expr.UnOp _ x | Expr.Cast _ x => refs x
  | Expr.BinOp _ l r => refs l ∪ refs r
  | Expr.Call _ args => ⋃ map refs args
  | Expr.Select a b c | Expr.Fma a b c => refs a ∪ refs b ∪ refs c
  | Expr.Atomic _ _ i x v _ => refs i ∪ match x with Some y => refs y | None => ∅ end ∪ refs v
  | _ => ∅
  end.

Fixpoint refs_below (e : Expr) : list Expr :=
  e :: match e with
       | Expr.Load _ x | Expr.UnOp _ x | Expr.Cast _ x => refs_below x
       | Expr.BinOp _ l r => refs_below r ++ refs_below l
       | Expr.Call _ args => concat (rev (map refs_below args))
       | Expr.Select a b c | Expr.Fma a b c => refs_below c ++ refs_below b ++ refs_below a
       | Expr.Atomic _ _ i x v _ =>
           refs_below v ++ match x with Some y => refs_below y | None => [] end ++ refs_below i
       | _ => []
       end.

Lemma walk_record l : forall s, walk_list (fun e s => Some (record_ref e s)) l s = Some (foldl (fun s e => record_ref e s) s l).
Proof. induction l as [|e l IH]; intros s; [done|]. apply IH. Qed.
Lemma record_all l x : forall s, x ∈ foldl (fun s e => record_ref e s) s l <-> x ∈ s \/ Expr.Var x ∈ l.
Proof.
  induction l as [|e l IH]; intros s; cbn [foldl]; [set_solver|]. rewrite IH, elem_of_cons.
  destruct e; cbn [record_ref]; try (naive_solver; fail). rewrite elem_of_union, elem_of_singleton. naive_solver.
Qed.
Lemma below_refs x e : Expr.Var x ∈ refs_below e <-> x ∈ refs e.
Proof.
  induction e using Expr_ind'; cbn [refs_below refs]; rewrite ?elem_of_cons, ?elem_of_app;
    try (set_solver; fail).
  - rewrite elem_of_union_list, (list_elem_of_In (concat _)), in_concat. setoid_rewrite <- in_rev.
    setoid_rewrite in_map_iff. setoid_rewrite list_elem_of_In. setoid_rewrite in_map_iff.
    rewrite Forall_forall in H. setoid_rewrite list_elem_of_In in H. split.
    + intros [?|(l & (a & <- & Ha) & Hx)]; [done|]. exists (refs a). split; [by exists a|by apply H].
    + intros (l & (a & <- & Ha) & Hx). right. exists (refs_below a). split; [by exists a|by apply H].
  - destruct e2 as [y|]; cbn [Forall_opt] in *; set_solver.
Qed.
Lemma collect_refs e s : collect_expr_refs e s = refs e ∪ s.
Proof.
  unfold collect_expr_refs. rewrite (walk_one _ _ refs_below).
  - rewrite walk_record. cbn [from_option]. unfold id. apply set_eq. intros x. rewrite record_all, below_refs. set_solver.
  - intros x. destruct x; cbn [refs_below ref_operands flat_map app]; rewrite ?app_nil_r; try done.
    + by rewrite flat_map_concat_map, map_rev.
    + by destruct expected; cbn [flat_map app]; rewrite ?app_nil_r.
  - intros x. induction x using Expr_ind'; cbn [refs_below expr_size length]; rewrite ?length_app; try lia.
    + apply le_n_S. rewrite length_concat, map_rev. unfold list_sum_nat.
      induction H as [|a args Ha _ IH]; [done|]. cbn [map rev fold_right]. rewrite list_sum_app. cbn [list_sum fold_right]. lia.
    + match goal with y : option Expr |- _ => destruct y end; cbn [Forall_opt length app] in *; rewrite ?length_app; lia.
Qed.
