(* ===== verification/DeadCodeSim.v ===== *)
(** Removing statements of a kernel, simulated step by step.

    A pass relates a list of statements to what is left of it ([Trims]): bindings may be
    dropped, or a statement may be replaced by the statements it certainly runs.  Whatever
    the order in which the invocations of a workgroup move, the trimmed kernel has an order
    in which its invocations leave the same memory behind. *)

From S2P Require Import Prelude Float Spec IR RefValue RefMemory RefEval RefHash RefSched RefSchedSound RefWorkgroup.
From S2P Require Import ValidateExpr Validate Scoping ScopingSound DeadCode.

(** ** Any order of steps *)

(** One invocation that can move takes a step, or the barrier opens.  This is the step of
    a kernel without subgroup operations: for such a kernel ([uses_subgroup_ops] is
    false) the interpreter collects no lane snapshots and evaluates against none; the
    theorems about [lane_step] are about such kernels. *)
Inductive lane_step (fe : FloatEnv) (dialect : option (string -> option OpDef))
    : list HashmapInvocation * HashmapMemory -> list HashmapInvocation * HashmapMemory -> Prop :=
| lane_moves k i i' invs m m' : invs !! k = Some i -> done i || hi_waiting i = false ->
    step fe dialect [] i m = Ok (i', m') -> lane_step fe dialect (invs, m) (<[k := i']> invs, m')
| lanes_release invs released m : release_barrier_if_ready invs = Some released ->
    lane_step fe dialect (invs, m) (released, m).

(** Round-robin is one such order. *)
Lemma step_all_lanes fe dialect pre invs : forall m b invs' m',
  step_all fe dialect [] invs m = Ok (b, invs', m') -> rtc (lane_step fe dialect) (pre ++ invs, m) (pre ++ invs', m').
Proof.
  revert pre. induction invs as [|i invs IH]; intros pre m b invs' m' H; cbn [step_all] in H.
  { by injection H as <- <- <-. }
  destruct (done i || hi_waiting i) eqn:E; unfold mbind, HM_bind in H.
  - destruct (step_all fe dialect [] invs m) as [[[b1 invs1] m1]|] eqn:E1; [|done]. cbn in H. injection H as <- <- <-.
    apply (IH (pre ++ [i])) in E1. by rewrite <- !app_assoc in E1.
  - destruct (step fe dialect [] i m) as [[i1 m1]|] eqn:E1; [|done].
    destruct (step_all fe dialect [] invs m1) as [[[b2 invs2] m2]|] eqn:E2; [|done]. cbn in H. injection H as <- <- <-.
    apply (IH (pre ++ [i1])) in E2. rewrite <- !app_assoc in E2. cbn [app] in E2. eapply rtc_l; [|exact E2].
    replace (pre ++ i1 :: invs) with (<[length pre := i1]> (pre ++ i :: invs))
      by (by rewrite insert_app_r_alt, Nat.sub_diag by lia).
    eapply lane_moves; [|exact E|exact E1]. by rewrite lookup_app_r, Nat.sub_diag by lia.
Qed.
Lemma run_loop_lanes fe dialect fuel : forall invs m invs' m', run_loop fe dialect false fuel invs m = Ok (invs', m') ->
  rtc (lane_step fe dialect) (invs, m) (invs', m') /\ Forall (fun i => done i = true) invs'.
Proof.
  induction fuel as [|fuel IH]; intros invs m invs' m' H; cbn [run_loop] in H;
    (destruct (forallb done invs) eqn:Ed;
     [injection H as <- <-; split; [apply rtc_refl|by apply forallb_Forall in Ed]|]); [done|].
  unfold mbind, HM_bind in H. destruct (step_round_robin _ _ _ invs m) as [[[b invs1] m1]|] eqn:E1; [|done].
  apply (step_all_lanes fe dialect []) in E1. cbn [app] in E1. unfold hlift in H.
  destruct (verify_uniform_control_flow invs1); [|done].
  destruct (release_barrier_if_ready invs1) as [released|] eqn:Er.
  - apply IH in H as [H Hd]. split; [|done]. etrans; [exact E1|]. eapply rtc_l; [by apply lanes_release|exact H].
  - destruct (negb b && _); [done|]. apply IH in H as [H Hd]. split; [|done]. by etrans.
Qed.

(** ** Simulations of an invocation *)

Class LaneSimulation (fe : FloatEnv) (dialect : option (string -> option OpDef)) (decls : Buffers)
    (R : HashmapInvocation -> HashmapInvocation -> Prop) : Prop := {
  sim_status i i' : R i i' -> done i = done i' /\ hi_waiting i = hi_waiting i';
  sim_release i i' w : R i i' -> R (with_waiting i w) (with_waiting i' w);
  (** A step of the source is a step of the target with the same effect, or no step. *)
  sim_step i i' m i1 m1 : R i i' -> resolves decls m -> done i || hi_waiting i = false ->
    step fe dialect [] i m = Ok (i1, m1) ->
    (m1 = m /\ R i1 i') \/ (exists i1', step fe dialect [] i' m = Ok (i1', m1) /\ R i1 i1' /\ resolves decls m1);
}.

Section Lanes.
Context (fe : FloatEnv) (dialect : option (string -> option OpDef)) (decls : Buffers).
Context (R : HashmapInvocation -> HashmapInvocation -> Prop) `{!LaneSimulation fe dialect decls R}.

Lemma release_sim invs invs' released : Forall2 R invs invs' -> release_barrier_if_ready invs = Some released ->
  exists released', release_barrier_if_ready invs' = Some released' /\ Forall2 R released released'.
Proof.
  intros HR Hrel.
  assert (live_count invs = live_count invs' /\ live_waiting_count invs = live_waiting_count invs') as [Hl Hw].
  { clear Hrel. unfold live_count, live_waiting_count. induction HR as [|i i' invs invs' Hi _ [IHl IHw]]; [done|].
    destruct (sim_status _ _ Hi) as [Hd Hv]. rewrite !filter_cons. rewrite Hd, Hv.
    split; case_decide; cbn [length]; congruence. }
  unfold release_barrier_if_ready in *. rewrite <- Hl, <- Hw. destruct (_ && _); [|done]. injection Hrel as <-.
  eexists. split; [done|]. clear Hl Hw. induction HR; cbn [map]; constructor; [by apply sim_release|done].
Qed.

Lemma lanes_sim s s1 : rtc (lane_step fe dialect) s s1 -> resolves decls s.2 ->
  forall invs', Forall2 R s.1 invs' -> exists invs1',
    rtc (lane_step fe dialect) (invs', s.2) (invs1', s1.2) /\ Forall2 R s1.1 invs1' /\ resolves decls s1.2.
Proof.
  induction 1 as [s|s s1 s2 Hstep _ IH]; intros Hm invs' HR; [by exists invs'|].
  destruct Hstep as [k i i1 invs m m1 Hk Hidle Hstep|invs released m Hrel]; cbn [fst snd] in *.
  - destruct (Forall2_lookup_l _ _ _ _ _ HR Hk) as (i' & Hk' & Hi).
    destruct (sim_step _ _ _ _ _ Hi Hm Hidle Hstep) as [[-> Hi1]|(i1' & Hstep' & Hi1 & Hm1)].
    + apply IH; [done|]. rewrite <- (list_insert_id invs' k i' Hk'). by apply Forall2_insert.
    + destruct (IH Hm1 (<[k := i1']> invs')) as (invs2' & Hs & HR2); [by apply Forall2_insert|].
      exists invs2'. split; [|done]. eapply rtc_l; [|exact Hs]. eapply lane_moves; [exact Hk'| |exact Hstep'].
      by destruct (sim_status _ _ Hi) as [<- <-].
  - destruct (release_sim _ _ _ HR Hrel) as (released' & Hrel' & HR').
    destruct (IH Hm _ HR') as (invs2' & Hs & HR2). exists invs2'. split; [|done].
    eapply rtc_l; [by apply lanes_release|exact Hs].
Qed.
End Lanes.

(** ** Computations over the memory, step by step, and the same value from related locals *)

Lemma hbind_Ok {A B} (x : HM A) (f : A -> HM B) m r : (x ≫= f) m = Ok r ->
  exists a m0, x m = Ok (a, m0) /\ f a m0 = Ok r.
Proof. unfold mbind, HM_bind. destruct (x m) as [[a m0]|]; [|done]. by exists a, m0. Qed.
Lemma hbind_eq {A B} (x : HM A) (f : A -> HM B) m a m1 : x m = Ok (a, m1) -> (x ≫= f) m = f a m1.
Proof. intros E. unfold mbind, HM_bind. by rewrite E. Qed.
Lemma hlift_Ok {A} (x : interp A) m a m1 : hlift x m = Ok (a, m1) -> x = Ok a /\ m1 = m.
Proof. unfold hlift. destruct x; [|done]. by intros [= <- <-]. Qed.
Lemma hbind_ext {A B} (x y : HM A) (f g : A -> HM B) : (forall m, x m = y m) -> (forall a m, f a m = g a m) ->
  forall m, (x ≫= f) m = (y ≫= g) m.
Proof. intros Hx Hf m. unfold mbind, HM_bind. rewrite Hx. destruct (y m) as [[a m']|]; [apply Hf|done]. Qed.
Lemma encode_ext ev ev' args : Forall (fun a => forall m, ev a m = ev' a m) args -> forall inputs input m,
  hash_encode_inputs ev args inputs input m = hash_encode_inputs ev' args inputs input m.
Proof.
  induction 1 as [|a args Ha _ IH]; intros inputs input; [done|]. destruct inputs as [|ty inputs]; [done|].
  cbn [hash_encode_inputs]. cbv zeta. repeat (apply hbind_ext; [done|intros ?]). apply IH.
Qed.

Section Evaluation.
Context (fe : FloatEnv) (dialect : option (string -> option OpDef)) (decls : Buffers).
Context (a b : HashmapInvocationSnapshot) (Γ Γ' : Env).
Context (Hids : sn_ids a = sn_ids b).
Context (Ha : forall x, is_Some (Γ !! x) -> is_Some (sn_locals a !! x)).
Context (Hb : forall x, is_Some (Γ' !! x) -> is_Some (sn_locals b !! x)).
Context (Hab : forall x v v', sn_locals a !! x = Some v -> sn_locals b !! x = Some v' -> v = v').

Lemma eval_same e : subgroup_free e = true -> scoped_expr dialect decls Γ e = true ->
  scoped_expr dialect decls Γ' e = true -> forall m, eval_expr fe dialect [] e a m = eval_expr fe dialect [] e b m.
Proof.
  induction e using Expr_ind'; cbn [subgroup_free scoped_expr eval_expr]; rewrite ?andb_true_iff; intros Hf Hs Hs';
    destruct_and?; try done; cbv zeta; rewrite ?Hids; try done; try (repeat (apply hbind_ext; [auto; fail|intros ?]); done).
  - apply bool_decide_eq_true, Ha in Hs as [v Hv]. apply bool_decide_eq_true, Hb in Hs' as [v' Hv'].
    by rewrite Hv, Hv', (Hab _ _ _ Hv Hv').
  - unfold hash_eval_call. repeat (apply hbind_ext; [done|intros ?]). apply hbind_ext; [|done].
    apply encode_ext. rewrite Forall_forall in *. rewrite !forallb_forall in *.
    intros y Hy. pose proof (proj1 (list_elem_of_In _ _) Hy). apply H; auto.
  - repeat (apply hbind_ext; [auto; fail|intros ?]). apply hbind_ext.
    { destruct e2 as [y|]; [|done]. cbn [Forall_opt] in *. apply hbind_ext; auto. }
    intros ?. by repeat (apply hbind_ext; [auto; fail|intros ?]).
Qed.
End Evaluation.

(** A binding the pass may drop reads, and does not write. *)
Lemma pure_keeps fe dialect snapshots e : expr_has_effect e = false -> subgroup_free e = true ->
  forall l m v m', eval_expr fe dialect snapshots e l m = Ok (v, m') -> m' = m.
Proof.
  intros He Hf l. enough (agrees (eval_expr fe dialect snapshots e l) (eval_expr fe dialect snapshots e l)) as H.
  { intros m v m'. apply H. }
  revert He Hf. induction e using Expr_ind'; cbn [expr_has_effect subgroup_free eval_expr]; rewrite ?orb_false_iff, ?andb_true_iff;
    intros He Hf; destruct_and?; try done; cbv zeta; unfold hash_load, hash_buf_len;
    repeat (apply agrees_bind; [auto using agrees_lift, agrees_get|intros ?]); auto using agrees_lift, agrees_ret.
Qed.

(** ** Trimming a list of statements *)

Section Trim.
Context (dropping : bool) (T : list Node -> list Node -> Prop).

(** The statement that stays, with its own lists trimmed. *)
Definition alike (n n' : Node) : Prop :=
  match n, n' with
  | Node.If c t o, Node.If c' t' o' => c = c' /\ T t t' /\ T o o'
  | Node.Loop x a b body, Node.Loop x' a' b' body' => x = x' /\ a = a' /\ b = b' /\ T body body'
  | Node.Block body, Node.Block body' => T body body'
  | Node.Region g r body, Node.Region g' r' body' => g = g' /\ r = r' /\ T body body'
  | _, _ => n = n'
  end.
(** A statement that only runs [pre]. *)
Definition runs_as (n : Node) (pre : list Node) : Prop :=
  match n with
  | Node.If c t o => exists b : bool, const_truth c = Some b /\ T (if b then t else o) pre
  | Node.Loop _ a b _ => const_loop_empty a b = true /\ pre = []
  | Node.Block body => pre = [] /\ T body []
  | _ => False
  end.

(** A pass either drops pure bindings ([dropping]) or replaces statements by what they
    run; a return ends the list. *)
Class Trims : Prop := {
  trims_nil out : T [] out <-> out = [];
  trims_cons n rest out : T (n :: rest) out ->
    (n = Node.Return /\ out = [Node.Return])
    \/ (exists x e, n = Node.Let x e /\ dropping = true /\ expr_has_effect e = false /\ T rest out)
    \/ (exists pre out', out = pre ++ out' /\ dropping = false /\ runs_as n pre /\ T rest out')
    \/ (exists n' out', out = n' :: out' /\ alike n n' /\ T rest out');
}.

(** *** Related stacks *)

Abbreviation Locals := (gmap string Value).
Definition included (l l' : Locals) : Prop := if dropping then l' ⊆ l else l ⊆ l'.
Definition dels (l : Locals) (names : list string) : Locals := foldl (fun m name => delete name m) l names.
Definition note (x : string) (scopes : list (list string)) : list (list string) :=
  match scopes with [] => [] | scope :: scopes => (scope ++ [x]) :: scopes end.

(** The open lists and the locals that are left as they close; [pre] is what the lists
    above, which have no frame of their own in the target, still have to run. *)
Inductive frames_rel : list Node -> list NodeFrame -> list (list string) -> Locals ->
    list NodeFrame -> list (list string) -> Locals -> Prop :=
| fr_nil s l s' l' : included l l' -> frames_rel [] [] s l [] s' l'
| fr_entry pre out path nodes index s l path' nodes' index' s' l' : included l l' ->
    T (drop index nodes) out -> drop index' nodes' = pre ++ out ->
    frames_rel pre [FrNodes path nodes index false] s l [FrNodes path' nodes' index' false] s' l'
| fr_nodes pre out path nodes index fs names s l path' nodes' index' fs' names' s' l' : included l l' ->
    T (drop index nodes) out -> drop index' nodes' = pre ++ out ->
    frames_rel [] fs s (dels l names) fs' s' (dels l' names') ->
    frames_rel pre (FrNodes path nodes index true :: fs) (names :: s) l
      (FrNodes path' nodes' index' true :: fs') (names' :: s') l'
| fr_inline pre out path nodes index fs names s l fs' s' l' : dropping = false -> included l l' -> fs' <> [] ->
    T (drop index nodes) out -> frames_rel (pre ++ out) fs s (dels l names) fs' s' l' ->
    frames_rel pre (FrNodes path nodes index true :: fs) (names :: s) l fs' s' l'
| fr_loop path var next to body body' fs s l path' fs' s' l' : T body body' -> frames_rel [] fs s l fs' s' l' ->
    frames_rel [] (FrLoop path var next to body :: fs) s l (FrLoop path' var next to body' :: fs') s' l'
| fr_skip pre path var next to body fs s l fs' s' l' : dropping = false -> to <= next -> fs' <> [] ->
    frames_rel pre fs s l fs' s' l' -> frames_rel pre (FrLoop path var next to body :: fs) s l fs' s' l'.

Lemma dels_insert (l : Locals) names x v : l !! x = None -> dels (<[x := v]> l) (names ++ [x]) = dels l names.
Proof.
  intros Hx. apply map_eq. intros y. unfold dels. rewrite !deletes_lookup.
  destruct (decide (y ∈ names)) as [Hy|Hy]; [by rewrite decide_True by set_solver|].
  destruct (decide (y = x)) as [->|Hne]; [by rewrite decide_True by set_solver|].
  rewrite decide_False by set_solver. by rewrite lookup_insert_ne.
Qed.
Lemma dels_alter f (l : Locals) names x : dels (alter f x l) names = alter f x (dels l names).
Proof.
  apply map_eq. intros y. unfold dels. rewrite deletes_lookup. destruct (decide (x = y)) as [->|Hne].
  - rewrite !lookup_alter_eq, deletes_lookup. by case_decide.
  - by rewrite !lookup_alter_ne, deletes_lookup by done.
Qed.
Lemma included_insert l l' x v : included l l' -> included (<[x := v]> l) (<[x := v]> l').
Proof. unfold included. destruct dropping; apply insert_mono. Qed.
Lemma included_alter f x l l' : included l l' -> included (alter f x l) (alter f x l').
Proof.
  assert (forall m m' : Locals, m ⊆ m' -> alter f x m ⊆ alter f x m') as H.
  { intros m m' Hm. apply map_subseteq_spec. intros y v. destruct (decide (x = y)) as [->|Hne].
    - rewrite !lookup_alter_eq. destruct (m !! y) as [w|] eqn:E; [|done]. by rewrite (lookup_weaken _ _ _ _ E Hm).
    - rewrite !lookup_alter_ne by done. intros Hv. by eapply lookup_weaken. }
  unfold included. destruct dropping; apply H.
Qed.
Lemma included_compat l l' x v v' : included l l' -> l !! x = Some v -> l' !! x = Some v' -> v = v'.
Proof.
  unfold included. intros Hi Hv Hv'. destruct dropping.
  - rewrite (lookup_weaken _ _ _ _ Hv' Hi) in Hv. congruence.
  - rewrite (lookup_weaken _ _ _ _ Hv Hi) in Hv'. congruence.
Qed.
Lemma frames_included pre fs s l fs' s' l' : frames_rel pre fs s l fs' s' l' -> included l l'.
Proof. induction 1; done. Qed.
Lemma frames_empty pre fs s l fs' s' l' : frames_rel pre fs s l fs' s' l' -> fs = [] <-> fs' = [].
Proof. induction 1; done. Qed.

Lemma frames_bind_target pre fs s l fs' s' l' x v : frames_rel pre fs s l fs' s' l' -> dropping = false ->
  l' !! x = None -> frames_rel pre fs s l fs' (note x s') (<[x := v]> l').
Proof.
  intros H Hd Hx. assert (forall m, included m l' -> included m (<[x := v]> l')) as Hi.
  { unfold included. rewrite Hd. intros m Hm. (etrans; [exact Hm|by apply insert_subseteq]). }
  induction H; cbn [note] in *; try (econstructor; eauto; fail).
  eapply fr_nodes; eauto. by rewrite dels_insert.
Qed.
Lemma frames_bind pre fs s l fs' s' l' x v : frames_rel pre fs s l fs' s' l' -> l !! x = None -> l' !! x = None ->
  frames_rel pre fs (note x s) (<[x := v]> l) fs' (note x s') (<[x := v]> l').
Proof.
  intros H Hx Hx'. induction H; cbn [note] in *; try (econstructor; eauto using included_insert; fail).
  - eapply fr_nodes; eauto using included_insert. by rewrite !dels_insert.
  - eapply fr_inline; eauto using included_insert. rewrite dels_insert by done. by apply frames_bind_target.
Qed.
Lemma frames_bind_source fs s l fs' s' l' x v : frames_rel [] fs s l fs' s' l' -> dropping = true -> l !! x = None ->
  frames_rel [] fs (note x s) (<[x := v]> l) fs' s' l'.
Proof.
  intros H Hd Hx. assert (forall m, included l m -> included (<[x := v]> l) m) as Hi.
  { unfold included. rewrite Hd. intros m Hm. (etrans; [exact Hm|by apply insert_subseteq]). }
  remember [] as pre eqn:Hpre in H. induction H; cbn [note] in *; subst; try congruence; try (econstructor; eauto; fail).
  eapply (fr_nodes []); eauto. by rewrite dels_insert.
Qed.
Lemma frames_alter pre fs s l fs' s' l' f x : frames_rel pre fs s l fs' s' l' ->
  frames_rel pre fs s (alter f x l) fs' s' (alter f x l').
Proof. induction 1; econstructor; eauto using included_alter; by rewrite <- ?dels_alter in *. Qed.

(** Moving on in the top list of the source. *)
Lemma frames_shift pre path nodes index scoped fs s l fs' s' l' :
  frames_rel pre (FrNodes path nodes index scoped :: fs) s l fs' s' l' -> exists out, T (drop index nodes) out
  /\ forall pre2 index2 out2, T (drop index2 nodes) out2 -> pre2 ++ out2 = pre ++ out ->
       frames_rel pre2 (FrNodes path nodes index2 scoped :: fs) s l fs' s' l'.
Proof.
  intros H. inversion H; subst; eexists; (split; [eassumption|]); intros pre2 index2 out2 HT Heq.
  - eapply fr_entry; [done|exact HT|congruence].
  - eapply fr_nodes; [done|exact HT|congruence|done].
  - eapply fr_inline; [done|done|done|exact HT|by rewrite Heq].
Qed.
(** The next statement of the target. *)
Lemma drop_cons_inv {A} k (l : list A) x r : drop k l = x :: r -> l !! k = Some x /\ drop (S k) l = r.
Proof.
  intros H. assert (l !! k = Some x) as Hk by (rewrite <- (Nat.add_0_r k), <- lookup_drop, H; done).
  split; [done|]. rewrite (drop_S _ _ _ Hk) in H. congruence.
Qed.
Lemma frames_next n' pre fs s l fs' s' l' : frames_rel (n' :: pre) fs s l fs' s' l' ->
  exists path' nodes' index' scoped' gs', fs' = FrNodes path' nodes' index' scoped' :: gs' /\ nodes' !! index' = Some n'
  /\ frames_rel pre fs s l (FrNodes path' nodes' (S index') scoped' :: gs') s' l'.
Proof.
  remember (n' :: pre) as pre0 eqn:Hpre. intros H. revert pre Hpre. induction H; intros pre1 Hpre; try done; subst pre.
  - destruct (drop_cons_inv _ _ _ _ H1) as [Hn Hr]. do 5 eexists. split; [done|]. split; [exact Hn|]. by eapply fr_entry.
  - destruct (drop_cons_inv _ _ _ _ H1) as [Hn Hr]. do 5 eexists. split; [done|]. split; [exact Hn|]. by eapply fr_nodes.
  - destruct (IHframes_rel _ eq_refl) as (? & ? & ? & ? & ? & -> & Hn & Hr). do 5 eexists. split; [done|].
    split; [exact Hn|]. by eapply fr_inline.
  - destruct (IHframes_rel _ eq_refl) as (? & ? & ? & ? & ? & -> & Hn & Hr). do 5 eexists. split; [done|].
    split; [exact Hn|]. by apply fr_skip.
Qed.

(** *** One statement *)

Record core (i i' : HashmapInvocation) : Prop := {
  core_ids : hi_ids i = hi_ids i';
  core_returned : hi_returned i = hi_returned i';
  core_waiting : hi_waiting i = hi_waiting i';
  core_frames : frames_rel [] (hi_frames i) (lo_scopes (hi_locals i)) (lo_locals (hi_locals i))
                  (hi_frames i') (lo_scopes (hi_locals i')) (lo_locals (hi_locals i'));
}.

(** Where the source ends, the target ends with the same memory and a related result. *)
Definition matches {A} (Q : A -> A -> Prop) (x y : HM A) : Prop := forall m a m1, x m = Ok (a, m1) ->
  exists a', y m = Ok (a', m1) /\ Q a a'.
Lemma matches_bind {A B} (P : A -> A -> Prop) (Q : B -> B -> Prop) x y f g : matches P x y ->
  (forall a a', P a a' -> matches Q (f a) (g a')) -> matches Q (x ≫= f) (y ≫= g).
Proof.
  intros Hx Hf m b m1 H. unfold mbind, HM_bind in *. destruct (x m) as [[a m2]|] eqn:E; [|done].
  destruct (Hx _ _ _ E) as (a' & -> & HP). by eapply Hf.
Qed.
Lemma matches_same {A B} (Q : B -> B -> Prop) (x y : HM A) f g : (forall m, x m = y m) ->
  (forall a, matches Q (f a) (g a)) -> matches Q (x ≫= f) (y ≫= g).
Proof.
  intros Hx Hf. apply (matches_bind eq); [|by intros a ? <-]. intros m a m1 E. exists a. by rewrite <- Hx.
Qed.
Lemma matches_ret {A} (Q : A -> A -> Prop) a a' : Q a a' -> matches Q (mret a) (mret a').
Proof. intros HQ m b m1 [= <- <-]. by exists a'. Qed.
Lemma matches_fail {A} (Q : A -> A -> Prop) e y : matches Q (hfail e) y.
Proof. by intros m a m1. Qed.

Section Statements.
Context (fe : FloatEnv) (dialect : option (string -> option OpDef)) (decls : Buffers).

Lemma core_eval e i i' Γ Γ' : core i i' -> locals_env (hi_locals i) Γ -> locals_env (hi_locals i') Γ' ->
  subgroup_free e = true -> scoped_expr dialect decls Γ e = true -> scoped_expr dialect decls Γ' e = true ->
  forall m, eval_expr fe dialect [] e (snapshot i) m = eval_expr fe dialect [] e (snapshot i') m.
Proof.
  intros Hc Hl Hl'. apply eval_same; [apply Hc|by apply locals_env_bound..|].
  intros x v v'. eapply included_compat, frames_included, Hc.
Qed.

Lemma bind_sim i i' x v : core i i' -> lo_locals (hi_locals i') !! x = None ->
  matches core (l ← hlift (bind (hi_locals i) x v); mret (with_locals i l))
    (l ← hlift (bind (hi_locals i') x v); mret (with_locals i' l)).
Proof.
  intros Hc Hx' m a m1 H. unfold bind in *. rewrite Hx'. destruct (lo_locals (hi_locals i) !! x) eqn:Hx; [done|].
  injection H as <- <-. eexists. split; [done|]. destruct Hc. split; try done. by apply frames_bind.
Qed.
Lemma insert_alter (l : Locals) x v w : l !! x = Some w -> <[x := v]> l = alter (fun _ => v) x l.
Proof.
  intros Hx. apply map_eq. intros y. destruct (decide (x = y)) as [<-|Hne].
  - by rewrite lookup_insert_eq, lookup_alter_eq, Hx.
  - by rewrite lookup_insert_ne, lookup_alter_ne.
Qed.
Lemma assign_sim i i' Γ' x v : core i i' -> locals_env (hi_locals i') Γ' -> Γ' !! x = Some true ->
  matches core (l ← hlift (assign (hi_locals i) x v); mret (with_locals i l))
    (l ← hlift (assign (hi_locals i') x v); mret (with_locals i' l)).
Proof.
  intros Hc Hl' Hx' m a m1 H. destruct (assign_env _ _ _ v Hl' Hx') as (l1' & E' & _). rewrite E'.
  unfold assign in *. destruct (lo_locals (hi_locals i) !! x) as [w|] eqn:Ex; [|done].
  destruct (lo_locals (hi_locals i') !! x) as [w'|] eqn:Ex'; [|done].
  destruct (default false (lo_immutable (hi_locals i) !! x)); [done|].
  destruct (default false (lo_immutable (hi_locals i') !! x)); [done|]. injection H as <- <-. injection E' as <-.
  eexists. split; [done|]. destruct Hc. split; try done. cbn. rewrite (insert_alter _ _ _ _ Ex), (insert_alter _ _ _ _ Ex').
  by apply frames_alter.
Qed.
Lemma enter_sim i i' path path' nodes nodes' : core i i' -> T nodes nodes' ->
  core (enter i path nodes) (enter i' path' nodes').
Proof. intros [] HT. split; try done. by eapply (fr_nodes []); [eapply frames_included|..]. Qed.
Lemma check_sim i i' c c' (b b' : bool) : core i i' ->
  core (if b then with_check i c else i) (if b' then with_check i' c' else i').
Proof. by destruct b, b'; intros []. Qed.
Lemma loop_sim i i' path path' var a b body body' : core i i' -> T body body' ->
  core (push_frame i (FrLoop path var a b body)) (push_frame i' (FrLoop path' var a b body')).
Proof. intros [] HT. split; try done. by apply fr_loop. Qed.
Lemma return_sim i i' : core i i' -> core (return_now i) (return_now i').
Proof. intros []. split; try done. by eapply fr_nil, frames_included. Qed.

Lemma assigns_scoped (Γ : Env) x : negb (declared decls x) = true ->
  match Γ !! x with Some mutable => mutable | None => declared_storage decls x end = true -> Γ !! x = Some true.
Proof.
  intros Hd Hx. destruct (Γ !! x) as [m|]; [by rewrite Hx|]. unfold declared_storage, declared in *. by destruct (decls !! x).
Qed.

Local Ltac operand :=
  match goal with
  | |- matches _ (eval_expr _ _ _ _ _ ≫= _) _ => apply matches_same; [by eapply core_eval|intros ?]
  | |- matches _ (hlift (to_index _ _) ≫= _) _ => apply matches_same; [done|intros ?]
  end.
Lemma exec_sim n n' id id' i i' Γ Γ' Γ1 Γ1' : alike n n' -> core i i' ->
  locals_env (hi_locals i) Γ -> locals_env (hi_locals i') Γ' -> plain_node decls n = true ->
  scope_node dialect decls n Γ = Some Γ1 -> scope_node dialect decls n' Γ' = Some Γ1' ->
  matches core (exec_node fe dialect [] n id i) (exec_node fe dialect [] n' id' i').
Proof.
  intros Ha Hc Hl Hl' Hp Hs Hs'. destruct n, n'; cbn [alike] in Ha; try done; try (injection Ha; intros; subst);
    cbn [exec_node scope_node plain_node] in *; rewrite ?andb_true_iff in Hp; try done; try apply matches_fail.
  - apply provided_Some in Hs as [[He _]%andb_true_iff _].
    apply provided_Some in Hs' as [[He' Hx%bool_decide_eq_true]%andb_true_iff _]. operand.
    apply bind_sim; [done|]. specialize (Hl' name0). destruct (lo_locals _ !! name0); [congruence|done].
  - apply provided_Some in Hs as [[He _]%andb_true_iff _]. apply provided_Some in Hs' as [[He' Hx]%andb_true_iff _].
    destruct Hp as [Hd Hp]. operand. eapply assign_sim; [done..|]. by apply assigns_scoped.
  - apply provided_Some in Hs as [[[_ Hi]%andb_true_iff Hv]%andb_true_iff _].
    apply provided_Some in Hs' as [[[_ Hi']%andb_true_iff Hv']%andb_true_iff _]. destruct Hp. do 3 operand.
    repeat (apply matches_same; [done|intros ?]). by apply matches_ret.
  - apply provided_Some in Hs as [He _]. apply provided_Some in Hs' as [He' _].
    destruct Ha as (<- & Ht & Ho), Hp as [[Hpc _] _]. operand. cbv zeta. apply matches_ret.
    apply enter_sim; [by apply check_sim|]. by destruct (Value.truthy a).
  - apply provided_Some in Hs as [[[Hb Hb2]%andb_true_iff _]%andb_true_iff _].
    apply provided_Some in Hs' as [[[Hb' Hb2']%andb_true_iff _]%andb_true_iff _].
    destruct Ha as (<- & <- & <- & Hbody), Hp as [[Hpa Hpb] _]. do 4 operand. by apply matches_ret, loop_sim.
  - apply matches_same; [done|]. intros ?. apply matches_fail.
  - by apply matches_ret, return_sim.
  - apply matches_ret. by destruct Hc.
  - by apply matches_ret, enter_sim.
  - destruct Ha as (_ & _ & Hbody). by apply matches_ret, enter_sim.
Qed.
End Statements.

(** *** One step *)

Section Steps.
Context (fe : FloatEnv) (dialect : option (string -> option OpDef)) (decls : Buffers) {Htrim : Trims}.

(** The invocation once the statement at [index] has been taken. *)
Definition taken (i : HashmapInvocation) (fs : list NodeFrame) (path : list nat) (nodes : list Node) (index : nat)
    (scoped : bool) : HashmapInvocation :=
  push_frame (with_frames i fs) (FrNodes path nodes (S index) scoped).

(** What the statement at hand and the rest leave. *)
Lemma core_shift i i' path nodes index scoped fs n : hi_frames i = FrNodes path nodes index scoped :: fs ->
  nodes !! index = Some n -> core i i' -> exists out, T (n :: drop (S index) nodes) out
  /\ forall pre2 index2 out2, T (drop index2 nodes) out2 -> pre2 ++ out2 = out ->
       frames_rel pre2 (FrNodes path nodes index2 scoped :: fs) (lo_scopes (hi_locals i)) (lo_locals (hi_locals i))
         (hi_frames i') (lo_scopes (hi_locals i')) (lo_locals (hi_locals i')).
Proof.
  intros Hfr Hn [_ _ _ H]. rewrite Hfr in H. apply frames_shift in H as (out & HT & Hall). rewrite (drop_S _ _ _ Hn) in HT.
  exists out. split; [done|]. intros pre2 index2 out2 HT2 Heq. by eapply Hall.
Qed.

Lemma target_next i' n' fs s l : frames_rel [n'] fs s l (hi_frames i') (lo_scopes (hi_locals i')) (lo_locals (hi_locals i')) ->
  exists path' nodes' index' scoped' fs', hi_frames i' = FrNodes path' nodes' index' scoped' :: fs' /\ nodes' !! index' = Some n'
  /\ frames_rel [] fs s l (FrNodes path' nodes' (S index') scoped' :: fs') (lo_scopes (hi_locals i')) (lo_locals (hi_locals i'))
  /\ forall m i1' m1, exec_node fe dialect [] n' (path' ++ [index']) (taken i' fs' path' nodes' index' scoped') m = Ok (i1', m1) ->
       step_frames fe dialect [] (hi_frames i') i' m = Ok (i1', m1).
Proof.
  intros H. apply frames_next in H as (path' & nodes' & index' & scoped' & fs' & E & Hn & H).
  exists path', nodes', index', scoped', fs'. split_and!; [done..|]. intros m i1' m1 Hx. rewrite E. cbn [step_frames]. cbv zeta.
  unfold step_nodes_frame. rewrite Hn. unfold mbind, HM_bind. fold (taken i' fs' path' nodes' index' scoped'). by rewrite Hx.
Qed.

Definition stutters (i1 : HashmapInvocation) (i' : HashmapInvocation) (m m1 : HashmapMemory) : Prop := m1 = m /\ core i1 i'.
Definition moves (i1 i' : HashmapInvocation) (m m1 : HashmapMemory) : Prop :=
  exists i1', step_frames fe dialect [] (hi_frames i') i' m = Ok (i1', m1) /\ core i1 i1'.

Lemma step_return i i' i1 fs s l m : frames_rel [Node.Return] fs s l (hi_frames i') (lo_scopes (hi_locals i')) (lo_locals (hi_locals i')) ->
  core i i' -> l = lo_locals (hi_locals i) -> i1 = return_now (with_frames i []) -> moves i1 i' m m.
Proof.
  intros H [Hi Hr Hw _] -> ->. apply target_next in H as (path' & nodes' & index' & scoped' & fs' & _ & _ & H & Hstep).
  eexists. split; [by apply Hstep|]. split; [done..|]. by eapply fr_nil, frames_included.
Qed.

Lemma const_truth_value c b snapshots l m v m1 : const_truth c = Some b ->
  eval_expr fe dialect snapshots c l m = Ok (v, m1) -> m1 = m /\ Value.truthy v = b.
Proof.
  destruct c; cbn [const_truth]; try done; intros [= <-] [= <- <-]; (split; [done|]); cbn; try done.
  - destruct (0 <=? value) eqn:E; [done|]. destruct (value =? 0) eqn:E2; lia.
  - by destruct value.
Qed.
Lemma const_loop_values a b snapshots l m v w m1 m2 x y : const_loop_empty a b = true ->
  eval_expr fe dialect snapshots a l m = Ok (v, m1) -> eval_expr fe dialect snapshots b l m1 = Ok (w, m2) ->
  Value.try_as_u32 v = Some x -> Value.try_as_u32 w = Some y -> m2 = m /\ y <= x.
Proof.
  destruct a, b; cbn [const_loop_empty]; try done; intros Hle%Z.leb_le [= <- <-] [= <- <-]; cbn;
    repeat case_match; intros; simplify_eq; (split; [done|lia]).
Qed.

(** The source enters a list that has no frame of its own in the target. *)
Lemma inline_core i' path nodes pre fs s l : dropping = false -> T nodes pre ->
  frames_rel pre fs s l (hi_frames i') (lo_scopes (hi_locals i')) (lo_locals (hi_locals i')) -> fs <> [] ->
  frames_rel [] (FrNodes path nodes 0 true :: fs) ([] :: s) l (hi_frames i') (lo_scopes (hi_locals i')) (lo_locals (hi_locals i')).
Proof.
  intros Hd HT H Hne. eapply (fr_inline []); [done|by eapply frames_included| |exact HT|exact H].
  intros E. by apply Hne, (frames_empty _ _ _ _ _ _ _ H).
Qed.

Lemma runs_step i i' n pre path nodes index scoped fs id m i1 m1 : core i i' -> dropping = false -> runs_as n pre ->
  frames_rel pre (FrNodes path nodes (S index) scoped :: fs) (lo_scopes (hi_locals i)) (lo_locals (hi_locals i))
    (hi_frames i') (lo_scopes (hi_locals i')) (lo_locals (hi_locals i')) ->
  exec_node fe dialect [] n id (taken i fs path nodes index scoped) m = Ok (i1, m1) -> stutters i1 i' m m1.
Proof.
  intros [Hi Hr Hw _] Hd Hruns H Hx. destruct n; cbn [runs_as] in Hruns; try done; cbn [exec_node] in Hx.
  - destruct Hruns as (b & Hb & HT). unfold mbind, HM_bind in Hx. destruct (eval_expr _ _ _ _ _ m) as [[v m2]|] eqn:E; [|done].
    destruct (const_truth_value _ _ _ _ _ _ _ Hb E) as [-> Hv]. rewrite Hv in Hx. injection Hx as <- <-. split; [done|].
    pose proof (inline_core _ (id ++ [if b then 0%nat else 1%nat]) _ _ _ _ _ Hd HT H) as Hf.
    destruct (contains_barrier _ || _); split; try done; by apply Hf.
  - destruct Hruns as [He ->]. unfold mbind, HM_bind, hlift, to_index, ok_or in Hx.
    destruct (eval_expr _ _ _ from _ m) as [[v m2]|] eqn:E1; [|done].
    destruct (Value.try_as_u32 v) as [x|] eqn:Ex; [|done].
    destruct (eval_expr _ _ _ to _ m2) as [[w m3]|] eqn:E2; [|done].
    destruct (Value.try_as_u32 w) as [y|] eqn:Ey; [|done]. injection Hx as <- <-.
    destruct (const_loop_values _ _ _ _ _ _ _ _ _ _ _ He E1 E2 Ex Ey) as [-> Hle]. split; [done|]. split; try done.
    apply fr_skip; [done..| |done]. intros Hne. by apply (frames_empty _ _ _ _ _ _ _ H) in Hne.
  - destruct Hruns as [-> HT]. injection Hx as <- <-. split; [done|]. split; try done. by eapply inline_core.
Qed.
Lemma drop_step i i' x e path nodes index scoped fs id m i1 m1 : core i i' -> dropping = true ->
  expr_has_effect e = false -> subgroup_free e = true ->
  frames_rel [] (FrNodes path nodes (S index) scoped :: fs) (lo_scopes (hi_locals i)) (lo_locals (hi_locals i))
    (hi_frames i') (lo_scopes (hi_locals i')) (lo_locals (hi_locals i')) ->
  exec_node fe dialect [] (Node.Let x e) id (taken i fs path nodes index scoped) m = Ok (i1, m1) -> stutters i1 i' m m1.
Proof.
  intros [Hi Hr Hw _] Hd He Hf H Hx. cbn [exec_node] in Hx. unfold mbind, HM_bind in Hx.
  destruct (eval_expr _ _ _ _ _ m) as [[v m2]|] eqn:E; [|done]. apply (pure_keeps _ _ _ _ He Hf) in E as ->.
  cbn in Hx. unfold bind in Hx. destruct (lo_locals (hi_locals i) !! x) eqn:Ex; [done|]. injection Hx as <- <-.
  split; [done|]. split; try done. by apply frames_bind_source.
Qed.
Lemma alike_step i i' n n' path nodes index scoped fs m i1 m1 : hi_frames i = FrNodes path nodes index scoped :: fs ->
  nodes !! index = Some n -> core i i' -> inv_scoped dialect decls i -> inv_scoped dialect decls i' -> alike n n' ->
  frames_rel [n'] (FrNodes path nodes (S index) scoped :: fs) (lo_scopes (hi_locals i)) (lo_locals (hi_locals i))
    (hi_frames i') (lo_scopes (hi_locals i')) (lo_locals (hi_locals i')) ->
  exec_node fe dialect [] n (path ++ [index]) (taken i fs path nodes index scoped) m = Ok (i1, m1) -> moves i1 i' m m1.
Proof.
  intros Hfr Hn [Hi Hr Hw _] (Γ & Hl & Hf) (Γ' & Hl' & Hf') Ha H Hx.
  apply target_next in H as (path' & nodes' & index' & scoped' & fs' & Hfr' & Hn' & H & Hstep).
  rewrite Hfr in Hf. rewrite Hfr' in Hf'. destruct (frames_step _ _ _ _ _ _ _ _ _ _ Hn Hf) as (Γ1 & Hp & Hs & _).
  destruct (frames_step _ _ _ _ _ _ _ _ _ _ Hn' Hf') as (Γ1' & _ & Hs' & _).
  eapply exec_sim in Hx as (i1' & Hx' & Hc); [|exact Ha| |exact Hl| |exact Hp|exact Hs|exact Hs'].
  - exists i1'. split; [by apply Hstep, Hx'|exact Hc].
  - by split.
  - exact Hl'.
Qed.

Lemma node_step i i' n path nodes index scoped fs m i1 m1 : hi_frames i = FrNodes path nodes index scoped :: fs ->
  nodes !! index = Some n -> core i i' -> inv_scoped dialect decls i -> inv_scoped dialect decls i' ->
  exec_node fe dialect [] n (path ++ [index]) (taken i fs path nodes index scoped) m = Ok (i1, m1) ->
  stutters i1 i' m m1 \/ moves i1 i' m m1.
Proof.
  intros Hfr Hn Hc Hi Hi' Hx. destruct (core_shift _ _ _ _ _ _ _ _ Hfr Hn Hc) as (out & HT & Hall).
  destruct (trims_cons _ _ _ HT) as [[-> ->]|[(x & e & -> & Hd & He & HT2)|[(pre & out2 & -> & Hd & Hruns & HT2)|(n' & out2 & -> & Ha & HT2)]]].
  - injection Hx as <- <-. right. eapply step_return; [|exact Hc|reflexivity|reflexivity].
    apply (Hall _ (length nodes) []); [|done]. rewrite drop_all. by apply trims_nil.
  - left. eapply drop_step; [done..| |by apply (Hall [] (S index) out)|exact Hx].
    destruct Hi as (Γ & _ & Hf). rewrite Hfr in Hf. by destruct (frames_step _ _ _ _ _ _ _ _ _ _ Hn Hf) as (_ & Hp & _).
  - left. by eapply runs_step; [..|apply (Hall pre (S index) out2)|].
  - right. by eapply alike_step; [..|apply (Hall [n'] (S index) out2)|].
Qed.

Lemma pop_scope_dels l names scopes : lo_scopes l = names :: scopes ->
  lo_locals (pop_scope l) = dels (lo_locals l) names /\ lo_scopes (pop_scope l) = scopes.
Proof. intros E. unfold pop_scope. by rewrite E. Qed.
Lemma frames_end path nodes index scoped fs s l fs' s' l' : nodes !! index = None ->
  frames_rel [] (FrNodes path nodes index scoped :: fs) s l fs' s' l' ->
  (scoped = false /\ fs = [] /\ exists path' nodes' index', fs' = [FrNodes path' nodes' index' false] /\ nodes' !! index' = None)
  \/ (scoped = true /\ exists names r path' nodes' index' gs' names' r', s = names :: r /\ s' = names' :: r'
       /\ fs' = FrNodes path' nodes' index' true :: gs' /\ nodes' !! index' = None
       /\ frames_rel [] fs r (dels l names) gs' r' (dels l' names'))
  \/ (scoped = true /\ exists names r, s = names :: r /\ frames_rel [] fs r (dels l names) fs' s' l').
Proof.
  intros Hn H. rewrite lookup_ge_None in Hn.
  assert (forall nodes' index', drop index' nodes' = [] -> (nodes' : list Node) !! index' = None) as Hend.
  { intros nodes' index' Hd. by rewrite <- (Nat.add_0_r index'), <- lookup_drop, Hd. }
  inversion H; subst; match goal with HT : T _ _ |- _ => rewrite drop_ge in HT by done; apply trims_nil in HT as -> end.
  - left. split_and!; [done..|]. by eauto 10.
  - right. left. split; [done|]. do 8 eexists. split_and!; eauto.
  - right. right. split; [done|]. by eauto.
Qed.
Lemma end_step i i' path nodes index scoped fs m i1 m1 : hi_frames i = FrNodes path nodes index scoped :: fs ->
  nodes !! index = None -> core i i' -> step_frames fe dialect [] (hi_frames i) i m = Ok (i1, m1) ->
  stutters i1 i' m m1 \/ moves i1 i' m m1.
Proof.
  intros Hfr Hn [Hi Hr Hw H] Hx. rewrite Hfr in H, Hx. cbn [step_frames] in Hx. unfold step_nodes_frame in Hx. rewrite Hn in Hx.
  pose proof (frames_included _ _ _ _ _ _ _ H) as Hl. apply (frames_end _ _ _ _ _ _ _ _ _ _ Hn) in H
    as [(-> & -> & path' & nodes' & index' & Hfr' & Hn')|[(-> & names & r & path' & nodes' & index' & gs' & names' & r' & Es & Es' & Hfr' & Hn' & H)
       |(-> & names & r & Es & H)]]; injection Hx as <- <-.
  - right. unfold moves. rewrite Hfr'. cbn [step_frames]. unfold step_nodes_frame. rewrite Hn'. eexists. split; [done|].
    split; try done. by apply fr_nil.
  - right. unfold moves. rewrite Hfr'. cbn [step_frames]. unfold step_nodes_frame. rewrite Hn'. eexists. split; [done|].
    split; try done. cbn. destruct (pop_scope_dels _ _ _ Es) as [-> ->]. by destruct (pop_scope_dels _ _ _ Es') as [-> ->].
  - left. split; [done|]. split; try done. cbn. by destruct (pop_scope_dels _ _ _ Es) as [-> ->].
Qed.

Lemma frames_loop path var next to body fs s l fs' s' l' :
  frames_rel [] (FrLoop path var next to body :: fs) s l fs' s' l' ->
  (exists path' body' gs', fs' = FrLoop path' var next to body' :: gs' /\ T body body' /\ frames_rel [] fs s l gs' s' l')
  \/ (to <= next /\ frames_rel [] fs s l fs' s' l').
Proof. intros H. inversion H; subst; eauto 10. Qed.
Lemma loop_step i i' path var next to body fs m i1 m1 : hi_frames i = FrLoop path var next to body :: fs ->
  core i i' -> inv_scoped dialect decls i' -> step_frames fe dialect [] (hi_frames i) i m = Ok (i1, m1) ->
  stutters i1 i' m m1 \/ moves i1 i' m m1.
Proof.
  intros Hfr [Hi Hr Hw H] (Γ' & Hl' & Hf') Hx. rewrite Hfr in H, Hx. cbn [step_frames] in Hx. unfold step_loop_frame in Hx.
  apply frames_loop in H as [(path' & body' & gs' & Hfr' & HT & H)|[Hle H]].
  - right. unfold moves. rewrite Hfr'. cbn [step_frames]. unfold step_loop_frame. destruct (to <=? next).
    { injection Hx as <- <-. eexists. split; [done|]. by split. }
    rewrite Hfr' in Hf'. destruct Hf' as (_ & Hx' & _). pose proof (Hl' var) as Hv'.
    unfold bind_loop_var, bind in *. cbn [push_scope push_frame with_frames hi_locals lo_locals lo_scopes lo_immutable] in *.
    destruct (lo_locals (hi_locals i') !! var) eqn:Ev'; [congruence|].
    destruct (lo_locals (hi_locals i) !! var) eqn:Ev; [done|]. injection Hx as <- <-. eexists. split; [done|].
    split; try done. cbn. eapply (fr_nodes []); [by eapply included_insert, frames_included|exact HT|done|].
    pose proof (dels_insert _ [] _ (Value.U32 next) Ev) as E. pose proof (dels_insert _ [] _ (Value.U32 next) Ev') as E'.
    cbn [app dels foldl] in E, E'. cbn [dels foldl]. rewrite E, E'. by apply fr_loop.
  - left. rewrite (proj2 (Z.leb_le to next) Hle) in Hx. injection Hx as <- <-. split; [done|]. by split.
Qed.

(** *** The simulation *)

Definition trim_rel (i i' : HashmapInvocation) : Prop :=
  core i i' /\ inv_scoped dialect decls i /\ inv_scoped dialect decls i'.

Lemma frames_step_sim i i' m i1 m1 : core i i' -> inv_scoped dialect decls i -> inv_scoped dialect decls i' ->
  hi_frames i <> [] -> step_frames fe dialect [] (hi_frames i) i m = Ok (i1, m1) -> stutters i1 i' m m1 \/ moves i1 i' m m1.
Proof.
  intros Hc Hi Hi' Hne Hx. destruct (hi_frames i) as [|[path nodes index scoped|path var next to body] fs] eqn:Hfr; [done|..].
  - destruct (nodes !! index) as [n|] eqn:Hn; [|rewrite <- Hfr in Hx; by eapply end_step].
    eapply node_step; [done..|]. cbn [step_frames] in Hx. unfold step_nodes_frame in Hx. rewrite Hn in Hx.
    unfold mbind, HM_bind in Hx. fold (taken i fs path nodes index scoped) in Hx.
    by destruct (exec_node _ _ _ _ _ _ m) as [[i2 m2]|].
  - rewrite <- Hfr in Hx. by eapply loop_step.
Qed.

Lemma core_status i i' : core i i' -> done i = done i' /\ hi_waiting i = hi_waiting i'.
Proof.
  intros [_ Hr Hw H]. apply frames_empty in H. unfold done. rewrite Hr, Hw.
  destruct (hi_frames i), (hi_frames i'); naive_solver.
Qed.
#[export] Instance trim_simulation : LaneSimulation fe dialect decls trim_rel.
Proof.
  split.
  - intros i i' (Hc & _). by apply core_status.
  - by intros i i' w ([] & Hi & Hi').
  - intros i i' m i1 m1 (Hc & Hi & Hi') Hm Hidle Hx. unfold step in Hx. rewrite Hidle in Hx.
    assert (hi_frames i <> []) as Hne.
    { intros E. unfold done in Hidle. rewrite E in Hidle. by destruct (hi_returned i). }
    assert (forall j, inv_scoped dialect decls j -> named dialect decls (inv_scoped dialect decls) (step_frames fe dialect [] (hi_frames j) j)) as Hnamed.
    { intros j (Γ & Hl & Hf). by eapply step_frames_named. }
    pose proof (Hnamed i Hi m Hm) as Hi1. rewrite Hx in Hi1. destruct Hi1 as [Hi1 Hm1].
    destruct (frames_step_sim _ _ _ _ _ Hc Hi Hi' Hne Hx) as [[-> Hc1]|(i1' & Hx' & Hc1)]; [by left|]. right. exists i1'.
    pose proof (Hnamed i' Hi' m Hm) as Hi1'. rewrite Hx' in Hi1'. destruct Hi1' as [Hi1' _]. split; [|done]. unfold step.
    destruct (core_status _ _ Hc) as [<- <-]. by rewrite Hidle.
Qed.

Lemma trim_start ids k nodes nodes' : T nodes nodes' ->
  forallb (plain_node decls) nodes = true -> is_Some (scope_nodes dialect decls nodes ∅) ->
  forallb (plain_node decls) nodes' = true -> is_Some (scope_nodes dialect decls nodes' ∅) ->
  trim_rel (invocation_new ids k nodes) (invocation_new ids k nodes').
Proof.
  intros HT Hp Hs Hp' Hs'. split_and!; [split; [done..|]|exists ∅; by split; [apply locals_env_new|split_and!]..].
  eapply (fr_entry []); [|exact HT|done]. unfold included. by destruct dropping.
Qed.
End Steps.
End Trim.
