(* ===== verification/DeadCodeSound.v ===== *)
(** Dead-code elimination is sound.

    Both walks of the pass trim their statements in the sense of [Trims]; dropping dead
    bindings keeps every name resolved, and so does unfolding conditionals as long as the
    bindings of the program have different names.  The programs at the end show what the
    pass does outside these conditions. *)

From S2P Require Import Prelude Float Spec IR RefValue RefMemory RefEval RefHash RefSched RefSchedSound RefWorkgroup.
From S2P Require Import StrengthReduce ValidateExpr Validate Scoping RefDispatch RefDispatchSound ScopingSound.
From S2P Require Import ConstFoldGaps DeadCode DeadCodeSim.

(** ** The two walks trim *)

Definition drops (nodes out : list Node) : Prop := exists live, out = lr_nodes (eliminate_dead_lets nodes live).
Definition unfolds (nodes out : list Node) : Prop := out = eliminate_unreachable nodes.

Lemma return_or_not n : n = Node.Return \/ n <> Node.Return.
Proof. destruct n; by (left; reflexivity) || right. Qed.
Lemma dead_lets_cons n nodes live : n <> Node.Return ->
  eliminate_dead_lets (n :: nodes) live = dead_lets_node n (eliminate_dead_lets nodes live).
Proof. by destruct n. Qed.
Lemma unreachable_cons n nodes : n <> Node.Return ->
  eliminate_unreachable (n :: nodes) = unreachable_node n ++ eliminate_unreachable nodes.
Proof. by destruct n. Qed.

#[export] Instance drops_trims : Trims true drops.
Proof.
  split.
  - intros out. split; [by intros [live ->]|]. intros ->. by exists ∅.
  - intros n rest out [live ->]. destruct (return_or_not n) as [->|Hn]; [by left|]. right.
    rewrite dead_lets_cons by done. unfold drops. destruct (eliminate_dead_lets rest live) as [kept live1] eqn:E.
    assert (kept = lr_nodes (eliminate_dead_lets rest live)) as Hk by (by rewrite E).
    destruct n; cbn [dead_lets_node];
      try (right; right; do 2 eexists; split; [reflexivity|]; split; [cbn [alike]; eauto 6|by exists live]; fail).
    destruct (negb (bool_decide (name ∈ live1)) && negb (expr_has_effect value)) eqn:Ed.
    + left. apply andb_true_iff in Ed as [_ He%negb_true_iff]. do 2 eexists. split_and!; [done..|by exists live].
    + right; right. do 2 eexists. split; [reflexivity|]. split; [done|by exists live].
Qed.
#[export] Instance unfolds_trims : Trims false unfolds.
Proof.
  split; [by intros out|]. intros n rest out ->. destruct (return_or_not n) as [->|Hn]; [by left|]. right. right.
  rewrite unreachable_cons by done. unfold unfolds.
  destruct n; cbn [unreachable_node];
    try (right; do 2 eexists; split; [reflexivity|]; split; [cbn [alike]|]; done).
  - destruct (const_truth cond) as [[]|] eqn:E.
    + left. do 2 eexists. split; [reflexivity|]. split_and!; [done|by exists true|done].
    + left. do 2 eexists. split; [reflexivity|]. split_and!; [done|by exists false|done].
    + right. do 2 eexists. split; [reflexivity|]. by split.
  - destruct (const_loop_empty from to) eqn:E.
    + left. exists [], (eliminate_unreachable rest). by split_and!.
    + right. do 2 eexists. split; [reflexivity|]. by split.
  - change (unreachable_with unreachable_node body) with (eliminate_unreachable body).
    destruct (eliminate_unreachable body) as [|n nodes] eqn:E.
    + left. exists [], (eliminate_unreachable rest). by split_and!.
    + right. do 2 eexists. split; [reflexivity|]. split; [|done]. cbn [alike]. by rewrite <- E.
Qed.

(** ** Names after dropping bindings *)

Section Static.
Context (dialect : option (string -> option OpDef)) (decls : Buffers).
Abbreviation scope_of := (scope_nodes dialect decls).
Abbreviation plain := (fun nodes => forallb (plain_node decls) nodes = true).

Lemma scoped_refs (Γ Γ' : Env) e : subgroup_free e = true -> scoped_expr dialect decls Γ e = true ->
  (forall x, x ∈ refs e -> is_Some (Γ !! x) -> is_Some (Γ' !! x)) -> scoped_expr dialect decls Γ' e = true.
Proof.
  induction e using Expr_ind'; cbn [subgroup_free scoped_expr refs]; rewrite ?andb_true_iff; intros Hf Hs Hx;
    destruct_and?; rewrite ?andb_true_iff; split_and?; try done;
    try match goal with IH : _ -> _ -> _ -> scoped_expr _ _ _ ?e = true |- scoped_expr _ _ _ ?e = true =>
      apply IH; [done..|]; intros x He; apply Hx; rewrite ?elem_of_union; tauto end.
  - rewrite bool_decide_eq_true in *. apply Hx; [set_solver|done].
  - rewrite forallb_forall in *. intros a Ha. rewrite Forall_forall in H. apply H; auto; [by apply list_elem_of_In|].
    intros x Hxa. apply Hx, elem_of_union_list. exists (refs a). split; [|done]. by apply list_elem_of_In, in_map.
  - destruct e2 as [y|]; [|done]. cbn [Forall_opt] in H. apply H; try done. intros x Hy. apply Hx. set_solver.
Qed.

Lemma scope_node_grows n Γ Γ1 : scope_node dialect decls n Γ = Some Γ1 -> Γ ⊆ Γ1.
Proof.
  destruct n; cbn [scope_node]; try (by intros [= <-]); try (by intros [_ [= <-]]%provided_Some);
    try (by intros [_ ->]%leaves_Some).
  - intros [[_ Hx%bool_decide_eq_true]%andb_true_iff [= <-]]%provided_Some. by apply insert_subseteq.
  - intros [_ H]%provided_Some. destruct (leaves _ Γ) as [Γ2|] eqn:E; [|done]. apply leaves_Some in E as [_ ->].
    by apply leaves_Some in H as [_ ->].
  - by intros [_ [_ ->]%leaves_Some]%provided_Some.
Qed.
Lemma scope_cons n nodes Γ Γ2 : scope_of (n :: nodes) Γ = Some Γ2 <->
  exists Γ1, scope_node dialect decls n Γ = Some Γ1 /\ scope_of nodes Γ1 = Some Γ2.
Proof.
  unfold scope_nodes. rewrite scope_list_cons. destruct (scope_node dialect decls n Γ) as [Γ1|]; cbn.
  - split; [by eauto|]. by intros (? & [= <-] & ?).
  - split; [done|]. by intros (? & ? & ?).
Qed.
Lemma scope_app l k Γ Γ2 : scope_of (l ++ k) Γ = Some Γ2 <-> exists Γ1, scope_of l Γ = Some Γ1 /\ scope_of k Γ1 = Some Γ2.
Proof.
  revert Γ. induction l as [|n l IH]; intros Γ; cbn [app].
  - split; [by exists Γ|]. by intros (? & [= <-] & ?).
  - rewrite scope_cons. setoid_rewrite IH. setoid_rewrite scope_cons. naive_solver.
Qed.

Definition agree (names : gset string) (Γ Γ' : Env) : Prop := forall x, x ∈ names -> Γ !! x = Γ' !! x.
Lemma agree_mono names names' Γ Γ' : agree names' Γ Γ' -> names ⊆ names' -> agree names Γ Γ'.
Proof. intros H Hs x Hx. by apply H, Hs. Qed.
Lemma agree_scoped names Γ Γ' e : agree names Γ Γ' -> refs e ⊆ names -> subgroup_free e = true ->
  scoped_expr dialect decls Γ e = true -> scoped_expr dialect decls Γ' e = true.
Proof. intros Ha Hr Hf Hs. eapply scoped_refs; [done..|]. intros x Hx. by rewrite (Ha x) by (by apply Hr). Qed.

(** What is left of a statement is in scope where its live names agree, and leaves the
    names live after it agreed on. *)
Definition head_ok (Γ Γ' Γ1 : Env) (live : gset string) (head : list Node) : Prop := exists Γ1',
  scope_of head Γ' = Some Γ1' /\ Γ1' ⊆ Γ1 /\ agree live Γ1 Γ1' /\ (forall x, is_Some (Γ !! x) -> Γ1' !! x = Γ' !! x).
Definition node_ok (n : Node) : Prop := forall kept live Γ Γ' Γ1, plain_node decls n = true ->
  scope_node dialect decls n Γ = Some Γ1 -> Γ' ⊆ Γ ->
  agree (lr_live_in (dead_lets_node n (mkLiveResult kept live))) Γ Γ' ->
  exists head, lr_nodes (dead_lets_node n (mkLiveResult kept live)) = head ++ kept /\ head_ok Γ Γ' Γ1 live head.

Lemma same_head Γ Γ' live n : Γ' ⊆ Γ -> agree live Γ Γ' -> scope_node dialect decls n Γ' = Some Γ' -> head_ok Γ Γ' Γ live [n].
Proof. intros Hs Ha Hn. exists Γ'. split_and!; [|done..]. apply scope_cons. by exists Γ'. Qed.

Lemma list_ok nodes : Forall node_ok nodes -> forall live Γ Γ', plain nodes -> is_Some (scope_of nodes Γ) -> Γ' ⊆ Γ ->
  agree (lr_live_in (eliminate_dead_lets nodes live)) Γ Γ' ->
  is_Some (scope_of (lr_nodes (eliminate_dead_lets nodes live)) Γ') /\ agree live Γ Γ'.
Proof.
  induction 1 as [|n nodes Hn _ IH]; intros live Γ Γ' Hp [Γ2 Hs] Hsub Ha; [by split|].
  cbn [forallb] in Hp. apply andb_true_iff in Hp as [Hpn Hp]. apply scope_cons in Hs as (Γ1 & Hs1 & Hs2).
  destruct (return_or_not n) as [->|Hne]; [by split|]. rewrite dead_lets_cons in * by done.
  destruct (eliminate_dead_lets nodes live) as [kept live1] eqn:E.
  destruct (Hn kept live1 Γ Γ' Γ1 Hpn Hs1 Hsub Ha) as (head & -> & Γ1' & Hh & Hsub1 & Ha1 & Hkeep).
  specialize (IH live Γ1 Γ1' Hp (mk_is_Some _ _ Hs2) Hsub1). rewrite E in IH. destruct (IH Ha1) as [[Γ2' Hs2'] Ha2]. split.
  - exists Γ2'. apply scope_app. by exists Γ1'.
  - intros x Hx. destruct (Γ !! x) as [b|] eqn:Ex.
    + rewrite <- Hkeep by by rewrite Ex. rewrite <- (Ha2 x Hx). symmetry. by eapply lookup_weaken, scope_node_grows.
    + symmetry. destruct (Γ' !! x) as [b|] eqn:Ex'; [|done]. rewrite (lookup_weaken _ _ _ _ Ex' Hsub) in Ex. done.
Qed.

Lemma body_ok n' nodes kept live live2 Γ Γ' Γ1 : nodes = n' :: kept -> Γ1 = Γ ->
  Γ' ⊆ Γ -> agree live2 Γ Γ' -> live ⊆ live2 -> scope_node dialect decls n' Γ' = Some Γ' ->
  exists head, nodes = head ++ kept /\ head_ok Γ Γ' Γ1 live head.
Proof.
  intros E -> Hsub Ha Hl Hs. exists [n']. split; [done|]. apply same_head; [done|by eapply agree_mono|done].
Qed.
Local Ltac scoped_by Ha := eapply (agree_scoped _ _ _ _ Ha); [set_solver|done..].

Lemma let_ok x e : node_ok (Node.Let x e).
Proof.
  intros kept live Γ Γ' Γ1 Hp Hs Hsub. cbn [plain_node scope_node dead_lets_node] in *.
  apply provided_Some in Hs as [[He Hx%bool_decide_eq_true]%andb_true_iff [= <-]].
  destruct (negb (bool_decide (x ∈ live)) && negb (expr_has_effect e)) eqn:Ed; cbn [lr_nodes lr_live_in]; intros Ha.
  - apply andb_true_iff in Ed as [Hd%negb_true_iff%bool_decide_eq_false _]. exists []. split; [done|]. exists Γ'. split_and!; [done|..|done].
    + etrans; [exact Hsub|]. by apply insert_subseteq.
    + intros y Hy. rewrite lookup_insert_ne by congruence. by apply Ha.
  - rewrite collect_refs in Ha. exists [Node.Let x e]. split; [done|].
    assert (Γ' !! x = None) as Hx'.
    { destruct (Γ' !! x) eqn:E; [|done]. by rewrite (lookup_weaken _ _ _ _ E Hsub) in Hx. }
    exists (<[x := true]> Γ'). split_and!.
    + apply scope_cons. exists (<[x := true]> Γ'). split; [|done]. cbn [scope_node].
      rewrite (bool_decide_eq_true_2 _ Hx'), andb_true_r. unfold provided.
      by assert (scoped_expr dialect decls Γ' e = true) as -> by scoped_by Ha.
    + by apply insert_mono.
    + intros y Hy. destruct (decide (x = y)) as [<-|Hne]; [by rewrite !lookup_insert_eq|].
      rewrite !lookup_insert_ne by done. apply Ha. set_solver.
    + intros y [b Hy]. apply lookup_insert_ne. congruence.
Qed.
Lemma loop_ok var a b body : Forall node_ok body -> node_ok (Node.Loop var a b body).
Proof.
  intros Hbody kept live Γ Γ' Γ1 Hp Hs Hsub Ha. cbn [plain_node scope_node dead_lets_node lr_live_in] in *.
  rewrite !andb_true_iff in Hp. destruct Hp as [[Hpa Hpb] Hp].
  apply provided_Some in Hs as [[[Hsa Hsb]%andb_true_iff Hx%bool_decide_eq_true]%andb_true_iff Hs].
  apply leaves_Some in Hs as [Hs ->]. rewrite !collect_refs in Ha.
  change (dead_lets_with dead_lets_node) with eliminate_dead_lets in *.
  assert (Γ' !! var = None) as Hx'.
  { destruct (Γ' !! var) eqn:E; [|done]. by rewrite (lookup_weaken _ _ _ _ E Hsub) in Hx. }
  assert (agree (live ∪ lr_live_in (eliminate_dead_lets body ({[var]} ∪ live))) Γ Γ') as Hall.
  { intros x Hl. destruct (decide (x = var)) as [->|Hne]; [congruence|]. apply Ha. set_solver. }
  destruct (list_ok body Hbody ({[var]} ∪ live) (<[var := false]> Γ) (<[var := false]> Γ') Hp Hs) as [Hs' _].
  { by apply insert_mono. }
  { intros x Hl. destruct (decide (x = var)) as [->|Hne]; [by rewrite !lookup_insert_eq|].
    rewrite !lookup_insert_ne by done. apply Hall. set_solver. }
  eapply body_ok; [reflexivity|done|done|exact Hall|set_solver|]. cbn [scope_node].
  assert (scoped_expr dialect decls Γ' a = true) as -> by scoped_by Ha.
  assert (scoped_expr dialect decls Γ' b = true) as -> by scoped_by Ha. rewrite (bool_decide_eq_true_2 _ Hx').
  destruct Hs' as [Γ2 Hs']. unfold scope_nodes in Hs'. cbn [andb provided]. by rewrite Hs'.
Qed.
Lemma if_ok c t o : Forall node_ok t -> Forall node_ok o -> node_ok (Node.If c t o).
Proof.
  intros Ht Ho kept live Γ Γ' Γ1 Hp Hs Hsub Ha. cbn [plain_node scope_node dead_lets_node lr_live_in] in *.
  rewrite !andb_true_iff in Hp. destruct Hp as [[Hpc Hpt] Hpo]. apply provided_Some in Hs as [Hc Hs].
  destruct (leaves _ Γ) as [Γ2|] eqn:E; [|done]. apply leaves_Some in E as [Hst ->]. apply leaves_Some in Hs as [Hso ->].
  rewrite collect_refs in Ha. change (dead_lets_with dead_lets_node) with eliminate_dead_lets in *.
  destruct (list_ok t Ht live Γ Γ' Hpt Hst Hsub) as [[Γt Ht'] Hl]; [eapply agree_mono; [exact Ha|set_solver]|].
  destruct (list_ok o Ho live Γ Γ' Hpo Hso Hsub) as [[Γo Ho'] _]; [eapply agree_mono; [exact Ha|set_solver]|].
  eapply body_ok; [reflexivity|done|done|exact Hl|done|]. cbn [scope_node].
  assert (scoped_expr dialect decls Γ' c = true) as -> by scoped_by Ha. unfold scope_nodes in *. cbn [provided].
  rewrite Ht'. cbn [leaves mbind option_bind]. by rewrite Ho'.
Qed.
Lemma nested_ok n body : (forall kept live, dead_lets_node n (mkLiveResult kept live)
    = let b := eliminate_dead_lets body live in
      mkLiveResult ((match n with Node.Region g r _ => Node.Region g r | _ => Node.Block end) (lr_nodes b) :: kept) (live ∪ lr_live_in b)) ->
  (forall Γ, scope_node dialect decls n Γ = leaves (scope_of body Γ) Γ) ->
  plain_node decls n = forallb (plain_node decls) body -> Forall node_ok body -> node_ok n.
Proof.
  intros Hn Hsn Hpn Hbody kept live Γ Γ' Γ1 Hp Hs Hsub Ha. rewrite Hpn in Hp. rewrite Hsn in Hs.
  apply leaves_Some in Hs as [Hs ->]. rewrite Hn in Ha. cbn [lr_live_in] in Ha.
  destruct (list_ok body Hbody live Γ Γ' Hp Hs Hsub) as [[Γ2 Hs'] Hl]; [eapply agree_mono; [exact Ha|set_solver]|].
  eapply body_ok; [by rewrite Hn|done|done|exact Hl|done|].
  destruct n; cbn [scope_node]; unfold scope_nodes in Hs'; by rewrite Hs'.
Qed.

Lemma all_ok n : node_ok n.
Proof.
  induction n using Node_ind'; try (by apply let_ok || apply if_ok || apply loop_ok);
    try (by eapply nested_ok);
    intros kept live Γ Γ' Γ1 Hp Hs Hsub Ha; cbn [plain_node scope_node dead_lets_node lr_nodes lr_live_in] in *;
    try done; rewrite ?andb_true_iff in Hp;
    try (apply provided_Some in Hs as [Hd Hs]); injection Hs as <-;
    (eapply body_ok; [reflexivity|done|done|exact Ha|rewrite ?collect_refs; set_solver|]); cbn [scope_node]; try done;
    try (by rewrite Hd); rewrite !collect_refs in Ha.
  - apply andb_true_iff in Hd as [He Hd]. destruct Hp as [Hx Hp].
    assert (scoped_expr dialect decls Γ' e = true) as -> by scoped_by Ha.
    by rewrite <- (Ha n) by set_solver; rewrite Hd.
  - rewrite !andb_true_iff in Hd. destruct Hd as [[-> Hi] Hv], Hp as [Hpi Hpv].
    assert (scoped_expr dialect decls Γ' i = true) as -> by scoped_by Ha.
    by assert (scoped_expr dialect decls Γ' v = true) as -> by scoped_by Ha.
Qed.
Lemma dead_lets_scope nodes live Γ Γ' : plain nodes -> is_Some (scope_of nodes Γ) -> Γ' ⊆ Γ ->
  agree (lr_live_in (eliminate_dead_lets nodes live)) Γ Γ' ->
  is_Some (scope_of (lr_nodes (eliminate_dead_lets nodes live)) Γ').
Proof. intros. eapply list_ok; [apply Forall_true, all_ok|done..]. Qed.

Lemma dead_list_plain nodes live : Forall (fun n => forall after, plain_node decls n = true -> plain (lr_nodes after) ->
    plain (lr_nodes (dead_lets_node n after))) nodes ->
  plain nodes -> plain (lr_nodes (eliminate_dead_lets nodes live)).
Proof.
  induction 1 as [|n nodes Hn _ IH]; [done|]. cbn [forallb]. intros [Hp Hps]%andb_true_iff.
  destruct (return_or_not n) as [->|Hne]; [done|]. rewrite dead_lets_cons by done. auto.
Qed.
Lemma dead_lets_plain nodes live : plain nodes -> plain (lr_nodes (eliminate_dead_lets nodes live)).
Proof.
  apply dead_list_plain, Forall_true. intros n. induction n using Node_ind'; intros [kept l] Hp Hk;
    cbn [plain_node dead_lets_node lr_nodes forallb] in *; rewrite ?Hk, ?andb_true_iff in *; try done;
    change (dead_lets_with dead_lets_node) with eliminate_dead_lets.
  - case_match; cbn [lr_nodes forallb plain_node]; [done|]. by rewrite Hp, Hk.
  - destruct Hp as [[? ?] ?]. by split_and!; [..|apply dead_list_plain|apply dead_list_plain|].
  - destruct Hp as [[? ?] ?]. by split_and!; [..|apply dead_list_plain|].
  - by split; [apply dead_list_plain|].
  - by split; [apply dead_list_plain|].
Qed.

(** ** Names after unfolding conditionals *)

(** The names a statement binds, at any depth. *)
Fixpoint node_binders (n : Node) : list string :=
  match n with
  | Node.Let x _ => [x]
  | Node.If _ t o => flat_map node_binders t ++ flat_map node_binders o
  | Node.Loop x _ _ body => x :: flat_map node_binders body
  | Node.Block body | Node.Region _ _ body => flat_map node_binders body
  | _ => []
  end.
Definition binders : list Node -> list string := flat_map node_binders.

Lemma scope_nodes_grows nodes : forall Γ Γ1, scope_of nodes Γ = Some Γ1 -> Γ ⊆ Γ1.
Proof.
  induction nodes as [|n nodes IH]; intros Γ Γ1; [by intros [= <-]|].
  intros (Γ2 & H1%scope_node_grows & H2%IH)%scope_cons. by etrans.
Qed.
Lemma scoped_mono (Γ Γ' : Env) e : Γ ⊆ Γ' -> subgroup_free e = true -> scoped_expr dialect decls Γ e = true ->
  scoped_expr dialect decls Γ' e = true.
Proof. intros Hs Hf He. eapply scoped_refs; [done..|]. intros x _ [b Hb]. exists b. by eapply lookup_weaken. Qed.

Definition node_unfolds (n : Node) : Prop := forall Γ Γ' Γ1, plain_node decls n = true -> scope_node dialect decls n Γ = Some Γ1 ->
  Γ ⊆ Γ' -> NoDup (node_binders n) -> (forall x, x ∈ node_binders n -> Γ' !! x = None) -> exists Γ1',
  scope_of (unreachable_node n) Γ' = Some Γ1' /\ Γ1 ⊆ Γ1' /\ forall x, x ∉ node_binders n -> Γ1' !! x = Γ' !! x.
Lemma list_unfolds nodes : Forall node_unfolds nodes -> forall Γ Γ', plain nodes -> is_Some (scope_of nodes Γ) ->
  Γ ⊆ Γ' -> NoDup (binders nodes) -> (forall x, x ∈ binders nodes -> Γ' !! x = None) -> exists Γ1',
  scope_of (eliminate_unreachable nodes) Γ' = Some Γ1' /\ Γ' ⊆ Γ1' /\ forall x, x ∉ binders nodes -> Γ1' !! x = Γ' !! x.
Proof.
  induction 1 as [|n nodes Hn _ IH]; intros Γ Γ' Hp [Γ2 Hs] Hsub Hnd Hf; [by exists Γ'|].
  cbn [forallb] in Hp. apply andb_true_iff in Hp as [Hpn Hp]. apply scope_cons in Hs as (Γ1 & Hs1 & Hs2).
  cbn [binders flat_map] in Hnd, Hf |- *. fold (binders nodes) in *. apply NoDup_app in Hnd as (Hnd1 & Hdis & Hnd2).
  destruct (return_or_not n) as [->|Hne]; [by exists Γ'|]. rewrite unreachable_cons by done.
  destruct (Hn Γ Γ' Γ1 Hpn Hs1 Hsub Hnd1) as (Γ1' & H1 & Hsub1 & Hk1); [set_solver|].
  destruct (IH Γ1 Γ1' Hp (mk_is_Some _ _ Hs2) Hsub1 Hnd2) as (Γ2' & H2 & Hsub2 & Hk2).
  { intros x Hx. rewrite Hk1; [set_solver|]. intros Hx'. by eapply Hdis. }
  assert (scope_of (unreachable_node n ++ eliminate_unreachable nodes) Γ' = Some Γ2') as Hall by (apply scope_app; by exists Γ1').
  exists Γ2'. split_and!; [done|by eapply scope_nodes_grows|]. intros x Hx. rewrite Hk2, Hk1 by set_solver. done.
Qed.
Lemma stays_unfolds n' Γ Γ' (P : string -> Prop) : Γ ⊆ Γ' -> scope_node dialect decls n' Γ' = Some Γ' -> exists Γ1',
  scope_of [n'] Γ' = Some Γ1' /\ Γ ⊆ Γ1' /\ forall x, P x -> Γ1' !! x = Γ' !! x.
Proof. intros Hs Hn. exists Γ'. split_and!; [|done..]. apply scope_cons. by exists Γ'. Qed.

Lemma let_unfolds x e : node_unfolds (Node.Let x e).
Proof.
  intros Γ Γ' Γ1 Hp Hs Hsub _ Hf. cbn [plain_node scope_node unreachable_node node_binders] in *.
  apply provided_Some in Hs as [[He Hx]%andb_true_iff [= <-]]. exists (<[x := true]> Γ'). split_and!.
  - apply scope_cons. exists (<[x := true]> Γ'). split; [|done]. cbn [scope_node].
    by rewrite (scoped_mono _ _ _ Hsub Hp He), bool_decide_eq_true_2 by (apply Hf; set_solver).
  - by apply insert_mono.
  - intros y Hy. apply lookup_insert_ne. set_solver.
Qed.
Lemma if_unfolds c t o : Forall node_unfolds t -> Forall node_unfolds o -> node_unfolds (Node.If c t o).
Proof.
  intros Ht Ho Γ Γ' Γ1 Hp Hs Hsub Hnd Hf. cbn [plain_node scope_node unreachable_node node_binders] in *.
  rewrite !andb_true_iff in Hp. destruct Hp as [[Hpc Hpt] Hpo]. apply provided_Some in Hs as [Hc Hs].
  destruct (leaves _ Γ) as [Γ2|] eqn:E; [|done]. apply leaves_Some in E as [Hst ->]. apply leaves_Some in Hs as [Hso ->].
  fold (binders t) (binders o) in *. change (unreachable_with unreachable_node) with eliminate_unreachable.
  apply NoDup_app in Hnd as (Hnt & _ & Hno).
  destruct (list_unfolds t Ht Γ Γ' Hpt Hst Hsub Hnt) as (Γt & Et & Hst' & Hkt); [set_solver|].
  destruct (list_unfolds o Ho Γ Γ' Hpo Hso Hsub Hno) as (Γo & Eo & Hso' & Hko); [set_solver|].
  destruct (const_truth c) as [[]|].
  - exists Γt. split_and!; [done|by etrans|]. intros x Hx. apply Hkt. set_solver.
  - exists Γo. split_and!; [done|by etrans|]. intros x Hx. apply Hko. set_solver.
  - apply stays_unfolds; [done|]. cbn [scope_node]. unfold scope_nodes in *. rewrite (scoped_mono _ _ _ Hsub Hpc Hc), Et.
    cbn [provided leaves mbind option_bind]. by rewrite Eo.
Qed.
Lemma loop_unfolds var a b body : Forall node_unfolds body -> node_unfolds (Node.Loop var a b body).
Proof.
  intros Hbody Γ Γ' Γ1 Hp Hs Hsub Hnd Hf. cbn [plain_node scope_node unreachable_node node_binders] in *.
  rewrite !andb_true_iff in Hp. destruct Hp as [[Hpa Hpb] Hp].
  apply provided_Some in Hs as [[[Hsa Hsb]%andb_true_iff Hx%bool_decide_eq_true]%andb_true_iff Hs].
  apply leaves_Some in Hs as [Hs ->]. destruct (const_loop_empty a b); [by exists Γ'|].
  apply stays_unfolds; [done|]. fold (binders body) in *. apply NoDup_cons in Hnd as [Hv Hnd].
  destruct (list_unfolds body Hbody (<[var := false]> Γ) (<[var := false]> Γ') Hp Hs) as (Γ2 & E & _); [by apply insert_mono|done|..].
  { intros x Hb. rewrite lookup_insert_ne by (intros ->; done). apply Hf. by right. }
  cbn [scope_node]. change (unreachable_with unreachable_node) with eliminate_unreachable. unfold scope_nodes in E. rewrite E.
  by rewrite (scoped_mono _ _ _ Hsub Hpa Hsa), (scoped_mono _ _ _ Hsub Hpb Hsb), bool_decide_eq_true_2 by (apply Hf; by left).
Qed.
Lemma all_unfolds n : node_unfolds n.
Proof.
  induction n using Node_ind'; try (by apply let_unfolds || apply if_unfolds || apply loop_unfolds);
    intros Γ Γ' Γ1 Hp Hs Hsub Hnd Hf; cbn [plain_node scope_node unreachable_node node_binders] in *; try done;
    rewrite ?andb_true_iff in Hp;
    try (apply provided_Some in Hs as [Hd Hs]); try (injection Hs as <-; apply stays_unfolds; [done|]; cbn [scope_node]);
    try done; try (by rewrite Hd).
  - apply andb_true_iff in Hd as [He Hd]. destruct Hp as [Hx Hp].
    rewrite (scoped_mono _ _ _ Hsub Hp He). apply (assigns_scoped decls) in Hd; [|done]. by rewrite (lookup_weaken _ _ _ _ Hd Hsub).
  - rewrite !andb_true_iff in Hd. destruct Hd as [[-> Hi] Hv], Hp as [Hpi Hpv].
    by rewrite (scoped_mono _ _ _ Hsub Hpi Hi), (scoped_mono _ _ _ Hsub Hpv Hv).
  - apply leaves_Some in Hs as [Hs ->]. fold (binders b) in *. change (unreachable_with unreachable_node b) with (eliminate_unreachable b).
    destruct (list_unfolds b H Γ Γ' Hp Hs Hsub Hnd Hf) as (Γ2 & E & _). destruct (eliminate_unreachable b); [by exists Γ'|].
    apply stays_unfolds; [done|]. cbn [scope_node]. unfold scope_nodes in E. by rewrite E.
  - apply leaves_Some in Hs as [Hs ->]. fold (binders b) in *. change (unreachable_with unreachable_node b) with (eliminate_unreachable b).
    destruct (list_unfolds b H Γ Γ' Hp Hs Hsub Hnd Hf) as (Γ2 & E & _).
    apply stays_unfolds; [done|]. cbn [scope_node]. unfold scope_nodes in E. by rewrite E.
Qed.
Lemma unreachable_scope nodes Γ : plain nodes -> is_Some (scope_of nodes Γ) -> NoDup (binders nodes) ->
  (forall x, x ∈ binders nodes -> Γ !! x = None) -> is_Some (scope_of (eliminate_unreachable nodes) Γ).
Proof.
  intros Hp Hs Hnd Hf. destruct (list_unfolds nodes (Forall_true _ _ all_unfolds) Γ Γ Hp Hs) as (Γ1 & E & _); [done..|]. by exists Γ1.
Qed.

Lemma unreachable_plain nodes : plain nodes -> plain (eliminate_unreachable nodes).
Proof.
  assert (forall nodes, Forall (fun n => plain_node decls n = true -> plain (unreachable_node n)) nodes -> plain nodes ->
    plain (eliminate_unreachable nodes)) as Hlist.
  { induction 1 as [|n l Hn _ IH]; [done|]. cbn [forallb]. intros [Hp Hps]%andb_true_iff.
    destruct (return_or_not n) as [->|Hne]; [done|]. rewrite unreachable_cons, forallb_app, Hn, IH by done. done. }
  apply Hlist, Forall_true. intros n. induction n using Node_ind'; intros Hp;
    cbn [plain_node unreachable_node forallb] in *; rewrite ?andb_true_iff in *; try done;
    change (unreachable_with unreachable_node) with eliminate_unreachable.
  - destruct Hp as [[? ?] ?]. destruct (const_truth c) as [[]|]; auto. cbn [forallb plain_node]. by rewrite H1, !Hlist.
  - destruct Hp as [[? ?] ?]. destruct (const_loop_empty f t); [done|]. cbn [forallb plain_node]. rewrite H0, H1, Hlist by done. done.
  - pose proof (Hlist b H Hp) as Hb. destruct (eliminate_unreachable b); [done|]. cbn [forallb plain_node] in *. by rewrite Hb.
  - by split; [apply Hlist|].
Qed.
End Static.

(** Dropping bindings does not add names. *)
Lemma dead_lets_binders nodes live : binders (lr_nodes (eliminate_dead_lets nodes live)) `sublist_of` binders nodes.
Proof.
  assert (forall nodes, Forall (fun n => forall after, exists names, names `sublist_of` node_binders n
      /\ binders (lr_nodes (dead_lets_node n after)) = names ++ binders (lr_nodes after)) nodes ->
    forall live, binders (lr_nodes (eliminate_dead_lets nodes live)) `sublist_of` binders nodes) as Hlist.
  { induction 1 as [|n l Hn _ IH]; intros lv; [done|]. cbn [binders flat_map]. fold (binders l).
    destruct (return_or_not n) as [->|Hne]; [apply sublist_nil_l|]. rewrite dead_lets_cons by done.
    destruct (Hn (eliminate_dead_lets l lv)) as (names & Hs & ->). by apply sublist_app. }
  apply Hlist, Forall_true. intros n. induction n using Node_ind'; intros [kept l];
    cbn [node_binders dead_lets_node lr_nodes]; change (dead_lets_with dead_lets_node) with eliminate_dead_lets;
    try (eexists; split; [|reflexivity]; done).
  - case_match; [exists []|exists [n]]; by split; [apply sublist_nil_l || done|].
  - eexists. split; [|reflexivity]. cbn [node_binders]. apply sublist_app; by apply Hlist.
  - eexists. split; [|reflexivity]. cbn [node_binders]. apply sublist_skip. by apply Hlist.
  - eexists. split; [|reflexivity]. cbn [node_binders]. by apply Hlist.
  - eexists. split; [|reflexivity]. cbn [node_binders]. by apply Hlist.
Qed.

(** ** A workgroup *)

(** The invocations of a workgroup do not depend on the kernel they run. *)
Lemma create_pair p q wg e e' invs : workgroup_size q = workgroup_size p -> create_invocations p wg e = Ok invs ->
  exists invs', create_invocations q wg e' = Ok invs'
  /\ Forall2 (fun i i' => exists ids k, i = invocation_new ids k e /\ i' = invocation_new ids k e') invs invs'.
Proof.
  intros Hq. unfold create_invocations. rewrite Hq. destruct (workgroup_size p) as [[sx sy] sz].
  intros (u & -> & H)%bind_Ok. cbn [mbind result_bind]. revert H. set (P := fun i i' => exists ids k, _).
  assert (Forall2 P [] []) as Hacc by constructor. revert Hacc. generalize (@nil HashmapInvocation) at 1 3 as acc.
  generalize (@nil HashmapInvocation) as acc'. induction (local_ids (sx, sy, sz)) as [|[[x y] z] ls IH]; intros acc' acc Hacc H;
    cbn [try_fold] in *.
  { injection H as <-. by exists acc'. }
  apply bind_Ok in H as (acc1 & H1 & H). unfold create_one in *. destruct wg as [[wx wy] wz].
  apply bind_Ok in H1 as (gx & Hx & H1). apply bind_Ok in H1 as (gy & Hy & H1). apply bind_Ok in H1 as (gz & Hz & H1).
  injection H1 as <-. rewrite Hx, Hy, Hz. cbn [mbind result_bind]. eapply IH; [|exact H].
  apply Forall2_app; [done|]. constructor; [|done]. rewrite (Forall2_length _ _ _ Hacc). by do 2 eexists.
Qed.

Section Pass.
Context (fe : FloatEnv) (dialect : option (string -> option OpDef)) (decls : Buffers).
Abbreviation plain := (fun nodes => forallb (plain_node decls) nodes = true).
Abbreviation well_scoped := (fun nodes => is_Some (scope_nodes dialect decls nodes ∅)).

(** Every order of steps of one kernel has its like for the other. *)
Definition simulated (e e' : list Node) : Prop := forall invs invs' m,
  Forall2 (fun i i' => exists ids k, i = invocation_new ids k e /\ i' = invocation_new ids k e') invs invs' -> resolves decls m ->
  forall invs1 m1, rtc (lane_step fe dialect) (invs, m) (invs1, m1) -> exists invs1',
    rtc (lane_step fe dialect) (invs', m) (invs1', m1)
    /\ Forall2 (fun i i' => done i = done i' /\ hi_waiting i = hi_waiting i') invs1 invs1'.

Lemma trims_simulated dropping T `{!Trims dropping T} e e' : T e e' -> plain e -> well_scoped e -> plain e' -> well_scoped e' ->
  simulated e e'.
Proof.
  intros HT Hp Hs Hp' Hs' invs invs' m Hinvs Hm invs1 m1 Hrun.
  destruct (lanes_sim fe dialect decls (trim_rel dropping T dialect decls) _ _ Hrun Hm invs') as (invs1' & H & HR & _).
  - eapply Forall2_impl; [exact Hinvs|]. intros i i' (ids & k & -> & ->). by apply trim_start.
  - exists invs1'. split; [exact H|]. eapply Forall2_impl; [exact HR|]. intros i i' (Hc & _). by eapply core_status.
Qed.
Lemma simulated_trans e e1 e2 : simulated e e1 -> simulated e1 e2 -> simulated e e2.
Proof.
  intros H1 H2 invs invs' m Hinvs Hm invs1 m1 Hrun.
  assert (exists mid, Forall2 (fun i i' => exists ids k, i = invocation_new ids k e /\ i' = invocation_new ids k e1) invs mid
    /\ Forall2 (fun i i' => exists ids k, i = invocation_new ids k e1 /\ i' = invocation_new ids k e2) mid invs') as (mid & Hl & Hr).
  { clear Hrun. induction Hinvs as [|i i' l l' (ids & k & -> & ->) _ (mid & Hl & Hr)]; [by exists []|].
    exists (invocation_new ids k e1 :: mid). split; constructor; eauto. }
  destruct (H1 _ _ _ Hl Hm _ _ Hrun) as (mid1 & Hrun1 & Hs1). destruct (H2 _ _ _ Hr Hm _ _ Hrun1) as (invs1' & Hrun2 & Hs2).
  exists invs1'. split; [done|]. clear -Hs1 Hs2. revert invs1' Hs2. induction Hs1 as [|i i' l l' [Hd Hw] _ IH]; intros k Hk;
    inversion Hk as [|? i2 ? l2 [Hd2 Hw2]]; subst; constructor; [split; congruence|by apply IH].
Qed.

(** The workgroups of two simulated programs. *)
Lemma simulated_workgroup p q wg m invs : workgroup_size q = workgroup_size p -> simulated (entry p) (entry q) -> resolves decls m ->
  create_invocations p wg (entry p) = Ok invs ->
  exists invs', create_invocations q wg (entry q) = Ok invs' /\ length invs' = length invs
  /\ (forall invs1 m1, rtc (lane_step fe dialect) (invs, m) (invs1, m1) -> exists invs1',
        rtc (lane_step fe dialect) (invs', m) (invs1', m1)
        /\ Forall2 (fun i i' => done i = done i' /\ hi_waiting i = hi_waiting i') invs1 invs1')
  /\ (forall fuel invs1 m1, run_loop fe dialect false fuel invs m = Ok (invs1, m1) -> exists invs1',
        rtc (lane_step fe dialect) (invs', m) (invs1', m1) /\ Forall (fun i => done i = true) invs1').
Proof.
  intros Hw Hsim Hm Hinvs. destruct (create_pair p q wg (entry p) (entry q) invs Hw Hinvs) as (invs' & Hinvs' & Hpair).
  specialize (Hsim invs invs' m Hpair Hm). exists invs'. split_and!; [done|by rewrite <- (Forall2_length _ _ _ Hpair)|exact Hsim|].
  intros fuel invs1 m1 [Hrun Hdone]%run_loop_lanes. destruct (Hsim _ _ Hrun) as (invs1' & Hrun' & Hs). exists invs1'.
  split; [done|]. clear -Hs Hdone. induction Hs as [|i i' l l' [Hd _] _ IH]; [done|].
  apply Forall_cons in Hdone as [Hi Hdone]. constructor; [congruence|by apply IH].
Qed.

Lemma dead_lets_well_scoped nodes : plain nodes -> well_scoped nodes -> well_scoped (lr_nodes (eliminate_dead_lets nodes ∅)).
Proof. intros Hp Hs. by apply (dead_lets_scope _ _ nodes ∅ ∅ ∅ Hp Hs). Qed.
Lemma dead_lets_simulated nodes : plain nodes -> well_scoped nodes -> simulated nodes (lr_nodes (eliminate_dead_lets nodes ∅)).
Proof.
  intros Hp Hs. eapply (trims_simulated true drops); [by eexists|done|done|by apply dead_lets_plain|by apply dead_lets_well_scoped].
Qed.
Lemma dce_simulated nodes : plain nodes -> well_scoped nodes ->
  well_scoped (eliminate_unreachable (lr_nodes (eliminate_dead_lets nodes ∅))) -> simulated nodes (dce_entry nodes).
Proof.
  intros Hp Hs Hu. pose proof (dead_lets_plain decls nodes ∅ Hp) as Hp1. pose proof (dead_lets_well_scoped nodes Hp Hs) as Hs1.
  eapply simulated_trans; [by apply dead_lets_simulated|]. eapply simulated_trans; [|apply dead_lets_simulated; [by apply unreachable_plain|exact Hu]].
  by eapply (trims_simulated false unfolds); [..|apply unreachable_plain|].
Qed.
Lemma distinct_well_scoped nodes : plain nodes -> well_scoped nodes -> NoDup (binders nodes) ->
  well_scoped (eliminate_unreachable (lr_nodes (eliminate_dead_lets nodes ∅))).
Proof.
  intros Hp Hs Hnd. apply unreachable_scope; [by apply dead_lets_plain|by apply dead_lets_well_scoped| |done].
  eapply sublist_NoDup; [exact Hnd|apply dead_lets_binders].
Qed.
End Pass.

Module Elimination.
Section Programs.
Context (dialect : option (string -> option OpDef)) (p : Program).
Abbreviation scoped_entry := (fun nodes => is_Some (scope_nodes dialect (buffer_map (buffers p)) nodes ∅)).

(** C9: dead-code elimination preserves behaviour: take a valid program without transfers,
    traps, subgroup collectives or assignments to buffer names, whose bindings still
    resolve once its literal conditionals are unfolded.  The pass keeps the shape of the
    workgroup, and for every order in which the invocations of the program can take their
    steps, the trimmed program has an order that leaves the same memory, with the same
    invocations finished and waiting.  In particular whatever the round-robin scheduler
    computes for the program, the trimmed program can compute, and then all its
    invocations have finished too. *)
Theorem dce_simulates fe wg m invs (Hp : plain_program p) (Hv : validation_errors dialect p = [])
    (Hu : scoped_entry (eliminate_unreachable (lr_nodes (eliminate_dead_lets (entry p) ∅))))
    (Hm : resolves (buffer_map (buffers p)) m) (Hinvs : create_invocations p wg (entry p) = Ok invs) :
  exists invs', create_invocations (dce p) wg (entry (dce p)) = Ok invs' /\ length invs' = length invs
  /\ (forall invs1 m1, rtc (lane_step fe dialect) (invs, m) (invs1, m1) -> exists invs1',
        rtc (lane_step fe dialect) (invs', m) (invs1', m1)
        /\ Forall2 (fun i i' => done i = done i' /\ hi_waiting i = hi_waiting i') invs1 invs1')
  /\ (forall fuel invs1 m1, run_loop fe dialect false fuel invs m = Ok (invs1, m1) -> exists invs1',
        rtc (lane_step fe dialect) (invs', m) (invs1', m1) /\ Forall (fun i => done i = true) invs1').
Proof.
  apply validated_scope in Hv; [|done].
  by apply (simulated_workgroup fe dialect (buffer_map (buffers p)) p (dce p) wg m invs); [|apply dce_simulated|..].
Qed.

(** C25: names after dead-code elimination: take a valid program without transfers, traps,
    subgroup collectives or assignments to buffer names, whose bindings have pairwise
    different names.  The trimmed program satisfies the scope rule of the validator,
    before and after the last sweep: every variable and buffer resolves and no name is
    bound twice in one scope; and where an operator registry is installed, running a
    workgroup of the trimmed program on any memory with its storage buffers never reports
    a name, operators included. *)
Theorem dce_names_resolve (Hp : plain_program p) (Hv : validation_errors dialect p = [])
    (Hnd : NoDup (binders (entry p))) :
  scoped_entry (eliminate_unreachable (lr_nodes (eliminate_dead_lets (entry p) ∅))) /\ scoped_entry (entry (dce p))
  /\ plain_program (dce p)
  /\ (is_Some dialect -> forall fe uses fuel wg m e, storage_resolves p m ->
        run_workgroup fe dialect uses fuel (dce p) wg m = Err e -> name_error e = false).
Proof.
  apply validated_scope in Hv; [|done]. pose proof (distinct_well_scoped _ _ _ Hp Hv Hnd) as Hu.
  pose proof (unreachable_plain _ _ (dead_lets_plain _ (entry p) ∅ Hp)) as Hq.
  assert (scoped_entry (entry (dce p))) as Hs by by apply dead_lets_well_scoped.
  assert (plain_program (dce p)) as Hq' by by apply dead_lets_plain.
  split_and!; [exact Hu|exact Hs|exact Hq'|]. intros Hinst fe uses fuel wg m e Hm Hrun.
  pose proof (run_workgroup_named fe dialect (dce p) Hq' Hs uses fuel wg m Hm) as H. rewrite Hrun in H. by apply H.
Qed.
End Programs.
Import Validated Gaps.

Definition add1 (e : Expr) : Expr := Expr.BinOp BinOp.Add e (lit 1).
(** A dead load, a literal conditional and an empty loop. *)
Definition trimmed : Program := kernel
  [Node.Let "dead" (Expr.Load "out" (Expr.InvocationId 0));
   Node.Let "x" (lit 5);
   Node.If (Expr.LitBool true) [Node.Let "y" (add1 x); out_is (Expr.Var "y")] [];
   Node.Loop "i" (lit 3) (lit 1) [out_is (Expr.Var "i")];
   Node.Barrier MemoryOrdering.SeqCst;
   Node.If (Expr.BinOp BinOp.Eq (Expr.LocalId 0) (lit 1)) [Node.Store "out" (lit 0) (lit 9)] [];
   Node.Return].
Definition zero_memory : HashmapMemory := mkHashmapMemory {[ "out" := Workgroup.words [0; 0; 0; 0; 0] ]} ∅.
Lemma zero_resolves : resolves (buffer_map (buffers trimmed)) zero_memory.
Proof.
  intros b d Hd. destruct (decide (b = "out")) as [->|Hb].
  - vm_compute in Hd. injection Hd as <-. vm_compute. by eexists.
  - cbn in Hd. rewrite lookup_insert_ne in Hd by done. by rewrite lookup_empty in Hd.
Qed.

Lemma dce_simulates_witness : exists invs' invs1' m1,
  create_invocations (dce trimmed) (0, 0, 0) (entry (dce trimmed)) = Ok invs'
  /\ rtc (lane_step TypedOps.zero_env None) (invs', zero_memory) (invs1', m1)
  /\ Forall (fun i => done i = true) invs1'
  /\ hm_storage m1 !! "out" = Some (Workgroup.words [9; 6; 0; 0; 0]).
Proof.
  destruct (create_invocations trimmed (0, 0, 0) (entry trimmed)) as [invs|] eqn:Hinvs; [|exfalso; vm_compute in Hinvs; discriminate].
  destruct (dce_simulates None trimmed TypedOps.zero_env (0, 0, 0) zero_memory invs) as (invs' & Hinvs' & _ & _ & Hsim);
    [vm_compute; reflexivity|vm_compute; reflexivity|vm_compute; by eexists|exact zero_resolves|exact Hinvs|].
  assert (exists invs1 m1, run_loop TypedOps.zero_env None false 40 invs zero_memory = Ok (invs1, m1)
    /\ hm_storage m1 !! "out" = Some (Workgroup.words [9; 6; 0; 0; 0])) as (invs1 & m1 & Hrun & Hout).
  { vm_compute in Hinvs. injection Hinvs as <-. eexists _, _. split; [vm_compute; reflexivity|]. vm_compute. reflexivity. }
  destruct (Hsim _ _ _ Hrun) as (invs1' & Hrun' & Hdone). by exists invs', invs1', m1.
Defined.

Lemma dce_names_resolve_witness :
  is_Some (scope_nodes (Some registry) (buffer_map (buffers trimmed)) (entry (dce trimmed)) ∅) /\ plain_program (dce trimmed).
Proof.
  destruct (dce_names_resolve (Some registry) trimmed) as (_ & H1 & H2 & _); [vm_compute; reflexivity|vm_compute; reflexivity| |split; [exact H1|exact H2]].
  apply (bool_decide_unpack (NoDup (binders (entry trimmed)))). vm_compute. exact I.
Defined.

(** *** Outside the conditions *)

Definition lane_sum : Program := kernel [Node.Let "x" (lit 5); out_is (Expr.SubgroupAdd x)].
Definition twin_names : Program := kernel
  [Node.If (Expr.LitBool true) [Node.Let "x" (lit 5); out_is x] [];
   Node.If (Expr.LitBool true) [Node.Let "x" (lit 6); out_is x] []].
(** The first invocation of a workgroup stores last, because of a binding nobody reads. *)
Definition slow_lane : Program := kernel
  [Node.If (Expr.BinOp BinOp.Eq (Expr.LocalId 0) (lit 0))
     [Node.Let "dead" (lit 5); Node.Store "out" (lit 0) (lit 1)]
     [Node.Store "out" (lit 0) (lit 2)]].
Definition refused : string := "program failed IR validation".

(** Where dead-code elimination breaks a valid program, and what it does not promise:
    the binding a subgroup collective reads is dropped, because the operands of the
    collectives are not looked into, and the result is refused; two bindings of one name
    in sibling branches end up in one list when the branches are unfolded, and the result
    is refused; and dropping a binding changes which of two racing stores comes last. *)
Theorem dce_gaps :
  (validation_errors None lane_sum = [] /\ run_kernel lane_sum = words [10; 10; 10; 10; 10]
   /\ validation_errors None (dce lane_sum) = ["reference to undeclared variable"]
   /\ run_kernel (dce lane_sum) = Err (Interp refused))
  /\ (validation_errors None twin_names = [] /\ run_kernel twin_names = words [6; 6; 6; 6; 6]
      /\ validation_errors None (dce twin_names) = ["V032: duplicate sibling let binding"]
      /\ run_kernel (dce twin_names) = Err (Interp refused))
  /\ (validation_errors None slow_lane = [] /\ run_kernel slow_lane = words [1; 0; 0; 0; 0]
      /\ run_kernel (dce slow_lane) = words [2; 0; 0; 0; 0]).
Proof. split_and!; vm_compute; reflexivity. Qed.
End Elimination.
