(* ===== verification/Cse.v ===== *)
(** Common-subexpression elimination (vyre-foundation, optimizer/passes/fusion_cse/cse).

    Expressions are interned: structurally equal ones, up to the order of commutative
    operands, share an id.  While the statements are walked in order, [values] maps the id
    of a bound expression to the name that holds it; a binding is visible as long as the
    epoch it was made in is the current one.  A nested list works on the same tables and
    undoes its changes when it ends; a statement with an effect hides everything. *)

From S2P Require Import Prelude Float Spec IR ProgramStats Rewrite DeadCode.

(** ** Types *)

Definition u64_shl (x k : Z) : Z := wrapu 64 (Z.shiftl x k).
Definition u64_rotate_left (x k : Z) : Z := Z.lor (u64_shl x k) (Z.shiftr x (64 - k)).

Definition quantization_scale_key (scale : QuantizationScale) : Z :=
  match scale with
  | QuantizationScale.PerTensor => 0
  | QuantizationScale.PerChannel axis => Z.lor 1 (u64_shl axis 8)
  | QuantizationScale.PerGroup group_size => Z.lor 2 (u64_shl group_size 8)
  end.
Definition quantization_zero_point_key (zero_point : QuantizationZeroPoint) : Z :=
  match zero_point with
  | QuantizationZeroPoint.Absent => 0
  | QuantizationZeroPoint.PerTensor => 1
  | QuantizationZeroPoint.PerChannel axis => Z.lor 2 (u64_shl axis 8)
  | QuantizationZeroPoint.PerGroup group_size => Z.lor 3 (u64_shl group_size 8)
  end.
(** The FNV-1a accumulation over dimensions. *)
Definition fnv_accumulate (dims : list Z) : Z :=
  foldl (fun acc dim => wrapu 64 (Z.lxor acc dim * 0x100000001b3)) 0xcbf29ce484222325 dims.

(** [TypeKey::from]. *)
Fixpoint TypeKey_from (t : DataType) : Z :=
  match t with
  | DataType.U32 => 0x01 | DataType.I32 => 0x02 | DataType.U64 => 0x03 | DataType.Vec2U32 => 0x04
  | DataType.Vec4U32 => 0x05 | DataType.Bool => 0x06 | DataType.Bytes => 0x07 | DataType.F16 => 0x09
  | DataType.BF16 => 0x0A | DataType.F32 => 0x0B | DataType.F64 => 0x0C | DataType.Tensor => 0x0D
  | DataType.U8 => 0x0E | DataType.U16 => 0x0F | DataType.I8 => 0x10 | DataType.I16 => 0x11 | DataType.I64 => 0x12
  | DataType.Array element_size => Z.lor 0x08 (u64_shl element_size 8)
  | DataType.Handle id => Z.lor 0x13 (u64_shl id 8)
  | DataType.Vec element count => Z.lor (Z.lor 0x14 (u64_shl count 8)) (u64_shl (TypeKey_from element) 16)
  | DataType.TensorShaped element shape =>
      Z.lxor (Z.lor 0x15 (u64_shl (TypeKey_from element) 8)) (u64_shl (fnv_accumulate shape) 24)
  | DataType.SparseCsr element => Z.lor 0x16 (u64_shl (TypeKey_from element) 8)
  | DataType.SparseCoo element => Z.lor 0x17 (u64_shl (TypeKey_from element) 8)
  | DataType.SparseBsr element block_rows block_cols =>
      Z.lor (Z.lor (Z.lor 0x18 (u64_shl (TypeKey_from element) 8)) (u64_shl (Z.land block_rows 0xFFFF) 32))
        (u64_shl (Z.land block_cols 0xFFFF) 48)
  | DataType.F8E4M3 => 0x19 | DataType.F8E5M2 => 0x1A | DataType.I4 => 0x1B | DataType.FP4 => 0x1C | DataType.NF4 => 0x1D
  | DataType.DeviceMesh axes => Z.lor 0x1E (u64_shl (fnv_accumulate axes) 8)
  | DataType.Quantized storage scale zero_point =>
      let acc := Z.lor 0x1F (u64_shl (TypeKey_from storage) 8) in
      let acc := Z.lxor acc (u64_rotate_left (quantization_scale_key scale) 17) in
      Z.lxor acc (u64_rotate_left (quantization_zero_point_key zero_point) 37)
  | DataType.Opaque id => Z.lor 0x80 (u64_shl id 8)
  end.

(** ** Keys *)

Module ExprKey.
Inductive ExprKey :=
| LitU32 (value : Z) | LitI32 (value : Z) | LitF32 (bits : Z) | LitBool (value : bool)
| Var (name : string)
| Load (buffer : string) (index : Z)
| BufLen (buffer : string)
| InvocationId (axis : Z) | WorkgroupId (axis : Z) | LocalId (axis : Z)
| BinOp (op left right : Z)
| UnOp (op operand : Z)
| BinOpOpaque (id left right : Z)
| UnOpOpaque (id operand : Z)
| Call (op_id : string) (args : list Z)
| Fma (a b c : Z)
| Select (cond true_val false_val : Z)
| Cast (target value : Z)
| Atomic
| Subgroup (counter : Z)
| SubgroupLocalId | SubgroupSize
| Opaque (kind : string) (fingerprint : bytes).
#[export] Instance ExprKey_eq_dec : EqDecision ExprKey.
Proof. solve_decision. Defined.
End ExprKey.
Abbreviation ExprKey := ExprKey.ExprKey.
Export (hints) ExprKey.

Definition is_commutative (op : BinOp) : bool :=
  match op with
  | BinOp.Add | BinOp.SaturatingAdd | BinOp.Mul | BinOp.SaturatingMul | BinOp.BitAnd | BinOp.BitOr | BinOp.BitXor
  | BinOp.Eq | BinOp.Ne | BinOp.And | BinOp.Or => true
  | _ => false
  end.
Definition bin_op_key (op : BinOp) : option Z :=
  match op with
  | BinOp.Add => Some 0 | BinOp.Sub => Some 1 | BinOp.Mul => Some 2 | BinOp.Div => Some 3 | BinOp.Mod => Some 4
  | BinOp.BitAnd => Some 5 | BinOp.BitOr => Some 6 | BinOp.BitXor => Some 7 | BinOp.Shl => Some 8 | BinOp.Shr => Some 9
  | BinOp.Eq => Some 10 | BinOp.Ne => Some 11 | BinOp.Lt => Some 12 | BinOp.Gt => Some 13 | BinOp.Le => Some 14
  | BinOp.Ge => Some 15 | BinOp.And => Some 16 | BinOp.Or => Some 17 | BinOp.AbsDiff => Some 18 | BinOp.Min => Some 19
  | BinOp.Max => Some 20 | BinOp.SaturatingAdd => Some 21 | BinOp.SaturatingSub => Some 22
  | BinOp.SaturatingMul => Some 23 | BinOp.Shuffle => Some 24 | BinOp.Ballot => Some 25 | BinOp.WaveReduce => Some 26
  | BinOp.WaveBroadcast => Some 27 | BinOp.WrappingAdd => Some 28 | BinOp.WrappingSub => Some 29
  | BinOp.RotateLeft => Some 30 | BinOp.RotateRight => Some 31 | BinOp.MulHigh => Some 32
  | BinOp.Opaque _ => None
  end.
Definition un_op_key (op : UnOp) : option Z :=
  match op with
  | UnOp.Negate => Some 0 | UnOp.BitNot => Some 1 | UnOp.LogicalNot => Some 2 | UnOp.Popcount => Some 3
  | UnOp.Clz => Some 4 | UnOp.Ctz => Some 5 | UnOp.ReverseBits => Some 6 | UnOp.Sin => Some 7 | UnOp.Cos => Some 8
  | UnOp.Abs => Some 9 | UnOp.Sqrt => Some 10 | UnOp.InverseSqrt => Some 11 | UnOp.Reciprocal => Some 12
  | UnOp.Floor => Some 13 | UnOp.Ceil => Some 14 | UnOp.Round => Some 15 | UnOp.Trunc => Some 16 | UnOp.Sign => Some 17
  | UnOp.IsNan => Some 18 | UnOp.IsInf => Some 19 | UnOp.IsFinite => Some 20 | UnOp.Exp => Some 21 | UnOp.Log => Some 22
  | UnOp.Log2 => Some 23 | UnOp.Exp2 => Some 24 | UnOp.Tan => Some 25 | UnOp.Acos => Some 26 | UnOp.Asin => Some 27
  | UnOp.Atan => Some 28 | UnOp.Tanh => Some 29 | UnOp.Sinh => Some 30 | UnOp.Cosh => Some 31
  | UnOp.Unpack4Low => Some 32 | UnOp.Unpack4High => Some 33 | UnOp.Unpack8Low => Some 34 | UnOp.Unpack8High => Some 35
  | UnOp.Opaque _ => None
  end.

(** ** The context *)

Record ScopedBinding := mkScopedBinding { sb_name : string; sb_epoch : Z }.
Record ScopeFrame := mkScopeFrame { sf_undo_len : nat; sf_epoch : Z }.

(** The undo log and the stack of scopes are listed top first; the counter of the tests is
    left out. *)
Record CseCtx := mkCseCtx {
  values : gmap Z ScopedBinding;
  undo_log : list (Z * option ScopedBinding);
  scope_stack : list ScopeFrame;
  current_epoch : Z;
  arena : list ExprKey;
  deduplication : list (ExprKey * Z);
  subgroup_counter : Z;
}.
(** [CseCtx::default], and what [clear] resets to. *)
Definition cse_default : CseCtx := mkCseCtx ∅ [] [] 0 [] [] 0.

Definition with_tables (c : CseCtx) (v : gmap Z ScopedBinding) (log : list (Z * option ScopedBinding))
    (scopes : list ScopeFrame) (epoch : Z) : CseCtx :=
  mkCseCtx v log scopes epoch (arena c) (deduplication c) (subgroup_counter c).

Definition enter_scope (c : CseCtx) : CseCtx :=
  with_tables c (values c) (undo_log c) (mkScopeFrame (length (undo_log c)) (current_epoch c) :: scope_stack c)
    (current_epoch c).
Fixpoint undo_to (undo_len : nat) (log : list (Z * option ScopedBinding)) (v : gmap Z ScopedBinding)
    : list (Z * option ScopedBinding) * gmap Z ScopedBinding :=
  match log with
  | [] => ([], v)
  | (key, old) :: rest =>
      if (undo_len <? length log)%nat
      then undo_to undo_len rest (match old with Some b => <[key := b]> v | None => delete key v end)
      else (log, v)
  end.
Definition leave_scope (c : CseCtx) : CseCtx :=
  match scope_stack c with
  | [] => c
  | frame :: scopes =>
      let '(log, v) := undo_to (sf_undo_len frame) (undo_log c) (values c) in
      with_tables c v log scopes (sf_epoch frame)
  end.
Definition clear_observed_state (c : CseCtx) : CseCtx :=
  match scope_stack c with
  | [] => with_tables c ∅ (undo_log c) [] (current_epoch c)
  | scopes => with_tables c (values c) (undo_log c) scopes (wrapu 64 (current_epoch c + 1))
  end.
Definition record_insert (key : Z) (name : string) (c : CseCtx) : CseCtx :=
  with_tables c (<[key := mkScopedBinding name (current_epoch c)]> (values c))
    (match scope_stack c with [] => undo_log c | _ => (key, values c !! key) :: undo_log c end)
    (scope_stack c) (current_epoch c).
Definition visible_value (c : CseCtx) (key : Z) : option string :=
  b ← values c !! key;
  if sb_epoch b =? current_epoch c then Some (sb_name b) else None.

(** ** Interning *)

Fixpoint find_key (key : ExprKey) (table : list (ExprKey * Z)) : option Z :=
  match table with
  | [] => None
  | (k, id) :: table => if decide (k = key) then Some id else find_key key table
  end.
(** The end of [intern_expr]. *)
Definition intern_key (key : ExprKey) (c : CseCtx) : Z * CseCtx :=
  match find_key key (deduplication c) with
  | Some id => (id, c)
  | None =>
      let len := Z.of_nat (length (arena c)) in
      let id := if len <=? U32_MAX then len else U32_MAX in
      (id, mkCseCtx (values c) (undo_log c) (scope_stack c) (current_epoch c) (arena c ++ [key])
             (deduplication c ++ [(key, id)]) (subgroup_counter c))
  end.
Definition unique_uncached_key (c : CseCtx) : ExprKey * CseCtx :=
  (ExprKey.Subgroup (subgroup_counter c),
   mkCseCtx (values c) (undo_log c) (scope_stack c) (current_epoch c) (arena c) (deduplication c)
     (wrapu 32 (subgroup_counter c + 1))).

Definition intern_list (intern : Expr -> CseCtx -> Z * CseCtx) (args : list Expr) (c : CseCtx) : list Z * CseCtx :=
  foldl (fun '(ids, c) arg => let '(id, c) := intern arg c in (ids ++ [id], c)) ([], c) args.

Fixpoint intern_expr (e : Expr) (c : CseCtx) : Z * CseCtx :=
  match e with
  | Expr.LitU32 v => intern_key (ExprKey.LitU32 v) c
  | Expr.LitI32 v => intern_key (ExprKey.LitI32 v) c
  | Expr.LitF32 bits => intern_key (ExprKey.LitF32 bits) c
  | Expr.LitBool v => intern_key (ExprKey.LitBool v) c
  | Expr.Var name => intern_key (ExprKey.Var name) c
  | Expr.Load buffer index =>
      let '(i, c) := intern_expr index c in intern_key (ExprKey.Load buffer i) c
  | Expr.BufLen buffer => intern_key (ExprKey.BufLen buffer) c
  | Expr.InvocationId axis => intern_key (ExprKey.InvocationId axis) c
  | Expr.WorkgroupId axis => intern_key (ExprKey.WorkgroupId axis) c
  | Expr.LocalId axis => intern_key (ExprKey.LocalId axis) c
  | Expr.BinOp op x y =>
      let '(l, c) := intern_expr x c in
      let '(r, c) := intern_expr y c in
      let '(l, r) := if is_commutative op && (r <? l) then (r, l) else (l, r) in
      match op with
      | BinOp.Opaque id => intern_key (ExprKey.BinOpOpaque id l r) c
      | _ =>
          match bin_op_key op with
          | Some key => intern_key (ExprKey.BinOp key l r) c
          | None => let '(key, c) := unique_uncached_key c in intern_key key c
          end
      end
  | Expr.UnOp op operand =>
      let '(x, c) := intern_expr operand c in
      match op with
      | UnOp.Opaque id => intern_key (ExprKey.UnOpOpaque id x) c
      | _ =>
          match un_op_key op with
          | Some key => intern_key (ExprKey.UnOp key x) c
          | None => let '(key, c) := unique_uncached_key c in intern_key key c
          end
      end
  | Expr.Call op_id args =>
      let '(ids, c) := intern_list intern_expr args c in intern_key (ExprKey.Call op_id ids) c
  | Expr.Fma x y z =>
      let '(a, c) := intern_expr x c in let '(b, c) := intern_expr y c in let '(d, c) := intern_expr z c in
      intern_key (ExprKey.Fma a b d) c
  | Expr.Select x y z =>
      let '(a, c) := intern_expr x c in let '(b, c) := intern_expr y c in let '(d, c) := intern_expr z c in
      intern_key (ExprKey.Select a b d) c
  | Expr.Cast target value =>
      let '(v, c) := intern_expr value c in intern_key (ExprKey.Cast (TypeKey_from target) v) c
  | Expr.Atomic _ _ _ _ _ _ => intern_key ExprKey.Atomic c
  | Expr.SubgroupBallot _ | Expr.SubgroupShuffle _ _ | Expr.SubgroupAdd _ =>
      let '(key, c) := unique_uncached_key c in intern_key key c
  | Expr.SubgroupLocalId => intern_key ExprKey.SubgroupLocalId c
  | Expr.SubgroupSize => intern_key ExprKey.SubgroupSize c
  | Expr.Opaque x => intern_key (ExprKey.Opaque (en_extension_kind x) (en_stable_fingerprint x)) c
  end.

(** ** Rewriting *)

Definition is_var (e : Expr) : bool := match e with Expr.Var _ => true | _ => false end.
(** The end of [expr]: the rewritten expression is replaced by the name that holds it. *)
Definition reuse (e : Expr) (c : CseCtx) : Expr * CseCtx :=
  if is_var e || expr_has_effect e then (e, c)
  else
    let '(key, c) := intern_expr e c in
    match e with
    | Expr.LitU32 _ | Expr.LitI32 _ | Expr.LitBool _ => (e, c)
    | _ => match visible_value c key with Some name => (Expr.Var name, c) | None => (e, c) end
    end.

Definition cse_list (f : Expr -> CseCtx -> Expr * CseCtx) (args : list Expr) (c : CseCtx) : list Expr * CseCtx :=
  foldl (fun '(out, c) arg => let '(arg, c) := f arg c in (out ++ [arg], c)) ([], c) args.

(** [CseCtx::expr]; a borrowed result is the expression itself. *)
Fixpoint cse_expr (e : Expr) (c : CseCtx) : Expr * CseCtx :=
  match e with
  | Expr.Load buffer index => let '(i, c) := cse_expr index c in reuse (Expr.Load buffer i) c
  | Expr.BinOp op x y =>
      let '(l, c) := cse_expr x c in let '(r, c) := cse_expr y c in reuse (Expr.BinOp op l r) c
  | Expr.UnOp op operand => let '(x, c) := cse_expr operand c in reuse (Expr.UnOp op x) c
  | Expr.Fma x y z =>
      let '(x, c) := cse_expr x c in let '(y, c) := cse_expr y c in let '(z, c) := cse_expr z c in
      reuse (Expr.Fma x y z) c
  | Expr.Call op_id args => let '(args, c) := cse_list cse_expr args c in reuse (Expr.Call op_id args) c
  | Expr.Select x y z =>
      let '(x, c) := cse_expr x c in let '(y, c) := cse_expr y c in let '(z, c) := cse_expr z c in
      reuse (Expr.Select x y z) c
  | Expr.Cast target value => let '(v, c) := cse_expr value c in reuse (Expr.Cast target v) c
  | Expr.Atomic op buffer index expected value ordering =>
      let '(i, c) := cse_expr index c in
      let '(x, c) := match expected with
                     | Some x => let '(x, c) := cse_expr x c in (Some x, c)
                     | None => (None, c)
                     end in
      let '(v, c) := cse_expr value c in
      reuse (Expr.Atomic op buffer i x v ordering) (clear_observed_state c)
  | _ => reuse e c
  end.

(** The values a binding is not recorded for. *)
Definition never_recorded (e : Expr) : bool :=
  match e with
  | Expr.Var _ | Expr.LitU32 _ | Expr.LitI32 _ | Expr.LitF32 _ | Expr.LitBool _ => true
  | _ => false
  end.

Definition cse_nodes_with (f : Node -> CseCtx -> Node * CseCtx) (nodes : list Node) (c : CseCtx) : list Node * CseCtx :=
  foldl (fun '(out, c) n => let '(n, c) := f n c in (out ++ [n], c)) ([], c) nodes.

Fixpoint cse_node (n : Node) (c : CseCtx) : Node * CseCtx :=
  let nested nodes c :=
    let '(nodes, c) := cse_nodes_with cse_node nodes (enter_scope c) in (nodes, leave_scope c) in
  match n with
  | Node.Let name value =>
      let '(value, c) := cse_expr value c in
      if expr_has_effect value then (Node.Let name value, clear_observed_state c)
      else if never_recorded value then (Node.Let name value, c)
      else
        let '(key, c) := intern_expr value c in
        match visible_value c key with
        | Some existing => (Node.Let name (Expr.Var existing), c)
        | None => (Node.Let name value, record_insert key name c)
        end
  | Node.Assign name value =>
      let '(value, c) := cse_expr value c in (Node.Assign name value, clear_observed_state c)
  | Node.Store buffer index value =>
      let '(index, c) := cse_expr index c in
      let '(value, c) := cse_expr value c in
      (Node.Store buffer index value, clear_observed_state c)
  | Node.If cond then_ otherwise =>
      let '(cond, c) := cse_expr cond c in
      let '(then_, c) := nested then_ c in
      let '(otherwise, c) := nested otherwise c in
      (Node.If cond then_ otherwise, clear_observed_state c)
  | Node.Loop var from to body =>
      let '(from, c) := cse_expr from c in
      let '(to, c) := cse_expr to c in
      let '(body, _) := cse_nodes_with cse_node body cse_default in
      (Node.Loop var from to body, clear_observed_state c)
  | Node.Return => (Node.Return, c)
  | Node.Block nodes => let '(nodes, c) := nested nodes c in (Node.Block nodes, clear_observed_state c)
  | Node.Region generator source_region nodes =>
      let '(nodes, c) := nested nodes c in (Node.Region generator source_region nodes, clear_observed_state c)
  | _ => (n, clear_observed_state c)
  end.
Definition cse_nodes : list Node -> CseCtx -> list Node * CseCtx := cse_nodes_with cse_node.

(** ** The pass *)

Definition cse (p : Program) : Program := with_rewritten_entry p (fst (cse_nodes (entry p) cse_default)).
(** [ProgramStats::has_node_let]. *)
Definition has_node_let (s : ProgramStats) : bool := has_any_node_kind s (node_kind (Node.Let "" (Expr.LitU32 0))).
(** [analyze_impl]: whether the pass runs. *)
Definition CsePass_analyze (p : Program) : bool :=
  negb (match entry p with [] => true | _ => false end || negb (has_node_let (compute_stats p))).
