(* ===== verification/CseKeys.v ===== *)
(** The table of common-subexpression elimination.

    An id of the table stands for the expressions it was interned from ([repr]); any two
    of them have one value ([same_value]), because keys tell operators and types apart and
    only commutative operands are reordered.  Interning only adds keys ([intern_ok]). *)

From S2P Require Import Prelude Float Spec IR RefValue RefMemory RefEval RefHash RefSched RefSchedSound RefWorkgroup.
From S2P Require Import Rewrite DeadCode ScopingSound DeadCodeSim Cse.

(** ** Commutative operators *)

Lemma fp_add_comm x y : fp_add x y = fp_add y x.
Proof.
  destruct x as [|s|s m e], y as [|t|t n g]; cbn [fp_add]; try done.
  - destruct s, t; done.
  - rewrite (Z.min_comm g e), (Z.add_comm (sm t n * _)), (andb_comm t s). done.
Qed.
Lemma fp_mul_comm x y : fp_mul x y = fp_mul y x.
Proof.
  destruct x as [|s|s m e], y as [|t|t n g]; cbn [fp_mul]; try done; rewrite ?(xorb_comm t s); try done.
  by rewrite (Z.mul_comm n m), (Z.add_comm g e).
Qed.
Lemma fp_eq_comm x y : fp_eq x y = fp_eq y x.
Proof.
  unfold fp_eq. destruct x as [|s|s m e], y as [|t|t n g]; cbn [fp_compare]; try done.
  all: try (by destruct s, t).
  rewrite (Z.min_comm g e), Z.compare_antisym. cbn [is_cmp]. by destruct (_ ?= _).
Qed.
Lemma eval_binop_comm fe op x y : is_commutative op = true -> eval_binop fe op x y = eval_binop fe op y x.
Proof.
  assert (forall t a b, is_commutative op = true -> binop_int t op a b = binop_int t op b a) as Hint.
  { intros t a b. destruct op; try done; intros _; cbn [binop_int];
      rewrite ?(Z.add_comm b a), ?(Z.mul_comm b a), ?(Z.land_comm b a), ?(Z.lor_comm b a), ?(Z.lxor_comm b a), ?(Z.eqb_sym b a); try done.
    - by rewrite andb_comm.
    - by rewrite orb_comm. }
  intros Hc. unfold eval_binop. destruct x as [a|a|a|a|a|a|a], y as [b|b|b|b|b|b|b]; try done.
  - rewrite (Hint _ a b Hc). destruct op; try done; cbn [u32_shared_binop]; by rewrite ?(Z.add_comm b a), ?(Z.mul_comm b a).
  - rewrite (Hint _ a b Hc). destruct op; try done; cbn [i32_shared_binop]; by rewrite ?(Z.add_comm b a), ?(Z.mul_comm b a).
  - rewrite (Hint _ a b Hc). destruct op; try done; cbn [u64_shared_binop]; by rewrite ?(Z.add_comm b a), ?(Z.mul_comm b a).
  - destruct op; try done; by destruct a, b.
  - destruct op; try done; cbn [binop_f32]; unfold f32_lift2, f32_cmp; by rewrite fp_add_comm || rewrite fp_mul_comm || rewrite fp_eq_comm.
Qed.

(** ** What an id stands for *)

(** Types without parameters have keys of their own. *)
Definition simple_type (t : DataType) : bool :=
  match t with
  | DataType.Array _ | DataType.Handle _ | DataType.Vec _ _ | DataType.TensorShaped _ _ | DataType.SparseCsr _
  | DataType.SparseCoo _ | DataType.SparseBsr _ _ _ | DataType.DeviceMesh _ | DataType.Quantized _ _ _
  | DataType.Opaque _ => false
  | _ => true
  end.
Lemma TypeKey_inj t u : simple_type t = true -> simple_type u = true -> TypeKey_from t = TypeKey_from u -> t = u.
Proof. destruct t; try done; intros _; destruct u; done. Qed.
Lemma bin_op_key_inj op op' k : bin_op_key op = Some k -> bin_op_key op' = Some k -> op = op'.
Proof. destruct op; intros [= <-]; destruct op'; done. Qed.
Lemma un_op_key_inj op op' k : un_op_key op = Some k -> un_op_key op' = Some k -> op = op'.
Proof. destruct op; intros [= <-]; destruct op'; done. Qed.

(** No collective over the lanes of a subgroup, casts to types without parameters. *)
Fixpoint regular (e : Expr) : bool :=
  match e with
  | Expr.Load _ x | Expr.UnOp _ x => regular x
  | Expr.Cast t x => simple_type t && regular x
  | Expr.BinOp _ x y => regular x && regular y
  | Expr.Call _ args => forallb regular args
  | Expr.Select x y z | Expr.Fma x y z => regular x && regular y && regular z
  | Expr.Atomic _ _ i x v _ => regular i && match x with Some y => regular y | None => true end && regular v
  | Expr.SubgroupBallot _ | Expr.SubgroupShuffle _ _ | Expr.SubgroupAdd _ => false
  | _ => true
  end.
Lemma regular_subgroup_free e : regular e = true -> subgroup_free e = true.
Proof.
  induction e using Expr_ind'; cbn [regular subgroup_free]; rewrite ?andb_true_iff; intros Hr; destruct_and?; split_and?; auto.
  - rewrite forallb_forall in *. rewrite Forall_forall in H. intros x Hx. apply H; [by apply list_elem_of_In|auto].
  - destruct e2; cbn [Forall_opt] in *; auto.
Qed.

Definition keyed (A : list ExprKey) (id : Z) (key : ExprKey) : Prop := 0 <= id /\ A !! Z.to_nat id = Some key.
Definition bin_key (op : BinOp) (l r : Z) : ExprKey :=
  match op with BinOp.Opaque id => ExprKey.BinOpOpaque id l r | _ => ExprKey.BinOp (default 0 (bin_op_key op)) l r end.
Definition un_key (op : UnOp) (x : Z) : ExprKey :=
  match op with UnOp.Opaque id => ExprKey.UnOpOpaque id x | _ => ExprKey.UnOp (default 0 (un_op_key op)) x end.

Fixpoint repr (A : list ExprKey) (e : Expr) (id : Z) : Prop :=
  match e with
  | Expr.LitU32 v => keyed A id (ExprKey.LitU32 v)
  | Expr.LitI32 v => keyed A id (ExprKey.LitI32 v)
  | Expr.LitF32 v => keyed A id (ExprKey.LitF32 v)
  | Expr.LitBool v => keyed A id (ExprKey.LitBool v)
  | Expr.Var x => keyed A id (ExprKey.Var x)
  | Expr.Load b x => exists i, keyed A id (ExprKey.Load b i) /\ repr A x i
  | Expr.BufLen b => keyed A id (ExprKey.BufLen b)
  | Expr.InvocationId axis => keyed A id (ExprKey.InvocationId axis)
  | Expr.WorkgroupId axis => keyed A id (ExprKey.WorkgroupId axis)
  | Expr.LocalId axis => keyed A id (ExprKey.LocalId axis)
  | Expr.BinOp op x y => exists l r, keyed A id (bin_key op l r)
      /\ ((repr A x l /\ repr A y r) \/ (is_commutative op = true /\ repr A x r /\ repr A y l))
  | Expr.UnOp op x => exists i, keyed A id (un_key op i) /\ repr A x i
  | Expr.Fma x y z => exists i j k, keyed A id (ExprKey.Fma i j k) /\ repr A x i /\ repr A y j /\ repr A z k
  | Expr.Select x y z => exists i j k, keyed A id (ExprKey.Select i j k) /\ repr A x i /\ repr A y j /\ repr A z k
  | Expr.Cast t x => exists i, keyed A id (ExprKey.Cast (TypeKey_from t) i) /\ repr A x i
  | Expr.SubgroupLocalId => keyed A id ExprKey.SubgroupLocalId
  | Expr.SubgroupSize => keyed A id ExprKey.SubgroupSize
  | Expr.Opaque x => keyed A id (ExprKey.Opaque (en_extension_kind x) (en_stable_fingerprint x))
  | _ => False
  end.

Lemma keyed_grows A B id key : A `prefix_of` B -> keyed A id key -> keyed B id key.
Proof. intros [k ->] [Hid H]. split; [done|]. by apply lookup_app_l_Some. Qed.
Lemma repr_grows A B e : A `prefix_of` B -> forall id, repr A e id -> repr B e id.
Proof.
  intros Hp. induction e using Expr_ind'; intros id; cbn [repr]; try done; try (by apply keyed_grows);
    naive_solver eauto using keyed_grows.
Qed.
Lemma keyed_det A id k k' : keyed A id k -> keyed A id k' -> k = k'.
Proof. intros [_ H] [_ H']. congruence. Qed.
Lemma bin_key_inj op op' l r l' r' : bin_key op l r = bin_key op' l' r' -> op = op' /\ l = l' /\ r = r'.
Proof. destruct op, op'; cbn; intros [= ]; subst; done. Qed.
Lemma un_key_inj op op' x x' : un_key op x = un_key op' x' -> op = op' /\ x = x'.
Proof. destruct op, op'; cbn; intros [= ]; subst; done. Qed.

Definition key_kind (k : ExprKey) : Z :=
  match k with
  | ExprKey.LitU32 _ => 0 | ExprKey.LitI32 _ => 1 | ExprKey.LitF32 _ => 2 | ExprKey.LitBool _ => 3 | ExprKey.Var _ => 4
  | ExprKey.Load _ _ => 5 | ExprKey.BufLen _ => 6 | ExprKey.InvocationId _ => 7 | ExprKey.WorkgroupId _ => 8
  | ExprKey.LocalId _ => 9 | ExprKey.BinOp _ _ _ | ExprKey.BinOpOpaque _ _ _ => 10
  | ExprKey.UnOp _ _ | ExprKey.UnOpOpaque _ _ => 11 | ExprKey.Call _ _ => 12 | ExprKey.Fma _ _ _ => 13
  | ExprKey.Select _ _ _ => 14 | ExprKey.Cast _ _ => 15 | ExprKey.Atomic => 16 | ExprKey.Subgroup _ => 17
  | ExprKey.SubgroupLocalId => 18 | ExprKey.SubgroupSize => 19 | ExprKey.Opaque _ _ => 20
  end.
Definition expr_kind (e : Expr) : Z :=
  match e with
  | Expr.LitU32 _ => 0 | Expr.LitI32 _ => 1 | Expr.LitF32 _ => 2 | Expr.LitBool _ => 3 | Expr.Var _ => 4
  | Expr.Load _ _ => 5 | Expr.BufLen _ => 6 | Expr.InvocationId _ => 7 | Expr.WorkgroupId _ => 8 | Expr.LocalId _ => 9
  | Expr.BinOp _ _ _ => 10 | Expr.UnOp _ _ => 11 | Expr.Call _ _ => 12 | Expr.Fma _ _ _ => 13 | Expr.Select _ _ _ => 14
  | Expr.Cast _ _ => 15 | Expr.Atomic _ _ _ _ _ _ => 16
  | Expr.SubgroupBallot _ | Expr.SubgroupShuffle _ _ | Expr.SubgroupAdd _ => 17
  | Expr.SubgroupLocalId => 18 | Expr.SubgroupSize => 19 | Expr.Opaque _ => 20
  end.
Lemma repr_kind A e id : repr A e id -> exists key, keyed A id key /\ key_kind key = expr_kind e.
Proof.
  destruct e; cbn [repr]; try done; try (by eexists); try (intros (? & ? & ?); by eexists).
  - intros (l & r & H & _). eexists. split; [exact H|]. by destruct op.
  - intros (i & H & _). eexists. split; [exact H|]. by destruct op.
  - intros (? & ? & ? & ? & ?). by eexists.
  - intros (? & ? & ? & ? & ?). by eexists.
Qed.
Lemma repr_same_kind A e1 e2 id : repr A e1 id -> repr A e2 id -> expr_kind e1 = expr_kind e2.
Proof.
  intros (k & Hk & <-)%repr_kind (k' & Hk' & <-)%repr_kind. f_equal. by eapply keyed_det.
Qed.

(** Expressions that are interned: no effect, so evaluation leaves the memory alone. *)
Definition internable (e : Expr) : Prop := regular e = true /\ expr_has_effect e = false.

Section Values.
Context (fe : FloatEnv) (dialect : option (string -> option OpDef)).
Abbreviation eval := (eval_expr fe dialect []).

Lemma internable_pure e a m v m1 : internable e -> eval e a m = Ok (v, m1) -> m1 = m.
Proof. intros [Hr He]. by apply pure_keeps, regular_subgroup_free. Qed.

Local Ltac known :=
  repeat match goal with
  | H : keyed ?A ?id _, H' : keyed ?A ?id _ |- _ => pose proof (keyed_det _ _ _ _ H H'); clear H'; simplify_eq
  end.
(** The operands of an interned expression are interned expressions. *)
Local Ltac parts H := destruct H as [?Hr ?He]; cbn [regular expr_has_effect] in *;
  rewrite ?andb_true_iff, ?orb_false_iff in *; destruct_and?.
(** One operand: both sides evaluate it to the same. *)
Local Ltac same_operand IH :=
  let r := fresh "r" in let k := fresh "k" in let Hx := fresh "Hx" in let Hy := fresh "Hy" in
  match goal with
  | E1 : (eval_expr _ _ _ _ ?l ≫= _) ?m = Ok _, E2 : (eval_expr _ _ _ _ ?l ≫= _) ?m = Ok _ |- _ =>
      apply hbind_Ok in E1 as (r & k & Hx & E1); apply hbind_Ok in E2 as (? & ? & Hy & E2);
      eapply IH in Hx; [|..|exact Hy]; [injection Hx as -> ->|first [eassumption|by split]..]
  | E1 : (hlift _ ≫= _) ?m = Ok _, E2 : (hlift _ ≫= _) ?m = Ok _ |- _ =>
      apply hbind_Ok in E1 as (r & k & Hx & E1); apply hbind_Ok in E2 as (? & ? & Hy & E2);
      rewrite Hx in Hy; injection Hy as <- <-
  end.
Lemma binop_parts op x y lane m r : internable x -> internable y ->
  (a ← eval x lane; b ← eval y lane; hlift (eval_binop fe op a b)) m = Ok r ->
  exists a b, eval x lane m = Ok (a, m) /\ eval y lane m = Ok (b, m) /\ hlift (eval_binop fe op a b) m = Ok r.
Proof.
  intros Ix Iy (a & m1 & Ex & E)%hbind_Ok. pose proof (internable_pure _ _ _ _ _ Ix Ex) as ->.
  apply hbind_Ok in E as (b & m2 & Ey & E). pose proof (internable_pure _ _ _ _ _ Iy Ey) as ->. by exists a, b.
Qed.
Lemma same_value A e1 : forall e2 id lane m r1 r2, repr A e1 id -> repr A e2 id -> internable e1 -> internable e2 ->
  eval e1 lane m = Ok r1 -> eval e2 lane m = Ok r2 -> r1 = r2.
Proof.
  induction e1 using Expr_ind'; intros e2 id lane m r1 r2 H1 H2 I1 I2;
    pose proof (repr_same_kind _ _ _ _ H1 H2) as Hk; destruct e2; try done; clear Hk;
    cbn [repr] in H1, H2; try done; known; cbn [eval_expr]; intros E1 E2; try congruence.
  - destruct H1 as (i & K & R), H2 as (i' & K' & R'). known. parts I1. parts I2. same_operand IHe1. congruence.
  - destruct H1 as (i & j & K & R), H2 as (i' & j' & K' & R'). pose proof (keyed_det _ _ _ _ K K') as (-> & -> & ->)%bin_key_inj.
    clear K K'. parts I1. parts I2. apply binop_parts in E1 as (x1 & y1 & X1 & Y1 & E1); [|by split..].
    apply binop_parts in E2 as (x2 & y2 & X2 & Y2 & E2); [|by split..].
    assert (forall e i, repr A e i -> repr A e1_1 i -> internable e -> forall x, eval e lane m = Ok (x, m) -> x1 = x) as HX.
    { intros e k Re R1 Ie x Ex. by specialize (IHe1_1 e k lane m _ _ R1 Re ltac:(by split) Ie X1 Ex) as [= ->]. }
    assert (forall e i, repr A e i -> repr A e1_2 i -> internable e -> forall x, eval e lane m = Ok (x, m) -> y1 = x) as HY.
    { intros e k Re R1 Ie x Ex. by specialize (IHe1_2 e k lane m _ _ R1 Re ltac:(by split) Ie Y1 Ex) as [= ->]. }
    destruct R as [[R1 R2]|(Hc & R1 & R2)], R' as [[R1' R2']|(Hc' & R1' & R2')].
    + rewrite (HX _ _ R1' R1 ltac:(by split) _ X2), (HY _ _ R2' R2 ltac:(by split) _ Y2) in E1. congruence.
    + rewrite (HX _ _ R2' R1 ltac:(by split) _ Y2), (HY _ _ R1' R2 ltac:(by split) _ X2), eval_binop_comm in E1 by done. congruence.
    + rewrite (HX _ _ R2' R1 ltac:(by split) _ Y2), (HY _ _ R1' R2 ltac:(by split) _ X2), eval_binop_comm in E1 by done. congruence.
    + rewrite (HX _ _ R1' R1 ltac:(by split) _ X2), (HY _ _ R2' R2 ltac:(by split) _ Y2) in E1. congruence.
  - destruct H1 as (i & K & R), H2 as (i' & K' & R'). pose proof (keyed_det _ _ _ _ K K') as [-> ->]%un_key_inj. parts I1. parts I2. same_operand IHe1. congruence.
  - destruct H1 as (i & j & k & K & R1 & R2 & R3), H2 as (i' & j' & k' & K' & R1' & R2' & R3'). known. parts I1. parts I2.
    same_operand IHe1_1. same_operand IHe1_2. same_operand IHe1_3. congruence.
  - destruct H1 as (i & K & R), H2 as (i' & K' & R'). pose proof (keyed_det _ _ _ _ K K') as [=Ht ->].
    parts I1. parts I2. apply TypeKey_inj in Ht as ->; [|done..]. same_operand IHe1. congruence.
  - destruct H1 as (i & j & k & K & R1 & R2 & R3), H2 as (i' & j' & k' & K' & R1' & R2' & R3'). known. parts I1. parts I2.
    same_operand IHe1_1. same_operand IHe1_1. same_operand IHe1_2. same_operand IHe1_2. same_operand IHe1_3. same_operand IHe1_3. congruence.
Qed.
End Values.

(** ** Interning *)

Definition arena_len (c : CseCtx) : Z := Z.of_nat (length (arena c)).
Definition interned (c : CseCtx) : Prop := forall key id, find_key key (deduplication c) = Some id -> keyed (arena c) id key.
(** The table grows by at most [k] keys; bindings, scopes and epoch stay. *)
Record interns (k : Z) (c c' : CseCtx) : Prop := {
  in_values : values c' = values c;
  in_undo : undo_log c' = undo_log c;
  in_scopes : scope_stack c' = scope_stack c;
  in_epoch : current_epoch c' = current_epoch c;
  in_prefix : arena c `prefix_of` arena c';
  in_len : arena_len c' <= arena_len c + k;
  in_interned : interned c';
}.
Lemma interns_trans k1 k2 k c c1 c2 : interns k1 c c1 -> interns k2 c1 c2 -> k1 + k2 <= k -> interns k c c2.
Proof. intros [] [] Hk. split; try congruence; [by etrans|lia|done]. Qed.
Lemma interns_refl c : interned c -> interns 0 c c.
Proof. intros Hc. split; try done. lia. Qed.

Lemma find_key_snoc key key' id table : find_key key (table ++ [(key', id)])
  = match find_key key table with Some i => Some i | None => if decide (key' = key) then Some id else None end.
Proof.
  induction table as [|[k i] table IH]; cbn [app find_key]; [done|]. by destruct (decide (k = key)).
Qed.
Lemma intern_key_ok key c id c' : interned c -> arena_len c + 1 <= 2 ^ 32 -> intern_key key c = (id, c') ->
  interns 1 c c' /\ keyed (arena c') id key.
Proof.
  unfold intern_key, arena_len. intros Hc Hlen. destruct (find_key key (deduplication c)) as [i|] eqn:E.
  - intros [= <- <-]. split; [|by apply Hc]. by eapply interns_trans; [apply interns_refl..|lia].
  - rewrite (proj2 (Z.leb_le _ _)) by lia. intros [= <- <-].
    assert (keyed (arena c ++ [key]) (Z.of_nat (length (arena c))) key) as Hk.
    { split; [lia|]. rewrite Nat2Z.id. by apply list_lookup_middle. }
    split; [|exact Hk]. split; try done; cbn [arena].
    + by eexists.
    + unfold arena_len. cbn [arena]. rewrite length_app. cbn. lia.
    + intros key' j. cbn [deduplication arena]. rewrite find_key_snoc.
      destruct (find_key key' (deduplication c)) as [j'|] eqn:E'.
      * intros [= <-]. eapply keyed_grows; [by eexists|by apply Hc].
      * case_decide; [|done]. intros [= <-]. by subst key'.
Qed.

Lemma expr_size_pos e : (0 < expr_size e)%nat.
Proof. destruct e; cbn [expr_size]; lia. Qed.
Lemma intern_last k c c1 key id c' : interns k c c1 -> arena_len c + k + 1 <= 2 ^ 32 -> intern_key key c1 = (id, c') ->
  interns (k + 1) c c' /\ keyed (arena c') id key /\ arena c1 `prefix_of` arena c'.
Proof.
  intros Hi Hlen E. apply intern_key_ok in E as [E K]; [|apply Hi|destruct Hi; lia].
  split; [by eapply interns_trans; [..|reflexivity]|]. by split; [|apply E].
Qed.
Lemma intern_bin op l r c : match op with
    | BinOp.Opaque id => intern_key (ExprKey.BinOpOpaque id l r) c
    | _ => match bin_op_key op with
           | Some key => intern_key (ExprKey.BinOp key l r) c
           | None => let '(key, c) := unique_uncached_key c in intern_key key c
           end
    end = intern_key (bin_key op l r) c.
Proof. by destruct op. Qed.
Lemma intern_un op x c : match op with
    | UnOp.Opaque id => intern_key (ExprKey.UnOpOpaque id x) c
    | _ => match un_op_key op with
           | Some key => intern_key (ExprKey.UnOp key x) c
           | None => let '(key, c) := unique_uncached_key c in intern_key key c
           end
    end = intern_key (un_key op x) c.
Proof. by destruct op. Qed.

Definition interning (e : Expr) : Prop := forall c id c', internable e -> interned c ->
  arena_len c + Z.of_nat (expr_size e) <= 2 ^ 32 ->
  intern_expr e c = (id, c') -> interns (Z.of_nat (expr_size e)) c c' /\ repr (arena c') e id.
Lemma intern_next e k c c1 id c' : interning e -> internable e -> interns k c c1 ->
  arena_len c + k + Z.of_nat (expr_size e) <= 2 ^ 32 -> intern_expr e c1 = (id, c') ->
  interns (k + Z.of_nat (expr_size e)) c c' /\ repr (arena c') e id /\ arena c1 `prefix_of` arena c'.
Proof.
  intros H Hi Hk Hlen E. destruct (H c1 id c' Hi) as [E1 R]; [apply Hk|destruct Hk; lia|done|].
  split; [by eapply interns_trans; [..|reflexivity]|]. by split; [|apply E1].
Qed.
Local Ltac operand IH E :=
  match type of E with context [intern_expr ?x ?c] =>
    let i := fresh "i" in let c1 := fresh "c" in let Ex := fresh "Ex" in
    let R := fresh "R" in let P := fresh "P" in
    destruct (intern_expr x c) as [i c1] eqn:Ex;
    match goal with Hk : interns _ _ c |- _ => eapply (intern_next _ _ _ _ _ _ IH) in Ex as (? & R & P);
      [clear Hk|by split|exact Hk|lia] end
  end.
Local Ltac finish E := match goal with Hk : interns _ _ _ |- _ =>
  let K := fresh "K" in let P := fresh "P" in
  eapply (intern_last _ _ _ _ _ _ Hk) in E as (E & K & P); [|lia];
  split; [eapply interns_trans; [exact E|by apply interns_refl, E|lia]|] end.

Lemma intern_ok e : interning e.
Proof.
  induction e using Expr_ind'; intros c0 id c' [Hr He] Hc Hlen E; cbn [intern_expr repr regular expr_has_effect expr_size] in *;
    try done; pose proof (interns_refl _ Hc) as Hk;
    rewrite ?andb_true_iff, ?orb_false_iff in *; destruct_and?; rewrite ?Nat2Z.inj_succ, ?Nat2Z.inj_add in *; try (by finish E).
  - operand IHe E. finish E. eauto using repr_grows.
  - operand IHe1 E. operand IHe2 E. destruct (is_commutative op && (i0 <? i)) eqn:Ec; rewrite intern_bin in E; finish E.
    + apply andb_true_iff in Ec as [Hcm _]. do 2 eexists. split; [exact K|]. right. eauto 12 using repr_grows.
    + do 2 eexists. split; [exact K|]. left. eauto 12 using repr_grows.
  - operand IHe E. rewrite intern_un in E. finish E. eauto using repr_grows.
  - operand IHe1 E. operand IHe2 E. operand IHe3 E. finish E. eauto 20 using repr_grows.
  - operand IHe E. finish E. eauto using repr_grows.
  - operand IHe1 E. operand IHe2 E. operand IHe3 E. finish E. eauto 20 using repr_grows.
Qed.
