(* ===== verification/CseSound.v ===== *)
(** Common-subexpression elimination is sound.

    A visible binding holds the value of what its id stands for ([sound]).  Nested lists
    leave the bindings of the list around them as they were ([extends]).  With that, a
    rewritten expression has the value of the one it replaces ([cse_expr_ok]). *)

From S2P Require Import Prelude Float Spec IR RefValue RefMemory RefEval RefHash RefSched RefSchedSound RefWorkgroup.
From S2P Require Import StrengthReduce Rewrite DeadCode ScopingSound DeadCodeSim Cse CseKeys.

(** ** Scopes and epochs *)

Definition undo (log : list (Z * option ScopedBinding)) (v : gmap Z ScopedBinding) : gmap Z ScopedBinding :=
  foldl (fun v '(key, old) => match old with Some b => <[key := b]> v | None => delete key v end) v log.
Lemma undo_to_app new log v : undo_to (length log) (new ++ log) v = (log, undo new v).
Proof.
  revert v. induction new as [|[key old] new IH]; intros v; cbn [app undo_to].
  - destruct log as [|[key old] log]; [done|]. cbn [undo_to]. by rewrite Nat.ltb_irrefl.
  - rewrite (proj2 (Nat.ltb_lt _ _)); [apply IH|]. cbn. rewrite length_app. lia.
Qed.

(** No binding is from a later epoch. *)
Definition epochs_ok (c : CseCtx) : Prop := forall id b, values c !! id = Some b -> sb_epoch b <= current_epoch c.
(** Room for [k] more keys and epochs. *)
Record fits (k : Z) (c : CseCtx) : Prop := {
  fit_interned : interned c;
  fit_epochs : epochs_ok c;
  fit_arena : arena_len c + k <= 2 ^ 32;
  fit_epoch : 0 <= current_epoch c /\ current_epoch c + k <= 2 ^ 32;
}.
(** What walking over part of a list does to the context. *)
Record extends (k : Z) (c c' : CseCtx) : Prop := {
  ex_scopes : scope_stack c' = scope_stack c;
  ex_undo : match scope_stack c with
            | [] => undo_log c' = undo_log c
            | _ => exists new, undo_log c' = new ++ undo_log c /\ undo new (values c') = values c
            end;
  ex_prefix : arena c `prefix_of` arena c';
  ex_len : arena_len c' <= arena_len c + k;
  ex_epoch : current_epoch c <= current_epoch c' <= current_epoch c + k;
  ex_interned : interned c';
  ex_epochs : epochs_ok c';
}.
Lemma fits_less k k' c : fits k c -> k' <= k -> fits k' c.
Proof. intros [] Hk. split; [done..|lia|lia]. Qed.
Lemma fits_extends k k' c c' : fits (k + k') c -> extends k c c' -> fits k' c'.
Proof. intros [] []. split; [done..|lia|lia]. Qed.
Lemma ctx_extends_trans k1 k2 c c1 c2 : extends k1 c c1 -> extends k2 c1 c2 -> extends (k1 + k2) c c2.
Proof.
  intros [S1 U1 P1 L1 E1 I1 O1] [S2 U2 P2 L2 E2 I2 O2]. split; try done; try congruence; [|by etrans|lia|lia].
  rewrite S1 in U2. destruct (scope_stack c); [congruence|]. destruct U1 as (n1 & E1' & Hu1), U2 as (n2 & E2' & Hu2).
  exists (n2 ++ n1). rewrite E2', E1', app_assoc. split; [done|].
  unfold undo. rewrite foldl_app. fold (undo n2 (values c2)). by rewrite Hu2.
Qed.
Lemma extends_more k k' c c' : extends k c c' -> k <= k' -> extends k' c c'.
Proof. intros [] Hk. split; try done; lia. Qed.
Lemma ctx_extends_refl c : interned c -> epochs_ok c -> extends 0 c c.
Proof. intros Hi He. split; try done; [|lia..]. destruct (scope_stack c); [done|]. by exists []. Qed.

(** Nothing is visible. *)
Definition hidden (c : CseCtx) : Prop := forall id, visible_value c id = None.
Lemma interns_extends k c c' : fits k c -> interns k c c' -> extends k c c'.
Proof.
  intros [I E A [Ep Eq]] [V U S P Pr L I']. pose proof (prefix_length _ _ Pr). unfold arena_len in *. split; try done; try (unfold arena_len; lia).
  - rewrite U, V. destruct (scope_stack c); [done|]. by exists [].
  - intros id b. rewrite V, P. apply E.
Qed.
Lemma interns_visible k c c' id : interns k c c' -> visible_value c' id = visible_value c id.
Proof. intros [V _ _ P _ _ _]. unfold visible_value. by rewrite V, P. Qed.
Lemma clear_extends c : fits 1 c -> extends 1 c (clear_observed_state c) /\ hidden (clear_observed_state c).
Proof.
  intros [I E A [Ep Eq]]. unfold clear_observed_state. destruct (scope_stack c) as [|f scopes] eqn:S.
  - split; [|by intros id]. split; unfold arena_len; cbn; rewrite ?S; try done; lia.
  - rewrite wrapu_id by (unfold inu; lia). split.
    + split; unfold arena_len; cbn; rewrite ?S; try done; try lia; [by exists []|]. intros id b Hb. cbn in *. specialize (E id b Hb). lia.
    + intros id. unfold visible_value. cbn. destruct (values c !! id) as [b|] eqn:Hb; [|done]. cbn.
      specialize (E id b Hb). by rewrite (proj2 (Z.eqb_neq _ _)) by lia.
Qed.
Lemma record_extends key name c : interned c -> epochs_ok c -> extends 0 c (record_insert key name c).
Proof.
  intros I E. unfold record_insert. split; unfold arena_len; cbn; try done; try lia.
  - destruct (scope_stack c); [done|]. exists [(key, values c !! key)]. split; [done|]. cbn.
    destruct (values c !! key) as [b|] eqn:Hb.
    + by rewrite insert_insert_eq, insert_id.
    + by rewrite delete_insert_eq, delete_id.
  - intros id b. cbn. rewrite lookup_insert. case_decide; [intros [= <-]; cbn; lia|apply E].
Qed.
Lemma record_visible key name c id : visible_value (record_insert key name c) id
  = if decide (key = id) then Some name else visible_value c id.
Proof.
  unfold visible_value, record_insert. cbn. rewrite lookup_insert. case_decide; [|done]. cbn. by rewrite Z.eqb_refl.
Qed.
Lemma enter_fits k c : fits k c -> fits k (enter_scope c).
Proof. by intros []. Qed.
(** A nested list gives back the bindings it found. *)
Lemma leave_extends k c c' : fits k c -> extends k (enter_scope c) c' ->
  extends k c (leave_scope c') /\ (forall id, visible_value (leave_scope c') id = visible_value c id)
  /\ arena (leave_scope c') = arena c'.
Proof.
  intros [I E A [Ep Eq]] [S U P L Ep' I' E']. cbn in *. destruct U as (new & Hu & Hv). unfold leave_scope. rewrite S, Hu.
  cbn [sf_undo_len sf_epoch]. rewrite undo_to_app, Hv. split_and!; [|done..]. unfold arena_len in *.
  split; cbn; unfold arena_len; cbn; try done; try lia. destruct (scope_stack c); [done|]. by exists [].
Qed.

(** ** Values that stay *)

(** The second computation ends as the first, where that ends. *)
Definition implies {A} (x y : HM A) : Prop := forall m r, x m = Ok r -> y m = Ok r.
Lemma implies_refl {A} (x : HM A) : implies x x.
Proof. by intros m r. Qed.
Lemma implies_bind {A B} (x y : HM A) (f g : A -> HM B) : implies x y -> (forall a, implies (f a) (g a)) -> implies (x ≫= f) (y ≫= g).
Proof. intros Hx Hf m r (a & m1 & Ex & E)%hbind_Ok. unfold mbind, HM_bind. rewrite (Hx _ _ Ex). by apply Hf. Qed.
Lemma implies_encode ev ev' args : Forall (fun a => implies (ev a) (ev' a)) args -> forall inputs input,
  implies (hash_encode_inputs ev args inputs input) (hash_encode_inputs ev' args inputs input).
Proof.
  induction 1 as [|a args Ha _ IH]; intros inputs input; [apply implies_refl|].
  destruct inputs as [|ty inputs]; [apply implies_refl|]. cbn [hash_encode_inputs]. cbv zeta.
  repeat (apply implies_bind; [first [exact Ha|apply implies_refl]|intros ?]). apply IH.
Qed.

(** Neither a load nor the length of a buffer. *)
Fixpoint load_free (e : Expr) : bool :=
  match e with
  | Expr.Load _ _ | Expr.BufLen _ => false
  | Expr.UnOp _ x | Expr.Cast _ x => load_free x
  | Expr.BinOp _ x y => load_free x && load_free y
  | Expr.Call _ args => forallb load_free args
  | Expr.Select x y z | Expr.Fma x y z => load_free x && load_free y && load_free z
  | Expr.Atomic _ _ i x v _ => load_free i && match x with Some y => load_free y | None => true end && load_free v
  | _ => true
  end.

Section Evaluation.
Context (fe : FloatEnv) (dialect : option (string -> option OpDef)).
Abbreviation eval := (eval_expr fe dialect []).

Lemma eval_more e a b : regular e = true -> sn_ids a = sn_ids b -> sn_locals a ⊆ sn_locals b -> implies (eval e a) (eval e b).
Proof.
  intros Hr Hids Hl. revert Hr. induction e using Expr_ind'; cbn [regular eval_expr]; rewrite ?andb_true_iff; intros Hr;
    destruct_and?; try done; cbv zeta; rewrite ?Hids; try apply implies_refl;
    try (repeat (apply implies_bind; [auto using implies_refl; fail|intros ?]); apply implies_refl).
  - intros m r H. destruct (sn_locals a !! n) as [v|] eqn:E; [|done]. by rewrite (lookup_weaken _ _ _ _ E Hl).
  - unfold hash_eval_call. do 2 (apply implies_bind; [apply implies_refl|intros ?]).
    apply implies_bind; [|intros ?; apply implies_refl]. apply implies_encode. rewrite Forall_forall in *. rewrite forallb_forall in Hr.
    intros y Hy. apply H; [done|]. by apply Hr, list_elem_of_In.
  - repeat (apply implies_bind; [auto using implies_refl; fail|intros ?]). apply implies_bind.
    { destruct e2 as [y|]; [|apply implies_refl]. cbn [Forall_opt] in *. apply implies_bind; auto using implies_refl. }
    intros ?. repeat (apply implies_bind; [auto using implies_refl; fail|intros ?]). apply implies_refl.
Qed.
(** Without loads and effects the memory does not matter. *)
Definition memoryless {A} (x : HM A) : Prop := forall m a m1, x m = Ok (a, m1) -> m1 = m /\ forall m', x m' = Ok (a, m').
Lemma memoryless_lift {A} (x : interp A) : memoryless (hlift x).
Proof. intros m a m1. unfold hlift. destruct x; [|done]. by intros [= <- <-]. Qed.
Lemma memoryless_ret {A} (a : A) : memoryless (mret a).
Proof. by intros m b m1 [= <- <-]. Qed.
Lemma memoryless_bind {A B} (x : HM A) (f : A -> HM B) : memoryless x -> (forall a, memoryless (f a)) -> memoryless (x ≫= f).
Proof.
  intros Hx Hf m b m1 (a & m2 & Ex & E)%hbind_Ok. apply Hx in Ex as [-> Ex]. apply Hf in E as [-> E].
  split; [done|]. intros m'. unfold mbind, HM_bind. by rewrite Ex.
Qed.
Lemma load_free_memoryless e a : internable e -> load_free e = true -> memoryless (eval e a).
Proof.
  intros [Hr He]. revert Hr He. induction e using Expr_ind'; cbn [regular expr_has_effect load_free eval_expr];
    rewrite ?andb_true_iff, ?orb_false_iff; intros Hr He Hl; destruct_and?; try done; cbv zeta;
    repeat (apply memoryless_bind; [auto using memoryless_lift|intros ?]); auto using memoryless_lift, memoryless_ret.
Qed.
End Evaluation.

(** ** Sound bindings *)

Section Sound.
Context (fe : FloatEnv) (dialect : option (string -> option OpDef)).
Abbreviation eval := (eval_expr fe dialect []).

(** What the other invocations may do to the memory between two steps of one. *)
Context (racy : bool).
Definition rely (m m' : HashmapMemory) : Prop := racy = true \/ m' = m.
Definition sound (c : CseCtx) (lane : HashmapInvocationSnapshot) (m : HashmapMemory) : Prop :=
  forall id name, visible_value c id = Some name -> exists e v, repr (arena c) e id /\ internable e
    /\ sn_locals lane !! name = Some v /\ forall m', rely m m' -> eval e lane m' = Ok (v, m').

Lemma rely_refl m : rely m m.
Proof. by right. Qed.
Lemma sound_rely c lane m m' : sound c lane m -> rely m m' -> sound c lane m'.
Proof.
  intros H Hr id name (e & v & R & I & L & E)%H. exists e, v. split_and!; [done..|]. intros m2 H2. apply E.
  destruct Hr as [Hr| ->]; [by left|done].
Qed.
Lemma sound_hidden c lane m : hidden c -> sound c lane m.
Proof. intros H id name. by rewrite H. Qed.
(** Bindings may be hidden, and the table may grow. *)
Definition later (c c' : CseCtx) : Prop := arena c `prefix_of` arena c'
  /\ forall id name, visible_value c' id = Some name -> visible_value c id = Some name.
Lemma later_refl c : later c c.
Proof. done. Qed.
Lemma later_trans c c1 c2 : later c c1 -> later c1 c2 -> later c c2.
Proof. intros [P V] [P' V']. split; [by etrans|auto]. Qed.
Lemma later_interns k c c' : interns k c c' -> later c c'.
Proof. intros H. split; [apply H|]. intros id name. by rewrite (interns_visible _ _ _ _ H). Qed.
Lemma later_clear c : fits 1 c -> later c (clear_observed_state c).
Proof. intros [X H]%clear_extends. split; [apply X|]. intros id name. by rewrite H. Qed.
Lemma sound_later c c' lane m : sound c lane m -> later c c' -> sound c' lane m.
Proof.
  intros H [Hp Hv] id name (e & v & R & I & L & E)%Hv%H. exists e, v. split_and!; [by eapply repr_grows|done..].
Qed.
Lemma sound_more c a b m : sound c a m -> sn_ids a = sn_ids b -> sn_locals a ⊆ sn_locals b -> sound c b m.
Proof.
  intros H Hids Hl id name (e & v & R & I & L & E)%H. exists e, v. split_and!; [done..|by eapply lookup_weaken|].
  intros m' Hm. by apply (eval_more fe dialect e a b (proj1 I) Hids Hl), E.
Qed.
(** A visible binding can stand for any expression with its id. *)
Lemma sound_use c lane m id name e v m1 : sound c lane m -> visible_value c id = Some name -> repr (arena c) e id ->
  internable e -> eval e lane m = Ok (v, m1) -> sn_locals lane !! name = Some v /\ m1 = m.
Proof.
  intros H Hv R I E. destruct (H _ _ Hv) as (e0 & v0 & R0 & I0 & L0 & E0).
  by injection (same_value fe dialect _ _ _ _ _ _ _ _ R R0 I I0 E (E0 m (rely_refl m))) as -> ->.
Qed.

(** The second computation ends as the first, and what is visible after it is sound. *)
Definition carries {A} (c c' : CseCtx) (lane : HashmapInvocationSnapshot) (x y : HM A) : Prop :=
  forall m a m1, sound c lane m -> x m = Ok (a, m1) -> y m = Ok (a, m1) /\ sound c' lane m1.
Lemma carries_bind {A B} c c1 c2 lane (x y : HM A) (f g : A -> HM B) : carries c c1 lane x y ->
  (forall a, carries c1 c2 lane (f a) (g a)) -> carries c c2 lane (x ≫= f) (y ≫= g).
Proof.
  intros Hx Hf m b m2 H (a & m1 & Ex & E)%hbind_Ok. destruct (Hx _ _ _ H Ex) as [Ey H1].
  destruct (Hf _ _ _ _ H1 E) as [Eg H2]. split; [|done]. unfold mbind, HM_bind. by rewrite Ey.
Qed.
Lemma carries_lift {A} c lane (x : interp A) : carries c c lane (hlift x) (hlift x).
Proof. intros m a m1 H E. split; [done|]. unfold hlift in E. destruct x; [|done]. by injection E as <- <-. Qed.
Lemma carries_ret {A} c lane (a : A) : carries c c lane (mret a) (mret a).
Proof. exact (carries_lift c lane (Ok a)). Qed.
Lemma carries_get c lane : carries c c lane hget hget.
Proof. by intros m a m1 H [= <- <-]. Qed.
Lemma carries_hidden {A} c c' lane (x : HM A) : hidden c' -> carries c c' lane x x.
Proof. intros H m a m1 _ E. split; [done|by apply sound_hidden]. Qed.
Lemma carries_later {A} c c1 c2 lane (x y : HM A) : carries c c1 lane x y -> later c1 c2 -> carries c c2 lane x y.
Proof. intros Hx Hl m a m1 H E. destruct (Hx _ _ _ H E). split; [done|by eapply sound_later]. Qed.
Lemma carries_load c lane buffer idx : carries c c lane (hash_load buffer idx) (hash_load buffer idx).
Proof. unfold hash_load. eauto 10 using carries_bind, carries_get, carries_lift. Qed.
Lemma carries_pure c lane e : regular e = true -> expr_has_effect e = false -> carries c c lane (eval e lane) (eval e lane).
Proof. intros Hr He m a m1 H E. pose proof (internable_pure _ _ _ _ _ _ _ (conj Hr He) E) as ->. done. Qed.

Definition size (e : Expr) : Z := Z.of_nat (expr_size e).
Record rewrites (k : Z) (e e' : Expr) (c c' : CseCtx) : Prop := {
  rw_extends : extends k c c';
  rw_later : later c c';
  rw_regular : regular e' = true;
  rw_size : size e' <= size e;
  rw_load_free : load_free e = true -> load_free e' = true;
  rw_eval : forall lane, carries c c' lane (eval e lane) (eval e' lane);
}.

Lemma eval_var_name name lane m v : sn_locals lane !! name = Some v -> eval (Expr.Var name) lane m = Ok (v, m).
Proof. intros H. cbn [eval_expr]. by rewrite H. Qed.
(** The last step of every expression, whose operands have been rewritten. *)
Lemma reuse_ok k K e e1 e' c c1 c' : extends k c c1 -> later c c1 -> fits K c -> k + size e1 <= K -> regular e1 = true ->
  size e1 <= size e -> (load_free e = true -> load_free e1 = true) ->
  (forall lane, carries c c1 lane (eval e lane) (eval e1 lane)) ->
  reuse e1 c1 = (e', c') -> rewrites K e e' c c'.
Proof.
  intros Hx Hla Hf Hk Hr Hs Hl He. unfold reuse. assert (fits (size e1) c1) as Hf1.
  { eapply fits_extends; [|exact Hx]. by eapply fits_less. }
  pose proof (expr_size_pos e1) as Hpos. unfold size in *.
  destruct (is_var e1 || expr_has_effect e1) eqn:Ev.
  { intros [= <- <-]. split; [eapply extends_more; [exact Hx|lia]|done..]. }
  apply orb_false_iff in Ev as [_ Ee]. destruct (intern_expr e1 c1) as [key c2] eqn:Ei.
  destruct (intern_ok e1 c1 key c2 (conj Hr Ee) (fit_interned _ _ Hf1) (fit_arena _ _ Hf1) Ei) as [Hi R].
  assert (extends K c c2) as Hx2.
  { eapply extends_more; [|exact Hk]. eapply ctx_extends_trans; [exact Hx|by apply interns_extends]. }
  pose proof (later_interns _ _ _ Hi) as Hl2. pose proof (later_trans _ _ _ Hla Hl2) as Hla2.
  assert (rewrites K e e1 c c2) as Hkeep.
  { split; try done. intros lane. by eapply carries_later. }
  assert (forall nm, visible_value c2 key = Some nm -> rewrites K e (Expr.Var nm) c c2) as Huse.
  { intros nm Hv. split; try done; [unfold size; cbn [expr_size]; lia|]. intros lane m v m1 H E.
    destruct (carries_later _ _ _ _ _ _ (He lane) Hl2 _ _ _ H E) as [E1 H1].
    pose proof (internable_pure _ _ _ _ _ _ _ (conj Hr Ee) E1) as ->.
    destruct (sound_use c2 lane m key nm e1 v m H1 Hv R (conj Hr Ee) E1) as [L _]. by split; [apply eval_var_name|]. }
  destruct e1; try (by intros [= <- <-]); destruct (visible_value c2 key) as [nm|]; intros [= <- <-]; auto.
Qed.

Definition rewriting (e : Expr) : Prop := forall c e' c', regular e = true -> fits (size e * size e) c ->
  cse_expr e c = (e', c') -> rewrites (size e * size e) e e' c c'.
Lemma operand_ok e k c c1 e' c2 : rewriting e -> regular e = true -> extends k c c1 -> later c c1 ->
  fits (k + size e * size e) c -> cse_expr e c1 = (e', c2) ->
  rewrites (size e * size e) e e' c1 c2 /\ extends (k + size e * size e) c c2 /\ later c c2.
Proof.
  intros IH Hr Hx Hl Hf E. apply IH in E; [|done|by eapply fits_extends]. split_and!; [done| |].
  - eapply ctx_extends_trans; [exact Hx|apply E].
  - eapply later_trans; [exact Hl|apply E].
Qed.

(** The arguments of a call. *)
Definition sizes (args : list Expr) : Z := Z.of_nat (list_sum_nat (map expr_size args)).
Lemma sizes_cons a args : sizes (a :: args) = size a + sizes args.
Proof. unfold sizes, size, list_sum_nat. cbn [map fold_right]. lia. Qed.
Lemma walk_app {A B C} (f : A -> C -> B * C) xs : forall out c,
  foldl (fun '(out, c) x => let '(y, c) := f x c in (out ++ [y], c)) (out, c) xs
  = let '(ys, c') := foldl (fun '(out, c) x => let '(y, c) := f x c in (out ++ [y], c)) ([], c) xs in (out ++ ys, c').
Proof.
  induction xs as [|x xs IH]; intros out c; cbn [foldl]; [by rewrite app_nil_r|]. destruct (f x c) as [y c1]. cbn [app].
  rewrite IH, (IH [y] c1). destruct (foldl _ ([], c1) xs) as [ys c2]. by rewrite <- app_assoc.
Qed.
Lemma cse_list_cons f a args c : cse_list f (a :: args) c
  = let '(a', c1) := f a c in let '(args', c2) := cse_list f args c1 in (a' :: args', c2).
Proof. unfold cse_list. cbn [foldl]. destruct (f a c) as [a' c1]. by rewrite walk_app. Qed.
Lemma args_ok args : Forall rewriting args -> forall c args' c', forallb regular args = true ->
  fits (sizes args * sizes args) c -> cse_list cse_expr args c = (args', c') ->
  extends (sizes args * sizes args) c c' /\ later c c' /\ forallb regular args' = true /\ sizes args' <= sizes args
  /\ (forallb load_free args = true -> forallb load_free args' = true) /\ length args' = length args
  /\ forall lane inputs input, carries c c' lane (hash_encode_inputs (fun a => eval a lane) args inputs input)
       (hash_encode_inputs (fun a => eval a lane) args' inputs input).
Proof.
  induction 1 as [|a args Ha _ IH]; intros c args' c' Hr Hf E.
  { injection E as <- <-. split_and!; try done; [by apply ctx_extends_refl; apply Hf|]. intros lane inputs input. apply carries_ret. }
  rewrite cse_list_cons in E. destruct (cse_expr a c) as [a' c1] eqn:Ea. destruct (cse_list cse_expr args c1) as [args1 c2] eqn:Eas.
  injection E as <- <-. cbn [forallb] in *. rewrite !andb_true_iff in *. destruct Hr as [Hra Hr].
  pose proof (sizes_cons a args) as Es.
  assert (0 <= size a /\ 0 <= sizes args) as [P1 P2] by (unfold sizes, size; lia).
  apply Ha in Ea as [X L R S F V]; [|done|eapply fits_less; [exact Hf|nia]].
  apply IH in Eas as (X' & L' & R' & S' & F' & N' & V'); [|done|eapply fits_extends; [|exact X]; eapply fits_less; [exact Hf|nia]].
  split_and!; [|by eapply later_trans|done..| | |by cbn; rewrite N'|].
  - eapply extends_more; [by eapply ctx_extends_trans|nia].
  - rewrite sizes_cons. lia.
  - naive_solver.
  - intros lane inputs input. destruct inputs as [|ty inputs]; cbn [hash_encode_inputs].
    { eapply carries_later; [apply carries_ret|by eapply later_trans]. }
    cbv zeta. repeat (eapply carries_bind; [apply carries_lift|intros ?]). eapply carries_bind; [apply V|intros ?].
    eapply carries_bind; [apply carries_lift|intros ?]. apply V'.
Qed.

(** *** Expressions *)

Lemma leaf_ok e c e' c' : regular e = true -> size e = 1 -> (forall lane, carries c c lane (eval e lane) (eval e lane)) ->
  fits (size e * size e) c -> reuse e c = (e', c') -> rewrites (size e * size e) e e' c c'.
Proof.
  intros Hr Hs Hc Hf. eapply (reuse_ok 0); try done; [by apply ctx_extends_refl; apply Hf|nia].
Qed.
Local Ltac operand IH E :=
  match type of E with context [cse_expr ?x ?c] =>
    let c1 := fresh "c" in let x' := fresh "x" in let Ex := fresh "Ex" in
    destruct (cse_expr x c) as [x' c1] eqn:Ex;
    match goal with Hx : extends ?k ?c0 c, Hl : later ?c0 c |- _ =>
      let R := fresh "R" in
      destruct (operand_ok _ _ _ _ _ _ IH ltac:(done) Hx Hl ltac:(eapply fits_less; [eassumption|unfold size in *; cbn [expr_size]; nia]) Ex) as (R & ? & ?); clear Hx Hl;
      destruct R
    end
  end.
Local Ltac finish E := match goal with Hx : extends _ _ _, Hl : later _ _ |- _ =>
    eapply (reuse_ok _ _ _ _ _ _ _ _ Hx Hl) in E; [exact E|eassumption|unfold size in *; cbn [expr_size]; nia
      |cbn [regular]; rewrite ?andb_true_iff; split_and?; assumption
      |unfold size in *; cbn [expr_size]; lia
      |cbn [load_free]; rewrite ?andb_true_iff; naive_solver|intros lane; cbn [eval_expr]; cbv zeta] end.
(** An atomic operation hides everything first. *)
Local Ltac cleared E := match goal with Hx : extends ?k ?c0 ?c, Hl : later ?c0 ?c |- _ =>
    let f := fresh "f" in let X := fresh "X" in let H := fresh "Hidden" in
    assert (fits 1 c) as f by (eapply fits_extends; [|exact Hx]; eapply fits_less; [eassumption|unfold size in *; cbn [expr_size]; nia]);
    destruct (clear_extends _ f) as [X H]; pose proof (ctx_extends_trans _ _ _ _ _ Hx X); pose proof (later_trans _ _ _ Hl (later_clear _ f));
    clear Hx Hl X; finish E end.
Local Ltac carry := eapply carries_bind; [first [match goal with V : forall lane, carries _ _ lane _ _ |- _ => apply V end|apply carries_lift]|intros ?].

Lemma cse_expr_ok e : rewriting e.
Proof.
  induction e using Expr_ind'; intros c0 e' c' Hr Hf E; cbn [regular] in Hr; try done;
    try (apply leaf_ok; [done..| |done|exact E]; intros lane; apply carries_pure; done);
    assert (extends 0 c0 c0) by (apply ctx_extends_refl; apply Hf); pose proof (later_refl c0);
    cbn [cse_expr] in E; rewrite ?andb_true_iff in Hr; destruct_and?.
  - operand IHe E. finish E. carry. carry. apply carries_load.
  - operand IHe1 E. operand IHe2 E. finish E. carry. carry. apply carries_lift.
  - operand IHe E. finish E. carry. apply carries_lift.
  - destruct (cse_list cse_expr args c0) as [args' c1] eqn:Ea. eapply args_ok in Ea as (X & L & R & S & F & N & V); [|done..|eapply fits_less; [exact Hf|]].
    + eapply (reuse_ok _ _ _ _ _ _ _ _ X L) in E; [exact E|done|..]; try done; [| |intros lane; cbn [eval_expr]; unfold hash_eval_call].
      * unfold size, sizes in *. cbn [expr_size]. nia.
      * unfold size, sizes in *. cbn [expr_size]. lia.
      * carry. rewrite N. carry. eapply carries_bind; [apply V|intros ?]. carry. apply carries_ret.
    + unfold size, sizes. cbn [expr_size]. nia.
  - operand IHe1 E. operand IHe2 E. operand IHe3 E. finish E. carry. carry. carry. apply carries_ret.
  - operand IHe E. finish E. carry. apply carries_lift.
  - operand IHe1 E. operand IHe2 E. operand IHe3 E. finish E. repeat carry. apply carries_ret.
  - pose proof (expr_size_pos e1). destruct e2 as [y|]; cbn [Forall_opt] in *; operand IHe1 E.
    + operand H E. operand IHe2 E. cleared E. carry. carry. carry. eapply carries_bind; [|intros ?].
      { carry. carry. apply carries_ret. }
      carry. carry. by apply carries_hidden.
    + operand IHe2 E. cleared E. carry. carry. carry. eapply carries_bind; [apply carries_ret|intros ?]. carry. carry.
      by apply carries_hidden.
  - apply leaf_ok; [done..| |done|exact E]. intros lane m a m1 _ Ex. done.
Qed.
End Sound.
