(* ===== verification/CseLockstep.v ===== *)
(** A kernel after common-subexpression elimination runs in lockstep with the original.

    Source and target take the same steps, with the same locals and the same memory; the
    statements that are left of every open list are related by the context the pass had
    there ([list_rel]).  The context of the innermost list is sound for the locals and the
    memory of the moment; those of the lists around it show nothing ([stack_rel]). *)

From S2P Require Import Prelude Float Spec IR RefValue RefMemory RefEval RefHash RefSched RefSchedSound RefWorkgroup.
From S2P Require Import StrengthReduce Rewrite DeadCode ScopingSound DeadCodeSim Cse CseKeys CseSound.

(** ** Walking over statements *)

Lemma cse_nodes_cons n ns c : cse_nodes (n :: ns) c
  = let '(n', c1) := cse_node n c in let '(ns', c2) := cse_nodes ns c1 in (n' :: ns', c2).
Proof. unfold cse_nodes, cse_nodes_with. cbn [foldl]. destruct (cse_node n c) as [n' c1]. by rewrite walk_app. Qed.

(** How many keys and epochs a statement can take. *)
Definition square (e : Expr) : Z := size e * size e.
Fixpoint node_cost (n : Node) : Z :=
  match n with
  | Node.Let _ e => square e + size e + 1
  | Node.Assign _ e => square e + 1
  | Node.Store _ i e => square i + square e + 1
  | Node.If e t o => square e + foldr (fun n k => node_cost n + k) 0 t + foldr (fun n k => node_cost n + k) 0 o + 1
  | Node.Loop _ a b body => square a + square b + foldr (fun n k => node_cost n + k) 0 body + 1
  | Node.Block body | Node.Region _ _ body => foldr (fun n k => node_cost n + k) 0 body + 1
  | _ => 1
  end.
Definition nodes_cost (ns : list Node) : Z := foldr (fun n k => node_cost n + k) 0 ns.

Lemma size_pos e : 0 < size e.
Proof. unfold size. pose proof (expr_size_pos e). lia. Qed.
Lemma square_pos e : 0 < square e.
Proof. unfold square. pose proof (size_pos e). nia. Qed.
Lemma costs_nonneg ns : Forall (fun n => 0 <= node_cost n) ns -> 0 <= nodes_cost ns.
Proof. unfold nodes_cost. induction 1; cbn [foldr]; lia. Qed.
Lemma node_cost_nonneg n : 0 <= node_cost n.
Proof.
  induction n using Node_ind'; cbn [node_cost]; try lia;
    repeat match goal with H : Forall _ _ |- _ => apply costs_nonneg in H; unfold nodes_cost in H end;
    repeat match goal with |- context [square ?e] => lazymatch goal with _ : 0 < square e |- _ => fail | _ => pose proof (square_pos e) end end;
    repeat match goal with |- context [size ?e] => lazymatch goal with _ : 0 < size e |- _ => fail | _ => pose proof (size_pos e) end end; lia.
Qed.
Lemma nodes_cost_nonneg ns : 0 <= nodes_cost ns.
Proof. apply costs_nonneg, Forall_true, node_cost_nonneg. Qed.
Lemma nodes_cost_cons n ns : nodes_cost (n :: ns) = node_cost n + nodes_cost ns.
Proof. done. Qed.

(** Barriers stay where they are. *)
Lemma barriers_kept ns : Forall (fun n => forall c, node_contains_barrier (fst (cse_node n c)) = node_contains_barrier n) ns ->
  forall c, contains_barrier (fst (cse_nodes ns c)) = contains_barrier ns.
Proof.
  induction 1 as [|n ns Hn _ IH]; intros c; [done|]. rewrite cse_nodes_cons. specialize (Hn c).
  destruct (cse_node n c) as [n' c1]. specialize (IH c1). destruct (cse_nodes ns c1) as [ns' c2]. cbn [fst] in *.
  unfold contains_barrier in *. cbn [existsb]. by rewrite Hn, IH.
Qed.
Lemma node_barrier n : forall c, node_contains_barrier (fst (cse_node n c)) = node_contains_barrier n.
Proof.
  induction n using Node_ind'; intros c0; cbn [cse_node]; change (cse_nodes_with cse_node) with cse_nodes; try done;
    repeat match goal with H : Forall _ _ |- _ => pose proof (barriers_kept _ H); clear H end; unfold contains_barrier in *;
    repeat match goal with
    | |- context [cse_expr ?e ?c] => destruct (cse_expr e c)
    | |- context [cse_nodes ?ns ?c] => match goal with H : forall c, existsb _ (fst (cse_nodes ns c)) = _ |- _ =>
        specialize (H c); destruct (cse_nodes ns c); cbn [fst] in H end
    | |- context [intern_expr ?e ?c] => destruct (intern_expr e c)
    end; cbn [fst node_contains_barrier]; try congruence; repeat case_match; done.
Qed.
Lemma nodes_barrier ns c : contains_barrier (fst (cse_nodes ns c)) = contains_barrier ns.
Proof. apply barriers_kept, Forall_true, node_barrier. Qed.

Section Lockstep.
Context (fe : FloatEnv) (dialect : option (string -> option OpDef)) (racy : bool).
Abbreviation eval := (eval_expr fe dialect []).
Abbreviation sound := (sound fe dialect racy).
Abbreviation rewrites := (rewrites fe dialect racy).

(** What the pass may rewrite: regular expressions; bindings without loads when other
    invocations may change the memory. *)
Fixpoint node_ok (n : Node) : bool :=
  match n with
  | Node.Let _ e => regular e && (negb racy || load_free e)
  | Node.Assign _ e => regular e
  | Node.Store _ i e => regular i && regular e
  | Node.If e t o => regular e && forallb node_ok t && forallb node_ok o
  | Node.Loop _ a b body => regular a && regular b && forallb node_ok body
  | Node.Block body | Node.Region _ _ body => forallb node_ok body
  | _ => true
  end.

(** *** Contexts *)

Lemma expr_ok e c e' c' : regular e = true -> fits (square e) c -> cse_expr e c = (e', c') -> rewrites (square e) e e' c c'.
Proof. apply cse_expr_ok. Qed.
(** The end of a statement that hides everything. *)
Lemma clear_next k c c1 : extends k c c1 -> fits (k + 1) c ->
  extends (k + 1) c (clear_observed_state c1) /\ hidden (clear_observed_state c1).
Proof.
  intros X F. destruct (clear_extends c1) as [X1 H]; [by eapply fits_extends|]. split; [by eapply ctx_extends_trans|done].
Qed.
Definition walking (n : Node) : Prop := forall c n' c', node_ok n = true -> fits (node_cost n) c ->
  cse_node n c = (n', c') -> extends (node_cost n) c c'.
Lemma list_walk ns : Forall walking ns -> forall c ns' c', forallb node_ok ns = true -> fits (nodes_cost ns) c ->
  cse_nodes ns c = (ns', c') -> extends (nodes_cost ns) c c'.
Proof.
  induction 1 as [|n ns Hn _ IH]; intros c ns' c' Hok Hf E.
  { injection E as <- <-. apply ctx_extends_refl; apply Hf. }
  rewrite cse_nodes_cons in E. rewrite nodes_cost_cons in *. destruct (cse_node n c) as [n' c1] eqn:En.
  destruct (cse_nodes ns c1) as [ns1 c2] eqn:Ens. injection E as <- <-. apply andb_true_iff in Hok as [Hok1 Hok2].
  pose proof (nodes_cost_nonneg ns). apply Hn in En; [|done|eapply fits_less; [exact Hf|lia]].
  eapply ctx_extends_trans; [exact En|]. eapply IH; [done| |exact Ens]. by eapply fits_extends.
Qed.
(** A list inside a statement: it starts with what is visible, and gives it back. *)
Lemma nested_walk ns k c c1 ns' c2 : Forall walking ns -> forallb node_ok ns = true -> extends k c c1 ->
  fits (k + nodes_cost ns) c -> cse_nodes ns (enter_scope c1) = (ns', c2) ->
  extends (k + nodes_cost ns) c (leave_scope c2) /\ later c1 (leave_scope c2).
Proof.
  intros Hw Hok X F E. pose proof (fits_extends _ _ _ _ F X) as F1.
  apply list_walk in E; [|done..|by apply enter_fits]. apply leave_extends in E as (X2 & V & _); [|done].
  split; [by eapply ctx_extends_trans|]. split; [apply X2|]. intros id name. by rewrite V.
Qed.
Lemma let_walk x e c n' c' : regular e = true -> fits (square e + size e + 1) c -> cse_node (Node.Let x e) c = (n', c') ->
  extends (square e + size e + 1) c c'.
Proof.
  intros Hr F E. cbn [cse_node] in E. destruct (cse_expr e c) as [e1 c1] eqn:Ee. pose proof (size_pos e).
  apply expr_ok in Ee as [X L R S Fr V]; [|done|eapply fits_less; [exact F|lia]]. destruct (expr_has_effect e1) eqn:Eff.
  { injection E as <- <-. eapply extends_more; [eapply clear_next; [exact X|]|lia]. eapply fits_less; [exact F|lia]. }
  destruct (never_recorded e1).
  { injection E as <- <-. eapply extends_more; [exact X|lia]. }
  destruct (intern_expr e1 c1) as [key c2] eqn:Ei. assert (fits (size e) c1) as F1.
  { eapply fits_extends; [|exact X]. eapply fits_less; [exact F|lia]. }
  assert (fits (size e1) c1) as F2 by (eapply fits_less; [exact F1|lia]).
  destruct (intern_ok e1 c1 key c2 (conj R Eff) (fit_interned _ _ F2) (fit_arena _ _ F2) Ei) as [Hi _].
  apply interns_extends in Hi; [|exact F2]. pose proof (ctx_extends_trans _ _ _ _ _ X Hi) as X2. fold (size e1) in X2.
  destruct (visible_value c2 key); injection E as <- <-; [eapply extends_more; [exact X2|lia]|].
  eapply extends_more; [eapply ctx_extends_trans; [exact X2|apply record_extends; apply X2]|lia].
Qed.
Local Ltac room F := eapply fits_less; [exact F|];
  repeat match goal with |- context [nodes_cost ?ns] => lazymatch goal with _ : 0 <= nodes_cost ns |- _ => fail | _ => pose proof (nodes_cost_nonneg ns) end end;
  repeat match goal with |- context [square ?e] => lazymatch goal with _ : 0 < square e |- _ => fail | _ => pose proof (square_pos e) end end; lia.
(** One expression of a statement. *)
Lemma expr_walk e k c c1 e' c2 : regular e = true -> extends k c c1 -> fits (k + square e) c -> cse_expr e c1 = (e', c2) ->
  rewrites (square e) e e' c1 c2 /\ extends (k + square e) c c2.
Proof.
  intros Hr X F E. apply expr_ok in E; [|done|by eapply fits_extends]. split; [done|]. eapply ctx_extends_trans; [exact X|apply E].
Qed.
Local Ltac expression e E := match type of E with context [cse_expr e ?c] =>
  let c1 := fresh "c" in let Ex := fresh "Ex" in destruct (cse_expr e c) as [? c1] eqn:Ex;
  match goal with X : extends _ _ c, F : fits _ _ |- _ => eapply expr_walk in Ex as [_ ?]; [clear X|done|exact X|room F] end end.
Local Ltac nested ns E := match type of E with context [cse_nodes ns (enter_scope ?c)] =>
  let c1 := fresh "c" in let Ex := fresh "Ex" in destruct (cse_nodes ns (enter_scope c)) as [? c1] eqn:Ex;
  match goal with X : extends _ _ c, F : fits _ _ |- _ => eapply nested_walk in Ex as [? _]; [clear X|done|done|exact X|room F] end end.
Local Ltac ends E := injection E as <- <-; match goal with X : extends _ _ _, F : fits _ _ |- _ =>
  eapply extends_more; [eapply clear_next; [exact X|room F]|try lia] end.
Lemma node_walk n : walking n.
Proof.
  induction n using Node_ind'; intros c0 n' c' Hok F E; cbn [node_ok] in Hok; cbn [node_cost] in *;
    change (foldr (fun n k => node_cost n + k) 0) with nodes_cost in *; rewrite ?andb_true_iff in Hok; destruct_and?;
    try (by eapply let_walk); cbn [cse_node] in E; change (cse_nodes_with cse_node) with cse_nodes in E;
    try (injection E as <- <-; by apply clear_extends); assert (extends 0 c0 c0) as X0 by (apply ctx_extends_refl; apply F).
  - expression e E. by ends E.
  - expression i E. expression v E. by ends E.
  - expression c E. nested t E. nested o E. by ends E.
  - expression f E. expression t E. destruct (cse_nodes b cse_default). pose proof (nodes_cost_nonneg b). by ends E.
  - injection E as <- <-. by eapply extends_more; [exact X0|].
  - nested b E. by ends E.
  - nested b E. by ends E.
Qed.

(** *** Related stacks *)

Definition list_rel (c : CseCtx) (ns ns' : list Node) : Prop :=
  forallb node_ok ns = true /\ fits (nodes_cost ns) c /\ ns' = fst (cse_nodes ns c).
Definition frame_rel (seen : CseCtx -> Prop) (f f' : NodeFrame) : Prop :=
  match f, f' with
  | FrNodes path ns k scoped, FrNodes path' ns' k' scoped' =>
      path' = path /\ k' = k /\ scoped' = scoped /\ exists c, seen c /\ list_rel c (drop k ns) (drop k ns')
  | FrLoop path var next to body, FrLoop path' var' next' to' body' =>
      path' = path /\ var' = var /\ next' = next /\ to' = to /\ list_rel cse_default body body'
  | _, _ => False
  end.
Definition stack_rel (lane : HashmapInvocationSnapshot) (m : HashmapMemory) (fs fs' : list NodeFrame) : Prop :=
  match fs, fs' with
  | [], [] => True
  | f :: fs, f' :: fs' => frame_rel (fun c => sound c lane m) f f' /\ Forall2 (frame_rel hidden) fs fs'
  | _, _ => False
  end.

Lemma frame_rel_impl (P Q : CseCtx -> Prop) f f' : (forall c, P c -> Q c) -> frame_rel P f f' -> frame_rel Q f f'.
Proof. intros H. destruct f, f'; cbn [frame_rel]; naive_solver. Qed.
(** With nothing visible any locals and any memory do. *)
Lemma stack_hidden lane m fs fs' : Forall2 (frame_rel hidden) fs fs' -> stack_rel lane m fs fs'.
Proof.
  destruct 1; [done|]. split; [|done]. eapply frame_rel_impl; [|done]. intros c. by apply sound_hidden.
Qed.
Lemma stack_rely lane m m' fs fs' : stack_rel lane m fs fs' -> rely racy m m' -> stack_rel lane m' fs fs'.
Proof.
  destruct fs, fs'; cbn [stack_rel]; try done. intros [H Hs] Hr. split; [|done]. eapply frame_rel_impl; [|done].
  intros c Hc. cbv beta in *. exact (sound_rely _ _ _ _ _ _ _ Hc Hr).
Qed.
Lemma list_rel_cons c n ns out : list_rel c (n :: ns) out -> exists n' c1 out', out = n' :: out'
  /\ cse_node n c = (n', c1) /\ node_ok n = true /\ fits (node_cost n) c /\ list_rel c1 ns out'.
Proof.
  intros (Hok & F & ->). rewrite cse_nodes_cons. rewrite nodes_cost_cons in F. cbn [forallb] in Hok. apply andb_true_iff in Hok as [Hok1 Hok2].
  destruct (cse_node n c) as [n' c1] eqn:En. exists n', c1, (fst (cse_nodes ns c1)). pose proof (nodes_cost_nonneg ns).
  assert (fits (node_cost n) c) as F1 by (eapply fits_less; [exact F|lia]).
  split; [by destruct (cse_nodes ns c1)|]. split; [done|]. split; [done|]. split; [done|]. split; [done|]. split; [|done].
  eapply fits_extends; [exact F|]. by eapply node_walk.
Qed.
Lemma list_rel_nil c out : list_rel c [] out -> out = [].
Proof. by intros (_ & _ & ->). Qed.
Lemma default_fits ns : nodes_cost ns <= 2 ^ 32 -> fits (nodes_cost ns) cse_default.
Proof. intros H. split; try done; unfold arena_len; cbn; lia. Qed.

(** *** Statements *)

(** A statement without lists works on the stack it finds. *)
Definition keeps_frames (n : Node) : bool :=
  match n with
  | Node.If _ _ _ | Node.Loop _ _ _ _ | Node.Block _ | Node.Region _ _ _ | Node.Return => false
  | _ => true
  end.
Lemma begin_frames i tag t m j m1 : hlift (begin_async i tag t) m = Ok (j, m1) ->
  hi_frames j = hi_frames i /\ forall F, hlift (begin_async (with_frames i F) tag t) m = Ok (with_frames j F, m1).
Proof. unfold hlift, begin_async. cbn [with_frames hi_pending_async]. destruct (_ !! _); [done|]. by intros [= <- <-]. Qed.
Lemma finish_frames i tag m r m1 : hlift (finish_async i tag) m = Ok (r, m1) ->
  hi_frames r.2 = hi_frames i /\ forall F, hlift (finish_async (with_frames i F) tag) m = Ok ((r.1, with_frames r.2 F), m1).
Proof.
  unfold hlift, finish_async. cbn [with_frames hi_pending_async]. unfold ok_or. destruct (_ !! _); [|done].
  cbn. by intros [= <- <-].
Qed.
Lemma exec_frames n id i m i1 m1 : keeps_frames n = true -> exec_node fe dialect [] n id i m = Ok (i1, m1) ->
  hi_frames i1 = hi_frames i /\ forall F, exec_node fe dialect [] n id (with_frames i F) m = Ok (with_frames i1 F, m1).
Proof.
  intros Hk. destruct n; try done; clear Hk; cbn [exec_node]; intros E;
    repeat match goal with
    | E : (_ ≫= _) _ = Ok _ |- _ => let Ex := fresh "Ex" in apply hbind_Ok in E as (? & ? & Ex & E)
    end; try done; try (injection E as <- <-; split; [done|]; intros F; repeat (etrans; [eapply hbind_eq; eassumption|]); done).
  - destruct (begin_frames _ _ _ _ _ _ E) as [Hf Hb]. split; [done|]. intros F. etrans; [by eapply hbind_eq|apply Hb].
  - destruct (begin_frames _ _ _ _ _ _ E) as [Hf Hb]. split; [done|]. intros F. etrans; [by eapply hbind_eq|apply Hb].
  - injection E as <- <-. destruct (finish_frames _ _ _ _ _ Ex) as [Hf Hb]. split; [done|]. intros F.
    etrans; [by eapply hbind_eq|]. cbn [fst snd]. by etrans; [eapply hbind_eq; eassumption|].
Qed.

(** After the statement: the same list goes on, or a list or loop has been entered, or the
    invocation has returned. *)
Definition follows (c : CseCtx) (i : HashmapInvocation) (F : list NodeFrame) (i1 : HashmapInvocation) (F1 : list NodeFrame)
    (m1 : HashmapMemory) : Prop :=
  (hi_frames i1 = hi_frames i /\ F1 = F /\ sound c (snapshot i1) m1)
  \/ (exists f f', hi_frames i1 = f :: hi_frames i /\ F1 = f' :: F /\ hidden c
       /\ frame_rel (fun c => sound c (snapshot i1) m1) f f')
  \/ (hi_frames i1 = [] /\ F1 = []).
Definition executes (n : Node) (c : CseCtx) (n' : Node) (c1 : CseCtx) : Prop := forall id i m i1 m1 F,
  sound c (snapshot i) m -> exec_node fe dialect [] n id i m = Ok (i1, m1) ->
  exists F1, exec_node fe dialect [] n' id (with_frames i F) m = Ok (with_frames i1 F1, m1) /\ follows c1 i F i1 F1 m1.

Lemma bind_grows l x v l' : bind l x v = Ok l' -> lo_locals l ⊆ lo_locals l' /\ lo_locals l' !! x = Some v.
Proof.
  unfold bind. destruct (lo_locals l !! x) eqn:E; [done|]. intros [= <-]. cbn. split; [by apply insert_subseteq|apply lookup_insert_eq].
Qed.
(** A new binding of a value that nothing can change. *)
Lemma sound_record c key x e lane lane' m v : sound c lane' m -> repr (arena c) e key -> internable e ->
  (racy = true -> load_free e = true) -> sn_ids lane = sn_ids lane' -> sn_locals lane ⊆ sn_locals lane' ->
  sn_locals lane' !! x = Some v -> eval e lane m = Ok (v, m) -> sound (record_insert key x c) lane' m.
Proof.
  intros H R I Hl Hids Hsub Hx E id name. rewrite record_visible. case_decide as Hid; [|apply H]. intros [= <-]. subst id.
  pose proof (eval_more fe dialect e lane lane' (proj1 I) Hids Hsub _ _ E) as E'. exists e, v. split_and!; [done..|].
  intros m' [Hr| ->]; [|done]. by apply (load_free_memoryless fe dialect e lane' I (Hl Hr)) in E' as [_ E'].
Qed.
Lemma let_executes x e c n' c1 : regular e = true -> (racy = true -> load_free e = true) -> fits (square e + size e + 1) c ->
  cse_node (Node.Let x e) c = (n', c1) -> executes (Node.Let x e) c n' c1.
Proof.
  intros Hr Hl F E id i m i1 m1 F' Hs Hx. cbn [exec_node] in Hx. apply hbind_Ok in Hx as (v & m0 & Ev & Hx).
  apply hbind_Ok in Hx as (l & m2 & [Eb ->]%hlift_Ok & [= <- <-]). destruct (bind_grows _ _ _ _ Eb) as [Hsub Hx].
  cbn [cse_node] in E. destruct (cse_expr e c) as [e1 c2] eqn:Ee. pose proof (size_pos e).
  apply expr_ok in Ee as [X L R S Fr V]; [|done|eapply fits_less; [exact F|lia]]. destruct (V _ _ _ _ Hs Ev) as [Ev1 Hs1].
  assert (forall e2 c3, eval e2 (snapshot i) m = Ok (v, m0) -> sound c3 (snapshot (with_locals i l)) m0 ->
    exists F1, exec_node fe dialect [] (Node.Let x e2) id (with_frames i F') m = Ok (with_frames (with_locals i l) F1, m0)
      /\ follows c3 i F' (with_locals i l) F1 m0) as Hdone.
  { intros e2 c3 E2 H3. exists F'. split; [|by left]. cbn [exec_node]. etrans; [by eapply hbind_eq|]. cbn [with_frames hi_locals].
    by rewrite Eb. }
  assert (forall c3, sound c3 (snapshot i) m0 -> sound c3 (snapshot (with_locals i l)) m0) as Hmore.
  { intros c3 H3. eapply sound_more; [exact H3|done..]. }
  destruct (expr_has_effect e1) eqn:Eff.
  { injection E as <- <-. apply Hdone; [done|]. eapply sound_hidden, clear_next; [exact X|]. eapply fits_less; [exact F|lia]. }
  destruct (never_recorded e1); [injection E as <- <-; auto|]. destruct (intern_expr e1 c2) as [key c3] eqn:Ei.
  assert (fits (size e1) c2) as F2.
  { eapply fits_extends; [|exact X]. eapply fits_less; [exact F|lia]. }
  destruct (intern_ok e1 c2 key c3 (conj R Eff) (fit_interned _ _ F2) (fit_arena _ _ F2) Ei) as [Hi Hk].
  pose proof (sound_later _ _ _ _ _ _ _ Hs1 (later_interns _ _ _ Hi)) as Hs3.
  pose proof (internable_pure _ _ _ _ _ _ _ (conj R Eff) Ev1) as ->.
  destruct (visible_value c3 key) as [nm|] eqn:Vis; injection E as <- <-.
  - apply Hdone; [|by apply Hmore]. apply eval_var_name. by eapply sound_use.
  - apply Hdone; [done|]. eapply sound_record; [by apply Hmore|exact Hk|by split|auto|..|exact Ev1]; done.
Qed.
Lemma assign_executes x e c n' c1 : regular e = true -> fits (square e + 1) c ->
  cse_node (Node.Assign x e) c = (n', c1) -> executes (Node.Assign x e) c n' c1.
Proof.
  intros Hr F E id i m i1 m1 F' Hs Hx. apply exec_frames in Hx as Hf; [|done]. cbn [exec_node] in Hx.
  apply hbind_Ok in Hx as (v & m0 & Ev & Hx). cbn [cse_node] in E. destruct (cse_expr e c) as [e1 c2] eqn:Ee.
  apply expr_ok in Ee as [X L R S Fr V]; [|done|eapply fits_less; [exact F|lia]]. destruct (V _ _ _ _ Hs Ev) as [Ev1 _].
  injection E as <- <-. exists F'. split.
  - apply (proj2 (exec_frames (Node.Assign x e1) id i m i1 m1 eq_refl ltac:(etrans; [by eapply hbind_eq|exact Hx]))).
  - left. split_and!; [apply Hf|done|]. by eapply sound_hidden, clear_next.
Qed.
Lemma store_executes b a e c n' c1 : regular a = true -> regular e = true -> fits (square a + square e + 1) c ->
  cse_node (Node.Store b a e) c = (n', c1) -> executes (Node.Store b a e) c n' c1.
Proof.
  intros Ha Hr F E id i m i1 m1 F' Hs Hx. apply exec_frames in Hx as Hf; [|done]. cbn [exec_node] in Hx.
  apply hbind_Ok in Hx as (x & m0 & Ex & Hx). apply hbind_Ok in Hx as (idx & m2 & Ei & Hx). apply hbind_Ok in Hx as (v & m3 & Ev & Hx).
  pose proof (proj2 (hlift_Ok _ _ _ _ Ei)) as ->. cbn [cse_node] in E. destruct (cse_expr a c) as [a1 c2] eqn:Ea.
  destruct (cse_expr e c2) as [e1 c3] eqn:Ee. pose proof (square_pos e).
  apply expr_ok in Ea as [X _ _ _ _ V]; [|done|eapply fits_less; [exact F|lia]]. destruct (V _ _ _ _ Hs Ex) as [Ex1 Hs1].
  eapply expr_walk in Ee as [[_ _ _ _ _ V'] X']; [|done|exact X|eapply fits_less; [exact F|lia]].
  destruct (V' _ _ _ _ Hs1 Ev) as [Ev1 _]. injection E as <- <-. exists F'. split.
  - apply (proj2 (exec_frames (Node.Store b a1 e1) id i m i1 m1 eq_refl ltac:(do 3 (etrans; [by eapply hbind_eq|]); exact Hx))).
  - left. split_and!; [apply Hf|done|]. by eapply sound_hidden, clear_next.
Qed.
Lemma same_executes n c n' c1 : keeps_frames n = true -> fits 1 c -> n' = n -> c1 = clear_observed_state c -> executes n c n' c1.
Proof.
  intros Hk F -> -> id i m i1 m1 F' _ Hx. apply exec_frames in Hx as [Hf Hx]; [|done]. exists F'. split; [apply Hx|].
  left. split_and!; [done..|]. by apply sound_hidden, clear_extends.
Qed.
Lemma nested_list ns k c c1 : forallb node_ok ns = true -> extends k c c1 -> fits (k + nodes_cost ns) c ->
  list_rel (enter_scope c1) ns (fst (cse_nodes ns (enter_scope c1))).
Proof. intros Hok X F. split_and!; [done| |done]. apply enter_fits. by eapply fits_extends. Qed.
Lemma walks ns : Forall walking ns.
Proof. apply Forall_true, node_walk. Qed.
Lemma enter_follows i j path ns ns' c c1 F m : hi_frames j = hi_frames i -> sound c (snapshot j) m -> list_rel c ns ns' ->
  hidden c1 -> follows c1 i F (enter j path ns) (FrNodes path ns' 0 true :: F) m.
Proof.
  intros Hj Hs Hl Hh. right. left. do 2 eexists. split_and!; [by rewrite <- Hj|done..|]. cbn [frame_rel]. split_and!; [done..|].
  exists c. by split.
Qed.
Lemma block_executes ns c c1 : forallb node_ok ns = true -> fits (nodes_cost ns + 1) c ->
  c1 = clear_observed_state (leave_scope (snd (cse_nodes ns (enter_scope c)))) -> forall id i m F, sound c (snapshot i) m ->
  follows c1 i F (enter i (id ++ [0%nat]) ns) (FrNodes (id ++ [0%nat]) (fst (cse_nodes ns (enter_scope c))) 0 true :: F) m.
Proof.
  intros Hok F -> id i m F' Hs. assert (extends 0 c c) as X0 by (apply ctx_extends_refl; apply F).
  assert (fits (0 + nodes_cost ns) c) as F0 by (eapply fits_less; [exact F|lia]).
  destruct (cse_nodes ns (enter_scope c)) as [ns' c2] eqn:E.
  pose proof (nested_list _ _ _ _ Hok X0 F0) as Hl. destruct (nested_walk _ _ _ _ _ _ (walks ns) Hok X0 F0 E) as [X2 _].
  rewrite E in Hl. eapply enter_follows; [done| |exact Hl|by eapply clear_next]. exact Hs.
Qed.
Lemma if_executes e t o c n' c1 : regular e = true -> forallb node_ok t = true -> forallb node_ok o = true ->
  fits (square e + nodes_cost t + nodes_cost o + 1) c ->
  cse_node (Node.If e t o) c = (n', c1) -> executes (Node.If e t o) c n' c1.
Proof.
  intros Hr Ht Ho F E id i m i1 m1 F' Hs Hx. cbn [exec_node] in Hx. apply hbind_Ok in Hx as (v & m0 & Ev & [= <- <-]).
  cbn [cse_node] in E. change (cse_nodes_with cse_node) with cse_nodes in E.
  destruct (cse_expr e c) as [e1 c2] eqn:Ee. pose proof (nodes_cost_nonneg t). pose proof (nodes_cost_nonneg o).
  apply expr_ok in Ee as [X _ _ _ _ V]; [|done|eapply fits_less; [exact F|lia]]. destruct (V _ _ _ _ Hs Ev) as [Ev1 Hs1].
  assert (fits (square e + nodes_cost t) c) as Ft by (eapply fits_less; [exact F|lia]).
  pose proof (nested_list _ _ _ _ Ht X Ft) as Hlt. pose proof (nodes_barrier t (enter_scope c2)) as Bt.
  destruct (cse_nodes t (enter_scope c2)) as [t1 c3] eqn:Et. cbn [fst] in *.
  destruct (nested_walk _ _ _ _ _ _ (walks t) Ht X Ft Et) as [Xt Lt].
  assert (fits (square e + nodes_cost t + nodes_cost o) c) as Fo by (eapply fits_less; [exact F|lia]).
  pose proof (nested_list _ _ _ _ Ho Xt Fo) as Hlo. pose proof (nodes_barrier o (enter_scope (leave_scope c3))) as Bo.
  destruct (cse_nodes o (enter_scope (leave_scope c3))) as [o1 c4] eqn:Eo. cbn [fst] in *.
  destruct (nested_walk _ _ _ _ _ _ (walks o) Ho Xt Fo Eo) as [Xo _]. injection E as <- <-.
  destruct (clear_next _ _ _ Xo F) as [_ Hh]. pose proof (sound_later _ _ _ _ _ _ _ Hs1 Lt) as Hs3.
  exists (FrNodes (id ++ [if Value.truthy v then 0%nat else 1%nat]) (if Value.truthy v then t1 else o1) 0 true :: F'). split.
  - cbn [exec_node]. etrans; [by eapply hbind_eq|]. rewrite Bt, Bo. by destruct (_ || _), (Value.truthy v).
  - destruct (contains_barrier t || contains_barrier o), (Value.truthy v); 
      (eapply enter_follows; [done| |first [exact Hlt|exact Hlo]|done]); first [exact Hs1|exact Hs3].
Qed.
Lemma loop_executes x a b body c n' c1 : regular a = true -> regular b = true -> forallb node_ok body = true ->
  fits (square a + square b + nodes_cost body + 1) c ->
  cse_node (Node.Loop x a b body) c = (n', c1) -> executes (Node.Loop x a b body) c n' c1.
Proof.
  intros Ha Hb Hok F E id i m i1 m1 F' Hs Hx. cbn [exec_node] in Hx.
  apply hbind_Ok in Hx as (v & m0 & Ev & Hx). apply hbind_Ok in Hx as (from & m2 & Ef & Hx).
  apply hbind_Ok in Hx as (w & m3 & Ew & Hx). apply hbind_Ok in Hx as (to & m4 & Et & [= <- <-]).
  pose proof (proj2 (hlift_Ok _ _ _ _ Ef)) as ->. pose proof (proj2 (hlift_Ok _ _ _ _ Et)) as ->.
  cbn [cse_node] in E. change (cse_nodes_with cse_node) with cse_nodes in E. pose proof (nodes_cost_nonneg body). pose proof (square_pos b).
  destruct (cse_expr a c) as [a1 c2] eqn:Ea. destruct (cse_expr b c2) as [b1 c3] eqn:Eb.
  apply expr_ok in Ea as [X _ _ _ _ V]; [|done|eapply fits_less; [exact F|lia]]. destruct (V _ _ _ _ Hs Ev) as [Ev1 Hs1].
  eapply expr_walk in Eb as [[_ _ _ _ _ V'] X']; [|done|exact X|eapply fits_less; [exact F|lia]].
  destruct (V' _ _ _ _ Hs1 Ew) as [Ew1 _].
  assert (list_rel cse_default body (fst (cse_nodes body cse_default))) as Hl.
  { split_and!; [done| |done]. apply default_fits. pose proof (fit_arena _ _ F). unfold arena_len in *.  pose proof (square_pos a). lia. }
  destruct (cse_nodes body cse_default) as [body1 c4]. injection E as <- <-. cbn [fst] in Hl.
  exists (FrLoop (id ++ [0%nat]) x from to body1 :: F'). split.
  - cbn [exec_node]. by do 4 (etrans; [by eapply hbind_eq|]).
  - right. left. do 2 eexists. split_and!; [done..| |by cbn]. eapply clear_next; [exact X'|]. eapply fits_less; [exact F|lia].
Qed.

Lemma node_executes n c n' c1 : node_ok n = true -> fits (node_cost n) c -> cse_node n c = (n', c1) -> executes n c n' c1.
Proof.
  intros Hok F E. destruct n; cbn [node_ok node_cost] in *; change (foldr (fun n k => node_cost n + k) 0) with nodes_cost in *;
    rewrite ?andb_true_iff in Hok; destruct_and?; try (by injection E as <- <-; apply same_executes).
  - apply let_executes; [done| |done..]. intros Hr. match goal with H : negb racy || _ = true |- _ => by rewrite Hr in H end.
  - by apply assign_executes.
  - by apply store_executes.
  - by apply if_executes.
  - by apply loop_executes.
  - injection E as <- <-. intros id i m i1 m1 F' _ [= <- <-]. exists []. split; [done|]. by right; right.
  - cbn [cse_node] in E. change (cse_nodes_with cse_node) with cse_nodes in E. intros id i m i1 m1 F' Hs [= <- <-].
    pose proof (block_executes _ _ _ Hok F eq_refl id i m F' Hs) as Hb. destruct (cse_nodes body _).
    injection E as <- <-. eexists. split; [|exact Hb]. done.
  - cbn [cse_node] in E. change (cse_nodes_with cse_node) with cse_nodes in E. intros id i m i1 m1 F' Hs [= <- <-].
    pose proof (block_executes _ _ _ Hok F eq_refl id i m F' Hs) as Hb. destruct (cse_nodes body _).
    injection E as <- <-. eexists. split; [|exact Hb]. done.
Qed.

(** *** Steps *)

Lemma drop_cons {A} (l : list A) k x : l !! k = Some x -> drop k l = x :: drop (S k) l.
Proof. intros H. by rewrite (drop_S _ _ _ H). Qed.
Lemma frames_of fs i F m : step_frames fe dialect [] fs (with_frames i F) m = step_frames fe dialect [] fs i m.
Proof. by destruct fs as [|[] fs]. Qed.
Lemma follows_stack c1 j F i1 F1 m1 path ns ns' k scoped fs fs' : hi_frames j = FrNodes path ns k scoped :: fs ->
  F = FrNodes path ns' k scoped :: fs' -> list_rel c1 (drop k ns) (drop k ns') -> Forall2 (frame_rel hidden) fs fs' ->
  follows c1 j F i1 F1 m1 -> stack_rel (snapshot i1) m1 (hi_frames i1) F1.
Proof.
  intros Hj -> Hl Hfs [(-> & -> & Hs)|[(f & f' & -> & -> & Hh & Hf)|(-> & ->)]]; rewrite ?Hj; [|split; [done|]|done].
  - split; [|done]. cbn [frame_rel]. by eauto 10.
  - constructor; [|done]. cbn [frame_rel]. by eauto 10.
Qed.
Lemma node_lockstep path ns ns' k scoped fs fs' n c i m i1 m1 : ns !! k = Some n -> sound c (snapshot i) m ->
  list_rel c (drop k ns) (drop k ns') -> Forall2 (frame_rel hidden) fs fs' ->
  exec_node fe dialect [] n (path ++ [k]) (push_frame (with_frames i fs) (FrNodes path ns (S k) scoped)) m = Ok (i1, m1) ->
  exists n' F1, ns' !! k = Some n'
    /\ exec_node fe dialect [] n' (path ++ [k]) (push_frame (with_frames i fs') (FrNodes path ns' (S k) scoped)) m = Ok (with_frames i1 F1, m1)
    /\ stack_rel (snapshot i1) m1 (hi_frames i1) F1.
Proof.
  intros En Hs Hl Hfs E. rewrite (drop_cons _ _ _ En) in Hl. apply list_rel_cons in Hl as (n' & c1 & out & Hd & Ec & Hok & F & Hl).
  assert (ns' !! k = Some n') as En'. { by rewrite <- (Nat.add_0_r k), <- lookup_drop, Hd. }
  rewrite (drop_cons _ _ _ En') in Hd. injection Hd as <-.
  destruct (node_executes _ _ _ _ Hok F Ec _ (push_frame (with_frames i fs) (FrNodes path ns (S k) scoped)) _ _ _ (FrNodes path ns' (S k) scoped :: fs') Hs E) as (F1 & Ex & Hf).
  exists n', F1. split; [done|]. split; [exact Ex|]. eapply follows_stack; [| | |exact Hfs|exact Hf]; done.
Qed.
Lemma frames_lockstep fs : forall fs' i m i1 m1, stack_rel (snapshot i) m fs fs' ->
  step_frames fe dialect [] fs i m = Ok (i1, m1) ->
  exists F1, step_frames fe dialect [] fs' i m = Ok (with_frames i1 F1, m1) /\ stack_rel (snapshot i1) m1 (hi_frames i1) F1.
Proof.
  induction fs as [|f fs IH]; intros [|f' fs'] i m i1 m1 HR E; try done.
  { injection E as <- <-. by exists []. }
  destruct HR as [Hf Hfs]. cbn [step_frames] in *. destruct f as [path ns k scoped|path var next to body], f'; try done; cbn [frame_rel] in Hf.
  - destruct Hf as (-> & -> & -> & c & Hs & Hl). unfold step_nodes_frame in *. destruct (ns !! k) as [n|] eqn:En.
    + apply hbind_Ok in E as ([stop j] & m2 & E & Ej). apply hbind_Ok in E as (i2 & m3 & E & [= <- <- <-]). injection Ej as <- <-.
      destruct (node_lockstep _ _ _ _ _ _ _ _ _ _ _ _ _ En Hs Hl Hfs E) as (n' & F1 & -> & Ex & HF). exists F1. split; [|done].
      etrans; [eapply hbind_eq; etrans; [eapply hbind_eq; exact Ex|reflexivity]|done].
    + apply lookup_ge_None in En. rewrite drop_ge in Hl by done. apply list_rel_nil in Hl.
      assert (nodes !! k = None) as ->. { by rewrite <- (Nat.add_0_r k), <- lookup_drop, Hl. }
      apply hbind_Ok in E as ([stop j] & m2 & [= <- <- <-] & E). destruct scoped.
      * injection E as <- <-. exists fs'. split; [done|]. by apply stack_hidden.
      * rewrite frames_of in E. destruct (IH fs' i m i1 m1) as (F1 & Ex & HF); [by apply stack_hidden|done|].
        exists F1. split; [|done]. etrans; [by eapply hbind_eq|]. etrans; [apply frames_of|exact Ex].
  - destruct Hf as (-> & -> & -> & -> & Hl). apply hlift_Ok in E as [E ->]. unfold step_loop_frame in *. destruct (to <=? next).
    { injection E as <-. exists fs'. split; [done|]. by apply stack_hidden. }
    cbn [push_frame with_frames hi_locals] in *. destruct (bind_loop_var _ _ _) as [l|]; [|done]. injection E as <-.
    exists (FrNodes path body0 0 true :: FrLoop path var (wrapu 32 (next + 1)) to body0 :: fs'). split; [done|].
    split; [|by constructor]. cbn [frame_rel]. split_and!; [done..|]. exists cse_default. split; [by apply sound_hidden|done].
Qed.

(** *** The schedule *)

Definition twin (m : HashmapMemory) (i i' : HashmapInvocation) : Prop :=
  exists F, i' = with_frames i F /\ stack_rel (snapshot i) m (hi_frames i) F.
(** An invocation that shares the memory has to cope with any change of it. *)
Definition lanes_ok (invs : list HashmapInvocation) : Prop := racy = true \/ (length invs <= 1)%nat.

Lemma twin_done m i i' : twin m i i' -> done i' = done i.
Proof. intros (F & -> & H). unfold done. cbn [with_frames hi_returned hi_frames]. by destruct (hi_frames i), F. Qed.
Lemma twin_fields m i i' : twin m i i' -> hi_waiting i' = hi_waiting i /\ hi_uniform_checks i' = hi_uniform_checks i
  /\ hi_pending_async i' = hi_pending_async i.
Proof. by intros (F & -> & H). Qed.
Lemma twin_rely m m' i i' : twin m i i' -> rely racy m m' -> twin m' i i'.
Proof. intros (F & -> & H) Hr. exists F. split; [done|by eapply stack_rely]. Qed.
Lemma step_lockstep i i' m i1 m1 : twin m i i' -> step fe dialect [] i m = Ok (i1, m1) ->
  exists i1', step fe dialect [] i' m = Ok (i1', m1) /\ twin m1 i1 i1'.
Proof.
  intros Ht. pose proof (twin_done _ _ _ Ht) as Hd. pose proof (twin_fields _ _ _ Ht) as (Hw & _). unfold step. rewrite Hd, Hw.
  destruct (done i || hi_waiting i).
  - intros [= <- <-]. by exists i'.
  - destruct Ht as (F & -> & HR). intros (F1 & E & HF)%(frames_lockstep _ F); [|exact HR]. eexists. split; [|by exists F1].
    by rewrite frames_of.
Qed.
Lemma step_all_lockstep invs : forall invs' m b invs1 m1, lanes_ok invs -> Forall2 (twin m) invs invs' ->
  step_all fe dialect [] invs m = Ok (b, invs1, m1) ->
  exists invs1', step_all fe dialect [] invs' m = Ok (b, invs1', m1) /\ Forall2 (twin m1) invs1 invs1' /\ length invs1 = length invs.
Proof.
  induction invs as [|i invs IH]; intros invs' m b invs1 m1 Hok HR E; cbn [step_all] in E.
  { apply Forall2_nil_inv_l in HR as ->. injection E as <- <- <-. by exists []. }
  apply Forall2_cons_inv_l in HR as (i' & rest & Hi & HR & ->). cbn [step_all].
  pose proof (twin_done _ _ _ Hi) as ->. pose proof (twin_fields _ _ _ Hi) as (-> & _).
  assert (lanes_ok invs) as Hok' by (destruct Hok; [by left|right; cbn in *; lia]).
  assert (forall m m', rely racy m m' \/ invs = []) as Hrely.
  { intros m2 m3. destruct Hok as [Hr|Hlen]; [left; by left|right]. by destruct invs; [|cbn in Hlen; lia]. }
  assert (forall m2 m3 b2 invs2, step_all fe dialect [] invs m2 = Ok (b2, invs2, m3) -> forall j j', twin m2 j j' -> twin m3 j j') as Hafter.
  { intros m2 m3 b2 invs2 E2 j j' Hj. destruct (Hrely m2 m3) as [Hr| ->]; [by eapply twin_rely|]. by injection E2 as <- <- <-. }
  destruct (done i || hi_waiting i).
  - apply hbind_Ok in E as ([b2 invs2] & m2 & E & [= <- <- <-]). destruct (IH _ _ _ _ _ Hok' HR E) as (rest2 & E2 & HR2 & Hl).
    exists (i' :: rest2). split_and!; [etrans; [by eapply hbind_eq|done]| |by cbn; rewrite Hl]. constructor; [by eapply Hafter|done].
  - apply hbind_Ok in E as (i1 & m2 & Ei & E). apply hbind_Ok in E as ([b2 invs2] & m3 & E & [= <- <- <-]).
    destruct (step_lockstep _ _ _ _ _ Hi Ei) as (i1' & Ei' & Hi1). assert (Forall2 (twin m2) invs rest) as HR1.
    { destruct (Hrely m m2) as [Hr| ->]; [|by apply Forall2_nil_inv_l in HR as ->]. eapply Forall2_impl; [exact HR|].
      intros j j' Hj. by eapply twin_rely. }
    destruct (IH _ _ _ _ _ Hok' HR1 E) as (rest2 & E2 & HR2 & Hl). exists (i1' :: rest2).
    split_and!; [do 2 (etrans; [by eapply hbind_eq|]); done| |by cbn; rewrite Hl]. constructor; [by eapply Hafter|done].
Qed.
Lemma twins_observed m invs invs' : Forall2 (twin m) invs invs' -> forallb done invs' = forallb done invs
  /\ live_count invs' = live_count invs /\ live_waiting_count invs' = live_waiting_count invs
  /\ verify_uniform_control_flow invs' = verify_uniform_control_flow invs
  /\ existsb (fun i => negb (bool_decide (hi_pending_async i = ∅))) invs'
     = existsb (fun i => negb (bool_decide (hi_pending_async i = ∅))) invs.
Proof.
  intros HR. unfold live_count, live_waiting_count, verify_uniform_control_flow.
  enough (forallb done invs' = forallb done invs
    /\ map hi_uniform_checks (filter (fun i : HashmapInvocation => negb (done i)) invs') = map hi_uniform_checks (filter (fun i : HashmapInvocation => negb (done i)) invs)
    /\ length (filter (fun i : HashmapInvocation => negb (done i) && hi_waiting i) invs') = length (filter (fun i : HashmapInvocation => negb (done i) && hi_waiting i) invs)
    /\ existsb (fun i => negb (bool_decide (hi_pending_async i = ∅))) invs'
     = existsb (fun i => negb (bool_decide (hi_pending_async i = ∅))) invs) as (-> & Hc & -> & ->).
  { rewrite Hc. split_and!; try done. by rewrite <- !(length_map hi_uniform_checks), Hc. }
  induction HR as [|i i' invs invs' Hi _ (IH1 & IH2 & IH3 & IH4)]; [done|]. destruct (twin_fields _ _ _ Hi) as (Hw & Hu & Hp).
  cbn [forallb existsb]. rewrite !filter_cons, (twin_done _ _ _ Hi), Hw, Hp, IH1, IH4.
  split_and!; [done| | |done]; case_decide; cbn [map length]; congruence.
Qed.
Lemma run_lockstep fuel : forall invs invs' m invs1 m1, lanes_ok invs -> Forall2 (twin m) invs invs' ->
  run_loop fe dialect false fuel invs m = Ok (invs1, m1) ->
  exists invs1', run_loop fe dialect false fuel invs' m = Ok (invs1', m1) /\ Forall2 (twin m1) invs1 invs1'.
Proof.
  induction fuel as [|fuel IH]; intros invs invs' m invs1 m1 Hok HR E; cbn [run_loop] in *;
    destruct (twins_observed _ _ _ HR) as (-> & _); (destruct (forallb done invs); [injection E as <- <-; by exists invs'|]); [done|].
  apply hbind_Ok in E as ([b invs2] & m2 & E & E1). unfold step_round_robin in E.
  destruct (step_all_lockstep _ _ _ _ _ _ Hok HR E) as (invs2' & E' & HR2 & Hlen).
  apply hbind_Ok in E1 as (u & m3 & [Eu ->]%hlift_Ok & E1). destruct (twins_observed _ _ _ HR2) as (_ & Hl & Hw & Hv & _).
  assert (lanes_ok invs2) as Hok2 by (unfold lanes_ok in *; by rewrite Hlen).
  unfold mbind, HM_bind, step_round_robin. rewrite E', Hv, Eu. cbn. unfold release_barrier_if_ready in *. rewrite Hl, Hw.
  destruct (_ && _).
  - eapply IH; [|..|exact E1]; [unfold lanes_ok in *; by rewrite length_map|]. apply Forall2_fmap. eapply Forall2_impl; [exact HR2|].
    intros i i' (F & -> & H). by exists F.
  - destruct (negb b && _); [done|]. by eapply IH.
Qed.
End Lockstep.
