(* ===== verification/CseCorrect.v ===== *)
(** Common-subexpression elimination is correct.

    The pass keeps atomics and introduces no subgroup operation ([kept_expr]), so the grid
    and the schedule stay; with the lockstep of CseLockstep.v a dispatch of the rewritten
    program returns what a dispatch of the original returns.  The last part runs programs
    outside the conditions. *)

From S2P Require Import Prelude Float Spec IR ProgramStats RefValue RefMemory RefEval StrengthReduce Rewrite Collectives ProgramFacts ValidateExpr Validate.
From S2P Require Import RefHash RefSched RefSchedSound RefWorkgroup RefDispatch RefDispatchSound Scoping ScopingSound ConstFoldGaps.
From S2P Require Import DeadCode DeadCodeSim DeadCodeSound Cse CseKeys CseSound CseLockstep.

(** ** What the statistics see *)

Abbreviation any q e := (existsb q (subexprs e)).
Record kept (e e' : Expr) : Prop := {
  kept_regular : regular e' = true;
  kept_atomic : any is_atomic e' = any is_atomic e;
  kept_subgroup : any is_subgroup_expr e = false -> any is_subgroup_expr e' = false;
}.
Lemma atomic_effect e : regular e = true -> expr_has_effect e = false -> any is_atomic e = false.
Proof.
  induction e using Expr_ind'; cbn [regular expr_has_effect subexprs existsb is_atomic orb]; intros Hr He;
    rewrite ?existsb_app; rewrite ?andb_true_iff, ?orb_false_iff in *; destruct_and?; split_and?; auto; done.
Qed.
Lemma kept_reuse e e1 c e' c' : kept e e1 -> reuse e1 c = (e', c') -> kept e e'.
Proof.
  intros [R A S]. unfold reuse. destruct (is_var e1 || expr_has_effect e1) eqn:Ev; [by intros [= <- <-]|].
  apply orb_false_iff in Ev as [_ He]. destruct (intern_expr e1 c) as [key c1].
  assert (forall x, kept e (Expr.Var x)) as Hvar.
  { intros x. split; [done| |done]. by rewrite <- A, (atomic_effect e1 R He). }
  destruct e1; try (by intros [= <- <-]); destruct (visible_value c1 key); by intros [= <- <-].
Qed.
Definition keeping (e : Expr) : Prop := forall c e' c', regular e = true -> cse_expr e c = (e', c') -> kept e e'.
Definition all_kept (args args' : list Expr) : Prop := forallb regular args' = true
  /\ existsb is_atomic (flat_map subexprs args') = existsb is_atomic (flat_map subexprs args)
  /\ (existsb is_subgroup_expr (flat_map subexprs args) = false -> existsb is_subgroup_expr (flat_map subexprs args') = false).
Lemma kept_args args : Forall keeping args -> forall c args' c', forallb regular args = true ->
  cse_list cse_expr args c = (args', c') -> all_kept args args'.
Proof.
  induction 1 as [|a args Ha _ IH]; intros c args' c' Hr E; [by injection E as <- <-|].
  rewrite cse_list_cons in E. destruct (cse_expr a c) as [a' c1] eqn:Ea. destruct (cse_list cse_expr args c1) as [args1 c2] eqn:Eas.
  injection E as <- <-. cbn [forallb] in Hr. apply andb_true_iff in Hr as [Hra Hr]. destruct (Ha _ _ _ Hra Ea) as [R A S].
  destruct (IH _ _ _ Hr Eas) as (R' & A' & S'). unfold all_kept. cbn [forallb flat_map]. rewrite !existsb_app, R, A, A', !orb_false_iff. naive_solver.
Qed.
Local Ltac operand IH E :=
  match type of E with context [cse_expr ?x ?c] =>
    let Ex := fresh "Ex" in destruct (cse_expr x c) as [? ?] eqn:Ex; destruct (IH _ _ _ ltac:(done) Ex); clear Ex end.
Local Ltac rebuilt E := eapply kept_reuse; [|exact E]; split; cbn [regular subexprs existsb is_atomic is_subgroup_expr orb];
  rewrite ?existsb_app; rewrite ?andb_true_iff, ?orb_false_iff; [by split_and?|congruence|naive_solver].
Lemma kept_expr e : keeping e.
Proof.
  induction e using Expr_ind'; intros c0 e' c' Hr E; cbn [regular] in Hr; try done; cbn [cse_expr] in E;
    rewrite ?andb_true_iff in Hr; destruct_and?; try (eapply kept_reuse; [|exact E]; done).
  - operand IHe E. rebuilt E.
  - operand IHe1 E. operand IHe2 E. rebuilt E.
  - operand IHe E. rebuilt E.
  - destruct (cse_list cse_expr args c0) as [args' c1] eqn:Ea. destruct (kept_args _ H _ _ _ Hr Ea) as (R & A & S).
    eapply kept_reuse; [|exact E]. split; cbn [regular subexprs existsb is_atomic is_subgroup_expr orb]; [done..|].
    rewrite !orb_false_iff. naive_solver.
  - operand IHe1 E. operand IHe2 E. operand IHe3 E. rebuilt E.
  - operand IHe E. rebuilt E.
  - operand IHe1 E. operand IHe2 E. operand IHe3 E. rebuilt E.
  - destruct e2 as [y|]; cbn [Forall_opt] in *; operand IHe1 E; [operand H E|]; operand IHe2 E; rebuilt E.
Qed.

Definition atomic_item (i : item) : bool := match i with IExpr e => is_atomic e | INode _ => false end.
Lemma atomic_items e : existsb atomic_item (expr_items e) = any is_atomic e.
Proof. unfold expr_items. induction (subexprs e) as [|x l IH]; [done|]. cbn. by rewrite IH. Qed.
Definition items_kept (l l' : list item) : Prop := existsb atomic_item l' = existsb atomic_item l
  /\ (existsb subgroup_item l = false -> existsb subgroup_item l' = false).
Lemma items_kept_app l1 l1' l2 l2' : items_kept l1 l1' -> items_kept l2 l2' -> items_kept (l1 ++ l2) (l1' ++ l2').
Proof. unfold items_kept. rewrite !existsb_app, !orb_false_iff. intros [-> ?] [-> ?]. naive_solver. Qed.
Lemma items_kept_node n n' l l' : items_kept l l' -> items_kept (INode n :: l) (INode n' :: l').
Proof. done. Qed.
Lemma items_kept_expr e e' : kept e e' -> items_kept (expr_items e) (expr_items e').
Proof. intros [R A S]. unfold items_kept. by rewrite !atomic_items, !subgroup_items. Qed.
#[local] Hint Resolve items_kept_app items_kept_expr items_kept_node : core.

Definition node_keeping (n : Node) : Prop := forall racy c n' c', node_ok racy n = true -> cse_node n c = (n', c') ->
  items_kept (items n) (items n').
Lemma kept_nodes ns : Forall node_keeping ns -> forall racy c ns' c', forallb (node_ok racy) ns = true -> cse_nodes ns c = (ns', c') ->
  items_kept (flat_map items ns) (flat_map items ns').
Proof.
  induction 1 as [|n ns Hn _ IH]; intros racy c ns' c' Hok E; [by injection E as <- <-|]. rewrite cse_nodes_cons in E.
  destruct (cse_node n c) as [n' c1] eqn:En. destruct (cse_nodes ns c1) as [ns1 c2] eqn:Ens. injection E as <- <-.
  cbn [forallb] in Hok. apply andb_true_iff in Hok as [Hok1 Hok2]. cbn [flat_map]. eauto.
Qed.
Local Ltac expression E := match type of E with context [cse_expr ?x ?c] =>
  let Ex := fresh "Ex" in destruct (cse_expr x c) as [? ?] eqn:Ex; pose proof (kept_expr x c _ _ ltac:(done) Ex); clear Ex end.
Local Ltac nested E := match type of E with context [cse_nodes ?x ?c] =>
  let Ex := fresh "Ex" in destruct (cse_nodes x c) as [? ?] eqn:Ex; eapply kept_nodes in Ex; [|eassumption..] end.
Lemma kept_node n : node_keeping n.
Proof.
  induction n using Node_ind'; intros racy c0 n' c' Hok E; cbn [node_ok] in Hok; rewrite ?andb_true_iff in Hok; destruct_and?;
    cbn [cse_node] in E; change (cse_nodes_with cse_node) with cse_nodes in E; try (by injection E as <- <-);
    repeat first [expression E|nested E]; cbn [items]; try (injection E as <- <-; cbn [items]; eauto 10).
  match goal with K : kept _ ?x |- _ => rename x into v end. destruct (expr_has_effect v) eqn:Eff; [injection E as <- <-; cbn [items]; auto|].
  destruct (never_recorded v); [injection E as <- <-; cbn [items]; auto|]. destruct (intern_expr v _) as [key c2].
  destruct (visible_value c2 key); injection E as <- <-; cbn [items]; [|auto]. apply items_kept_node, items_kept_expr.
  match goal with K : kept _ v |- _ => destruct K as [R A S] end. split; [done| |done]. by rewrite <- A, (atomic_effect v R Eff).
Qed.

(** ** A dispatch *)

Section Dispatch.
Context (fe : FloatEnv) (dialect : option (string -> option OpDef)) (racy : bool) (p : Program).
(** The expressions are regular and the bindings without loads if the lanes are [racy];
    otherwise a workgroup is one lane.  The ids and epochs of the pass stay in 32 bits. *)
Context (Hok : forallb (node_ok racy) (entry p) = true) (Hwork : nodes_cost (entry p) <= 2 ^ 32).
Context (Hlanes : racy = true \/ workgroup_size p = (1, 1, 1)).

Lemma workgroup_lockstep fuel wg m r : run_workgroup fe dialect false fuel p wg m = Ok r ->
  run_workgroup fe dialect false fuel (cse p) wg m = Ok r.
Proof.
  unfold run_workgroup. intros E. apply hbind_Ok in E as (m0 & m1 & [= <- <-] & E). etrans; [by eapply hbind_eq|].
  apply hbind_Ok in E as (m2 & m3 & Er & E). etrans; [by eapply hbind_eq|].
  apply hbind_Ok in E as (u & m4 & Ep & E). etrans; [by eapply hbind_eq|].
  apply hbind_Ok in E as (invs & m5 & [Ec ->]%hlift_Ok & E). pose proof (create_pair p (cse p) wg (entry p) (entry (cse p)) invs eq_refl Ec) as (invs' & Ec' & Hpair).
  etrans; [eapply hbind_eq; unfold hlift; by rewrite Ec'|]. apply hbind_Ok in E as (invs2 & m6 & E & Eu).
  unfold run_invocations in E. apply hbind_Ok in E as (invs1 & m7 & E & Ex).
  assert (lanes_ok racy invs) as Hl.
  { destruct Hlanes as [Hr|Hs]; [by left|right]. apply (create_invocations_Ok p wg (entry p) invs 1 1 1) in Ec; [|done|lia..]. lia. }
  assert (Forall2 (twin fe dialect racy m4) invs invs') as HR.
  { eapply Forall2_impl; [exact Hpair|]. intros i i' (ids & k & -> & ->). eexists. split; [done|]. split; [|done].
    cbn [frame_rel]. split_and!; [done..|]. exists cse_default. split; [by apply sound_hidden|]. split_and!; [done| |done].
    by apply default_fits. }
  destruct (run_lockstep fe dialect racy fuel _ _ _ _ _ Hl HR E) as (invs1' & E' & HR').
  destruct (twins_observed _ _ _ _ _ _ HR') as (_ & _ & _ & _ & Hpend).
  destruct (existsb (fun i => negb (bool_decide (hi_pending_async i = ∅))) invs1); [done|]. injection Ex as <- <-.
  etrans; [eapply hbind_eq; etrans; [eapply hbind_eq; exact E'|rewrite Hpend; reflexivity]|]. exact Eu.
Qed.

Lemma cse_items : items_kept (program_items p) (program_items (cse p)).
Proof.
  unfold program_items, cse. cbn [with_rewritten_entry entry]. destruct (cse_nodes (entry p) cse_default) as [ns c] eqn:E.
  eapply kept_nodes; [|exact Hok|exact E]. apply Forall_true, kept_node.
Qed.
Lemma cse_subgroup : rc_subgroup_ops (scan p) = false -> rc_subgroup_ops (scan (cse p)) = false.
Proof. rewrite !scan_subgroup. apply cse_items. Qed.
Lemma counts_items q : (0 <? atomic_op_count (compute_stats q)) = existsb atomic_item (program_items q).
Proof.
  rewrite stats_atomics. unfold program_exprs. rewrite count_omap.
  induction (program_items q) as [|i l IH]; [done|]. rewrite filter_cons. cbn [existsb]. destruct i as [n|e]; [done|].
  cbn [atomic_item]. destruct (is_atomic e); [|exact IH]. rewrite decide_True by done. cbn [length orb]. apply Z.ltb_lt. lia.
Qed.
Lemma cse_grid powf b : grid powf (cse p) b = grid powf p b.
Proof.
  unfold grid, dispatch_elements. rewrite !counts_items. destruct cse_items as [-> _]. done.
Qed.
Lemma grid_lockstep fuel wgs : rc_subgroup_ops (scan p) = false -> forall m r, run_grid fe dialect fuel p wgs m = Ok r ->
  run_grid fe dialect fuel (cse p) wgs m = Ok r.
Proof.
  intros Hs. induction wgs as [|wg wgs IH]; intros m r E; [done|]. cbn [run_grid] in *. rewrite cse_subgroup by done.
  rewrite Hs in E. apply hbind_Ok in E as (u & m1 & E & E1). etrans; [eapply hbind_eq; by apply workgroup_lockstep|]. by apply IH.
Qed.
End Dispatch.

Module Subexpressions.

(** C10: common-subexpression elimination preserves behaviour: take a program without
    subgroup operations whose casts go to types without parameters, small enough for its
    ids to fit 32 bits, and which either runs one invocation per workgroup or binds no
    value that reads memory.  Whatever a dispatch of the program returns, a dispatch of
    the rewritten program returns the same, in the same number of rounds, provided that
    the validator accepts it. *)
Theorem cse_preserves fe dialect powf fuel racy p inputs outputs
    (Hok : forallb (node_ok racy) (entry p) = true) (Hwork : nodes_cost (entry p) <= 2 ^ 32)
    (Hlanes : racy = true \/ workgroup_size p = (1, 1, 1)) (Hs : rc_subgroup_ops (scan p) = false)
    (Hv : validation_errors dialect (cse p) = [])
    (Hrun : run_hashmap_reference fe dialect powf fuel p inputs = Ok outputs) :
  run_hashmap_reference fe dialect powf fuel (cse p) inputs = Ok outputs.
Proof.
  unfold run_hashmap_reference in *. rewrite Hv. destruct (validation_errors dialect p); [|done].
  apply bind_Ok in Hrun as (b & Hb & Hrun). apply bind_Ok in Hrun as (u & Hz & Hrun). apply bind_Ok in Hrun as (r & Hg & Hout).
  change (bind_inputs (cse p) inputs) with (bind_inputs p inputs). rewrite Hb. cbn [mbind result_bind].
  change (workgroup_size (cse p)) with (workgroup_size p). rewrite Hz. cbn [mbind result_bind].
  rewrite (cse_grid racy p Hok). by rewrite (grid_lockstep fe dialect racy p Hok Hwork Hlanes fuel _ Hs _ _ Hg).
Qed.

(** C26: expressions with one id have one value: when two expressions without effects,
    subgroup collectives or casts to parameterised types are interned one after the other
    into a well-formed table, with room for them within 2^32 entries, and get the same id,
    then wherever both evaluate they evaluate to the same, although the operands of commutative operators may come in
    another order. *)
Theorem interned_equal fe dialect e1 e2 c id c1 c2 lane m r1 r2 (Hc : interned c) (H1 : internable e1) (H2 : internable e2)
    (Hlen : arena_len c + size e1 + size e2 <= 2 ^ 32)
    (E1 : intern_expr e1 c = (id, c1)) (E2 : intern_expr e2 c1 = (id, c2))
    (R1 : eval_expr fe dialect [] e1 lane m = Ok r1) (R2 : eval_expr fe dialect [] e2 lane m = Ok r2) : r1 = r2.
Proof.
  pose proof (size_pos e2). apply intern_ok in E1 as [I1 P1]; [|done..|unfold size in *; lia].
  apply intern_ok in E2 as [I2 P2]; [|done|apply I1|destruct I1; unfold size in *; lia].
  eapply same_value; [eapply repr_grows; [apply I2|exact P1]|exact P2|done..].
Qed.

(** Nested lists give back what they found: after the pass has walked over the
    statements of a branch or block, the table of bindings, the undo log, the stack of
    scopes and the epoch are exactly those from before it, so a name bound inside is
    never used outside. *)
Theorem scopes_restored racy ns c ns' c' (Hok : forallb (node_ok racy) ns = true) (Hf : fits (nodes_cost ns) c)
    (E : cse_nodes ns (enter_scope c) = (ns', c')) :
  values (leave_scope c') = values c /\ undo_log (leave_scope c') = undo_log c
  /\ scope_stack (leave_scope c') = scope_stack c /\ current_epoch (leave_scope c') = current_epoch c.
Proof.
  apply (list_walk racy) in E as [S U _ _ _ _ _]; [|exact (walks TypedOps.zero_env None racy ns)|done|by apply enter_fits].
  cbn in S, U. destruct U as (new & Hu & Hv). unfold leave_scope. rewrite S, Hu. cbn [sf_undo_len sf_epoch].
  by rewrite undo_to_app, Hv.
Qed.
Import Validated Gaps.

(** Commuted operands, a value seen from inside a branch, and one that is hidden again. *)
Definition id_plus (k : Z) : Expr := Expr.BinOp BinOp.Add (Expr.InvocationId 0) (lit k).
Definition plus_id (k : Z) : Expr := Expr.BinOp BinOp.Add (lit k) (Expr.InvocationId 0).
Definition shared (first second third fourth : Expr) : list Node :=
  [Node.Let "a" (id_plus 3);
   Node.Let "b" first;
   Node.If (Expr.BinOp BinOp.Lt second (lit 6)) [Node.Let "c" (id_plus 7); out_is (Expr.BinOp BinOp.Mul third (Expr.Var "b"))] [];
   Node.Let "d" (id_plus 7);
   Node.Let "e" fourth;
   Node.If (Expr.BinOp BinOp.Lt (lit 11) (Expr.Var "e")) [out_is (Expr.Var "d")] []].
Definition before : Program := kernel (shared (plus_id 3) (id_plus 3) (plus_id 7) (id_plus 8)).
Definition after : Program := kernel (shared (Expr.Var "a") (Expr.Var "a") (Expr.Var "c") (id_plus 8)).
Definition run_hashmap (p : Program) : interp (list Value) :=
  run_hashmap_reference TypedOps.zero_env None Reference.exact_root 100 p [].

Lemma cse_preserves_witness : cse before = after /\ run_hashmap (cse before) = words [21; 32; 45; 0; 11].
Proof.
  split; [vm_compute; reflexivity|].
  apply (cse_preserves TypedOps.zero_env None Reference.exact_root 100 true before);
    [vm_compute; reflexivity|vm_compute; discriminate|by left|vm_compute; reflexivity..].
Defined.

Definition here : HashmapInvocationSnapshot := mkSnapshot (mkInvocationIds (4, 0, 0) (2, 0, 0) (0, 0, 0)) 0 ∅.
Lemma interned_equal_witness : exists id c1 c2 r, intern_expr (id_plus 3) cse_default = (id, c1) /\ intern_expr (plus_id 3) c1 = (id, c2)
  /\ eval_expr TypedOps.zero_env None [] (plus_id 3) here (mkHashmapMemory ∅ ∅) = Ok r
  /\ r = (Value.U32 7, mkHashmapMemory ∅ ∅).
Proof.
  eexists _, _, _, _. split; [vm_compute; reflexivity|]. split; [vm_compute; reflexivity|]. split; [vm_compute; reflexivity|].
  eapply (interned_equal TypedOps.zero_env None (plus_id 3) (id_plus 3) cse_default _ _ _ here (mkHashmapMemory ∅ ∅));
    [done|by split|by split|vm_compute; discriminate|vm_compute; reflexivity..].
Defined.
(** A branch that binds a value the list around it has bound already, and assigns. *)
Definition branch : list Node :=
  [Node.Let "c" (id_plus 7); Node.Assign "b" (id_plus 3); Node.Let "f" (id_plus 3)].
Definition around : CseCtx := snd (cse_nodes [Node.Let "a" (id_plus 3)] cse_default).
Lemma around_fits : fits (nodes_cost branch) around.
Proof.
  destruct (cse_nodes [Node.Let "a" (id_plus 3)] cse_default) as [ns c] eqn:E. unfold around. rewrite E. cbn [snd].
  eapply (list_walk false) in E; [|exact (walks TypedOps.zero_env None false _)|done|by apply default_fits].
  eapply fits_extends; [|exact E]. split; [done..|vm_compute; discriminate|by vm_compute].
Qed.
Lemma scopes_restored_witness : stdpp.base.size (values (snd (cse_nodes branch (enter_scope around)))) = 2%nat
  /\ values (leave_scope (snd (cse_nodes branch (enter_scope around)))) = values around.
Proof.
  split; [vm_compute; reflexivity|].
  apply (scopes_restored false branch around (fst (cse_nodes branch (enter_scope around)))); [vm_compute; reflexivity|exact around_fits|by destruct (cse_nodes _ _)].
Defined.

(** *** Outside the conditions *)

(** The second lane stores between the two loads of the first. *)
Definition racing (second : Expr) : Program := kernel
  [Node.If (Expr.BinOp BinOp.Eq (Expr.LocalId 0) (lit 0))
     [Node.Let "a" (Expr.Load "out" (lit 4)); Node.Let "b" second; out_is (Expr.Var "b")]
     [Node.Store "out" (lit 4) (lit 9)]].
Definition scaled (axis : Z) : DataType :=
  DataType.Quantized (DataType.Handle 4194304) QuantizationScale.PerTensor (QuantizationZeroPoint.PerChannel axis).

(** What common-subexpression elimination does not promise: two loads of one element
    in one list are merged, so a valid program in which another invocation stores between
    them returns something else; and the keys of types are not injective, a quantised
    type has the key of [u32], and vectors of 0 and of 256 elements share theirs. *)
Theorem cse_gaps :
  (validation_errors None (racing (Expr.Load "out" (lit 4))) = []
   /\ cse (racing (Expr.Load "out" (lit 4))) = racing (Expr.Var "a")
   /\ run_kernel (racing (Expr.Load "out" (lit 4))) = words [9; 0; 9; 0; 9]
   /\ run_kernel (racing (Expr.Var "a")) = words [0; 0; 9; 0; 9])
  /\ TypeKey_from (scaled 2565865472) = TypeKey_from DataType.U32
  /\ TypeKey_from (DataType.Vec DataType.U32 256) = TypeKey_from (DataType.Vec DataType.U32 0).
Proof. split_and!; vm_compute; reflexivity. Qed.
End Subexpressions.
