(* ===== verification/Cleanup.v ===== *)
(** The cleanup passes (vyre-foundation: visit/node_map.rs; optimizer/passes/cleanup:
    empty_block_collapse.rs, if_constant_branch_eliminate.rs, noop_assign_eliminate.rs,
    region_promote_singleton_block.rs; optimizer/passes/loops/loop_trip_zero_eliminate.rs;
    optimizer/passes/sync/barrier_coalesce.rs).

    Every pass rebuilds the statements bottom up and sets a flag when it changed
    something; [analyze] decides from the statistics and a scan whether it runs at all.
    The flag is threaded in the order in which the source visits the statements. *)

From S2P Require Import Prelude Float Spec IR ProgramStats Collectives.

(** ** Walking over statements *)

(** [into_iter().map(f).collect()] with the flag [f] may set. *)
Definition map_flag {A B} (f : A -> bool -> B * bool) : list A -> bool -> list B * bool :=
  fix go l changed :=
    match l with
    | [] => ([], changed)
    | x :: l =>
        let '(y, changed) := f x changed in
        let '(ys, changed) := go l changed in
        (y :: ys, changed)
    end.

Definition map_children (f : Node -> bool -> Node * bool) (n : Node) (changed : bool) : Node * bool :=
  match n with
  | Node.If cond then_ otherwise =>
      let '(then_, changed) := map_flag f then_ changed in
      let '(otherwise, changed) := map_flag f otherwise changed in
      (Node.If cond then_ otherwise, changed)
  | Node.Loop var from to body =>
      let '(body, changed) := map_flag f body changed in (Node.Loop var from to body, changed)
  | Node.Block body => let '(body, changed) := map_flag f body changed in (Node.Block body, changed)
  | Node.Region generator source_region body =>
      let '(body, changed) := map_flag f body changed in (Node.Region generator source_region body, changed)
  | _ => (n, changed)
  end.
Definition map_body (f : list Node -> bool -> list Node * bool) (n : Node) (changed : bool) : Node * bool :=
  match n with
  | Node.If cond then_ otherwise =>
      let '(then_, changed) := f then_ changed in
      let '(otherwise, changed) := f otherwise changed in
      (Node.If cond then_ otherwise, changed)
  | Node.Loop var from to body => let '(body, changed) := f body changed in (Node.Loop var from to body, changed)
  | Node.Block body => let '(body, changed) := f body changed in (Node.Block body, changed)
  | Node.Region generator source_region body =>
      let '(body, changed) := f body changed in (Node.Region generator source_region body, changed)
  | _ => (n, changed)
  end.

(** The worklist of [any_descendant], top first. *)
Fixpoint any_loop (pred : Node -> bool) (fuel : nat) (stack : list Node) : bool :=
  match fuel, stack with
  | O, _ | _, [] => false
  | S fuel, current :: stack =>
      if pred current then true
      else any_loop pred fuel (match current with
                               | Node.If _ then_ otherwise => then_ ++ otherwise
                               | Node.Loop _ _ _ body | Node.Block body | Node.Region _ _ body => body
                               | _ => []
                               end ++ stack)
  end.
Definition any_descendant (n : Node) (pred : Node -> bool) : bool := any_loop pred (node_size n) [n].

(** [PassResult]: the program and whether it changed. *)
Definition map_entry_flag (p : Program) (f : list Node -> bool -> list Node * bool) : Program * bool :=
  let '(nodes, changed) := f (entry p) false in
  (mkProgram (entry_op_id p) (buffers p) (workgroup_size p) nodes (non_composable_with_self p), changed).

(** ** Empty blocks *)

Definition is_empty_block (n : Node) : bool := match n with Node.Block [] => true | _ => false end.
Fixpoint drop_empty_blocks (body : list Node) (changed : bool) : list Node * bool :=
  match body with
  | [] => ([], changed)
  | n :: body =>
      if is_empty_block n then drop_empty_blocks body true
      else let '(out, changed) := drop_empty_blocks body changed in (n :: out, changed)
  end.
Fixpoint collapse_node (n : Node) (changed : bool) : Node * bool :=
  let '(recursed, changed) := map_children collapse_node n changed in
  map_body drop_empty_blocks recursed changed.
Definition EmptyBlockCollapse_transform (p : Program) : Program * bool :=
  map_entry_flag p (fun entry changed =>
    let '(entry, changed) := map_flag collapse_node entry changed in drop_empty_blocks entry changed).
Definition EmptyBlockCollapse_analyze (p : Program) : bool :=
  has_any_node_kind (compute_stats p) (node_kind (Node.Block []))
  && existsb (fun n => any_descendant n is_empty_block) (entry p).

(** ** Conditionals with a literal condition *)

Definition is_constant_if (n : Node) : bool := match n with Node.If (Expr.LitBool _) _ _ => true | _ => false end.
Fixpoint eliminate_constant_if (n : Node) (changed : bool) : Node * bool :=
  let '(recursed, changed) := map_children eliminate_constant_if n changed in
  match recursed with
  | Node.If (Expr.LitBool true) then_ _ => (Node.Block then_, true)
  | Node.If (Expr.LitBool false) _ otherwise => (Node.Block otherwise, true)
  | _ => (recursed, changed)
  end.
Definition IfConstantBranchEliminate_transform (p : Program) : Program * bool :=
  map_entry_flag p (map_flag eliminate_constant_if).
Definition IfConstantBranchEliminate_analyze (p : Program) : bool :=
  has_any_node_kind (compute_stats p) (node_kind (Node.If (Expr.LitBool true) [] []))
  && existsb (fun n => any_descendant n is_constant_if) (entry p).

(** ** Loops with empty literal bounds *)

Definition is_empty_loop (n : Node) : bool :=
  match n with
  | Node.Loop _ (Expr.LitU32 a) (Expr.LitU32 b) _ | Node.Loop _ (Expr.LitI32 a) (Expr.LitI32 b) _ => b <=? a
  | _ => false
  end.
Fixpoint eliminate_empty_loop (n : Node) (changed : bool) : Node * bool :=
  let '(recursed, changed) := map_children eliminate_empty_loop n changed in
  if is_empty_loop recursed then (Node.Block [], true) else (recursed, changed).
Definition LoopTripZeroEliminate_transform (p : Program) : Program * bool :=
  map_entry_flag p (map_flag eliminate_empty_loop).
(** [ProgramStats::has_node_loop]. *)
Definition has_node_loop (s : ProgramStats) : bool :=
  has_any_node_kind s (node_kind (Node.Loop "" (Expr.LitU32 0) (Expr.LitU32 0) [])).
Definition LoopTripZeroEliminate_analyze (p : Program) : bool :=
  has_node_loop (compute_stats p)
  && existsb (fun n => any_descendant n is_empty_loop) (entry p).

(** ** Assignments of a variable to itself *)

Definition is_noop_assign (n : Node) : bool :=
  match n with Node.Assign name (Expr.Var v) => bool_decide (v = name) | _ => false end.
Fixpoint drop_noop_assigns (body : list Node) (changed : bool) : list Node * bool :=
  match body with
  | [] => ([], changed)
  | n :: body =>
      if is_noop_assign n then drop_noop_assigns body true
      else let '(out, changed) := drop_noop_assigns body changed in (n :: out, changed)
  end.
Fixpoint rewrite_noop (n : Node) (changed : bool) : Node * bool :=
  let '(recursed, changed) := map_children rewrite_noop n changed in
  map_body drop_noop_assigns recursed changed.
Definition NoopAssignEliminate_transform (p : Program) : Program * bool :=
  map_entry_flag p (fun entry changed =>
    let '(entry, changed) := map_flag rewrite_noop entry changed in drop_noop_assigns entry changed).
Definition NoopAssignEliminate_analyze (p : Program) : bool :=
  has_any_node_kind (compute_stats p) (node_kind (Node.Assign "" (Expr.Var "")))
  && existsb (fun n => any_descendant n is_noop_assign) (entry p).

(** ** Regions around a single block *)

Definition is_singleton_block_region (n : Node) : bool :=
  match n with Node.Region _ _ [Node.Block _] => true | _ => false end.
Fixpoint promote_node (n : Node) (changed : bool) : Node * bool :=
  let '(recursed, changed) := map_children promote_node n changed in
  match recursed with
  | Node.Region generator source_region [Node.Block inner] => (Node.Region generator source_region inner, true)
  | _ => (recursed, changed)
  end.
Definition RegionPromoteSingletonBlock_transform (p : Program) : Program * bool :=
  map_entry_flag p (map_flag promote_node).
Definition RegionPromoteSingletonBlock_analyze (p : Program) : bool :=
  has_any_node_kind (compute_stats p) (node_kind (Node.Region "" None []))
  && has_any_node_kind (compute_stats p) (node_kind (Node.Block []))
  && existsb (fun n => any_descendant n is_singleton_block_region) (entry p).

(** ** Consecutive barriers *)

(** [Acquire] with [Release] is [AcqRel]; otherwise the stronger of the two. *)
Definition join_ordering (a b : MemoryOrdering) : MemoryOrdering :=
  match a, b with
  | MemoryOrdering.GridSync, _ | _, MemoryOrdering.GridSync => MemoryOrdering.GridSync
  | MemoryOrdering.SeqCst, _ | _, MemoryOrdering.SeqCst => MemoryOrdering.SeqCst
  | MemoryOrdering.AcqRel, _ | _, MemoryOrdering.AcqRel
  | MemoryOrdering.Acquire, MemoryOrdering.Release | MemoryOrdering.Release, MemoryOrdering.Acquire => MemoryOrdering.AcqRel
  | MemoryOrdering.Acquire, MemoryOrdering.Acquire => MemoryOrdering.Acquire
  | MemoryOrdering.Release, MemoryOrdering.Release => MemoryOrdering.Release
  | MemoryOrdering.Relaxed, x | x, MemoryOrdering.Relaxed => x
  end.
(** [out] is listed last first. *)
Definition push_coalesced (out : list Node) (n : Node) (changed : bool) : list Node * bool :=
  match out, n with
  | Node.Barrier prev :: out, Node.Barrier curr => (Node.Barrier (join_ordering prev curr) :: out, true)
  | _, _ => (n :: out, changed)
  end.
Definition coalesce_with (f : Node -> bool -> Node * bool) (body : list Node) (changed : bool) : list Node * bool :=
  let '(out, changed) :=
    foldl (fun '(out, changed) n => let '(n, changed) := f n changed in push_coalesced out n changed) ([], changed) body in
  (rev out, changed).
Fixpoint coalesce_node (n : Node) (changed : bool) : Node * bool := map_body (coalesce_with coalesce_node) n changed.
Definition coalesce_nodes : list Node -> bool -> list Node * bool := coalesce_with coalesce_node.
Definition BarrierCoalesce_transform (p : Program) : Program * bool := map_entry_flag p coalesce_nodes.

Definition is_barrier (n : Node) : bool := match n with Node.Barrier _ => true | _ => false end.
(** [windows(2).any(..)]. *)
Fixpoint sequence_has_consecutive_barriers (body : list Node) : bool :=
  match body with
  | a :: (b :: _) as rest => is_barrier a && is_barrier b || sequence_has_consecutive_barriers rest
  | _ => false
  end.
Fixpoint has_consecutive_barriers (n : Node) : bool :=
  match n with
  | Node.If _ then_ otherwise =>
      sequence_has_consecutive_barriers then_ || sequence_has_consecutive_barriers otherwise
      || existsb has_consecutive_barriers then_ || existsb has_consecutive_barriers otherwise
  | Node.Loop _ _ _ body | Node.Block body | Node.Region _ _ body =>
      sequence_has_consecutive_barriers body || existsb has_consecutive_barriers body
  | _ => false
  end.
Definition BarrierCoalesce_analyze (p : Program) : bool :=
  has_any_node_kind (compute_stats p) (node_kind (Node.Barrier MemoryOrdering.SeqCst))
  && (sequence_has_consecutive_barriers (entry p) || existsb has_consecutive_barriers (entry p)).
