(* ===== verification/CleanupSim.v ===== *)
(** Tidied statements behave as the original.

    [tidies] relates a list of statements to what the cleanup passes leave of it.  The two
    kernels have the same locals at every moment; the lists of the source that have no
    counterpart ([st_ghost]) only wait to be closed.  No scope rule is needed, and every
    kind of statement is allowed. *)

From S2P Require Import Prelude Float Spec IR RefValue RefMemory RefEval RefHash RefSched RefSchedSound RefWorkgroup.
From S2P Require Import ValidateExpr Validate ScopingSound DeadCode DeadCodeSim.

(** ** What may be left *)

Definition leaf (n : Node) : bool :=
  match n with Node.If _ _ _ | Node.Loop _ _ _ _ | Node.Block _ | Node.Region _ _ _ => false | _ => true end.

Inductive tidies : list Node -> list Node -> Prop :=
| td_nil : tidies [] []
| td_noop x ns ns' : tidies ns ns' -> tidies (Node.Assign x (Expr.Var x) :: ns) ns'
| td_empty b ns ns' : tidies b [] -> tidies ns ns' -> tidies (Node.Block b :: ns) ns'
| td_leaf n ns ns' : leaf n = true -> tidies ns ns' -> tidies (n :: ns) (n :: ns')
| td_if c t t' o o' ns ns' : tidies t t' -> tidies o o' -> tidies ns ns' -> tidies (Node.If c t o :: ns) (Node.If c t' o' :: ns')
| td_loop x a b l l' ns ns' : tidies l l' -> tidies ns ns' -> tidies (Node.Loop x a b l :: ns) (Node.Loop x a b l' :: ns')
| td_block b b' ns ns' : tidies b b' -> tidies ns ns' -> tidies (Node.Block b :: ns) (Node.Block b' :: ns')
| td_region g r b b' ns ns' : tidies b b' -> tidies ns ns' -> tidies (Node.Region g r b :: ns) (Node.Region g r b' :: ns')
| td_branch (v : bool) t o b ns ns' : tidies (if v then t else o) b -> tidies ns ns' ->
    tidies (Node.If (Expr.LitBool v) t o :: ns) (Node.Block b :: ns')
| td_dead x a b l ns ns' : const_loop_empty a b = true -> tidies ns ns' -> tidies (Node.Loop x a b l :: ns) (Node.Block [] :: ns')
| td_promote g r b b' ns ns' : tidies b b' -> tidies ns ns' ->
    tidies (Node.Region g r [Node.Block b] :: ns) (Node.Region g r b' :: ns').

(** ** Related invocations *)

Abbreviation Scopes := (list (list string)).
Inductive stacks : list NodeFrame -> Scopes -> list NodeFrame -> Scopes -> Prop :=
| st_nil s s' : stacks [] s [] s'
| st_entry p ns k s p' ns' k' s' : tidies (drop k ns) (drop k' ns') ->
    stacks [FrNodes p ns k false] s [FrNodes p' ns' k' false] s'
| st_nodes p ns k fs names s p' ns' k' fs' s' : tidies (drop k ns) (drop k' ns') -> stacks fs s fs' s' ->
    stacks (FrNodes p ns k true :: fs) (names :: s) (FrNodes p' ns' k' true :: fs') (names :: s')
| st_ghost p ns k fs s fs' s' : tidies (drop k ns) [] -> fs' <> [] -> stacks fs s fs' s' ->
    stacks (FrNodes p ns k true :: fs) ([] :: s) fs' s'
| st_promote p b fs s p' b' fs' s' : tidies b b' -> fs' <> [] -> stacks fs s fs' s' ->
    stacks (FrNodes p [Node.Block b] 0 true :: fs) ([] :: s) (FrNodes p' b' 0 true :: fs') ([] :: s')
| st_loop p x a b l fs s p' l' fs' s' : tidies l l' -> stacks fs s fs' s' ->
    stacks (FrLoop p x a b l :: fs) s (FrLoop p' x a b l' :: fs') s'
| st_dead p x a b l fs s p' fs' s' : b <= a -> stacks fs s fs' s' ->
    stacks (FrLoop p x a b l :: fs) s (FrNodes p' [] 0 true :: fs') ([] :: s').

Lemma stacks_empty fs s fs' s' : stacks fs s fs' s' -> fs = [] <-> fs' = [].
Proof. induction 1; done. Qed.

Record same_lane (i i' : HashmapInvocation) : Prop := {
  sl_snapshot : snapshot i = snapshot i';
  sl_immutable : lo_immutable (hi_locals i) = lo_immutable (hi_locals i');
  sl_returned : hi_returned i = hi_returned i';
  sl_waiting : hi_waiting i = hi_waiting i';
  sl_pending : hi_pending_async i = hi_pending_async i';
}.
Definition stacked (i i' : HashmapInvocation) : Prop :=
  stacks (hi_frames i) (lo_scopes (hi_locals i)) (hi_frames i') (lo_scopes (hi_locals i')).
Definition tidied (i i' : HashmapInvocation) : Prop := same_lane i i' /\ stacked i i'.

(** The next statement of the source. *)
Definition idles (n : Node) : Prop := (exists x, n = Node.Assign x (Expr.Var x)) \/ (exists b, n = Node.Block b /\ tidies b []).
Lemma tidies_next n ns out : tidies (n :: ns) out ->
  (idles n /\ tidies ns out) \/ (exists n' ns', out = n' :: ns' /\ tidies [n] [n'] /\ tidies ns ns').
Proof.
  intros H. inversion H; subst; try (left; unfold idles; by eauto 6);
    right; do 2 eexists; (split; [reflexivity|]); (split; [|eassumption]); eauto using tidies.
Qed.
Lemma drop_next {A} (l : list A) k x rest : drop k l = x :: rest -> l !! k = Some x /\ drop (S k) l = rest.
Proof.
  intros H. assert (l !! k = Some x) as Hx by (by rewrite <- (Nat.add_0_r k), <- lookup_drop, H). split; [done|].
  rewrite (drop_S _ _ _ Hx) in H. by injection H.
Qed.
(** Both stacks once the statement has been taken, also with a name bound. *)
Definition advanced (fs : list NodeFrame) (s : Scopes) (fs' : list NodeFrame) (s' : Scopes) : Prop :=
  stacks fs s fs' s' /\ forall x, stacks fs (note x s) fs' (note x s').
Lemma stacks_next p ns k sc fs s F s' n : stacks (FrNodes p ns k sc :: fs) s F s' -> ns !! k = Some n ->
  (idles n /\ stacks (FrNodes p ns (S k) sc :: fs) s F s' /\ F <> [])
  \/ (exists b p' b' fs' s0', n = Node.Block b /\ F = FrNodes p' b' 0 true :: fs' /\ s' = [] :: s0' /\ tidies b b'
       /\ stacks (FrNodes p ns (S k) sc :: fs) s fs' s0')
  \/ (exists n' p' ns' k' fs', F = FrNodes p' ns' k' sc :: fs' /\ ns' !! k' = Some n' /\ tidies [n] [n']
       /\ advanced (FrNodes p ns (S k) sc :: fs) s (FrNodes p' ns' (S k') sc :: fs') s').
Proof.
  intros H Hn. inversion H as [|? ? ? ? p' ns' k' ? T|? ? ? ? names s0 p' ns' k' fs' s0' T Hs|? ? ? ? s0 ? ? T Hne Hs|? b ? s0 p' b' fs' s0' T Hne Hs| |]; subst.
  - rewrite (drop_S _ _ _ Hn) in T. apply tidies_next in T as [[Hi T]|(n' & rest & E & Hp & T)].
    + left. split_and!; [done|by apply st_entry|done].
    + apply drop_next in E as [En <-]. right. right. do 5 eexists. split_and!; [done|exact En|done|].
      split; [|intros x]; by apply st_entry.
  - rewrite (drop_S _ _ _ Hn) in T. apply tidies_next in T as [[Hi T]|(n' & rest & E & Hp & T)].
    + left. split_and!; [done|by apply st_nodes|done].
    + apply drop_next in E as [En <-]. right. right. do 5 eexists. split_and!; [done|exact En|done|].
      split; [|intros x]; by apply st_nodes.
  - rewrite (drop_S _ _ _ Hn) in T. apply tidies_next in T as [[Hi T]|(n' & rest & E & Hp & T)]; [|done].
    left. split_and!; [done|by apply st_ghost|done].
  - injection Hn as <-. right. left. do 5 eexists. split_and!; [done..|]. apply st_ghost; [constructor|done|done].
Qed.

(** ** Steps *)

Section Steps.
Context (fe : FloatEnv) (dialect : option (string -> option OpDef)).
Abbreviation exec := (exec_node fe dialect []).

Lemma lane_locals i i' : same_lane i i' -> lo_locals (hi_locals i) = lo_locals (hi_locals i').
Proof. intros [H _ _ _ _]. by injection H. Qed.
Lemma lane_with_locals i i' l l' : same_lane i i' -> lo_locals l = lo_locals l' -> lo_immutable l = lo_immutable l' ->
  same_lane (with_locals i l) (with_locals i' l').
Proof. intros [H Hi Hr Hw Hp] Hl Hm. split; try done. unfold snapshot in *. cbn. injection H as Hids Hk _. by rewrite Hids, Hk, Hl. Qed.
Lemma bind_tidied i i' x v l : same_lane i i' -> bind (hi_locals i) x v = Ok l -> exists l', bind (hi_locals i') x v = Ok l'
  /\ lo_locals l = lo_locals l' /\ lo_immutable l = lo_immutable l'
  /\ lo_scopes l = note x (lo_scopes (hi_locals i)) /\ lo_scopes l' = note x (lo_scopes (hi_locals i')).
Proof.
  intros H. pose proof (lane_locals _ _ H) as Hl. destruct H as [_ Him _ _ _]. unfold bind. rewrite <- Hl.
  destruct (lo_locals (hi_locals i) !! x); [done|]. intros [= <-]. eexists. split; [done|]. cbn. by rewrite <- Him.
Qed.
Lemma assign_tidied i i' x v l : same_lane i i' -> assign (hi_locals i) x v = Ok l -> exists l', assign (hi_locals i') x v = Ok l'
  /\ lo_locals l = lo_locals l' /\ lo_immutable l = lo_immutable l'
  /\ lo_scopes l = lo_scopes (hi_locals i) /\ lo_scopes l' = lo_scopes (hi_locals i').
Proof.
  intros H. pose proof (lane_locals _ _ H) as Hl. destruct H as [_ Him _ _ _]. unfold assign. rewrite <- Hl, <- Him.
  destruct (lo_locals (hi_locals i) !! x); [|done]. destruct (default false _); [done|]. intros [= <-].
  eexists. split; [done|]. by cbn.
Qed.

Lemma async_load_lane a b o z j j' : snapshot j = snapshot j' -> eval_async_load fe dialect [] a b o z j = eval_async_load fe dialect [] a b o z j'.
Proof. intros H. unfold eval_async_load, eval_byte_count. by rewrite H. Qed.
Lemma async_store_lane a b o z j j' : snapshot j = snapshot j' -> eval_async_store fe dialect [] a b o z j = eval_async_store fe dialect [] a b o z j'.
Proof. intros H. unfold eval_async_store, eval_byte_count. by rewrite H. Qed.
Lemma lane_with_pending i i' q : same_lane i i' -> same_lane (with_pending i q) (with_pending i' q).
Proof. by intros []. Qed.
Lemma begin_tidied (x : HM HashmapAsyncTransfer) j j' tag t m m0 i1 m1 : same_lane j j' -> x m = Ok (t, m0) ->
  hlift (begin_async j tag t) m0 = Ok (i1, m1) -> stacked j j' ->
  exists i1', (t ← x; hlift (begin_async j' tag t)) m = Ok (i1', m1) /\ tidied i1 i1'.
Proof.
  intros Hj Ex E Hst. rewrite (hbind_eq _ _ _ _ _ Ex). unfold hlift, begin_async in *. rewrite <- (sl_pending _ _ Hj).
  destruct (_ !! tag); [done|]. injection E as <- <-. eexists. split; [done|]. by split; [apply lane_with_pending|].
Qed.
Lemma leaf_tidied n id id' j j' m i1 m1 : leaf n = true -> same_lane j j' ->
  advanced (hi_frames j) (lo_scopes (hi_locals j)) (hi_frames j') (lo_scopes (hi_locals j')) ->
  exec n id j m = Ok (i1, m1) -> exists i1', exec n id' j' m = Ok (i1', m1) /\ tidied i1 i1'.
Proof.
  intros Hl Hj [Hst Hnote] E. pose proof (sl_snapshot _ _ Hj) as Hsn. pose proof (sl_pending _ _ Hj) as Hp.
  destruct n; try done; cbn [exec_node] in *; rewrite <- ?Hsn.
  - apply hbind_Ok in E as (v & m0 & Ev & E). unfold mbind, HM_bind. rewrite Ev. unfold hlift, mbind, HM_bind in *.
    destruct (bind (hi_locals j) name v) as [l|] eqn:Eb; [|done]. injection E as <- <-.
    destruct (bind_tidied _ _ _ _ _ Hj Eb) as (l' & -> & H1 & H2 & H3 & H4). eexists. split; [done|]. split; [by apply lane_with_locals|].
    unfold stacked. cbn. rewrite H3, H4. apply Hnote.
  - apply hbind_Ok in E as (v & m0 & Ev & E). unfold mbind, HM_bind. rewrite Ev. unfold hlift, mbind, HM_bind in *.
    destruct (assign (hi_locals j) name v) as [l|] eqn:Eb; [|done]. injection E as <- <-.
    destruct (assign_tidied _ _ _ _ _ Hj Eb) as (l' & -> & H1 & H2 & H3 & H4). eexists. split; [done|]. split; [by apply lane_with_locals|].
    unfold stacked. cbn. by rewrite H3, H4.
  - repeat match type of E with (_ ≫= _) _ = Ok _ => let Ex := fresh "Ex" in apply hbind_Ok in E as (? & ? & Ex & E) end.
    injection E as <- <-. exists j'. split; [|by split]. do 7 (etrans; [by eapply hbind_eq|]). done.
  - apply hbind_Ok in E as (? & ? & _ & E). done.
  - apply hbind_Ok in E as (t & m0 & Et & E). rewrite (async_load_lane _ _ _ _ _ _ Hsn) in Et.
    by eapply begin_tidied; [|exact Et|exact E|].
  - apply hbind_Ok in E as (t & m0 & Et & E). rewrite (async_store_lane _ _ _ _ _ _ Hsn) in Et.
    by eapply begin_tidied; [|exact Et|exact E|].
  - apply hbind_Ok in E as ([t k] & m0 & Ef & E). apply hlift_Ok in Ef as [Ef ->]. unfold finish_async in *. rewrite <- Hp.
    destruct (ok_or (hi_pending_async j !! tag) _) as [t'|]; [|done]. injection Ef as <- <-.
    apply hbind_Ok in E as (u & m2 & Ea & [= <- <-]). eexists. split; [etrans; [by eapply hbind_eq|]; etrans; [by eapply hbind_eq|done]|].
    by split; [apply lane_with_pending|].
  - apply hbind_Ok in E as (? & ? & _ & E). apply hbind_Ok in E as (? & ? & _ & E). done.
  - injection E as <- <-. eexists. split; [done|]. split; [|apply st_nil]. by destruct Hj.
  - injection E as <- <-. eexists. split; [done|]. split; [|done]. by destruct Hj.
Qed.

Lemma enter_tidied j j' path path' b b' : same_lane j j' -> tidies b b' -> stacked j j' -> tidied (enter j path b) (enter j' path' b').
Proof. intros [] Ht Hst. split; [by split|]. by eapply st_nodes. Qed.
Lemma lane_with_check i i' c : same_lane i i' -> same_lane (with_check i c) i'.
Proof. by intros []. Qed.
Lemma lane_with_check_r i i' c : same_lane i i' -> same_lane i (with_check i' c).
Proof. by intros []. Qed.
#[local] Hint Resolve lane_with_check lane_with_check_r : core.
Lemma pair_tidied n n' id id' j j' m i1 m1 : tidies [n] [n'] -> same_lane j j' -> hi_frames j' <> [] ->
  advanced (hi_frames j) (lo_scopes (hi_locals j)) (hi_frames j') (lo_scopes (hi_locals j')) ->
  exec n id j m = Ok (i1, m1) -> exists i1', exec n' id' j' m = Ok (i1', m1) /\ tidied i1 i1'.
Proof.
  intros Ht Hj Hne Hadv E. pose proof Hadv as [Hst _]. pose proof (sl_snapshot _ _ Hj) as Hsn.
  inversion Ht; subst; try (match goal with H : tidies [] [_] |- _ => inversion H end; fail).
  - by eapply leaf_tidied.
  - cbn [exec_node] in *. rewrite <- Hsn. apply hbind_Ok in E as (v & m0 & Ev & [= <- <-]).
    eexists. split; [etrans; [by eapply hbind_eq|done]|].
    repeat case_match; apply enter_tidied; auto.
  - cbn [exec_node] in *. rewrite <- Hsn. apply hbind_Ok in E as (v & m0 & Ev & E). apply hbind_Ok in E as (from & m2 & Ef & E).
    apply hbind_Ok in E as (w & m3 & Ew & E). apply hbind_Ok in E as (to & m4 & Et & [= <- <-]).
    eexists. split; [do 4 (etrans; [by eapply hbind_eq|]); done|]. split; [by destruct Hj|]. by apply st_loop.
  - cbn [exec_node] in *. injection E as <- <-. eexists. split; [done|]. by apply enter_tidied.
  - cbn [exec_node] in *. injection E as <- <-. eexists. split; [done|]. by apply enter_tidied.
  - cbn [exec_node] in *. injection E as <- <-. eexists. split; [done|]. cbn [Value.truthy].
    destruct (contains_barrier t || contains_barrier o), v; apply enter_tidied; auto.
  - cbn [exec_node] in *. apply hbind_Ok in E as (v & m0 & Ev & E). apply hbind_Ok in E as (from & m2 & [Ef ->]%hlift_Ok & E).
    apply hbind_Ok in E as (w & m3 & Ew & E). apply hbind_Ok in E as (to & m4 & [Et ->]%hlift_Ok & [= <- <-]).
    unfold to_index, ok_or in *. destruct (Value.try_as_u32 v) as [x'|] eqn:Ex; [|done]. destruct (Value.try_as_u32 w) as [y|] eqn:Ey; [|done].
    injection Ef as <-. injection Et as <-. match goal with He : const_loop_empty _ _ = true |- _ => destruct (const_loop_values _ _ _ _ _ _ _ _ _ _ _ _ _ He Ev Ew Ex Ey) as [-> Hle] end.
    eexists. split; [done|]. split; [destruct Hj; by split|]. by apply st_dead.
  - cbn [exec_node] in *. injection E as <- <-. eexists. split; [done|]. split; [destruct Hj; by split|].
    by eapply st_promote.
Qed.

Definition stays (i1 i' : HashmapInvocation) (m m1 : HashmapMemory) : Prop := m1 = m /\ tidied i1 i'.
Definition follows_step (i1 i' : HashmapInvocation) (m m1 : HashmapMemory) : Prop :=
  exists i1', step_frames fe dialect [] (hi_frames i') i' m = Ok (i1', m1) /\ tidied i1 i1'.
Definition answers (i1 i' : HashmapInvocation) (m m1 : HashmapMemory) : Prop := stays i1 i' m m1 \/ follows_step i1 i' m m1.

Lemma lane_frames i i' F F' : same_lane i i' -> same_lane (with_frames i F) (with_frames i' F').
Proof. by intros []. Qed.
(** An idle statement. *)
Lemma idle_tidied n id j i' m i1 m1 : idles n -> same_lane j i' -> stacked j i' -> hi_frames i' <> [] ->
  exec n id j m = Ok (i1, m1) -> stays i1 i' m m1.
Proof.
  intros [(x & ->)|(b & -> & Hb)] Hj Hst Hne E; cbn [exec_node] in E.
  - apply hbind_Ok in E as (v & m0 & [Ev ->]%hlift_Ok & E). apply hbind_Ok in E as (l & m2 & [Ea ->]%hlift_Ok & [= <- <-]).
    cbn [snapshot sn_locals] in Ev. unfold ok_or in Ev. destruct (lo_locals (hi_locals j) !! x) as [w|] eqn:Ex; [|done]. injection Ev as ->.
    unfold assign in Ea. rewrite Ex in Ea. destruct (default false _); [done|]. injection Ea as <-. split; [done|].
    split; [|exact Hst]. destruct Hj as [Hsn Him Hr Hw Hp]. split; try done. rewrite <- Hsn. unfold snapshot. cbn. by rewrite insert_id.
  - injection E as <- <-. split; [done|]. split; [by destruct Hj|]. by apply st_ghost.
Qed.
Lemma list_tidied i i' p ns k sc fs n m i1 m1 : hi_frames i = FrNodes p ns k sc :: fs -> ns !! k = Some n -> tidied i i' ->
  exec n (p ++ [k]) (push_frame (with_frames i fs) (FrNodes p ns (S k) sc)) m = Ok (i1, m1) -> answers i1 i' m m1.
Proof.
  intros Hf Hn [Hl Hst] E. unfold stacked in Hst. rewrite Hf in Hst.
  destruct (stacks_next _ _ _ _ _ _ _ _ _ Hst Hn) as [(Hi & Hs & Hne)|[(b & p' & b' & fs' & s0' & -> & HF & Hs' & Hb & Hs)
    |(n' & p' & ns' & k' & fs' & HF & Hn' & Hp & Hadv)]].
  - left. apply (idle_tidied _ _ _ i' _ _ _ Hi) in E; [exact E|by destruct Hl|exact Hs|exact Hne].
  - left. injection E as <- <-. split; [done|]. split; [by destruct Hl|]. unfold stacked. cbn. rewrite HF, Hs'. by apply st_nodes.
  - right. unfold follows_step. rewrite HF. cbn [step_frames]. unfold step_nodes_frame. rewrite Hn'.
    destruct (pair_tidied n n' (p ++ [k]) (p' ++ [k']) (push_frame (with_frames i fs) (FrNodes p ns (S k) sc))
      (push_frame (with_frames i' fs') (FrNodes p' ns' (S k') sc)) m i1 m1 Hp) as (i1' & E' & Ht); [by destruct Hl|done|exact Hadv|exact E|].
    exists i1'. split; [|done]. etrans; [eapply hbind_eq; etrans; [eapply hbind_eq; exact E'|reflexivity]|done].
Qed.
Lemma tidies_nil out : tidies [] out -> out = [].
Proof. by inversion 1. Qed.
Lemma drop_nil_lookup {A} (l : list A) k : drop k l = [] -> l !! k = None.
Proof. intros H. by rewrite <- (Nat.add_0_r k), <- lookup_drop, H. Qed.
Lemma pop_locals l names s : lo_scopes l = names :: s -> pop_scope l = mkLocals (dels (lo_locals l) names)
  (foldl (fun m name => delete name m) (lo_immutable l) names) s.
Proof. intros E. unfold pop_scope. by rewrite E. Qed.
Lemma stacks_end p ns k sc fs s F s' : ns !! k = None -> stacks (FrNodes p ns k sc :: fs) s F s' ->
  (sc = false /\ fs = [] /\ exists p' ns' k', F = [FrNodes p' ns' k' false] /\ ns' !! k' = None)
  \/ (sc = true /\ exists names s0 p' ns' k' fs' s0', s = names :: s0 /\ s' = names :: s0' /\ F = FrNodes p' ns' k' true :: fs'
       /\ ns' !! k' = None /\ stacks fs s0 fs' s0')
  \/ (sc = true /\ exists s0, s = [] :: s0 /\ stacks fs s0 F s').
Proof.
  intros Hn H. apply lookup_ge_None in Hn as Hk. inversion H; subst; try (rewrite drop_ge in * by done);
    try match goal with T : tidies [] _ |- _ => apply tidies_nil, drop_nil_lookup in T end.
  - left. by eauto 10.
  - right. left. by eauto 20.
  - right. right. by eauto.
  - done.
Qed.
Lemma end_tidied i i' p ns k sc fs m i1 m1 : hi_frames i = FrNodes p ns k sc :: fs -> ns !! k = None -> tidied i i' ->
  step_frames fe dialect [] (hi_frames i) i m = Ok (i1, m1) -> answers i1 i' m m1.
Proof.
  intros Hf Hn [Hl Hst] E. pose proof (lane_locals _ _ Hl) as Hll. pose proof (sl_immutable _ _ Hl) as Him.
  unfold stacked in Hst. rewrite Hf in Hst, E. cbn [step_frames] in E. unfold step_nodes_frame in E. rewrite Hn in E.
  apply (stacks_end _ _ _ _ _ _ _ _ Hn) in Hst as [(-> & -> & p' & ns' & k' & HF & Hn')
    |[(-> & names & s0 & p' & ns' & k' & fs' & s0' & Es & Es' & HF & Hn' & Hs)|(-> & s0 & Es & Hs)]]; injection E as <- <-.
  - right. unfold follows_step. rewrite HF. cbn [step_frames]. unfold step_nodes_frame. rewrite Hn'.
    eexists. split; [done|]. split; [by do 2 apply lane_frames|]. apply st_nil.
  - right. unfold follows_step. rewrite HF. cbn [step_frames]. unfold step_nodes_frame. rewrite Hn'.
    eexists. split; [done|]. cbn [with_frames hi_locals]. rewrite (pop_locals _ _ _ Es), (pop_locals _ _ _ Es'), Hll, Him.
    split; [by apply lane_with_locals; [apply lane_frames|..]|done].
  - left. split; [done|]. cbn [with_frames hi_locals]. rewrite (pop_locals _ _ _ Es). split; [by destruct Hl|done].
Qed.
Lemma stacks_loop p x a b l fs s F s' : stacks (FrLoop p x a b l :: fs) s F s' ->
  (exists p' l' fs', F = FrLoop p' x a b l' :: fs' /\ tidies l l' /\ stacks fs s fs' s')
  \/ (b <= a /\ exists p' fs' s0', F = FrNodes p' [] 0 true :: fs' /\ s' = [] :: s0' /\ stacks fs s fs' s0').
Proof. intros H. inversion H; subst; eauto 15. Qed.
Lemma loop_tidied i i' p x a b l fs m i1 m1 : hi_frames i = FrLoop p x a b l :: fs -> tidied i i' ->
  step_frames fe dialect [] (hi_frames i) i m = Ok (i1, m1) -> follows_step i1 i' m m1.
Proof.
  intros Hf [Hl Hst] E. unfold stacked in Hst. rewrite Hf in Hst, E. cbn [step_frames] in E. apply hlift_Ok in E as [E ->].
  unfold step_loop_frame in E. unfold follows_step.
  apply stacks_loop in Hst as [(p' & l' & fs' & HF & Ht & Hs)|(Hle & p' & fs' & s0' & HF & Es' & Hs)]; rewrite HF; cbn [step_frames].
  - unfold step_loop_frame. destruct (b <=? a).
    { injection E as <-. eexists. split; [done|]. split; [by apply lane_frames|done]. }
    unfold bind_loop_var in *. apply bind_Ok in E as (l1 & E1 & E). injection E as <-. apply bind_Ok in E1 as (l0 & E0 & E1). injection E1 as <-.
    set (j := with_locals (push_frame (with_frames i fs) (FrLoop p x (wrapu 32 (a + 1)) b l)) (push_scope (hi_locals i))).
    set (j' := with_locals (push_frame (with_frames i' fs') (FrLoop p' x (wrapu 32 (a + 1)) b l')) (push_scope (hi_locals i'))).
    assert (same_lane j j') as Hj by (by destruct Hl).
    destruct (bind_tidied j j' x (Value.U32 a) l0 Hj E0) as (l0' & E0' & H1 & H2 & H3 & H4).
    eexists. split; [unfold hlift; cbn [push_frame with_frames hi_locals]; cbn [j' with_locals hi_locals] in E0'; by rewrite E0'|].
    split; [destruct Hj as [Hsn Him Hr Hw Hp]|].
    + split; try done; [|by cbn; rewrite H2]. unfold snapshot in *. cbn in *. injection Hsn as -> -> _. by rewrite H1.
    + unfold stacked. cbn. rewrite H3, H4. apply st_nodes; [done|]. by apply st_loop.
  - rewrite (proj2 (Z.leb_le _ _) Hle) in E. injection E as <-. eexists. split; [done|]. cbn [with_frames hi_locals].
    rewrite (pop_locals _ _ _ Es'). split; [by destruct Hl|done].
Qed.

Lemma step_tidied i i' m i1 m1 : tidied i i' -> hi_frames i <> [] -> step_frames fe dialect [] (hi_frames i) i m = Ok (i1, m1) ->
  answers i1 i' m m1.
Proof.
  intros Ht Hne E. destruct (hi_frames i) as [|[p ns k sc|p x a b l] fs] eqn:Hf; [done|..].
  - destruct (ns !! k) as [n|] eqn:Hn; [|rewrite <- Hf in E; by eapply end_tidied].
    eapply list_tidied; [exact Hf|exact Hn|exact Ht|]. cbn [step_frames] in E. unfold step_nodes_frame in E. rewrite Hn in E.
    apply hbind_Ok in E as ([stop j] & m2 & E & E2). apply hbind_Ok in E as (j2 & m3 & E & [= <- <- <-]). by injection E2 as <- <-.
  - right. rewrite <- Hf in E. by eapply loop_tidied.
Qed.
Lemma tidied_status i i' : tidied i i' -> done i = done i' /\ hi_waiting i = hi_waiting i'.
Proof.
  intros [[_ _ Hr Hw _] Hst]. apply stacks_empty in Hst. unfold done. rewrite Hr, Hw.
  destruct (hi_frames i), (hi_frames i'); naive_solver.
Qed.
#[export] Instance tidied_simulation : LaneSimulation fe dialect ∅ tidied.
Proof.
  split.
  - intros i i'. apply tidied_status.
  - intros i i' w [[] Hst]. by split.
  - intros i i' m i1 m1 Ht Hm Hidle E. unfold step in E. rewrite Hidle in E.
    assert (hi_frames i <> []) as Hne.
    { intros Ef. unfold done in Hidle. rewrite Ef in Hidle. by destruct (hi_returned i). }
    destruct (step_tidied _ _ _ _ _ Ht Hne E) as [[-> Hs]|(i1' & E' & Hs)]; [by left|]. right. exists i1'. split; [|by split].
    unfold step. destruct (tidied_status _ _ Ht) as [<- <-]. by rewrite Hidle.
Qed.
End Steps.

Lemma tidied_start ids k ns ns' : tidies ns ns' -> tidied (invocation_new ids k ns) (invocation_new ids k ns').
Proof. intros H. split; [done|]. by apply st_entry. Qed.
