(* ===== verification/CleanupSound.v ===== *)
(** The cleanup passes are sound, and their gates exact.

    Every pass tidies the statements in the sense of [tidies], so the simulation of
    CleanupSim.v applies to any sequence of passes.  The flag a pass returns and the gate
    in front of it are both the scan of the statements for what the pass rewrites. *)

From S2P Require Import Prelude Float Spec IR ProgramStats RefValue RefMemory RefEval StrengthReduce Collectives ProgramFacts ValidateExpr Validate.
From S2P Require Import RefHash RefSched RefSchedSound RefWorkgroup RefDispatch RefDispatchSound ScopingSound ConstFoldGaps.
From S2P Require Import DeadCode DeadCodeSim DeadCodeSound Cleanup CleanupSim.

(** ** Rebuilt statements *)

Lemma tidies_app a a' b b' : tidies a a' -> tidies b b' -> tidies (a ++ b) (a' ++ b').
Proof. intros H Hb. induction H; cbn [app]; eauto using tidies. Qed.
Lemma tidies_all l l' : Forall2 (fun n n' => tidies [n] [n']) l l' -> tidies l l'.
Proof. induction 1 as [|n n' l l' H _ IH]; [constructor|]. apply (tidies_app [n] [n'] l l' H IH). Qed.

Lemma map_flag_cons {A B} (f : A -> bool -> B * bool) x l ch : map_flag f (x :: l) ch
  = let '(y, ch1) := f x ch in let '(ys, ch2) := map_flag f l ch1 in (y :: ys, ch2).
Proof. done. Qed.
Lemma map_flag_rel {A B} (R : A -> B -> Prop) f l : Forall (fun x => forall ch, R x (fst (f x ch))) l ->
  forall ch, Forall2 R l (fst (map_flag f l ch)).
Proof.
  induction 1 as [|x l Hx _ IH]; intros ch; [constructor|]. rewrite map_flag_cons. specialize (Hx ch). destruct (f x ch) as [y ch1].
  specialize (IH ch1). destruct (map_flag f l ch1) as [ys ch2]. by constructor.
Qed.
Definition rebuilds (f : Node -> bool -> Node * bool) (n : Node) : Prop := forall ch, tidies [n] [fst (f n ch)].
Lemma rebuilt_list f l : Forall (rebuilds f) l -> forall ch, tidies l (fst (map_flag f l ch)).
Proof. intros H ch. by apply tidies_all, map_flag_rel. Qed.
(** The shape of a statement whose lists have been rebuilt. *)
Lemma rebuilt_children f n : match n with
    | Node.If c t o => Forall (rebuilds f) t -> Forall (rebuilds f) o -> forall ch, exists t' o' ch',
        map_children f n ch = (Node.If c t' o', ch') /\ tidies t t' /\ tidies o o'
    | Node.Loop x a b l => Forall (rebuilds f) l -> forall ch, exists l' ch',
        map_children f n ch = (Node.Loop x a b l', ch') /\ tidies l l'
    | Node.Block l => Forall (rebuilds f) l -> forall ch, exists l' ch', map_children f n ch = (Node.Block l', ch') /\ tidies l l'
    | Node.Region g r l => Forall (rebuilds f) l -> forall ch, exists l' ch',
        map_children f n ch = (Node.Region g r l', ch') /\ Forall2 (fun n n' => tidies [n] [n']) l l'
    | _ => forall ch, map_children f n ch = (n, ch)
    end.
Proof.
  destruct n; try done; cbn [map_children].
  - intros Ht Ho ch. pose proof (rebuilt_list _ _ Ht ch) as T. destruct (map_flag f _ ch) as [t' ch1].
    pose proof (rebuilt_list _ _ Ho ch1) as O. destruct (map_flag f _ ch1) as [o' ch2]. by eauto 10.
  - intros Hb ch. pose proof (rebuilt_list _ _ Hb ch) as T. destruct (map_flag f _ ch) as [b' ch1]. by eauto.
  - intros Hb ch. pose proof (rebuilt_list _ _ Hb ch) as T. destruct (map_flag f _ ch) as [b' ch1]. by eauto.
  - intros Hb ch. pose proof (map_flag_rel (fun n n' => tidies [n] [n']) _ _ Hb ch) as T. destruct (map_flag f _ ch) as [b' ch1]. by eauto.
Qed.

(** *** The passes that replace statements *)

Lemma constant_if_rebuilds n : rebuilds eliminate_constant_if n.
Proof.
  induction n using Node_ind'; intros ch; cbn [eliminate_constant_if];
    match goal with |- context [map_children ?f ?n ch] => pose proof (rebuilt_children f n) as Hc end; cbn beta iota in Hc;
    try (rewrite Hc; by apply td_leaf; [|constructor]).
  - destruct (Hc H H0 ch) as (t' & o' & ch' & -> & Ht & Ho). destruct c; try (by apply td_if; [..|constructor]).
    destruct value; apply td_branch; [done|constructor|done|constructor].
  - destruct (Hc H ch) as (l' & ch' & -> & Hl). by apply td_loop; [|constructor].
  - destruct (Hc H ch) as (l' & ch' & -> & Hl). by apply td_block; [|constructor].
  - destruct (Hc H ch) as (l' & ch' & -> & Hl%tidies_all). by apply td_region; [|constructor].
Qed.
Lemma empty_loop_rebuilds n : rebuilds eliminate_empty_loop n.
Proof.
  induction n using Node_ind'; intros ch; cbn [eliminate_empty_loop];
    match goal with |- context [map_children ?f ?n ch] => pose proof (rebuilt_children f n) as Hc end; cbn beta iota in Hc;
    try (rewrite Hc; by apply td_leaf; [|constructor]).
  - destruct (Hc H H0 ch) as (t' & o' & ch' & -> & Ht & Ho). by apply td_if; [..|constructor].
  - destruct (Hc H ch) as (l' & ch' & -> & Hl). destruct (is_empty_loop _) eqn:He.
    + apply td_dead; [|constructor]. destruct f, t; done.
    + by apply td_loop; [|constructor].
  - destruct (Hc H ch) as (l' & ch' & -> & Hl). by apply td_block; [|constructor].
  - destruct (Hc H ch) as (l' & ch' & -> & Hl%tidies_all). by apply td_region; [|constructor].
Qed.
(** Only blocks become blocks. *)
Lemma promote_block n ch l ch' : promote_node n ch = (Node.Block l, ch') -> exists b, n = Node.Block b.
Proof.
  destruct n; cbn [promote_node map_children]; try done; try (by eauto);
    repeat match goal with |- context [map_flag ?f ?l ?c] => destruct (map_flag f l c) end; try done.
  repeat case_match; done.
Qed.
Lemma promote_rebuilds n : rebuilds promote_node n.
Proof.
  induction n using Node_ind'; intros ch; cbn [promote_node];
    match goal with |- context [map_children ?f ?n ch] => pose proof (rebuilt_children f n) as Hc end; cbn beta iota in Hc;
    try (rewrite Hc; by apply td_leaf; [|constructor]).
  - destruct (Hc H H0 ch) as (t' & o' & ch' & -> & Ht & Ho). by apply td_if; [..|constructor].
  - destruct (Hc H ch) as (l' & ch' & -> & Hl). by apply td_loop; [|constructor].
  - destruct (Hc H ch) as (l' & ch' & -> & Hl). by apply td_block; [|constructor].
  - clear Hc. cbn [map_children].
    pose proof (map_flag_rel (fun n n' => tidies [n] [n'] /\ forall l, n' = Node.Block l -> exists b, n = Node.Block b) promote_node b) as Hr.
    specialize (fun Hb => Hr Hb ch). destruct (map_flag promote_node b ch) as [l' ch']. cbn [fst] in *.
    assert (Forall2 (fun n n' => tidies [n] [n'] /\ forall l, n' = Node.Block l -> exists b, n = Node.Block b) b l') as HR.
    { apply Hr. eapply Forall_impl; [exact H|]. intros n Hn c. split; [apply Hn|]. intros l E.
      destruct (promote_node n c) as [n' c'] eqn:En. cbn in E. subst n'. by eapply promote_block. }
    assert (tidies b l') as Hl.
    { apply tidies_all. eapply Forall2_impl; [exact HR|]. naive_solver. }
    destruct l' as [|[] [|]]; try (by apply td_region; [|constructor]). cbn [fst].
    inversion HR as [|n ? b1 ? [Hn Hblock] Hnil]; subst. inversion Hnil; subst. destruct (Hblock _ eq_refl) as [b0 ->].
    apply td_promote; [|constructor]. inversion Hn; subst; try done. match goal with H : tidies [] [_] |- _ => inversion H end.
Qed.

(** *** The passes that drop statements *)

Section Dropping.
Context (matches : Node -> bool) (drops : list Node -> bool -> list Node * bool) (f : Node -> bool -> Node * bool).
Context (Hdrops : forall l ch, drops l ch = (filter (fun n => matches n = false) l, ch || existsb matches l)).
Context (Hf : forall n ch, f n ch = let '(n, ch) := map_children f n ch in map_body drops n ch).
Context (Hleaf : forall n, leaf n = true -> matches n = true -> exists x, n = Node.Assign x (Expr.Var x)).
Context (Hnode : forall n, leaf n = false -> matches n = true -> n = Node.Block []).

Definition kept_node (n : Node) : list Node := if matches n then [] else [n].
Definition drops_node (n : Node) : Prop := forall ch, tidies [n] (kept_node (fst (f n ch))).
Definition tidy_list (l : list Node) (ch : bool) : list Node * bool := let '(l, ch) := map_flag f l ch in drops l ch.
Lemma filtered l l' : Forall2 (fun n n' => tidies [n] (kept_node n')) l l' -> tidies l (filter (fun n => matches n = false) l').
Proof.
  induction 1 as [|n n' l l' Hn _ IH]; [constructor|]. rewrite filter_cons. unfold kept_node in Hn.
  destruct (matches n') eqn:E; [rewrite decide_False by done; apply (tidies_app [n] [] _ _ Hn IH)|].
  rewrite decide_True by done. apply (tidies_app [n] [n'] _ _ Hn IH).
Qed.
Lemma dropped_list l : Forall drops_node l -> forall ch, tidies l (fst (tidy_list l ch)).
Proof.
  unfold tidy_list. intros H ch. pose proof (map_flag_rel (fun n n' => tidies [n] (kept_node n')) f l H ch) as HR.
  destruct (map_flag f l ch) as [l' ch']. rewrite Hdrops. by apply filtered.
Qed.
Lemma kept_other n : n <> Node.Block [] -> leaf n = false -> kept_node n = [n].
Proof. intros Hn Hl. unfold kept_node. destruct (matches n) eqn:E; [|done]. by apply Hnode in E. Qed.
Lemma drops_leaf n : leaf n = true -> drops_node n.
Proof.
  intros Hl ch. assert (f n ch = (n, ch)) as -> by (rewrite Hf; by destruct n). unfold kept_node. cbn [fst]. destruct (matches n) eqn:E.
  - destruct (Hleaf n Hl E) as [x ->]. apply td_noop. constructor.
  - by apply td_leaf; [|constructor].
Qed.
Lemma drops_body l : Forall drops_node l -> forall ch, exists l' ch', map_flag f l ch = (l', ch') /\ tidies l (filter (fun n => matches n = false) l').
Proof.
  intros H ch. pose proof (map_flag_rel (fun n n' => tidies [n] (kept_node n')) f l H ch) as T. destruct (map_flag f l ch) as [l' ch']. do 2 eexists. split; [done|by apply filtered].
Qed.
Lemma drops_all n : drops_node n.
Proof.
  induction n using Node_ind'; try (by apply drops_leaf); intros ch; rewrite Hf; cbn [map_children].
  - destruct (drops_body _ H ch) as (t' & ch1 & -> & Ht). destruct (drops_body _ H0 ch1) as (o' & ch2 & -> & Ho). cbn [map_body].
    rewrite !Hdrops. cbn [fst]. rewrite kept_other by done. apply td_if; [done..|constructor].
  - destruct (drops_body _ H ch) as (b' & ch1 & -> & Hb). cbn [map_body]. rewrite Hdrops. cbn [fst]. rewrite kept_other by done.
    apply td_loop; [done|constructor].
  - destruct (drops_body _ H ch) as (b' & ch1 & -> & Hb). cbn [map_body]. rewrite Hdrops. cbn [fst]. unfold kept_node.
    destruct (matches _) eqn:E; [|apply td_block; [done|constructor]]. apply Hnode in E as [= E0]; [|done]. rewrite E0 in Hb.
    apply td_empty; [done|constructor].
  - destruct (drops_body _ H ch) as (b' & ch1 & -> & Hb). cbn [map_body]. rewrite Hdrops. cbn [fst]. rewrite kept_other by done.
    apply td_region; [done|constructor].
Qed.
Lemma tidied_list l ch : tidies l (fst (tidy_list l ch)).
Proof. apply dropped_list, Forall_true, drops_all. Qed.
End Dropping.

Lemma drop_empty_spec l : forall ch, drop_empty_blocks l ch = (filter (fun n => is_empty_block n = false) l, ch || existsb is_empty_block l).
Proof.
  induction l as [|n l IH]; intros ch; cbn [drop_empty_blocks existsb]; [by rewrite orb_false_r|]. rewrite filter_cons.
  destruct (is_empty_block n); rewrite IH; [rewrite decide_False by done; by rewrite orb_true_r|by rewrite decide_True by done].
Qed.
Lemma drop_noop_spec l : forall ch, drop_noop_assigns l ch = (filter (fun n => is_noop_assign n = false) l, ch || existsb is_noop_assign l).
Proof.
  induction l as [|n l IH]; intros ch; cbn [drop_noop_assigns existsb]; [by rewrite orb_false_r|]. rewrite filter_cons.
  destruct (is_noop_assign n); rewrite IH; [rewrite decide_False by done; by rewrite orb_true_r|by rewrite decide_True by done].
Qed.
Lemma collapse_unfold n ch : collapse_node n ch = let '(n, ch) := map_children collapse_node n ch in map_body drop_empty_blocks n ch.
Proof. by destruct n. Qed.
Lemma noop_unfold n ch : rewrite_noop n ch = let '(n, ch) := map_children rewrite_noop n ch in map_body drop_noop_assigns n ch.
Proof. by destruct n. Qed.
Lemma empty_block_leaf n : leaf n = true -> is_empty_block n = true -> exists x, n = Node.Assign x (Expr.Var x).
Proof. by destruct n. Qed.
Lemma empty_block_node n : leaf n = false -> is_empty_block n = true -> n = Node.Block [].
Proof. destruct n as [| | | | | | | | | | | | | | | | |[]| |]; done. Qed.
Lemma noop_leaf n : leaf n = true -> is_noop_assign n = true -> exists x, n = Node.Assign x (Expr.Var x).
Proof. destruct n as [|name []| | | | | | | | | | | | | | | | | |]; try done. intros _ ->%bool_decide_eq_true. by eexists. Qed.
Lemma noop_node n : leaf n = false -> is_noop_assign n = true -> n = Node.Block [].
Proof. by destruct n. Qed.

(** ** The gates *)

Lemma any_loop_scan pred fuel : forall stack, (nodes_size stack <= fuel)%nat -> any_loop pred fuel stack = existsb pred (nodes_of stack).
Proof.
  induction fuel as [|fuel IH]; intros [|n stack] Hf; try done.
  { unfold nodes_size, list_sum_nat in Hf. cbn [map fold_right] in Hf. destruct n; cbn [node_size] in Hf; lia. }
  rewrite nodes_of_cons, existsb_app, nodes_of_node. cbn [any_loop existsb]. destruct (pred n); [done|]. cbn [orb].
  assert (forall l k, nodes_size (l ++ k) = (nodes_size l + nodes_size k)%nat) as Happ.
  { intros l k. unfold nodes_size, list_sum_nat. induction l as [|x l IHl]; [done|]. cbn [map app fold_right]. lia. }
  assert (nodes_size (n :: stack) = (node_size n + nodes_size stack)%nat) as Hc by done.
  rewrite IH.
  - rewrite nodes_of_app, existsb_app. f_equal. destruct n; cbn [bodies flat_map]; rewrite ?app_nil_r, ?nodes_of_app; done.
  - rewrite Happ. destruct n; rewrite ?Happ; cbn [node_size] in Hc; unfold nodes_size in *; cbn in *; lia.
Qed.
Lemma scan_cons pred n l : existsb pred (nodes_of (n :: l)) = existsb pred (nodes_of [n]) || existsb pred (nodes_of l).
Proof. by rewrite nodes_of_cons, existsb_app. Qed.
Lemma scan_node pred n : existsb pred (nodes_of [n]) = pred n || existsb pred (flat_map nodes_of (bodies n)).
Proof. by rewrite nodes_of_node. Qed.

(** What a pass over one list or statement reports, and what it leaves. *)
Record exact_on (pred : Node -> bool) {A} (scan : A -> list Node) (f : A -> bool -> A * bool) (x : A) : Prop := {
  ex_flag : forall ch, snd (f x ch) = ch || existsb pred (scan x);
  ex_same : forall ch, existsb pred (scan x) = false -> fst (f x ch) = x;
}.
Abbreviation exact_list pred := (exact_on pred nodes_of).
Abbreviation exact_node pred := (exact_on pred (fun n => nodes_of [n])).
Abbreviation exact_below pred := (exact_on pred (fun n => flat_map nodes_of (bodies n))).

Section Walk.
Context (pred : Node -> bool) (f : Node -> bool -> Node * bool).
Lemma exact_scan scan l : Forall (exact_on pred scan f) l -> exact_on pred (flat_map scan) (map_flag f) l.
Proof.
  induction 1 as [|n l [Hn1 Hn2] _ [IH1 IH2]]; [split; [intros ch; by rewrite orb_false_r|done]|]. split; intros ch.
  - rewrite map_flag_cons. cbn [flat_map]. rewrite existsb_app. specialize (Hn1 ch). destruct (f n ch) as [n' ch1]. cbn [snd] in Hn1. specialize (IH1 ch1).
    destruct (map_flag f l ch1) as [l' ch2]. cbn [snd] in *. by rewrite IH1, Hn1, orb_assoc.
  - rewrite map_flag_cons. cbn [flat_map]. rewrite existsb_app. intros [H1 H2]%orb_false_iff. specialize (Hn2 ch H1). destruct (f n ch) as [n' ch1]. cbn [fst] in Hn2.
    specialize (IH2 ch1 H2). destruct (map_flag f l ch1) as [l' ch2]. cbn [fst] in *. congruence.
Qed.
Lemma nodes_of_flat l : nodes_of l = flat_map (fun n => nodes_of [n]) l.
Proof. induction l as [|n l IH]; [done|]. by rewrite nodes_of_cons, IH. Qed.
Lemma exact_map l : Forall (exact_node pred f) l -> exact_list pred (map_flag f) l.
Proof. intros [H1 H2]%exact_scan. by split; intros ch; rewrite nodes_of_flat; auto. Qed.
Lemma exact_children n : Forall (Forall (exact_node pred f)) (bodies n) -> exact_below pred (map_children f) n.
Proof.
  intros H. destruct n; cbn [bodies] in H; try (split; [intros ch; by rewrite orb_false_r|done]);
    split; intros ch; cbn [map_children bodies flat_map]; rewrite ?app_nil_r, ?existsb_app, ?orb_false_iff;
    try (inversion H as [|? ? [B1 B2]%exact_map _]; subst; specialize (B1 ch); specialize (B2 ch); destruct (map_flag f body ch);
         cbn [fst snd] in *; first [done|intros E; by rewrite B2]).
  - inversion H as [|? ? [T1 T2]%exact_map H2]; subst. inversion H2 as [|? ? [O1 O2]%exact_map _]; subst.
    specialize (T1 ch). destruct (map_flag f thn ch) as [t' ch1]. specialize (O1 ch1). destruct (map_flag f otherwise ch1). cbn [snd] in *.
    by rewrite O1, T1, orb_assoc.
  - inversion H as [|? ? [T1 T2]%exact_map H2]; subst. inversion H2 as [|? ? [O1 O2]%exact_map _]; subst. intros [E1 E2].
    specialize (T2 ch E1). destruct (map_flag f thn ch) as [t' ch1]. specialize (O2 ch1 E2). destruct (map_flag f otherwise ch1).
    cbn [fst] in *. congruence.
Qed.
(** What is left of the lists inside a statement when every statement is left clean. *)
Lemma clean_map (scan : Node -> list Node) l : Forall (fun n => forall ch, existsb pred (scan (fst (f n ch))) = false) l ->
  forall ch, existsb pred (flat_map scan (fst (map_flag f l ch))) = false.
Proof.
  induction 1 as [|n l Hn _ IH]; intros ch; [done|]. rewrite map_flag_cons. specialize (Hn ch). destruct (f n ch) as [n' ch1].
  specialize (IH ch1). destruct (map_flag f l ch1) as [l' ch2]. cbn [fst flat_map] in *. by rewrite existsb_app, Hn, IH.
Qed.
Lemma clean_children n : Forall (Forall (fun n => forall ch, existsb pred (nodes_of [fst (f n ch)]) = false)) (bodies n) ->
  forall ch, existsb pred (flat_map nodes_of (bodies (fst (map_children f n ch)))) = false.
Proof.
  intros H ch. destruct n; cbn [bodies] in H; try done; cbn [map_children];
    inversion H as [|? ? T H2]; subst; pose proof (clean_map (fun n => nodes_of [n]) _ T ch) as T1.
  - inversion H2 as [|? ? O _]; subst. destruct (map_flag f thn ch) as [t' ch1].
    pose proof (clean_map (fun n => nodes_of [n]) _ O ch1) as O1. destruct (map_flag f otherwise ch1) as [o' ch2].
    cbn [fst bodies flat_map] in *. by rewrite app_nil_r, existsb_app, !nodes_of_flat, T1, O1.
  - destruct (map_flag f body ch). cbn [fst bodies flat_map] in *. by rewrite app_nil_r, nodes_of_flat.
  - destruct (map_flag f body ch). cbn [fst bodies flat_map] in *. by rewrite app_nil_r, nodes_of_flat.
  - destruct (map_flag f body ch). cbn [fst bodies flat_map] in *. by rewrite app_nil_r, nodes_of_flat.
Qed.
End Walk.

Section Replacing.
Context (pred : Node -> bool) (replace : Node -> Node) (f : Node -> bool -> Node * bool).
Context (Hf : forall n ch, f n ch = let '(n, ch) := map_children f n ch in if pred n then (replace n, true) else (n, ch)).
Context (Hhead : forall n ch, pred (fst (map_children f n ch)) = pred n).

Lemma exact_replace n : exact_node pred f n.
Proof.
  assert (forall n, Forall (Forall (exact_node pred f)) (bodies n) -> exact_node pred f n) as Hstep.
  { intros k Hb. apply exact_children in Hb as [H1 H2]. split; intros ch; rewrite Hf, scan_node; specialize (H1 ch); specialize (Hhead k ch);
      destruct (map_children f k ch) as [k' ch'] eqn:E; cbn [fst snd] in *; rewrite Hhead.
    - destruct (pred k); [by rewrite orb_true_r|done].
    - intros [-> Hn]%orb_false_iff. specialize (H2 ch Hn). by rewrite E in H2. }
  induction n using Node_ind'; apply Hstep; cbn [bodies]; auto.
Qed.

(** The pass leaves nothing to do when what it puts in place has nothing left. *)
Context (Hreplace : forall n, pred n = true -> existsb pred (flat_map nodes_of (bodies n)) = false ->
  existsb pred (nodes_of [replace n]) = false).
Lemma clean_replace n : forall ch, existsb pred (nodes_of [fst (f n ch)]) = false.
Proof.
  assert (forall n, Forall (Forall (fun n => forall ch, existsb pred (nodes_of [fst (f n ch)]) = false)) (bodies n) ->
    forall ch, existsb pred (nodes_of [fst (f n ch)]) = false) as Hstep.
  { intros k Hb ch. apply (clean_children _ _ _) with (ch := ch) in Hb. rewrite Hf. destruct (map_children f k ch) as [k' ch'] eqn:E. cbn [fst] in Hb.
    destruct (pred k') eqn:Hp; cbn [fst]; [by apply Hreplace|]. by rewrite scan_node, Hp. }
  induction n using Node_ind'; apply Hstep; cbn [bodies]; auto.
Qed.
End Replacing.

Abbreviation below := (fun n => flat_map nodes_of (bodies n)).
Lemma scan_list pred l : existsb pred (nodes_of l) = existsb pred l || existsb pred (flat_map below l).
Proof.
  induction l as [|n l IH]; [done|]. rewrite scan_cons, scan_node, IH. cbn [existsb flat_map]. rewrite existsb_app.
  by destruct (pred n), (existsb pred l), (existsb pred (below n)).
Qed.
Section DroppingExact.
Context (matches : Node -> bool) (drops : list Node -> bool -> list Node * bool) (f : Node -> bool -> Node * bool).
Context (Hdrops : forall l ch, drops l ch = (filter (fun n => matches n = false) l, ch || existsb matches l)).
Context (Hf : forall n ch, f n ch = let '(n, ch) := map_children f n ch in map_body drops n ch).

Definition kept_list (l : list Node) : list Node := filter (fun n => matches n = false) l.
Lemma kept_all l : existsb matches l = false -> kept_list l = l.
Proof.
  induction l as [|n l IH]; [done|]. cbn [existsb]. intros [Hn Hl]%orb_false_iff. unfold kept_list. rewrite filter_cons.
  rewrite decide_True by done. f_equal. by apply IH.
Qed.
(** A list whose statements are exact below: its own matches are found after the walk. *)
Lemma exact_tidied l ch : Forall (exact_below matches f) l -> exists l' ch', map_flag f l ch = (l', ch')
  /\ ch' = ch || existsb matches (flat_map below l) /\ existsb matches (flat_map below l) || existsb matches l' = existsb matches (nodes_of l)
  /\ (existsb matches (nodes_of l) = false -> kept_list l' = l).
Proof.
  intros [H1 H2]%exact_scan. specialize (H1 ch). specialize (H2 ch). destruct (map_flag f l ch) as [l' ch']. do 2 eexists. split; [done|].
  cbn [fst snd] in *. split; [done|]. rewrite scan_list. destruct (existsb matches (flat_map below l)).
  - by rewrite orb_true_r.
  - rewrite H2 by done. rewrite orb_false_r. split; [done|]. apply kept_all.
Qed.
Lemma exact_drop n : exact_below matches f n.
Proof.
  assert (forall n, Forall (Forall (exact_below matches f)) (bodies n) -> exact_below matches f n) as Hstep.
  { intros k Hb. split; intros ch; rewrite Hf; destruct k; cbn [bodies] in Hb; try (by rewrite orb_false_r); try done; cbn [map_children];
      inversion Hb as [|? ? B Hb2]; subst; destruct (exact_tidied _ ch B) as (b' & ch1 & -> & -> & E1 & E2);
      try (inversion Hb2 as [|? ? B2 _]; subst; match goal with |- context [map_flag f ?l ?c] =>
             destruct (exact_tidied _ c B2) as (b2' & ch2 & -> & -> & E3 & E4) end);
      cbn [map_body bodies flat_map]; rewrite !Hdrops; cbn [fst snd]; rewrite ?app_nil_r, ?existsb_app.
    all: first [intros [F1 F2]%orb_false_iff; unfold kept_list in *; by rewrite E2, E4
               |intros F1; unfold kept_list in *; by rewrite E2
               |rewrite <- E1, <- E3; by destruct ch, (existsb matches (flat_map below thn)), (existsb matches b'), (existsb matches (flat_map below otherwise))
               |by rewrite <- E1, orb_assoc]. }
  induction n using Node_ind'; apply Hstep; cbn [bodies]; auto.
Qed.
Lemma exact_tidy l : exact_list matches (tidy_list drops f) l.
Proof.
  unfold tidy_list. split; intros ch; (destruct (exact_tidied l ch) as (l' & ch' & -> & -> & E1 & E2); [apply Forall_true, exact_drop|]);
    rewrite Hdrops; cbn [fst snd]; [by rewrite <- E1, orb_assoc|exact E2].
Qed.

Lemma clean_kept l : existsb matches (flat_map below l) = false -> existsb matches (nodes_of (kept_list l)) = false.
Proof.
  rewrite scan_list. induction l as [|n l IH]; [done|]. cbn [flat_map]. rewrite existsb_app. intros [Hn Hl]%orb_false_iff.
  unfold kept_list. rewrite filter_cons. case_decide as Hm; [|by apply IH]. cbn [existsb flat_map]. rewrite existsb_app, Hn, Hm. by apply IH.
Qed.
Lemma clean_drop n : forall ch, existsb matches (below (fst (f n ch))) = false.
Proof.
  assert (forall n, Forall (Forall (fun n => forall ch, existsb matches (below (fst (f n ch))) = false)) (bodies n) ->
    forall ch, existsb matches (below (fst (f n ch))) = false) as Hstep.
  { intros k Hb ch. rewrite Hf. destruct k; cbn [bodies] in Hb; try done; cbn [map_children]; inversion Hb as [|? ? B Hb2]; subst;
      apply (clean_map matches f below) with (ch := ch) in B;
      match type of B with context [map_flag f ?l ?c] => destruct (map_flag f l c) as [b' ch1] end;
      try (inversion Hb2 as [|? ? B2 _]; subst; apply (clean_map matches f below) with (ch := ch1) in B2;
           match type of B2 with context [map_flag f ?l ?c] => destruct (map_flag f l c) as [b2' ch2] end; apply clean_kept in B2);
      apply clean_kept in B; cbn [map_body]; rewrite !Hdrops; cbn [fst bodies flat_map]; rewrite app_nil_r, ?existsb_app.
    all: unfold kept_list in *; cbn [fst] in *; first [done|by rewrite B, B2]. }
  induction n using Node_ind'; apply Hstep; cbn [bodies]; auto.
Qed.
Lemma clean_tidy l ch : existsb matches (nodes_of (fst (tidy_list drops f l ch))) = false.
Proof.
  unfold tidy_list. pose proof (clean_map matches f below l) as H. specialize (H (Forall_true _ _ clean_drop) ch).
  destruct (map_flag f l ch) as [l' ch']. rewrite Hdrops. by apply clean_kept.
Qed.
End DroppingExact.

(** *** Barriers *)

Abbreviation seq_bad := sequence_has_consecutive_barriers.
Definition head_bar (l : list Node) : bool := match l with n :: _ => is_barrier n | [] => false end.
Definition bad_list (l : list Node) : bool := seq_bad l || existsb has_consecutive_barriers l.
Lemma seq_cons n l : seq_bad (n :: l) = is_barrier n && head_bar l || seq_bad l.
Proof. destruct l; [by destruct (is_barrier n)|done]. Qed.
Lemma seq_snoc l n : seq_bad (l ++ [n]) = seq_bad l || head_bar (rev l) && is_barrier n.
Proof.
  induction l as [|a l IH]; [done|]. cbn [app]. rewrite !seq_cons, IH. cbn [rev]. destruct l as [|b l]; [cbn; by destruct (is_barrier a), (is_barrier n)|].
  assert (head_bar (rev (b :: l) ++ [a]) = head_bar (rev (b :: l))) as ->.
  { cbn [rev]. by destruct (rev l). }
  cbn [app head_bar]. by rewrite orb_assoc.
Qed.
Lemma seq_rev l : seq_bad (rev l) = seq_bad l.
Proof.
  induction l as [|n l IH]; [done|]. cbn [rev]. rewrite seq_snoc, seq_cons, IH, rev_involutive, orb_comm. f_equal. apply andb_comm.
Qed.

Definition push_fold (f : Node -> bool -> Node * bool) : list Node * bool -> Node -> list Node * bool :=
  fun '(out, changed) n => let '(n, changed) := f n changed in push_coalesced out n changed.
Record coalesces (n : Node) : Prop := {
  co_bar : forall ch, is_barrier (fst (coalesce_node n ch)) = is_barrier n;
  co_flag : forall ch, snd (coalesce_node n ch) = ch || has_consecutive_barriers n;
  co_same : forall ch, has_consecutive_barriers n = false -> fst (coalesce_node n ch) = n;
  co_clean : forall ch, has_consecutive_barriers (fst (coalesce_node n ch)) = false;
}.
Lemma coalesce_fold l : Forall coalesces l -> forall out ch, seq_bad out = false -> existsb has_consecutive_barriers out = false ->
  exists out' ch', foldl (push_fold coalesce_node) (out, ch) l = (out', ch')
  /\ ch' = ch || (head_bar out && head_bar l || bad_list l)
  /\ (head_bar out && head_bar l || bad_list l = false -> out' = rev l ++ out)
  /\ seq_bad out' = false /\ existsb has_consecutive_barriers out' = false.
Proof.
  unfold bad_list. induction 1 as [|n l [Hb Hfl Hs Hc] _ IH]; intros out ch Ho Hho.
  { exists out, ch. split_and!; try done. by rewrite andb_false_r, orb_false_r. }
  cbn [foldl push_fold]. specialize (Hb ch). specialize (Hfl ch). specialize (Hs ch). specialize (Hc ch).
  destruct (coalesce_node n ch) as [n' ch1]. cbn [fst snd] in *. rewrite seq_cons. cbn [head_bar existsb].
  assert (push_coalesced out n' ch1 = if head_bar out && is_barrier n then (match out, n' with
    | Node.Barrier prev :: out, Node.Barrier curr => Node.Barrier (join_ordering prev curr) :: out | _, _ => n' :: out end, true)
    else (n' :: out, ch1)) as ->.
  { rewrite <- Hb. destruct out as [|[] out], n'; done. }
  destruct (head_bar out && is_barrier n) eqn:Eb.
  - apply andb_true_iff in Eb as [E1 E2]. rewrite E2 in Hb. destruct out as [|[] out]; try done. destruct n'; try done.
    match goal with |- context [foldl _ (?o, true) l] => destruct (IH o true) as (out' & ch' & -> & -> & _ & H1 & H2) end.
    + rewrite seq_cons in *. done.
    + done.
    + do 2 eexists. split; [done|]. split; [by rewrite orb_true_r|]. done.
  - destruct (IH (n' :: out) ch1) as (out' & ch' & -> & -> & H0 & H1 & H2).
    + rewrite seq_cons, Hb, andb_comm, Eb. done.
    + cbn [existsb]. by rewrite Hc.
    + do 2 eexists. split; [done|]. cbn [head_bar] in *. rewrite Hb in *. rewrite Hfl. split_and!; [|intros F|done|done].
      * by destruct ch, (has_consecutive_barriers n), (is_barrier n), (head_bar l), (seq_bad l), (existsb has_consecutive_barriers l).
      * cbn [orb] in F. apply orb_false_iff in F as [F1 F2]. apply orb_false_iff in F2 as [F2 F3]. rewrite Hs in H0 by done.
        rewrite H0 by (by rewrite F3, orb_false_r). cbn [rev]. by rewrite <- app_assoc.
Qed.
Lemma coalesce_list l : Forall coalesces l -> forall ch, exists l' ch', coalesce_with coalesce_node l ch = (l', ch')
  /\ ch' = ch || bad_list l /\ (bad_list l = false -> l' = l) /\ bad_list l' = false.
Proof.
  intros H ch. destruct (coalesce_fold l H [] ch) as (out' & ch' & E & -> & Hs & H1 & H2); [done..|]. cbn [head_bar andb orb] in *.
  unfold coalesce_with. fold (push_fold coalesce_node). rewrite E. do 2 eexists. split; [done|]. split; [done|]. split.
  - intros F. rewrite Hs by done. by rewrite app_nil_r, rev_involutive.
  - unfold bad_list. rewrite seq_rev, H1. cbn [orb]. rewrite <- H2. apply eq_true_iff_eq. rewrite !existsb_exists.
    by setoid_rewrite <- in_rev.
Qed.
Lemma coalesce_all n : coalesces n.
Proof.
  induction n using Node_ind'; try (split; intros ch; cbn; by rewrite ?orb_false_r).
  - split; intros ch; cbn [coalesce_node map_body]; destruct (coalesce_list _ H ch) as (t' & ch1 & -> & -> & Ht & Hct);
      match goal with |- context [coalesce_with coalesce_node _ ?c] => destruct (coalesce_list _ H0 c) as (o' & ch2 & -> & -> & Ho & Hco) end;
      cbn [fst snd is_barrier has_consecutive_barriers]; unfold bad_list in *; try done.
    + by destruct ch, (seq_bad t), (seq_bad o), (existsb has_consecutive_barriers t).
    + intros E. rewrite !orb_false_iff in *. f_equal; [apply Ht|apply Ho]; tauto.
    + rewrite !orb_false_iff in *. tauto.
  - split; intros ch; cbn [coalesce_node map_body]; destruct (coalesce_list _ H ch) as (t' & ch1 & -> & -> & Ht & Hct);
      cbn [fst snd is_barrier has_consecutive_barriers]; fold (bad_list t'); try done. intros E. by rewrite Ht.
  - split; intros ch; cbn [coalesce_node map_body]; destruct (coalesce_list _ H ch) as (t' & ch1 & -> & -> & Ht & Hct);
      cbn [fst snd is_barrier has_consecutive_barriers]; fold (bad_list t'); try done. intros E. by rewrite Ht.
  - split; intros ch; cbn [coalesce_node map_body]; destruct (coalesce_list _ H ch) as (t' & ch1 & -> & -> & Ht & Hct);
      cbn [fst snd is_barrier has_consecutive_barriers]; fold (bad_list t'); try done. intros E. by rewrite Ht.
Qed.
