(* ===== verification/CleanupCorrect.v ===== *)
(** What the cleanup passes promise.

    The passes are put side by side: [cleanup_simulates] is about any sequence of the five
    that tidy, [cleanup_gates] about the gate, the flag and the result of all six. *)

From S2P Require Import Prelude Float Spec IR ProgramStats RefValue RefMemory RefEval StrengthReduce Collectives ProgramFacts ValidateExpr Validate.
From S2P Require Import RefHash RefSched RefSchedSound RefWorkgroup RefDispatch RefDispatchSound ScopingSound ConstFoldGaps.
From S2P Require Import DeadCode DeadCodeSim DeadCodeSound Cleanup CleanupSim CleanupSound.

(** ** The passes side by side *)

Inductive Tidying := EmptyBlocks | ConstantIfs | EmptyLoops | NoopAssigns | SingletonBlocks.
#[export] Instance Tidying_eq_dec : EqDecision Tidying.
Proof. solve_decision. Defined.
Inductive Cleaning := Tidy (t : Tidying) | Barriers.

Definition tidying_transform (t : Tidying) : Program -> Program * bool :=
  match t with
  | EmptyBlocks => EmptyBlockCollapse_transform
  | ConstantIfs => IfConstantBranchEliminate_transform
  | EmptyLoops => LoopTripZeroEliminate_transform
  | NoopAssigns => NoopAssignEliminate_transform
  | SingletonBlocks => RegionPromoteSingletonBlock_transform
  end.
Definition cleaning_transform (c : Cleaning) : Program -> Program * bool :=
  match c with Tidy t => tidying_transform t | Barriers => BarrierCoalesce_transform end.
Definition cleaning_analyze (c : Cleaning) : Program -> bool :=
  match c with
  | Tidy EmptyBlocks => EmptyBlockCollapse_analyze
  | Tidy ConstantIfs => IfConstantBranchEliminate_analyze
  | Tidy EmptyLoops => LoopTripZeroEliminate_analyze
  | Tidy NoopAssigns => NoopAssignEliminate_analyze
  | Tidy SingletonBlocks => RegionPromoteSingletonBlock_analyze
  | Barriers => BarrierCoalesce_analyze
  end.

(** What each pass looks for, anywhere in the statements. *)
Definition target (t : Tidying) : Node -> bool :=
  match t with
  | EmptyBlocks => is_empty_block
  | ConstantIfs => is_constant_if
  | EmptyLoops => is_empty_loop
  | NoopAssigns => is_noop_assign
  | SingletonBlocks => is_singleton_block_region
  end.
(** Two barriers side by side, in the list itself or in one below it. *)
Definition adjacent_barriers (nodes : list Node) : Prop :=
  exists a b l r, nodes = l ++ Node.Barrier a :: Node.Barrier b :: r.
Definition barriers_meet (p : Program) : Prop :=
  adjacent_barriers (entry p) \/ exists n body, n ∈ program_nodes p /\ body ∈ bodies n /\ adjacent_barriers body.
Definition work (c : Cleaning) (p : Program) : Prop :=
  match c with
  | Tidy t => exists n, n ∈ program_nodes p /\ target t n = true
  | Barriers => barriers_meet p
  end.

(** The statements a pass leaves, and its flag. *)
Definition tidying_nodes (t : Tidying) : list Node -> bool -> list Node * bool :=
  match t with
  | EmptyBlocks => tidy_list drop_empty_blocks collapse_node
  | ConstantIfs => map_flag eliminate_constant_if
  | EmptyLoops => map_flag eliminate_empty_loop
  | NoopAssigns => tidy_list drop_noop_assigns rewrite_noop
  | SingletonBlocks => map_flag promote_node
  end.
Lemma tidying_entry t p : tidying_transform t p = map_entry_flag p (tidying_nodes t).
Proof. by destruct t. Qed.

(** ** Tidied programs *)

Lemma tidying_tidies t nodes ch : tidies nodes (fst (tidying_nodes t nodes ch)).
Proof.
  destruct t; cbn [tidying_nodes].
  - apply (tidied_list is_empty_block); [apply drop_empty_spec|apply collapse_unfold|apply empty_block_leaf|apply empty_block_node].
  - apply rebuilt_list, Forall_true, constant_if_rebuilds.
  - apply rebuilt_list, Forall_true, empty_loop_rebuilds.
  - apply (tidied_list is_noop_assign); [apply drop_noop_spec|apply noop_unfold|apply noop_leaf|apply noop_node].
  - apply rebuilt_list, Forall_true, promote_rebuilds.
Qed.
Lemma tidying_program t p : let q := fst (tidying_transform t p) in
  buffers q = buffers p /\ workgroup_size q = workgroup_size p /\ tidies (entry p) (entry q).
Proof.
  rewrite tidying_entry. unfold map_entry_flag. pose proof (tidying_tidies t (entry p) false) as H.
  by destruct (tidying_nodes t (entry p) false).
Qed.

(** Tidying needs neither declarations nor resolved names. *)
Lemma tidies_simulated fe dialect e e' : tidies e e' -> simulated fe dialect ∅ e e'.
Proof.
  intros HT invs invs' m Hinvs Hm invs1 m1 Hrun.
  destruct (lanes_sim fe dialect ∅ tidied _ _ Hrun Hm invs') as (invs1' & H & HR & _).
  - eapply Forall2_impl; [exact Hinvs|]. intros i i' (ids & k & -> & ->). by apply tidied_start.
  - exists invs1'. split; [exact H|]. eapply Forall2_impl; [exact HR|]. apply tidied_status.
Qed.
Lemma simulated_refl fe dialect decls e : simulated fe dialect decls e e.
Proof.
  intros invs invs' m Hinvs _ invs1 m1 Hrun. assert (invs' = invs) as ->.
  { clear Hrun. induction Hinvs as [|i i' l l' (ids & k & -> & ->) _ IH]; [done|]. by rewrite IH. }
  exists invs1. split; [done|]. clear. induction invs1; by constructor.
Qed.
Lemma unconstrained m : resolves ∅ m.
Proof. by intros b d Hd. Qed.

(** Tidying adds no subgroup operation. *)
Lemma tidies_subgroup e e' : tidies e e' ->
  existsb subgroup_item (flat_map items e) = false -> existsb subgroup_item (flat_map items e') = false.
Proof.
  assert (forall n ns, existsb subgroup_item (flat_map items (n :: ns)) = false
    <-> existsb subgroup_item (items n) = false /\ existsb subgroup_item (flat_map items ns) = false) as Hcons.
  { intros n ns. cbn [flat_map]. by rewrite existsb_app, orb_false_iff. }
  induction 1; rewrite ?Hcons; try done; intros [Hn Hns]; auto; (split; [|by auto]); try done; revert Hn;
    cbn [items flat_map existsb subgroup_item orb expr_items]; rewrite ?existsb_app, ?orb_false_iff, ?app_nil_r;
    intros Hn; destruct_and?; split_and?; auto.
  destruct v; auto.
Qed.

Definition tidy_run (ts : list Tidying) (p : Program) : Program := foldl (fun p t => fst (tidying_transform t p)) p ts.
Lemma tidy_run_simulated fe dialect ts : forall p, let q := tidy_run ts p in
  buffers q = buffers p /\ workgroup_size q = workgroup_size p /\ simulated fe dialect ∅ (entry p) (entry q)
  /\ (rc_subgroup_ops (scan p) = false -> rc_subgroup_ops (scan q) = false).
Proof.
  induction ts as [|t ts IH]; intros p; [split_and!; [done..|apply simulated_refl|done]|].
  destruct (tidying_program t p) as (H1 & H2 & H3). destruct (IH (fst (tidying_transform t p))) as (G1 & G2 & G3 & G4).
  unfold tidy_run in *. cbn [foldl]. split_and!; [congruence..| |].
  - eapply simulated_trans; [by apply tidies_simulated|exact G3].
  - intros Hs. apply G4. rewrite scan_subgroup in *. by apply (tidies_subgroup (entry p)).
Qed.

(** ** Gates and flags *)

Definition taken (n : Node) : Node :=
  match n with
  | Node.If (Expr.LitBool true) then_ _ => Node.Block then_
  | Node.If (Expr.LitBool false) _ otherwise => Node.Block otherwise
  | _ => n
  end.
Definition promoted (n : Node) : Node :=
  match n with Node.Region generator source_region [Node.Block inner] => Node.Region generator source_region inner | _ => n end.
(** What a pass puts in place of a statement it looks for. *)
Definition replacement (t : Tidying) : Node -> Node :=
  match t with ConstantIfs => taken | EmptyLoops => fun _ => Node.Block [] | SingletonBlocks => promoted | _ => fun n => n end.
Definition replacing (t : Tidying) : option (Node -> bool -> Node * bool) :=
  match t with
  | ConstantIfs => Some eliminate_constant_if
  | EmptyLoops => Some eliminate_empty_loop
  | SingletonBlocks => Some promote_node
  | _ => None
  end.

Lemma replacing_unfold t f n ch : replacing t = Some f ->
  f n ch = let '(n, ch) := map_children f n ch in if target t n then (replacement t n, true) else (n, ch).
Proof.
  intros H. destruct t; try done; injection H as <-; cbn [target replacement].
  - transitivity (let '(n, ch) := map_children eliminate_constant_if n ch in match n with
      | Node.If (Expr.LitBool true) t _ => (Node.Block t, true) | Node.If (Expr.LitBool false) _ o => (Node.Block o, true) | _ => (n, ch) end);
      [by destruct n|]. destruct (map_children _ n ch) as [[] ch']; try done. destruct cond; try done. by destruct value.
  - by destruct n.
  - transitivity (let '(n, ch) := map_children promote_node n ch in match n with
      | Node.Region g r [Node.Block inner] => (Node.Region g r inner, true) | _ => (n, ch) end);
      [by destruct n|]. destruct (map_children _ n ch) as [[] ch']; try done. by destruct body as [|[] []].
Qed.
Definition is_block (n : Node) : bool := match n with Node.Block _ => true | _ => false end.
Lemma block_promotes n ch : is_block (fst (promote_node n ch)) = is_block n.
Proof.
  destruct (promote_node n ch) as [n' ch'] eqn:E. destruct (is_block n) eqn:Hn.
  - destruct n; try done. cbn [promote_node map_children] in E. destruct (map_flag _ _ _). by injection E as <- _.
  - destruct n'; try done. apply promote_block in E as [b ->]. done.
Qed.
Lemma replacing_head t f n ch : replacing t = Some f -> target t (fst (map_children f n ch)) = target t n.
Proof.
  intros H. destruct t; try done; injection H as <-; cbn [target]; destruct n; cbn [map_children]; try done;
    repeat match goal with |- context [map_flag ?f ?l ?c] => destruct (map_flag f l c) eqn:? end; try done.
  destruct body as [|x [|y body]]; rewrite ?map_flag_cons in *.
  - cbn in *. by simplify_eq.
  - pose proof (block_promotes x ch). destruct (promote_node x ch) as [a' ch']. cbn in *. simplify_eq. cbn. by destruct x, a'.
  - destruct (promote_node x ch) as [a' ch']. rewrite map_flag_cons in *. destruct (promote_node y ch') as [b' ch''].
    destruct (map_flag promote_node body ch''). simplify_eq.
    by destruct x, a'.
Qed.
Lemma tidying_exact t nodes : exact_list (target t) (tidying_nodes t) nodes.
Proof.
  destruct t; cbn [target tidying_nodes].
  - apply exact_tidy; [apply drop_empty_spec|apply collapse_unfold].
  - apply exact_map, Forall_true. intros n. apply (exact_replace _ (replacement ConstantIfs)); intros; [by apply (replacing_unfold ConstantIfs)|by apply (replacing_head ConstantIfs)].
  - apply exact_map, Forall_true. intros n. apply (exact_replace _ (replacement EmptyLoops)); intros; [by apply (replacing_unfold EmptyLoops)|by apply (replacing_head EmptyLoops)].
  - apply exact_tidy; [apply drop_noop_spec|apply noop_unfold].
  - apply exact_map, Forall_true. intros n. apply (exact_replace _ (replacement SingletonBlocks)); intros; [by apply (replacing_unfold SingletonBlocks)|by apply (replacing_head SingletonBlocks)].
Qed.
Lemma tidying_clean t nodes ch : t <> SingletonBlocks -> existsb (target t) (nodes_of (fst (tidying_nodes t nodes ch))) = false.
Proof.
  intros Ht. destruct t; try done; cbn [target tidying_nodes].
  - apply clean_tidy; [apply drop_empty_spec|apply collapse_unfold].
  - rewrite nodes_of_flat. apply clean_map, Forall_true. intros n ch'. apply (clean_replace _ taken).
    + intros. by apply (replacing_unfold ConstantIfs).
    + intros [| | |cond thn otherwise| | | | | | | | | | | | | | | |] Hn H; try done. destruct cond; try done. revert H. cbn [bodies flat_map taken].
      rewrite existsb_app, app_nil_r. intros [H1 H2]%orb_false_iff. destruct value; rewrite scan_node; cbn [bodies flat_map]; by rewrite app_nil_r.
  - rewrite nodes_of_flat. apply clean_map, Forall_true. intros n ch'. apply (clean_replace _ (replacement EmptyLoops)); [|done].
    intros. by apply (replacing_unfold EmptyLoops).
  - apply clean_tidy; [apply drop_noop_spec|apply noop_unfold].
Qed.

(** *** The scans *)

Lemma any_descendant_scan pred nodes : existsb (fun n => any_descendant n pred) nodes = existsb pred (nodes_of nodes).
Proof.
  induction nodes as [|n nodes IH]; [done|]. rewrite scan_cons. cbn [existsb]. rewrite IH. f_equal.
  apply any_loop_scan. unfold nodes_size, list_sum_nat. cbn. lia.
Qed.
(** The statistics never hide what the scan would find. *)
Lemma gate_scan pred kind p : (forall n, pred n = true -> has_bit (node_kind n) kind = true) ->
  has_any_node_kind (compute_stats p) kind && existsb (fun n => any_descendant n pred) (entry p) = existsb pred (program_nodes p).
Proof.
  intros Hk. rewrite any_descendant_scan, stats_kinds, nodes_of_entry. destruct (existsb pred (program_nodes p)) eqn:E; [|apply andb_false_r].
  rewrite andb_true_r. apply existsb_exists in E as (n & Hn & Hp). apply existsb_exists. by exists n; auto.
Qed.
(** What is found inside every statement found is found. *)
Lemma scan_inner (P Q : Node -> bool) : (forall n, P n = true -> existsb Q (below n) = true) ->
  forall nodes, existsb P (nodes_of nodes) = true -> existsb Q (nodes_of nodes) = true.
Proof.
  intros HPQ. assert (forall n, existsb P (nodes_of [n]) = true -> existsb Q (nodes_of [n]) = true) as Hn.
  { assert (forall n, Forall (Forall (fun n => existsb P (nodes_of [n]) = true -> existsb Q (nodes_of [n]) = true)) (bodies n) ->
      existsb P (nodes_of [n]) = true -> existsb Q (nodes_of [n]) = true) as Hstep.
    { intros n Hb. rewrite !scan_node, !orb_true_iff. intros [H|H]; right; [by apply HPQ|]. revert H. rewrite !existsb_exists.
      intros (x & (body & Hbody & Hx)%in_flat_map & HP). rewrite nodes_of_flat in Hx. apply in_flat_map in Hx as (k & Hk & Hx).
      rewrite Forall_forall in Hb. specialize (Hb body). rewrite list_elem_of_In, Forall_forall in Hb. specialize (Hb Hbody k).
      rewrite list_elem_of_In, !existsb_exists in Hb. destruct (Hb Hk) as (y & Hy & HQ); [by exists x|]. exists y. split; [|done].
      apply in_flat_map. exists body. split; [done|]. rewrite nodes_of_flat. apply in_flat_map. by exists k. }
    induction n using Node_ind'; apply Hstep; cbn [bodies]; auto. }
  intros nodes. rewrite nodes_of_flat, !existsb_exists. intros (x & (k & Hk & Hx)%in_flat_map & HP).
  specialize (Hn k). rewrite !existsb_exists in Hn. destruct Hn as (y & Hy & HQ); [by exists x|]. exists y. split; [|done].
  apply in_flat_map. by exists k.
Qed.
Lemma tidying_gate t p : cleaning_analyze (Tidy t) p = existsb (target t) (program_nodes p).
Proof.
  destruct t; cbn [cleaning_analyze target].
  - apply gate_scan. by intros [].
  - apply gate_scan. by intros [].
  - apply gate_scan. by intros [].
  - apply gate_scan. by intros [].
  - unfold RegionPromoteSingletonBlock_analyze. rewrite <- andb_assoc, (andb_comm (has_any_node_kind _ (node_kind (Node.Block [])))), andb_assoc.
    rewrite gate_scan by (by intros []). destruct (existsb _ (program_nodes p)) eqn:E; [|done]. cbn [andb].
    rewrite <- nodes_of_entry in E. apply (scan_inner is_singleton_block_region is_block) in E.
    + rewrite stats_kinds, <- nodes_of_entry. rewrite <- E. apply existsb_ext_all. by intros [].
    + clear. intros [| | | | | | | | | | | | | | | | | |? ? body|] Hn; try done. destruct body as [|[] []]; done.
Qed.

Lemma adjacent_spec nodes : sequence_has_consecutive_barriers nodes = true <-> adjacent_barriers nodes.
Proof.
  induction nodes as [|n nodes IH].
  { split; [done|]. intros (a & b & l & r & H). by destruct l. }
  rewrite seq_cons, orb_true_iff, IH, andb_true_iff. split.
  - intros [[Hn Hh]|(a & b & l & r & ->)]; [|by exists a, b, (n :: l), r].
    destruct n, nodes as [|[] r]; try done. by exists ordering, ordering0, [], r.
  - intros (a & b & [|n' l] & r & H); injection H as -> ->; [by left|]. right. by exists a, b, l, r.
Qed.
Lemma meets_spec n : has_consecutive_barriers n = existsb (fun n => existsb sequence_has_consecutive_barriers (bodies n)) (nodes_of [n]).
Proof.
  assert (forall l, Forall (fun n => has_consecutive_barriers n = existsb (fun n => existsb seq_bad (bodies n)) (nodes_of [n])) l ->
    existsb has_consecutive_barriers l = existsb (fun n => existsb seq_bad (bodies n)) (nodes_of l)) as Hl.
  { induction 1 as [|x l Hx _ IH]; [done|]. rewrite scan_cons, <- IH, <- Hx. done. }
  induction n using Node_ind'; rewrite scan_node; cbn [has_consecutive_barriers bodies flat_map existsb]; try done;
    rewrite ?app_nil_r, ?existsb_app, ?orb_false_r, !Hl by done; try done. by rewrite !orb_assoc.
Qed.
Lemma meets_list l : existsb has_consecutive_barriers l = existsb (fun n => existsb sequence_has_consecutive_barriers (bodies n)) (nodes_of l).
Proof. induction l as [|n l IH]; [done|]. rewrite scan_cons, <- IH, <- meets_spec. done. Qed.
Lemma barriers_spec p : bad_list (entry p) = true <-> barriers_meet p.
Proof.
  unfold bad_list, barriers_meet. rewrite orb_true_iff, adjacent_spec. f_equiv. rewrite <- nodes_of_entry, existsb_exists. split.
  - intros (n & Hn & H). rewrite meets_spec in H. apply existsb_exists in H as (k & Hk & (b & Hb & H)%existsb_exists).
    exists k, b. rewrite adjacent_spec in H. apply list_elem_of_In in Hb. split_and!; [|done..]. apply list_elem_of_In.
    rewrite nodes_of_flat. apply in_flat_map. by exists n.
  - intros (k & b & Hk & Hb & H). rewrite nodes_of_flat in Hk. apply list_elem_of_In, in_flat_map in Hk as (n & Hn & Hk).
    exists n. split; [done|]. rewrite meets_spec. apply existsb_exists. exists k. split; [done|]. apply existsb_exists. exists b.
    by rewrite adjacent_spec, <- list_elem_of_In.
Qed.

(** *** Repeated runs *)

Definition found (pred : Node -> bool) (nodes : list Node) : nat := if existsb pred (nodes_of nodes) then 1 else 0.
Lemma found_cons pred n l : (found pred (n :: l) <= found pred [n] + found pred l)%nat.
Proof. unfold found. rewrite scan_cons. destruct (existsb pred (nodes_of [n])), (existsb pred (nodes_of l)); cbn; lia. Qed.
Definition shrinks (n : Node) : Prop := forall ch,
  (length (nodes_of [fst (promote_node n ch)]) + found is_singleton_block_region [n] <= length (nodes_of [n]))%nat.
Lemma list_shrinks l : Forall shrinks l -> forall ch,
  (length (nodes_of (fst (map_flag promote_node l ch))) + found is_singleton_block_region l <= length (nodes_of l))%nat.
Proof.
  induction 1 as [|n l Hn _ IH]; intros ch; [cbn; lia|]. rewrite map_flag_cons. specialize (Hn ch). destruct (promote_node n ch) as [n' ch1].
  specialize (IH ch1). destruct (map_flag promote_node l ch1) as [l' ch2]. cbn [fst] in *. rewrite (nodes_of_cons n' l'), (nodes_of_cons n l), !length_app.
  pose proof (found_cons is_singleton_block_region n l). lia.
Qed.
Lemma children_shrink n : Forall (Forall shrinks) (bodies n) -> forall ch,
  (length (nodes_of [fst (map_children promote_node n ch)])
   + (if existsb is_singleton_block_region (below n) then 1 else 0) <= length (nodes_of [n]))%nat.
Proof.
  intros H ch. destruct n; cbn [bodies] in H; try (cbn [map_children fst bodies flat_map existsb]; lia); cbn [map_children];
    inversion H as [|? ? B H2]; subst; pose proof (list_shrinks _ B ch) as L;
    match type of L with context [map_flag promote_node ?l ?c] => destruct (map_flag promote_node l c) as [b' ch1] end;
    try (inversion H2 as [|? ? B2 _]; subst; pose proof (list_shrinks _ B2 ch1) as L2;
         match type of L2 with context [map_flag promote_node ?l ?c] => destruct (map_flag promote_node l c) as [b2' ch2] end);
    cbn [fst] in *; rewrite !nodes_of_node; cbn [bodies flat_map length]; rewrite ?app_nil_r, ?existsb_app, ?length_app; unfold found in *.
  - destruct (existsb _ (nodes_of thn)), (existsb _ (nodes_of otherwise)); cbn [orb] in *; lia.
  - lia.
  - lia.
  - lia.
Qed.
Lemma promote_shrinks n : shrinks n.
Proof.
  assert (forall n, Forall (Forall shrinks) (bodies n) -> shrinks n) as Hstep.
  { intros k Hb ch. pose proof (children_shrink k Hb ch) as Hc. pose proof (replacing_head SingletonBlocks _ k ch eq_refl) as Hh. cbn [target] in Hh.
    rewrite (replacing_unfold SingletonBlocks) by done. unfold found. rewrite scan_node. destruct (map_children promote_node k ch) as [k' ch'].
    cbn [fst] in *. cbn [target replacement]. rewrite Hh. destruct (is_singleton_block_region k) eqn:Hk; [|exact Hc].
    destruct k' as [| | | | | | | | | | | | | | | | | |? ? body|]; try done. destruct body as [|[] []]; try done. cbn [fst promoted orb].
    revert Hc. rewrite !(nodes_of_node (Node.Region _ _ _)). cbn [bodies flat_map]. rewrite !app_nil_r, nodes_of_node. cbn [bodies flat_map length].
    rewrite app_nil_r. lia. }
  induction n using Node_ind'; apply Hstep; cbn [bodies]; auto.
Qed.

(** *** Runs of barriers *)

(** What an ordering gives: acquire, release, one total order, and reach over the grid. *)
Definition guarantees (o : MemoryOrdering) : list bool :=
  match o with
  | MemoryOrdering.Relaxed => [false; false; false; false]
  | MemoryOrdering.Acquire => [true; false; false; false]
  | MemoryOrdering.Release => [false; true; false; false]
  | MemoryOrdering.AcqRel => [true; true; false; false]
  | MemoryOrdering.SeqCst => [true; true; true; false]
  | MemoryOrdering.GridSync => [true; true; true; true]
  end.
Lemma join_assoc a b c : join_ordering a (join_ordering b c) = join_ordering (join_ordering a b) c.
Proof. by destruct a, b, c. Qed.

(** From the right, a barrier absorbs the one after it. *)
Definition fence (n : Node) (rest : list Node) : list Node :=
  match n, rest with
  | Node.Barrier a, Node.Barrier b :: rest => Node.Barrier (join_ordering a b) :: rest
  | _, _ => n :: rest
  end.
Definition fences : list Node -> list Node := foldr fence [].
Fixpoint joined (n : Node) : Node :=
  match n with
  | Node.If c t o => Node.If c (fences (map joined t)) (fences (map joined o))
  | Node.Loop x a b l => Node.Loop x a b (fences (map joined l))
  | Node.Block l => Node.Block (fences (map joined l))
  | Node.Region g r l => Node.Region g r (fences (map joined l))
  | _ => n
  end.
Definition joins (n : Node) : Prop := forall ch, fst (coalesce_node n ch) = joined n.
(** The list so far, last first, in front of what is still to come. *)
Definition glue (out rest : list Node) : list Node := match out with [] => rest | n :: out => rev out ++ fence n rest end.
Lemma glue_push out n ch rest : glue (fst (push_coalesced out n ch)) rest = glue out (fence n rest).
Proof.
  destruct out as [|y out]; [by destruct n|]. assert (is_barrier y && is_barrier n = false -> fence y (fence n rest) = y :: fence n rest) as Hplain.
  { destruct y; try done. destruct n; try done. }
  destruct (is_barrier y && is_barrier n) eqn:E.
  - destruct y; try done. destruct n; try done. cbn [push_coalesced fst glue]. f_equal. destruct rest as [|[] rest]; try done.
    cbn [fence]. by rewrite join_assoc.
  - cbn [glue]. rewrite Hplain by done. assert (push_coalesced (y :: out) n ch = (n :: y :: out, ch)) as -> by (destruct y; try done; by destruct n).
    cbn [fst glue rev]. by rewrite <- app_assoc.
Qed.
Lemma glue_nil out : glue out [] = rev out.
Proof. destruct out as [|n out]; [done|]. by destruct n. Qed.
Lemma joins_list l : Forall joins l -> forall ch, fst (coalesce_nodes l ch) = fences (map joined l).
Proof.
  intros H ch. unfold coalesce_nodes, coalesce_with. fold (push_fold coalesce_node).
  assert (forall out ch, glue (fst (foldl (push_fold coalesce_node) (out, ch) l)) [] = glue out (fences (map joined l))) as Hfold.
  { clear ch. induction H as [|n l Hn _ IH]; intros out ch; [done|]. cbn [foldl push_fold map fences foldr]. specialize (Hn ch).
    destruct (coalesce_node n ch) as [n' ch1]. cbn [fst] in Hn. subst n'. destruct (push_coalesced out (joined n) ch1) as [out1 ch2] eqn:E.
    rewrite IH. change out1 with (fst (out1, ch2)). rewrite <- E. apply glue_push. }
  specialize (Hfold [] ch). rewrite glue_nil in Hfold. by destruct (foldl _ _ _).
Qed.
Lemma joins_all n : joins n.
Proof.
  induction n using Node_ind'; intros ch; try done; cbn [coalesce_node map_body joined];
    match goal with H : Forall _ ?l |- _ => pose proof (joins_list l H ch) as E end.
  - destruct (coalesce_with _ t ch) as [t' ch1] eqn:Et. pose proof (joins_list _ H ch) as E1. pose proof (joins_list _ H0 ch1) as E2.
    unfold coalesce_nodes in *. rewrite Et in E1. destruct (coalesce_with _ o ch1). cbn [fst] in *. congruence.
  - unfold coalesce_nodes in E. destruct (coalesce_with _ _ ch). cbn [fst] in *. congruence.
  - unfold coalesce_nodes in E. destruct (coalesce_with _ _ ch). cbn [fst] in *. congruence.
  - unfold coalesce_nodes in E. destruct (coalesce_with _ _ ch). cbn [fst] in *. congruence.
Qed.

Lemma tidying_flag t p : snd (tidying_transform t p) = cleaning_analyze (Tidy t) p
  /\ (cleaning_analyze (Tidy t) p = false -> fst (tidying_transform t p) = p).
Proof.
  rewrite tidying_entry, tidying_gate, <- nodes_of_entry. destruct (tidying_exact t (entry p)) as [H1 H2]. specialize (H1 false). specialize (H2 false).
  unfold map_entry_flag. destruct (tidying_nodes t (entry p) false) as [nodes ch]. cbn [fst snd] in *. split; [done|]. intros H. rewrite H2 by done. by destruct p.
Qed.
Lemma adjacent_found l : sequence_has_consecutive_barriers l = true -> existsb is_barrier (nodes_of l) = true.
Proof. intros (a & b & k & r & ->)%adjacent_spec. rewrite scan_list, existsb_app. cbn. by rewrite orb_true_r. Qed.
Lemma barrier_gate p : BarrierCoalesce_analyze p = bad_list (entry p).
Proof.
  unfold BarrierCoalesce_analyze. fold (bad_list (entry p)). destruct (bad_list (entry p)) eqn:E; [|apply andb_false_r]. rewrite andb_true_r, stats_kinds, <- nodes_of_entry.
  assert (existsb is_barrier (nodes_of (entry p)) = true) as <-; [|apply existsb_ext_all; by intros []].
  unfold bad_list in E. apply orb_true_iff in E as [E|E]; [by apply adjacent_found|]. rewrite meets_list in E. revert E. apply scan_inner.
  intros n (b & Hb & H)%existsb_exists. apply adjacent_found, existsb_exists in H as (k & Hk & H). apply existsb_exists. exists k. split; [|done].
  apply in_flat_map. by exists b.
Qed.
Lemma barrier_flag p : snd (BarrierCoalesce_transform p) = bad_list (entry p)
  /\ (bad_list (entry p) = false -> fst (BarrierCoalesce_transform p) = p) /\ bad_list (entry (fst (BarrierCoalesce_transform p))) = false.
Proof.
  unfold BarrierCoalesce_transform, map_entry_flag, coalesce_nodes. destruct (coalesce_list (entry p) (Forall_true _ _ coalesce_all) false) as (l & ch & -> & -> & H1 & H2).
  cbn. split_and!; [done| |done]. intros H. rewrite H1 by done. by destruct p.
Qed.

Lemma tidied_clean t p : t <> SingletonBlocks -> cleaning_analyze (Tidy t) (fst (tidying_transform t p)) = false.
Proof.
  intros Ht. pose proof (tidying_clean t (entry p) false Ht) as H. rewrite tidying_gate, <- nodes_of_entry, tidying_entry. unfold map_entry_flag.
  by destruct (tidying_nodes t (entry p) false).
Qed.
Lemma promoted_shrinks p : RegionPromoteSingletonBlock_analyze p = true ->
  (length (program_nodes (fst (RegionPromoteSingletonBlock_transform p))) < length (program_nodes p))%nat.
Proof.
  rewrite (tidying_gate SingletonBlocks), <- !nodes_of_entry. cbn [target]. intros H.
  pose proof (list_shrinks (entry p) (Forall_true _ _ promote_shrinks) false) as L. unfold found in L. rewrite H in L.
  unfold RegionPromoteSingletonBlock_transform, map_entry_flag. destruct (map_flag promote_node (entry p) false). cbn in *. lia.
Qed.

Module Tidied.
Import Validated Gaps Elimination.

(** C11: the cleanup passes preserve behaviour: run the passes that drop empty blocks, take
    literal branches, delete loops with empty literal bounds, drop self-assignments and
    unwrap blocks inside regions, in any order and as often as wanted, on a program
    without subgroup operations (with them the number of steps a lane takes shows).
    Buffers and workgroup shape stay as they are, no subgroup operation appears, and for
    every order in which the invocations can take their steps the cleaned program has an
    order that leaves the same memory, with the same invocations finished and waiting at
    barriers; whatever the round-robin scheduler computes, the cleaned program can compute
    with everybody finished.  No other condition on the statements is needed. *)
Theorem cleanup_simulates fe dialect ts p wg m invs (q := tidy_run ts p)
    (Hsub : rc_subgroup_ops (scan p) = false)
    (Hinvs : create_invocations p wg (entry p) = Ok invs) :
  buffers q = buffers p /\ workgroup_size q = workgroup_size p /\ rc_subgroup_ops (scan q) = false
  /\ exists invs', create_invocations q wg (entry q) = Ok invs' /\ length invs' = length invs
  /\ (forall invs1 m1, rtc (lane_step fe dialect) (invs, m) (invs1, m1) -> exists invs1',
        rtc (lane_step fe dialect) (invs', m) (invs1', m1)
        /\ Forall2 (fun i i' => done i = done i' /\ hi_waiting i = hi_waiting i') invs1 invs1')
  /\ (forall fuel invs1 m1, run_loop fe dialect (rc_subgroup_ops (scan p)) fuel invs m = Ok (invs1, m1) -> exists invs1',
        rtc (lane_step fe dialect) (invs', m) (invs1', m1) /\ Forall (fun i => done i = true) invs1').
Proof.
  destruct (tidy_run_simulated fe dialect ts p) as (Hb & Hw & Hsim & Hq). fold q in Hb, Hw, Hsim, Hq. rewrite Hsub.
  split_and!; [done|done|by apply Hq|].
  by apply (simulated_workgroup fe dialect ∅ p q wg m invs); [..|apply unconstrained|].
Qed.

(** C28: gates and flags of the cleanup passes: each of the six passes reports a change
    exactly when its gate opens, and the gate opens exactly when the program contains what
    the pass looks for, at any depth; with a closed gate the pass is the identity.  After
    one run the gate of every pass but the unwrapping of blocks is closed; that one loses
    a statement with every run that changes something, so repeating it closes its gate. *)
Theorem cleanup_gates c p (q := fst (cleaning_transform c p)) :
  (cleaning_analyze c p = true <-> work c p) /\ snd (cleaning_transform c p) = cleaning_analyze c p
  /\ (cleaning_analyze c p = false -> q = p)
  /\ (cleaning_analyze c q = false
      \/ c = Tidy SingletonBlocks /\ (length (program_nodes q) < length (program_nodes p))%nat).
Proof.
  destruct c as [t|]; cbn [cleaning_transform work] in *.
  - destruct (tidying_flag t p) as [H1 H2]. split_and!; [|done|done|].
    + rewrite tidying_gate, existsb_exists. by setoid_rewrite list_elem_of_In.
    + destruct (cleaning_analyze (Tidy t) p) eqn:E; [|by left; unfold q; rewrite H2].
      destruct (decide (t = SingletonBlocks)) as [->|Ht]; [right; split; [done|]|left].
      * by apply promoted_shrinks.
      * by apply tidied_clean.
  - destruct (barrier_flag p) as (H1 & H2 & H3). cbn [cleaning_analyze]. rewrite !barrier_gate. split_and!; [apply barriers_spec|done|done|by left].
Qed.

(** C29: barrier coalescing merges each run of barriers, in every list of statements, into
    one barrier that gives exactly what the members of the run give together (acquire,
    release, a total order, reach over the grid), and changes nothing else; merging from
    the left, as the pass does, and from the right come to the same. *)
Theorem barriers_joined p :
  entry (fst (BarrierCoalesce_transform p)) = fences (map joined (entry p))
  /\ (forall a b, guarantees (join_ordering a b) = zip_with orb (guarantees a) (guarantees b))
  /\ (forall a b, guarantees a = guarantees b -> a = b).
Proof.
  split_and!; [|by intros [] []..]. pose proof (joins_list (entry p) (Forall_true _ _ joins_all) false) as H.
  unfold BarrierCoalesce_transform, map_entry_flag. by destruct (coalesce_nodes (entry p) false).
Qed.

(** *** Concrete programs *)

(** Something for every pass: the literal branch leaves an empty block in a region. *)
Definition cluttered : Program := kernel
  [Node.Region "g" None [Node.Block
     [Node.If (Expr.LitBool false) [out_is (lit 7)] []; Node.Let "x" (lit 5); Node.Assign "x" x;
      Node.Loop "i" (lit 3) (lit 1) [out_is (Expr.Var "i")]; out_is (add1 x)]];
   Node.Barrier MemoryOrdering.Acquire; Node.Barrier MemoryOrdering.Release;
   Node.If (Expr.BinOp BinOp.Eq (Expr.LocalId 0) (lit 1)) [Node.Store "out" (lit 0) (lit 9)] []].
Definition all_passes : list Tidying := [ConstantIfs; EmptyLoops; NoopAssigns; EmptyBlocks; SingletonBlocks].
Definition tidy : list Node := entry (kernel
  [Node.Region "g" None [Node.Let "x" (lit 5); out_is (add1 x)];
   Node.Barrier MemoryOrdering.Acquire; Node.Barrier MemoryOrdering.Release;
   Node.If (Expr.BinOp BinOp.Eq (Expr.LocalId 0) (lit 1)) [Node.Store "out" (lit 0) (lit 9)] []]).
Lemma cleanup_simulates_witness : entry (tidy_run all_passes cluttered) = tidy /\ exists invs' invs1' m1,
  create_invocations (tidy_run all_passes cluttered) (0, 0, 0) tidy = Ok invs'
  /\ rtc (lane_step TypedOps.zero_env None) (invs', zero_memory) (invs1', m1)
  /\ Forall (fun i => done i = true) invs1'
  /\ hm_storage m1 !! "out" = Some (Workgroup.words [9; 6; 0; 0; 0]).
Proof.
  split; [vm_compute; reflexivity|].
  destruct (create_invocations cluttered (0, 0, 0) (entry cluttered)) as [invs|] eqn:Hinvs; [|exfalso; vm_compute in Hinvs; discriminate].
  assert (rc_subgroup_ops (scan cluttered) = false) as Hsub by (vm_compute; reflexivity).
  destruct (cleanup_simulates TypedOps.zero_env None all_passes cluttered (0, 0, 0) zero_memory invs Hsub Hinvs) as (_ & _ & _ & invs' & Hinvs' & _ & _ & Hsim).
  rewrite Hsub in Hsim. assert (exists invs1 m1, run_loop TypedOps.zero_env None false 60 invs zero_memory = Ok (invs1, m1)
    /\ hm_storage m1 !! "out" = Some (Workgroup.words [9; 6; 0; 0; 0])) as (invs1 & m1 & Hrun & Hout).
  { vm_compute in Hinvs. injection Hinvs as <-. eexists _, _. split; [vm_compute; reflexivity|]. vm_compute. reflexivity. }
  destruct (Hsim _ _ _ Hrun) as (invs1' & Hrun' & Hdone). by exists invs', invs1', m1.
Defined.

Lemma cleanup_gates_witness : cleaning_analyze Barriers cluttered = true
  /\ cleaning_analyze Barriers (fst (cleaning_transform Barriers cluttered)) = false.
Proof. split; [vm_compute; reflexivity|]. destruct (cleanup_gates Barriers cluttered) as (_ & _ & _ & [H|[H _]]); [exact H|discriminate H]. Defined.

(** Lane 0 assigns [x] to itself, one step more than lane 1 takes. *)
Definition uneven : Program := kernel
  [Node.Let "x" (lit 1);
   Node.If (Expr.BinOp BinOp.Eq (Expr.LocalId 0) (lit 0)) [Node.Assign "x" x] [];
   Node.Assign "x" (lit 3);
   Node.Store "out" (Expr.InvocationId 0) (Expr.SubgroupAdd x)].
(** The condition on subgroup operations is needed: a collective reads the other lanes
    where they are at the start of the round, so a dropped self-assignment shows. *)
Theorem subgroup_steps_show : validation_errors None uneven = []
  /\ run_kernel uneven = Gaps.words [6; 4; 6; 4; 6]
  /\ run_kernel (fst (NoopAssignEliminate_transform uneven)) = Gaps.words [6; 6; 6; 6; 6].
Proof. split_and!; vm_compute; reflexivity. Qed.

(** Two blocks inside a region take two runs. *)
Definition layered : Program := kernel [Node.Region "g" None [Node.Block [Node.Block [out_is (lit 7)]]]].
Theorem one_layer_per_run : let once := fst (RegionPromoteSingletonBlock_transform layered) in
  entry once = entry (kernel [Node.Region "g" None [Node.Block [out_is (lit 7)]]]) /\ RegionPromoteSingletonBlock_analyze once = true
  /\ RegionPromoteSingletonBlock_analyze (fst (RegionPromoteSingletonBlock_transform once)) = false.
Proof. split_and!; vm_compute; reflexivity. Qed.
(** A branch that was taken stays a block: the pass that drops empty blocks keeps it. *)
Definition branch : Program := kernel [Node.If (Expr.LitBool true) [out_is (lit 7)] []].
Theorem taken_branch_stays_wrapped :
  entry (tidy_run [ConstantIfs; EmptyBlocks] branch) = entry (kernel [Node.Block [out_is (lit 7)]]).
Proof. vm_compute; reflexivity. Qed.
(** Gates look into regions. *)
Definition fenced : Program := kernel
  [Node.Region "g" None [Node.Barrier MemoryOrdering.Acquire; Node.Barrier MemoryOrdering.Release]].
Theorem barriers_in_regions : BarrierCoalesce_analyze fenced = true
  /\ entry (fst (BarrierCoalesce_transform fenced)) = entry (kernel [Node.Region "g" None [Node.Barrier MemoryOrdering.AcqRel]]).
Proof. split; vm_compute; reflexivity. Qed.
End Tidied.
