(* ===== verification/Canonical.v ===== *)
(** Canonicalisation (vyre-foundation/src/optimizer/passes/algebraic/canonicalize_engine.rs,
    canonicalize.rs).

    The pass brings the operands of commutative operators into one order and folds the
    comparison of a variable with itself.  The hash an identifier caches comes from a hash
    function outside the repository and is an argument, [hash].  The second part shows that
    the result is a normal form: canonicalising again changes nothing, and both spellings
    of an operation have the same one. *)

From S2P Require Import Prelude Float Spec IR ProgramStats Collectives Rewrite ConstFold.

(** ** The pass *)

Section Engine.
(** [Ident::cached_hash]. *)
Context (hash : string -> Z).

Definition is_commutative_binop (op : BinOp) : bool :=
  match op with
  | BinOp.Add | BinOp.Mul | BinOp.BitAnd | BinOp.BitOr | BinOp.BitXor | BinOp.Eq | BinOp.Ne | BinOp.And | BinOp.Or => true
  | _ => false
  end.
Definition is_safe_to_sort_nonliterals (op : BinOp) : bool :=
  match op with
  | BinOp.BitAnd | BinOp.BitOr | BinOp.BitXor | BinOp.Eq | BinOp.Ne | BinOp.And | BinOp.Or => true
  | _ => false
  end.
Definition is_literal (e : Expr) : bool :=
  match e with Expr.LitU32 _ | Expr.LitI32 _ | Expr.LitF32 _ | Expr.LitBool _ => true | _ => false end.

(** Literals of all types are ordered by their 32 bits. *)
Definition expr_sort_key (e : Expr) : Z :=
  match e with
  | Expr.LitU32 v => v
  | Expr.LitI32 v => v mod 2 ^ 32
  | Expr.LitF32 v => v
  | Expr.LitBool v => if v then 1 else 0
  | Expr.Var name => Z.land (hash name) 0xFFFFFFFF
  | Expr.Load buffer _ => Z.lor 0x100000000 (hash buffer)
  | Expr.BufLen buffer => Z.lor 0x200000000 (hash buffer)
  | Expr.InvocationId axis => Z.lor 0x300000000 axis
  | Expr.WorkgroupId axis => Z.lor 0x400000000 axis
  | Expr.LocalId axis => Z.lor 0x500000000 axis
  | Expr.BinOp _ _ _ => 0x600000000
  | Expr.UnOp _ _ => 0x700000000
  | Expr.Call _ _ => 0x800000000
  | Expr.Fma _ _ _ => 0x900000000
  | Expr.Select _ _ _ => 0xa00000000
  | Expr.Cast _ _ => 0xb00000000
  | Expr.Atomic _ _ _ _ _ _ => 0xc00000000
  | Expr.SubgroupBallot _ => 0xd00000000
  | Expr.SubgroupShuffle _ _ => 0xe00000000
  | Expr.SubgroupAdd _ => 0xf00000000
  | Expr.SubgroupLocalId | Expr.SubgroupSize => 0x2000000000
  | Expr.Opaque _ => 0x1000000000
  end.

Definition should_swap (op : BinOp) (l r : Expr) : bool :=
  is_commutative_binop op
  && match is_literal l, is_literal r with
     | true, false => true
     | false, true => false
     | _, _ => is_safe_to_sort_nonliterals op && (expr_sort_key r <? expr_sort_key l)
     end.
(** The end of the case of a binary operator, after its operands. *)
Definition canonical_binop (op : BinOp) (l r : Expr) : Expr :=
  let '(l, r) := if should_swap op l r then (r, l) else (l, r) in
  match l, r, op with
  | Expr.Var l_name, Expr.Var r_name, BinOp.Eq => if decide (l_name = r_name) then Expr.LitBool true else Expr.BinOp op l r
  | Expr.Var l_name, Expr.Var r_name, BinOp.Ne => if decide (l_name = r_name) then Expr.LitBool false else Expr.BinOp op l r
  | _, _, _ => Expr.BinOp op l r
  end.
Fixpoint canonicalize_expr (e : Expr) : Expr :=
  match e with
  | Expr.BinOp op l r => canonical_binop op (canonicalize_expr l) (canonicalize_expr r)
  | Expr.UnOp op operand => Expr.UnOp op (canonicalize_expr operand)
  | Expr.Select cond true_val false_val =>
      Expr.Select (canonicalize_expr cond) (canonicalize_expr true_val) (canonicalize_expr false_val)
  | Expr.Fma a b c => Expr.Fma (canonicalize_expr a) (canonicalize_expr b) (canonicalize_expr c)
  | Expr.Cast target value => Expr.Cast target (canonicalize_expr value)
  | Expr.Load buffer index => Expr.Load buffer (canonicalize_expr index)
  | Expr.Atomic op buffer index expected value ordering =>
      Expr.Atomic op buffer (canonicalize_expr index)
        (match expected with Some e => Some (canonicalize_expr e) | None => None end)
        (canonicalize_expr value) ordering
  | _ => e
  end.
Fixpoint canonicalize_node (n : Node) : Node :=
  match n with
  | Node.Let name value => Node.Let name (canonicalize_expr value)
  | Node.Assign name value => Node.Assign name (canonicalize_expr value)
  | Node.Store buffer index value => Node.Store buffer (canonicalize_expr index) (canonicalize_expr value)
  | Node.If cond then_ otherwise =>
      Node.If (canonicalize_expr cond) (map canonicalize_node then_) (map canonicalize_node otherwise)
  | Node.Loop var from to body =>
      Node.Loop var (canonicalize_expr from) (canonicalize_expr to) (map canonicalize_node body)
  | Node.Block children => Node.Block (map canonicalize_node children)
  | Node.Region generator source_region body => Node.Region generator source_region (map canonicalize_node body)
  | _ => n
  end.
Definition canonicalize_nodes (nodes : list Node) : list Node := map canonicalize_node nodes.
(** [run] and [run_borrowed]: the second copies the statements first. *)
Definition canonicalize (p : Program) : Program :=
  mkProgram (entry_op_id p) (buffers p) (workgroup_size p) (canonicalize_nodes (entry p)) (non_composable_with_self p).
Definition canonicalize_borrowed (p : Program) : Program := with_rewritten_entry p (canonicalize_nodes (entry p)).
End Engine.
Definition Canonicalize_analyze (p : Program) : bool :=
  has_any_node_kind (compute_stats p) NODE_KIND_EXPRESSION_BEARING_MASK.

(** ** The normal form *)

Section Normal.
Context (hash : string -> Z).
Abbreviation canon := (canonicalize_expr hash).
Abbreviation binop := (canonical_binop hash).

(** The comparison rule 3 folds. *)
Definition folds (op : BinOp) (l r : Expr) : option bool :=
  match l, r, op with
  | Expr.Var x, Expr.Var y, BinOp.Eq => if decide (x = y) then Some true else None
  | Expr.Var x, Expr.Var y, BinOp.Ne => if decide (x = y) then Some false else None
  | _, _, _ => None
  end.
Lemma folds_comm op l r : folds op l r = folds op r l.
Proof. destruct l; try (by destruct r); destruct r; try done; cbn [folds]. destruct op; try done; repeat case_decide; by subst. Qed.
Lemma binop_cases op l r : binop op l r = match folds op l r with
  | Some b => Expr.LitBool b
  | None => if should_swap hash op l r then Expr.BinOp op r l else Expr.BinOp op l r
  end.
Proof.
  unfold canonical_binop. destruct (should_swap hash op l r); [rewrite folds_comm|]; destruct l; try done; destruct r; try done; cbn [folds]; destruct op; try done; by case_decide.
Qed.
Lemma swapped_stays op l r : should_swap hash op l r = true -> should_swap hash op r l = false.
Proof.
  unfold should_swap. destruct (is_commutative_binop op), (is_literal l), (is_literal r), (is_safe_to_sort_nonliterals op); cbn; try done;
    rewrite Z.ltb_lt, Z.ltb_ge; lia.
Qed.
Definition stable (e : Expr) : Prop := canon (canon e) = canon e.
Lemma binop_stable op l r : canon l = l -> canon r = r -> canon (binop op l r) = binop op l r.
Proof.
  intros Hl Hr. rewrite binop_cases. destruct (folds op l r) as [b|] eqn:Hf; [done|]. destruct (should_swap hash op l r) eqn:Hs; cbn [canonicalize_expr].
  - rewrite Hl, Hr, binop_cases, folds_comm, Hf, swapped_stays by done. done.
  - rewrite Hl, Hr, binop_cases, Hf, Hs. done.
Qed.
Lemma expr_stable e : stable e.
Proof.
  unfold stable. induction e using Expr_ind'; cbn [canonicalize_expr]; try congruence; [by apply binop_stable|].
  destruct e2; cbn [Forall_opt] in *; congruence.
Qed.
Lemma node_stable n : canonicalize_node hash (canonicalize_node hash n) = canonicalize_node hash n.
Proof.
  induction n using Node_ind'; cbn [canonicalize_node]; rewrite ?expr_stable; try done; f_equal; rewrite map_map; by apply map_ext_Forall.
Qed.

(** The operands in either order. *)
Definition ordered (op : BinOp) (l r : Expr) : Prop :=
  is_literal l <> is_literal r \/ is_safe_to_sort_nonliterals op = true /\ expr_sort_key hash l <> expr_sort_key hash r.
Lemma either_order op l r : is_commutative_binop op = true -> ordered op l r -> binop op l r = binop op r l.
Proof.
  intros Hc Ho. assert (should_swap hash op r l = negb (should_swap hash op l r)) as Hs.
  { unfold should_swap. rewrite Hc. destruct Ho as [Ho|[-> Ho]]; destruct (is_literal l), (is_literal r); cbn; try done;
      apply eq_true_iff_eq; rewrite negb_true_iff, Z.ltb_lt, Z.ltb_ge; lia. }
  rewrite !binop_cases, Hs, (folds_comm op r l). destruct (folds op l r); [done|]. by destruct (should_swap hash op l r).
Qed.

(** A program without expressions in sight. *)
Definition still (n : Node) : Prop := existsb (fun n => has_bit (node_kind n) NODE_KIND_EXPRESSION_BEARING_MASK) (nodes_of [n]) = false ->
  canonicalize_node hash n = n.
Lemma still_list l : Forall still l -> existsb (fun n => has_bit (node_kind n) NODE_KIND_EXPRESSION_BEARING_MASK) (nodes_of l) = false ->
  map (canonicalize_node hash) l = l.
Proof.
  induction 1 as [|n l Hn _ IH]; [done|]. rewrite nodes_of_cons, existsb_app. intros [H1 H2]%orb_false_iff. cbn [map]. by rewrite Hn, IH.
Qed.
Lemma node_still n : still n.
Proof.
  induction n using Node_ind'; intros E; try done; cbn [canonicalize_node]; f_equal; apply still_list; try done;
    rewrite nodes_of_node in E; cbn [bodies flat_map existsb] in E; rewrite app_nil_r in E; apply orb_false_iff in E as [_ E]; exact E.
Qed.
End Normal.
