(* ===== verification/ExprMap.v ===== *)
(** Rewriting the expressions of a program one by one.

    A pass that replaces every expression by one with the same value, and leaves the
    statements as they are, does not change what a dispatch returns.  What a pass has to
    promise is the class [ExprPass]; the invocations of source and target differ in their
    pending statements only ([mapped]), also when lanes read each other in subgroup
    operations. *)

From S2P Require Import Prelude Float Spec IR ProgramStats RefValue RefMemory RefEval StrengthReduce Rewrite Collectives ProgramFacts ValidateExpr Validate.
From S2P Require Import RefHash RefSched RefSchedSound RefWorkgroup RefDispatch RefDispatchSound ScopingSound.
From S2P Require Import DeadCode DeadCodeSim DeadCodeSound Cse CseKeys CseSound CseLockstep CseCorrect.

(** ** What a pass promises *)

Class ExprPass (fe : FloatEnv) (dialect : option (string -> option OpDef)) (f : Expr -> Expr) (ok : Expr -> bool) : Prop := {
  pass_value snapshots e lane : ok e = true ->
    implies (eval_expr fe dialect snapshots e lane) (eval_expr fe dialect snapshots (f e) lane);
  pass_atomic e : ok e = true -> any is_atomic (f e) = any is_atomic e;
  pass_subgroup e : ok e = true -> any is_subgroup_expr (f e) = any is_subgroup_expr e;
}.

Section MapExprs.
Context (f : Expr -> Expr) (ok : Expr -> bool).
Fixpoint map_exprs (n : Node) : Node :=
  match n with
  | Node.Let x e => Node.Let x (f e)
  | Node.Assign x e => Node.Assign x (f e)
  | Node.Store b i e => Node.Store b (f i) (f e)
  | Node.If c t o => Node.If (f c) (map map_exprs t) (map map_exprs o)
  | Node.Loop x a b l => Node.Loop x (f a) (f b) (map map_exprs l)
  | Node.Block l => Node.Block (map map_exprs l)
  | Node.Region g r l => Node.Region g r (map map_exprs l)
  | _ => n
  end.
Fixpoint exprs_ok (n : Node) : bool :=
  match n with
  | Node.Let _ e | Node.Assign _ e => ok e
  | Node.Store _ i e => ok i && ok e
  | Node.If c t o => ok c && forallb exprs_ok t && forallb exprs_ok o
  | Node.Loop _ a b l => ok a && ok b && forallb exprs_ok l
  | Node.Block l | Node.Region _ _ l => forallb exprs_ok l
  | _ => true
  end.
Definition map_program (p : Program) : Program := with_rewritten_entry p (map map_exprs (entry p)).

Definition map_frame (fr : NodeFrame) : NodeFrame :=
  match fr with
  | FrNodes path ns k scoped => FrNodes path (map map_exprs ns) k scoped
  | FrLoop path x a b l => FrLoop path x a b (map map_exprs l)
  end.
Definition frame_fine (fr : NodeFrame) : Prop :=
  match fr with FrNodes _ ns _ _ => forallb exprs_ok ns = true | FrLoop _ _ _ _ l => forallb exprs_ok l = true end.
Definition mapped (i : HashmapInvocation) : HashmapInvocation := with_frames i (map map_frame (hi_frames i)).
Definition fine (i : HashmapInvocation) : Prop := Forall frame_fine (hi_frames i).

Lemma map_barrier n : node_contains_barrier (map_exprs n) = node_contains_barrier n.
Proof.
  assert (forall l, Forall (fun n => node_contains_barrier (map_exprs n) = node_contains_barrier n) l ->
    existsb node_contains_barrier (map map_exprs l) = existsb node_contains_barrier l) as Hl.
  { induction 1 as [|x l Hx _ IH]; [done|]. cbn [map existsb]. by rewrite Hx, IH. }
  induction n using Node_ind'; cbn [map_exprs node_contains_barrier]; rewrite ?Hl by done; done.
Qed.
Lemma map_barriers l : contains_barrier (map map_exprs l) = contains_barrier l.
Proof. unfold contains_barrier. induction l as [|n l IH]; [done|]. cbn [map existsb]. by rewrite map_barrier, IH. Qed.
Lemma mapped_done i : done (mapped i) = done i.
Proof. unfold done. cbn. by destruct (hi_frames i). Qed.

(** ** Computations that end alike *)

Definition ends_as {A} (g : A -> A) (P : A -> Prop) (x y : HM A) : Prop :=
  forall m a m1, x m = Ok (a, m1) -> y m = Ok (g a, m1) /\ P a.
Lemma ends_as_bind {A B} gA PA gB PB (x y : HM A) (k h : A -> HM B) : ends_as gA PA x y ->
  (forall a, PA a -> ends_as gB PB (k a) (h (gA a))) -> ends_as gB PB (x ≫= k) (y ≫= h).
Proof.
  intros Hx Hk m b m1 (a & m2 & Ex & E)%hbind_Ok. apply Hx in Ex as [Ey Ha]. unfold mbind, HM_bind. rewrite Ey. by apply Hk.
Qed.
Lemma ends_as_same {A B} g P (x y : HM A) (k h : A -> HM B) : implies x y -> (forall a, ends_as g P (k a) (h a)) ->
  ends_as g P (x ≫= k) (y ≫= h).
Proof. intros Hx Hk. apply (ends_as_bind id (fun _ => True)); [|done]. intros m a m1 E. split; [by apply Hx|done]. Qed.
Lemma ends_as_ret {A} g P (a b : A) : P a -> b = g a -> ends_as g P (mret a) (mret b).
Proof. intros Ha -> m c m1 [= <- <-]. done. Qed.
Lemma ends_as_fail {A} g (P : A -> Prop) e y : ends_as g P (hfail e) y.
Proof. done. Qed.
Lemma ends_as_lift {A} g (P : A -> Prop) x y : (forall a, x = Ok a -> y = Ok (g a) /\ P a) -> ends_as g P (hlift x) (hlift y).
Proof. intros H m a m1. unfold hlift. destruct x as [b|]; [|done]. intros [= <- <-]. by destruct (H b eq_refl) as [-> Hb]. Qed.

Section Steps.
Context (fe : FloatEnv) (dialect : option (string -> option OpDef)) `{!ExprPass fe dialect f ok}.
Context (snapshots : list HashmapInvocationSnapshot).
Abbreviation carried := (ends_as mapped fine).
Local Ltac next := first [apply ends_as_same; [first [by apply pass_value|apply implies_refl]|intros ?]|by apply ends_as_fail|apply ends_as_ret].

Lemma begin_mapped i tag t : fine i -> carried (hlift (begin_async i tag t)) (hlift (begin_async (mapped i) tag t)).
Proof.
  intros Hi. apply ends_as_lift. unfold begin_async. cbn [mapped with_frames hi_pending_async]. destruct (_ !! tag); [done|].
  intros j [= <-]. done.
Qed.
Lemma exec_mapped n id i : exprs_ok n = true -> fine i ->
  carried (exec_node fe dialect snapshots n id i) (exec_node fe dialect snapshots (map_exprs n) id (mapped i)).
Proof.
  intros Hn Hi. destruct n; cbn [exprs_ok map_exprs exec_node] in *; rewrite ?andb_true_iff in Hn; destruct_and?; cbv zeta;
    change (snapshot (mapped i)) with (snapshot i); repeat next; try done; rewrite ?map_barriers.
  - destruct (_ || _), (Value.truthy a); by constructor.
  - by destruct (_ || _), (Value.truthy a).
  - by constructor.
  - apply begin_mapped; done.
  - apply begin_mapped; done.
  - apply (ends_as_bind (fun r => (r.1, mapped r.2)) (fun r => fine r.2)).
    + apply ends_as_lift. unfold finish_async. cbn [mapped with_frames hi_pending_async]. destruct (_ !! tag) as [t|]; [|done].
      intros r [= <-]. done.
    + intros r Hr. cbn [fst snd]. repeat next; done.
  - constructor.
  - by constructor.
  - by constructor.
Qed.

Lemma map_lookup l k : map map_exprs l !! k = map_exprs <$> l !! k.
Proof. apply list_lookup_fmap. Qed.
Lemma nodes_mapped i path ns k scoped : forallb exprs_ok ns = true -> fine i ->
  ends_as (fun r => (r.1, mapped r.2)) (fun r => fine r.2) (step_nodes_frame fe dialect snapshots i path ns k scoped)
    (step_nodes_frame fe dialect snapshots (mapped i) path (map map_exprs ns) k scoped).
Proof.
  intros Hns Hi. unfold step_nodes_frame. rewrite map_lookup. destruct (ns !! k) as [n|] eqn:En; cbn [fmap option_fmap option_map].
  - apply (ends_as_bind mapped fine).
    + apply exec_mapped; [|by constructor]. rewrite forallb_forall in Hns. by apply Hns, list_elem_of_In, (list_elem_of_lookup_2 _ k).
    + intros a Ha. by apply ends_as_ret.
  - apply ends_as_ret; by destruct scoped.
Qed.
Lemma frames_mapped fs : forall i, Forall frame_fine fs ->
  carried (step_frames fe dialect snapshots fs i) (step_frames fe dialect snapshots (map map_frame fs) i).
Proof.
  induction fs as [|fr fs IH]; intros i Hfs; cbn [map step_frames].
  { by apply ends_as_ret. }
  apply Forall_cons in Hfs as [Hfr Hfs]. destruct fr as [path ns k scoped|path x a b l]; cbn [map_frame frame_fine] in *.
  - apply (ends_as_bind (fun r => (r.1, mapped r.2)) (fun r => fine r.2)); [by apply (nodes_mapped (with_frames i fs))|].
    intros [stop j] Hj. cbn [fst snd] in *. destruct stop; [by apply ends_as_ret|]. intros m c m1 E. apply IH in E as [E Hc]; [|done].
    split; [|done]. rewrite <- E. by destruct fs as [|[] fs].
  - apply ends_as_lift. intros j. unfold step_loop_frame. cbn [push_frame with_frames hi_locals]. destruct (b <=? a); [by intros [= <-]|].
    destruct (bind_loop_var _ _ _); [|done]. intros [= <-]. split; [done|]. by do 2 (constructor; [done|]).
Qed.
Lemma step_mapped i : fine i -> carried (step fe dialect snapshots i) (step fe dialect snapshots (mapped i)).
Proof.
  intros Hi. unfold step. rewrite mapped_done. change (hi_waiting (mapped i)) with (hi_waiting i). destruct (done i || hi_waiting i); [by apply ends_as_ret|].
  intros m j m1 E. apply frames_mapped in E as [E Hj]; [|done]. split; [|done]. rewrite <- E. cbn [mapped with_frames hi_frames]. by destruct (hi_frames i) as [|[] fs].
Qed.
Lemma step_all_mapped invs : Forall fine invs ->
  ends_as (fun r => (r.1, map mapped r.2)) (fun r => Forall fine r.2) (step_all fe dialect snapshots invs) (step_all fe dialect snapshots (map mapped invs)).
Proof.
  induction 1 as [|i invs Hi Hinvs IH]; cbn [map step_all]; [by apply ends_as_ret|]. rewrite mapped_done. change (hi_waiting (mapped i)) with (hi_waiting i).
  destruct (done i || hi_waiting i).
  - eapply ends_as_bind; [exact IH|]. intros r Hr. apply ends_as_ret; [by constructor|done].
  - eapply ends_as_bind; [by apply step_mapped|]. intros j Hj. eapply ends_as_bind; [exact IH|]. intros r Hr. apply ends_as_ret; [by constructor|done].
Qed.
End Steps.

(** ** The schedule *)

Lemma filter_mapped (q : HashmapInvocation -> bool) invs : (forall i, q (mapped i) = q i) ->
  filter (fun i : HashmapInvocation => q i) (map mapped invs) = map mapped (filter (fun i : HashmapInvocation => q i) invs).
Proof.
  intros Hq. induction invs as [|i invs IH]; [done|]. cbn [map]. rewrite !filter_cons, Hq, IH. by case_decide.
Qed.
Lemma live_mapped invs : live_count (map mapped invs) = live_count invs /\ live_waiting_count (map mapped invs) = live_waiting_count invs.
Proof.
  unfold live_count, live_waiting_count. rewrite (filter_mapped (fun i => negb (done i))) by (intros; by rewrite mapped_done).
  rewrite (filter_mapped (fun i => negb (done i) && hi_waiting i)) by (intros; by rewrite mapped_done). by rewrite !length_map.
Qed.
Lemma uniform_mapped invs : verify_uniform_control_flow (map mapped invs) = verify_uniform_control_flow invs.
Proof.
  unfold verify_uniform_control_flow. rewrite (filter_mapped (fun i => negb (done i))) by (intros; by rewrite mapped_done). by rewrite map_map.
Qed.
Lemma all_done_mapped invs : forallb done (map mapped invs) = forallb done invs.
Proof. induction invs as [|i invs IH]; [done|]. cbn [map forallb]. by rewrite mapped_done, IH. Qed.
Lemma release_mapped invs : release_barrier_if_ready (map mapped invs) = map mapped <$> release_barrier_if_ready invs.
Proof.
  unfold release_barrier_if_ready. destruct (live_mapped invs) as [-> ->]. destruct (_ && _); [|done]. cbn. f_equal. by rewrite !map_map.
Qed.

Section Dispatch.
Context (fe : FloatEnv) (dialect : option (string -> option OpDef)) `{!ExprPass fe dialect f ok}.
Lemma run_loop_mapped sub fuel : forall invs, Forall fine invs ->
  ends_as (map mapped) (Forall fine) (run_loop fe dialect sub fuel invs) (run_loop fe dialect sub fuel (map mapped invs)).
Proof.
  induction fuel as [|fuel IH]; intros invs Hinvs; cbn [run_loop]; rewrite all_done_mapped; (destruct (forallb done invs); [by apply ends_as_ret|]); [done|].
  apply (ends_as_bind (fun r => (r.1, map mapped r.2)) (fun r => Forall fine r.2)).
  { unfold step_round_robin. replace (map snapshot (map mapped invs)) with (map snapshot invs) by (by rewrite map_map). by apply step_all_mapped. }
  intros [progress invs1] H1. cbn [fst snd] in *. rewrite uniform_mapped. apply ends_as_same; [apply implies_refl|intros _].
  rewrite release_mapped, (proj2 (live_mapped invs1)). destruct (release_barrier_if_ready invs1) as [released|] eqn:Er; cbn [fmap option_fmap option_map].
  - apply IH. unfold release_barrier_if_ready in Er. destruct (_ && _); [|done]. injection Er as <-. apply Forall_map. by eapply Forall_impl; [exact H1|].
  - destruct (_ && _); [done|]. by apply IH.
Qed.

Lemma create_mapped p wg invs : forallb exprs_ok (entry p) = true -> create_invocations p wg (entry p) = Ok invs ->
  create_invocations (map_program p) wg (entry (map_program p)) = Ok (map mapped invs) /\ Forall fine invs.
Proof.
  intros Hok H. destruct (create_pair p (map_program p) wg (entry p) (entry (map_program p)) invs eq_refl H) as (invs' & -> & Hpair). clear H.
  enough (invs' = map mapped invs /\ Forall fine invs) as [-> ?] by done.
  induction Hpair as [|i i' l l' (ids & k & -> & ->) _ [-> IH]]; [done|]. split; [done|]. constructor; [|done]. by constructor.
Qed.
Lemma workgroup_mapped sub fuel p wg : forallb exprs_ok (entry p) = true ->
  implies (run_workgroup fe dialect sub fuel p wg) (run_workgroup fe dialect sub fuel (map_program p) wg).
Proof.
  intros Hok. unfold run_workgroup. do 3 (apply implies_bind; [apply implies_refl|intros ?]). intros m r (invs & m1 & [Ec ->]%hlift_Ok & E)%hbind_Ok.
  apply create_mapped in Ec as [Ec Hf]; [|done]. etrans; [eapply hbind_eq; unfold hlift; by rewrite Ec|].
  apply hbind_Ok in E as (invs2 & m2 & E & [= <-]). unfold run_invocations in E. apply hbind_Ok in E as (invs1 & m3 & E & Ex).
  apply run_loop_mapped in E as [E _]; [|done].
  assert (existsb (fun i => negb (bool_decide (hi_pending_async i = ∅))) (map mapped invs1)
    = existsb (fun i => negb (bool_decide (hi_pending_async i = ∅))) invs1) as Hp.
  { clear. induction invs1 as [|i invs IH]; [done|]. cbn [map existsb]. by rewrite IH. }
  destruct (existsb _ invs1); [done|]. injection Ex as <- <-.
  assert (run_invocations fe dialect sub fuel (map mapped invs) m = Ok (map mapped invs1, m3)) as Hi.
  { unfold run_invocations. etrans; [by eapply hbind_eq|]. by rewrite Hp. }
  by etrans; [eapply hbind_eq; exact Hi|].
Qed.

(** What the statistics see. *)
Definition expr_item (q : Expr -> bool) (i : item) : bool := match i with IExpr e => q e | INode _ => false end.
Lemma expr_items_any q e : existsb (expr_item q) (expr_items e) = any q e.
Proof. unfold expr_items. induction (subexprs e) as [|x l IH]; [done|]. cbn. by rewrite IH. Qed.
Lemma map_items q n : (forall e, ok e = true -> any q (f e) = any q e) -> exprs_ok n = true ->
  existsb (expr_item q) (items (map_exprs n)) = existsb (expr_item q) (items n).
Proof.
  intros Hq. assert (forall l, Forall (fun n => exprs_ok n = true -> existsb (expr_item q) (items (map_exprs n)) = existsb (expr_item q) (items n)) l ->
    forallb exprs_ok l = true -> existsb (expr_item q) (flat_map items (map map_exprs l)) = existsb (expr_item q) (flat_map items l)) as Hl.
  { induction 1 as [|x l Hx _ IH]; [done|]. cbn [forallb map flat_map]. intros [H1 H2]%andb_true_iff. by rewrite !existsb_app, Hx, IH. }
  induction n using Node_ind'; cbn [exprs_ok map_exprs items existsb expr_item orb]; rewrite ?andb_true_iff; intros Hn; destruct_and?; try done;
    rewrite ?existsb_app, ?expr_items_any, ?Hq, ?Hl by done; done.
Qed.
Lemma program_map_items q p : (forall e, ok e = true -> any q (f e) = any q e) -> forallb exprs_ok (entry p) = true ->
  existsb (expr_item q) (program_items (map_program p)) = existsb (expr_item q) (program_items p).
Proof.
  intros Hq. unfold program_items. cbn [map_program with_rewritten_entry entry]. induction (entry p) as [|n l IH]; [done|].
  cbn [forallb map flat_map]. intros [H1 H2]%andb_true_iff. by rewrite !existsb_app, map_items, IH.
Qed.
Lemma map_subgroup p : forallb exprs_ok (entry p) = true -> rc_subgroup_ops (scan (map_program p)) = rc_subgroup_ops (scan p).
Proof.
  assert (forall q, rc_subgroup_ops (scan q) = existsb (expr_item is_subgroup_expr) (program_items q)) as H.
  { intros q. cbn [scan rc_subgroup_ops]. rewrite stats_subgroup. unfold program_exprs. rewrite existsb_omap. apply existsb_ext_all. by intros []. }
  rewrite !H. apply program_map_items. intros e. apply (pass_subgroup (fe := fe) (dialect := dialect)).
Qed.
Lemma map_grid powf p b : forallb exprs_ok (entry p) = true -> grid powf (map_program p) b = grid powf p b.
Proof.
  intros Hok. unfold grid, dispatch_elements. rewrite !counts_items. pose proof (program_map_items is_atomic p) as H. unfold expr_item in H. unfold atomic_item.
  rewrite H; [done| |done]. intros e. apply (pass_atomic (fe := fe) (dialect := dialect)).
Qed.
Lemma grid_mapped fuel p wgs : forallb exprs_ok (entry p) = true ->
  implies (run_grid fe dialect fuel p wgs) (run_grid fe dialect fuel (map_program p) wgs).
Proof.
  intros Hok. induction wgs as [|wg wgs IH]; cbn [run_grid]; [apply implies_refl|]. rewrite map_subgroup by done.
  apply implies_bind; [by apply workgroup_mapped|by intros _].
Qed.
(** A dispatch of the rewritten program. *)
Lemma dispatch_mapped powf fuel p inputs outputs : forallb exprs_ok (entry p) = true -> validation_errors dialect (map_program p) = [] ->
  run_hashmap_reference fe dialect powf fuel p inputs = Ok outputs ->
  run_hashmap_reference fe dialect powf fuel (map_program p) inputs = Ok outputs.
Proof.
  intros Hok Hv Hrun. unfold run_hashmap_reference in *. rewrite Hv. destruct (validation_errors dialect p); [|done].
  apply bind_Ok in Hrun as (b & Hb & Hrun). apply bind_Ok in Hrun as (u & Hz & Hrun). apply bind_Ok in Hrun as (r & Hg & Hout).
  change (bind_inputs (map_program p) inputs) with (bind_inputs p inputs). rewrite Hb. cbn [mbind result_bind].
  change (workgroup_size (map_program p)) with (workgroup_size p). rewrite Hz. cbn [mbind result_bind].
  rewrite map_grid by done. by rewrite (grid_mapped fuel p _ Hok _ _ Hg).
Qed.
End Dispatch.
End MapExprs.
