(* ===== verification/CanonicalSound.v ===== *)
(** Canonicalisation keeps the behaviour of a program.

    Reordered operands are evaluated in the other order, so the pass is an [ExprPass] on
    expressions whose reordered operands do not interfere ([orderly]); the rest is the
    theorem about passes on expressions.  The last part runs programs outside the
    condition. *)

From S2P Require Import Prelude Float Spec IR ProgramStats RefValue RefMemory RefEval StrengthReduce Rewrite ConstFold Collectives ProgramFacts ValidateExpr Validate.
From S2P Require Import RefHash RefSched RefSchedSound RefWorkgroup RefDispatch RefDispatchSound ScopingSound ConstFoldGaps.
From S2P Require Import DeadCode DeadCodeSim DeadCodeSound Cse CseKeys CseSound CseLockstep CseCorrect ExprMap Canonical.

(** ** Operands that may change places *)

(** Neither reads nor changes the memory. *)
Definition constant (e : Expr) : bool :=
  match e with
  | Expr.LitU32 _ | Expr.LitI32 _ | Expr.LitF32 _ | Expr.LitBool _ | Expr.Var _
  | Expr.InvocationId _ | Expr.WorkgroupId _ | Expr.LocalId _ => true
  | _ => false
  end.
(** Does not change the memory. *)
Definition quiet (e : Expr) : bool := negb (expr_has_effect e) && subgroup_free e.
Definition commutes (l r : Expr) : bool := constant l || constant r || quiet l && quiet r.

Section Sound.
Context (hash : string -> Z).
Abbreviation canon := (canonicalize_expr hash).

Fixpoint orderly (e : Expr) : bool :=
  match e with
  | Expr.BinOp op l r => orderly l && orderly r && bool_decide (folds op (canon l) (canon r) = None)
      && (negb (should_swap hash op (canon l) (canon r)) || commutes l r)
  | Expr.UnOp _ x | Expr.Cast _ x | Expr.Load _ x => orderly x
  | Expr.Select x y z | Expr.Fma x y z => orderly x && orderly y && orderly z
  | Expr.Atomic _ _ i x v _ => orderly i && match x with Some y => orderly y | None => true end && orderly v
  | _ => true
  end.
Lemma orderly_binop op l r : orderly (Expr.BinOp op l r) = true -> orderly l = true /\ orderly r = true
  /\ ((should_swap hash op (canon l) (canon r) = true /\ commutes l r = true /\ canon (Expr.BinOp op l r) = Expr.BinOp op (canon r) (canon l))
      \/ canon (Expr.BinOp op l r) = Expr.BinOp op (canon l) (canon r)).
Proof.
  cbn [orderly canonicalize_expr]. rewrite !andb_true_iff, bool_decide_eq_true. intros [[[Hl Hr] Hf] Hs]. split_and!; [done..|].
  rewrite binop_cases, Hf. destruct (should_swap hash op (canon l) (canon r)); [left|by right]. done.
Qed.
Lemma swap_commutative op l r : should_swap hash op l r = true -> is_commutative op = true.
Proof. unfold should_swap. by destruct op. Qed.

Lemma constant_canon e : constant e = true -> canon e = e.
Proof. by destruct e. Qed.
Local Ltac by_induction := repeat match goal with IH : orderly _ = true -> _ = _ |- _ => rewrite IH by done; clear IH end.
Local Ltac by_parts := cbn [orderly]; rewrite ?andb_true_iff; intros Ho; destruct_and?; try done.
Lemma canon_effect e : orderly e = true -> expr_has_effect (canon e) = expr_has_effect e.
Proof.
  induction e using Expr_ind'; try (by_parts; cbn [canonicalize_expr expr_has_effect]; by_induction; done).
  intros (Hl & Hr & [(_ & _ & ->)| ->])%orderly_binop; cbn [expr_has_effect]; rewrite IHe1, IHe2 by done; [apply orb_comm|done].
Qed.
Lemma canon_subgroup_free e : orderly e = true -> subgroup_free (canon e) = subgroup_free e.
Proof.
  induction e using Expr_ind'; try (by_parts; cbn [canonicalize_expr subgroup_free]; by_induction; done).
  - intros (Hl & Hr & [(_ & _ & ->)| ->])%orderly_binop; cbn [subgroup_free]; rewrite IHe1, IHe2 by done; [apply andb_comm|done].
  - by_parts. cbn [canonicalize_expr subgroup_free]. rewrite IHe1, IHe2 by done. destruct e2; [|done]. cbn [Forall_opt] in *. by rewrite H.
Qed.
Local Ltac inside := cbn [canonicalize_expr subexprs existsb is_atomic is_subgroup_expr orb]; rewrite ?existsb_app.
Lemma canon_atomic e : orderly e = true -> any is_atomic (canon e) = any is_atomic e.
Proof.
  induction e using Expr_ind'; try (by_parts; inside; by_induction; done).
  intros (Hl & Hr & [(_ & _ & ->)| ->])%orderly_binop; inside; by_induction; [apply orb_comm|done].
Qed.
Lemma canon_subgroup e : orderly e = true -> any is_subgroup_expr (canon e) = any is_subgroup_expr e.
Proof.
  induction e using Expr_ind'; try (by_parts; inside; by_induction; done).
  - intros (Hl & Hr & [(_ & _ & ->)| ->])%orderly_binop; inside; by_induction; [apply orb_comm|done].
  - by_parts. destruct e2; cbn [Forall_opt] in *; inside; by_induction; done.
Qed.

(** ** Values *)

Section Values.
Context (fe : FloatEnv) (dialect : option (string -> option OpDef)) (snapshots : list HashmapInvocationSnapshot).
Abbreviation eval := (eval_expr fe dialect snapshots).

Lemma constant_memoryless e lane : constant e = true -> memoryless (eval e lane).
Proof. destruct e; try done; intros _; cbn [eval_expr]; cbv zeta; auto using memoryless_lift, memoryless_ret. Qed.
Lemma quiet_keeps e lane m v m1 : orderly e = true -> quiet e = true -> eval (canon e) lane m = Ok (v, m1) -> m1 = m.
Proof.
  intros Ho [He Hs]%andb_true_iff. apply negb_true_iff in He. apply pure_keeps; [by rewrite canon_effect|by rewrite canon_subgroup_free].
Qed.
(** Both orders give the same where the operands do not interfere. *)
Lemma swap_value op l r lane : orderly l = true -> orderly r = true -> commutes l r = true -> is_commutative op = true ->
  implies (eval (Expr.BinOp op (canon l) (canon r)) lane) (eval (Expr.BinOp op (canon r) (canon l)) lane).
Proof.
  intros Hl Hr Hc Hop m res E. cbn [eval_expr] in *. apply hbind_Ok in E as (a & m1 & Ea & E). apply hbind_Ok in E as (b & m2 & Eb & E).
  rewrite eval_binop_comm in E by done. unfold commutes in Hc. rewrite !orb_true_iff, andb_true_iff in Hc.
  assert (exists m3, eval (canon r) lane m = Ok (b, m3) /\ eval (canon l) lane m3 = Ok (a, m2)) as (m3 & Eb' & Ea').
  { destruct Hc as [[Hc|Hc]|[Ql Qr]].
    - rewrite (constant_canon l) in * by done. apply constant_memoryless in Ea as [-> Ea]; [|done]. eauto.
    - rewrite (constant_canon r) in * by done. apply constant_memoryless in Eb as [-> Eb]; [|done]. eauto.
    - pose proof (quiet_keeps _ _ _ _ _ Hl Ql Ea) as ->. pose proof (quiet_keeps _ _ _ _ _ Hr Qr Eb) as ->. eauto. }
  etrans; [by eapply hbind_eq|]. by etrans; [eapply hbind_eq|].
Qed.
Lemma implies_trans {A} (x y z : HM A) : implies x y -> implies y z -> implies x z.
Proof. intros H1 H2 m r E. by apply H2, H1. Qed.
Lemma canon_value e : orderly e = true -> forall lane, implies (eval e lane) (eval (canon e) lane).
Proof.
  induction e using Expr_ind'; try (by_parts; intros lane; cbn [canonicalize_expr eval_expr]; cbv zeta;
    repeat (apply implies_bind; [auto using implies_refl; fail|intros ?]); apply implies_refl).
  - intros Ho lane. pose proof (orderly_binop _ _ _ Ho) as (Hl & Hr & Hc). eapply implies_trans.
    + apply (implies_bind _ (eval (canon e1) lane)); [by apply IHe1|]. intros a. apply (implies_bind _ (eval (canon e2) lane)); [by apply IHe2|intros b; apply implies_refl].
    + destruct Hc as [(Hs & Hc & ->)| ->]; [|apply implies_refl]. apply swap_value; [done..|]. by eapply swap_commutative.
  - by_parts. intros lane. cbn [canonicalize_expr eval_expr]. apply implies_bind; [destruct e2; [|apply implies_refl]; destruct op; apply implies_refl|intros ?].
    do 2 (apply implies_bind; [auto using implies_refl; fail|intros ?]). apply implies_bind.
    { destruct e2 as [y|]; [|apply implies_refl]. cbn [Forall_opt] in *. apply implies_bind; auto using implies_refl. }
    intros ?. repeat (apply implies_bind; [auto using implies_refl; fail|intros ?]). apply implies_refl.
Qed.
End Values.

#[export] Instance canonical_pass fe dialect : ExprPass fe dialect canon orderly.
Proof. split; [intros; by apply canon_value|apply canon_atomic|apply canon_subgroup]. Qed.
(** The pass goes through the statements as [map_program] does. *)
Lemma canonical_map p : canonicalize hash p = map_program canon p.
Proof. reflexivity. Qed.
End Sound.

Module Normalised.
Import Validated Gaps.

(** C12: canonicalisation preserves behaviour: take a program that compares no variable with
    itself and in which operands that change places do not interfere (one of them is a
    literal, a variable or an id, or neither changes the memory or looks at other lanes).
    Whatever a dispatch of the program returns, a dispatch of its canonical form returns
    the same, in the same number of rounds, for any hash of identifiers, provided that the
    validator accepts it. *)
Theorem canonical_preserves hash fe dialect powf fuel p inputs outputs
    (Hok : forallb (exprs_ok (orderly hash)) (entry p) = true) (Hv : validation_errors dialect (canonicalize hash p) = [])
    (Hrun : run_hashmap_reference fe dialect powf fuel p inputs = Ok outputs) :
  run_hashmap_reference fe dialect powf fuel (canonicalize hash p) inputs = Ok outputs.
Proof. rewrite canonical_map in *. exact (dispatch_mapped (canonicalize_expr hash) (orderly hash) fe dialect powf fuel p inputs outputs Hok Hv Hrun). Qed.

(** C27: the canonical form is a normal form: canonicalising twice is canonicalising once;
    both spellings of a commutative operation have the same form when one operand is a
    literal and the other is not, or the operator sorts its operands and their keys
    differ; and a program the analysis skips is in canonical form already. *)
Theorem canonical_stable hash p :
  canonicalize hash (canonicalize hash p) = canonicalize hash p
  /\ canonicalize_borrowed hash p = canonicalize hash p
  /\ (forall op l r, is_commutative_binop op = true -> ordered hash op (canonicalize_expr hash l) (canonicalize_expr hash r) ->
        canonicalize_expr hash (Expr.BinOp op l r) = canonicalize_expr hash (Expr.BinOp op r l))
  /\ (Canonicalize_analyze p = false -> canonicalize hash p = p).
Proof.
  split_and!; [|done| |].
  - unfold canonicalize, canonicalize_nodes. cbn. f_equal. rewrite map_map. apply map_ext, node_stable.
  - intros op l r Hc Ho. by apply either_order.
  - unfold Canonicalize_analyze. rewrite stats_kinds, <- nodes_of_entry. intros H. unfold canonicalize, canonicalize_nodes.
    rewrite still_list; [by destruct p| |done]. apply Forall_true, node_still.
Qed.

(** Reordered operands of every kind: literals, lane ids, loads. *)
Definition bits (op : BinOp) (l r : Expr) : Expr := Expr.BinOp op l r.
Definition here : Expr := Expr.InvocationId 0.
Definition spelled : Program := kernel
  [Node.Let "a" (bits BinOp.Add (lit 3) here);
   Node.Let "b" (bits BinOp.BitXor (Expr.UnOp UnOp.BitNot (Expr.Var "a")) (Expr.Load "out" (bits BinOp.Mul (lit 1) here)));
   Node.If (bits BinOp.Eq (Expr.LocalId 0) (lit 0)) [out_is (Expr.Var "b")] [out_is (bits BinOp.BitAnd (Expr.Cast DataType.U32 here) (Expr.Var "a"))]].
Definition respelled : Program := kernel
  [Node.Let "a" (bits BinOp.Add here (lit 3));
   Node.Let "b" (bits BinOp.BitXor (Expr.Load "out" (bits BinOp.Mul here (lit 1))) (Expr.UnOp UnOp.BitNot (Expr.Var "a")));
   Node.If (bits BinOp.Eq (Expr.LocalId 0) (lit 0)) [out_is (Expr.Var "b")] [out_is (bits BinOp.BitAnd (Expr.Var "a") (Expr.Cast DataType.U32 here))]].
Definition run_hashmap (p : Program) : interp (list Value) :=
  run_hashmap_reference TypedOps.zero_env None Reference.exact_root 100 p [].
Definition length_hash (name : string) : Z := Z.of_nat (String.length name).
Lemma canonical_preserves_witness : canonicalize length_hash spelled = respelled
  /\ run_hashmap (canonicalize length_hash spelled) = run_hashmap spelled.
Proof.
  split; [vm_compute; reflexivity|].
  destruct (run_hashmap spelled) as [outputs|] eqn:E; [|exfalso; vm_compute in E; discriminate E].
  apply (canonical_preserves length_hash TypedOps.zero_env None Reference.exact_root 100 spelled); [vm_compute; reflexivity..|exact E].
Defined.

(** *** Outside the conditions *)

Definition nan : Expr := Expr.LitF32 0x7FC00000.
Definition self_equal (test : Expr) : Program := kernel [Node.Let "x" nan; out_is (Expr.Select test (lit 1) (lit 2))].
(** A read-modify-write and a read of the same element. *)
Definition bump : Expr := Expr.Atomic AtomicOp.Add "out" (lit 4) None (lit 1) MemoryOrdering.SeqCst.
Definition reading : Expr := Expr.Cast DataType.U32 (Expr.Load "out" (lit 4)).
Definition tally (l r : Expr) : Program := kernel [out_is (bits BinOp.BitXor l r)].
Definition element (k : Z) : Expr := Expr.Load "out" (lit k).

(** Where canonicalisation changes a valid program, and what it does not make equal: a
    variable that holds a NaN equals itself afterwards; an atomic and a load of the same
    element change places; and two loads of one buffer have one key, so their two orders
    keep two forms, although sorting them is safe. *)
Theorem canonical_gaps hash :
  (canonicalize hash (self_equal (bits BinOp.Eq x x)) = self_equal (Expr.LitBool true)
   /\ validation_errors None (self_equal (bits BinOp.Eq x x)) = []
   /\ run_kernel (self_equal (bits BinOp.Eq x x)) = words [2; 2; 2; 2; 2]
   /\ run_kernel (self_equal (Expr.LitBool true)) = words [1; 1; 1; 1; 1])
  /\ (canonicalize hash (tally bump reading) = tally reading bump
      /\ validation_errors None (tally bump reading) = []
      /\ run_kernel (tally bump reading) = words [1; 3; 1; 7; 2]
      /\ run_kernel (tally reading bump) = words [0; 0; 0; 0; 1])
  /\ canonicalize_expr hash (bits BinOp.BitXor (element 0) (element 1)) <> canonicalize_expr hash (bits BinOp.BitXor (element 1) (element 0)).
Proof.
  split_and!.
  - unfold canonicalize, canonicalize_nodes. cbn [self_equal kernel entry map canonicalize_node canonicalize_expr out_is bits x]. by rewrite binop_cases.
  - by vm_compute.
  - by vm_compute.
  - by vm_compute.
  - reflexivity.
  - by vm_compute.
  - by vm_compute.
  - by vm_compute.
  - cbn [bits element canonicalize_expr]. rewrite !binop_cases. cbn [folds]. unfold should_swap. cbn [is_commutative_binop is_literal expr_sort_key andb].
    rewrite Z.ltb_irrefl, andb_false_r. congruence.
Qed.
End Normalised.
